(* ===== verification/_CoqProject ===== *)
-Q . S2P
Prelude.v
Bytes.v
Graph.v
GraphProofs.v
GraphRemoval.v
GraphTheorems.v
External.v
Transaction.v
Expirations.v
InflightState.v
Subscription.v
TransactionGraph.v
TransactionGraphProofs.v
BatchGraph.v
Mempool.v
InflightProofs.v
InflightOps.v
BatchGraphProofs.v
SubscriptionProofs.v
MempoolInv.v
MempoolOps.v
MempoolTheorems.v
NtxAccount.v
NtxState.v
NtxTheorems.v
NtxInv.v
NtxOps.v
NtxEvents.v
NtxBuilder.v
Challenge.v
Pow.v
PowTheorems.v
FaucetServer.v
FaucetMint.v
FaucetTheorems.v
StoreObjects.v
BlockStore.v
StoreSql.v
StoreWrite.v
StoreRead.v
StoreProofs.v
StoreTrees.v
StoreState.v
StoreApply.v
StoreQueries.v
StoreReads.v
StoreTheorems.v
Genesis.v
GenesisTheorems.v
StoreInputs.v
StoreSchema.v
StoreMigrations.v
WireObjects.v
Wire.v
WireTheorems.v
StoreApi.v
StoreClient.v
NtxTransaction.v
StoreApiTheorems.v
AccountProofs.v
Rpc.v
RpcTheorems.v
Producer.v
ProducerTheorems.v
ProducerSpends.v
NodeStart.v
Proxy.v
ProxyTheorems.v
RemoteProver.v
RemoteProverTheorems.v
Concrete.v
MempoolExamples.v
StoreExamples.v
NtxExamples.v
ProducerExamples.v
FaucetExamples.v
WireExamples.v
ProverExamples.v
GenesisExamples.v
NodeExamples.v
