(* ===== verification/Prelude.v ===== *)
(** * Verification of miden-node

    A model of the node's core in Rocq with the theorems that make it correct. The
    definitions follow the Rust sources under [src/]; this header says which file
    models what, what is proved, and what is left out.

    ** The program

    A Miden node is made of the store ([crates/store]), the block producer
    ([crates/block-producer]), the network transaction builder
    ([crates/ntx-builder]) and the RPC server ([crates/rpc]); a prover proxy
    ([bin/remote-prover]) and a faucet ([bin/faucet]) run beside it. A transaction
    enters the block producer's mempool over RPC. Batch jobs take it from there into
    a batch, prove the batch and return it; the block builder takes proven batches
    into a block, proves it, sends it to the store and tells the mempool. The network
    transaction builder subscribes to the mempool's events and submits transactions
    of its own. The store keeps the chain in SQLite and in Merkle trees in memory.

    ** How code is modelled

    A method on [&mut self] is a function of the state monad [M S E A] of this file:
    it returns the state and [Ok], [Err], [Panic] or [OutOfFuel]. [Panic] is any
    panic: [expect], [unwrap], assertions, index and overflow checks. The state is
    returned on every outcome, so that the atomicity of a failing call is a theorem.
    Loops over collections are [for_each] and [fold_m]; worklist loops carry fuel
    equal to a bound of their iterations, and [OutOfFuel] is proved unreachable.
    [wp] is the weakest precondition: a panic satisfies none, so every [wp] lemma is
    total correctness. Ordered collections are [gset] and [gmap] with the iteration
    in key order of [bt_iter]. Concurrent tasks are relations on sequences of
    events, an event being what happens under one lock.

    Code that is not in the repository is an interface: the protocol library
    ([miden_objects], [miden_lib], [miden_tx]) and its hashes, Merkle trees,
    serialisation and provers; tokio's channels; gRPC answers. Each interface is a
    class of operations and a class of laws that state documented behaviour; the
    [Concrete] files instantiate both, so that the hypotheses can be met and every
    theorem with hypotheses has a witness on a concrete run.

    ** The files

    - [Prelude.v], [Bytes.v]: the monad, its rules, ordered collections; words,
      bytes and strings.
    - The dependency graph, [block-producer/src/mempool/graph/mod.rs]: [Graph.v] has
      every method, the abstract graph (a status and a set of parents per node) and
      the relation [rep]; [GraphProofs.v] and [GraphRemoval.v] one simulation lemma
      per method; [GraphTheorems.v] the refinement over all reachable graphs,
      progress, and inverse operations.
    - The mempool, [block-producer/src/mempool/]: [External.v] is the interface of
      the protocol library, [Transaction.v] the authenticated transaction and the
      budgets; [Expirations.v], [InflightState.v], [Subscription.v],
      [TransactionGraph.v], [BatchGraph.v] and [Mempool.v] follow the source's
      files. [Expirations.v], [InflightProofs.v], [InflightOps.v],
      [TransactionGraphProofs.v], [BatchGraphProofs.v] and [SubscriptionProofs.v]
      specify each component against its own invariant; [MempoolInv.v] ties them
      together and [MempoolOps.v] proves every operation against the whole.
      [MempoolTheorems.v]: in every reachable mempool no operation panics, no
      nullifier is spent twice, accounts form chains, nothing expired stays, a
      subscriber sees a consistent stream; and what each operation does on each
      branch.
    - The network transaction builder, [ntx-builder/src/]: [NtxAccount.v] and
      [NtxState.v] its state, [NtxTheorems.v] the selection of candidates;
      [NtxInv.v], [NtxOps.v] and [NtxEvents.v] the invariant of the state and its
      preservation by every event; [NtxBuilder.v] the loop over ticks, events and
      finished tasks, which does not panic on the streams of events described there;
      [NtxTransaction.v] the execution of one
      candidate and the clients it uses.
    - The store, [store/src/]: [StoreObjects.v] and [StoreTrees.v] are interfaces;
      [StoreSql.v], [StoreWrite.v] and [StoreRead.v] the tables and statements of
      [db/sql/mod.rs]; [StoreState.v] and [StoreQueries.v] the methods of
      [state.rs]. [StoreProofs.v] and [StoreApply.v] show that the trees mirror the
      tables on every outcome of [apply_block]; [StoreTheorems.v], [StoreReads.v]
      and [StoreInputs.v] have the theorems: atomicity and the exact effect of a block
      on each table, chains without double spends, reloading, queries, paging. [StoreSchema.v]: the tables satisfy the
      schema of the database, whatever block is applied and whatever fails, and its
      rows read back. [StoreMigrations.v]: which databases a start accepts.
      [BlockStore.v]: the block files are a map.
    - Genesis, [store/src/genesis/]: [Genesis.v] and [GenesisTheorems.v]: a
      configuration becomes accounts that conserve every asset, in the configured
      numbers, which the code does not scale by the decimals; and the genesis
      block a store that the node starts from.
    - Messages and services: [WireObjects.v], [Wire.v] and [WireTheorems.v] have the
      conversions of [proto/src/domain/]; [StoreApi.v] the services of
      [store/src/server/] and [StoreClient.v] their clients, related to the store's
      tables by [StoreApiTheorems.v]; [AccountProofs.v] the account proofs; [Rpc.v]
      and [RpcTheorems.v] the service of [rpc/src/server/] in front of store and
      block producer, and the version its clients state.
    - The block producer as a system, [batch_builder/mod.rs], [block_builder/mod.rs],
      [server/mod.rs]: [Producer.v] runs the tasks on one mempool and one store;
      [ProducerTheorems.v] shows that no interleaving crashes the mempool and that no
      batch is left in limbo, under the conditions below; [ProducerSpends.v] that no inflight transaction spends a
      nullifier of the store, through batches, blocks and the mempool's forgetting.
    - The start of the node, [bin/node/src/commands/bundled.rs]: [NodeStart.v] has the
      components' ways to the checkpoint at which the block producer waits for the
      transaction builder, and shows that they come up in step, unless the store's data
      stop the transaction builder.
    - The prover proxy, [bin/remote-prover/src/proxy/]: [Proxy.v] and
      [ProxyTheorems.v]: the queue is sound, a worker serves one request at a time, an
      operator's update does what it reports.
    - The remote prover, [bin/remote-prover/src/api/] and [remote-prover-client]:
      [RemoteProver.v], [RemoteProverTheorems.v]: a remote proof is as good as a
      local one.
    - The faucet, [bin/faucet/src/]: [Challenge.v], [Pow.v] and [FaucetServer.v]
      (the server), [FaucetMint.v] (the minting task); [PowTheorems.v] shows that
      the challenge cache is a map and that it limits the rate of requests, as far as
      no cleanup overtakes a request;
      [FaucetTheorems.v] is about amounts and rollbacks.
    - [Concrete.v], [StoreExamples.v], [WireExamples.v], [FaucetExamples.v],
      [ProverExamples.v], [GenesisExamples.v] and [NodeExamples.v] instantiate
      the interfaces; they and [MempoolExamples.v], [NtxExamples.v] and
      [ProducerExamples.v] hold the witnesses, and runs outside the theorems' conditions
      that show why each condition is there: most of these runs are defects of the
      code.

    ** Assumptions worth knowing

    - [distinguishable]: a transaction added to the mempool has an id that is not
      inflight, or consumes or creates some note, so that a duplicate is noticed.
    - [allowed] and [admissible_event] of [Producer.v] are the protocol between the
      mempool and its callers: a proof is returned once for a selected batch, a block
      is committed only while one is in progress. [ProducerTheorems.v] discharges them for the
      tasks of the block producer but for two conditions the code does not ensure:
      a batch that is being built is not selected again, and the store's answer is
      not lost. [ProducerExamples.v] shows what happens otherwise.
    - [honest_event] of [ProducerSpends.v]: the provers invent no nullifiers, and the
      store's answer names what it had spent by the block it names. The service
      ensures the latter unless a block is applied between its two reads.
    - The store's theorems start from a database that agrees with its trees, as it
      does after loading. A block that reaches the store satisfies [block_ok] (it
      updates an account once, to a non-empty state), which holds by construction
      of a proven block.
    - A service that takes the lock of the state twice has an argument [between] for
      what other tasks do to the state meanwhile; its theorems ask of it only that
      the store stays consistent.
    - [admissible_event] of [NtxEvents.v] is what the transaction builder relies on in
      the mempool's events; [NtxExamples.v] has the panics of other streams.
    - Random choices and the orders of hash maps are arguments.
    - Block numbers are [u32] in the protocol library; [MidenLaws] idealises their
      addition and successor to those of [N], which they are as long as the tip is
      within the expiration slack of 2^32 blocks.
    - The clients of the remote prover give a request ten seconds; the theorem about
      them is about requests that take less.
    - Sizes fit in memory: a count is below 2^64 where the code counts in [usize].

    ** Bounds and fuel

    The worklists of the dependency graph ([revert_loop] and [purge_loop]) have as
    fuel the number of nodes they can visit, which [GraphProofs.v] and
    [GraphRemoval.v] show to be enough; batch and block selection have the number of
    nodes of their graph, each turn processing one root. [trim_start_matches] has
    the length of the string, [ilog10] the number's size in bits. Loops whose length
    another process decides have their fuel as an argument: [fetch_pages] and
    [unconsumed_pages], for which one more than the number of notes is enough
    ([store_pages], [pages_answer]), and the retries of [genesis_header_with_retry], which
    [genesis_retry] bounds by the failures of the connection, and of
    [subscribe_to_mempool_with_retry].

    ** Not modelled

    - Telemetry, logging, metrics and the formatting for them, although a span
      attribute of [block_builder/mod.rs] can panic ([checked_sub] in
      [ProposedBlock::inject_telemetry]).
    - Listeners, TLS, CORS, configuration and command lines; HTTP sessions; generated
      code. These are glue around libraries.
    - SQLite itself and its connection pool: a statement acts on the tables as its
      text says, a violated constraint fails the transaction, and a transaction is
      atomic.
    - Proving and executing transactions, Merkle trees and hashing, the templates of
      account components: libraries.
    - Timers and time-outs: an event may happen at any time.
    - The load generator [bin/stress-test]. *)

From stdpp Require Export base gmap sets list strings sorting numbers fin_maps fin_map_dom fin_sets.

(* ------------------------------------------------------------------------ *)
(** ** Outcomes and the state monad of a [&mut self] method *)

(** What a Rust call can do: return [Ok], return [Err], or panic (an [expect],
    an [unwrap], an [assert!], a [debug_assert!] or an arithmetic overflow).
    [OutOfFuel] is the outcome of a bounded loop whose bound was too small; it
    corresponds to no behaviour of the code and is proved unreachable. *)
Inductive res (E A : Type) : Type :=
| Ok (a : A)
| Err (e : E)
| Panic (msg : string)
| OutOfFuel.
Arguments Ok {E A} a.
Arguments Err {E A} e.
Arguments Panic {E A} msg.
Arguments OutOfFuel {E A}.

(** A method on [&mut S]: the state is returned on every outcome, so that the
    atomicity of a failing call is a statement about the state it leaves. *)
Definition M (S E A : Type) : Type := S → S * res E A.

#[global] Instance M_ret S E : MRet (M S E) := λ A a s, (s, Ok a).

#[global] Instance M_bind S E : MBind (M S E) := λ A B k m s,
  match m s with
  | (s', Ok a) => k a s'
  | (s', Err e) => (s', Err e)
  | (s', Panic p) => (s', Panic p)
  | (s', OutOfFuel) => (s', OutOfFuel)
  end.

Section combinators.
Context {S E : Type}.

Definition get : M S E S := λ s, (s, Ok s).

Definition gets {A} (f : S → A) : M S E A := λ s, (s, Ok (f s)).

Definition modify (f : S → S) : M S E unit := λ s, (f s, Ok tt).

Definition throw {A} (e : E) : M S E A := λ s, (s, Err e).

Definition panic {A} (msg : string) : M S E A := λ s, (s, Panic msg).

Definition out_of_fuel {A} : M S E A := λ s, (s, OutOfFuel).

Definition assert_ (b : bool) (msg : string) : M S E unit :=
  if b then mret tt else panic msg.

(** [Option::expect] and [Option::unwrap]. *)
Definition expect_some {A} (o : option A) (msg : string) : M S E A :=
  match o with Some a => mret a | None => panic msg end.

(** Unsigned subtraction with overflow checks. *)
Definition checked_sub_panic (a b : nat) : M S E nat :=
  if decide (b ≤ a) then mret (a - b) else panic "attempt to subtract with overflow".

(** [Result::expect]: the error of the inner call becomes a panic. *)
Definition expect_ok {E' A} (m : M S E' A) (msg : string) : M S E A := λ s,
  match m s with
  | (s', Ok a) => (s', Ok a)
  | (s', Err _) => (s', Panic msg)
  | (s', Panic p) => (s', Panic p)
  | (s', OutOfFuel) => (s', OutOfFuel)
  end.

(** The [From] conversion that the [?] operator applies to an error. *)
Definition map_err {E' A} (f : E' → E) (m : M S E' A) : M S E A := λ s,
  match m s with
  | (s', Ok a) => (s', Ok a)
  | (s', Err e) => (s', Err (f e))
  | (s', Panic p) => (s', Panic p)
  | (s', OutOfFuel) => (s', OutOfFuel)
  end.

(** [for x in l { f(x) }] *)
Fixpoint for_each {A} (l : list A) (f : A → M S E unit) : M S E unit :=
  match l with
  | [] => mret tt
  | x :: l => _ ← f x; for_each l f
  end.

(** A loop that threads an accumulator besides the state. *)
Fixpoint fold_m {A B} (f : B → A → M S E B) (b : B) (l : list A) : M S E B :=
  match l with
  | [] => mret b
  | x :: l => b' ← f b x; fold_m f b' l
  end.

End combinators.

(** A call on a field of [self]. *)
Definition zoom {S T E A} (field : S → T) (set_field : T → S → S) (m : M T E A)
  : M S E A := λ s,
  let '(t, r) := m (field s) in (set_field t s, r).

Lemma bind_ok {S E A B} {m : M S E A} {k : A → M S E B} {s s' a} : m s = (s', Ok a) → (x ← m; k x) s = k a s'.
Proof. intros Hm. unfold mbind, M_bind. by rewrite Hm. Qed.

(* ------------------------------------------------------------------------ *)
(** ** Weakest preconditions *)

(** [wp m s Q X]: run from [s], [m] returns; on [Ok] the postcondition [Q]
    holds, on [Err] the postcondition [X]. A panic satisfies no [wp]. *)
Definition wp {S E A} (m : M S E A) (s : S) (Q : S → A → Prop) (X : S → E → Prop) : Prop :=
  match m s with
  | (s', Ok a) => Q s' a
  | (s', Err e) => X s' e
  | _ => False
  end.

(** No error is returned either. *)
Abbreviation wp_ok m s Q := (wp m s Q (λ _ _, False)).

Section wp_rules.
Context {S E : Type}.
Implicit Types (s : S).

Lemma wp_ret {A} (a : A) s Q X : wp (mret a : M S E A) s Q X = Q s a.
Proof. reflexivity. Qed.

Lemma wp_bind {A B} (m : M S E A) (k : A → M S E B) s Q X :
  wp (x ← m; k x) s Q X = wp m s (λ s' a, wp (k a) s' Q X) X.
Proof. unfold wp, mbind, M_bind. by destruct (m s) as [s' []]. Qed.

Lemma wp_get s Q X : wp (get : M S E S) s Q X = Q s s.
Proof. reflexivity. Qed.

Lemma wp_gets {A} (f : S → A) s Q X : wp (gets f : M S E A) s Q X = Q s (f s).
Proof. reflexivity. Qed.

Lemma wp_modify f s Q X : wp (modify f : M S E unit) s Q X = Q (f s) tt.
Proof. reflexivity. Qed.

Lemma wp_throw {A} (e : E) s (Q : S → A → Prop) X : wp (throw e) s Q X = X s e.
Proof. reflexivity. Qed.

Lemma wp_mono {A} (m : M S E A) s (Q Q' : S → A → Prop) (X X' : S → E → Prop) :
  wp m s Q X → (∀ s' a, Q s' a → Q' s' a) → (∀ s' e, X s' e → X' s' e) → wp m s Q' X'.
Proof. unfold wp. destruct (m s) as [s' []]; auto. Qed.

(** A call without errors, in a context that allows some. *)
Lemma wp_weaken {A} (m : M S E A) s (Q : S → A → Prop) (X : S → E → Prop) :
  wp_ok m s Q → wp m s Q X.
Proof. intros H. eapply wp_mono; [exact H|done|done]. Qed.

Lemma wp_assert b msg s (Q : S → unit → Prop) (X : S → E → Prop) :
  b = true → Q s tt → wp (assert_ b msg) s Q X.
Proof. by intros ->. Qed.

Lemma wp_expect_some {A} (o : option A) a msg s (Q : S → A → Prop) (X : S → E → Prop) :
  o = Some a → Q s a → wp (expect_some o msg) s Q X.
Proof. by intros ->. Qed.

Lemma wp_checked_sub a b s (Q : S → nat → Prop) (X : S → E → Prop) :
  b ≤ a → Q s (a - b) → wp (checked_sub_panic a b) s Q X.
Proof. intros ??. unfold checked_sub_panic. by rewrite decide_True. Qed.

Lemma wp_expect_ok {E' A} (m : M S E' A) msg s (Q : S → A → Prop) (X : S → E → Prop) :
  wp_ok m s Q → wp (expect_ok m msg) s Q X.
Proof. unfold wp, expect_ok. by destruct (m s) as [s' []]. Qed.

Lemma wp_map_err {E' A} (f : E' → E) (m : M S E' A) s (Q : S → A → Prop) X :
  wp (map_err f m) s Q X = wp m s Q (λ s' e, X s' (f e)).
Proof. unfold wp, map_err. by destruct (m s) as [s' []]. Qed.

Lemma wp_zoom {T A} (field : T → S) set_field (m : M S E A) t (Q : T → A → Prop) X :
  wp (zoom field set_field m) t Q X =
  wp m (field t) (λ s' a, Q (set_field s' t) a) (λ s' e, X (set_field s' t) e).
Proof. unfold wp, zoom. by destruct (m (field t)) as [s' []]. Qed.

(** A [for] loop, by an invariant on the elements already visited. *)
Lemma wp_for_each {A} (I : list A → S → Prop) (l : list A) (f : A → M S E unit) s X :
  I [] s →
  (∀ pre x rest s', l = pre ++ x :: rest → I pre s' →
     wp (f x) s' (λ s'' _, I (pre ++ [x]) s'') X) →
  wp (for_each l f) s (λ s' _, I l s') X.
Proof.
  intros Hinit Hstep.
  enough (∀ rest pre s', l = pre ++ rest → I pre s' →
    wp (for_each rest f) s' (λ s'' _, I l s'') X) as H by (by apply (H l [] s)).
  intros rest. induction rest as [|x rest IH]; intros pre s' Hl Hd; simpl.
  { rewrite wp_ret. by rewrite Hl, app_nil_r. }
  rewrite wp_bind. eapply wp_mono; [by apply (Hstep pre x rest)| |done].
  intros s'' [] Hd'. apply (IH (pre ++ [x])); [by rewrite <- app_assoc|done].
Qed.

(** The same with an accumulator. *)
Lemma wp_fold_m {A B} (I : list A → S → B → Prop) (l : list A) (f : B → A → M S E B) b s X :
  I [] s b →
  (∀ pre x rest s' b', l = pre ++ x :: rest → I pre s' b' →
     wp (f b' x) s' (λ s'' b'', I (pre ++ [x]) s'' b'') X) →
  wp (fold_m f b l) s (λ s' b', I l s' b') X.
Proof.
  intros Hinit Hstep.
  enough (∀ rest pre s' b', l = pre ++ rest → I pre s' b' →
    wp (fold_m f b' rest) s' (λ s'' b'', I l s'' b'') X) as H by (by apply (H l [] s)).
  intros rest. induction rest as [|x rest IH]; intros pre s' b' Hl Hd; simpl.
  { rewrite wp_ret. by rewrite Hl, app_nil_r. }
  rewrite wp_bind. eapply wp_mono; [by apply (Hstep pre x rest)| |done].
  intros s'' b'' Hd'. apply (IH (pre ++ [x])); [by rewrite <- app_assoc|done].
Qed.

(** Both for loops that return no error. *)
Lemma wp_for_each_ok {A} (I : list A → S → Prop) (l : list A) (f : A → M S E unit) s
    (Q : S → unit → Prop) :
  I [] s →
  (∀ pre x rest s', l = pre ++ x :: rest → I pre s' →
     wp_ok (f x) s' (λ s'' _, I (pre ++ [x]) s'')) →
  (∀ s', I l s' → Q s' tt) →
  wp_ok (for_each l f) s Q.
Proof.
  intros Hinit Hstep Hend. eapply wp_mono; [by apply (wp_for_each I)| |done].
  intros s' [] H. by apply Hend.
Qed.

Lemma wp_fold_m_ok {A B} (I : list A → S → B → Prop) (l : list A) (f : B → A → M S E B) b s
    (Q : S → B → Prop) :
  I [] s b →
  (∀ pre x rest s' b', l = pre ++ x :: rest → I pre s' b' →
     wp_ok (f b' x) s' (λ s'' b'', I (pre ++ [x]) s'' b'')) →
  (∀ s' b', I l s' b' → Q s' b') →
  wp_ok (fold_m f b l) s Q.
Proof.
  intros Hinit Hstep Hend. eapply wp_mono; [by apply (wp_fold_m I)|done|done].
Qed.

(** What a [wp] says of the outcome. *)
Lemma wp_unfold {A} (m : M S E A) s Q X :
  wp m s Q X = match m s with (s', Ok a) => Q s' a | (s', Err e) => X s' e | _ => False end.
Proof. reflexivity. Qed.

Lemma wp_ok_run {A} (m : M S E A) s Q :
  wp_ok m s Q → ∃ s' a, m s = (s', Ok a) ∧ Q s' a.
Proof. unfold wp. destruct (m s) as [s' []]; naive_solver. Qed.

Lemma wp_run_ok {A} (m : M S E A) s Q X s' a :
  wp m s Q X → m s = (s', Ok a) → Q s' a.
Proof. unfold wp. intros H E1. by rewrite E1 in H. Qed.

Lemma wp_run_err {A} (m : M S E A) s Q X s' e :
  wp m s Q X → m s = (s', Err e) → X s' e.
Proof. unfold wp. intros H E1. by rewrite E1 in H. Qed.

End wp_rules.

Global Opaque wp.

(** Runs the administrative steps of a method body. *)
Ltac wp_step :=
  first
    [ rewrite wp_bind | rewrite wp_ret | rewrite wp_get | rewrite wp_gets
    | rewrite wp_modify | rewrite wp_throw | rewrite wp_zoom | rewrite wp_map_err ].

Ltac wp_steps := repeat (wp_step; cbn beta iota).

(* ------------------------------------------------------------------------ *)
(** ** Ordered keys, [BTreeSet] and [BTreeMap] *)

(** A key type of an ordered collection: Rust's [Ord], which is a total order
    compatible with equality. *)
Class Key (K : Type) := {
  key_eq_dec :: EqDecision K;
  key_countable :: Countable K;
  key_le : relation K;
  key_le_dec :: RelDecision key_le;
  key_le_trans :: Transitive key_le;
  key_le_total :: Total key_le;
  key_le_antisym :: AntiSymm (=) key_le;
}.

#[global] Instance N_key : Key N.
Proof. refine {| key_le := N.le |}. Defined.

Section btree.
Context {K : Type} `{!Key K}.
Implicit Types (s : gset K) (k : K).

(** Ascending iteration, [first] and [pop_first] of a [BTreeSet]. *)
Definition bt_iter s : list K := merge_sort key_le (elements s).

Definition bt_first s : option K := head (bt_iter s).

Definition bt_pop_first s : option (K * gset K) :=
  match bt_first s with
  | Some k => Some (k, s ∖ {[k]})
  | None => None
  end.

(** Keys, values and entries of a [BTreeMap] in ascending key order. *)
Definition bm_keys {V} (m : gmap K V) : list K := bt_iter (dom m).

Definition bm_values {V} (m : gmap K V) : list V := omap (λ k, m !! k) (bm_keys m).

Definition bm_entries {V} (m : gmap K V) : list (K * V) :=
  omap (λ k, pair k <$> m !! k) (bm_keys m).

(** [entry(k).or_default()] followed by a mutation of the value. *)
Definition entry_or {V} (d : V) (f : V → V) (k : K) (m : gmap K V) : gmap K V :=
  <[k := f (default d (m !! k))]> m.

Lemma bt_iter_perm s : bt_iter s ≡ₚ elements s.
Proof. apply merge_sort_Permutation. Qed.

Lemma elem_of_bt_iter s k : k ∈ bt_iter s ↔ k ∈ s.
Proof. by rewrite bt_iter_perm, elem_of_elements. Qed.

Lemma NoDup_bt_iter s : NoDup (bt_iter s).
Proof. rewrite bt_iter_perm. apply NoDup_elements. Qed.

Lemma length_bt_iter s : length (bt_iter s) = size s.
Proof. by rewrite bt_iter_perm. Qed.

Lemma list_to_set_bt_iter s : list_to_set (bt_iter s) = s.
Proof. apply set_eq. intros k. by rewrite elem_of_list_to_set, elem_of_bt_iter. Qed.

Lemma sorted_bt_iter s : StronglySorted key_le (bt_iter s).
Proof. apply StronglySorted_merge_sort; apply _. Qed.

Lemma bt_iter_nil s : bt_iter s = [] ↔ s = ∅.
Proof.
  split; intros H.
  - apply set_eq. intros k. rewrite <- elem_of_bt_iter, H. set_solver.
  - subst. by apply length_zero_iff_nil; rewrite length_bt_iter, size_empty.
Qed.

Lemma bt_first_Some s k : bt_first s = Some k → k ∈ s.
Proof.
  unfold bt_first. intros H. apply elem_of_bt_iter.
  destruct (bt_iter s); simplify_eq/=. set_solver.
Qed.

Lemma bt_first_None s : bt_first s = None ↔ s = ∅.
Proof.
  unfold bt_first. rewrite <- bt_iter_nil. by destruct (bt_iter s).
Qed.

(** [first] is the least element. *)
Lemma bt_first_least s k k' : bt_first s = Some k → k' ∈ s → key_le k k'.
Proof.
  unfold bt_first. rewrite <- elem_of_bt_iter. pose proof (sorted_bt_iter s) as Hs.
  destruct (bt_iter s) as [|x l]; [done|]. intros Hx Hin. injection Hx as ->.
  apply StronglySorted_cons in Hs as [Hall _]. rewrite Forall_forall in Hall.
  apply elem_of_cons in Hin as [->|Hin]; [|by apply Hall].
  by destruct (total key_le k k).
Qed.

Lemma bt_pop_first_Some s k s' :
  bt_pop_first s = Some (k, s') → k ∈ s ∧ s' = s ∖ {[k]}.
Proof.
  unfold bt_pop_first. destruct (bt_first s) eqn:E; intros; simplify_eq.
  split; [by apply bt_first_Some|done].
Qed.

Lemma bt_pop_first_None s : bt_pop_first s = None → s = ∅.
Proof. unfold bt_pop_first. destruct (bt_first s) eqn:E; [done|]. by apply bt_first_None in E. Qed.

Lemma elem_of_bm_values {V} (m : gmap K V) v : v ∈ bm_values m ↔ ∃ k, m !! k = Some v.
Proof.
  unfold bm_values, bm_keys. rewrite list_elem_of_omap. split; [naive_solver|].
  intros [k Hk]. exists k. split; [|done]. apply elem_of_bt_iter, elem_of_dom. eauto.
Qed.

Lemma elem_of_bm_entries {V} (m : gmap K V) k v :
  (k, v) ∈ bm_entries m ↔ m !! k = Some v.
Proof.
  unfold bm_entries, bm_keys. rewrite list_elem_of_omap. split.
  - intros (k' & _ & Hk). destruct (m !! k') eqn:?; naive_solver.
  - intros Hk. exists k. rewrite Hk. split; [|done]. apply elem_of_bt_iter, elem_of_dom. eauto.
Qed.

Lemma bm_entries_keys {V} (m : gmap K V) : (bm_entries m).*1 = bm_keys m.
Proof.
  unfold bm_entries, bm_keys. assert (∀ k, k ∈ bt_iter (dom m) → is_Some (m !! k)) as Hd.
  { intros k Hk%elem_of_bt_iter. by apply elem_of_dom. }
  revert Hd. induction (bt_iter (dom m)) as [|k l IH]; intros Hd; [done|]. cbn.
  destruct (Hd k (list_elem_of_here _ _)) as [v Hv]. rewrite Hv. cbn. f_equal. apply IH.
  intros j Hj. apply Hd. by right.
Qed.

Lemma NoDup_bm_entries {V} (m : gmap K V) : NoDup (bm_entries m).*1.
Proof. rewrite bm_entries_keys. apply NoDup_bt_iter. Qed.

End btree.

(* ------------------------------------------------------------------------ *)
(** ** Loops of plain updates *)

Lemma wp_for_each_modify {S E A} (l : list A) (h : A → S → S) s (Q : S → unit → Prop) (X : S → E → Prop) :
  wp (for_each l (λ x, modify (h x))) s Q X = Q (foldl (λ s x, h x s) s l) tt.
Proof.
  revert s. induction l as [|x l IH]; intros s; simpl; [done|].
  by rewrite wp_bind, wp_modify, IH.
Qed.

(** An update loop that visits each key once and touches only that key. *)
Lemma lookup_foldl_pointwise {K V} `{!Key K} (f : K → gmap K V → gmap K V)
    (F : option V → option V) (l : list K) (m : gmap K V) y :
  (∀ x m y, f x m !! y = if decide (x = y) then F (m !! y) else m !! y) →
  NoDup l →
  foldl (λ m x, f x m) m l !! y = if decide (y ∈ l) then F (m !! y) else m !! y.
Proof.
  intros Hf. revert m. induction l as [|x l IH]; intros m Hnd; simpl.
  { by destruct (decide (y ∈ [])) as [?%not_elem_of_nil|]. }
  apply NoDup_cons in Hnd as [Hx Hnd]. rewrite (IH _ Hnd), Hf.
  destruct (decide (y ∈ l)) as [Hy|Hy], (decide (x = y)) as [->|Hxy];
    destruct (decide (y ∈ _ :: l)); set_solver.
Qed.

Lemma lookup_foldl_entry_or {K V} `{!Key K} (d : V) (f : V → V) (l : list K) (m : gmap K V) y :
  NoDup l →
  foldl (λ m x, entry_or d f x m) m l !! y =
  if decide (y ∈ l) then Some (f (default d (m !! y))) else m !! y.
Proof.
  apply (lookup_foldl_pointwise (λ x m, entry_or d f x m) (λ o, Some (f (default d o)))).
  intros x m' y'. unfold entry_or. rewrite lookup_insert. by case_decide; subst.
Qed.

Lemma lookup_foldl_alter {K V} `{!Key K} (f : V → V) (l : list K) (m : gmap K V) y :
  NoDup l →
  foldl (λ m x, alter f x m) m l !! y = if decide (y ∈ l) then f <$> m !! y else m !! y.
Proof.
  apply (lookup_foldl_pointwise (λ x m, alter f x m) (fmap f)).
  intros x m' y'. rewrite lookup_alter. by case_decide; subst.
Qed.

(** A fold of field updates is the field update by the fold. *)
Lemma foldl_over {S T A} (over : (T → T) → S → S) (h : A → T → T) (l : list A) s :
  (∀ f f' s, over f (over f' s) = over (f ∘ f') s) →
  (∀ s, over (λ t, t) s = s) →
  foldl (λ s x, over (h x) s) s l = over (λ t, foldl (λ t x, h x t) t l) s.
Proof.
  intros Hcomp Hid. revert s. induction l as [|x l IH]; intros s; simpl; [by rewrite Hid|].
  by rewrite IH, Hcomp.
Qed.

Ltac split_and_all := repeat match goal with |- _ ∧ _ => split end.

Lemma not_subseteq_witness {K} `{!Key K} (X Y : gset K) : ¬ X ⊆ Y → ∃ x, x ∈ X ∧ x ∉ Y.
Proof.
  intros H. destruct (set_choose_or_empty (X ∖ Y)) as [[x Hx]|He]; [set_solver|].
  destruct H. intros x Hx. destruct (decide (x ∈ Y)); set_solver.
Qed.

(* ------------------------------------------------------------------------ *)
(** ** Removing and setting many keys *)

Section many_keys.
Context {K : Type} `{!Key K} {V : Type}.
Implicit Types (m : gmap K V) (X : gset K).

Definition del_keys X m : gmap K V := filter (λ kv, kv.1 ∉ X) m.

Definition set_keys X (v : V) m : gmap K V := gset_to_gmap v X ∪ m.

Lemma lookup_del_keys X m k : del_keys X m !! k = if decide (k ∈ X) then None else m !! k.
Proof.
  unfold del_keys. case_decide as Hk.
  - apply map_lookup_filter_None. right. intros v _. cbn. by intros [].
  - destruct (m !! k) as [v|] eqn:E.
    + by apply map_lookup_filter_Some.
    + apply map_lookup_filter_None. by left.
Qed.

Lemma lookup_set_keys X v m k :
  set_keys X v m !! k = if decide (k ∈ X) then Some v else m !! k.
Proof.
  unfold set_keys. rewrite lookup_union, lookup_gset_to_gmap. case_decide.
  - rewrite option_guard_True by done. by destruct (m !! k).
  - rewrite option_guard_False by done. by destruct (m !! k).
Qed.

Lemma dom_del_keys X m : dom (del_keys X m) = dom m ∖ X.
Proof.
  apply set_eq. intros k. rewrite elem_of_difference, !elem_of_dom, lookup_del_keys.
  case_decide; split; [by intros []|naive_solver..].
Qed.

Lemma dom_set_keys X v m : X ⊆ dom m → dom (set_keys X v m) = dom m.
Proof.
  intros HX. apply set_eq. intros k. rewrite !elem_of_dom, lookup_set_keys.
  case_decide as Hk; [|done]. split; [|eauto]. intros _. by apply elem_of_dom, HX.
Qed.

Lemma del_keys_empty m : del_keys ∅ m = m.
Proof. apply map_eq. intros k. rewrite lookup_del_keys. by rewrite decide_False by set_solver. Qed.

Lemma set_keys_empty v m : set_keys ∅ v m = m.
Proof. apply map_eq. intros k. rewrite lookup_set_keys. by rewrite decide_False by set_solver. Qed.

Lemma delete_del_keys X m k : delete k (del_keys X m) = del_keys (X ∪ {[k]}) m.
Proof.
  apply map_eq. intros k'. rewrite lookup_delete, !lookup_del_keys.
  repeat case_decide; try done; set_solver.
Qed.

Lemma insert_set_keys X v m k : <[k := v]> (set_keys X v m) = set_keys (X ∪ {[k]}) v m.
Proof.
  apply map_eq. intros k'. rewrite lookup_insert, !lookup_set_keys.
  repeat case_decide; try done; set_solver.
Qed.

Lemma foldl_delete (l : list K) m : foldl (λ m k, delete k m) m l = del_keys (list_to_set l) m.
Proof.
  revert m. induction l as [|k l IH]; intros m; cbn; [by rewrite del_keys_empty|].
  rewrite IH. apply map_eq. intros k'. rewrite !lookup_del_keys, lookup_delete.
  repeat case_decide; try done; set_solver.
Qed.

Lemma foldl_difference (l : list K) X : foldl (λ X k, X ∖ {[k]}) X l = X ∖ list_to_set l.
Proof.
  revert X. induction l as [|k l IH]; intros X; cbn; [set_solver|]. rewrite IH. set_solver.
Qed.

End many_keys.

(* ------------------------------------------------------------------------ *)
(** ** Disjoint ownership *)

(** [partitions Xs U]: the sets of [Xs] are pairwise disjoint and cover [U]. *)
Section partitions.
Context {K : Type} `{!Key K}.
Implicit Types (Xs Ys : list (gset K)) (X U : gset K).

Definition partitions Xs U : Prop := elements U ≡ₚ concat (elements <$> Xs).

#[global] Instance partitions_proper : Proper ((≡ₚ) ==> (=) ==> iff) partitions.
Proof. intros Xs Xs' HXs U ? <-. unfold partitions. by rewrite HXs. Qed.

Lemma partitions_nil : partitions [] ∅.
Proof. unfold partitions. by rewrite elements_empty. Qed.

Lemma partitions_elem Xs U k : partitions Xs U → k ∈ U ↔ ∃ X, X ∈ Xs ∧ k ∈ X.
Proof.
  unfold partitions. intros HP. rewrite <- elem_of_elements, HP, list_elem_of_In, in_concat.
  setoid_rewrite <- list_elem_of_In. setoid_rewrite list_elem_of_fmap. split.
  - intros (? & (X & -> & HX) & Hk). exists X. split; [done|]. by apply elem_of_elements.
  - intros (X & HX & Hk). exists (elements X). split; [eauto|]. by apply elem_of_elements.
Qed.

Lemma partitions_cons X Xs U : X ## U → partitions Xs U → partitions (X :: Xs) (X ∪ U).
Proof.
  unfold partitions. intros Hd HP. cbn. by rewrite elements_disj_union, HP.
Qed.

Lemma partitions_uncons X Xs U : partitions (X :: Xs) U → X ⊆ U ∧ partitions Xs (U ∖ X).
Proof.
  intros HP. assert (X ⊆ U) as HX.
  { intros k Hk. apply (partitions_elem _ _ _ HP). exists X. split; [constructor|done]. }
  split; [done|]. unfold partitions in *. cbn in HP.
  rewrite (union_difference_L X U HX) in HP.
  rewrite elements_disj_union in HP by set_solver. by apply Permutation_app_inv_l in HP.
Qed.

(** Two different owners have nothing in common. *)
Lemma partitions_disjoint X Y Xs U : partitions (X :: Y :: Xs) U → X ## Y.
Proof.
  intros [_ [HY _]%partitions_uncons]%partitions_uncons. set_solver.
Qed.

End partitions.

(* ------------------------------------------------------------------------ *)
(** ** Lists *)

(** A list whose neighbours are related, and an upward closed set of it. *)
Lemma filter_all {A} (P : A → Prop) `{!∀ x, Decision (P x)} (l : list A) :
  Forall P l → filter P l = l.
Proof. induction 1; [done|]. rewrite filter_cons, decide_True by done. by f_equal. Qed.

Lemma filter_none {A} (P : A → Prop) `{!∀ x, Decision (P x)} (l : list A) :
  Forall (λ x, ¬ P x) l → filter P l = [].
Proof. induction 1; [done|]. by rewrite filter_cons, decide_False by done. Qed.

Lemma sorted_filter_split {A} (R : relation A) (P : A → Prop) `{!∀ x, Decision (P x)} (l : list A) :
  Sorted R l → (∀ x y, x ∈ l → y ∈ l → R x y → P x → P y) →
  l = filter (λ x, ¬ P x) l ++ filter P l.
Proof.
  assert (∀ x l, Sorted R (x :: l) →
    (∀ y z, y ∈ x :: l → z ∈ x :: l → R y z → P y → P z) → P x → Forall P (x :: l)) as Hall.
  { clear l. intros x l. revert x. induction l as [|y l IH]; intros x Hs Hup Hx; [by repeat constructor|].
    apply Sorted_inv in Hs as [Hs Hhd%HdRel_inv]. constructor; [done|]. apply IH; [done| |].
    - intros y' z' Hy Hz. apply Hup; by apply list_elem_of_further.
    - apply (Hup x y); [by left|by right; left|done..]. }
  intros Hs Hup. induction l as [|x l IH]; [done|]. rewrite !filter_cons.
  destruct (decide (P x)) as [Hx|Hx].
  - apply Hall in Hs as [_ Hl]%Forall_cons; [|done..]. rewrite decide_False by naive_solver.
    assert (filter (λ x, ¬ P x) l = []) as ->.
    { apply filter_none. eapply Forall_impl; [exact Hl|]. cbn. naive_solver. }
    cbn. f_equal. symmetry. by apply filter_all.
  - rewrite decide_True by done. cbn. f_equal. apply IH; [by apply Sorted_inv in Hs as []|].
    intros y z Hy Hz. apply Hup; by apply list_elem_of_further.
Qed.

Lemma sorted_app_inv {A} (R : relation A) (l1 l2 : list A) :
  Sorted R (l1 ++ l2) → Sorted R l1 ∧ Sorted R l2.
Proof.
  induction l1 as [|x l1 IH]; cbn; [by split; [constructor|]|].
  intros [Hs Hhd]%Sorted_inv. destruct (IH Hs) as [H1 H2]. split; [|done].
  constructor; [done|]. destruct l1; [constructor|]. by apply HdRel_inv in Hhd; constructor.
Qed.

Lemma sorted_snoc {A} (R : relation A) (l : list A) y :
  Sorted R l → (∀ x, last l = Some x → R x y) → Sorted R (l ++ [y]).
Proof.
  intros Hs Hl. induction l as [|x l IH]; cbn; [repeat constructor|].
  apply Sorted_inv in Hs as [Hs Hhd]. constructor.
  - apply IH; [done|]. intros z Hz. apply Hl. destruct l; [done|]. exact Hz.
  - destruct l as [|z l]; cbn; [constructor; by apply Hl|]. by apply HdRel_inv in Hhd; constructor.
Qed.

Lemma omap_ext_in {A B} (f g : A → option B) (l : list A) : (∀ x, x ∈ l → f x = g x) → omap f l = omap g l.
Proof.
  induction l as [|x l IH]; intros Hfg; [done|]. cbn. rewrite Hfg by by left.
  rewrite IH; [done|]. intros y Hy. apply Hfg. by right.
Qed.

Lemma filter_ext_in {A} (P Q : A → Prop) `{!∀ x, Decision (P x)} `{!∀ x, Decision (Q x)} (l : list A) :
  (∀ x, x ∈ l → P x ↔ Q x) → filter P l = filter Q l.
Proof.
  induction l as [|x l IH]; intros Hpq; [done|]. rewrite !filter_cons, IH by set_solver.
  pose proof (Hpq x ltac:(left)). repeat case_decide; tauto.
Qed.

Lemma NoDup_filter_fst {A B} (P : A * B → Prop) `{!∀ x, Decision (P x)} (l : list (A * B)) :
  NoDup l.*1 → NoDup (filter P l).*1.
Proof.
  induction l as [|x l IH]; cbn [fmap list_fmap]; intros Hnd; [constructor|].
  apply NoDup_cons in Hnd as [Hx Hnd]. rewrite filter_cons. case_decide; [|by apply IH].
  cbn. apply NoDup_cons. split; [|by apply IH]. intros Hin. apply Hx.
  apply list_elem_of_fmap in Hin as (y & -> & [_ Hy]%list_elem_of_filter). by apply list_elem_of_fmap_2.
Qed.

(** ** Maps that grow at their greatest key *)

Section grow.
Context {K V : Type} `{!Key K}.
Implicit Types (m : gmap K V).

Lemma bm_keys_insert_last m k v :
  (∀ k', is_Some (m !! k') → key_le k' k ∧ k' ≠ k) → bm_keys (<[k := v]> m) = bm_keys m ++ [k].
Proof.
  intros Hlt. unfold bm_keys. apply (StronglySorted_unique key_le).
  - apply sorted_bt_iter.
  - assert (Forall (λ k', key_le k' k) (bt_iter (dom m))) as Hall.
    { apply Forall_forall. intros k' Hk'%elem_of_bt_iter%elem_of_dom. by apply Hlt. }
    pose proof (sorted_bt_iter (dom m)) as Hs. revert Hall Hs. generalize (bt_iter (dom m)) as l.
    induction l as [|x l IH]; intros Hall Hs; cbn; [repeat constructor|].
    apply Forall_cons in Hall as [Hx Hall]. apply StronglySorted_cons in Hs as [Hxl Hs].
    constructor; [by apply IH|]. apply Forall_app. split; [done|]. by apply Forall_singleton.
  - rewrite !bt_iter_perm, dom_insert_L, (comm_L (∪)). rewrite elements_disj_union.
    + by rewrite elements_singleton.
    + apply disjoint_singleton_r. intros [x Hx]%elem_of_dom. destruct (Hlt k) as [_ Hne]; eauto.
Qed.

Lemma bm_values_insert_last m k v :
  (∀ k', is_Some (m !! k') → key_le k' k ∧ k' ≠ k) → bm_values (<[k := v]> m) = bm_values m ++ [v].
Proof.
  intros Hlt. unfold bm_values. rewrite (bm_keys_insert_last _ _ _ Hlt), omap_app. cbn.
  rewrite lookup_insert_eq. f_equal. apply omap_ext_in. intros x Hx.
  unfold bm_keys in Hx. apply elem_of_bt_iter, elem_of_dom in Hx. rewrite lookup_insert_ne; [done|].
  intros ->. by destruct (Hlt x Hx).
Qed.

End grow.

(* ------------------------------------------------------------------------ *)
(** ** Partial correctness *)

Definition pwp {S E A} (m : M S E A) (s : S) (Q : S → A → Prop) : Prop :=
  match m s with (s', Ok a) => Q s' a | _ => True end.

Section pwp_rules.
Context {S E : Type}.
Implicit Types (s : S).

Lemma pwp_ret {A} (a : A) s Q : pwp (mret a : M S E A) s Q = Q s a.
Proof. reflexivity. Qed.

Lemma pwp_bind {A B} (m : M S E A) (k : A → M S E B) s Q :
  pwp (x ← m; k x) s Q = pwp m s (λ s' a, pwp (k a) s' Q).
Proof. unfold pwp, mbind, M_bind. by destruct (m s) as [s' []]. Qed.

Lemma pwp_get s Q : pwp (get : M S E S) s Q = Q s s.
Proof. reflexivity. Qed.

Lemma pwp_gets {A} (f : S → A) s Q : pwp (gets f : M S E A) s Q = Q s (f s).
Proof. reflexivity. Qed.

Lemma pwp_modify f s Q : pwp (modify f : M S E unit) s Q = Q (f s) tt.
Proof. reflexivity. Qed.

Lemma pwp_throw {A} (e : E) s (Q : S → A → Prop) : pwp (throw e) s Q = True.
Proof. reflexivity. Qed.

Lemma pwp_mono {A} (m : M S E A) s (Q Q' : S → A → Prop) :
  pwp m s Q → (∀ s' a, Q s' a → Q' s' a) → pwp m s Q'.
Proof. unfold pwp. destruct (m s) as [s' []]; auto. Qed.

Lemma pwp_and {A} (m : M S E A) s (Q Q' : S → A → Prop) :
  pwp m s Q → pwp m s Q' → pwp m s (λ s' a, Q s' a ∧ Q' s' a).
Proof. unfold pwp. destruct (m s) as [s' []]; auto. Qed.

Lemma pwp_expect_some {A} (o : option A) msg s (Q : S → A → Prop) :
  (∀ a, o = Some a → Q s a) → pwp (expect_some o msg : M S E A) s Q.
Proof. destruct o; cbn; auto. Qed.

Lemma pwp_assert b msg s (Q : S → unit → Prop) :
  (b = true → Q s tt) → pwp (assert_ b msg : M S E unit) s Q.
Proof. destruct b; cbn; auto. Qed.

(** A [for] loop, by an invariant on the elements already visited. *)
Lemma pwp_for_each {A} (I : list A → S → Prop) (l : list A) (f : A → M S E unit) s Q :
  I [] s →
  (∀ pre x rest s', l = pre ++ x :: rest → I pre s' → pwp (f x) s' (λ s'' _, I (pre ++ [x]) s'')) →
  (∀ s', I l s' → Q s' tt) →
  pwp (for_each l f) s Q.
Proof.
  intros Hinit Hstep Hend.
  enough (∀ rest pre s', l = pre ++ rest → I pre s' → pwp (for_each rest f) s' Q) as Hx by (by apply (Hx l [] s)).
  intros rest. induction rest as [|x rest IH]; intros pre s' Hl Hd; simpl.
  { rewrite pwp_ret. apply Hend. by rewrite Hl, app_nil_r. }
  rewrite pwp_bind. eapply pwp_mono; [by apply (Hstep pre x rest)|].
  intros s'' [] Hd'. apply (IH (pre ++ [x])); [by rewrite <- app_assoc|done].
Qed.

Lemma pwp_fold_m {A B} (I : list A → S → B → Prop) (l : list A) (f : B → A → M S E B) b s Q :
  I [] s b →
  (∀ pre x rest s' b', l = pre ++ x :: rest → I pre s' b' → pwp (f b' x) s' (λ s'' b'', I (pre ++ [x]) s'' b'')) →
  (∀ s' b', I l s' b' → Q s' b') →
  pwp (fold_m f b l) s Q.
Proof.
  intros Hinit Hstep Hend.
  enough (∀ rest pre s' b', l = pre ++ rest → I pre s' b' → pwp (fold_m f b' rest) s' Q) as Hx
    by (by apply (Hx l [] s)).
  intros rest. induction rest as [|x rest IH]; intros pre s' b' Hl Hd; simpl.
  { rewrite pwp_ret. apply Hend. by rewrite Hl, app_nil_r. }
  rewrite pwp_bind. eapply pwp_mono; [by apply (Hstep pre x rest)|].
  intros s'' b'' Hd'. apply (IH (pre ++ [x])); [by rewrite <- app_assoc|done].
Qed.

Lemma pwp_run {A} (m : M S E A) s Q s' a : pwp m s Q → m s = (s', Ok a) → Q s' a.
Proof. unfold pwp. intros Hx E1. by rewrite E1 in Hx. Qed.

End pwp_rules.

Ltac pwp_step :=
  first [ rewrite pwp_bind | rewrite pwp_ret | rewrite pwp_get | rewrite pwp_gets | rewrite pwp_modify
        | rewrite pwp_throw ].

Ltac pwp_steps := repeat (pwp_step; cbn beta iota).

(* ------------------------------------------------------------------------ *)
(** ** Hints and notations *)

(** Facts about the ordered iteration of sets that proofs need all over. *)
Create HintDb btree.
#[export] Hint Resolve NoDup_bt_iter sorted_bt_iter bt_iter_perm : btree.
#[export] Hint Rewrite @elem_of_bt_iter @length_bt_iter @list_to_set_bt_iter using typeclasses eauto : btree.

(** [{{ s }} m {{ s' a, Q }}]: from [s], [m] succeeds with [a] in a state [s']. *)
Declare Scope wp_scope.
Delimit Scope wp_scope with wp.
Notation "'{{' s '}}' m '{{' s' a , Q '}}'" := (wp_ok m s (λ s' a, Q))
  (at level 20, s at level 200, m at level 200, s' name, a name, Q at level 200) : wp_scope.
