(* ===== verification/Bytes.v ===== *)
(** * Bytes, machine words and strings

    What the code uses of Rust's [u64], byte arrays and [str]: conversions to and
    from bytes, arithmetic with overflow checks, and searching in strings. A string
    is the list of its bytes, and white space is that of ASCII. *)

From Stdlib Require Import Strings.Byte Strings.Ascii Strings.String.
From S2P Require Import Prelude.

Abbreviation bytes := (list byte).

#[global] Instance byte_eq_dec : EqDecision byte := Byte.byte_eq_dec.

#[global] Instance byte_countable : Countable byte.
Proof. apply (inj_countable Byte.to_N Byte.of_N). intros b. apply Byte.of_to_N. Defined.

(** ** Words *)

Definition U64_MAX : N := 2 ^ 64 - 1.

Definition u64_sub {S E} (a b : N) : M S E N :=
  if (b <=? a)%N then mret (a - b)%N else panic "attempt to subtract with overflow".

Definition u64_mul {S E} (a b : N) : M S E N :=
  if (a * b <=? U64_MAX)%N then mret (a * b)%N else panic "attempt to multiply with overflow".

(** [u64::pow]. *)
Definition u64_pow {S E} (a b : N) : M S E N :=
  if (a ^ b <=? U64_MAX)%N then mret (a ^ b)%N else panic "attempt to multiply with overflow".

Definition u64_shr {S E} (a b : N) : M S E N :=
  if (b <? 64)%N then mret (N.shiftr a b) else panic "attempt to shift right with overflow".

(** The bits that are shifted out are lost without a panic. *)
Definition u64_shl {S E} (a b : N) : M S E N :=
  if (b <? 64)%N then mret (N.shiftl a b mod 2 ^ 64)%N else panic "attempt to shift left with overflow".

Definition saturating_add (a b : N) : N := (a + b) `min` U64_MAX.

Definition saturating_sub (a b : N) : N := (a - b)%N.

(** ** Bytes *)

Definition byte_of (n : N) : byte := default x00 (Byte.of_N (n mod 256)).

Fixpoint le_bytes (len : nat) (n : N) : bytes :=
  match len with
  | O => []
  | S len => byte_of n :: le_bytes len (n / 256)
  end.

Fixpoint le_num (l : bytes) : N :=
  match l with
  | [] => 0
  | b :: l => Byte.to_N b + 256 * le_num l
  end.

(** [to_le_bytes], [from_le_bytes], [to_be_bytes] and [from_be_bytes] of [u64]. *)
Definition u64_to_le_bytes : N → bytes := le_bytes 8.

Definition u64_from_le_bytes : bytes → N := le_num.

Definition u64_to_be_bytes (n : N) : bytes := rev (le_bytes 8 n).

Definition u64_from_be_bytes (l : bytes) : N := le_num (rev l).

(** [&l[from..to]]. *)
Definition slice (from to : nat) (l : bytes) : bytes := take (to - from) (drop from l).

Lemma byte_of_to_N n : Byte.to_N (byte_of n) = (n mod 256)%N.
Proof.
  unfold byte_of. assert (n mod 256 < 256)%N as Hn by (apply N.mod_lt; lia).
  destruct (Byte.of_N (n mod 256)) as [b|] eqn:E; [by apply Byte.to_of_N in E|].
  apply Byte.of_N_None_iff in E. lia.
Qed.

Lemma byte_of_N b : byte_of (Byte.to_N b) = b.
Proof.
  unfold byte_of. pose proof (Byte.to_N_bounded b).
  by rewrite N.mod_small, Byte.of_to_N by lia.
Qed.

Lemma length_le_bytes len n : length (le_bytes len n) = len.
Proof. revert n. induction len as [|len IH]; intros n; cbn; [done|]. by rewrite IH. Qed.

Lemma le_num_bytes len n : (n < 256 ^ N.of_nat len)%N → le_num (le_bytes len n) = n.
Proof.
  revert n. induction len as [|len IH]; intros n Hn; cbn [le_bytes le_num].
  { apply N.lt_1_r in Hn. by subst. }
  rewrite byte_of_to_N, IH.
  - pose proof (N.div_mod n 256). lia.
  - rewrite Nat2N.inj_succ, N.pow_succ_r' in Hn. by apply N.Div0.div_lt_upper_bound.
Qed.

Lemma le_bytes_num l : le_bytes (length l) (le_num l) = l.
Proof.
  induction l as [|b l IH]; cbn [length le_num le_bytes]; [done|].
  pose proof (Byte.to_N_bounded b) as Hb.
  assert (byte_of (Byte.to_N b + 256 * le_num l) = b) as ->.
  { rewrite <- (byte_of_N b) at 2. unfold byte_of. f_equal. f_equal.
    rewrite N.mul_comm. by rewrite N.Div0.mod_add. }
  f_equal. rewrite (N.mul_comm 256), N.div_add by done.
  by rewrite N.div_small, N.add_0_l by lia.
Qed.

Lemma le_num_bound l : (le_num l < 256 ^ N.of_nat (length l))%N.
Proof.
  induction l as [|b l IH]; cbn [length le_num]; [done|].
  pose proof (Byte.to_N_bounded b). rewrite Nat2N.inj_succ, N.pow_succ_r'. nia.
Qed.

Lemma u64_le_roundtrip n : (n < 2 ^ 64)%N → u64_from_le_bytes (u64_to_le_bytes n) = n.
Proof. intros Hn. by apply le_num_bytes. Qed.

Lemma u64_from_le_bound l : length l = 8 → (u64_from_le_bytes l < 2 ^ 64)%N.
Proof. intros Hl. pose proof (le_num_bound l) as H. by rewrite Hl in H. Qed.

Lemma u64_le_inv l : length l = 8 → u64_to_le_bytes (u64_from_le_bytes l) = l.
Proof. intros Hl. unfold u64_to_le_bytes. rewrite <- Hl. apply le_bytes_num. Qed.

Lemma length_slice from to l : to ≤ length l → length (slice from to l) = to - from.
Proof. intros H. unfold slice. rewrite length_take, length_drop. lia. Qed.

(** Cutting a concatenation where its parts meet. *)
Lemma slice_skip n from to l1 l2 : length l1 = n → n ≤ from → slice from to (l1 ++ l2) = slice (from - n) (to - n) l2.
Proof.
  intros <- Hn. unfold slice. rewrite drop_app_ge by done. f_equal. lia.
Qed.

Lemma slice_here n l1 l2 : length l1 = n → slice 0 n (l1 ++ l2) = l1.
Proof. intros <-. unfold slice. rewrite drop_0, Nat.sub_0_r. apply take_app_length. Qed.

Lemma slice_all n l : length l = n → slice 0 n l = l.
Proof. intros Hn. rewrite <- (app_nil_r l) at 1. by apply slice_here. Qed.

(** ** Strings *)

Definition string_bytes (s : string) : bytes := list_byte_of_string s.

(** [strip_prefix]. *)
Fixpoint strip_prefix (p s : string) : option string :=
  match p, s with
  | EmptyString, _ => Some s
  | String a p, String b s => if Ascii.eqb a b then strip_prefix p s else None
  | _, _ => None
  end.

Definition starts_with (p s : string) : bool :=
  match strip_prefix p s with Some _ => true | None => false end.

(** [split_once], after the first occurrence. *)
Fixpoint after_once (p s : string) : option string :=
  match strip_prefix p s with
  | Some rest => Some rest
  | None => match s with String _ s => after_once p s | EmptyString => None end
  end.

Definition contains (p s : string) : bool :=
  match after_once p s with Some _ => true | None => false end.

(** [trim_start_matches]: each turn removes one occurrence of a non-empty prefix. *)
Fixpoint trim_start_fuel (fuel : nat) (p s : string) : string :=
  match fuel with
  | O => s
  | S fuel => match strip_prefix p s with Some s' => trim_start_fuel fuel p s' | None => s end
  end.

Definition trim_start_matches (p s : string) : string := trim_start_fuel (S (String.length s)) p s.

Definition is_whitespace (c : ascii) : bool :=
  let n := N_of_ascii c in ((9 <=? n) && (n <=? 13) || (n =? 32))%N.

(** The first item of [split_whitespace]. *)
Fixpoint first_word_from (s : string) : string :=
  match s with
  | EmptyString => EmptyString
  | String c s => if is_whitespace c then EmptyString else String c (first_word_from s)
  end.

Fixpoint first_word (s : string) : option string :=
  match s with
  | EmptyString => None
  | String c s' => if is_whitespace c then first_word s' else Some (first_word_from s)
  end.

Definition ascii_lower (c : ascii) : ascii :=
  let n := N_of_ascii c in if ((65 <=? n) && (n <=? 90))%N then ascii_of_N (n + 32) else c.

Fixpoint string_lower (s : string) : string :=
  match s with EmptyString => EmptyString | String c s => String (ascii_lower c) (string_lower s) end.

Definition eq_ignore_ascii_case (s t : string) : bool := bool_decide (string_lower s = string_lower t).

Lemma strip_prefix_app p s : strip_prefix p (p +:+ s) = Some s.
Proof. 
  induction p as [|a p IH]; [done|]. change (String a p +:+ s) with (String a (p +:+ s)).
  cbn -[Ascii.eqb]. by rewrite Ascii.eqb_refl.
Qed.

Lemma strip_prefix_Some p s rest : strip_prefix p s = Some rest → s = p +:+ rest.
Proof.
  revert s. induction p as [|a p IH]; intros [|b s]; cbn -[Ascii.eqb]; [by intros [= <-]|by intros [= <-]|done|].
  destruct (Ascii.eqb a b) eqn:E; [|done]. apply Ascii.eqb_eq in E as ->. intros H. change (String b s = String b (p +:+ rest)). by rewrite (IH _ H).
Qed.

Lemma trim_start_matches_prefix p s :
  strip_prefix p s = None → trim_start_matches p (p +:+ s) = s.
Proof.
  intros Hs. unfold trim_start_matches. cbn [trim_start_fuel]. rewrite strip_prefix_app.
  destruct (String.length (p +:+ s)) as [|n]; cbn; [done|]. by rewrite Hs.
Qed.

(** The order of [u8]. *)
#[global] Instance byte_key : Key byte.
Proof.
  refine {| key_le := λ a b, (Byte.to_N a ≤ Byte.to_N b)%N |}.
  - intros a b. apply _.
  - intros a b c. apply N.le_trans.
  - intros a b. destruct (N.le_ge_cases (Byte.to_N a) (Byte.to_N b)); auto.
  - intros a b H1 H2. assert (Byte.to_N a = Byte.to_N b) as E by lia.
    apply (f_equal Byte.of_N) in E. rewrite !Byte.of_to_N in E. by injection E.
Defined.

(** ** Hexadecimal formatting *)

Definition hex_digit (upper : bool) (n : N) : ascii :=
  ascii_of_N (if (n <? 10)%N then 48 + n else if upper then 55 + n else 87 + n).

(** The [len] lowest digits, the most significant one first: [{:016x}] for 16. *)
Fixpoint hex_digits (upper : bool) (len : nat) (n : N) : string :=
  match len with
  | O => EmptyString
  | S len => hex_digits upper len (n / 16) +:+ String (hex_digit upper (n mod 16)) EmptyString
  end.

(** Two digits for each byte. *)
Fixpoint hex_text (upper : bool) (l : bytes) : string :=
  match l with
  | [] => EmptyString
  | b :: l => String (hex_digit upper (Byte.to_N b / 16)) (String (hex_digit upper (Byte.to_N b mod 16)) (hex_text upper l))
  end.

Lemma append_cons a s t : String a s +:+ t = String a (s +:+ t).
Proof. reflexivity. Qed.

Lemma append_assoc s t u : (s +:+ t) +:+ u = s +:+ (t +:+ u).
Proof. induction s as [|c s IH]; [done|]. rewrite !append_cons. by rewrite IH. Qed.

Lemma append_empty s : s +:+ "" = s.
Proof. induction s as [|c s IH]; [done|]. rewrite append_cons. by rewrite IH. Qed.

Lemma hex_text_app upper l l' : hex_text upper (l ++ l') = hex_text upper l +:+ hex_text upper l'.
Proof. induction l as [|b l IH]; [done|]. cbn. rewrite !append_cons. by rewrite IH. Qed.

Lemma nibbles n : ((n / 16) mod 16 = (n mod 256) / 16 ∧ n mod 16 = (n mod 256) mod 16)%N.
Proof. zify. Z.to_euclidean_division_equations. lia. Qed.

Lemma hex_digits_bytes upper k n : hex_digits upper (2 * k) n = hex_text upper (rev (le_bytes k n)).
Proof.
  revert n. induction k as [|k IH]; intros n; [done|].
  replace (2 * S k) with (S (S (2 * k))) by lia. cbn [hex_digits le_bytes rev].
  rewrite hex_text_app, <- IH, append_assoc, N.Div0.div_div. cbn [hex_text]. rewrite byte_of_to_N.
  by destruct (nibbles n) as [-> ->].
Qed.
