(* ===== verification/Graph.v ===== *)
(** * The dependency graph

    Model of [crates/block-producer/src/mempool/graph/mod.rs]: the type
    [DependencyGraph<K, V>] and every method of it. The methods are state
    transformers; a returned error leaves whatever the code has written at that
    point, so that atomicity is provable rather than built in. The two worklist
    loops carry fuel; [GraphProofs.v] shows that the fuel is enough. *)

From S2P Require Import Prelude.

Module Graph.

Record DependencyGraph (K V : Type) `{!Key K} := mk_graph {
  (** Nodes whose data is still pending. *)
  pending : gset K;
  (** Each node's data. *)
  vertices : gmap K V;
  parents : gmap K (gset K);
  children : gmap K (gset K);
  (** Nodes that are available to process next. *)
  roots : gset K;
  processed : gset K;
}.
Arguments mk_graph {K V _}.
Arguments pending {K V _}.
Arguments vertices {K V _}.
Arguments parents {K V _}.
Arguments children {K V _}.
Arguments roots {K V _}.
Arguments processed {K V _}.

Inductive GraphError (K : Type) `{!Key K} : Type :=
| DuplicateKey (k : K)
| MissingParents (ks : gset K)
| UnknownNodes (ks : gset K)
| UnprocessedNodes (ks : gset K)
| DanglingNodes (ks : gset K)
| InvalidRootNode (k : K)
| InvalidPendingNode (k : K).
Arguments DuplicateKey {K _}.
Arguments MissingParents {K _}.
Arguments UnknownNodes {K _}.
Arguments UnprocessedNodes {K _}.
Arguments DanglingNodes {K _}.
Arguments InvalidRootNode {K _}.
Arguments InvalidPendingNode {K _}.

Section graph.
Context {K V : Type} `{!Key K}.
Implicit Types (g : DependencyGraph K V) (k key : K) (keys : gset K).

(** Field updates. *)
Definition over_pending f g : DependencyGraph K V :=
  mk_graph (f (pending g)) (vertices g) (parents g) (children g) (roots g) (processed g).

Definition over_vertices f g : DependencyGraph K V :=
  mk_graph (pending g) (f (vertices g)) (parents g) (children g) (roots g) (processed g).

Definition over_parents f g : DependencyGraph K V :=
  mk_graph (pending g) (vertices g) (f (parents g)) (children g) (roots g) (processed g).

Definition over_children f g : DependencyGraph K V :=
  mk_graph (pending g) (vertices g) (parents g) (f (children g)) (roots g) (processed g).

Definition over_roots f g : DependencyGraph K V :=
  mk_graph (pending g) (vertices g) (parents g) (children g) (f (roots g)) (processed g).

Definition over_processed f g : DependencyGraph K V :=
  mk_graph (pending g) (vertices g) (parents g) (children g) (roots g) (f (processed g)).

Definition default_graph : DependencyGraph K V := mk_graph ∅ ∅ ∅ ∅ ∅ ∅.

(** True if the node exists, pending or not. *)
Definition contains key g : bool :=
  bool_decide (key ∈ pending g) || bool_decide (is_Some (vertices g !! key)).

Definition get_value key g : option V := vertices g !! key.

Definition parents_of key g : option (gset K) := parents g !! key.

Definition num_pending g : nat := size (pending g).

Definition num_processed g : nat := size (processed g).

Definition len g : nat := size (vertices g).

Definition num_roots g : nat := size (roots g).

Abbreviation GM := (M (DependencyGraph K V) (GraphError K)).

Definition insert_pending key (ps : gset K) : GM unit :=
  g ← get;
  if contains key g then throw (DuplicateKey key) else
  let missing_parents := filter (λ parent, contains parent g = false) ps in
  if decide (missing_parents = ∅) then
    (* Inform parents of their new child. *)
    _ ← for_each (bt_iter ps) (λ parent,
          modify (over_children (entry_or ∅ (λ cs, {[key]} ∪ cs) parent)));
    _ ← modify (over_pending (λ s, {[key]} ∪ s));
    _ ← modify (over_parents (λ m, <[key := ps]> m));
    modify (over_children (λ m, <[key := ∅]> m))
  else throw (MissingParents missing_parents).

(** Adds the node to [roots] iff all of its parents are processed. *)
Definition try_make_root key : GM unit :=
  g ← get;
  if decide (key ∈ pending g) then mret tt else
  _ ← assert_ (bool_decide (is_Some (vertices g !! key)))
        "Potential root must exist in the graph";
  _ ← assert_ (bool_decide (key ∉ processed g))
        "Potential root cannot already be processed";
  let all_parents_processed :=
    bool_decide (set_Forall (λ parent, parent ∈ processed g) (default ∅ (parents g !! key))) in
  if all_parents_processed then modify (over_roots (λ s, {[key]} ∪ s)) else mret tt.

Definition promote_pending key (value : V) : GM unit :=
  g ← get;
  if decide (key ∈ pending g) then
    _ ← modify (over_pending (λ s, s ∖ {[key]}));
    _ ← modify (over_vertices (λ m, <[key := value]> m));
    try_make_root key
  else throw (InvalidPendingNode key).

(** [while let Some(key) = to_revert.pop_first()] of [revert_subgraphs]. *)
Fixpoint revert_loop (fuel : nat) (to_revert reverted : gset K) : GM unit :=
  match fuel with
  | 0 => out_of_fuel
  | S fuel =>
    match bt_pop_first to_revert with
    | None => mret tt
    | Some (key, to_revert) =>
      _ ← modify (over_processed (λ s, s ∖ {[key]}));
      g ← get;
      let unprocessed_children :=
        filter (λ child, is_Some (vertices g !! child))
               (default ∅ (children g !! key) ∖ reverted) in
      revert_loop fuel (to_revert ∪ unprocessed_children) ({[key]} ∪ reverted)
    end
  end.

Definition revert_fuel g : nat := S (size (vertices g)).

Definition revert_subgraphs keys : GM unit :=
  g ← get;
  let missing_nodes := filter (λ key, vertices g !! key = None) keys in
  if decide (missing_nodes = ∅) then
    let unprocessed := keys ∖ processed g in
    if decide (unprocessed = ∅) then
      _ ← revert_loop (revert_fuel g) keys ∅;
      (* Only the original keys and the current roots can be roots. *)
      rs ← gets roots;
      _ ← modify (over_roots (λ _, ∅));
      for_each (bt_iter rs ++ bt_iter keys) try_make_root
    else throw (UnprocessedNodes unprocessed)
  else throw (UnknownNodes missing_nodes).

(** The body of the [for key in keys] loop of [prune_processed]. *)
Definition prune_one (pruned : list V) key : GM (list V) :=
  g ← get;
  value ← expect_some (vertices g !! key) "Checked in precondition";
  _ ← modify (over_vertices (λ m, delete key m));
  _ ← modify (over_processed (λ s, s ∖ {[key]}));
  _ ← modify (over_parents (λ m, delete key m));
  g ← get;
  let cs := default ∅ (children g !! key) in
  _ ← modify (over_children (λ m, delete key m));
  (* Remove edges from children to this node. *)
  _ ← for_each (bt_iter cs) (λ child,
        modify (over_parents (λ m, alter (λ ps, ps ∖ {[key]}) child m)));
  mret (pruned ++ [value]).

Definition prune_processed keys : GM (list V) :=
  g ← get;
  let missing_nodes := filter (λ key, contains key g = false) keys in
  if decide (missing_nodes = ∅) then
    let unprocessed := keys ∖ processed g in
    if decide (unprocessed = ∅) then
      (* No parent may be left dangling. *)
      let dangling :=
        filter (λ parent, parent ∉ keys)
               (⋃ omap (λ key, parents g !! key) (bt_iter keys)) in
      if decide (dangling = ∅) then fold_m prune_one [] (bt_iter keys)
      else throw (DanglingNodes dangling)
    else throw (UnprocessedNodes unprocessed)
  else throw (UnknownNodes missing_nodes).

(** [while let Some(key) = to_remove.pop_first()] of [purge_subgraphs]. *)
Fixpoint purge_loop (fuel : nat) (visited to_remove removed : gset K) : GM (gset K) :=
  match fuel with
  | 0 => out_of_fuel
  | S fuel =>
    match bt_pop_first to_remove with
    | None => mret removed
    | Some (key, to_remove) =>
      _ ← modify (over_vertices (λ m, delete key m));
      _ ← modify (over_pending (λ s, s ∖ {[key]}));
      let removed := {[key]} ∪ removed in
      _ ← modify (over_processed (λ s, s ∖ {[key]}));
      _ ← modify (over_roots (λ s, s ∖ {[key]}));
      (* Children must also be purged. *)
      g ← get;
      let unvisited_children := default ∅ (children g !! key) ∖ visited in
      _ ← modify (over_children (λ m, delete key m));
      let to_remove := to_remove ∪ unvisited_children in
      (* Inform parents that this child no longer exists. *)
      let ps := default ∅ (parents g !! key) in
      _ ← modify (over_parents (λ m, delete key m));
      _ ← for_each (bt_iter ps) (λ parent,
            modify (over_children (λ m, alter (λ cs, cs ∖ {[key]}) parent m)));
      purge_loop fuel visited to_remove removed
    end
  end.

Definition purge_fuel g : nat := S (size (pending g) + size (vertices g)).

Definition purge_subgraphs keys : GM (gset K) :=
  g ← get;
  let missing_nodes := filter (λ key, contains key g = false) keys in
  if decide (missing_nodes = ∅) then
    purge_loop (purge_fuel g) keys keys ∅
  else throw (UnknownNodes missing_nodes).

Definition process_root key : GM unit :=
  g ← get;
  if decide (key ∈ roots g) then
    _ ← modify (over_roots (λ s, s ∖ {[key]}));
    _ ← modify (over_processed (λ s, {[key]} ∪ s));
    for_each (bt_iter (default ∅ (children g !! key))) try_make_root
  else throw (InvalidRootNode key).

End graph.

End Graph.

(** ** What the dependency graph promises

    An abstract dependency graph is a finite map from keys to nodes, a node
    being a life-cycle status together with its set of parents. The documented
    life cycle (pending, in queue, processed) is the type [Status]. Each method
    of [DependencyGraph] is specified as an update of this map. The relation
    [rep] ties the six collections of the code to it; [GraphProofs.v] proves
    that the methods simulate the specification. *)

Import Graph.

Module GraphSpec.

Inductive Status (V : Type) : Type :=
| Pending
| Queued (v : V)
| Processed (v : V).
Arguments Pending {V}.
Arguments Queued {V}.
Arguments Processed {V}.

Record Node (K V : Type) `{!Key K} := mk_node {
  status : Status V;
  preds : gset K;
}.
Arguments mk_node {K V _}.
Arguments status {K V _}.
Arguments preds {K V _}.

Abbreviation agraph K V := (gmap K (Node K V)).

Section spec.
Context {K V : Type} `{!Key K}.
Implicit Types (a : agraph K V) (k p c : K) (R : gset K) (n : Node K V).

Definition edge a p c : Prop := ∃ n, a !! c = Some n ∧ p ∈ preds n.

Definition is_pending a k : Prop := ∃ ps, a !! k = Some (mk_node Pending ps).

Definition is_processed a k : Prop := ∃ v ps, a !! k = Some (mk_node (Processed v) ps).

(** Available to process next. *)
Definition ready a k : Prop :=
  ∃ v ps, a !! k = Some (mk_node (Queued v) ps) ∧ ∀ p, p ∈ ps → is_processed a p.

Definition node_value n : option V :=
  match status n with Pending => None | Queued v | Processed v => Some v end.

(** Well-formedness: edges stay inside the graph, the processed nodes are closed
    under parents, and there is no cycle. *)
Record awf a : Prop := {
  awf_parents : ∀ p c, edge a p c → is_Some (a !! p);
  awf_closed : ∀ p c, edge a p c → is_processed a c → is_processed a p;
  awf_rank : ∃ rank : K → nat, ∀ p c, edge a p c → rank p < rank c;
}.

(** The nodes of [keys] and all their descendants. *)
Definition closure a (keys R : gset K) : Prop :=
  ∀ x, x ∈ R ↔ ∃ k, k ∈ keys ∧ rtc (edge a) k x.

Definition a_insert k (ps : gset K) a : agraph K V := <[k := mk_node Pending ps]> a.

Definition a_promote k (v : V) a : agraph K V :=
  alter (λ n, mk_node (Queued v) (preds n)) k a.

Definition mark_processed n : Node K V :=
  match status n with Queued v => mk_node (Processed v) (preds n) | _ => n end.

Definition mark_queued n : Node K V :=
  match status n with Processed v => mk_node (Queued v) (preds n) | _ => n end.

Definition a_process k a : agraph K V := alter mark_processed k a.

Definition a_requeue R a : agraph K V :=
  map_imap (λ k n, Some (if decide (k ∈ R) then mark_queued n else n)) a.

Definition a_remove R a : agraph K V :=
  map_imap (λ k n, if decide (k ∈ R) then None else Some (mk_node (status n) (preds n ∖ R))) a.

(** The collections of the code represent the abstract graph: all but [roots]. *)
Record rep_core (g : DependencyGraph K V) a : Prop := {
  rep_vertices : ∀ k, vertices g !! k = (a !! k) ≫= node_value;
  rep_pending : ∀ k, k ∈ pending g ↔ is_pending a k;
  rep_processed : ∀ k, k ∈ processed g ↔ is_processed a k;
  rep_parents : ∀ k, parents g !! k = preds <$> a !! k;
  rep_children_dom : ∀ k, is_Some (children g !! k) ↔ is_Some (a !! k);
  rep_children : ∀ p c cs, children g !! p = Some cs → (c ∈ cs ↔ edge a p c);
}.

Record rep (g : DependencyGraph K V) a : Prop := {
  rep_wf : awf a;
  rep_is_core : rep_core g a;
  rep_roots : ∀ k, k ∈ roots g ↔ ready a k;
}.

End spec.

End GraphSpec.
