(* ===== verification/GraphProofs.v ===== *)
(** * The dependency graph implements its specification

    One simulation lemma per method of [DependencyGraph]: from a represented
    graph the method returns (no panic, the fuel is enough), a success moves to
    the represented graph of the specification, an error leaves the graph as it
    was. The last section collects them over all reachable graphs. *)

From S2P Require Import Prelude.
From S2P Require Import Graph.
Import Graph GraphSpec.


Section proofs.
Context {K V : Type} `{!Key K}.
Implicit Types (g : DependencyGraph K V) (a : agraph K V) (k key p c : K) (keys R : gset K).

Lemma rep_vertices_Some g a k :
  rep_core g a → is_Some (vertices g !! k) ↔ is_Some (a !! k) ∧ ¬ is_pending a k.
Proof.
  intros H. rewrite (rep_vertices _ _ H). unfold is_pending.
  destruct (a !! k) as [[[] ps]|]; cbn; naive_solver.
Qed.

Lemma rep_contains g a k : rep_core g a → contains k g = true ↔ is_Some (a !! k).
Proof.
  intros H. unfold contains. rewrite orb_true_iff, !bool_decide_eq_true.
  rewrite (rep_pending _ _ H), (rep_vertices_Some _ _ _ H). unfold is_pending.
  destruct (a !! k) as [[[] ps]|] eqn:E; naive_solver.
Qed.

Lemma rep_contains_false g a k : rep_core g a → contains k g = false ↔ a !! k = None.
Proof.
  intros H. rewrite <- not_true_iff_false, (rep_contains g a k H). by rewrite eq_None_not_Some.
Qed.

Lemma is_processed_not_pending a k : is_processed a k → ¬ is_pending a k.
Proof. intros (?&?&?) (?&?); congruence. Qed.

Lemma is_processed_Some a k : is_processed a k → is_Some (a !! k).
Proof. intros (?&?&->). eauto. Qed.

(** [roots] is not part of the core representation. *)
Lemma rep_core_roots f g a : rep_core g a → rep_core (over_roots f g) a.
Proof. intros []. by split. Qed.

Lemma foldl_over_children {A} (h : A → gmap K (gset K) → gmap K (gset K)) l g :
  foldl (λ g x, over_children (h x) g) g l = over_children (λ m, foldl (λ m x, h x m) m l) g.
Proof. apply foldl_over; [done|by intros []]. Qed.

Lemma foldl_over_parents {A} (h : A → gmap K (gset K) → gmap K (gset K)) l g :
  foldl (λ g x, over_parents (h x) g) g l = over_parents (λ m, foldl (λ m x, h x m) m l) g.
Proof. apply foldl_over; [done|by intros []]. Qed.

(** ** [try_make_root] *)

Lemma wp_try_make_root g a k :
  rep_core g a → is_Some (a !! k) → ¬ is_processed a k →
  wp_ok (try_make_root k) g (λ g' _, rep_core g' a ∧
    ∀ x, x ∈ roots g' ↔ x ∈ roots g ∨ (x = k ∧ ready a x)).
Proof.
  intros Hr [[st ps] Hk] Hnp. unfold try_make_root. wp_steps.
  case_decide as Hpend.
  { apply (rep_pending _ _ Hr) in Hpend as [ps' Hps']. wp_steps. split; [done|].
    intros x. split; [by left|]. intros [?|[-> (v & ps'' & Hx & _)]]; [done|congruence]. }
  rewrite (rep_pending _ _ Hr) in Hpend.
  wp_steps. apply wp_assert.
  { apply bool_decide_eq_true, (rep_vertices_Some _ _ _ Hr). eauto. }
  wp_steps. apply wp_assert.
  { apply bool_decide_eq_true. by rewrite (rep_processed _ _ Hr). }
  assert (parents g !! k = Some ps) as Hps by (by rewrite (rep_parents _ _ Hr), Hk).
  rewrite Hps. cbn.
  assert (∃ v, st = Queued v) as [v ->].
  { destruct st; [destruct Hpend; by exists ps|by eexists|destruct Hnp; by do 2 eexists]. }
  case_bool_decide as Hall; wp_steps.
  - split; [by apply rep_core_roots|]. intros x. cbn. rewrite elem_of_union, elem_of_singleton.
    split; [|naive_solver]. intros [->|?]; [right|by left]. split; [done|].
    exists v, ps. split; [done|]. intros p Hp. apply (rep_processed _ _ Hr). by apply Hall.
  - split; [done|]. intros x. split; [by left|].
    intros [?|[-> (v' & ps' & Hx & Hx')]]; [done|]. simplify_eq.
    destruct Hall. intros p Hp. apply (rep_processed _ _ Hr). auto.
Qed.

Lemma wp_try_make_roots g a l :
  rep_core g a → (∀ k, k ∈ l → is_Some (a !! k) ∧ ¬ is_processed a k) →
  wp_ok (for_each l try_make_root) g (λ g' _, rep_core g' a ∧
    ∀ x, x ∈ roots g' ↔ x ∈ roots g ∨ (x ∈ l ∧ ready a x)).
Proof.
  intros Hr Hl.
  apply (wp_for_each (λ pre g', rep_core g' a ∧
    ∀ x, x ∈ roots g' ↔ x ∈ roots g ∨ (x ∈ pre ∧ ready a x))).
  { split; [done|]. set_solver. }
  intros pre x rest g' -> [Hr' Hroots].
  destruct (Hl x) as [Hx Hnp]; [set_solver|].
  eapply wp_mono; [by apply wp_try_make_root| |done].
  intros g'' _ [Hr'' Hroots'']. split; [done|].
  intros y. rewrite Hroots'', Hroots. set_solver.
Qed.

(** ** [insert_pending] *)

Lemma edge_insert_pending a k ps p c :
  a !! k = None → edge (a_insert k ps a) p c ↔ edge a p c ∨ (c = k ∧ p ∈ ps).
Proof.
  intros Hk. unfold edge, a_insert. destruct (decide (c = k)) as [->|Hc].
  - rewrite lookup_insert_eq, Hk. naive_solver.
  - rewrite lookup_insert_ne by done. naive_solver.
Qed.

Lemma is_processed_insert a k ps x :
  a !! k = None → is_processed (a_insert k ps a) x ↔ is_processed a x.
Proof.
  intros Hk. unfold is_processed, a_insert. destruct (decide (x = k)) as [->|Hx].
  - rewrite lookup_insert_eq, Hk. naive_solver.
  - by rewrite lookup_insert_ne.
Qed.

Lemma ready_insert a k ps x :
  a !! k = None → ready (a_insert k ps a) x ↔ ready a x.
Proof.
  intros Hk. unfold ready. setoid_rewrite (is_processed_insert a k ps _ Hk).
  unfold a_insert. destruct (decide (x = k)) as [->|Hx].
  - rewrite lookup_insert_eq, Hk. naive_solver.
  - by rewrite lookup_insert_ne.
Qed.

Lemma awf_insert a k ps :
  awf a → a !! k = None → (∀ p, p ∈ ps → is_Some (a !! p)) → awf (a_insert k ps a).
Proof.
  intros [Hp Hc [rank Hrank]] Hk Hps. split.
  - intros p c. rewrite (edge_insert_pending _ _ _ _ _ Hk). unfold a_insert.
    intros H. destruct (decide (p = k)) as [->|Hpk]; [rewrite lookup_insert_eq; eauto|].
    rewrite lookup_insert_ne by done. destruct H as [?|[-> ?]]; eauto.
  - intros p c. rewrite (edge_insert_pending _ _ _ _ _ Hk), !(is_processed_insert _ _ _ _ Hk).
    intros [He|[-> _]]; [by eauto|]. intros Hkp%is_processed_Some.
    by apply eq_None_not_Some in Hk.
  - exists (λ x, if decide (x = k) then S (max_list (rank <$> bt_iter ps)) else rank x).
    intros p c. rewrite (edge_insert_pending _ _ _ _ _ Hk). intros [He|[-> He]].
    + destruct (Hp _ _ He) as [np Hnp], He as (nc & Hnc & Hin).
      rewrite !decide_False by congruence. apply Hrank. by exists nc.
    + rewrite (decide_True _ _ (eq_refl k)).
      rewrite decide_False by (intros ->; destruct (Hps _ He); congruence).
      apply Nat.lt_succ_r, max_list_elem_of_le, list_elem_of_fmap. exists p.
      by rewrite elem_of_bt_iter.
Qed.

Lemma wp_insert_pending g a k ps :
  rep g a →
  wp (insert_pending k ps) g
    (λ g' _, rep g' (a_insert k ps a) ∧ a !! k = None ∧ ∀ p, p ∈ ps → is_Some (a !! p))
    (λ g' e, g' = g ∧
       (e = DuplicateKey k ∧ is_Some (a !! k) ∨
        a !! k = None ∧ ∃ ms, e = MissingParents ms ∧ ms ≠ ∅ ∧
          ∀ p, p ∈ ms ↔ p ∈ ps ∧ a !! p = None)).
Proof.
  intros [Hwf Hr Hroots]. unfold insert_pending. wp_steps.
  destruct (contains k g) eqn:Hcont; wp_steps.
  { split; [done|]. left. by rewrite <- (rep_contains _ _ _ Hr). }
  apply (rep_contains_false _ _ _ Hr) in Hcont as Hk.
  case_decide as Hmiss; wp_steps; last first.
  { split; [done|]. right. split; [done|]. eexists. split; [done|]. split; [done|].
    intros p. rewrite elem_of_filter, (rep_contains_false _ _ _ Hr). naive_solver. }
  assert (∀ p, p ∈ ps → is_Some (a !! p)) as Hps.
  { intros p Hp. apply (rep_contains _ _ _ Hr), not_false_is_true. intros Hf.
    assert (p ∈ (∅ : gset K)) as []%not_elem_of_empty. rewrite <- Hmiss. by apply elem_of_filter. }
  rewrite wp_for_each_modify. rewrite foldl_over_children.
  wp_steps. split; [|done]. split; [by apply awf_insert|..]; last first.
  { intros x. cbn. by rewrite Hroots, ready_insert. }
  assert (∀ x, x ≠ k → a_insert k ps a !! x = a !! x) as Hne
    by (intros; by apply lookup_insert_ne).
  assert (a_insert k ps a !! k = Some (mk_node Pending ps)) as Heq by apply lookup_insert_eq.
  split; cbn.
  - intros x. rewrite (rep_vertices _ _ Hr). destruct (decide (x = k)) as [->|].
    + by rewrite Heq, Hk.
    + by rewrite Hne.
  - intros x. rewrite elem_of_union, elem_of_singleton, (rep_pending _ _ Hr). unfold is_pending.
    destruct (decide (x = k)) as [->|]; [rewrite Heq|rewrite Hne by done]; naive_solver.
  - intros x. by rewrite (rep_processed _ _ Hr), is_processed_insert.
  - intros x. rewrite lookup_insert, (rep_parents _ _ Hr).
    destruct (decide (k = x)) as [<-|]; [by rewrite Heq|by rewrite Hne].
  - intros x. destruct (decide (x = k)) as [->|].
    + rewrite lookup_insert_eq, Heq. naive_solver.
    + rewrite lookup_insert_ne, lookup_foldl_entry_or, Hne by auto using NoDup_bt_iter.
      case_decide as Hx; [|by apply (rep_children_dom _ _ Hr)].
      rewrite elem_of_bt_iter in Hx. split; [by eauto|by eauto].
  - intros p c cs. rewrite (edge_insert_pending _ _ _ _ _ Hk).
    destruct (decide (p = k)) as [->|Hpk].
    + rewrite lookup_insert_eq. intros [= <-]. split; [set_solver|].
      intros [He|[-> Hin]]; [destruct (awf_parents _ Hwf _ _ He)|destruct (Hps _ Hin)]; congruence.
    + rewrite lookup_insert_ne, lookup_foldl_entry_or by auto using NoDup_bt_iter.
      case_decide as Hx; rewrite elem_of_bt_iter in Hx.
      * intros [= <-]. apply Hps in Hx as Hx'. apply (rep_children_dom _ _ Hr) in Hx' as [cs Hcs].
        rewrite Hcs. cbn. rewrite elem_of_union, elem_of_singleton, (rep_children _ _ Hr _ _ _ Hcs).
        naive_solver.
      * intros Hcs. rewrite (rep_children _ _ Hr _ _ _ Hcs). naive_solver.
Qed.

(** ** Status changes *)

(** Promotion, processing and reverting change statuses only. *)
Definition same_preds a a' : Prop := ∀ k, preds <$> a' !! k = preds <$> a !! k.

Lemma same_preds_Some a a' k : same_preds a a' → is_Some (a' !! k) ↔ is_Some (a !! k).
Proof.
  intros H. rewrite <- (fmap_is_Some preds (a' !! k)), <- (fmap_is_Some preds (a !! k)).
  by rewrite (H k).
Qed.

Lemma same_preds_edge a a' p c : same_preds a a' → edge a' p c ↔ edge a p c.
Proof.
  intros H. specialize (H c). unfold edge.
  destruct (a !! c) as [n|], (a' !! c) as [n'|]; cbn in H; [injection H as H|done..].
  split; intros (m & [= <-] & Hp); eexists; (split; [done|congruence]).
Qed.

Lemma same_preds_alter f a k : (∀ n, preds (f n) = preds n) → same_preds a (alter f k a).
Proof.
  intros Hf x. rewrite lookup_alter. case_decide as Hx; [subst|done].
  destruct (a !! x) as [n|]; cbn; [by rewrite Hf|done].
Qed.

Lemma awf_same_preds a a' :
  awf a → same_preds a a' →
  (∀ p c, edge a p c → is_processed a' c → is_processed a' p) → awf a'.
Proof.
  intros [Hp Hc [rank Hr]] Hs Hcl. split.
  - intros p c. rewrite (same_preds_edge _ _ _ _ Hs), (same_preds_Some _ _ _ Hs). apply Hp.
  - intros p c. rewrite (same_preds_edge _ _ _ _ Hs). apply Hcl.
  - exists rank. intros p c. rewrite (same_preds_edge _ _ _ _ Hs). apply Hr.
Qed.

(** The core representation after a status change: only [pending], [vertices]
    and [processed] are to be checked. *)
Lemma rep_core_same_preds g g' a a' :
  rep_core g a → same_preds a a' →
  parents g' = parents g → children g' = children g →
  (∀ k, vertices g' !! k = (a' !! k) ≫= node_value) →
  (∀ k, k ∈ pending g' ↔ is_pending a' k) →
  (∀ k, k ∈ processed g' ↔ is_processed a' k) →
  rep_core g' a'.
Proof.
  intros Hr Hs Hpar Hch Hv Hp Hpr. split; [done..| | |].
  - intros k. by rewrite Hpar, (rep_parents _ _ Hr), (Hs k).
  - intros k. by rewrite Hch, (same_preds_Some _ _ _ Hs), (rep_children_dom _ _ Hr).
  - intros p c cs. rewrite Hch, (same_preds_edge _ _ _ _ Hs). apply (rep_children _ _ Hr).
Qed.

(** ** [promote_pending] *)

Lemma a_promote_lookup a k v x :
  a_promote k v a !! x =
  if decide (k = x) then (λ n, mk_node (Queued v) (preds n)) <$> a !! x else a !! x.
Proof. unfold a_promote. rewrite lookup_alter. by case_decide; subst. Qed.

Lemma same_preds_promote a k v : same_preds a (a_promote k v a).
Proof. by apply same_preds_alter. Qed.

Lemma is_processed_promote a k v x :
  is_pending a k → is_processed (a_promote k v a) x ↔ is_processed a x.
Proof.
  intros [ps Hk]. unfold is_processed. rewrite a_promote_lookup.
  case_decide; [subst; rewrite Hk; cbn; naive_solver|done].
Qed.

Lemma ready_promote a k v x :
  is_pending a k → x ≠ k → ready (a_promote k v a) x ↔ ready a x.
Proof.
  intros Hk Hx. unfold ready. setoid_rewrite (is_processed_promote _ _ _ _ Hk).
  rewrite a_promote_lookup. by rewrite decide_False.
Qed.

Lemma awf_promote a k v : awf a → is_pending a k → awf (a_promote k v a).
Proof.
  intros Hwf Hk. apply (awf_same_preds a); [done|apply same_preds_promote|].
  intros p c. rewrite !(is_processed_promote _ _ _ _ Hk). apply (awf_closed _ Hwf).
Qed.

Lemma wp_promote_pending g a k v :
  rep g a →
  wp (promote_pending k v) g
    (λ g' _, rep g' (a_promote k v a) ∧ is_pending a k)
    (λ g' e, g' = g ∧ e = InvalidPendingNode k ∧ ¬ is_pending a k).
Proof.
  intros [Hwf Hr Hroots]. unfold promote_pending. wp_steps.
  case_decide as Hk; wp_steps; [|by rewrite <- (rep_pending _ _ Hr)].
  apply (rep_pending _ _ Hr) in Hk as Hpend. destruct Hpend as [ps Hps].
  assert (is_pending a k) as Hpend by (by exists ps).
  eapply wp_mono; [apply wp_try_make_root with (a := a_promote k v a)| |done]; cbn.
  - apply (rep_core_same_preds g _ a); [done|apply same_preds_promote|done..| | |]; intros x; cbn.
    + rewrite a_promote_lookup, lookup_insert, (rep_vertices _ _ Hr).
      case_decide; [subst; by rewrite Hps|done].
    + rewrite elem_of_difference, elem_of_singleton, (rep_pending _ _ Hr). unfold is_pending.
      rewrite a_promote_lookup. case_decide; [subst; rewrite Hps; cbn; naive_solver|naive_solver].
    + by rewrite (rep_processed _ _ Hr), is_processed_promote.
  - rewrite a_promote_lookup, decide_True, Hps by done. by eexists.
  - rewrite is_processed_promote by done. intros Hp. by apply is_processed_not_pending in Hp.
  - intros g' _ [Hr' Hroots']. split; [|done]. split; [by apply awf_promote|done|].
    intros x. rewrite Hroots', Hroots. destruct (decide (x = k)) as [->|Hx].
    + split; [|by right]. intros [(w & ps' & Hx & _)|[_ ?]]; [congruence|done].
    + rewrite ready_promote by done. naive_solver.
Qed.

(** ** [process_root] *)

Lemma a_process_lookup a k x :
  a_process k a !! x = if decide (k = x) then mark_processed <$> a !! x else a !! x.
Proof. unfold a_process. rewrite lookup_alter. by case_decide; subst. Qed.

Lemma same_preds_process a k : same_preds a (a_process k a).
Proof. apply same_preds_alter. by intros [[] ?]. Qed.

Lemma is_processed_process a k x :
  ready a k → is_processed (a_process k a) x ↔ x = k ∨ is_processed a x.
Proof.
  intros (v & ps & Hk & _). unfold is_processed. rewrite a_process_lookup.
  case_decide; [subst; rewrite Hk; cbn; naive_solver|naive_solver].
Qed.

Lemma awf_process a k : awf a → ready a k → awf (a_process k a).
Proof.
  intros Hwf Hk. apply (awf_same_preds a); [done|apply same_preds_process|].
  intros p c He. rewrite !(is_processed_process _ _ _ Hk). intros [->|Hc].
  - right. destruct Hk as (v & ps & Hk & Hps), He as (n & Hn & Hp).
    apply Hps. rewrite Hk in Hn. by injection Hn as <-.
  - right. by apply (awf_closed _ Hwf _ _ He).
Qed.

(** Processing [k] can only make children of [k] ready. *)
Lemma ready_process a k x :
  ready a k → ready (a_process k a) x ↔ (ready a x ∧ x ≠ k) ∨ (edge a k x ∧ ready (a_process k a) x).
Proof.
  intros Hk. split.
  - intros Hx. pose proof Hx as (v & ps & Hlk & Hps). rewrite a_process_lookup in Hlk.
    case_decide as Heq.
    { subst x. destruct Hk as (w & ps' & Hk & _). rewrite Hk in Hlk. done. }
    destruct (decide (k ∈ ps)) as [Hin|Hnin].
    { right. split; [by eexists|done]. }
    left. split; [|done]. exists v, ps. split; [done|]. intros p Hp.
    apply Hps in Hp as Hpp. apply (is_processed_process _ _ _ Hk) in Hpp as [->|?]; done.
  - intros [[(v & ps & Hlk & Hps) Hne]|[_ ?]]; [|done].
    exists v, ps. rewrite a_process_lookup, decide_False by done. split; [done|].
    intros p Hp. rewrite is_processed_process by done. right. auto.
Qed.

Lemma wp_process_root g a k :
  rep g a →
  wp (process_root k) g
    (λ g' _, rep g' (a_process k a) ∧ ready a k)
    (λ g' e, g' = g ∧ e = InvalidRootNode k ∧ ¬ ready a k).
Proof.
  intros [Hwf Hr Hroots]. unfold process_root. wp_steps.
  case_decide as Hk; wp_steps; [|by rewrite <- Hroots].
  apply Hroots in Hk as Hready. pose proof Hready as (v & ps & Hlk & Hps).
  destruct (proj2 (rep_children_dom _ _ Hr k) ltac:(by eexists)) as [cs Hcs].
  cbn. rewrite Hcs. cbn.
  eapply wp_mono; [apply wp_try_make_roots with (a := a_process k a)| |done]; cbn.
  - apply (rep_core_same_preds g _ a); [done|apply same_preds_process|done..| | |]; intros x; cbn.
    + rewrite a_process_lookup, (rep_vertices _ _ Hr). case_decide; [subst; by rewrite Hlk|done].
    + rewrite (rep_pending _ _ Hr). unfold is_pending. rewrite a_process_lookup.
      case_decide; [subst; rewrite Hlk; cbn; naive_solver|done].
    + rewrite elem_of_union, elem_of_singleton, (rep_processed _ _ Hr).
      by rewrite is_processed_process.
  - intros c. rewrite elem_of_bt_iter, (rep_children _ _ Hr _ _ _ Hcs). intros He. split.
    + rewrite (same_preds_Some _ _ _ (same_preds_process a k)). by destruct He as (n & -> & _).
    + rewrite is_processed_process by done. intros [->|Hc].
      * destruct (awf_rank _ Hwf) as [rank Hrank]. specialize (Hrank _ _ He). lia.
      * apply (awf_closed _ Hwf _ _ He) in Hc as (w & ps' & Hc). congruence.
  - intros g' _ [Hr' Hroots']. split; [|done]. split; [by apply awf_process|done|].
    intros x. rewrite Hroots'. cbn.
    rewrite elem_of_difference, elem_of_singleton, Hroots, elem_of_bt_iter.
    rewrite (rep_children _ _ Hr _ _ _ Hcs). symmetry. by apply ready_process.
Qed.

(** ** [revert_subgraphs] *)

Lemma a_requeue_lookup R a x :
  a_requeue R a !! x = (λ n, if decide (x ∈ R) then mark_queued n else n) <$> a !! x.
Proof. unfold a_requeue. rewrite map_lookup_imap. by destruct (a !! x). Qed.

Lemma same_preds_requeue R a : same_preds a (a_requeue R a).
Proof.
  intros x. rewrite a_requeue_lookup. destruct (a !! x) as [[[] ps]|]; cbn; by try case_decide.
Qed.

Lemma is_processed_requeue R a x :
  is_processed (a_requeue R a) x ↔ is_processed a x ∧ x ∉ R.
Proof.
  unfold is_processed. rewrite a_requeue_lookup.
  destruct (a !! x) as [[[] ps]|]; cbn; try case_decide; cbn; naive_solver.
Qed.

Lemma is_pending_requeue R a x : is_pending (a_requeue R a) x ↔ is_pending a x.
Proof.
  unfold is_pending. rewrite a_requeue_lookup.
  destruct (a !! x) as [[[] ps]|]; cbn; try case_decide; cbn; naive_solver.
Qed.

Lemma processed_ancestor a x y : awf a → rtc (edge a) x y → is_processed a y → is_processed a x.
Proof.
  intros Hwf. induction 1 as [|x z y He _ IH]; [done|].
  intros Hy. apply (awf_closed _ Hwf _ _ He). auto.
Qed.

(** The processed nodes among [keys] and their descendants. *)
Definition processed_closure a keys R : Prop :=
  ∀ x, x ∈ R ↔ is_processed a x ∧ ∃ k, k ∈ keys ∧ rtc (edge a) k x.

Lemma awf_requeue a keys R : awf a → processed_closure a keys R → awf (a_requeue R a).
Proof.
  intros Hwf HR. apply (awf_same_preds a); [done|apply same_preds_requeue|].
  intros p c He. rewrite !is_processed_requeue. intros [Hc HcR].
  split; [by apply (awf_closed _ Hwf _ _ He)|]. intros [_ (k & Hk & Hrtc)]%HR.
  apply HcR, HR. split; [done|]. exists k. split; [done|]. by eapply rtc_r.
Qed.

(** Only the current roots and the reverted keys can be ready afterwards. *)
Lemma ready_requeue a keys R x :
  awf a → processed_closure a keys R → ready (a_requeue R a) x → ready a x ∨ x ∈ keys.
Proof.
  intros Hwf HR (v & ps & Hx & Hps). rewrite a_requeue_lookup in Hx.
  assert (∀ p, p ∈ ps → is_processed a p ∧ p ∉ R) as Hps'
    by (intros p Hp; apply is_processed_requeue; auto).
  destruct (a !! x) as [[st ps']|] eqn:Ha; [|done]. cbn in Hx.
  destruct (decide (x ∈ R)) as [HxR|HxR]; last first.
  { simplify_eq. left. exists v, ps. split; [done|]. intros p Hp. by apply Hps'. }
  destruct (proj1 (HR x) HxR) as [(w & qs & Hproc) (k & Hk & Hrtc)]. simplify_eq/=.
  apply rtc_inv_r in Hrtc as [->|(y & Hrtc & n & Hn & Hy)]; [by right|].
  simplify_eq/=. injection Hx as -> ->. destruct (Hps' _ Hy) as [Hyp HyR]. destruct HyR. apply HR. eauto.
Qed.

Lemma wp_revert_loop g a keys fuel : ∀ (W Rv : gset K) gi,
  rep_core g a →
  gi = over_processed (λ s, s ∖ Rv) g →
  (∀ x, x ∈ W ∪ Rv → is_Some (vertices g !! x) ∧ ∃ k, k ∈ keys ∧ rtc (edge a) k x) →
  (∀ x c, x ∈ Rv → edge a x c → ¬ is_pending a c → c ∈ W ∪ Rv) →
  (∀ x, ¬ edge a x x) →
  W ## Rv → keys ⊆ W ∪ Rv →
  size (vertices g) - size Rv < fuel →
  wp_ok (revert_loop fuel W Rv) gi (λ g' _, ∃ Rv',
    g' = over_processed (λ s, s ∖ Rv') g ∧ keys ⊆ Rv' ∧
    (∀ x, x ∈ Rv' → ∃ k, k ∈ keys ∧ rtc (edge a) k x) ∧
    (∀ x c, x ∈ Rv' → edge a x c → ¬ is_pending a c → c ∈ Rv')).
Proof.
  induction fuel as [|fuel IH]; intros W Rv gi Hr -> Hreach Hcl Hirr Hdisj Hkeys Hfuel; [lia|]; cbn.
  destruct (bt_pop_first W) as [[key W']|] eqn:Hpop; last first.
  { apply bt_pop_first_None in Hpop as ->. wp_steps. exists Rv.
    split; [done|]. split; [set_solver|]. split; set_solver. }
  apply bt_pop_first_Some in Hpop as [Hkey ->]. wp_steps. cbn.
  destruct (Hreach key) as [Hvert (k & Hk & Hrtc)]; [set_solver|].
  assert (is_Some (a !! key)) as Hakey by (by apply (rep_vertices_Some _ _ _ Hr) in Hvert as [? _]).
  destruct (proj2 (rep_children_dom _ _ Hr key) Hakey) as [cs Hcs]. rewrite Hcs. cbn.
  assert (∀ c, c ∈ filter (λ child, is_Some (vertices g !! child)) (cs ∖ Rv) ↔
    edge a key c ∧ ¬ is_pending a c ∧ c ∉ Rv) as Hnew.
  { intros c. rewrite elem_of_filter, elem_of_difference, (rep_children _ _ Hr _ _ _ Hcs),
      (rep_vertices_Some _ _ _ Hr).
    assert (edge a key c → is_Some (a !! c)) by (intros (n & -> & _); eauto). naive_solver. }
  apply IH; [done|..].
  - destruct g; unfold over_processed; cbn. f_equal. set_solver.
  - intros x Hx. assert (x ∈ W ∪ Rv ∨ edge a key x ∧ ¬ is_pending a x) as [?|[He Hnp]]
      by set_solver; [by apply Hreach|].
    split; [|exists k; split; [done|by eapply rtc_r]].
    apply (rep_vertices_Some _ _ _ Hr). split; [by destruct He as (n & -> & _)|done].
  - intros x c Hx He Hnp. destruct (decide (c ∈ Rv)); [set_solver|].
    apply elem_of_union in Hx as [->%elem_of_singleton|Hx].
    + assert (c ∈ filter (λ child, is_Some (vertices g !! child)) (cs ∖ Rv)) by by apply Hnew.
      set_solver.
    + pose proof (Hcl _ _ Hx He Hnp). destruct (decide (c = key)); set_solver.
  - done.
  - intros x Hx Hx'. apply elem_of_union in Hx as [Hx|[Hx [_ HxR]]%Hnew]; [set_solver|].
    apply elem_of_union in Hx' as [->%elem_of_singleton|?]; [by eapply Hirr|done].
  - intros x Hx. apply Hkeys in Hx. destruct (decide (x = key)); set_solver.
  - assert (size ({[key]} ∪ Rv) ≤ size (vertices g)) as Hle.
    { rewrite <- (size_dom (D:=gset K)). apply subseteq_size. intros x Hx.
      apply elem_of_dom, Hreach. set_solver. }
    rewrite size_union, size_singleton in * by set_solver. lia.
Qed.

Lemma edge_irreflexive a x : awf a → ¬ edge a x x.
Proof. intros Hwf He. destruct (awf_rank _ Hwf) as [rank Hrank]. specialize (Hrank _ _ He). lia. Qed.

Lemma rep_core_requeue g a keys Rv R :
  rep_core g a → R = Rv ∩ processed g →
  rep_core (over_roots (λ _, ∅) (over_processed (λ s, s ∖ Rv) g)) (a_requeue R a).
Proof.
  intros Hr ->. apply (rep_core_same_preds g _ a); [done|apply same_preds_requeue|done..| | |];
    intros x; cbn.
  - rewrite a_requeue_lookup, (rep_vertices _ _ Hr).
    destruct (a !! x) as [[[] ps]|]; cbn; by try case_decide.
  - by rewrite is_pending_requeue, (rep_pending _ _ Hr).
  - rewrite is_processed_requeue, elem_of_difference, elem_of_intersection, (rep_processed _ _ Hr).
    naive_solver.
Qed.

Lemma wp_revert_subgraphs g a keys :
  rep g a →
  wp (revert_subgraphs keys) g
    (λ g' _, ∃ R, processed_closure a keys R ∧ rep g' (a_requeue R a) ∧
       ∀ k, k ∈ keys → is_processed a k)
    (λ g' e, g' = g ∧ ∃ ks, ks ≠ ∅ ∧
       (e = UnknownNodes ks ∧ (∀ k, k ∈ ks ↔ k ∈ keys ∧ (a !! k = None ∨ is_pending a k)) ∨
        e = UnprocessedNodes ks ∧ (∀ k, k ∈ ks ↔ k ∈ keys ∧ ¬ is_processed a k))).
Proof.
  intros [Hwf Hr Hroots]. unfold revert_subgraphs. wp_steps.
  case_decide as Hmiss; wp_steps; last first.
  { split; [done|]. eexists. split; [done|]. left. split; [done|]. intros k.
    rewrite elem_of_filter, (rep_vertices _ _ Hr). unfold is_pending.
    destruct (a !! k) as [[[] ps]|]; cbn; naive_solver. }
  case_decide as Hun; wp_steps; last first.
  { split; [done|]. eexists. split; [done|]. right. split; [done|]. intros k.
    by rewrite elem_of_difference, (rep_processed _ _ Hr). }
  assert (∀ k, k ∈ keys → is_processed a k) as Hkeys.
  { intros k Hk. apply (rep_processed _ _ Hr). destruct (decide (k ∈ processed g)); set_solver. }
  eapply wp_mono; [apply wp_revert_loop with (a := a) (g := g) (keys := keys); try done| |done].
  { destruct g; unfold over_processed; cbn. f_equal. set_solver. }
  { intros x Hx. assert (x ∈ keys) as Hx' by set_solver. split; [|exists x; split; [done|reflexivity]].
    apply Hkeys in Hx'. apply (rep_vertices_Some _ _ _ Hr).
    split; [by apply is_processed_Some|by apply is_processed_not_pending]. }
  { intros. by apply edge_irreflexive. }
  { set_solver. }
  { unfold revert_fuel. rewrite size_empty. lia. }
  intros g' _ (Rv & -> & HkR & Hreach & Hcl). wp_steps.
  pose (R := Rv ∩ processed g).
  assert (processed_closure a keys R) as HR.
  { intros x. unfold R. rewrite elem_of_intersection, (rep_processed _ _ Hr). split.
    - intros [HxR Hx]. split; [done|]. auto.
    - intros [Hx (k & Hk & Hrtc)]. split; [|done]. apply HkR in Hk. revert Hk.
      induction Hrtc as [|k y x He Hrtc IH]; [done|]. intros Hk.
      apply IH; [done|]. apply (Hcl k); [done..|].
      by eapply is_processed_not_pending, processed_ancestor. }
  eapply wp_mono; [apply wp_try_make_roots with (a := a_requeue R a)| |done].
  - by apply (rep_core_requeue g a keys).
  - intros k. rewrite elem_of_app, !elem_of_bt_iter, is_processed_requeue,
      (same_preds_Some _ _ _ (same_preds_requeue R a)). cbn. rewrite Hroots. intros [Hk|Hk].
    + destruct Hk as (v & ps & Hk & _). split; [eauto|]. intros [(w & ps' & Hw) _]. congruence.
    + apply Hkeys in Hk as Hkp. split; [by apply is_processed_Some|]. intros [_ HkR']. apply HkR', HR.
      split; [done|]. exists k. split; [done|reflexivity].
  - intros g' _ [Hr' Hroots']. exists R. split; [done|]. split; [|done].
    split; [by eapply awf_requeue|done|]. intros x. rewrite Hroots'. cbn.
    rewrite elem_of_app, !elem_of_bt_iter, Hroots. split; [set_solver|].
    intros Hx. right. split; [|done]. by eapply ready_requeue.
Qed.

End proofs.

