(* ===== verification/GraphRemoval.v ===== *)
(** * Pruning and purging

    The two methods of [DependencyGraph] that remove nodes simulate [a_remove]:
    [prune_processed] removes a parent-closed set of processed nodes,
    [purge_subgraphs] removes a set of nodes with all their descendants. *)

From S2P Require Import Prelude.
From S2P Require Import Graph.
From S2P Require Import GraphProofs.
Import Graph GraphSpec.


Section removal.
Context {K V : Type} `{!Key K}.
Implicit Types (g : DependencyGraph K V) (a : agraph K V) (k key p c x : K) (keys R : gset K).

Lemma a_remove_lookup R a x :
  a_remove R a !! x =
  if decide (x ∈ R) then None else (λ n, mk_node (status n) (preds n ∖ R)) <$> a !! x.
Proof. unfold a_remove. rewrite map_lookup_imap. destruct (a !! x); cbn; by case_decide. Qed.

Lemma a_remove_Some R a x : is_Some (a_remove R a !! x) ↔ is_Some (a !! x) ∧ x ∉ R.
Proof. rewrite a_remove_lookup. case_decide; [|rewrite fmap_is_Some]; naive_solver. Qed.

Lemma edge_remove R a p c : edge (a_remove R a) p c ↔ edge a p c ∧ p ∉ R ∧ c ∉ R.
Proof.
  unfold edge. rewrite a_remove_lookup. case_decide as Hc; [naive_solver|].
  destruct (a !! c) as [n|]; cbn; [|naive_solver].
  split; [intros (? & [= <-] & Hp); cbn in Hp; set_solver|].
  intros ((? & [= <-] & Hp) & HpR & _). eexists. split; [done|]. cbn. set_solver.
Qed.

Lemma is_processed_remove R a x : is_processed (a_remove R a) x ↔ is_processed a x ∧ x ∉ R.
Proof.
  unfold is_processed. rewrite a_remove_lookup. case_decide; [naive_solver|].
  destruct (a !! x) as [[[] ps]|]; cbn; naive_solver.
Qed.

Lemma is_pending_remove R a x : is_pending (a_remove R a) x ↔ is_pending a x ∧ x ∉ R.
Proof.
  unfold is_pending. rewrite a_remove_lookup. case_decide; [naive_solver|].
  destruct (a !! x) as [[[] ps]|]; cbn; naive_solver.
Qed.

Lemma awf_remove R a : awf a → awf (a_remove R a).
Proof.
  intros [Hp Hc [rank Hr]]. split.
  - intros p c (He & HpR & _)%edge_remove. rewrite a_remove_Some. eauto.
  - intros p c (He & HpR & _)%edge_remove. rewrite !is_processed_remove. naive_solver.
  - exists rank. intros p c (He & _)%edge_remove. auto.
Qed.

(** Removing a node may not strand a child that waits for it. *)
Definition removable a R : Prop := ∀ p c, edge a p c → p ∈ R → c ∈ R ∨ is_processed a p.

Lemma ready_remove R a x : removable a R → ready (a_remove R a) x ↔ ready a x ∧ x ∉ R.
Proof.
  intros HR. unfold ready. setoid_rewrite is_processed_remove. rewrite a_remove_lookup.
  case_decide as Hx; [naive_solver|].
  destruct (a !! x) as [n|] eqn:Ha; cbn; [|naive_solver]. split; [|].
  - intros (v & ps & Hn & Hps). split; [|done]. exists v, (preds n). destruct n as [st ps'].
    simplify_eq/=. split; [done|]. intros p Hp. destruct (decide (p ∈ R)) as [HpR|HpR].
    + destruct (HR p x) as [?|?]; [by eexists|done..].
    + by apply Hps; set_solver.
  - intros [(v & ps & Hn & Hps) _]. simplify_eq/=. exists v, (ps ∖ R). split; [done|].
    intros p [Hp HpR]%elem_of_difference. auto.
Qed.

(** ** [prune_processed] *)

Record pruned_graph (pre : list K) (g gi : DependencyGraph K V) : Prop := {
  pr_vertices : ∀ x, vertices gi !! x = if decide (x ∈ pre) then None else vertices g !! x;
  pr_pending : pending gi = pending g;
  pr_roots : roots gi = roots g;
  pr_processed : ∀ x, x ∈ processed gi ↔ x ∈ processed g ∧ x ∉ pre;
  pr_parents : ∀ x, parents gi !! x =
    if decide (x ∈ pre) then None else (λ ps, ps ∖ list_to_set pre) <$> parents g !! x;
  pr_children : ∀ x, children gi !! x = if decide (x ∈ pre) then None else children g !! x;
}.

Lemma pruned_graph_nil g : pruned_graph [] g g.
Proof.
  split; intros; try done; try (destruct (decide (x ∈ [])) as [?%not_elem_of_nil|]; [done|]; try done).
  - set_solver.
  - destruct (parents g !! x); cbn; [|done]. f_equal. set_solver.
Qed.

Lemma wp_prune_one g a pre key acc gi :
  rep g a → pruned_graph pre g gi → key ∉ pre → is_processed a key →
  wp_ok (prune_one acc key) gi (λ g' acc', pruned_graph (pre ++ [key]) g g' ∧
    acc' = acc ++ option_list ((a !! key) ≫= node_value)).
Proof.
  intros [Hwf Hr Hroots] [Hv Hpe Hro Hpr Hpa Hch] Hpre Hproc.
  pose proof Hproc as (v & ps & Hkey). unfold prune_one. wp_steps.
  apply wp_expect_some with v.
  { by rewrite Hv, decide_False, (rep_vertices _ _ Hr), Hkey. }
  wp_steps. cbn. rewrite wp_for_each_modify, foldl_over_parents. wp_steps.
  destruct (proj2 (rep_children_dom _ _ Hr key) ltac:(by eexists)) as [cs Hcs].
  assert (children gi !! key = Some cs) as Hcs' by (by rewrite Hch, decide_False).
  rewrite Hcs', Hkey. cbn. split; [|done]. split; cbn.
  - intros x. rewrite lookup_delete, Hv. repeat case_decide; set_solver.
  - done.
  - done.
  - intros x. rewrite elem_of_difference, Hpr. set_solver.
  - intros x. rewrite lookup_foldl_alter, lookup_delete, Hpa by apply NoDup_bt_iter.
    assert (list_to_set (pre ++ [key]) = ({[key]} ∪ list_to_set pre : gset K)) as -> by set_solver.
    destruct (decide (x = key)) as [->|Hx].
    { rewrite (decide_True (P := key ∈ pre ++ [key])) by set_solver.
      rewrite (decide_True (P := key = key)) by done. by case_decide. }
    rewrite (decide_False (P := key = x)) by done.
    destruct (decide (x ∈ pre)) as [Hin|Hnin].
    { rewrite (decide_True (P := x ∈ pre ++ [key])) by set_solver. by case_decide. }
    rewrite (decide_False (P := x ∈ pre ++ [key])) by set_solver.
    rewrite (rep_parents _ _ Hr). destruct (a !! x) as [n|] eqn:Hax; cbn; [|by case_decide].
    case_decide as Hc; cbn; f_equal; [set_solver|].
    assert (key ∉ preds n); [|set_solver]. intros Hin. apply Hc, elem_of_bt_iter.
    apply (rep_children _ _ Hr _ _ _ Hcs). by eexists.
  - intros x. rewrite lookup_delete, Hch. repeat case_decide; set_solver.
Qed.

Lemma rep_pruned g a keys g' :
  rep g a → pruned_graph (bt_iter keys) g g' →
  (∀ k, k ∈ keys → is_processed a k) →
  (∀ p c, edge a p c → c ∈ keys → p ∈ keys) →
  rep g' (a_remove keys a).
Proof.
  intros [Hwf Hr Hroots] [Hv Hpe Hro Hpr Hpa Hch] Hkeys Hdang.
  split; [by apply awf_remove| |].
  - split.
    + intros x. rewrite Hv, a_remove_lookup, (rep_vertices _ _ Hr).
      repeat case_decide; rewrite elem_of_bt_iter in *; try done.
      by destruct (a !! x) as [[[] ?]|].
    + intros x. rewrite Hpe, is_pending_remove, (rep_pending _ _ Hr). split; [|naive_solver].
      intros Hp. split; [done|]. intros Hx%Hkeys. by apply is_processed_not_pending in Hx.
    + intros x. by rewrite Hpr, is_processed_remove, elem_of_bt_iter, (rep_processed _ _ Hr).
    + intros x. rewrite Hpa, a_remove_lookup, list_to_set_bt_iter, (rep_parents _ _ Hr).
      repeat case_decide; rewrite elem_of_bt_iter in *; try done. by destruct (a !! x).
    + intros x. rewrite Hch, a_remove_Some, <- (rep_children_dom _ _ Hr).
      case_decide as Hx; rewrite elem_of_bt_iter in Hx; naive_solver.
    + intros p c cs. rewrite Hch. case_decide as Hx; [done|]. rewrite elem_of_bt_iter in Hx.
      intros Hcs. rewrite edge_remove, (rep_children _ _ Hr _ _ _ Hcs). naive_solver.
  - intros x. rewrite Hro, Hroots, ready_remove.
    + split; [|naive_solver]. intros Hx. split; [done|]. intros (v & ps & Hp)%Hkeys.
      destruct Hx as (? & ? & ? & _). congruence.
    + intros p c _ Hp. right. by apply Hkeys.
Qed.

Lemma wp_prune_processed g a keys :
  rep g a →
  wp (prune_processed keys) g
    (λ g' vs, rep g' (a_remove keys a) ∧
       vs = omap (λ k, (a !! k) ≫= node_value) (bt_iter keys) ∧
       (∀ k, k ∈ keys → is_processed a k) ∧ (∀ p c, edge a p c → c ∈ keys → p ∈ keys))
    (λ g' e, g' = g ∧ ∃ ks, ks ≠ ∅ ∧
       (e = UnknownNodes ks ∧ (∀ k, k ∈ ks ↔ k ∈ keys ∧ a !! k = None) ∨
        e = UnprocessedNodes ks ∧ (∀ k, k ∈ ks ↔ k ∈ keys ∧ ¬ is_processed a k) ∨
        e = DanglingNodes ks ∧ (∀ p, p ∈ ks ↔ p ∉ keys ∧ ∃ c, c ∈ keys ∧ edge a p c))).
Proof.
  intros Hrep. pose proof Hrep as [Hwf Hr Hroots]. unfold prune_processed. wp_steps.
  case_decide as Hmiss; wp_steps; last first.
  { split; [done|]. eexists. split; [done|]. left. split; [done|]. intros k.
    rewrite elem_of_filter, (rep_contains_false _ _ _ Hr). naive_solver. }
  case_decide as Hun; wp_steps; last first.
  { split; [done|]. eexists. split; [done|]. right; left. split; [done|]. intros k.
    by rewrite elem_of_difference, (rep_processed _ _ Hr). }
  assert (∀ p, p ∈ filter (λ parent, parent ∉ keys)
      (⋃ omap (λ key, parents g !! key) (bt_iter keys)) ↔ p ∉ keys ∧ ∃ c, c ∈ keys ∧ edge a p c) as Hdang.
  { intros p. rewrite elem_of_filter, elem_of_union_list. setoid_rewrite list_elem_of_omap.
    setoid_rewrite (rep_parents _ _ Hr). setoid_rewrite elem_of_bt_iter. unfold edge. split.
    - intros (Hp & ps & (c & Hc & Hps) & Hin). split; [done|]. exists c. split; [done|].
      destruct (a !! c) as [n|]; simplify_eq/=. eauto.
    - intros (Hp & c & Hc & n & Hn & Hin). split; [done|]. exists (preds n).
      split; [|done]. exists c. by rewrite Hn. }
  case_decide as Hd; wp_steps; last first.
  { split; [done|]. eexists. split; [done|]. right; right. by split. }
  assert (∀ k, k ∈ keys → is_processed a k) as Hkeys.
  { intros k Hk. apply (rep_processed _ _ Hr). destruct (decide (k ∈ processed g)); set_solver. }
  assert (∀ p c, edge a p c → c ∈ keys → p ∈ keys) as Hclosed.
  { intros p c He Hc. destruct (decide (p ∈ keys)) as [|Hp]; [done|].
    assert (p ∈ (∅ : gset K)) as []%not_elem_of_empty. rewrite <- Hd. apply Hdang. eauto. }
  eapply wp_mono; [apply (wp_fold_m (λ pre gi acc, pruned_graph pre g gi ∧
    acc = omap (λ k, (a !! k) ≫= node_value) pre) _ _ _ _ (λ _ _, False))| |done].
  - split; [apply pruned_graph_nil|done].
  - intros pre x rest gi acc Heq [Hgi ->].
    pose proof (NoDup_bt_iter keys) as Hnd. rewrite Heq in Hnd.
    apply NoDup_app in Hnd as (_ & Hnd & _).
    eapply wp_mono; [apply (wp_prune_one g a pre x); try done| |done].
    + intros Hx. apply (Hnd _ Hx). set_solver.
    + apply Hkeys. rewrite <- elem_of_bt_iter, Heq. set_solver.
    + intros g' acc' [Hg' ->]. split; [done|]. rewrite omap_app. cbn.
      by destruct (_ ≫= node_value).
  - intros g' vs [Hg' ->]. split; [by eapply rep_pruned|done].
Qed.

(** ** [purge_subgraphs] *)

Record purged_graph (Rm : gset K) (g gi : DependencyGraph K V) : Prop := {
  pu_vertices : ∀ x, vertices gi !! x = if decide (x ∈ Rm) then None else vertices g !! x;
  pu_pending : pending gi = pending g ∖ Rm;
  pu_roots : roots gi = roots g ∖ Rm;
  pu_processed : processed gi = processed g ∖ Rm;
  pu_parents : ∀ x, parents gi !! x = if decide (x ∈ Rm) then None else parents g !! x;
  pu_children : ∀ x, children gi !! x =
    if decide (x ∈ Rm) then None else (λ cs, cs ∖ Rm) <$> children g !! x;
}.

Lemma purged_graph_nil g : purged_graph ∅ g g.
Proof.
  split; intros; rewrite ?difference_empty_L; try done;
    (destruct (decide (x ∈ ∅)) as [?%not_elem_of_empty|]; [done|]; try done).
  destruct (children g !! x); cbn; [|done]. by rewrite difference_empty_L.
Qed.

(** The updates of one iteration of [purge_loop]. *)
Definition purge_step key (ps : gset K) gi : DependencyGraph K V :=
  over_children (λ m, foldl (λ m x, alter (λ cs, cs ∖ {[key]}) x m) m (bt_iter ps))
    (over_parents (λ m, delete key m) (over_children (λ m, delete key m)
      (over_roots (λ s, s ∖ {[key]}) (over_processed (λ s, s ∖ {[key]})
        (over_pending (λ s, s ∖ {[key]}) (over_vertices (λ m, delete key m) gi)))))).

Lemma purged_graph_step g a gi Rm key n :
  rep g a → purged_graph Rm g gi → key ∉ Rm → a !! key = Some n →
  purged_graph ({[key]} ∪ Rm) g (purge_step key (preds n) gi).
Proof.
  intros [Hwf Hr Hroots] [Hv Hpe Hro Hpr Hpa Hch] HkR Hkey. unfold purge_step. split; cbn.
  - intros x. rewrite lookup_delete, Hv. repeat case_decide; set_solver.
  - rewrite Hpe. set_solver.
  - rewrite Hro. set_solver.
  - rewrite Hpr. set_solver.
  - intros x. rewrite lookup_delete, Hpa. repeat case_decide; set_solver.
  - intros x. rewrite lookup_foldl_alter, lookup_delete, Hch by apply NoDup_bt_iter.
    destruct (decide (x = key)) as [->|Hx].
    { rewrite (decide_True (P := key ∈ {[key]} ∪ Rm)) by set_solver.
      rewrite (decide_True (P := key = key)) by done. by case_decide. }
    rewrite (decide_False (P := key = x)) by done.
    destruct (decide (x ∈ Rm)) as [Hin|Hnin].
    { rewrite (decide_True (P := x ∈ {[key]} ∪ Rm)) by set_solver. by case_decide. }
    rewrite (decide_False (P := x ∈ {[key]} ∪ Rm)) by set_solver.
    destruct (children g !! x) as [cs|] eqn:Hcs; cbn; [|by case_decide].
    case_decide as Hc; cbn; f_equal; [set_solver|].
    assert (key ∉ cs); [|set_solver]. intros Hin. apply Hc, elem_of_bt_iter.
    apply (rep_children _ _ Hr _ _ _ Hcs) in Hin as (n' & Hn' & Hin). by simplify_eq.
Qed.

Lemma wp_purge_loop g a keys fuel : ∀ (W Rm : gset K) gi,
  rep g a →
  purged_graph Rm g gi →
  (∀ x, x ∈ W ∪ Rm → is_Some (a !! x) ∧ ∃ k, k ∈ keys ∧ rtc (edge a) k x) →
  (∀ x c, x ∈ Rm → edge a x c → c ∈ W ∪ Rm) →
  W ## Rm → keys ⊆ W ∪ Rm →
  size (dom a) - size Rm < fuel →
  wp_ok (purge_loop fuel keys W Rm) gi (λ g' Rm',
    purged_graph Rm' g g' ∧ keys ⊆ Rm' ∧
    (∀ x, x ∈ Rm' → ∃ k, k ∈ keys ∧ rtc (edge a) k x) ∧
    (∀ x c, x ∈ Rm' → edge a x c → c ∈ Rm')).
Proof.
  induction fuel as [|fuel IH]; intros W Rm gi Hrep Hgi Hreach Hcl Hdisj Hkeys Hfuel; [lia|]; cbn.
  pose proof Hrep as [Hwf Hr Hroots].
  destruct (bt_pop_first W) as [[key W']|] eqn:Hpop; last first.
  { apply bt_pop_first_None in Hpop as ->. wp_steps.
    split; [done|]. split; [set_solver|]. split; set_solver. }
  apply bt_pop_first_Some in Hpop as [Hkey ->]. wp_steps. cbn.
  destruct (Hreach key) as [[n Hn] (k & Hk & Hrtc)]; [set_solver|].
  assert (key ∉ Rm) as HkR by set_solver.
  destruct (proj2 (rep_children_dom _ _ Hr key) ltac:(by eexists)) as [cs Hcs].
  assert (children gi !! key = Some (cs ∖ Rm)) as Hcs'
    by (by rewrite (pu_children _ _ _ Hgi), decide_False, Hcs).
  assert (parents gi !! key = Some (preds n)) as Hps
    by (by rewrite (pu_parents _ _ _ Hgi), decide_False, (rep_parents _ _ Hr), Hn).
  rewrite wp_for_each_modify, Hcs', Hps, foldl_over_children. cbn.
  assert (∀ c, c ∈ cs ↔ edge a key c) as Hnew by (intros c; apply (rep_children _ _ Hr _ _ _ Hcs)).
  apply IH; [done|by apply (purged_graph_step g a)|..].
  - intros x Hx. assert (x ∈ W ∪ Rm ∨ x ∈ cs) as [?|He%Hnew] by set_solver; [by apply Hreach|].
    split; [by destruct He as (n' & -> & _)|]. exists k. split; [done|by eapply rtc_r].
  - intros x c Hx He. apply elem_of_union in Hx as [->%elem_of_singleton|Hx].
    + apply Hnew in He. destruct (decide (c ∈ keys)), (decide (c = key)), (decide (c ∈ Rm)); set_solver.
    + pose proof (Hcl _ _ Hx He). destruct (decide (c = key)); set_solver.
  - intros x Hx Hx'. apply elem_of_union in Hx' as [->%elem_of_singleton|?]; [|set_solver].
    assert (key ∈ cs) as He%Hnew by set_solver. by eapply edge_irreflexive.
  - intros x Hx. apply Hkeys in Hx. destruct (decide (x = key)); set_solver.
  - assert (size ({[key]} ∪ Rm) ≤ size (dom a)) as Hle.
    { apply subseteq_size. intros x Hx. apply elem_of_dom, Hreach. set_solver. }
    rewrite size_union, size_singleton in * by set_solver. lia.
Qed.

Lemma rep_purged g a R g' :
  rep g a → purged_graph R g g' → (∀ x c, x ∈ R → edge a x c → c ∈ R) → rep g' (a_remove R a).
Proof.
  intros [Hwf Hr Hroots] [Hv Hpe Hro Hpr Hpa Hch] Hcl.
  split; [by apply awf_remove| |].
  - split.
    + intros x. rewrite Hv, a_remove_lookup, (rep_vertices _ _ Hr).
      case_decide; [done|]. by destruct (a !! x) as [[[] ?]|].
    + intros x. by rewrite Hpe, is_pending_remove, elem_of_difference, (rep_pending _ _ Hr).
    + intros x. by rewrite Hpr, is_processed_remove, elem_of_difference, (rep_processed _ _ Hr).
    + intros x. rewrite Hpa, a_remove_lookup, (rep_parents _ _ Hr).
      case_decide; [done|]. destruct (a !! x) as [n|] eqn:Hx; cbn; [|done]. f_equal.
      assert (∀ p, p ∈ preds n → p ∉ R); [|set_solver].
      intros p Hp HpR. by assert (x ∈ R) by (eapply Hcl; [done|by eexists]).
    + intros x. rewrite Hch, a_remove_Some, <- (rep_children_dom _ _ Hr).
      case_decide; [|rewrite fmap_is_Some]; naive_solver.
    + intros p c cs. rewrite Hch. case_decide as Hx; [done|].
      intros (cs' & Hcs & ->)%fmap_Some_1.
      rewrite edge_remove, elem_of_difference, (rep_children _ _ Hr _ _ _ Hcs). naive_solver.
  - intros x. rewrite Hro, elem_of_difference, Hroots, ready_remove; [done|].
    intros p c He Hp. left. eauto.
Qed.

Lemma size_dom_rep g a : rep_core g a → size (dom a) ≤ size (pending g) + size (vertices g).
Proof.
  intros Hr. rewrite <- (size_dom (D:=gset K) (vertices g)).
  trans (size (pending g ∪ dom (vertices g))).
  - apply subseteq_size. intros x [n Hn]%elem_of_dom.
    rewrite elem_of_union, elem_of_dom, (rep_pending _ _ Hr), (rep_vertices _ _ Hr), Hn.
    destruct n as [[] ps]; cbn; [left; by exists ps|right; eauto..].
  - rewrite size_union_alt. apply Nat.add_le_mono_l, subseteq_size. set_solver.
Qed.

Lemma wp_purge_subgraphs g a keys :
  rep g a →
  wp (purge_subgraphs keys) g
    (λ g' R, closure a keys R ∧ rep g' (a_remove R a) ∧ ∀ k, k ∈ keys → is_Some (a !! k))
    (λ g' e, g' = g ∧ ∃ ks, e = UnknownNodes ks ∧ ks ≠ ∅ ∧
       ∀ k, k ∈ ks ↔ k ∈ keys ∧ a !! k = None).
Proof.
  intros Hrep. pose proof Hrep as [Hwf Hr Hroots]. unfold purge_subgraphs. wp_steps.
  case_decide as Hmiss; wp_steps; last first.
  { split; [done|]. eexists. split; [done|]. split; [done|]. intros k.
    rewrite elem_of_filter, (rep_contains_false _ _ _ Hr). naive_solver. }
  assert (∀ k, k ∈ keys → is_Some (a !! k)) as Hkeys.
  { intros k Hk. apply (rep_contains _ _ _ Hr), not_false_is_true. intros Hf.
    assert (k ∈ (∅ : gset K)) as []%not_elem_of_empty. rewrite <- Hmiss. by apply elem_of_filter. }
  eapply wp_mono; [apply (wp_purge_loop g a); try done| |done].
  - apply purged_graph_nil.
  - intros x Hx. assert (x ∈ keys) as Hx' by set_solver. split; [auto|].
    exists x. split; [done|reflexivity].
  - set_solver.
  - unfold purge_fuel. rewrite size_empty. pose proof (size_dom_rep _ _ Hr). lia.
  - intros g' R (Hg' & HkR & Hreach & Hcl). split; [|split; [by eapply rep_purged|done]].
    intros x. split; [by apply Hreach|]. intros (k & Hk & Hrtc). apply HkR in Hk. revert Hk.
    induction Hrtc as [|? ? ? He _ IH]; [done|]. intros Hk. apply IH. by eapply Hcl.
Qed.

End removal.

