(* ===== verification/GraphTheorems.v ===== *)
(** * Theorems about the dependency graph

    The simulation of the specification by the code, its consequences for every
    reachable graph, and the laws that relate the methods to each other. *)

From S2P Require Import Prelude.
From S2P Require Import Graph.
From S2P Require Import GraphProofs.
From S2P Require Import GraphRemoval.
Import Graph GraphSpec.


(** The calls a client can make, and what they return. *)
Inductive GraphOp (K V : Type) `{!Key K} : Type :=
| InsertPending (key : K) (ps : gset K)
| PromotePending (key : K) (value : V)
| RevertSubgraphs (keys : gset K)
| PruneProcessed (keys : gset K)
| PurgeSubgraphs (keys : gset K)
| ProcessRoot (key : K).
Arguments InsertPending {K V _}.
Arguments PromotePending {K V _}.
Arguments RevertSubgraphs {K V _}.
Arguments PruneProcessed {K V _}.
Arguments PurgeSubgraphs {K V _}.
Arguments ProcessRoot {K V _}.

Inductive GraphRet (K V : Type) `{!Key K} : Type :=
| RUnit
| RValues (vs : list V)
| RKeys (ks : gset K).
Arguments RUnit {K V _}.
Arguments RValues {K V _}.
Arguments RKeys {K V _}.

Section theorems.
Context {K V : Type} `{!Key K}.
Implicit Types (g : DependencyGraph K V) (a : agraph K V) (k key p c x : K) (keys R : gset K).

Definition run_op (op : GraphOp K V) : M (DependencyGraph K V) (GraphError K) (GraphRet K V) :=
  match op with
  | InsertPending key ps => _ ← insert_pending key ps; mret RUnit
  | PromotePending key value => _ ← promote_pending key value; mret RUnit
  | RevertSubgraphs keys => _ ← revert_subgraphs keys; mret RUnit
  | PruneProcessed keys => vs ← prune_processed keys; mret (RValues vs)
  | PurgeSubgraphs keys => ks ← purge_subgraphs keys; mret (RKeys ks)
  | ProcessRoot key => _ ← process_root key; mret RUnit
  end.

(** A successful step of the specification: [a] becomes [a'] and [r] is returned. *)
Definition spec_step (op : GraphOp K V) a (r : GraphRet K V) a' : Prop :=
  match op with
  | InsertPending key ps =>
      a !! key = None ∧ (∀ p, p ∈ ps → is_Some (a !! p)) ∧ r = RUnit ∧ a' = a_insert key ps a
  | PromotePending key value => is_pending a key ∧ r = RUnit ∧ a' = a_promote key value a
  | RevertSubgraphs keys =>
      (∀ k, k ∈ keys → is_processed a k) ∧ r = RUnit ∧
      ∃ R, processed_closure a keys R ∧ a' = a_requeue R a
  | PruneProcessed keys =>
      (∀ k, k ∈ keys → is_processed a k) ∧ (∀ p c, edge a p c → c ∈ keys → p ∈ keys) ∧
      r = RValues (omap (λ k, (a !! k) ≫= node_value) (bt_iter keys)) ∧ a' = a_remove keys a
  | PurgeSubgraphs keys =>
      (∀ k, k ∈ keys → is_Some (a !! k)) ∧
      ∃ R, closure a keys R ∧ r = RKeys R ∧ a' = a_remove R a
  | ProcessRoot key => ready a key ∧ r = RUnit ∧ a' = a_process key a
  end.

(** A rejected call. *)
Definition spec_err (op : GraphOp K V) a (e : GraphError K) : Prop :=
  match op with
  | InsertPending key ps =>
      e = DuplicateKey key ∧ is_Some (a !! key) ∨
      a !! key = None ∧ ∃ ms, e = MissingParents ms ∧ ms ≠ ∅ ∧
        ∀ p, p ∈ ms ↔ p ∈ ps ∧ a !! p = None
  | PromotePending key _ => e = InvalidPendingNode key ∧ ¬ is_pending a key
  | RevertSubgraphs keys => ∃ ks, ks ≠ ∅ ∧
      (e = UnknownNodes ks ∧ (∀ k, k ∈ ks ↔ k ∈ keys ∧ (a !! k = None ∨ is_pending a k)) ∨
       e = UnprocessedNodes ks ∧ (∀ k, k ∈ ks ↔ k ∈ keys ∧ ¬ is_processed a k))
  | PruneProcessed keys => ∃ ks, ks ≠ ∅ ∧
      (e = UnknownNodes ks ∧ (∀ k, k ∈ ks ↔ k ∈ keys ∧ a !! k = None) ∨
       e = UnprocessedNodes ks ∧ (∀ k, k ∈ ks ↔ k ∈ keys ∧ ¬ is_processed a k) ∨
       e = DanglingNodes ks ∧ (∀ p, p ∈ ks ↔ p ∉ keys ∧ ∃ c, c ∈ keys ∧ edge a p c))
  | PurgeSubgraphs keys => ∃ ks, e = UnknownNodes ks ∧ ks ≠ ∅ ∧
      ∀ k, k ∈ ks ↔ k ∈ keys ∧ a !! k = None
  | ProcessRoot key => e = InvalidRootNode key ∧ ¬ ready a key
  end.

(** A sequence of calls; the caller goes on after an error. *)
Fixpoint run_ops (ops : list (GraphOp K V)) g : option (DependencyGraph K V) :=
  match ops with
  | [] => Some g
  | op :: ops =>
    match run_op op g with
    | (g', Ok _) | (g', Err _) => run_ops ops g'
    | _ => None
    end
  end.

Lemma wp_run_op op g a :
  rep g a →
  wp (run_op op) g (λ g' r, ∃ a', spec_step op a r a' ∧ rep g' a')
    (λ g' e, g' = g ∧ spec_err op a e).
Proof.
  intros Hrep. destruct op; unfold run_op; wp_step;
    (eapply wp_mono;
      [ first [ by apply wp_insert_pending | by apply wp_promote_pending
              | by apply wp_revert_subgraphs | by apply wp_prune_processed
              | by apply wp_purge_subgraphs | by apply wp_process_root ]
      | intros ? ?; cbn; intros; destruct_and?; wp_steps; try naive_solver | naive_solver ]).
Qed.

Lemma rep_default : rep (default_graph : DependencyGraph K V) ∅.
Proof.
  assert (∀ x, (∅ : agraph K V) !! x = None) as Hemp by (intros; apply lookup_empty).
  assert (∀ p c, ¬ edge (∅ : agraph K V) p c) as Hno
    by (intros p c (n & Hn & _); by rewrite Hemp in Hn).
  assert (∀ x, ¬ is_processed (∅ : agraph K V) x) as Hnp
    by (intros x (v & ps & Hx); by rewrite Hemp in Hx).
  split; [split|split|]; cbn.
  - intros p c He. by apply Hno in He.
  - intros p c He. by apply Hno in He.
  - exists (λ _, 0). intros p c He. by apply Hno in He.
  - intros k. by rewrite lookup_empty.
  - intros k. split; [set_solver|]. intros [ps Hk]. by rewrite Hemp in Hk.
  - intros k. split; [set_solver|]. intros Hk. by apply Hnp in Hk.
  - intros k. by rewrite !lookup_empty.
  - intros k. by rewrite !lookup_empty.
  - intros p c cs Hcs. by rewrite lookup_empty in Hcs.
  - intros k. split; [set_solver|]. intros (v & ps & Hk & _). by rewrite Hemp in Hk.
Qed.

Lemma run_ops_rep ops : ∀ g a, rep g a → ∃ g' a', run_ops ops g = Some g' ∧ rep g' a'.
Proof.
  induction ops as [|op ops IH]; intros g a Hrep; cbn; [eauto|].
  pose proof (wp_run_op op g a Hrep) as Hwp. rewrite wp_unfold in Hwp.
  destruct (run_op op g) as [g' []]; [|destruct Hwp as [-> _]|done..].
  - destruct Hwp as (a' & _ & Hrep'). eauto.
  - eauto.
Qed.

(** The graph is determined by what it represents. *)
Lemma rep_det g g' a : rep g a → rep g' a → g = g'.
Proof.
  intros [_ [V1 P1 Q1 A1 D1 C1] R1] [_ [V2 P2 Q2 A2 D2 C2] R2].
  destruct g as [p v pa ch ro pr], g' as [p' v' pa' ch' ro' pr']; cbn in *. f_equal.
  - apply set_eq. intros x. by rewrite P1, P2.
  - apply map_eq. intros x. by rewrite V1, V2.
  - apply map_eq. intros x. by rewrite A1, A2.
  - apply map_eq. intros x. destruct (ch !! x) as [cs|] eqn:E1, (ch' !! x) as [cs'|] eqn:E2.
    + f_equal. apply set_eq. intros c. by rewrite (C1 _ _ _ E1), (C2 _ _ _ E2).
    + apply eq_None_not_Some in E2. destruct E2. rewrite D2, <- D1. eauto.
    + apply eq_None_not_Some in E1. destruct E1. rewrite D1, <- D2. eauto.
    + done.
  - apply set_eq. intros x. by rewrite R1, R2.
  - apply set_eq. intros x. by rewrite Q1, Q2.
Qed.

(** Every reachable graph is represented by an abstract one. *)
Lemma reachable_rep ops g :
  run_ops ops default_graph = Some g → ∃ a, rep g a.
Proof.
  intros H. destruct (run_ops_rep ops default_graph ∅ rep_default) as (g' & a & Hrun & Hrep).
  rewrite H in Hrun. injection Hrun as ->. eauto.
Qed.

(** What the invariant says of the six collections of the code. *)
Record graph_inv g : Prop := {
  inv_disjoint : pending g ## dom (vertices g);
  inv_parents_dom : dom (parents g) = pending g ∪ dom (vertices g);
  inv_children_dom : dom (children g) = pending g ∪ dom (vertices g);
  inv_symmetric : ∀ p c,
    (∃ ps, parents g !! c = Some ps ∧ p ∈ ps) ↔ (∃ cs, children g !! p = Some cs ∧ c ∈ cs);
  inv_processed : ∀ c, c ∈ processed g →
    c ∈ dom (vertices g) ∧ ∃ ps, parents g !! c = Some ps ∧ ps ⊆ processed g;
  inv_roots : ∀ x, x ∈ roots g ↔
    x ∈ dom (vertices g) ∧ x ∉ processed g ∧ ∃ ps, parents g !! x = Some ps ∧ ps ⊆ processed g;
}.

Lemma rep_dom g a : rep_core g a → dom a = pending g ∪ dom (vertices g).
Proof.
  intros Hr. apply set_eq. intros x.
  rewrite elem_of_union, !elem_of_dom, (rep_pending _ _ Hr), (rep_vertices _ _ Hr).
  unfold is_pending. destruct (a !! x) as [[[] ps]|]; cbn; split; intros H; try naive_solver.
  all: destruct H as [[? ?]|[? ?]]; done.
Qed.

Lemma rep_graph_inv g a : rep g a → graph_inv g.
Proof.
  intros [Hwf Hr Hroots]. split.
  - intros x. rewrite elem_of_dom, (rep_pending _ _ Hr), (rep_vertices _ _ Hr).
    intros [ps ->]. by intros [? ?].
  - rewrite <- (rep_dom _ _ Hr). apply set_eq. intros x.
    by rewrite !elem_of_dom, (rep_parents _ _ Hr), fmap_is_Some.
  - rewrite <- (rep_dom _ _ Hr). apply set_eq. intros x.
    by rewrite !elem_of_dom, (rep_children_dom _ _ Hr).
  - intros p c. rewrite (rep_parents _ _ Hr). split.
    + intros (ps & (n & Hn & ->)%fmap_Some_1 & Hp). assert (edge a p c) as He by (by exists n).
      destruct (proj2 (rep_children_dom _ _ Hr p) (awf_parents _ Hwf _ _ He)) as [cs Hcs].
      exists cs. split; [done|]. by apply (rep_children _ _ Hr _ _ _ Hcs).
    + intros (cs & Hcs & Hc). apply (rep_children _ _ Hr _ _ _ Hcs) in Hc as (n & Hn & Hp).
      exists (preds n). by rewrite Hn.
  - intros c Hc. apply (rep_processed _ _ Hr) in Hc as Hpc. pose proof Hpc as (v & ps & Ha).
    rewrite elem_of_dom, (rep_vertices _ _ Hr), (rep_parents _ _ Hr), Ha. cbn.
    split; [eauto|]. exists ps. split; [done|]. intros p Hp. apply (rep_processed _ _ Hr).
    apply (awf_closed _ Hwf p c); [by eexists|done].
  - intros x. rewrite Hroots, elem_of_dom, (rep_vertices _ _ Hr), (rep_processed _ _ Hr),
      (rep_parents _ _ Hr). unfold ready, is_processed at 2.
    destruct (a !! x) as [[[|v|v] ps]|]; cbn.
    + split; [naive_solver|]. by intros ([? ?] & _).
    + split.
      * intros (v' & ps' & [= <- <-] & Hps). split; [eauto|]. split; [naive_solver|].
        exists ps. split; [done|]. intros p Hp. apply (rep_processed _ _ Hr). auto.
      * intros (_ & _ & ps' & [= <-] & Hps). exists v, ps. split; [done|].
        intros p Hp. apply (rep_processed _ _ Hr). auto.
    + split; [naive_solver|]. intros (_ & Hnp & _). destruct Hnp. eauto.
    + split; [naive_solver|]. by intros ([? ?] & _).
Qed.

(** With no pending node, an unprocessed node has a ready ancestor or is ready. *)
Lemma ready_exists g a x :
  rep g a → pending g = ∅ → x ∈ dom (vertices g) → x ∉ processed g → ∃ k, ready a k.
Proof.
  intros [Hwf Hr _] Hpe Hx Hun. destruct (awf_rank _ Hwf) as [rank Hrank].
  remember (rank x) as n eqn:Hn. revert x Hx Hun Hn.
  induction (lt_wf n) as [n _ IH]. intros x Hx Hun ->.
  assert (∀ k, ¬ is_pending a k) as Hnp by (intros k Hk%(rep_pending _ _ Hr); set_solver).
  rewrite elem_of_dom, (rep_vertices _ _ Hr) in Hx. rewrite (rep_processed _ _ Hr) in Hun.
  destruct (a !! x) as [[st ps]|] eqn:Ha; [|by destruct Hx].
  destruct (decide (ps ⊆ processed g)) as [Hall|Hall].
  - exists x. destruct st as [|v|v]; [by destruct Hx| |by destruct Hun; exists v, ps].
    exists v, ps. split; [done|]. intros p Hp. apply (rep_processed _ _ Hr). auto.
  - apply not_subseteq_witness in Hall as (p & Hp & Hnpr).
    assert (edge a p x) as He by (by eexists).
    apply (IH (rank p) (Hrank _ _ He) p); [|done..].
    destruct (awf_parents _ Hwf _ _ He) as [np Hnp'].
    rewrite elem_of_dom, (rep_vertices _ _ Hr), Hnp'. destruct np as [[] qs]; cbn; [|eauto..].
    destruct (Hnp p). by exists qs.
Qed.

Lemma rtc_leaf a k x : (∀ c, ¬ edge a k c) → rtc (edge a) k x → x = k.
Proof. intros Hleaf Hrtc. inv Hrtc; [done|]. by destruct (Hleaf y). Qed.

(** C11: The code simulates its specification. From every graph that any sequence
    of calls can reach, each call returns without a panic and its worklist loop
    terminates; if it succeeds, the new graph and the returned value are those of
    the abstract specification; if it fails, the error is the specified one and
    the graph is exactly the one before the call (the calls are atomic). *)
Theorem graph_simulates (ops : list (GraphOp K V)) g (H : run_ops ops default_graph = Some g) :
  ∃ a, rep g a ∧ ∀ op,
    match run_op op g with
    | (g', Ok r) => ∃ a', spec_step op a r a' ∧ rep g' a'
    | (g', Err e) => g' = g ∧ spec_err op a e
    | _ => False
    end.
Proof.
  destruct (reachable_rep _ _ H) as [a Hrep]. exists a. split; [done|].
  intros op. pose proof (wp_run_op op g a Hrep) as Hwp. by rewrite wp_unfold in Hwp.
Qed.

(** No sequence of calls, whatever their arguments, makes the graph panic or
    loop, and afterwards its six collections are consistent: pending and promoted
    nodes are disjoint, the parent and child maps are inverse of each other, a
    processed node has only processed parents, and the roots are exactly the
    promoted, unprocessed nodes all of whose parents are processed. *)
Theorem graph_reachable_inv (ops : list (GraphOp K V)) :
  match run_ops ops default_graph with Some g => graph_inv g | None => False end.
Proof.
  destruct (run_ops_rep ops default_graph ∅ rep_default) as (g & a & -> & Hrep).
  by eapply rep_graph_inv.
Qed.

(** The graph cannot get stuck. In every reachable graph without pending
    nodes, as long as some node is unprocessed there is a root, and processing the
    first root succeeds and processes one node more. *)
Theorem graph_progress (ops : list (GraphOp K V)) g (H : run_ops ops default_graph = Some g)
    (Hpending : pending g = ∅) (Hwork : ¬ dom (vertices g) ⊆ processed g) :
  ∃ k g', bt_first (roots g) = Some k ∧ process_root k g = (g', Ok tt) ∧
    processed g' = {[k]} ∪ processed g ∧ k ∉ processed g.
Proof.
  destruct (reachable_rep _ _ H) as [a Hrep]. pose proof Hrep as [Hwf Hr Hroots].
  apply not_subseteq_witness in Hwork as (x & Hx & Hun).
  destruct (ready_exists g a x) as [k0 Hk0]; [done..|]. apply Hroots in Hk0.
  destruct (bt_first (roots g)) as [k|] eqn:Hfirst; [|apply bt_first_None in Hfirst; set_solver].
  apply bt_first_Some in Hfirst as Hk. apply Hroots in Hk as Hready.
  pose proof (wp_process_root g a k Hrep) as Hwp. rewrite wp_unfold in Hwp.
  destruct (process_root k g) as [g' [[]|e| |]] eqn:Hrun; [|naive_solver..].
  destruct Hwp as [Hrep' _]. exists k, g'. split_and!; [done..| |].
  - apply set_eq. intros y. rewrite (rep_processed _ _ (rep_is_core _ _ Hrep')).
    rewrite is_processed_process, elem_of_union, elem_of_singleton by done.
    by rewrite (rep_processed _ _ Hr).
  - rewrite (rep_processed _ _ Hr). intros (v & ps & Hp).
    destruct Hready as (w & qs & Hq & _). congruence.
Qed.

(** Reverting a node that has just been processed restores the graph exactly,
    roots included. *)
Theorem graph_process_revert (ops : list (GraphOp K V)) g k
    (H : run_ops ops default_graph = Some g) (Hk : k ∈ roots g) :
  ∃ g', process_root k g = (g', Ok tt) ∧ revert_subgraphs {[k]} g' = (g, Ok tt).
Proof.
  destruct (reachable_rep _ _ H) as [a Hrep]. pose proof Hrep as [Hwf Hr Hroots].
  apply Hroots in Hk as Hready.
  pose proof (wp_process_root g a k Hrep) as Hwp. rewrite wp_unfold in Hwp.
  destruct (process_root k g) as [g' [[]|e| |]] eqn:Hrun; [|naive_solver..].
  destruct Hwp as [Hrep' _]. exists g'. split; [done|].
  pose proof (wp_revert_subgraphs g' _ {[k]} Hrep') as Hwp. rewrite wp_unfold in Hwp.
  assert (is_processed (a_process k a) k) as Hkp by (apply is_processed_process; auto).
  destruct (revert_subgraphs {[k]} g') as [g'' [[]|e| |]]; [| |done..]; last first.
  { exfalso. destruct Hwp as (_ & ks & Hne & [[_ Hks]|[_ Hks]]); apply set_choose_L in Hne as [y Hy];
      apply Hks in Hy as [->%elem_of_singleton Hy].
    - destruct Hkp as (v & ps & Hkp). destruct Hy as [Hy|[qs Hy]]; congruence.
    - done. }
  destruct Hwp as (R & HR & Hrep'' & _). f_equal. eapply rep_det; [done|].
  destruct Hready as (v & ps & Hlk & Hps).
  assert (a = a_requeue R (a_process k a)) as <-; [|done].
  assert (R = {[k]}) as ->.
  { apply set_eq. intros x. rewrite (HR x), elem_of_singleton. split.
    - intros [Hxp (y & ->%elem_of_singleton & Hrtc)].
      apply rtc_inv in Hrtc as [->|(c & He & Hrtc)]; [done|].
      apply (processed_ancestor _ _ _ (rep_wf _ _ Hrep')) in Hrtc; [|done].
      rewrite is_processed_process in Hrtc by (by exists v, ps).
      rewrite (same_preds_edge _ _ _ _ (same_preds_process a k)) in He.
      destruct Hrtc as [->|Hc]; [by destruct (edge_irreflexive _ _ Hwf He)|].
      apply (awf_closed _ Hwf _ _ He) in Hc as (w & qs & Hc). congruence.
    - intros ->. split; [done|]. exists k. split; [set_solver|done]. }
  apply map_eq. intros x. rewrite a_requeue_lookup, a_process_lookup.
  destruct (decide (k = x)) as [<-|Hx].
  - rewrite Hlk. cbn. by case_decide; [|set_solver].
  - destruct (a !! x); cbn; [|done]. by rewrite decide_False by set_solver.
Qed.

(** Purging a node that has just been inserted restores the graph exactly. *)
Theorem graph_insert_purge (ops : list (GraphOp K V)) g k ps
    (H : run_ops ops default_graph = Some g)
    (Hk : contains k g = false) (Hps : ∀ p, p ∈ ps → contains p g = true) :
  ∃ g', insert_pending k ps g = (g', Ok tt) ∧ purge_subgraphs {[k]} g' = (g, Ok {[k]}).
Proof.
  destruct (reachable_rep _ _ H) as [a Hrep]. pose proof Hrep as [Hwf Hr Hroots].
  apply (rep_contains_false _ _ _ Hr) in Hk.
  pose proof (wp_insert_pending g a k ps Hrep) as Hwp. rewrite wp_unfold in Hwp.
  destruct (insert_pending k ps g) as [g' [[]|e| |]] eqn:Hrun; [| |done..]; last first.
  { exfalso. destruct Hwp as (_ & [[_ [? ?]]|(_ & ms & _ & Hne & Hms)]); [congruence|].
    apply set_choose_L in Hne as [y Hy]. apply Hms in Hy as [Hy1 Hy2].
    apply Hps, (rep_contains _ _ _ Hr) in Hy1 as [? ?]. congruence. }
  destruct Hwp as (Hrep' & _ & Hps'). exists g'. split; [done|].
  pose proof (wp_purge_subgraphs g' _ {[k]} Hrep') as Hwp. rewrite wp_unfold in Hwp.
  assert (is_Some (a_insert k ps a !! k)) as Hkin by (unfold a_insert; rewrite lookup_insert_eq; eauto).
  destruct (purge_subgraphs {[k]} g') as [g'' [R|e| |]]; [| |done..]; last first.
  { exfalso. destruct Hwp as (_ & ks & _ & Hne & Hks). apply set_choose_L in Hne as [y Hy].
    apply Hks in Hy as [->%elem_of_singleton Hy]. destruct Hkin. congruence. }
  destruct Hwp as (HR & Hrep'' & _).
  assert (∀ c, ¬ edge (a_insert k ps a) k c) as Hleaf.
  { intros c [He|[-> Hin]]%edge_insert_pending; [|by destruct (Hps' k); congruence|done].
    destruct (awf_parents _ Hwf _ _ He). congruence. }
  assert (R = {[k]}) as ->.
  { apply set_eq. intros x. rewrite (HR x), elem_of_singleton. split.
    - intros (y & ->%elem_of_singleton & Hrtc). by eapply rtc_leaf.
    - intros ->. exists k. split; [set_solver|done]. }
  f_equal. eapply rep_det; [done|].
  assert (a = a_remove {[k]} (a_insert k ps a)) as <-; [|done].
  apply map_eq. intros x. rewrite a_remove_lookup. unfold a_insert. case_decide as Hx.
  - apply elem_of_singleton in Hx as ->. done.
  - rewrite lookup_insert_ne by set_solver. destruct (a !! x) as [[st qs]|] eqn:Hax; cbn; [|done].
    do 2 f_equal. assert (k ∉ qs); [|set_solver]. intros Hin.
    destruct (awf_parents _ Hwf k x); [by eexists|congruence].
Qed.

End theorems.

(** ** Witnesses

    Node 1 is processed, node 2 depends on it and is in the queue, node 3 is not
    yet in the graph. *)
Module GraphWitness.

Definition ops : list (GraphOp N N) :=
  [InsertPending 1%N ∅; PromotePending 1%N 10%N; InsertPending 2%N {[1%N]};
   ProcessRoot 1%N; PromotePending 2%N 20%N].

Definition start : DependencyGraph N N :=
  match run_ops ops default_graph with Some g => g | None => default_graph end.

Lemma graph_start_reached : run_ops ops default_graph = Some start.
Proof. reflexivity. Qed.

Lemma graph_simulates_witness :
  ∃ a, rep start a ∧
    match run_op (ProcessRoot 2%N) start with
    | (g', Ok r) => ∃ a', spec_step (ProcessRoot 2%N) a r a' ∧ rep g' a'
    | (g', Err e) => g' = start ∧ spec_err (ProcessRoot 2%N) a e
    | _ => False
    end.
Proof.
  destruct (graph_simulates ops start graph_start_reached) as (a & Ha & Hop).
  exists a. split; [exact Ha|exact (Hop (ProcessRoot 2%N))].
Defined.

Lemma graph_progress_witness :
  ∃ k g', bt_first (roots start) = Some k ∧ process_root k start = (g', Ok tt) ∧
    processed g' = {[k]} ∪ processed start ∧ k ∉ processed start.
Proof.
  apply (graph_progress ops start graph_start_reached).
  - vm_compute. reflexivity.
  - apply (proj1 (bool_decide_eq_false _)). vm_compute. reflexivity.
Defined.

Lemma graph_process_revert_witness :
  ∃ g', process_root 2%N start = (g', Ok tt) ∧ revert_subgraphs {[2%N]} g' = (start, Ok tt).
Proof.
  apply (graph_process_revert ops start 2%N graph_start_reached).
  apply (proj1 (bool_decide_eq_true _)). vm_compute. reflexivity.
Defined.

Lemma graph_insert_purge_witness :
  ∃ g', insert_pending 3%N {[1%N; 2%N]} start = (g', Ok tt) ∧
    purge_subgraphs {[3%N]} g' = (start, Ok {[3%N]}).
Proof.
  apply (graph_insert_purge ops start 3%N {[1%N; 2%N]} graph_start_reached).
  - vm_compute. reflexivity.
  - intros p Hp. apply elem_of_union in Hp as [->%elem_of_singleton| ->%elem_of_singleton];
      vm_compute; reflexivity.
Defined.

End GraphWitness.

