(* ===== verification/External.v ===== *)
(** * The protocol library as an interface

    The node is built on [miden_objects] (and on tokio's channels), whose code is
    not part of the repository. [MidenObjects] lists the types and operations the
    modelled code uses; [MidenLaws] states the documented behaviour the proofs
    rely on. [Concrete.v] gives an instance of both. *)

From S2P Require Import Prelude.

(** [miden_objects::block::BlockNumber] wraps a [u32]. *)
Abbreviation BlockNumber := N.

Class MidenObjects := {
  TransactionId : Type;
  AccountId : Type;
  NoteId : Type;
  Nullifier : Type;
  BatchId : Type;
  tx_id_key :: Key TransactionId;
  account_id_key :: Key AccountId;
  note_id_key :: Key NoteId;
  nullifier_key :: Key Nullifier;
  batch_id_key :: Key BatchId;

  (** State commitments; the zero digest is that of a new account. *)
  Digest : Type;
  digest_eq :: EqDecision Digest;
  digest_default : Digest;

  (** Arithmetic of [BlockNumber]. *)
  bn_child : BlockNumber → BlockNumber;
  bn_add : BlockNumber → N → BlockNumber;
  bn_checked_sub : BlockNumber → N → option BlockNumber;

  (** Notes. *)
  Note : Type;
  note_nullifier : Note → Nullifier;
  note_is_network : Note → bool;
  OutputNote : Type;
  output_note_id : OutputNote → NoteId;
  (** [Some] for the [Full] variant. *)
  output_note_full : OutputNote → option Note;

  AccountUpdateDetails : Type;
  account_is_network : AccountId → bool;

  (** [ProvenTransaction] and its [TxAccountUpdate]. *)
  ProvenTransaction : Type;
  ptx_id : ProvenTransaction → TransactionId;
  ptx_account_id : ProvenTransaction → AccountId;
  ptx_initial_state_commitment : ProvenTransaction → Digest;
  ptx_final_state_commitment : ProvenTransaction → Digest;
  ptx_account_details : ProvenTransaction → AccountUpdateDetails;
  ptx_nullifiers : ProvenTransaction → list Nullifier;
  ptx_num_input_notes : ProvenTransaction → N;
  ptx_output_notes : ProvenTransaction → list OutputNote;
  ptx_num_output_notes : ProvenTransaction → N;
  (** The ids of the unauthenticated input notes' headers. *)
  ptx_unauthenticated_notes : ProvenTransaction → list NoteId;
  ptx_expiration_block_num : ProvenTransaction → BlockNumber;
  ptx_ref_block : ProvenTransaction → BlockNumber * Digest;

  (** Batches and blocks. *)
  ProvenBatch : Type;
  batch_id : ProvenBatch → BatchId;
  batch_id_from_ids : list (TransactionId * AccountId) → BatchId;
  BlockHeader : Type;
  header_block_num : BlockHeader → BlockNumber;
  MAX_ACCOUNTS_PER_BATCH : N;
  MAX_INPUT_NOTES_PER_BATCH : N;
  MAX_OUTPUT_NOTES_PER_BATCH : N;
}.

(** Documented behaviour. A block number is a [u32] in the library, whose addition and
    [child] overflow at 2^32: the laws state their behaviour below that, and are an
    idealisation for a chain whose tip is within the expiration slack of 2^32 blocks. A
    batch id is a collision-resistant hash of the ids it is computed from; a transaction id is a hash over the account's commitments
    and the input and output notes. *)
Class MidenLaws `{!MidenObjects} : Prop := {
  bn_child_spec n : bn_child n = (n + 1)%N;
  bn_add_spec n k : bn_add n k = (n + k)%N;
  bn_checked_sub_spec n k : bn_checked_sub n k = if (k <=? n)%N then Some (n - k)%N else None;
  batch_id_inj l l' : batch_id_from_ids l = batch_id_from_ids l' → l = l';
  ptx_id_nullifiers t t' : ptx_id t = ptx_id t' → ptx_nullifiers t = ptx_nullifiers t';
  ptx_id_output_notes t t' : ptx_id t = ptx_id t' →
    output_note_id <$> ptx_output_notes t = output_note_id <$> ptx_output_notes t';
}.
