(* ===== verification/Transaction.v ===== *)
(** * Authenticated transactions

    Model of [crates/block-producer/src/domain/transaction.rs] with the types it
    uses of [store/mod.rs] and [errors.rs]. *)

From S2P Require Import Prelude.
From S2P Require Import External.

Section transaction.
Context `{!MidenObjects}.

(** [store/mod.rs]: what the store says about a transaction. A [Some] block
    number in [ti_nullifiers] is a non-zero [u32]. *)
Record TransactionInputs := mk_transaction_inputs {
  ti_account_id : AccountId;
  ti_account_commitment : option Digest;
  ti_nullifiers : gmap Nullifier (option positive);
  ti_found_unauthenticated_notes : gset NoteId;
  ti_current_block_height : BlockNumber;
}.

(** [errors.rs]. The [StoreConnectionFailed] payload is a transport error. *)
Inductive VerifyTxError : Type :=
| InputNotesAlreadyConsumed (ns : list Nullifier)
| UnauthenticatedNotesNotFound (ids : list NoteId)
| OutputNotesAlreadyExist (ids : list NoteId)
| IncorrectAccountInitialCommitment (tx_initial : Digest) (current : option Digest)
| StoreConnectionFailed
| InvalidTransactionProof (id : TransactionId).

Inductive AddTransactionError : Type :=
| VerificationFailed (e : VerifyTxError)
| StaleInputs (input_block stale_limit : BlockNumber)
| TransactionDeserializationFailed
| Expired (expired_at limit : BlockNumber).

(** The two classes of [tonic::Status] the conversion of an
    [AddTransactionError] produces. *)
Inductive StatusClass : Type := InvalidArgument | Internal.

Definition status_of_error (e : AddTransactionError) : StatusClass :=
  match e with
  | VerificationFailed StoreConnectionFailed | StaleInputs _ _ => Internal
  | VerificationFailed _ | Expired _ _ | TransactionDeserializationFailed => InvalidArgument
  end.

Record AuthenticatedTransaction := mk_authenticated {
  inner : ProvenTransaction;
  store_account_state : option Digest;
  notes_authenticated_by_store : gset NoteId;
  authentication_height : BlockNumber;
}.

Implicit Types (tx : AuthenticatedTransaction).

(** [AuthenticatedTransaction::new] *)
Definition authenticate (tx : ProvenTransaction) (inputs : TransactionInputs)
  : VerifyTxError + AuthenticatedTransaction :=
  let nullifiers_already_spent :=
    filter (λ n, is_Some (mjoin (ti_nullifiers inputs !! n))) (ptx_nullifiers tx) in
  match nullifiers_already_spent with
  | [] => inr {| inner := tx;
                 notes_authenticated_by_store := ti_found_unauthenticated_notes inputs;
                 authentication_height := ti_current_block_height inputs;
                 store_account_state := ti_account_commitment inputs |}
  | _ => inl (InputNotesAlreadyConsumed nullifiers_already_spent)
  end.

Definition tx_id tx : TransactionId := ptx_id (inner tx).

Definition account_id tx : AccountId := ptx_account_id (inner tx).

Definition initial_state_commitment tx : Digest := ptx_initial_state_commitment (inner tx).

Definition final_state_commitment tx : Digest := ptx_final_state_commitment (inner tx).

Definition nullifiers_of tx : list Nullifier := ptx_nullifiers (inner tx).

Definition output_note_ids tx : list NoteId := output_note_id <$> ptx_output_notes (inner tx).

Definition output_notes_of tx : list OutputNote := ptx_output_notes (inner tx).

Definition output_note_count tx : N := ptx_num_output_notes (inner tx).

Definition input_note_count tx : N := ptx_num_input_notes (inner tx).

Definition reference_block tx : BlockNumber * Digest := ptx_ref_block (inner tx).

(** Unauthenticated in the transaction and not authenticated by the store. *)
Definition unauthenticated_notes tx : list NoteId :=
  filter (λ note_id, note_id ∉ notes_authenticated_by_store tx)
    (ptx_unauthenticated_notes (inner tx)).

Definition expires_at tx : BlockNumber := ptx_expiration_block_num (inner tx).

End transaction.

(** ** Batch and block budgets

    Model of the budgets of [crates/block-producer/src/mempool/mod.rs] and of the
    limits of [crates/block-producer/src/lib.rs]. *)

Definition SERVER_MAX_TXS_PER_BATCH : N := 8.

Definition SERVER_MAX_BATCHES_PER_BLOCK : N := 8.

Definition SERVER_MEMPOOL_STATE_RETENTION : nat := 5.

Definition SERVER_MEMPOOL_EXPIRATION_SLACK : N := 2.

Inductive BudgetStatus : Type := WithinScope | Exceeded.

#[global] Instance BudgetStatus_eq_dec : EqDecision BudgetStatus.
Proof. solve_decision. Defined.

Module BatchBudget.

Record BatchBudget := mk_batch_budget {
  transactions : N;
  input_notes : N;
  output_notes : N;
  accounts : N;
}.

Definition ACCOUNT_UPDATES_PER_TX : N := 1.

Section defs.
Context `{!MidenObjects}.

Definition default_budget : BatchBudget := {|
  transactions := SERVER_MAX_TXS_PER_BATCH;
  input_notes := MAX_INPUT_NOTES_PER_BATCH;
  output_notes := MAX_OUTPUT_NOTES_PER_BATCH;
  accounts := MAX_ACCOUNTS_PER_BATCH;
|}.

(** The guard makes every subtraction exact: see [check_then_subtract_exact]. *)
Definition check_then_subtract (b : BatchBudget) (tx : AuthenticatedTransaction)
  : BudgetStatus * BatchBudget :=
  let output := output_note_count tx in
  let input := input_note_count tx in
  if (transactions b =? 0)%N || (accounts b <? ACCOUNT_UPDATES_PER_TX)%N
     || (input_notes b <? input)%N || (output_notes b <? output)%N
  then (Exceeded, b)
  else (WithinScope, {|
    transactions := transactions b - 1;
    accounts := accounts b - ACCOUNT_UPDATES_PER_TX;
    input_notes := input_notes b - input;
    output_notes := output_notes b - output;
  |}).

Lemma check_then_subtract_exact b tx b' :
  check_then_subtract b tx = (WithinScope, b') →
  transactions b = (transactions b' + 1)%N ∧ accounts b = (accounts b' + 1)%N ∧
  input_notes b = (input_notes b' + input_note_count tx)%N ∧
  output_notes b = (output_notes b' + output_note_count tx)%N.
Proof.
  unfold check_then_subtract, ACCOUNT_UPDATES_PER_TX. destruct (_ || _) eqn:E; [done|].
  rewrite !orb_false_iff, N.eqb_neq, !N.ltb_ge in E. intros [= <-]. cbn. lia.
Qed.

End defs.

End BatchBudget.

Module BlockBudget.

Record BlockBudget := mk_block_budget { batches : N }.

Definition default_budget : BlockBudget := {| batches := SERVER_MAX_BATCHES_PER_BLOCK |}.

Definition check_then_subtract `{!MidenObjects} (b : BlockBudget) (_batch : ProvenBatch)
  : BudgetStatus * BlockBudget :=
  if (batches b =? 0)%N then (Exceeded, b)
  else (WithinScope, {| batches := batches b - 1 |}).

End BlockBudget.
