(* ===== verification/Expirations.v ===== *)
(** * Transaction expirations

    Model of [crates/block-producer/src/mempool/transaction_expiration.rs]. *)

From S2P Require Import Prelude.
From S2P Require Import External.

Module Expirations.

Section defs.
Context `{!MidenObjects}.

Record TransactionExpirations := mk_expirations {
  by_tx : gmap TransactionId BlockNumber;
  by_block : gmap BlockNumber (gset TransactionId);
}.

Implicit Types (s : TransactionExpirations) (tx : TransactionId) (block : BlockNumber).

Definition default_expirations : TransactionExpirations := mk_expirations ∅ ∅.

Definition over_by_tx f s := mk_expirations (f (by_tx s)) (by_block s).

Definition over_by_block f s := mk_expirations (by_tx s) (f (by_block s)).

Context {E : Type}.
Abbreviation EM := (M TransactionExpirations E).

Definition insert tx block : EM unit :=
  _ ← modify (over_by_tx (λ m, <[tx := block]> m));
  modify (over_by_block (entry_or ∅ (λ txs, {[tx]} ∪ txs) block)).

Definition get_expiring block : EM (gset TransactionId) :=
  gets (λ s, default ∅ (by_block s !! block)).

(** The body of the loop of [remove]. *)
Definition remove_one tx : EM unit :=
  s ← get;
  match by_tx s !! tx with
  | None => mret tt
  | Some block =>
    _ ← modify (over_by_tx (λ m, delete tx m));
    match by_block s !! block with
    | None => panic "block entry must exist as this is a bidirectional mapping"
    | Some txs =>
      let txs := txs ∖ {[tx]} in
      _ ← modify (over_by_block (λ m, <[block := txs]> m));
      (* Prune the entire block's entry if no transactions are tracked. *)
      if decide (txs = ∅) then modify (over_by_block (λ m, delete block m)) else mret tt
    end
  end.

Definition remove (txs : list TransactionId) : EM unit := for_each txs remove_one.

End defs.

End Expirations.

(** ** Correctness of the expiration tracker *)

Import Expirations.

Section expirations.
Context `{!MidenObjects}.
Implicit Types (s : TransactionExpirations) (t : TransactionId) (block : BlockNumber).

(** The two maps are inverse of each other and no block is without transactions. *)
Record einv s : Prop := {
  e_inverse : ∀ t block, t ∈ default ∅ (by_block s !! block) ↔ by_tx s !! t = Some block;
  e_nonempty : ∀ block txs, by_block s !! block = Some txs → txs ≠ ∅;
}.

Lemma einv_default : einv default_expirations.
Proof. split; cbn; intros *; rewrite ?lookup_empty; [|done]. cbn. set_solver. Qed.

Lemma wp_expire_insert {E} s t block :
  einv s → by_tx s !! t = None →
  wp_ok (insert t block : M _ E _) s (λ s' _, einv s' ∧ by_tx s' = <[t := block]> (by_tx s)).
Proof.
  intros [Hinv Hne] Ht. unfold insert. wp_steps. split; [|done]. unfold entry_or. split; cbn.
  - intros t' block'. rewrite !lookup_insert. specialize (Hinv t' block').
    destruct (decide (block = block')) as [<-|Hb].
    + cbn. rewrite elem_of_union, elem_of_singleton, Hinv. case_decide; naive_solver.
    + rewrite Hinv. case_decide; [subst|done]. split; [congruence|]. naive_solver.
  - intros block' txs [[_ <-]|[_ Htxs]]%lookup_insert_Some; [set_solver|by eapply Hne].
Qed.

Lemma wp_expire_remove_one {E} s t :
  einv s →
  wp_ok (remove_one t : M _ E _) s (λ s' _, einv s' ∧ by_tx s' = delete t (by_tx s)).
Proof.
  intros [Hinv Hne]. unfold remove_one. wp_steps. destruct (by_tx s !! t) as [block|] eqn:Ht.
  2: { wp_steps. split; [done|]. by rewrite delete_id. }
  wp_steps. pose proof (proj2 (Hinv t block) Ht) as Hin.
  destruct (by_block s !! block) as [txs|] eqn:Hb; [|set_solver]. cbn in Hin. wp_steps.
  assert (∀ t' block', t' ∈ default ∅ (<[block := txs ∖ {[t]}]> (by_block s) !! block') ↔
    delete t (by_tx s) !! t' = Some block') as Hinv'.
  { intros t' block'. rewrite lookup_insert, lookup_delete. specialize (Hinv t' block').
    destruct (decide (block = block')) as [<-|Hb'].
    - rewrite Hb in Hinv. cbn in *. rewrite elem_of_difference, elem_of_singleton, Hinv.
      case_decide; naive_solver.
    - rewrite Hinv. case_decide; [subst|done]. split; congruence. }
  case_decide as Hemp; wp_steps; (split; [|done]); split; cbn.
  - intros t' block'. rewrite <- Hinv'. rewrite delete_insert_eq, lookup_delete, lookup_insert.
    case_decide; [|done]. subst. cbn. by rewrite Hemp.
  - intros block' txs'. rewrite delete_insert_eq. intros [_ Hl]%lookup_delete_Some. by eapply Hne.
  - done.
  - intros block' txs' [[_ <-]|[_ Hl]]%lookup_insert_Some; [done|by eapply Hne].
Qed.

Lemma wp_expire_remove {E} s (ids : list TransactionId) :
  einv s →
  wp_ok (remove ids : M _ E _) s (λ s' _, einv s' ∧ by_tx s' = del_keys (list_to_set ids) (by_tx s)).
Proof.
  intros Hinv. unfold remove.
  apply (wp_for_each_ok (λ pre s', einv s' ∧ by_tx s' = del_keys (list_to_set pre) (by_tx s))).
  - split; [done|]. cbn. by rewrite del_keys_empty.
  - intros pre t rest s' _ [Hinv' HT]. eapply wp_mono; [by apply wp_expire_remove_one| |done]. cbn.
    intros s'' [] [Hinv'' HT']. split; [done|]. rewrite HT', HT, delete_del_keys. f_equal. set_solver.
  - done.
Qed.

Lemma elem_of_get_expiring s t block :
  einv s → t ∈ default ∅ (by_block s !! block) ↔ by_tx s !! t = Some block.
Proof. intros []. done. Qed.

End expirations.
