(* ===== verification/InflightState.v ===== *)
(** * The inflight state of the mempool

    Model of [mempool/inflight_state/]: the state of one account, and what is tracked
    of the accounts, the nullifiers and the output notes of inflight transactions.

    First the account, [account_state.rs]. *)

From S2P Require Import Prelude.
From S2P Require Import External.
From S2P Require Import Transaction.

Module AccountState.

Inductive AccountStatus : Type := Empty | NonEmpty.

Definition is_empty (st : AccountStatus) : bool :=
  match st with Empty => true | NonEmpty => false end.

Section defs.
Context `{!MidenObjects}.

Record InflightAccountState := mk_account_state {
  (** Oldest first. *)
  states : list (Digest * TransactionId);
  (** How many of [states], from the oldest on, are committed. *)
  committed : nat;
}.

Implicit Types (s : InflightAccountState).

Definition default_account : InflightAccountState := mk_account_state [] 0.

Definition over_states f s := mk_account_state (f (states s)) (committed s).

Definition over_committed f s := mk_account_state (states s) (f (committed s)).

Definition current_state s : option Digest := fst <$> last (states s).

Definition emptiness s : AccountStatus :=
  match states s with [] => Empty | _ => NonEmpty end.

Context {E : Type}.
Abbreviation AM := (M InflightAccountState E).

Definition uncommitted_count : AM nat :=
  s ← get; checked_sub_panic (length (states s)) (committed s).

Definition insert (state : Digest) (tx : TransactionId) : AM (option TransactionId) :=
  s ← get;
  let parent := snd <$> last (states s) in
  uncommitted ← uncommitted_count;
  (* Only return uncommitted parent ID. *)
  let parent := if decide (uncommitted = 0) then None else parent in
  _ ← modify (over_states (λ l, l ++ [(state, tx)]));
  mret parent.

Definition revert (n : nat) : AM AccountStatus :=
  uncommitted ← uncommitted_count;
  _ ← assert_ (bool_decide (n ≤ uncommitted))
        "Attempted to revert more transactions than are uncommitted";
  s ← get;
  keep ← checked_sub_panic (length (states s)) n;
  _ ← modify (over_states (take keep));
  gets emptiness.

Definition commit (n : nat) : AM unit :=
  uncommitted ← uncommitted_count;
  _ ← assert_ (bool_decide (n ≤ uncommitted))
        "Attempted to revert more transactions than are uncommitted";
  modify (over_committed (λ c, c + n)).

Definition prune_committed (n : nat) : AM AccountStatus :=
  s ← get;
  _ ← assert_ (bool_decide (n ≤ committed s))
        "Attempted to prune more transactions than are committed";
  c ← checked_sub_panic (committed s) n;
  _ ← modify (over_committed (λ _, c));
  s ← get;
  _ ← assert_ (bool_decide (n ≤ length (states s))) "range end index out of range";
  _ ← modify (over_states (drop n));
  gets emptiness.

End defs.

End AccountState.

(** ** The inflight state of the mempool

    Model of [mempool/inflight_state/mod.rs]: accounts, nullifiers and output
    notes of inflight and recently committed transactions. *)

Module InflightState.

Section defs.
Context `{!MidenObjects}.

Inductive OutputNoteState : Type :=
| Committed
| Inflight (tx : TransactionId).

(** [OutputNoteState::new], [commit] and [transaction]. *)
Definition note_new (tx : TransactionId) : OutputNoteState := Inflight tx.

Definition note_commit (s : OutputNoteState) : OutputNoteState := Committed.

Definition note_transaction (s : OutputNoteState) : option TransactionId :=
  match s with Inflight tx => Some tx | Committed => None end.

(** A summary of a transaction's impact on the state. *)
Record Delta := mk_delta {
  account : AccountId;
  nullifiers_d : gset Nullifier;
  output_notes_d : gset NoteId;
}.

Definition delta_new (tx : AuthenticatedTransaction) : Delta := {|
  account := account_id tx;
  nullifiers_d := list_to_set (nullifiers_of tx);
  output_notes_d := list_to_set (output_note_ids tx);
|}.

Record InflightState := mk_inflight_state {
  accounts : gmap AccountId AccountState.InflightAccountState;
  nullifiers : gset Nullifier;
  output_notes : gmap NoteId OutputNoteState;
  (** Excludes deltas in committed blocks. *)
  transaction_deltas : gmap TransactionId Delta;
  (** Oldest first. *)
  committed_blocks : list (gmap TransactionId Delta);
  num_retained_blocks : nat;
  chain_tip : BlockNumber;
  expiration_slack : N;
}.

Implicit Types (s : InflightState) (tx : AuthenticatedTransaction).

Definition over_accounts f s := mk_inflight_state (f (accounts s)) (nullifiers s) (output_notes s)
  (transaction_deltas s) (committed_blocks s) (num_retained_blocks s) (chain_tip s) (expiration_slack s).

Definition over_nullifiers f s := mk_inflight_state (accounts s) (f (nullifiers s)) (output_notes s)
  (transaction_deltas s) (committed_blocks s) (num_retained_blocks s) (chain_tip s) (expiration_slack s).

Definition over_output_notes f s := mk_inflight_state (accounts s) (nullifiers s) (f (output_notes s))
  (transaction_deltas s) (committed_blocks s) (num_retained_blocks s) (chain_tip s) (expiration_slack s).

Definition over_deltas f s := mk_inflight_state (accounts s) (nullifiers s) (output_notes s)
  (f (transaction_deltas s)) (committed_blocks s) (num_retained_blocks s) (chain_tip s) (expiration_slack s).

Definition over_committed_blocks f s := mk_inflight_state (accounts s) (nullifiers s) (output_notes s)
  (transaction_deltas s) (f (committed_blocks s)) (num_retained_blocks s) (chain_tip s) (expiration_slack s).

Definition over_chain_tip f s := mk_inflight_state (accounts s) (nullifiers s) (output_notes s)
  (transaction_deltas s) (committed_blocks s) (num_retained_blocks s) (f (chain_tip s)) (expiration_slack s).

Definition new (tip : BlockNumber) (retained : nat) (slack : N) : InflightState := {|
  num_retained_blocks := retained;
  chain_tip := tip;
  expiration_slack := slack;
  accounts := ∅;
  nullifiers := ∅;
  output_notes := ∅;
  transaction_deltas := ∅;
  committed_blocks := [];
|}.

Definition num_accounts s : nat := size (accounts s).

Definition num_nullifiers s : nat := size (nullifiers s).

Definition num_notes_created s : nat := size (output_notes s).

Abbreviation SM E := (M InflightState E).

Definition oldest_committed_state {E} : SM E BlockNumber :=
  s ← get;
  let committed_len := N.of_nat (length (committed_blocks s)) in
  _ ← assert_ (committed_len <? 2 ^ 32)%N "We should not be storing many blocks";
  expect_some (bn_checked_sub (chain_tip s) committed_len)
    "Chain height cannot be less than number of committed blocks".

Definition verify_transaction tx : SM AddTransactionError unit :=
  s ← get;
  (* Check that the transaction hasn't already expired. *)
  if (expires_at tx <=? bn_add (chain_tip s) (expiration_slack s))%N then
    throw (Expired (expires_at tx) (bn_add (chain_tip s) (expiration_slack s)))
  else
  (* The authentication point must be within the retained blocks. *)
  stale_limit ← oldest_committed_state;
  if (authentication_height tx <? stale_limit)%N then
    throw (StaleInputs (authentication_height tx) stale_limit)
  else
  (* Ensure current account state is correct. *)
  let current :=
    match accounts s !! account_id tx ≫= AccountState.current_state with
    | Some state => Some state
    | None => store_account_state tx
    end in
  let expected := initial_state_commitment tx in
  if decide (expected ≠ default digest_default current) then
    throw (VerificationFailed (IncorrectAccountInitialCommitment expected current))
  else
  (* Ensure nullifiers aren't already present. *)
  let double_spend := filter (λ n, n ∈ nullifiers s) (nullifiers_of tx) in
  if decide (double_spend ≠ []) then
    throw (VerificationFailed (InputNotesAlreadyConsumed double_spend))
  else
  (* Ensure output notes aren't already present. *)
  let duplicates := filter (λ note, is_Some (output_notes s !! note)) (output_note_ids tx) in
  if decide (duplicates ≠ []) then
    throw (VerificationFailed (OutputNotesAlreadyExist duplicates))
  else
  (* Ensure that all unauthenticated notes have an inflight output note to consume. *)
  let missing := filter (λ note_id, output_notes s !! note_id = None) (unauthenticated_notes tx) in
  if decide (missing ≠ []) then
    throw (VerificationFailed (UnauthenticatedNotesNotFound missing))
  else mret tt.

(** [self.accounts.entry(id).or_default()] as a place to call methods on. *)
Definition account_entry {E A} (id : AccountId) (m : M AccountState.InflightAccountState E A) : SM E A :=
  zoom (λ s, default AccountState.default_account (accounts s !! id))
       (λ a, over_accounts (λ m, <[id := a]> m)) m.

(** [self.accounts.get_mut(id).unwrap()]. *)
Definition account_unwrap {E A} (id : AccountId) (m : M AccountState.InflightAccountState E A) : SM E A :=
  s ← get;
  _ ← expect_some (accounts s !! id) "called `Option::unwrap()` on a `None` value";
  account_entry id m.

Definition insert_transaction {E} tx : SM E (gset TransactionId) :=
  _ ← modify (over_deltas (λ m, <[tx_id tx := delta_new tx]> m));
  account_parent ← account_entry (account_id tx)
    (AccountState.insert (final_state_commitment tx) (tx_id tx));
  _ ← modify (over_nullifiers (λ ns, list_to_set (nullifiers_of tx) ∪ ns));
  _ ← modify (over_output_notes (λ m,
        foldl (λ m note_id, <[note_id := note_new (tx_id tx)]> m) m (output_note_ids tx)));
  s ← get;
  (* Only parents which have not been committed yet. *)
  let note_parents :=
    omap (λ note_id, output_notes s !! note_id ≫= note_transaction) (unauthenticated_notes tx) in
  mret (list_to_set (option_list account_parent ++ note_parents)).

Definition add_transaction tx : SM AddTransactionError (gset TransactionId) :=
  _ ← verify_transaction tx;
  insert_transaction tx.

(** The body of the loop of [revert_transactions]. *)
Definition revert_one {E} (tx : TransactionId) : SM E unit :=
  s ← get;
  delta ← expect_some (transaction_deltas s !! tx) "Transaction delta must exist";
  _ ← modify (over_deltas (λ m, delete tx m));
  account_status ← account_unwrap (account delta) (AccountState.revert 1);
  (* Prune empty accounts. *)
  _ ← (if AccountState.is_empty account_status
       then modify (over_accounts (λ m, delete (account delta) m)) else mret tt);
  _ ← for_each (bt_iter (nullifiers_d delta)) (λ nullifier,
        s ← get;
        _ ← assert_ (bool_decide (nullifier ∈ nullifiers s)) "Nullifier must exist";
        modify (over_nullifiers (λ ns, ns ∖ {[nullifier]})));
  for_each (bt_iter (output_notes_d delta)) (λ note,
    s ← get;
    _ ← assert_ (bool_decide (is_Some (output_notes s !! note))) "Output note must exist";
    modify (over_output_notes (λ m, delete note m))).

Definition revert_transactions {E} (txs : gset TransactionId) : SM E unit :=
  for_each (bt_iter txs) revert_one.

(** The body of the first loop of [commit_block]. *)
Definition commit_one {E} (block_deltas : gmap TransactionId Delta) (tx : TransactionId)
  : SM E (gmap TransactionId Delta) :=
  s ← get;
  delta ← expect_some (transaction_deltas s !! tx) "Transaction delta must exist";
  _ ← modify (over_deltas (λ m, delete tx m));
  _ ← account_unwrap (account delta) (AccountState.commit 1);
  _ ← for_each (bt_iter (output_notes_d delta)) (λ note,
        s ← get;
        note_state ← expect_some (output_notes s !! note) "Output note must exist";
        modify (over_output_notes (λ m, <[note := note_commit note_state]> m)));
  mret (<[tx := delta]> block_deltas).

(** The body of the loop of [prune_block]. *)
Definition prune_delta {E} (delta : Delta) : SM E unit :=
  status ← account_unwrap (account delta) (AccountState.prune_committed 1);
  (* Prune empty accounts. *)
  _ ← (if AccountState.is_empty status
       then modify (over_accounts (λ m, delete (account delta) m)) else mret tt);
  _ ← for_each (bt_iter (nullifiers_d delta)) (λ nullifier,
        modify (over_nullifiers (λ ns, ns ∖ {[nullifier]})));
  for_each (bt_iter (output_notes_d delta)) (λ output_note,
    modify (over_output_notes (λ m, delete output_note m))).

Definition prune_block {E} : SM E unit :=
  s ← get;
  (* Keep the required number of committed blocks. *)
  if decide (length (committed_blocks s) ≤ num_retained_blocks s) then mret tt else
  block ← expect_some (head (committed_blocks s)) "called `Option::unwrap()` on a `None` value";
  _ ← modify (over_committed_blocks tail);
  for_each (bm_values block) prune_delta.

Definition commit_block {E} (txs : list TransactionId) : SM E unit :=
  block_deltas ← fold_m commit_one ∅ txs;
  _ ← modify (over_committed_blocks (λ l, l ++ [block_deltas]));
  _ ← prune_block;
  modify (over_chain_tip bn_child).

End defs.

End InflightState.
