(* ===== verification/Subscription.v ===== *)
(** * The mempool's event subscription

    Model of [mempool/subscription.rs], with the [MempoolEvent] type of
    [crates/proto/src/domain/mempool.rs]. The tokio channel is an interface. *)

From S2P Require Import Prelude.
From S2P Require Import External.
From S2P Require Import Transaction.

Section events.
Context `{!MidenObjects}.

(** [crates/proto/src/domain/note.rs]: a note addressed to a network account. *)
Record NetworkNote := mk_network_note { network_note_inner : Note }.

Definition network_note_try_from (note : Note) : option NetworkNote :=
  if note_is_network note then Some (mk_network_note note) else None.

Inductive MempoolEvent : Type :=
| TransactionAdded (id : TransactionId) (nullifiers : list Nullifier)
    (network_notes : list NetworkNote) (account_delta : option AccountUpdateDetails)
| BlockCommitted (header : BlockHeader) (txs : list TransactionId)
| TransactionsReverted (txs : gset TransactionId).

End events.

(** [tokio::sync::mpsc]: a sender and its receiver. [try_send] answers [None] when
    the channel is full or closed. *)
Class Channel `{!MidenObjects} := {
  Sender : Type;
  Receiver : Type;
  mpsc_channel : nat → Sender * Receiver;
  try_send : Sender → MempoolEvent → option Sender;
}.

(** What the channel promises: a sender has sent the events it accepted, in order,
    and accepts one more as long as there is room. *)
Class ChannelLaws `{!MidenObjects} `{!Channel} := {
  sent : Sender → list MempoolEvent;
  capacity : Sender → nat;
  sent_channel n : sent (mpsc_channel n).1 = [];
  capacity_channel n : capacity (mpsc_channel n).1 = n;
  sent_try_send s ev s' : try_send s ev = Some s' →
    sent s' = sent s ++ [ev] ∧ capacity s' = capacity s;
  try_send_room s ev : length (sent s) < capacity s → is_Some (try_send s ev);
}.

Module Subscription.

Section defs.
Context `{!MidenObjects} `{!Channel}.

Record InflightTransactions := mk_inflight_transactions {
  (** Events by insertion index, a [u64]. *)
  txs : gmap N MempoolEvent;
  index : gmap TransactionId N;
}.

Definition over_txs f (t : InflightTransactions) := mk_inflight_transactions (f (txs t)) (index t).

Definition over_index f (t : InflightTransactions) := mk_inflight_transactions (txs t) (f (index t)).

Definition default_inflight : InflightTransactions := mk_inflight_transactions ∅ ∅.

(** [BTreeMap::last_key_value], the key only. *)
Definition last_key (m : gmap N MempoolEvent) : option N := last (bm_keys (Key0 := N_key) m).

Definition inflight_insert {E} (tx : MempoolEvent) : M InflightTransactions E unit :=
  match tx with
  | TransactionAdded id _ _ _ =>
    s ← get;
    let idx := match last_key (txs s) with Some k => (k + 1)%N | None => 0%N end in
    _ ← modify (over_index (λ m, <[id := idx]> m));
    _ ← assert_ (bool_decide (index s !! id = None)) "transaction event already exists in tracker";
    modify (over_txs (λ m, <[idx := tx]> m))
  | _ => panic "Cannot submit a non-tx event to inflight transaction event tracker"
  end.

Definition inflight_remove {E} (tx : TransactionId) : M InflightTransactions E unit :=
  s ← get;
  idx ← expect_some (index s !! tx) "transaction to remove should be tracked";
  _ ← modify (over_index (λ m, delete tx m));
  modify (over_txs (λ m, delete idx m)).

(** All events in the order they were added. *)
Definition inflight_iter (t : InflightTransactions) : list MempoolEvent := bm_values (Key0 := N_key) (txs t).

Definition inflight_len (t : InflightTransactions) : nat := size (txs t).

Record SubscriptionProvider := mk_provider {
  subscription : option Sender;
  chain_tip : BlockNumber;
  inflight_txs : InflightTransactions;
}.

Implicit Types (p : SubscriptionProvider).

Definition over_subscription f p := mk_provider (f (subscription p)) (chain_tip p) (inflight_txs p).

Definition over_chain_tip f p := mk_provider (subscription p) (f (chain_tip p)) (inflight_txs p).

Definition over_inflight f p := mk_provider (subscription p) (chain_tip p) (f (inflight_txs p)).

Definition new (tip : BlockNumber) : SubscriptionProvider := mk_provider None tip default_inflight.

(** Sends an event to the subscriber, if any; a failure ends the subscription. *)
Definition send_event (sub : option Sender) (event : MempoolEvent) : option Sender :=
  match sub with
  | None => None
  | Some sender => try_send sender event
  end.

Definition subscribe (tip : BlockNumber) : M SubscriptionProvider BlockNumber Receiver :=
  p ← get;
  if decide (chain_tip p ≠ tip) then throw (chain_tip p) else
  (* Enough space for the uncommitted events (plus some extra). *)
  let capacity := (inflight_len (inflight_txs p) * 2) `max` 1024 in
  let '(tx, rx) := mpsc_channel capacity in
  _ ← modify (over_subscription (λ _, Some tx));
  _ ← for_each (inflight_iter (inflight_txs p)) (λ ev,
        modify (over_subscription (λ sub, send_event sub ev)));
  mret rx.

(** The event built by [transaction_added]. *)
Definition added_event (tx : AuthenticatedTransaction) : MempoolEvent :=
  let network_notes :=
    omap (λ note, output_note_full note ≫= network_note_try_from) (output_notes_of tx) in
  let account_delta :=
    if account_is_network (account_id tx)
    then Some (ptx_account_details (inner tx)) else None in
  TransactionAdded (tx_id tx) (nullifiers_of tx) network_notes account_delta.

Definition transaction_added {E} (tx : AuthenticatedTransaction) : M SubscriptionProvider E unit :=
  let event := added_event tx in
  _ ← zoom inflight_txs (λ t, over_inflight (λ _, t)) (inflight_insert event);
  modify (over_subscription (λ sub, send_event sub event)).

Definition block_committed {E} (header : BlockHeader) (ids : list TransactionId)
  : M SubscriptionProvider E unit :=
  _ ← modify (over_chain_tip (λ _, header_block_num header));
  _ ← for_each ids (λ tx, zoom inflight_txs (λ t, over_inflight (λ _, t)) (inflight_remove tx));
  modify (over_subscription (λ sub, send_event sub (BlockCommitted header ids))).

Definition txs_reverted {E} (ids : gset TransactionId) : M SubscriptionProvider E unit :=
  _ ← for_each (bt_iter ids) (λ tx, zoom inflight_txs (λ t, over_inflight (λ _, t)) (inflight_remove tx));
  modify (over_subscription (λ sub, send_event sub (TransactionsReverted ids))).

End defs.

End Subscription.
