(* ===== verification/TransactionGraph.v ===== *)
(** * The transaction graph

    Model of [mempool/transaction_graph.rs]: the dependency graph of inflight
    transactions. The type is a newtype around [DependencyGraph]. *)

From S2P Require Import Prelude.
From S2P Require Import Graph.
From S2P Require Import External.
From S2P Require Import Transaction.

Module TransactionGraph.

(** The newtype: its only field [inner] is the dependency graph. *)
Definition TransactionGraph `{!MidenObjects} : Type :=
  Graph.DependencyGraph TransactionId AuthenticatedTransaction.

Section defs.
Context `{!MidenObjects}.

Local Abbreviation TGM := (M TransactionGraph (Graph.GraphError TransactionId)).

Definition insert (transaction : AuthenticatedTransaction) (parents : gset TransactionId) : TGM unit :=
  _ ← Graph.insert_pending (tx_id transaction) parents;
  Graph.promote_pending (tx_id transaction) transaction.

(** [while let Some(root) = self.inner.roots().first()]. *)
Fixpoint select_batch_loop (fuel : nat) (budget : BatchBudget.BatchBudget)
    (batch : list AuthenticatedTransaction) (parents : gset TransactionId)
  : TGM (list AuthenticatedTransaction * gset TransactionId) :=
  match fuel with
  | 0 => out_of_fuel
  | S fuel =>
    g ← get;
    match bt_first (Graph.roots g) with
    | None => mret (batch, parents)
    | Some root =>
      tx ← expect_some (Graph.get_value root g) "called `Option::unwrap()` on a `None` value";
      (* Adhere to batch budget. *)
      match BatchBudget.check_then_subtract budget tx with
      | (Exceeded, _) => mret (batch, parents)
      | (WithinScope, budget) =>
        _ ← expect_ok (Graph.process_root root) "called `Result::unwrap()` on an `Err` value";
        g ← get;
        tx_parents ← expect_some (Graph.parents_of root g)
          "called `Option::unwrap()` on a `None` value";
        select_batch_loop fuel budget (batch ++ [tx]) (parents ∪ tx_parents)
      end
    end
  end.

Definition select_batch (budget : BatchBudget.BatchBudget)
  : TGM (list AuthenticatedTransaction * gset TransactionId) :=
  g ← get;
  select_batch_loop (S (Graph.len g)) budget [] ∅.

Definition requeue_transactions (transactions : gset TransactionId) : TGM unit :=
  Graph.revert_subgraphs transactions.

Definition commit_transactions (tx_ids : list TransactionId) : TGM unit :=
  _ ← Graph.prune_processed (list_to_set tx_ids);
  mret tt.

Definition remove_transactions (transactions : list TransactionId) : TGM (gset TransactionId) :=
  Graph.purge_subgraphs (list_to_set transactions).

Definition len (g : TransactionGraph) : nat := Graph.len g.

Definition num_roots (g : TransactionGraph) : nat := Graph.num_roots g.

End defs.

End TransactionGraph.
