(* ===== verification/TransactionGraphProofs.v ===== *)
(** * Selecting roots, and the transaction graph

    [select_batch] and [select_block] both process the first root of their graph
    until none is left or a budget is exceeded. [selects] is the relation between
    the graph before and after, and this file holds what the two loops share. *)

From S2P Require Import Prelude.
From S2P Require Import Graph.
From S2P Require Import GraphProofs.
From S2P Require Import GraphRemoval.
From S2P Require Import External.
From S2P Require Import Transaction.
From S2P Require Import TransactionGraph.

Import Graph GraphSpec.

Section select.
Context {K V : Type} `{!Key K}.
Implicit Types (g : DependencyGraph K V) (a : agraph K V) (k p c x : K) (ks : list K).

(** [ks] are processed one after the other, each one ready when its turn comes. *)
Inductive selects a : list K → agraph K V → Prop :=
| selects_nil : selects a [] a
| selects_snoc ks a1 k : selects a ks a1 → ready a1 k → selects a (ks ++ [k]) (a_process k a1).

Lemma selects_processed a ks a' x :
  selects a ks a' → is_processed a' x ↔ is_processed a x ∨ x ∈ ks.
Proof.
  induction 1 as [|ks a1 k _ IH Hk]; [set_solver|].
  rewrite is_processed_process, IH by done. set_solver.
Qed.

Lemma selects_lookup a ks a' x :
  selects a ks a' → a' !! x = if decide (x ∈ ks) then mark_processed <$> a !! x else a !! x.
Proof.
  induction 1 as [|ks a1 k _ IH Hk]; [by rewrite decide_False by set_solver|].
  rewrite a_process_lookup, IH. destruct (a !! x) as [[[] ps]|]; cbn;
    repeat case_decide; try done; set_solver.
Qed.

Lemma selects_edge a ks a' p c : selects a ks a' → edge a' p c ↔ edge a p c.
Proof.
  intros Hs. unfold edge. rewrite (selects_lookup _ _ _ _ Hs). case_decide; [|done].
  destruct (a !! c) as [[[] ps]|]; cbn; naive_solver.
Qed.

Lemma selects_awf a ks a' : selects a ks a' → awf a → awf a'.
Proof. induction 1; [done|]. intros. apply awf_process; auto. Qed.

Lemma selects_is_Some a ks a' x : selects a ks a' → is_Some (a' !! x) ↔ is_Some (a !! x).
Proof. intros Hs. rewrite (selects_lookup _ _ _ _ Hs). case_decide; [|done]. apply fmap_is_Some. Qed.

Lemma selects_pending a ks a' x : selects a ks a' → is_pending a' x ↔ is_pending a x.
Proof.
  intros Hs. unfold is_pending. rewrite (selects_lookup _ _ _ _ Hs). case_decide; [|done].
  destruct (a !! x) as [[[] ps]|]; cbn; naive_solver.
Qed.

Lemma selects_value a ks a' x : selects a ks a' → a' !! x ≫= node_value = a !! x ≫= node_value.
Proof.
  intros Hs. rewrite (selects_lookup _ _ _ _ Hs). case_decide; [|done].
  by destruct (a !! x) as [[[] ps]|].
Qed.

(** Every selected node was queued, and none is selected twice. *)
Lemma selects_queued a ks a' x :
  selects a ks a' → x ∈ ks → ∃ v ps, a !! x = Some (mk_node (Queued v) ps).
Proof.
  induction 1 as [|ks a1 k Hs IH Hk]; [set_solver|].
  intros [Hx| ->%list_elem_of_singleton]%elem_of_app; [auto|].
  destruct Hk as (v & ps & Hk & _). rewrite (selects_lookup _ _ _ _ Hs) in Hk.
  case_decide; [|eauto]. destruct (a !! k) as [[[] ps']|]; naive_solver.
Qed.

Lemma selects_NoDup a ks a' : selects a ks a' → NoDup ks.
Proof.
  induction 1 as [|ks a1 k Hs IH Hk]; [constructor|].
  apply NoDup_app. split; [done|]. split; [|apply NoDup_singleton].
  intros x Hx ->%list_elem_of_singleton.
  destruct Hk as (v & ps & Hk & _). rewrite (selects_lookup _ _ _ _ Hs), decide_True in Hk by done.
  destruct (a !! k) as [[[] ps']|]; done.
Qed.

(** The order is topological: a parent comes earlier or was processed before. *)
Lemma selects_topological a ks a' pre k post p :
  selects a ks a' → ks = pre ++ k :: post → edge a p k → is_processed a p ∨ p ∈ pre.
Proof.
  intros Hs. revert post. induction Hs as [|ks a1 k' Hs IH Hk]; intros post Heq He.
  { destruct pre; done. }
  destruct post as [|y post _] using rev_ind.
  - apply app_inj_2 in Heq as [-> [= ->]]; [|done].
    destruct Hk as (v & ps & Hk & Hps). apply (selects_edge _ _ _ _ _ Hs) in He as (n & Hn & Hp).
    rewrite Hk in Hn. injection Hn as <-. apply (selects_processed _ _ _ _ Hs), Hps, Hp.
  - rewrite app_comm_cons, app_assoc in Heq. apply app_inj_2 in Heq as [-> _]; [|done].
    by apply (IH post).
Qed.

Lemma selects_length g a0 a ks :
  rep g a0 → selects a0 ks a → length ks ≤ len g.
Proof.
  intros [_ Hr _] Hs. unfold len.
  rewrite <- (size_dom (D := gset K) (vertices g)).
  rewrite <- (size_list_to_set (C := gset K) ks) by by eapply selects_NoDup.
  apply subseteq_size. intros x Hx%elem_of_list_to_set.
  rewrite elem_of_dom, (rep_vertices _ _ Hr).
  destruct (selects_queued _ _ _ _ Hs Hx) as (v & ps & ->). by eexists.
Qed.

(** The first root can be processed, and its value and parents are there. *)
Lemma first_root g a k :
  rep g a → bt_first (roots g) = Some k →
  ready a k ∧ ∃ v ps, a !! k = Some (mk_node (Queued v) ps) ∧ vertices g !! k = Some v.
Proof.
  intros [_ Hr Hroots] Hk%bt_first_Some. apply Hroots in Hk. split; [done|].
  destruct Hk as (v & ps & Hk & _). exists v, ps. split; [done|]. by rewrite (rep_vertices _ _ Hr), Hk.
Qed.

Lemma wp_process_first g a k :
  rep g a → ready a k → wp_ok (process_root k) g (λ g' _, rep g' (a_process k a)).
Proof.
  intros Hrep Hk. eapply wp_mono; [by apply wp_process_root| |].
  - by intros g' [] [Hrep' _].
  - cbn. intros g' e (_ & _ & Hno). by apply Hno.
Qed.

End select.

(** ** Correctness of the transaction graph

    Each method of [TransactionGraph] on the abstract graph of [Graph.v]. The
    graph keeps no pending node: [insert] promotes at once. *)

Import GraphSpec.

Section txgraph.
Context `{!MidenObjects}.
Implicit Types (g : TransactionGraph.TransactionGraph) (k p c : TransactionId).
Implicit Types (a : agraph TransactionId AuthenticatedTransaction) (tx : AuthenticatedTransaction).

Record tinv g a : Prop := {
  t_rep : rep g a;
  t_promoted : ∀ k, ¬ is_pending a k;
  t_key : ∀ k n tx, a !! k = Some n → node_value n = Some tx → tx_id tx = k;
}.

(** Every node carries its transaction. *)
Lemma tinv_value g a k n : tinv g a → a !! k = Some n →
  ∃ tx, node_value n = Some tx ∧ tx_id tx = k ∧ Graph.vertices g !! k = Some tx.
Proof.
  intros [Hrep Hnp Hkey] Hn. destruct n as [[|tx|tx] ps].
  - destruct (Hnp k). by exists ps.
  - exists tx. split_and!; [done|by eapply Hkey|]. by rewrite (rep_vertices _ _ (rep_is_core _ _ Hrep)), Hn.
  - exists tx. split_and!; [done|by eapply Hkey|]. by rewrite (rep_vertices _ _ (rep_is_core _ _ Hrep)), Hn.
Qed.

(** ** [insert] *)

Definition t_insert tx (ps : gset TransactionId) a := <[tx_id tx := mk_node (Queued tx) ps]> a.

Lemma wp_tx_insert g a tx (ps : gset TransactionId) :
  tinv g a → a !! tx_id tx = None → (∀ p, p ∈ ps → is_Some (a !! p)) →
  wp_ok (TransactionGraph.insert tx ps) g (λ g' _, tinv g' (t_insert tx ps a)).
Proof.
  intros [Hrep Hnp Hkey] Hfresh Hps. unfold TransactionGraph.insert. wp_steps.
  eapply wp_mono; [by apply wp_insert_pending| |].
  2: { intros g' e [_ Herr]. destruct Herr as [(_ & [? ?])|(_ & ms & _ & Hms & Hin)]; [congruence|].
       apply set_choose_L in Hms as [p Hp]. apply Hin in Hp as [Hp Hno].
       apply Hps in Hp as [? ?]. congruence. }
  cbn. intros g' [] [Hrep' _]. assert (is_pending (a_insert (tx_id tx) ps a) (tx_id tx)) as Hpe.
  { exists ps. unfold a_insert. by rewrite lookup_insert_eq. }
  eapply wp_mono; [by apply wp_promote_pending| |naive_solver]. cbn. intros g'' [] [Hrep'' _].
  assert (a_promote (tx_id tx) tx (a_insert (tx_id tx) ps a) = t_insert tx ps a) as Heq.
  { unfold a_promote, a_insert, t_insert. by rewrite alter_insert_eq. }
  rewrite Heq in Hrep''. split; [done| |]; unfold t_insert.
  - intros k [qs [[? ?]|[_ Hk]]%lookup_insert_Some]; [naive_solver|]. apply (Hnp k). by exists qs.
  - intros k n tx' [[<- <-]|[_ Hk]]%lookup_insert_Some Hv; [cbn in Hv; congruence|by eapply Hkey].
Qed.

(** ** [select_batch] *)

Definition sum_of (f : AuthenticatedTransaction → N) (batch : list AuthenticatedTransaction) : N :=
  foldr (λ tx n, (f tx + n)%N) 0%N batch.

Lemma sum_of_snoc f batch tx : sum_of f (batch ++ [tx]) = (sum_of f batch + f tx)%N.
Proof. induction batch as [|x batch IH]; cbn; [lia|]. fold (sum_of f (batch ++ [tx])). unfold sum_of in *. lia. Qed.

(** [rest] is what is left of [budget] once [batch] is paid for. *)
Record spent (budget : BatchBudget.BatchBudget) (batch : list AuthenticatedTransaction)
    (rest : BatchBudget.BatchBudget) : Prop := {
  sp_transactions : BatchBudget.transactions budget =
    (BatchBudget.transactions rest + N.of_nat (length batch))%N;
  sp_accounts : BatchBudget.accounts budget =
    (BatchBudget.accounts rest + N.of_nat (length batch))%N;
  sp_inputs : BatchBudget.input_notes budget =
    (BatchBudget.input_notes rest + sum_of input_note_count batch)%N;
  sp_outputs : BatchBudget.output_notes budget =
    (BatchBudget.output_notes rest + sum_of output_note_count batch)%N;
}.

Lemma spent_snoc budget batch rest tx rest' :
  spent budget batch rest → BatchBudget.check_then_subtract rest tx = (WithinScope, rest') →
  spent budget (batch ++ [tx]) rest'.
Proof.
  intros [H1 H2 H3 H4] (E1 & E2 & E3 & E4)%BatchBudget.check_then_subtract_exact.
  split; rewrite ?sum_of_snoc, ?length_app; cbn; lia.
Qed.

(** What is known of a batch under construction. *)
Record selection g0 a0 (budget : BatchBudget.BatchBudget) g (batch : list AuthenticatedTransaction)
    (parents : gset TransactionId) (rest : BatchBudget.BatchBudget) : Prop := {
  sel_graph : ∃ a, selects a0 (tx_id <$> batch) a ∧ tinv g a;
  sel_value : ∀ tx, tx ∈ batch → ∃ ps, a0 !! tx_id tx = Some (mk_node (Queued tx) ps);
  sel_parents : ∀ p, p ∈ parents ↔ ∃ tx, tx ∈ batch ∧ edge a0 p (tx_id tx);
  sel_budget : spent budget batch rest;
}.

(** The loop stopped because no root is left or the next one is too much. *)
Definition exhausted g (rest : BatchBudget.BatchBudget) : Prop :=
  match bt_first (Graph.roots g) with
  | None => True
  | Some k => ∃ tx, Graph.vertices g !! k = Some tx ∧ (BatchBudget.check_then_subtract rest tx).1 = Exceeded
  end.

Lemma tinv_selects g g' a ks a' : tinv g a → rep g' a' → selects a ks a' → tinv g' a'.
Proof.
  intros [_ Hnp Hkey] Hrep Hs. split; [done| |].
  - intros k Hk. by apply (Hnp k), (selects_pending _ _ _ _ Hs).
  - intros k n tx Hk Hv. pose proof (selects_value _ _ _ k Hs) as Heq. rewrite Hk in Heq. cbn in Heq.
    rewrite Hv in Heq. destruct (a !! k) as [n'|] eqn:Hn; [|done]. cbn in Heq. by eapply Hkey.
Qed.

Lemma wp_select_batch_loop g0 a0 budget fuel : ∀ g batch parents rest,
  tinv g0 a0 → selection g0 a0 budget g batch parents rest →
  Graph.len g0 < length batch + fuel →
  wp_ok (TransactionGraph.select_batch_loop fuel rest batch parents) g (λ g' '(batch, parents),
    ∃ rest, selection g0 a0 budget g' batch parents rest ∧ exhausted g' rest).
Proof.
  induction fuel as [|fuel IH]; intros g batch parents rest Hinv Hsel Hfuel;
    pose proof Hsel as [(a & Hs & Ht) Hval Hpar Hbud].
  { pose proof (selects_length _ _ _ _ (t_rep _ _ Hinv) Hs) as Hlen. rewrite length_fmap in Hlen. lia. }
  cbn. wp_steps. destruct (bt_first (Graph.roots g)) as [root|] eqn:Hroot.
  2: { wp_steps. exists rest. split; [done|]. unfold exhausted. by rewrite Hroot. }
  destruct (first_root _ _ _ (t_rep _ _ Ht) Hroot) as (Hready & tx & ps & Hlk & Hv).
  pose proof (t_key _ _ Ht _ _ tx Hlk eq_refl) as Hid. subst root. wp_steps.
  apply (wp_expect_some _ tx); [done|].
  destruct (BatchBudget.check_then_subtract rest tx) as [[] rest'] eqn:Hcheck.
  2: { wp_steps. exists rest. split; [done|]. unfold exhausted. rewrite Hroot.
       exists tx. by rewrite Hcheck. }
  wp_steps. apply wp_expect_ok.
  eapply wp_mono; [apply wp_process_first; [exact (t_rep _ _ Ht)|done]| |done]. cbn.
  intros g' [] Hrep'. wp_steps. apply (wp_expect_some _ ps).
  { unfold Graph.parents_of. rewrite (rep_parents _ _ (rep_is_core _ _ Hrep')), a_process_lookup.
    rewrite decide_True, Hlk by done. done. }
  apply IH; [done| |rewrite length_app; cbn; lia].
  assert (selects a0 (tx_id <$> (batch ++ [tx])) (a_process (tx_id tx) a)) as Hs'.
  { rewrite fmap_app. by constructor. }
  assert (∃ qs, a0 !! tx_id tx = Some (mk_node (Queued tx) qs)) as [qs Hqs].
  { destruct (selects_queued _ _ _ (tx_id tx) Hs') as (v & qs & Hq).
    { rewrite fmap_app. apply elem_of_app. right. by left. }
    pose proof (selects_value _ _ _ (tx_id tx) Hs) as Heq. rewrite Hq, Hlk in Heq. cbn in Heq.
    exists qs. congruence. }
  split.
  - exists (a_process (tx_id tx) a). split; [done|]. by apply (tinv_selects g0 _ a0 _ _ Hinv Hrep' Hs').
  - intros tx' [Hin| ->%list_elem_of_singleton]%elem_of_app; [auto|eauto].
  - intros p. rewrite elem_of_union, Hpar. setoid_rewrite elem_of_app. setoid_rewrite list_elem_of_singleton.
    assert (p ∈ ps ↔ edge a0 p (tx_id tx)) as ->; [|naive_solver].
    rewrite <- (selects_edge _ _ _ _ _ Hs). unfold edge. rewrite Hlk. naive_solver.
  - by eapply spent_snoc.
Qed.

Lemma wp_select_batch g a budget :
  tinv g a →
  wp_ok (TransactionGraph.select_batch budget) g (λ g' '(batch, parents),
    ∃ rest, selection g a budget g' batch parents rest ∧ exhausted g' rest).
Proof.
  intros Hinv. unfold TransactionGraph.select_batch. wp_steps.
  apply wp_select_batch_loop; [done| |cbn; lia]. split.
  - exists a. split; [constructor|done].
  - set_solver.
  - set_solver.
  - split; cbn; lia.
Qed.

(** ** Removal, requeueing and commitment *)

Lemma tinv_remove g g' a R : tinv g a → rep g' (a_remove R a) → tinv g' (a_remove R a).
Proof.
  intros [_ Hnp Hkey] Hrep. split; [done| |].
  - intros k [Hk _]%is_pending_remove. by apply (Hnp k).
  - intros k n tx. rewrite a_remove_lookup. case_decide; [done|].
    intros ([st ps] & Hk & ->)%fmap_Some Hv. by eapply Hkey.
Qed.

Lemma tinv_requeue g g' a R : tinv g a → rep g' (a_requeue R a) → tinv g' (a_requeue R a).
Proof.
  intros [_ Hnp Hkey] Hrep. split; [done| |].
  - intros k Hk%is_pending_requeue. by apply (Hnp k).
  - intros k n tx. rewrite a_requeue_lookup.
    intros ([st ps] & Hk & ->)%fmap_Some Hv. eapply Hkey; [done|].
    case_decide; [|done]. by destruct st.
Qed.

Lemma wp_requeue_transactions g a (txs : gset TransactionId) :
  tinv g a → (∀ k, k ∈ txs → is_processed a k) →
  wp_ok (TransactionGraph.requeue_transactions txs) g (λ g' _,
    ∃ R, processed_closure a txs R ∧ tinv g' (a_requeue R a)).
Proof.
  intros Hinv Htxs. eapply wp_mono; [apply wp_revert_subgraphs; exact (t_rep _ _ Hinv)| |].
  - cbn. intros g' [] (R & HR & Hrep & _). exists R. split; [done|]. by eapply tinv_requeue.
  - cbn. intros g' e (_ & ks & Hne & Herr). apply set_choose_L in Hne as [k Hk].
    destruct Herr as [[_ Hks]|[_ Hks]]; apply Hks in Hk as [Hk Hno]; apply Htxs in Hk; [|done].
    destruct Hk as (v & ps & Hk). destruct Hno as [?|[qs ?]]; congruence.
Qed.

Lemma wp_commit_transactions g a (ids : list TransactionId) :
  tinv g a → (∀ k, k ∈ ids → is_processed a k) →
  (∀ p c, edge a p c → c ∈ ids → p ∈ ids) →
  wp_ok (TransactionGraph.commit_transactions ids) g (λ g' _, tinv g' (a_remove (list_to_set ids) a)).
Proof.
  intros Hinv Hids Hdang. unfold TransactionGraph.commit_transactions. wp_steps.
  eapply wp_mono; [apply wp_prune_processed; exact (t_rep _ _ Hinv)| |].
  - cbn. intros g' vs (Hrep & _). wp_steps. by eapply tinv_remove.
  - cbn. intros g' e (_ & ks & Hne & Herr). apply set_choose_L in Hne as [k Hk].
    destruct Herr as [[_ Hks]|[[_ Hks]|[_ Hks]]]; apply Hks in Hk; setoid_rewrite elem_of_list_to_set in Hk.
    + destruct Hk as [Hk Hno]. destruct (Hids _ Hk) as (v & ps & Hk'). congruence.
    + destruct Hk as [Hk Hno]. by apply Hno, Hids.
    + destruct Hk as [Hk (c & Hc & He)]. by apply Hk, (Hdang _ c).
Qed.

Lemma wp_remove_transactions g a (ids : list TransactionId) (Q : _ → gset TransactionId → Prop) X :
  tinv g a → (∀ k, k ∈ ids → is_Some (a !! k)) →
  (∀ g' R, closure a (list_to_set ids) R → tinv g' (a_remove R a) → Q g' R) →
  wp (TransactionGraph.remove_transactions ids) g Q X.
Proof.
  intros Hinv Hids HQ. eapply wp_mono; [apply wp_purge_subgraphs; exact (t_rep _ _ Hinv)| |].
  - cbn. intros g' R (HR & Hrep & _). apply HQ; [done|]. by eapply tinv_remove.
  - cbn. intros g' e (_ & ks & _ & Hne & Hks). apply set_choose_L in Hne as [k Hk].
    apply Hks in Hk as [Hk%elem_of_list_to_set Hno]. destruct (Hids _ Hk). congruence.
Qed.

End txgraph.
