(* ===== verification/BatchGraph.v ===== *)
(** * The batch graph

    Model of [mempool/batch_graph.rs]: the dependency graph of batches with the
    maps between batches and their transactions. *)

From S2P Require Import Prelude.
From S2P Require Import Graph.
From S2P Require Import External.
From S2P Require Import Transaction.

Module BatchGraph.

Section defs.
Context `{!MidenObjects}.

Record BatchGraph := mk_batch_graph {
  inner : Graph.DependencyGraph BatchId ProvenBatch;
  (** Maps each transaction to its batch. *)
  transactions : gmap TransactionId BatchId;
  (** Maps each batch to its transactions. *)
  batches : gmap BatchId (list TransactionId);
}.

Inductive BatchInsertError : Type :=
| DuplicateTransactions (txs : gset TransactionId)
| UnknownParentTransaction (tx : TransactionId)
| GraphErr (e : Graph.GraphError BatchId).

Implicit Types (b : BatchGraph).

Definition default_batch_graph : BatchGraph := mk_batch_graph Graph.default_graph ∅ ∅.

Definition over_inner f b := mk_batch_graph (f (inner b)) (transactions b) (batches b).

Definition over_transactions f b := mk_batch_graph (inner b) (f (transactions b)) (batches b).

Definition over_batches f b := mk_batch_graph (inner b) (transactions b) (f (batches b)).

(** A call on the field [inner]. *)
Definition on_inner {E A} (m : M (Graph.DependencyGraph BatchId ProvenBatch) E A) : M BatchGraph E A :=
  zoom inner (λ g, over_inner (λ _, g)) m.

Definition insert (txs : list (TransactionId * AccountId)) (parents : gset TransactionId)
  : M BatchGraph BatchInsertError BatchId :=
  b ← get;
  let duplicates : gset TransactionId :=
    list_to_set (filter (λ tx, is_Some (transactions b !! tx)) txs.*1) in
  if decide (duplicates ≠ ∅) then throw (DuplicateTransactions duplicates) else
  (* Allow for parent transactions within this batch. *)
  let parents := parents ∖ list_to_set txs.*1 in
  parent_batches ← fold_m (λ acc tx,
    match transactions b !! tx with
    | Some parent => mret ({[parent]} ∪ acc)
    | None => throw (UnknownParentTransaction tx)
    end) ∅ (bt_iter parents);
  let id := batch_id_from_ids txs in
  _ ← map_err GraphErr (on_inner (Graph.insert_pending id parent_batches));
  _ ← for_each txs.*1 (λ tx, modify (over_transactions (λ m, <[tx := id]> m)));
  _ ← modify (over_batches (λ m, <[id := txs.*1]> m));
  mret id.

Definition remove_batches (batch_ids : gset BatchId)
  : M BatchGraph (Graph.GraphError BatchId) (gmap BatchId (list TransactionId)) :=
  (* This returns all descendent batches as well. *)
  batch_ids ← on_inner (Graph.purge_subgraphs batch_ids);
  removed ← fold_m (λ acc batch_id,
    b ← get;
    txs ← expect_some (batches b !! batch_id) "batch should be removed";
    _ ← modify (over_batches (λ m, delete batch_id m));
    mret (<[batch_id := txs]> acc)) ∅ (bt_iter batch_ids);
  _ ← for_each (concat (bm_values removed)) (λ tx, modify (over_transactions (λ m, delete tx m)));
  mret removed.

Definition remove_batches_with_transactions {E} (txs : list TransactionId)
  : M BatchGraph E (gmap BatchId (list TransactionId)) :=
  b ← get;
  let batch_ids : gset BatchId := list_to_set (omap (λ tx, transactions b !! tx) txs) in
  expect_ok (remove_batches batch_ids)
    "batches must exist as they have been taken from internal map".

Definition prune_committed (batch_ids : gset BatchId)
  : M BatchGraph (Graph.GraphError BatchId) (list TransactionId) :=
  _ ← on_inner (Graph.prune_processed batch_ids);
  txs ← fold_m (λ acc batch_id,
    b ← get;
    _ ← modify (over_batches (λ m, delete batch_id m));
    mret (acc ++ default [] (batches b !! batch_id))) [] (bt_iter batch_ids);
  _ ← for_each txs (λ tx, modify (over_transactions (λ m, delete tx m)));
  mret txs.

Definition submit_proof (batch : ProvenBatch) : M BatchGraph (Graph.GraphError BatchId) unit :=
  on_inner (Graph.promote_pending (batch_id batch) batch).

(** [while let Some(batch_id) = self.inner.roots().first()]. *)
Fixpoint select_block_loop {E} (fuel : nat) (budget : BlockBudget.BlockBudget) (selected : list ProvenBatch)
  : M BatchGraph E (list ProvenBatch) :=
  match fuel with
  | 0 => out_of_fuel
  | S fuel =>
    b ← get;
    match bt_first (Graph.roots (inner b)) with
    | None => mret selected
    | Some batch_id =>
      batch ← expect_some (Graph.get_value batch_id (inner b)) "root should be in graph";
      (* Adhere to block's budget. *)
      match BlockBudget.check_then_subtract budget batch with
      | (Exceeded, _) => mret selected
      | (WithinScope, budget) =>
        _ ← expect_ok (on_inner (Graph.process_root batch_id)) "root should be processed";
        select_block_loop fuel budget (selected ++ [batch])
      end
    end
  end.

Definition select_block {E} (budget : BlockBudget.BlockBudget) : M BatchGraph E (list ProvenBatch) :=
  b ← get;
  select_block_loop (S (Graph.len (inner b))) budget [].

Definition contains (id : BatchId) b : bool := bool_decide (is_Some (batches b !! id)).

Definition get_transactions (id : BatchId) b : option (list TransactionId) := batches b !! id.

Definition num_pending b : nat := Graph.num_pending (inner b).

Definition num_proven b : nat := Graph.num_processed (inner b).

Definition len b : nat := Graph.len (inner b).

Definition num_roots b : nat := Graph.num_roots (inner b).

End defs.

End BatchGraph.
