(* ===== verification/Mempool.v ===== *)
(** * The mempool

    Model of [crates/block-producer/src/mempool/mod.rs]: the type [Mempool] and
    its methods, composed from the components as the code composes them. The
    telemetry calls ([inject_telemetry], spans, log lines) only read the state
    and are left out. *)

From S2P Require Import Prelude.
From S2P Require Import Graph.
From S2P Require Import External.
From S2P Require Import Transaction.
From S2P Require Import Expirations.
From S2P Require Import InflightState.
From S2P Require Import Subscription.
From S2P Require Import TransactionGraph.
From S2P Require Import BatchGraph.

Module Mempool.

Section defs.
Context `{!MidenObjects} `{!Channel}.

Record Mempool := mk_mempool {
  state : InflightState.InflightState;
  transactions : TransactionGraph.TransactionGraph;
  expirations : Expirations.TransactionExpirations;
  batches : BatchGraph.BatchGraph;
  chain_tip : BlockNumber;
  block_in_progress : option (gset BatchId);
  block_budget : BlockBudget.BlockBudget;
  batch_budget : BatchBudget.BatchBudget;
  subscription : Subscription.SubscriptionProvider;
}.

Implicit Types (m : Mempool).

Definition set_state x m := mk_mempool x (transactions m) (expirations m) (batches m)
  (chain_tip m) (block_in_progress m) (block_budget m) (batch_budget m) (subscription m).

Definition set_transactions x m := mk_mempool (state m) x (expirations m) (batches m)
  (chain_tip m) (block_in_progress m) (block_budget m) (batch_budget m) (subscription m).

Definition set_expirations x m := mk_mempool (state m) (transactions m) x (batches m)
  (chain_tip m) (block_in_progress m) (block_budget m) (batch_budget m) (subscription m).

Definition set_batches x m := mk_mempool (state m) (transactions m) (expirations m) x
  (chain_tip m) (block_in_progress m) (block_budget m) (batch_budget m) (subscription m).

Definition set_chain_tip x m := mk_mempool (state m) (transactions m) (expirations m) (batches m)
  x (block_in_progress m) (block_budget m) (batch_budget m) (subscription m).

Definition set_block_in_progress x m := mk_mempool (state m) (transactions m) (expirations m) (batches m)
  (chain_tip m) x (block_budget m) (batch_budget m) (subscription m).

Definition set_subscription x m := mk_mempool (state m) (transactions m) (expirations m) (batches m)
  (chain_tip m) (block_in_progress m) (block_budget m) (batch_budget m) x.

(** Calls on the fields of [self]. *)
Definition on_state {E A} (op : M InflightState.InflightState E A) : M Mempool E A :=
  zoom state set_state op.

Definition on_transactions {E A} (op : M TransactionGraph.TransactionGraph E A) : M Mempool E A :=
  zoom transactions set_transactions op.

Definition on_expirations {E A} (op : M Expirations.TransactionExpirations E A) : M Mempool E A :=
  zoom expirations set_expirations op.

Definition on_batches {E A} (op : M BatchGraph.BatchGraph E A) : M Mempool E A :=
  zoom batches set_batches op.

Definition on_subscription {E A} (op : M Subscription.SubscriptionProvider E A) : M Mempool E A :=
  zoom subscription set_subscription op.

Definition new (tip : BlockNumber) (batch_budget : BatchBudget.BatchBudget)
    (block_budget : BlockBudget.BlockBudget) (state_retention : nat) (expiration_slack : N) : Mempool := {|
  chain_tip := tip;
  batch_budget := batch_budget;
  block_budget := block_budget;
  state := InflightState.new tip state_retention expiration_slack;
  block_in_progress := None;
  transactions := Graph.default_graph;
  batches := BatchGraph.default_batch_graph;
  expirations := Expirations.default_expirations;
  subscription := Subscription.new tip;
|}.

(** Adds a transaction to the mempool; returns the current block height. *)
Definition add_transaction (transaction : AuthenticatedTransaction)
  : M Mempool AddTransactionError BlockNumber :=
  parents ← on_state (InflightState.add_transaction transaction);
  _ ← on_subscription (Subscription.transaction_added transaction);
  _ ← on_expirations (Expirations.insert (tx_id transaction) (expires_at transaction));
  _ ← expect_ok (on_transactions (TransactionGraph.insert transaction parents))
        "Transaction should insert after passing inflight state";
  gets chain_tip.

Definition select_batch {E} : M Mempool E (option (BatchId * list AuthenticatedTransaction)) :=
  m ← get;
  '(batch, parents) ← expect_ok (on_transactions (TransactionGraph.select_batch (batch_budget m)))
        "select_batch has no error";
  if decide (length batch = 0) then mret None else
  let tx_ids := (λ tx, (tx_id tx, account_id tx)) <$> batch in
  batch_id ← expect_ok (on_batches (BatchGraph.insert tx_ids parents)) "Selected batch should insert";
  mret (Some (batch_id, batch)).

(** Drops the failed batch and all of its descendants; transactions are requeued. *)
Definition rollback_batch {E} (batch : BatchId) : M Mempool E unit :=
  m ← get;
  if BatchGraph.contains batch (batches m) then
    removed_batches ← expect_ok (on_batches (BatchGraph.remove_batches {[batch]})) "Batch was not present";
    let txs : gset TransactionId := list_to_set (concat (bm_values removed_batches)) in
    expect_ok (on_transactions (TransactionGraph.requeue_transactions txs)) "Transaction should requeue"
  else mret tt.

(** Marks a batch as proven if it exists. *)
Definition commit_batch {E} (batch : ProvenBatch) : M Mempool E unit :=
  m ← get;
  if BatchGraph.contains (batch_id batch) (batches m) then
    expect_ok (on_batches (BatchGraph.submit_proof batch)) "Batch proof should submit"
  else mret tt.

Definition select_block {E} : M Mempool E (BlockNumber * list ProvenBatch) :=
  m ← get;
  _ ← assert_ (bool_decide (block_in_progress m = None)) "Cannot have two blocks inflight.";
  selected ← on_batches (BatchGraph.select_block (block_budget m));
  _ ← modify (set_block_in_progress (Some (list_to_set (batch_id <$> selected))));
  m ← get;
  mret (bn_child (chain_tip m), selected).

(** Reverts the given transactions and their descendents from the mempool. *)
Definition revert_transactions (txs : list TransactionId)
  : M Mempool (Graph.GraphError TransactionId) (gset TransactionId) :=
  (* Revert all transactions and their descendents, and their associated batches. *)
  reverted ← on_transactions (TransactionGraph.remove_transactions txs);
  batches_reverted ← on_batches
    (BatchGraph.remove_batches_with_transactions (bt_iter reverted));
  (* Requeue transactions that are disjoint from the reverted set. *)
  let to_requeue : gset TransactionId :=
    list_to_set (filter (λ tx, tx ∉ reverted) (concat (bm_values batches_reverted))) in
  _ ← expect_ok (on_transactions (TransactionGraph.requeue_transactions to_requeue))
        "transactions from batches must be requeueable";
  (* Cleanup state. *)
  _ ← on_expirations (Expirations.remove (bt_iter reverted));
  _ ← on_state (InflightState.revert_transactions reverted);
  _ ← on_subscription (Subscription.txs_reverted reverted);
  mret reverted.

Definition revert_expired_transactions {E} : M Mempool E (gset TransactionId) :=
  m ← get;
  expired ← on_expirations (Expirations.get_expiring (chain_tip m));
  _ ← expect_ok (revert_transactions (bt_iter expired))
        "expired transactions must be part of the mempool";
  mret expired.

Definition commit_block {E} (header : BlockHeader) : M Mempool E unit :=
  m ← get;
  (* Remove committed batches and transactions from graphs. *)
  block ← expect_some (block_in_progress m) "No block in progress to commit";
  _ ← modify (set_block_in_progress None);
  txs ← expect_ok (on_batches (BatchGraph.prune_committed block)) "Batches failed to commit";
  _ ← expect_ok (on_transactions (TransactionGraph.commit_transactions txs)) "Transaction graph malformed";
  (* Remove the committed transactions from expiration tracking. *)
  _ ← on_expirations (Expirations.remove txs);
  (* Inform inflight state about committed data. *)
  _ ← on_state (InflightState.commit_block txs);
  _ ← modify (λ m, set_chain_tip (bn_child (chain_tip m)) m);
  _ ← on_subscription (Subscription.block_committed header txs);
  (* Revert expired transactions and their descendents. *)
  _ ← revert_expired_transactions;
  mret tt.

Definition rollback_block {E} : M Mempool E unit :=
  m ← get;
  block ← expect_some (block_in_progress m) "No block in progress to be failed";
  _ ← modify (set_block_in_progress None);
  (* Revert all transactions. *)
  txs ← fold_m (λ acc batch,
    m ← get;
    ids ← expect_some (BatchGraph.get_transactions batch (batches m))
            "batch from a block must be in the mempool";
    mret (acc ++ ids)) [] (bt_iter block);
  _ ← expect_ok (revert_transactions txs) "transactions from a block must be part of the mempool";
  mret tt.

Definition subscribe (tip : BlockNumber) : M Mempool BlockNumber Receiver :=
  on_subscription (Subscription.subscribe tip).

End defs.

End Mempool.
