(* ===== verification/InflightProofs.v ===== *)
(** * Correctness of the inflight state: the loops

    The books the inflight state keeps (per-account counters, nullifiers, output
    notes) balance against the deltas of the inflight and of the committed
    transactions. [linv] states this balance; it holds before and after every
    iteration of the loops of [InflightState], and it is what makes each of their
    assertions hold. *)

From S2P Require Import Prelude.
From S2P Require Import External.
From S2P Require Import Transaction.
From S2P Require Import InflightState.
Import InflightState.

Section proofs.
Context `{!MidenObjects}.
Implicit Types (s : InflightState) (tx : TransactionId) (d : Delta) (cm : list Delta) (id : AccountId).

Definition acct s id : AccountState.InflightAccountState :=
  default AccountState.default_account (accounts s !! id).

(** The account states and how many of them are committed. *)
Definition acct_states s id := AccountState.states (acct s id).

Definition acct_committed s id := AccountState.committed (acct s id).

Definition deltas_of s : list Delta := (map_to_list (transaction_deltas s)).*2.

Definition on_account id (ds : list Delta) : nat := length (filter (λ d, account d = id) ds).

(** The deltas of all retained committed blocks. *)
Definition committed_deltas s : list Delta :=
  concat ((λ b, (map_to_list b).*2) <$> committed_blocks s).

Record linv s cm : Prop := {
  l_nullifiers : partitions (nullifiers_d <$> (deltas_of s ++ cm)) (nullifiers s);
  l_notes : partitions (output_notes_d <$> (deltas_of s ++ cm)) (dom (output_notes s));
  l_inflight : ∀ tx d n, transaction_deltas s !! tx = Some d → n ∈ output_notes_d d →
    output_notes s !! n = Some (Inflight tx);
  l_committed : ∀ d n, d ∈ cm → n ∈ output_notes_d d → output_notes s !! n = Some Committed;
  l_nonempty : ∀ id a, accounts s !! id = Some a → AccountState.states a ≠ [];
  l_length : ∀ id, length (acct_states s id) = on_account id (deltas_of s) + on_account id cm;
  l_count : ∀ id, acct_committed s id = on_account id cm;
}.

(** What the loops never touch. *)
Definition same_frame s s' : Prop :=
  committed_blocks s' = committed_blocks s ∧ num_retained_blocks s' = num_retained_blocks s ∧
  chain_tip s' = chain_tip s ∧ expiration_slack s' = expiration_slack s.

#[local] Instance same_frame_preorder : PreOrder same_frame.
Proof. split; [done|]. intros s1 s2 s3 H12 H23. unfold same_frame in *. naive_solver congruence. Qed.

Lemma on_account_cons id d ds :
  on_account id (d :: ds) = (if decide (account d = id) then 1 else 0) + on_account id ds.
Proof. unfold on_account. rewrite filter_cons. by case_decide. Qed.

Lemma on_account_app id ds ds' : on_account id (ds ++ ds') = on_account id ds + on_account id ds'.
Proof. unfold on_account. by rewrite filter_app, length_app. Qed.

#[global] Instance on_account_proper : Proper ((=) ==> (≡ₚ) ==> (=)) on_account.
Proof. intros id ? <- ds ds' Hds. unfold on_account. by rewrite Hds. Qed.

(** Deltas as a list, when one is removed or added. *)
Lemma deltas_of_delete s tx d f :
  transaction_deltas s !! tx = Some d → transaction_deltas f = delete tx (transaction_deltas s) →
  deltas_of s ≡ₚ d :: deltas_of f.
Proof.
  unfold deltas_of. intros Hd ->. by rewrite <- (map_to_list_delete _ _ _ Hd).
Qed.

Lemma deltas_of_insert s tx d f :
  transaction_deltas s !! tx = None → transaction_deltas f = <[tx := d]> (transaction_deltas s) →
  deltas_of f ≡ₚ d :: deltas_of s.
Proof. unfold deltas_of. intros Hd ->. by rewrite map_to_list_insert. Qed.

Lemma acct_eq s s' id : accounts s' = accounts s → acct s' id = acct s id.
Proof. unfold acct. by intros ->. Qed.

(** ** The loops over the nullifiers and the notes of one delta *)

Lemma wp_remove_nullifiers {E} (X : gset Nullifier) s :
  X ⊆ nullifiers s →
  wp_ok (for_each (bt_iter X) (λ nullifier,
        s ← get;
        _ ← assert_ (bool_decide (nullifier ∈ nullifiers s)) "Nullifier must exist";
        modify (over_nullifiers (λ ns, ns ∖ {[nullifier]}))) : M InflightState E unit) s
    (λ s' _, s' = over_nullifiers (λ ns, ns ∖ X) s).
Proof.
  intros HX. apply (wp_for_each_ok (λ pre s', s' = over_nullifiers (λ ns, ns ∖ list_to_set pre) s)).
  - destruct s. cbn. unfold over_nullifiers. cbn. f_equal. set_solver.
  - intros pre x rest s' Hl ->. pose proof (NoDup_bt_iter X) as Hnd. rewrite Hl in Hnd.
    apply NoDup_app in Hnd as (_ & Hx & _). wp_steps. apply wp_assert.
    { apply bool_decide_eq_true. cbn. rewrite elem_of_difference, elem_of_list_to_set. split.
      - apply HX, elem_of_bt_iter. rewrite Hl. set_solver.
      - intros Hin. apply (Hx _ Hin). by left. }
    wp_steps. unfold over_nullifiers. cbn. f_equal. set_solver.
  - intros s' ->. by rewrite list_to_set_bt_iter.
Qed.

Lemma wp_remove_notes {E} (X : gset NoteId) s :
  X ⊆ dom (output_notes s) →
  wp_ok (for_each (bt_iter X) (λ note,
    s ← get;
    _ ← assert_ (bool_decide (is_Some (output_notes s !! note))) "Output note must exist";
    modify (over_output_notes (λ m, delete note m))) : M InflightState E unit) s
    (λ s' _, s' = over_output_notes (del_keys X) s).
Proof.
  intros HX. apply (wp_for_each_ok (λ pre s', s' = over_output_notes (del_keys (list_to_set pre)) s)).
  - destruct s. cbn. unfold over_output_notes. cbn. by rewrite del_keys_empty.
  - intros pre x rest s' Hl ->. pose proof (NoDup_bt_iter X) as Hnd. rewrite Hl in Hnd.
    apply NoDup_app in Hnd as (_ & Hx & _). wp_steps. apply wp_assert.
    { apply bool_decide_eq_true. cbn. rewrite lookup_del_keys, decide_False.
      - apply elem_of_dom, HX, elem_of_bt_iter. rewrite Hl. set_solver.
      - rewrite elem_of_list_to_set. intros Hin. apply (Hx _ Hin). by left. }
    wp_steps. unfold over_output_notes. cbn. rewrite delete_del_keys. do 2 f_equal. set_solver.
  - intros s' ->. by rewrite list_to_set_bt_iter.
Qed.

Lemma wp_commit_notes {E} (X : gset NoteId) s :
  X ⊆ dom (output_notes s) →
  wp_ok (for_each (bt_iter X) (λ note,
        s ← get;
        note_state ← expect_some (output_notes s !! note) "Output note must exist";
        modify (over_output_notes (λ m, <[note := note_commit note_state]> m))) : M InflightState E unit) s
    (λ s' _, s' = over_output_notes (set_keys X Committed) s).
Proof.
  intros HX. apply (wp_for_each_ok (λ pre s', s' = over_output_notes (set_keys (list_to_set pre) Committed) s)).
  - destruct s. cbn. unfold over_output_notes. cbn. by rewrite set_keys_empty.
  - intros pre x rest s' Hl ->. wp_steps.
    assert (x ∈ dom (output_notes s)) as [st Hst]%elem_of_dom
      by (apply HX, elem_of_bt_iter; rewrite Hl; set_solver).
    destruct (decide (x ∈ (list_to_set pre : gset NoteId))) as [Hx|Hx].
    + eapply wp_expect_some; [cbn; by rewrite lookup_set_keys, decide_True|].
      wp_steps. unfold over_output_notes. cbn. rewrite insert_set_keys. do 2 f_equal. set_solver.
    + eapply wp_expect_some; [cbn; by rewrite lookup_set_keys, decide_False|].
      wp_steps. unfold over_output_notes. cbn. rewrite insert_set_keys. do 2 f_equal. set_solver.
  - intros s' ->. by rewrite list_to_set_bt_iter.
Qed.

(** ** Calls on one account *)

Lemma wp_uncommitted_count {E} (a : AccountState.InflightAccountState) (Q : _ → nat → Prop) :
  AccountState.committed a ≤ length (AccountState.states a) →
  Q a (length (AccountState.states a) - AccountState.committed a) →
  wp_ok (AccountState.uncommitted_count : M _ E _) a Q.
Proof. intros Hle HQ. unfold AccountState.uncommitted_count. wp_steps. by apply wp_checked_sub. Qed.

Lemma wp_account_insert {E} (a : AccountState.InflightAccountState) state tx :
  AccountState.committed a ≤ length (AccountState.states a) →
  wp_ok (AccountState.insert state tx : M _ E _) a (λ a' p,
    a' = AccountState.over_states (λ l, l ++ [(state, tx)]) a ∧
    p = if decide (length (AccountState.states a) = AccountState.committed a) then None
        else snd <$> last (AccountState.states a)).
Proof.
  intros Hle. unfold AccountState.insert. wp_steps. apply wp_uncommitted_count; [done|]. wp_steps.
  split; [done|]. repeat case_decide; done || lia.
Qed.

Lemma wp_account_revert {E} (a : AccountState.InflightAccountState) n :
  AccountState.committed a + n ≤ length (AccountState.states a) →
  wp_ok (AccountState.revert n : M _ E _) a (λ a' st,
    a' = AccountState.over_states (take (length (AccountState.states a) - n)) a ∧
    st = AccountState.emptiness a').
Proof.
  intros Hle. unfold AccountState.revert. wp_steps. apply wp_uncommitted_count; [lia|]. wp_steps.
  apply wp_assert; [apply bool_decide_eq_true; lia|]. wp_steps. apply wp_checked_sub; [lia|].
  by wp_steps.
Qed.

Lemma wp_account_commit {E} (a : AccountState.InflightAccountState) n :
  AccountState.committed a + n ≤ length (AccountState.states a) →
  wp_ok (AccountState.commit n : M _ E _) a (λ a' _,
    a' = AccountState.over_committed (λ c, c + n) a).
Proof.
  intros Hle. unfold AccountState.commit. wp_steps. apply wp_uncommitted_count; [lia|]. wp_steps.
  apply wp_assert; [apply bool_decide_eq_true; lia|]. by wp_steps.
Qed.

Lemma wp_account_prune {E} (a : AccountState.InflightAccountState) n :
  n ≤ AccountState.committed a → AccountState.committed a ≤ length (AccountState.states a) →
  wp_ok (AccountState.prune_committed n : M _ E _) a (λ a' st,
    a' = AccountState.mk_account_state (drop n (AccountState.states a)) (AccountState.committed a - n) ∧
    st = AccountState.emptiness a').
Proof.
  intros Hn Hle. unfold AccountState.prune_committed. wp_steps.
  apply wp_assert; [by apply bool_decide_eq_true|]. wp_steps. apply wp_checked_sub; [done|]. wp_steps.
  apply wp_assert; [apply bool_decide_eq_true; cbn; lia|]. by wp_steps.
Qed.

(** The account a delta is on exists: it has at least one state. *)
Lemma wp_account_unwrap {E A} id (m : M AccountState.InflightAccountState E A) s
    (Q : InflightState → A → Prop) X :
  acct_states s id ≠ [] →
  wp m (acct s id) (λ a r, Q (over_accounts (λ m, <[id := a]> m) s) r)
    (λ a e, X (over_accounts (λ m, <[id := a]> m) s) e) →
  wp (account_unwrap id m) s Q X.
Proof.
  unfold acct_states, acct. intros Hne Hm. unfold account_unwrap. wp_steps.
  destruct (accounts s !! id) as [a|] eqn:Ha; [|done].
  apply (wp_expect_some _ a); [done|]. unfold account_entry. wp_steps. by rewrite Ha.
Qed.

(** ** Reverting a transaction *)

(** The balance after the delta [d] of [tx] is taken out of every book. *)
Lemma linv_reverted s s' cm tx d :
  linv s cm → transaction_deltas s !! tx = Some d →
  transaction_deltas s' = delete tx (transaction_deltas s) →
  nullifiers s' = nullifiers s ∖ nullifiers_d d →
  output_notes s' = del_keys (output_notes_d d) (output_notes s) →
  (∀ id, acct s' id = if decide (id = account d)
     then AccountState.over_states (take (length (acct_states s id) - 1)) (acct s id)
     else acct s id) →
  (∀ id a, accounts s' !! id = Some a → AccountState.states a ≠ []) →
  linv s' cm.
Proof.
  intros [Hn Ho Hi Hc Hne Hl Hk] Hd HD HN HO HA Hne'.
  pose proof (deltas_of_delete _ _ _ _ Hd HD) as HP.
  rewrite HP in Hn, Ho. cbn in Hn, Ho.
  apply partitions_uncons in Hn as [_ Hn], Ho as [HoX Ho'].
  assert (∀ d' n, d' ∈ deltas_of s' ++ cm → n ∈ output_notes_d d' → n ∉ output_notes_d d) as Hdisj.
  { intros d' n Hd' Hn'. apply (partitions_elem _ _ n) in Ho'. rewrite elem_of_difference in Ho'.
    apply Ho'. exists (output_notes_d d'). split; [by apply list_elem_of_fmap_2|done]. }
  split.
  - by rewrite HN.
  - by rewrite HO, dom_del_keys.
  - rewrite HD, HO. intros tx' d' n (Hne'' & Hd')%lookup_delete_Some Hn'.
    rewrite lookup_del_keys, decide_False; [by eapply Hi|].
    apply (Hdisj d'); [|done]. apply elem_of_app. left. unfold deltas_of.
    apply (list_elem_of_fmap_2 snd _ (tx', d')), elem_of_map_to_list. rewrite HD.
    by apply lookup_delete_Some.
  - intros d' n Hd' Hn'. rewrite HO, lookup_del_keys, decide_False; [by eapply Hc|].
    apply (Hdisj d'); [|done]. apply elem_of_app. by right.
  - done.
  - intros id. specialize (Hl id). rewrite HP, on_account_cons in Hl. unfold acct_states in *.
    rewrite HA. destruct (decide (id = account d)) as [->|Hid].
    + rewrite decide_True in Hl by done. cbn. rewrite length_take. lia.
    + rewrite decide_False in Hl by done. cbn in Hl. lia.
  - intros id. rewrite <- Hk. unfold acct_committed. rewrite HA. by case_decide.
Qed.

(** The account of an inflight delta has an uncommitted state. *)
Lemma linv_uncommitted s cm tx d :
  linv s cm → transaction_deltas s !! tx = Some d →
  acct_committed s (account d) + 1 ≤ length (acct_states s (account d)).
Proof.
  intros Hinv Hd. rewrite (l_length _ _ Hinv), (l_count _ _ Hinv).
  rewrite (deltas_of_delete s tx d (over_deltas (delete tx) s) Hd eq_refl), on_account_cons.
  rewrite decide_True by done. lia.
Qed.

Lemma linv_owned s cm tx d :
  linv s cm → transaction_deltas s !! tx = Some d →
  nullifiers_d d ⊆ nullifiers s ∧ output_notes_d d ⊆ dom (output_notes s).
Proof.
  intros [Hn Ho _ _ _ _ _] Hd.
  rewrite (deltas_of_delete s tx d (over_deltas (delete tx) s) Hd eq_refl) in Hn, Ho.
  cbn in Hn, Ho. by apply partitions_uncons in Hn as [? _], Ho as [? _].
Qed.

(** An account entry after it is written back, and pruned if it is empty. *)
Definition put_account id (a : AccountState.InflightAccountState) s : InflightState :=
  let s1 := over_accounts (λ m, <[id := a]> m) s in
  if AccountState.is_empty (AccountState.emptiness a)
  then over_accounts (λ m, delete id m) s1 else s1.

Lemma acct_put_account id a s id' :
  (AccountState.states a = [] → AccountState.committed a = 0) →
  acct (put_account id a s) id' = if decide (id' = id) then a else acct s id'.
Proof.
  intros He. unfold put_account, acct. destruct a as [[|x l] c]; cbn in *.
  - rewrite He by done. rewrite delete_insert_eq. case_decide as Hid.
    + subst. by rewrite lookup_delete_eq.
    + by rewrite lookup_delete_ne by done.
  - case_decide as Hid; [subst; by rewrite lookup_insert_eq|by rewrite lookup_insert_ne by done].
Qed.

Lemma put_account_nonempty id a s :
  (∀ id' a', accounts s !! id' = Some a' → AccountState.states a' ≠ []) →
  ∀ id' a', accounts (put_account id a s) !! id' = Some a' → AccountState.states a' ≠ [].
Proof.
  intros Hne id' a'. unfold put_account. destruct a as [[|x l] c]; cbn.
  - intros [Hid [[? _]|[_ Ha]]%lookup_insert_Some]%lookup_delete_Some; [congruence|eauto].
  - intros [[_ <-]|[_ Ha]]%lookup_insert_Some; [done|eauto].
Qed.

Lemma put_account_frame id a s :
  transaction_deltas (put_account id a s) = transaction_deltas s ∧
  nullifiers (put_account id a s) = nullifiers s ∧
  output_notes (put_account id a s) = output_notes s ∧ same_frame s (put_account id a s).
Proof. unfold put_account, same_frame. by destruct (AccountState.is_empty _). Qed.

(** The [if account_status.is_empty()] of the loops. *)
Lemma wp_prune_entry {E} id a s (Q : InflightState → unit → Prop) :
  Q (put_account id a s) tt →
  wp_ok (if AccountState.is_empty (AccountState.emptiness a)
         then modify (over_accounts (λ m, delete id m)) else mret tt : M InflightState E unit)
    (over_accounts (λ m, <[id := a]> m) s) Q.
Proof. unfold put_account. by destruct (AccountState.is_empty _). Qed.

Lemma wp_revert_one {E} s cm tx d :
  linv s cm → transaction_deltas s !! tx = Some d →
  wp_ok (revert_one tx : M InflightState E unit) s (λ s' _,
    linv s' cm ∧ transaction_deltas s' = delete tx (transaction_deltas s) ∧ same_frame s s' ∧
    ∀ id, acct_states s' id `prefix_of` acct_states s id).
Proof.
  intros Hinv Hd. unfold revert_one. wp_steps.
  apply (wp_expect_some _ d); [done|]. wp_steps.
  pose proof (linv_uncommitted _ _ _ _ Hinv Hd) as Hunc.
  destruct (linv_owned _ _ _ _ Hinv Hd) as [HN HO].
  apply wp_account_unwrap.
  { change (acct_states s (account d) ≠ []). intros Hnil. rewrite Hnil in Hunc. cbn in Hunc. lia. }
  eapply wp_mono; [apply wp_account_revert; exact Hunc| |done]. cbn beta.
  intros a st [Ha ->]. wp_steps.
  change (acct (over_deltas _ s) (account d)) with (acct s (account d)) in Ha.
  set (s0 := over_deltas _ s). set (s2 := put_account (account d) a s0).
  apply wp_prune_entry. fold s2.
  destruct (put_account_frame (account d) a s0) as (HD2 & HN2 & HO2 & HF2). fold s2 in HD2, HN2, HO2, HF2.
  assert (∀ id, acct s2 id = if decide (id = account d)
     then AccountState.over_states (take (length (acct_states s id) - 1)) (acct s id)
     else acct s id) as Hacct.
  { intros id. unfold s2. rewrite acct_put_account.
    - case_decide as Hid; [subst id; exact Ha|done].
    - rewrite Ha. intros Hnil%(f_equal length). revert Hnil Hunc.
      unfold acct_states, acct_committed. cbn. rewrite length_take. lia. }
  wp_steps. eapply wp_mono; [apply wp_remove_nullifiers; by rewrite HN2| |done]. cbn beta.
  intros s3 [] ->. eapply wp_mono; [apply wp_remove_notes; cbn; by rewrite HO2| |done]. cbn beta.
  intros s4 [] ->. split_and!; [|exact HD2|exact HF2|].
  - eapply (linv_reverted s _ cm tx d); [done..| | | |exact Hacct|]; cbn; rewrite ?HN2, ?HO2; try done.
    apply put_account_nonempty. exact (l_nonempty _ _ Hinv).
  - intros id. change (acct_states (over_output_notes _ _) id) with (acct_states s2 id).
    unfold acct_states. rewrite Hacct. case_decide; [apply prefix_take|done].
Qed.

(** The transactions of [txs] are inflight: all of them are reverted. *)
Lemma wp_revert_transactions {E} s cm (txs : gset TransactionId) :
  linv s cm → txs ⊆ dom (transaction_deltas s) →
  wp_ok (revert_transactions txs : M InflightState E unit) s (λ s' _,
    linv s' cm ∧ transaction_deltas s' = del_keys txs (transaction_deltas s) ∧ same_frame s s' ∧
    ∀ id, acct_states s' id `prefix_of` acct_states s id).
Proof.
  intros Hinv Htxs. unfold revert_transactions.
  apply (wp_for_each_ok (λ pre s', linv s' cm ∧
    transaction_deltas s' = del_keys (list_to_set pre) (transaction_deltas s) ∧ same_frame s s' ∧
    ∀ id, acct_states s' id `prefix_of` acct_states s id)).
  - split_and!; [done|cbn; by rewrite del_keys_empty|done|done].
  - intros pre tx rest s' Hl (Hinv' & HD & HF & HP).
    pose proof (NoDup_bt_iter txs) as Hnd. rewrite Hl in Hnd.
    apply NoDup_app in Hnd as (_ & Hx & _).
    assert (tx ∈ dom (transaction_deltas s)) as [d Hd]%elem_of_dom
      by (apply Htxs, elem_of_bt_iter; rewrite Hl; set_solver).
    eapply wp_mono; [apply (wp_revert_one _ cm tx d); [done|]| |done].
    + rewrite HD, lookup_del_keys, decide_False; [done|].
      rewrite elem_of_list_to_set. intros Hin. apply (Hx _ Hin). by left.
    + intros s'' [] (Hinv'' & HD' & HF' & HP'). split_and!; [done| | |].
      * rewrite HD', HD, delete_del_keys. f_equal. set_solver.
      * by trans s'.
      * intros id. by trans (acct_states s' id).
  - intros s'. by rewrite list_to_set_bt_iter.
Qed.

(** ** Committing a transaction *)

Lemma linv_committed s s' cm tx d :
  linv s cm → transaction_deltas s !! tx = Some d →
  transaction_deltas s' = delete tx (transaction_deltas s) →
  nullifiers s' = nullifiers s →
  output_notes s' = set_keys (output_notes_d d) Committed (output_notes s) →
  (∀ id, acct s' id = if decide (id = account d)
     then AccountState.over_committed (λ c, c + 1) (acct s id) else acct s id) →
  (∀ id a, accounts s' !! id = Some a → AccountState.states a ≠ []) →
  linv s' (d :: cm).
Proof.
  intros Hinv Hd HD HN HO HA Hne'.
  pose proof (linv_owned _ _ _ _ Hinv Hd) as [_ HOd].
  destruct Hinv as [Hn Ho Hi Hc Hne Hl Hk].
  pose proof (deltas_of_delete _ _ _ _ Hd HD) as HP.
  assert (deltas_of s' ++ d :: cm ≡ₚ deltas_of s ++ cm) as HP'.
  { rewrite HP. by rewrite <- Permutation_middle. }
  assert (∀ tx' d' n, transaction_deltas s' !! tx' = Some d' → n ∈ output_notes_d d' →
    n ∉ output_notes_d d) as Hdisj.
  { intros tx' d' n. rewrite HD. intros (Hne'' & Hd')%lookup_delete_Some Hn' Hnd.
    pose proof (Hi _ _ _ Hd Hnd). pose proof (Hi _ _ _ Hd' Hn'). congruence. }
  split.
  - by rewrite HP', HN.
  - by rewrite HP', HO, dom_set_keys.
  - intros tx' d' n Hd' Hn'. rewrite HO, lookup_set_keys, decide_False by eauto.
    rewrite HD in Hd'. apply lookup_delete_Some in Hd' as [_ Hd']. eauto.
  - intros d' n Hd' Hn'. rewrite HO, lookup_set_keys. case_decide; [done|].
    apply elem_of_cons in Hd' as [->|Hd']; [done|eauto].
  - done.
  - intros id. specialize (Hl id). rewrite HP, on_account_cons in Hl.
    rewrite on_account_cons. unfold acct_states in *. rewrite HA.
    destruct (decide (id = account d)) as [->|Hid].
    + rewrite decide_True in Hl |- * by done. cbn. lia.
    + rewrite decide_False in Hl |- * by done. cbn in *. lia.
  - intros id. rewrite on_account_cons, <- Hk. unfold acct_committed. rewrite HA.
    destruct (decide (id = account d)) as [->|Hid].
    + rewrite decide_True by done. cbn. lia.
    + by rewrite decide_False by done.
Qed.

Lemma acct_over_accounts id a s id' :
  acct (over_accounts (λ m, <[id := a]> m) s) id' = if decide (id' = id) then a else acct s id'.
Proof. unfold acct. cbn. rewrite lookup_insert. repeat case_decide; subst; done. Qed.

Lemma wp_commit_one {E} s cm tx d block :
  linv s cm → transaction_deltas s !! tx = Some d →
  wp_ok (commit_one block tx : M InflightState E _) s (λ s' block',
    block' = <[tx := d]> block ∧
    linv s' (d :: cm) ∧ transaction_deltas s' = delete tx (transaction_deltas s) ∧ same_frame s s' ∧
    ∀ id, acct_states s' id = acct_states s id).
Proof.
  intros Hinv Hd. unfold commit_one. wp_steps.
  apply (wp_expect_some _ d); [done|]. wp_steps.
  pose proof (linv_uncommitted _ _ _ _ Hinv Hd) as Hunc.
  destruct (linv_owned _ _ _ _ Hinv Hd) as [HN HO].
  apply wp_account_unwrap.
  { change (acct_states s (account d) ≠ []). intros Hnil. rewrite Hnil in Hunc. cbn in Hunc. lia. }
  eapply wp_mono; [apply wp_account_commit; exact Hunc| |done]. cbn beta.
  intros a [] Ha. wp_steps.
  change (acct (over_deltas _ s) (account d)) with (acct s (account d)) in Ha.
  set (s0 := over_deltas _ s). set (s2 := over_accounts _ s0).
  eapply wp_mono; [apply wp_commit_notes; exact HO| |done]. cbn beta.
  intros s3 [] ->. wp_steps. split; [done|].
  assert (∀ id, acct s2 id = if decide (id = account d)
     then AccountState.over_committed (λ c, c + 1) (acct s id) else acct s id) as Hacct.
  { intros id. unfold s2. rewrite acct_over_accounts. case_decide; [by subst|done]. }
  split_and!; [|done|done|].
  - apply (linv_committed s _ cm tx d); [done..|exact Hacct|].
    intros id a'. cbn. intros [[_ <-]|[_ Ha']]%lookup_insert_Some; [|by eapply (l_nonempty _ _ Hinv)].
    rewrite Ha. intros Hnil. unfold acct_states in Hunc. cbn in Hnil. rewrite Hnil in Hunc.
    cbn in Hunc. lia.
  - intros id. change (acct_states (over_output_notes _ _) id) with (acct_states s2 id).
    unfold acct_states. rewrite Hacct. by case_decide.
Qed.

(** ** Pruning the delta of a committed transaction *)

Lemma linv_pruned s s' cm d :
  linv s (d :: cm) →
  transaction_deltas s' = transaction_deltas s →
  nullifiers s' = nullifiers s ∖ nullifiers_d d →
  output_notes s' = del_keys (output_notes_d d) (output_notes s) →
  (∀ id, acct s' id = if decide (id = account d)
     then AccountState.mk_account_state (drop 1 (acct_states s id)) (acct_committed s id - 1)
     else acct s id) →
  (∀ id a, accounts s' !! id = Some a → AccountState.states a ≠ []) →
  linv s' cm.
Proof.
  intros [Hn Ho Hi Hc Hne Hl Hk] HD HN HO HA Hne'.
  assert (deltas_of s' = deltas_of s) as HP by (unfold deltas_of; by rewrite HD).
  rewrite <- HP in Hn, Ho. rewrite <- Permutation_middle in Hn, Ho. cbn in Hn, Ho.
  apply partitions_uncons in Hn as [_ Hn], Ho as [HoX Ho'].
  assert (∀ d' n, d' ∈ deltas_of s' ++ cm → n ∈ output_notes_d d' → n ∉ output_notes_d d) as Hdisj.
  { intros d' n Hd' Hn'. apply (partitions_elem _ _ n) in Ho'. rewrite elem_of_difference in Ho'.
    apply Ho'. exists (output_notes_d d'). split; [by apply list_elem_of_fmap_2|done]. }
  split.
  - by rewrite HN.
  - by rewrite HO, dom_del_keys.
  - rewrite HD, HO. intros tx' d' n Hd' Hn'. rewrite lookup_del_keys, decide_False; [by eapply Hi|].
    apply (Hdisj d'); [|done]. apply elem_of_app. left. unfold deltas_of. rewrite HD.
    by apply (list_elem_of_fmap_2 snd _ (tx', d')), elem_of_map_to_list.
  - intros d' n Hd' Hn'. rewrite HO, lookup_del_keys, decide_False; [eapply Hc; [by right|done]|].
    apply (Hdisj d'); [|done]. apply elem_of_app. by right.
  - done.
  - intros id. specialize (Hl id). rewrite on_account_cons in Hl. rewrite HP.
    unfold acct_states in *. rewrite HA. destruct (decide (id = account d)) as [->|Hid].
    + rewrite decide_True in Hl by done. cbn. rewrite length_drop. lia.
    + rewrite decide_False in Hl by done. cbn in Hl. lia.
  - intros id. specialize (Hk id). rewrite on_account_cons in Hk. unfold acct_committed in *.
    rewrite HA. destruct (decide (id = account d)) as [->|Hid].
    + rewrite decide_True in Hk by done. cbn. lia.
    + rewrite decide_False in Hk by done. cbn in Hk. lia.
Qed.

(** The uncommitted states of an account. *)
Definition segment s id : list (Digest * TransactionId) := drop (acct_committed s id) (acct_states s id).

Lemma wp_prune_delta {E} s cm d :
  linv s (d :: cm) →
  wp_ok (prune_delta d : M InflightState E unit) s (λ s' _,
    linv s' cm ∧ transaction_deltas s' = transaction_deltas s ∧ same_frame s s' ∧
    ∀ id, segment s' id = segment s id).
Proof.
  intros Hinv. unfold prune_delta. wp_steps.
  pose proof (l_length _ _ Hinv (account d)) as Hlen. pose proof (l_count _ _ Hinv (account d)) as Hcnt.
  rewrite on_account_cons, decide_True in Hlen, Hcnt by done.
  apply wp_account_unwrap; [intros Hnil; rewrite Hnil in Hlen; cbn in Hlen; lia|].
  eapply wp_mono; [apply wp_account_prune; unfold acct_states, acct_committed in *; lia| |done].
  cbn beta. intros a st [Ha ->]. wp_steps. set (s2 := put_account (account d) a s).
  apply wp_prune_entry. fold s2.
  destruct (put_account_frame (account d) a s) as (HD2 & HN2 & HO2 & HF2). fold s2 in HD2, HN2, HO2, HF2.
  assert (∀ id, acct s2 id = if decide (id = account d)
     then AccountState.mk_account_state (drop 1 (acct_states s id)) (acct_committed s id - 1)
     else acct s id) as Hacct.
  { intros id. unfold s2. rewrite acct_put_account.
    - case_decide as Hid; [by subst id|done].
    - rewrite Ha. intros Hnil%(f_equal length). revert Hnil Hlen Hcnt.
      unfold acct_states, acct_committed. cbn. rewrite length_drop. lia. }
  wp_steps. rewrite wp_for_each_modify. rewrite wp_for_each_modify.
  rewrite (foldl_over over_nullifiers (λ x ns, ns ∖ {[x]})) by (done || by intros []).
  rewrite (foldl_over over_output_notes (λ x m, delete x m)) by (done || by intros []).
  cbn beta. unfold over_output_notes, over_nullifiers. cbn.
  rewrite foldl_difference, foldl_delete, !list_to_set_bt_iter.
  split_and!; [|exact HD2|exact HF2|].
  - eapply (linv_pruned s _ cm d); [done..| | | |exact Hacct|]; cbn; rewrite ?HN2, ?HO2; try done.
    apply put_account_nonempty. exact (l_nonempty _ _ Hinv).
  - intros id. enough (segment s2 id = segment s id) as Hseg by exact Hseg.
    unfold segment, acct_states, acct_committed. rewrite Hacct. case_decide; [|done]. subst id.
    cbn. rewrite drop_drop. f_equal. unfold acct_states, acct_committed in *. lia.
Qed.

End proofs.
