(* ===== verification/InflightOps.v ===== *)
(** * Correctness of the inflight state: the operations

    Between two calls the inflight state satisfies [iinv]: the books balance and,
    for each account, the uncommitted part of its states lists exactly its inflight
    transactions. Each operation of [InflightState] is specified on this
    invariant. *)

From S2P Require Import Prelude.
From S2P Require Import External.
From S2P Require Import Transaction.
From S2P Require Import InflightState.
From S2P Require Import InflightProofs.
Import InflightState.

Section ops.
Context `{!MidenObjects} `{!MidenLaws}.
Implicit Types (s : InflightState) (d : Delta) (cm : list Delta) (id : AccountId).
Implicit Types (tx : AuthenticatedTransaction).

Record iinv s : Prop := {
  i_books : linv s (committed_deltas s);
  i_nodup : ∀ id, NoDup (segment s id).*2;
  i_segment : ∀ id t, t ∈ (segment s id).*2 ↔
    ∃ d, transaction_deltas s !! t = Some d ∧ account d = id;
  i_tip : (N.of_nat (length (committed_blocks s)) ≤ chain_tip s)%N;
  i_retained : length (committed_blocks s) ≤ num_retained_blocks s;
  i_width : (N.of_nat (num_retained_blocks s) < 2 ^ 32)%N;
}.

Lemma iinv_new tip n slack : (N.of_nat n < 2 ^ 32)%N → iinv (new tip n slack).
Proof.
  intros Hn. unfold new. split; cbn; [split| | | | |]; try done; try lia.
  - rewrite app_nil_r. unfold deltas_of. cbn. rewrite map_to_list_empty. apply partitions_nil.
  - cbn. rewrite app_nil_r, dom_empty_L. unfold deltas_of. cbn. rewrite map_to_list_empty. apply partitions_nil.
  - intros d note Hd. by apply not_elem_of_nil in Hd.
  - intros id. unfold segment, acct_states, acct. cbn. rewrite lookup_empty. constructor.
  - intros id t. unfold segment, acct_states, acct. cbn. rewrite lookup_empty. cbn.
    split; [set_solver|]. intros (d & Hd & _). by rewrite lookup_empty in Hd.
Qed.

(** The state the next transaction of an account has to start from. *)
Definition expected_state s tx : Digest :=
  default digest_default
    match accounts s !! account_id tx ≫= AccountState.current_state with
    | Some state => Some state
    | None => store_account_state tx
    end.

(** What [verify_transaction] accepts. *)
Record admissible s tx : Prop := {
  adm_live : (chain_tip s + expiration_slack s < expires_at tx)%N;
  adm_fresh : (chain_tip s - N.of_nat (length (committed_blocks s)) ≤ authentication_height tx)%N;
  adm_account : initial_state_commitment tx = expected_state s tx;
  adm_nullifiers : ∀ n, n ∈ nullifiers_of tx → n ∉ nullifiers s;
  adm_outputs : ∀ n, n ∈ output_note_ids tx → output_notes s !! n = None;
  adm_inputs : ∀ n, n ∈ unauthenticated_notes tx → is_Some (output_notes s !! n);
}.

(** The reasons for which it rejects, with the error of each. *)
Inductive rejection s tx : AddTransactionError → Prop :=
| rejected_expired :
    (expires_at tx ≤ chain_tip s + expiration_slack s)%N →
    rejection s tx (Expired (expires_at tx) (chain_tip s + expiration_slack s)%N)
| rejected_stale limit :
    limit = (chain_tip s - N.of_nat (length (committed_blocks s)))%N →
    (authentication_height tx < limit)%N → rejection s tx (StaleInputs (authentication_height tx) limit)
| rejected_account current :
    initial_state_commitment tx ≠ expected_state s tx →
    expected_state s tx = default digest_default current →
    rejection s tx (VerificationFailed
      (IncorrectAccountInitialCommitment (initial_state_commitment tx) current))
| rejected_nullifiers ns :
    ns ≠ [] → (∀ n, n ∈ ns ↔ n ∈ nullifiers_of tx ∧ n ∈ nullifiers s) →
    rejection s tx (VerificationFailed (InputNotesAlreadyConsumed ns))
| rejected_outputs ns :
    ns ≠ [] → (∀ n, n ∈ ns ↔ n ∈ output_note_ids tx ∧ is_Some (output_notes s !! n)) →
    rejection s tx (VerificationFailed (OutputNotesAlreadyExist ns))
| rejected_inputs ns :
    ns ≠ [] → (∀ n, n ∈ ns ↔ n ∈ unauthenticated_notes tx ∧ output_notes s !! n = None) →
    rejection s tx (VerificationFailed (UnauthenticatedNotesNotFound ns)).

Lemma wp_oldest_committed_state s (Q : InflightState → BlockNumber → Prop) (X : _ → AddTransactionError → Prop) :
  iinv s → Q s (chain_tip s - N.of_nat (length (committed_blocks s)))%N →
  wp oldest_committed_state s Q X.
Proof.
  intros Hinv HQ. unfold oldest_committed_state. wp_steps.
  pose proof (i_tip _ Hinv). pose proof (i_retained _ Hinv). pose proof (i_width _ Hinv).
  apply wp_assert; [apply N.ltb_lt; lia|].
  eapply wp_expect_some; [rewrite bn_checked_sub_spec|done].
  by rewrite (proj2 (N.leb_le _ _)).
Qed.

Lemma filter_nil_iff {A} (P : A → Prop) `{!∀ x, Decision (P x)} (l : list A) :
  ¬ filter P l ≠ [] ↔ ∀ x, x ∈ l → ¬ P x.
Proof.
  split.
  - intros Hne x Hx HP. destruct Hne. intros Hnil.
    assert (x ∈ filter P l) as Hin by (by apply list_elem_of_filter). rewrite Hnil in Hin. set_solver.
  - intros Hall Hnn. apply Hnn, filter_none, Forall_forall. done.
Qed.

Lemma wp_verify_transaction s tx :
  iinv s →
  wp (verify_transaction tx) s (λ s' _, s' = s ∧ admissible s tx) (λ s' e, s' = s ∧ rejection s tx e).
Proof.
  intros Hinv. unfold verify_transaction. wp_steps. rewrite bn_add_spec.
  destruct (N.leb_spec (expires_at tx) (chain_tip s + expiration_slack s)) as [He|He].
  { wp_steps. split; [done|]. by constructor. }
  wp_steps. apply wp_oldest_committed_state; [done|].
  destruct (N.ltb_spec (authentication_height tx)
    (chain_tip s - N.of_nat (length (committed_blocks s)))) as [Hs|Hs].
  { wp_steps. split; [done|]. by constructor. }
  cbn zeta. fold (expected_state s tx). destruct (decide (initial_state_commitment tx ≠ _)) as [Ha|Ha].
  { wp_steps. split; [done|]. by constructor. }
  destruct (decide (filter (λ n, n ∈ nullifiers s) _ ≠ [])) as [Hn|Hn].
  { wp_steps. split; [done|]. constructor; [done|]. intros n. rewrite list_elem_of_filter. naive_solver. }
  destruct (decide (filter (λ note, is_Some (output_notes s !! note)) _ ≠ [])) as [Ho|Ho].
  { wp_steps. split; [done|]. constructor; [done|]. intros n. rewrite list_elem_of_filter. naive_solver. }
  destruct (decide (filter (λ note_id, output_notes s !! note_id = None) _ ≠ [])) as [Hi|Hi].
  { wp_steps. split; [done|]. constructor; [done|]. intros n. rewrite list_elem_of_filter. naive_solver. }
  wp_steps. split; [done|]. pose proof (proj1 (filter_nil_iff _ _) Hn) as Hn'. pose proof (proj1 (filter_nil_iff _ _) Ho) as Ho'.
  pose proof (proj1 (filter_nil_iff _ _) Hi) as Hi'. split; try done.
  - by apply dec_stable.
  - intros n Hx. by apply eq_None_not_Some, Ho'.
  - intros n Hx. by apply not_eq_None_Some, Hi'.
Qed.

(** An inflight note belongs to an inflight transaction. *)
Lemma inflight_note_owner s cm n t :
  linv s cm → output_notes s !! n = Some (Inflight t) →
  ∃ d, transaction_deltas s !! t = Some d ∧ n ∈ output_notes_d d.
Proof.
  intros Hinv Hn. assert (n ∈ dom (output_notes s)) as Hdom by (apply elem_of_dom; eauto).
  apply (partitions_elem _ _ _ (l_notes _ _ Hinv)) in Hdom as (X & HX & Hin).
  apply list_elem_of_fmap in HX as (d & -> & Hd). apply elem_of_app in Hd as [Hd|Hd].
  - apply list_elem_of_fmap in Hd as ([t' d'] & -> & Hd). apply elem_of_map_to_list in Hd.
    cbn in *. pose proof (l_inflight _ _ Hinv _ _ _ Hd Hin). exists d'. split; [|done]. congruence.
  - pose proof (l_committed _ _ Hinv _ _ Hd Hin). congruence.
Qed.

Lemma last_drop {A} k (l : list A) : k < length l → last (drop k l) = last l.
Proof.
  intros Hk. rewrite <- (take_drop k l) at 2. rewrite last_app.
  destruct (last (drop k l)) eqn:E; [done|]. apply last_None in E.
  apply (f_equal length) in E. rewrite length_drop in E. cbn in E. lia.
Qed.

(** ** Adding *)

Lemma foldl_set_keys {K V} `{!Key K} (l : list K) (v : V) (m : gmap K V) :
  foldl (λ m k, <[k := v]> m) m l = set_keys (list_to_set l) v m.
Proof.
  revert m. induction l as [|k l IH]; intros m; cbn; [by rewrite set_keys_empty|].
  rewrite IH. apply map_eq. intros k'. rewrite !lookup_set_keys, lookup_insert.
  repeat case_decide; try done; set_solver.
Qed.

Lemma dom_set_keys_union {K V} `{!Key K} X (v : V) (m : gmap K V) :
  dom (set_keys X v m) = X ∪ dom m.
Proof.
  apply set_eq. intros k. rewrite elem_of_union, !elem_of_dom, lookup_set_keys.
  case_decide; [|naive_solver]. split; [by left|eauto].
Qed.

(** What [insert_transaction] makes of the state. *)
Definition inserted s tx : InflightState :=
  over_output_notes (set_keys (output_notes_d (delta_new tx)) (Inflight (tx_id tx)))
  (over_nullifiers (λ ns, nullifiers_d (delta_new tx) ∪ ns)
  (over_accounts (λ m, <[account_id tx :=
     AccountState.over_states (λ l, l ++ [(final_state_commitment tx, tx_id tx)]) (acct s (account_id tx))]> m)
  (over_deltas (λ m, <[tx_id tx := delta_new tx]> m) s))).

Lemma acct_inserted s tx id :
  acct (inserted s tx) id = if decide (id = account_id tx)
    then AccountState.over_states (λ l, l ++ [(final_state_commitment tx, tx_id tx)]) (acct s id)
    else acct s id.
Proof. unfold acct. cbn. rewrite lookup_insert. repeat case_decide; subst; done. Qed.

Lemma linv_committed_le s cm id : linv s cm → acct_committed s id ≤ length (acct_states s id).
Proof. intros Hinv. rewrite (l_length _ _ Hinv), (l_count _ _ Hinv). lia. Qed.

Lemma segment_inserted s cm tx id :
  linv s cm →
  segment (inserted s tx) id = if decide (id = account_id tx)
    then segment s id ++ [(final_state_commitment tx, tx_id tx)] else segment s id.
Proof.
  intros Hinv. pose proof (linv_committed_le _ _ id Hinv) as Hle.
  unfold segment, acct_states, acct_committed in *. rewrite acct_inserted. case_decide; [|done].
  cbn. by rewrite drop_app_le.
Qed.

Lemma linv_inserted s cm tx :
  linv s cm → transaction_deltas s !! tx_id tx = None → admissible s tx → linv (inserted s tx) cm.
Proof.
  intros Hinv Hfresh Hadm. pose proof Hinv as [Hn Ho Hi Hc Hne Hl Hk].
  pose proof (deltas_of_insert s _ (delta_new tx) (inserted s tx) Hfresh eq_refl) as HP.
  assert (output_notes_d (delta_new tx) ## dom (output_notes s)) as Hout.
  { intros n Hn1%elem_of_list_to_set Hn2%elem_of_dom. rewrite (adm_outputs _ _ Hadm n Hn1) in Hn2.
    by destruct Hn2. }
  split.
  - rewrite HP. apply partitions_cons; [|done].
    intros n Hn1%elem_of_list_to_set Hn2. by apply (adm_nullifiers _ _ Hadm n).
  - rewrite HP. change (dom (output_notes (inserted s tx))) with
      (dom (set_keys (output_notes_d (delta_new tx)) (Inflight (tx_id tx)) (output_notes s))).
    rewrite dom_set_keys_union. by apply partitions_cons.
  - intros t d n Hd Hn'. cbn in Hd |- *. rewrite lookup_set_keys.
    apply lookup_insert_Some in Hd as [[<- <-]|[Hne' Hd]]; [by rewrite decide_True|].
    rewrite decide_False; [eauto|]. intros Hx. apply (Hout n Hx), elem_of_dom. eauto.
  - intros d n Hd Hn'. cbn. rewrite lookup_set_keys, decide_False; [eauto|].
    intros Hx. apply (Hout n Hx), elem_of_dom. eauto.
  - intros id a. cbn. intros [[_ <-]|[_ Ha]]%lookup_insert_Some; [|eauto].
    cbn. intros Hnil%(f_equal length). rewrite length_app in Hnil. cbn in Hnil. lia.
  - intros id. rewrite HP, on_account_cons. specialize (Hl id). unfold acct_states in *.
    rewrite acct_inserted. change (account (delta_new tx)) with (account_id tx).
    destruct (decide (id = account_id tx)) as [->|Hid].
    + rewrite decide_True by done. cbn. rewrite length_app. cbn. lia.
    + rewrite decide_False by done. cbn. lia.
  - intros id. rewrite <- Hk. unfold acct_committed. rewrite acct_inserted. by case_decide.
Qed.

Lemma iinv_inserted s tx :
  iinv s → transaction_deltas s !! tx_id tx = None → admissible s tx → iinv (inserted s tx).
Proof.
  intros Hinv Hfresh Hadm. pose proof (i_books _ Hinv) as Hbooks.
  assert (tx_id tx ∉ (segment s (account_id tx)).*2) as Hnew.
  { intros (d & Hd & _)%(i_segment _ Hinv). congruence. }
  split; [by apply linv_inserted| | |apply (i_tip _ Hinv)|apply (i_retained _ Hinv)|apply (i_width _ Hinv)].
  - intros id. rewrite (segment_inserted _ _ _ _ Hbooks). pose proof (i_nodup _ Hinv id) as Hnd.
    case_decide; [|done]. subst. rewrite fmap_app. apply NoDup_app. split; [done|]. cbn.
    split; [set_solver|apply NoDup_singleton].
  - intros id t. rewrite (segment_inserted _ _ _ _ Hbooks). pose proof (i_segment _ Hinv id t) as Hs.
    cbn. case_decide as Hid.
    + subst. rewrite fmap_app, elem_of_app, Hs. cbn. rewrite list_elem_of_singleton. split.
      * intros [(d & Hd & Ha)| ->]; [|exists (delta_new tx); by rewrite lookup_insert_eq].
        exists d. rewrite lookup_insert_ne by congruence. done.
      * intros (d & [[<- <-]|[Hne Hd]]%lookup_insert_Some & Ha); [by right|left; eauto].
    + rewrite Hs. split; intros (d & Hd & Ha); exists d; split; try done.
      * rewrite lookup_insert_ne by congruence. done.
      * apply lookup_insert_Some in Hd as [[<- <-]|[_ Hd]]; [by destruct Hid|done].
Qed.

(** The uncommitted parents of a transaction: its account's last inflight
    transaction and the inflight creators of the notes it consumes. *)
Definition parent_of s tx (p : TransactionId) : Prop :=
  snd <$> last (segment s (account_id tx)) = Some p ∨
  ∃ n, n ∈ unauthenticated_notes tx ∧ output_notes s !! n = Some (Inflight p).

Lemma parent_inflight s tx p : iinv s → parent_of s tx p → is_Some (transaction_deltas s !! p).
Proof.
  intros Hinv [Hp|(n & _ & Hn)].
  - apply fmap_Some in Hp as ([c t] & Hlast & ->).
    apply last_Some_elem_of, (list_elem_of_fmap_2 snd), (i_segment _ Hinv) in Hlast as (d & Hd & _).
    eauto.
  - destruct (inflight_note_owner _ _ _ _ (i_books _ Hinv) Hn) as (d & Hd & _). eauto.
Qed.

Lemma elem_of_opt_list {A} (o : option A) x : x ∈ option_list o ↔ o = Some x.
Proof. destruct o; cbn; set_solver. Qed.

Lemma wp_insert_transaction {E} s tx :
  iinv s → admissible s tx →
  wp_ok (insert_transaction tx : M InflightState E _) s (λ s' parents,
    s' = inserted s tx ∧ ∀ p, p ∈ parents ↔ parent_of s tx p).
Proof.
  intros Hinv Hadm. pose proof (linv_committed_le _ _ (account_id tx) (i_books _ Hinv)) as Hle.
  unfold insert_transaction, account_entry. wp_steps.
  eapply wp_mono; [apply wp_account_insert; exact Hle| |done]. cbn beta.
  intros a p [-> ->]. wp_steps. set (s' := over_output_notes _ _).
  assert (s' = inserted s tx) as ->.
  { unfold s', inserted, over_output_notes. cbn. by rewrite foldl_set_keys. }
  split; [done|]. intros p.
  rewrite elem_of_list_to_set, elem_of_app, list_elem_of_omap. unfold parent_of. f_equiv.
  - unfold segment, acct_states, acct_committed, acct in *. cbn. rewrite elem_of_opt_list.
    case_decide as Hlen.
    + rewrite drop_ge by lia. done.
    + by rewrite last_drop by lia.
  - f_equiv. intros n. split; intros (Hn & Hp); (split; [done|]);
      assert (output_notes (inserted s tx) !! n = output_notes s !! n) as Heq.
    1,3: cbn; rewrite lookup_set_keys, decide_False; [done|];
      intros Hx%elem_of_list_to_set; destruct (adm_inputs _ _ Hadm n Hn) as [? Hin];
      by rewrite (adm_outputs _ _ Hadm n Hx) in Hin.
    + rewrite Heq in Hp. destruct (output_notes s !! n) as [[]|]; naive_solver.
    + by rewrite Heq, Hp.
Qed.

Lemma wp_add_transaction s tx :
  iinv s →
  wp (add_transaction tx) s (λ s' parents,
    admissible s tx ∧ s' = inserted s tx ∧ ∀ p, p ∈ parents ↔ parent_of s tx p)
    (λ s' e, s' = s ∧ rejection s tx e).
Proof.
  intros Hinv. unfold add_transaction. wp_steps.
  eapply wp_mono; [by apply wp_verify_transaction| |done]. cbn beta. intros s' [] [-> Hadm].
  eapply wp_mono; [by apply wp_insert_transaction|naive_solver|done].
Qed.

(** ** Counting the transactions of an account *)

Lemma filter_fmap_snd_length (P : Delta → Prop) `{!∀ d, Decision (P d)} (l : list (TransactionId * Delta)) :
  length (filter P l.*2) = length (filter (λ kd, P kd.2) l).
Proof.
  induction l as [|[k d] l IH]; [done|]. rewrite fmap_cons, !filter_cons.
  change ((k, d).2) with d. case_decide; rewrite ?length_cons; by rewrite IH.
Qed.

(** The members of a duplicate-free list are all the deltas on an account. *)
Lemma on_account_members id (m : gmap TransactionId Delta) (l : list TransactionId) :
  NoDup l → (∀ t, t ∈ l ↔ ∃ d, m !! t = Some d ∧ account d = id) →
  on_account id (map_to_list m).*2 = length l.
Proof.
  intros Hnd Hl. unfold on_account. rewrite filter_fmap_snd_length.
  set (L := filter (λ kd, account kd.2 = id) (map_to_list m)).
  rewrite <- (length_fmap fst L). apply Permutation_length, NoDup_Permutation; [|done|].
  - unfold L. assert (Hfst : NoDup (map_to_list m).*1) by apply NoDup_fst_map_to_list.
    eapply sublist_NoDup; [exact Hfst|]. apply fmap_sublist, sublist_filter.
  - intros t. rewrite Hl, list_elem_of_fmap. unfold L. setoid_rewrite list_elem_of_filter. split.
    + intros ([t' d] & -> & Ha & Hd%elem_of_map_to_list). eauto.
    + intros (d & Hd & Ha). exists (t, d). split_and!; [done..|]. by apply elem_of_map_to_list.
Qed.

(** A transaction is kept unless it is one of [txs]. *)
Definition outside (txs : gset TransactionId) (x : Digest * TransactionId) : Prop := x.2 ∉ txs.

#[local] Instance outside_dec txs x : Decision (outside txs x).
Proof. unfold outside. apply _. Defined.

Lemma elem_of_segment_outside s txs id t :
  iinv s →
  t ∈ (filter (outside txs) (segment s id)).*2 ↔
  ∃ d, del_keys txs (transaction_deltas s) !! t = Some d ∧ account d = id.
Proof.
  intros Hinv. rewrite list_elem_of_fmap. setoid_rewrite list_elem_of_filter.
  setoid_rewrite lookup_del_keys. split.
  - intros ([c t'] & -> & Hout & Hin). unfold outside in Hout. cbn in *. rewrite decide_False by done.
    apply (i_segment _ Hinv). by apply (list_elem_of_fmap_2 snd) in Hin.
  - intros (d & Hd & Ha). case_decide; [done|].
    assert (t ∈ (segment s id).*2) as ([c t'] & -> & Hin)%list_elem_of_fmap by (apply i_segment; eauto).
    by exists (c, t').
Qed.

Lemma NoDup_segment_outside s txs id :
  iinv s → NoDup (filter (outside txs) (segment s id)).*2.
Proof.
  intros Hinv. eapply sublist_NoDup; [apply (i_nodup _ Hinv id)|]. apply fmap_sublist, sublist_filter.
Qed.

(** The number of uncommitted states is forced by the books. *)
Lemma length_segment_outside s s' cm txs id :
  iinv s → linv s' cm → transaction_deltas s' = del_keys txs (transaction_deltas s) →
  length (segment s' id) = length (filter (outside txs) (segment s id)).
Proof.
  intros Hinv Hinv' HD. unfold segment at 1. rewrite length_drop, (l_length _ _ Hinv'), (l_count _ _ Hinv').
  unfold deltas_of. rewrite HD.
  rewrite (on_account_members id _ (filter (outside txs) (segment s id)).*2).
  - rewrite length_fmap. lia.
  - by apply NoDup_segment_outside.
  - intros t. by apply elem_of_segment_outside.
Qed.

(** The invariant follows from the books and the segments. *)
Lemma iinv_removed s s' txs :
  iinv s → linv s' (committed_deltas s') →
  transaction_deltas s' = del_keys txs (transaction_deltas s) →
  (∀ id, segment s' id = filter (outside txs) (segment s id)) →
  num_retained_blocks s' = num_retained_blocks s →
  (N.of_nat (length (committed_blocks s')) ≤ chain_tip s')%N →
  length (committed_blocks s') ≤ num_retained_blocks s →
  iinv s'.
Proof.
  intros Hinv Hbooks HD Hseg Hret Htip Hlen. split; [done| | |done|by rewrite Hret|].
  - intros id. rewrite Hseg. by apply NoDup_segment_outside.
  - intros id t. rewrite Hseg, HD. by apply elem_of_segment_outside.
  - rewrite Hret. apply (i_width _ Hinv).
Qed.

(** ** Reverting *)

(** A set of transactions that has, with a transaction, all those after it in the
    order [R] of their account. *)
Definition upward (R : relation (Digest * TransactionId)) (txs : gset TransactionId) s : Prop :=
  ∀ id, Sorted R (segment s id) ∧
    ∀ x y, x ∈ segment s id → y ∈ segment s id → R x y → x.2 ∈ txs → y.2 ∈ txs.

Definition downward (R : relation (Digest * TransactionId)) (txs : gset TransactionId) s : Prop :=
  ∀ id, Sorted R (segment s id) ∧
    ∀ x y, x ∈ segment s id → y ∈ segment s id → R x y → y.2 ∈ txs → x.2 ∈ txs.

Lemma segment_reverted R s s' cm txs id :
  iinv s → linv s' cm → upward R txs s →
  transaction_deltas s' = del_keys txs (transaction_deltas s) →
  acct_committed s' id = acct_committed s id →
  acct_states s' id `prefix_of` acct_states s id →
  segment s' id = filter (outside txs) (segment s id).
Proof.
  intros Hinv Hinv' Hup HD Hcom [k Hpre]. destruct (Hup id) as [Hs Hclosed].
  pose proof (length_segment_outside _ _ _ _ id Hinv Hinv' HD) as Hlen.
  pose proof (sorted_filter_split R (λ x, x.2 ∈ txs) (segment s id) Hs Hclosed) as Hsplit.
  assert (segment s id = segment s' id ++ k) as Hpre'.
  { unfold segment. rewrite Hpre, Hcom, drop_app_le; [done|].
    rewrite <- Hcom. by eapply linv_committed_le. }
  rewrite Hpre' in Hsplit at 1. apply app_inj_1 in Hsplit as [? _]; [done|]. exact Hlen.
Qed.

Lemma wp_revert_rest {E} R s txs :
  iinv s → upward R txs s → txs ⊆ dom (transaction_deltas s) →
  wp_ok (revert_transactions txs : M InflightState E unit) s (λ s' _,
    iinv s' ∧ transaction_deltas s' = del_keys txs (transaction_deltas s) ∧ same_frame s s' ∧
    ∀ id, segment s' id = filter (outside txs) (segment s id)).
Proof.
  intros Hinv Hup Htxs.
  eapply wp_mono; [apply wp_revert_transactions; [exact (i_books _ Hinv)|done]| |done]. cbn beta.
  intros s' [] (Hbooks & HD & HF & HP).
  assert (∀ id, segment s' id = filter (outside txs) (segment s id)) as Hseg.
  { intros id. eapply segment_reverted; [done..| |apply HP].
    by rewrite (l_count _ _ Hbooks), (l_count _ _ (i_books _ Hinv)). }
  split_and!; [|done..]. pose proof HF as (HB & HR & HT & _).
  apply (iinv_removed s _ txs); [done| |done..| |].
  - unfold committed_deltas. by rewrite HB.
  - rewrite HB, HT. apply (i_tip _ Hinv).
  - rewrite HB. apply (i_retained _ Hinv).
Qed.

(** The books, the deltas and the account states determine the state. *)
Lemma notes_determined s1 s2 cm n st :
  linv s1 cm → linv s2 cm → transaction_deltas s1 = transaction_deltas s2 →
  output_notes s1 !! n = Some st → output_notes s2 !! n = Some st.
Proof.
  intros H1' H2' HD Hn. assert (n ∈ dom (output_notes s1)) as Hdom by (apply elem_of_dom; eauto).
  apply (partitions_elem _ _ _ (l_notes _ _ H1')) in Hdom as (X & HX & Hin).
  apply list_elem_of_fmap in HX as (d & -> & Hd). apply elem_of_app in Hd as [Hd|Hd].
  - apply list_elem_of_fmap in Hd as ([t' d'] & -> & Hd). apply elem_of_map_to_list in Hd. cbn in *.
    pose proof (l_inflight _ _ H1' _ _ _ Hd Hin). rewrite HD in Hd.
    pose proof (l_inflight _ _ H2' _ _ _ Hd Hin). congruence.
  - pose proof (l_committed _ _ H1' _ _ Hd Hin). pose proof (l_committed _ _ H2' _ _ Hd Hin). congruence.
Qed.

Lemma accounts_determined s1 s2 cm id a :
  linv s1 cm → linv s2 cm → (∀ id, acct_states s1 id = acct_states s2 id) →
  accounts s1 !! id = Some a → accounts s2 !! id = Some a.
Proof.
  intros H1' H2' HS Ha. pose proof (l_nonempty _ _ H1' _ _ Ha) as Hne. specialize (HS id).
  pose proof (l_count _ _ H1' id) as HC. rewrite <- (l_count _ _ H2' id) in HC.
  unfold acct_states, acct_committed, acct in *. rewrite Ha in HS, HC. cbn in *.
  destruct (accounts s2 !! id) as [a'|]; cbn in *; [|done]. destruct a, a'; cbn in *. by subst.
Qed.

Lemma linv_unique s1 s2 cm :
  linv s1 cm → linv s2 cm → transaction_deltas s1 = transaction_deltas s2 →
  (∀ id, acct_states s1 id = acct_states s2 id) → same_frame s1 s2 → s1 = s2.
Proof.
  intros H1' H2' HD HS (F1 & F2 & F3 & F4).
  assert (nullifiers s1 = nullifiers s2) as HN.
  { apply set_eq. intros n. rewrite (partitions_elem _ _ _ (l_nullifiers _ _ H1')).
    rewrite (partitions_elem _ _ _ (l_nullifiers _ _ H2')). unfold deltas_of. by rewrite HD. }
  assert (output_notes s1 = output_notes s2) as HO.
  { apply map_eq. intros n. apply option_eq. intros st. split; by apply (notes_determined _ _ cm). }
  assert (accounts s1 = accounts s2) as HA.
  { apply map_eq. intros id. apply option_eq. intros a. split; apply (accounts_determined _ _ cm); done. }
  destruct s1, s2; cbn in *. congruence.
Qed.

(** Reverting a transaction just inserted gives back the state exactly. *)
Lemma wp_revert_inserted {E} s tx :
  iinv s → transaction_deltas s !! tx_id tx = None → admissible s tx →
  wp_ok (revert_transactions {[tx_id tx]} : M InflightState E unit) (inserted s tx) (λ s' _, s' = s).
Proof.
  intros Hinv Hfresh Hadm. pose proof (linv_inserted _ _ _ (i_books _ Hinv) Hfresh Hadm) as Hbooks.
  eapply wp_mono; [apply (wp_revert_transactions _ _ _ Hbooks)| |done].
  { intros t ->%elem_of_singleton. apply elem_of_dom. cbn. rewrite lookup_insert_eq. eauto. }
  cbn beta. intros s' [] (Hbooks' & HD & HF & HP).
  assert (transaction_deltas s' = transaction_deltas s) as HD'.
  { rewrite HD. cbn. apply map_eq. intros t. rewrite lookup_del_keys, lookup_insert.
    repeat case_decide; try set_solver; congruence. }
  apply (linv_unique _ _ (committed_deltas s)); [done|exact (i_books _ Hinv)|done| |].
  - intros id. pose proof (HP id) as [k Hk]. pose proof (l_length _ _ Hbooks' id) as Hlen.
    unfold deltas_of in Hlen. rewrite HD' in Hlen. fold (deltas_of s) in Hlen.
    rewrite <- (l_length _ _ (i_books _ Hinv) id) in Hlen.
    unfold acct_states in *. rewrite acct_inserted in Hk. case_decide as Hid.
    + cbn in Hk. apply app_inj_1 in Hk as [Hk _]; [by symmetry|]. lia.
    + rewrite <- (app_nil_r (AccountState.states (acct s id))) in Hk.
      apply app_inj_1 in Hk as [Hk _]; [by symmetry|]. lia.
  - destruct HF as (F1 & F2 & F3 & F4). by repeat split.
Qed.

(** ** Committing *)

Lemma linv_perm s cm cm' : cm ≡ₚ cm' → linv s cm → linv s cm'.
Proof.
  intros HP [Hn Ho Hi Hc Hne Hl Hk]. split; [by rewrite <- HP|by rewrite <- HP|done| |done| |].
  - intros d n. rewrite <- HP. apply Hc.
  - intros id. by rewrite <- HP.
  - intros id. by rewrite <- HP.
Qed.

Lemma bm_values_perm {K V} `{!Key K} (m : gmap K V) : bm_values m ≡ₚ (map_to_list m).*2.
Proof.
  unfold bm_values, bm_keys. rewrite bt_iter_perm.
  induction m as [|k v m Hk IH] using map_ind.
  { by rewrite dom_empty_L, elements_empty, map_to_list_empty. }
  rewrite dom_insert_L, elements_disj_union, elements_singleton
    by (apply disjoint_singleton_l; by apply not_elem_of_dom).
  rewrite map_to_list_insert by done. cbn. rewrite lookup_insert_eq. cbn. f_equiv. rewrite <- IH.
  apply reflexive_eq. assert (Forall (λ k', k' ≠ k) (elements (dom m))) as HF.
  { apply Forall_forall. intros k' Hk'%elem_of_elements%elem_of_dom ->. rewrite Hk in Hk'. by destruct Hk'. }
  clear IH. induction HF as [|k' l Hne _ IHl]; cbn; [done|]. by rewrite lookup_insert_ne, IHl by done.
Qed.

(** The deltas [commit_block] moves to the new block. *)
Definition block_of (txs : gset TransactionId) s : gmap TransactionId Delta :=
  filter (λ kd, kd.1 ∈ txs) (transaction_deltas s).

Lemma lookup_block_of txs s t :
  block_of txs s !! t = if decide (t ∈ txs) then transaction_deltas s !! t else None.
Proof.
  unfold block_of. case_decide as Ht.
  - destruct (transaction_deltas s !! t) as [d|] eqn:Hd.
    + by apply map_lookup_filter_Some.
    + apply map_lookup_filter_None. by left.
  - apply map_lookup_filter_None. right. intros d _. by cbn.
Qed.

Lemma block_of_snoc (txs : gset TransactionId) s t d :
  transaction_deltas s !! t = Some d → <[t := d]> (block_of txs s) = block_of (txs ∪ {[t]}) s.
Proof.
  intros Hd. apply map_eq. intros t'. rewrite lookup_insert, !lookup_block_of.
  repeat case_decide; subst; try done; set_solver.
Qed.

Lemma wp_commit_txs {E} s cm (txs : list TransactionId) :
  linv s cm → NoDup txs → (∀ t, t ∈ txs → t ∈ dom (transaction_deltas s)) →
  wp_ok (fold_m commit_one ∅ txs : M InflightState E _) s (λ s' block,
    block = block_of (list_to_set txs) s ∧ linv s' ((map_to_list block).*2 ++ cm) ∧
    transaction_deltas s' = del_keys (list_to_set txs) (transaction_deltas s) ∧ same_frame s s' ∧
    ∀ id, acct_states s' id = acct_states s id).
Proof.
  intros Hinv Hnd Htxs.
  apply (wp_fold_m_ok (λ pre s' block,
    block = block_of (list_to_set pre) s ∧ linv s' ((map_to_list block).*2 ++ cm) ∧
    transaction_deltas s' = del_keys (list_to_set pre) (transaction_deltas s) ∧ same_frame s s' ∧
    ∀ id, acct_states s' id = acct_states s id)).
  - assert (∅ = block_of (list_to_set []) s) as Hemp.
    { apply map_eq. intros t. rewrite lookup_block_of. by rewrite lookup_empty, decide_False by set_solver. }
    split_and!; [done|by rewrite map_to_list_empty|cbn; by rewrite del_keys_empty|done|done].
  - intros pre t rest s' block Hl (-> & Hinv' & HD & HF & HS). rewrite Hl in Hnd.
    apply NoDup_app in Hnd as (_ & Hx & _).
    assert (t ∉ (list_to_set pre : gset TransactionId)) as Hpre.
    { rewrite elem_of_list_to_set. intros Hin. apply (Hx _ Hin). by left. }
    assert (t ∈ dom (transaction_deltas s)) as [d Hd]%elem_of_dom by (apply Htxs; rewrite Hl; set_solver).
    assert (transaction_deltas s' !! t = Some d) as Hd'.
    { by rewrite HD, lookup_del_keys, decide_False. }
    eapply wp_mono; [apply (wp_commit_one _ ((map_to_list (block_of (list_to_set pre) s)).*2 ++ cm) t d); done| |done]. cbn beta.
    intros s'' block (-> & Hinv'' & HD' & HF' & HS'). split_and!.
    + rewrite block_of_snoc by done. f_equal. set_solver.
    + apply linv_perm with (2 := Hinv''). rewrite map_to_list_insert; [done|].
      by rewrite lookup_block_of, decide_False.
    + rewrite HD', HD, delete_del_keys. f_equal. set_solver.
    + unfold same_frame in *. naive_solver congruence.
    + intros id. by rewrite HS'.
  - done.
Qed.

Lemma suffix_same_length {A} (l l1 l2 : list A) :
  l1 `suffix_of` l → l2 `suffix_of` l → length l1 = length l2 → l1 = l2.
Proof. intros [k1 ->] [k2 Heq] Hlen. by apply app_inj_2 in Heq as [_ ?]. Qed.

Lemma segment_committed R s s' cm txs id :
  iinv s → linv s' cm → downward R txs s →
  transaction_deltas s' = del_keys txs (transaction_deltas s) →
  acct_states s' id = acct_states s id →
  segment s' id = filter (outside txs) (segment s id).
Proof.
  intros Hinv Hinv' Hdown HD HS. destruct (Hdown id) as [Hs Hclosed].
  pose proof (length_segment_outside _ _ _ _ id Hinv Hinv' HD) as Hlen.
  apply (suffix_same_length (acct_states s id)); [| |done].
  - unfold segment. rewrite HS. apply suffix_drop.
  - trans (segment s id); [|apply suffix_drop].
    rewrite (sorted_filter_split R (outside txs) (segment s id)) at 2; [apply suffix_app_r; done|done|].
    intros x y Hx Hy HR Hout Hin. by apply Hout, (Hclosed x y).
Qed.

Lemma wp_prune_deltas {E} (ds cm : list Delta) s :
  linv s (ds ++ cm) →
  wp_ok (for_each ds prune_delta : M InflightState E unit) s (λ s' _,
    linv s' cm ∧ transaction_deltas s' = transaction_deltas s ∧ same_frame s s' ∧
    ∀ id, segment s' id = segment s id).
Proof.
  revert s. induction ds as [|d ds IH]; intros s Hinv; cbn.
  { by rewrite wp_ret. }
  rewrite wp_bind. eapply wp_mono; [by apply (wp_prune_delta _ (ds ++ cm))| |done]. cbn beta.
  intros s' [] (Hinv' & HD & HF & HS). eapply wp_mono; [by apply IH| |done]. cbn beta.
  intros s'' [] (Hinv'' & HD' & HF' & HS'). split_and!; [done|congruence| |].
  - unfold same_frame in *. naive_solver congruence.
  - intros id. by rewrite HS'.
Qed.

Lemma linv_over_committed s cm f : linv s cm → linv (over_committed_blocks f s) cm.
Proof. by intros []. Qed.

(** The retained blocks after a new one is added. *)
Definition retained (n : nat) (bs : list (gmap TransactionId Delta)) : list (gmap TransactionId Delta) :=
  if decide (length bs ≤ n) then bs else tail bs.

Lemma length_retained n bs k :
  k ≤ n → length bs = S k → length (retained n bs) ≤ n ∧ length (retained n bs) ≤ S k.
Proof. intros Hk Hl. unfold retained. case_decide; [lia|]. destruct bs; cbn in *; lia. Qed.

Lemma wp_prune_block {E} s :
  linv s (committed_deltas s) →
  wp_ok (prune_block : M InflightState E unit) s (λ s' _,
    linv s' (committed_deltas s') ∧ transaction_deltas s' = transaction_deltas s ∧
    committed_blocks s' = retained (num_retained_blocks s) (committed_blocks s) ∧
    num_retained_blocks s' = num_retained_blocks s ∧ chain_tip s' = chain_tip s ∧
    expiration_slack s' = expiration_slack s ∧
    ∀ id, segment s' id = segment s id).
Proof.
  intros Hinv. unfold prune_block, retained. wp_steps. case_decide as Hlen; [by wp_steps|].
  destruct (committed_blocks s) as [|b bs] eqn:HB; [cbn in Hlen; lia|]. wp_steps.
  apply (wp_expect_some _ b); [done|]. wp_steps.
  assert (linv (over_committed_blocks tail s)
    (bm_values b ++ concat ((λ b, (map_to_list b).*2) <$> bs))) as Hinv'.
  { apply linv_over_committed. unfold committed_deltas in Hinv. rewrite HB in Hinv.
    apply linv_perm with (2 := Hinv). cbn. by rewrite bm_values_perm. }
  eapply wp_mono; [by apply wp_prune_deltas| |done]. cbn beta.
  intros s' [] (Hinv'' & HD & HF & HS). destruct HF as (HB' & HR & HT & HX). cbn in HB', HR, HT, HX, HD.
  rewrite HB in HB'. cbn in HB'. split_and!; try done. unfold committed_deltas. by rewrite HB'.
Qed.

Lemma wp_commit_rest {E} R s (txs : list TransactionId) :
  iinv s → NoDup txs → downward R (list_to_set txs) s →
  (∀ t, t ∈ txs → t ∈ dom (transaction_deltas s)) →
  wp_ok (commit_block txs : M InflightState E unit) s (λ s' _,
    iinv s' ∧ transaction_deltas s' = del_keys (list_to_set txs) (transaction_deltas s) ∧
    chain_tip s' = (chain_tip s + 1)%N ∧
    committed_blocks s' = retained (num_retained_blocks s)
      (committed_blocks s ++ [block_of (list_to_set txs) s]) ∧
    num_retained_blocks s' = num_retained_blocks s ∧ expiration_slack s' = expiration_slack s ∧
    ∀ id, segment s' id = filter (outside (list_to_set txs)) (segment s id)).
Proof.
  intros Hinv Hnd Hdown Htxs. unfold commit_block. wp_steps.
  eapply wp_mono; [by apply (wp_commit_txs _ _ _ (i_books _ Hinv))| |done]. cbn beta.
  intros s1 block (-> & Hinv1 & HD1 & HF1 & HS1). wp_steps.
  pose proof HF1 as (HB1 & HR1 & HT1 & HX1).
  set (s2 := over_committed_blocks _ s1).
  assert (linv s2 (committed_deltas s2)) as Hinv2.
  { unfold s2. apply linv_over_committed. apply linv_perm with (2 := Hinv1).
    unfold committed_deltas. cbn. rewrite HB1, fmap_app, concat_app. cbn. rewrite app_nil_r. apply Permutation_app_comm. }
  assert (∀ id, segment s2 id = filter (outside (list_to_set txs)) (segment s id)) as Hseg.
  { intros id. apply (segment_committed R s s2 (committed_deltas s2)); [done..|]. apply HS1. }
  eapply wp_mono; [by apply wp_prune_block| |done]. cbn beta.
  intros s3 [] (Hinv3 & HD3 & HB3 & HR3 & HT3 & HX3 & HS3). wp_steps.
  cbn in HD3, HB3, HR3, HT3, HX3. rewrite HB1, HR1 in HB3.
  assert (length (committed_blocks s3) ≤ num_retained_blocks s ∧
    length (committed_blocks s3) ≤ S (length (committed_blocks s))) as [Hlen Hlen'].
  { pose proof (i_retained _ Hinv). rewrite HB3. apply length_retained; [done|].
    rewrite length_app. cbn. lia. }
  pose proof (i_tip _ Hinv) as Htip. split_and!; cbn.
  - apply (iinv_removed s _ (list_to_set txs)); cbn; [done|by destruct Hinv3|by rewrite HD3| |by rewrite HR3| |done].
    + intros id. rewrite <- Hseg. exact (HS3 id).
    + rewrite bn_child_spec, HT3, HT1. lia.
  - by rewrite HD3.
  - by rewrite bn_child_spec, HT3, HT1.
  - done.
  - by rewrite HR3.
  - by rewrite HX3.
  - intros id. rewrite <- Hseg. exact (HS3 id).
Qed.

End ops.
