(* ===== verification/BatchGraphProofs.v ===== *)
(** * Correctness of the batch graph

    The two maps of [BatchGraph] are inverse of each other and agree with the
    inner graph; each method is specified on this invariant. *)

From S2P Require Import Prelude.
From S2P Require Import Graph.
From S2P Require Import GraphProofs.
From S2P Require Import GraphRemoval.
From S2P Require Import GraphTheorems.
From S2P Require Import TransactionGraphProofs.
From S2P Require Import External.
From S2P Require Import Transaction.
From S2P Require Import BatchGraph.
Import GraphSpec BatchGraph.

Section batchgraph.
Context `{!MidenObjects} `{!MidenLaws}.
Implicit Types (b : BatchGraph) (id : BatchId) (t : TransactionId).
Implicit Types (a : agraph BatchId ProvenBatch).

Record binv b a : Prop := {
  b_rep : rep (inner b) a;
  b_dom : ∀ id, is_Some (batches b !! id) ↔ is_Some (a !! id);
  b_txs : ∀ t id, transactions b !! t = Some id ↔ ∃ l, batches b !! id = Some l ∧ t ∈ l;
  b_list : ∀ id l, batches b !! id = Some l → NoDup l ∧ l ≠ [];
  b_ids : ∀ id l, batches b !! id = Some l → ∃ txs, id = batch_id_from_ids txs ∧ txs.*1 = l;
  b_key : ∀ id n v, a !! id = Some n → node_value n = Some v → batch_id v = id;
}.

Lemma binv_default : binv default_batch_graph ∅.
Proof.
  split; cbn.
  - apply rep_default.
  - intros id. by rewrite !lookup_empty.
  - intros t id. rewrite lookup_empty. split; [done|]. intros (l & Hl & _). by rewrite lookup_empty in Hl.
  - intros id l Hl. by rewrite lookup_empty in Hl.
  - intros id l Hl. by rewrite lookup_empty in Hl.
  - intros id n v Hn. by rewrite lookup_empty in Hn.
Qed.

(** Two batches share no transaction. *)
Lemma binv_disjoint b a t id id' l l' :
  binv b a → batches b !! id = Some l → batches b !! id' = Some l' → t ∈ l → t ∈ l' → id = id'.
Proof.
  intros Hinv Hl Hl' Ht Ht'.
  assert (transactions b !! t = Some id) by (apply (b_txs _ _ Hinv); eauto).
  assert (transactions b !! t = Some id') by (apply (b_txs _ _ Hinv); eauto). congruence.
Qed.

(** ** [insert] *)

(** The batches that hold the parents outside the new batch. *)
Definition parent_batches b (ids : list TransactionId) (parents : gset TransactionId)
    (pb : gset BatchId) : Prop :=
  ∀ id, id ∈ pb ↔ ∃ p, p ∈ parents ∧ p ∉ ids ∧ transactions b !! p = Some id.

Lemma wp_parent_batches b (ps : gset TransactionId) :
  (∀ p, p ∈ ps → is_Some (transactions b !! p)) →
  wp_ok (fold_m (λ acc tx,
    match transactions b !! tx with
    | Some parent => mret ({[parent]} ∪ acc)
    | None => throw (UnknownParentTransaction tx)
    end) ∅ (bt_iter ps) : M BatchGraph BatchInsertError (gset BatchId)) b (λ b' pb, b' = b ∧
      ∀ id, id ∈ pb ↔ ∃ p, p ∈ ps ∧ transactions b !! p = Some id).
Proof.
  intros Hps. apply (wp_fold_m_ok (λ pre b' pb, b' = b ∧
      ∀ id, id ∈ pb ↔ ∃ p, p ∈ pre ∧ transactions b !! p = Some id)).
  - split; [done|]. set_solver.
  - intros pre p rest b' pb Hl [-> Hpb]. destruct (Hps p) as [id Hid].
    { apply elem_of_bt_iter. rewrite Hl. set_solver. }
    rewrite Hid. wp_steps. split; [done|]. intros id'. rewrite elem_of_union, Hpb, elem_of_singleton.
    setoid_rewrite elem_of_app. setoid_rewrite list_elem_of_singleton. naive_solver.
  - intros b' pb [-> Hpb]. split; [done|]. intros id. rewrite Hpb. by setoid_rewrite elem_of_bt_iter.
Qed.

Lemma lookup_foldl_insert {K V} `{!Key K} (l : list K) (v : V) (m : gmap K V) k :
  foldl (λ m x, <[x := v]> m) m l !! k = if decide (k ∈ l) then Some v else m !! k.
Proof.
  revert m. induction l as [|x l IH]; intros m; cbn; [by rewrite decide_False by set_solver|].
  rewrite IH, lookup_insert. repeat case_decide; try done; set_solver.
Qed.

Lemma binv_fresh b a txs :
  binv b a → txs ≠ [] → (∀ t, t ∈ txs.*1 → transactions b !! t = None) →
  a !! batch_id_from_ids txs = None.
Proof.
  intros Hinv Hne Hfresh. apply eq_None_not_Some. intros [l Hl]%(b_dom _ _ Hinv).
  destruct (b_ids _ _ Hinv _ _ Hl) as (txs' & Heq%batch_id_inj & <-). subst txs'.
  destruct txs as [|[t ac] txs]; [done|]. assert (transactions b !! t = None) as Hno by (apply Hfresh; left).
  assert (transactions b !! t = Some (batch_id_from_ids ((t, ac) :: txs))) by
    (apply (b_txs _ _ Hinv); eexists; split; [done|left]). congruence.
Qed.

(** The batch graph after the insertion of [txs] with parent batches [pb]. *)
Record batch_inserted b a (txs : list (TransactionId * AccountId)) (pb : gset BatchId) b' : Prop := {
  bi_inv : binv b' (a_insert (batch_id_from_ids txs) pb a);
  bi_fresh : a !! batch_id_from_ids txs = None;
  bi_batches : batches b' = <[batch_id_from_ids txs := txs.*1]> (batches b);
  bi_txs : ∀ t, transactions b' !! t =
    if decide (t ∈ txs.*1) then Some (batch_id_from_ids txs) else transactions b !! t;
  bi_parents : ∀ id, id ∈ pb → is_Some (a !! id);
}.

Lemma binv_inserted b a txs pb g :
  binv b a → txs ≠ [] → NoDup txs.*1 → (∀ t, t ∈ txs.*1 → transactions b !! t = None) →
  rep g (a_insert (batch_id_from_ids txs) pb a) →
  (∀ id, id ∈ pb → is_Some (a !! id)) →
  batch_inserted b a txs pb (mk_batch_graph g
    (foldl (λ m t, <[t := batch_id_from_ids txs]> m) (transactions b) txs.*1)
    (<[batch_id_from_ids txs := txs.*1]> (batches b))).
Proof.
  intros Hinv Hne Hnd Hfresh Hrep Hpb.
  assert (a !! batch_id_from_ids txs = None) as Hnew by (by eapply binv_fresh).
  set (id := batch_id_from_ids txs) in *. split; [|done..| |done].
  2: { intros t. cbn. by rewrite lookup_foldl_insert. }
  assert (batches b !! id = None) as Hnob.
  { apply eq_None_not_Some. intros [l Hl]%(b_dom _ _ Hinv). congruence. }
  split; cbn; [done| | | | |].
  - intros id'. fold id. unfold a_insert. rewrite !lookup_insert.
    case_decide; [split; eauto|apply (b_dom _ _ Hinv)].
  - intros t id'. rewrite lookup_foldl_insert, lookup_insert. case_decide as Ht; case_decide as Hid; subst.
    + split; [|done]. intros _. eauto.
    + split; [naive_solver|]. intros (l & Hl & Hin).
      assert (transactions b !! t = Some id') as Hold by (apply (b_txs _ _ Hinv); eauto).
      by rewrite (Hfresh _ Ht) in Hold.
    + split; [|naive_solver]. intros (l & Hl & _)%(b_txs _ _ Hinv). congruence.
    + apply (b_txs _ _ Hinv).
  - intros id' l [[<- <-]|[_ Hl]]%lookup_insert_Some; [|by apply (b_list _ _ Hinv id')].
    split; [done|]. by destruct txs.
  - intros id' l [[<- <-]|[_ Hl]]%lookup_insert_Some; [by exists txs|by apply (b_ids _ _ Hinv)].
  - intros id' n v. unfold a_insert.
    intros [[<- <-]|[_ Hn]]%lookup_insert_Some; [done|by apply (b_key _ _ Hinv)].
Qed.

Lemma wp_batch_insert b a txs (parents : gset TransactionId) :
  binv b a → txs ≠ [] → NoDup txs.*1 → (∀ t, t ∈ txs.*1 → transactions b !! t = None) →
  (∀ p, p ∈ parents → p ∈ txs.*1 ∨ is_Some (transactions b !! p)) →
  wp_ok (insert txs parents) b (λ b' id, id = batch_id_from_ids txs ∧
    ∃ pb, parent_batches b txs.*1 parents pb ∧ batch_inserted b a txs pb b').
Proof.
  intros Hinv Hne Hnd Hfresh Hpar. unfold insert. wp_steps.
  destruct (decide (list_to_set _ ≠ ∅)) as [Hdup|_].
  { exfalso. apply Hdup. apply set_eq. intros t. rewrite elem_of_list_to_set, list_elem_of_filter.
    split; [|set_solver]. intros [[? Hold] Ht]. by rewrite (Hfresh _ Ht) in Hold. }
  wp_steps. eapply wp_mono; [apply wp_parent_batches| |done].
  { intros p [Hp Hno]%elem_of_difference. destruct (Hpar p Hp) as [?|?]; [|done].
    destruct Hno. by apply elem_of_list_to_set. }
  cbn. intros b' pb [-> Hpb]. wp_steps.
  assert (parent_batches b txs.*1 parents pb) as HP.
  { intros id. rewrite Hpb. setoid_rewrite elem_of_difference. setoid_rewrite elem_of_list_to_set. naive_solver. }
  assert (∀ id, id ∈ pb → is_Some (a !! id)) as Hpb'.
  { intros id (p & _ & _ & Hp)%HP. apply (b_txs _ _ Hinv) in Hp as (l & Hl & _).
    apply (b_dom _ _ Hinv). eauto. }
  unfold on_inner. wp_steps.
  eapply wp_mono; [apply wp_insert_pending; exact (b_rep _ _ Hinv)| |].
  2: { cbn. intros g e [_ [(_ & Hs)|(_ & ms & _ & Hms & Hin)]].
       - rewrite (binv_fresh b a txs) in Hs by done. by destruct Hs.
       - apply set_choose_L in Hms as [id Hid]. apply Hin in Hid as [Hid Hno].
         apply Hpb' in Hid as [? ?]. congruence. }
  cbn. intros g [] [Hrep _]. wp_steps. rewrite wp_for_each_modify. wp_steps.
  rewrite (foldl_over over_transactions (λ x m, <[x := batch_id_from_ids txs]> m)) by (done || by intros []).
  split; [done|]. exists pb. split; [done|]. by apply (binv_inserted b a txs pb g).
Qed.

(** ** Removal *)

(** The transactions of the batches [R]. *)
Definition members b (R : gset BatchId) (txs : gset TransactionId) : Prop :=
  ∀ t, t ∈ txs ↔ ∃ id, id ∈ R ∧ transactions b !! t = Some id.

(** The batch graph without the batches [R]. *)
Definition without b (R : gset BatchId) g b' : Prop :=
  inner b' = g ∧ batches b' = del_keys R (batches b) ∧
  ∀ t, transactions b' !! t =
    match transactions b !! t with
    | Some id => if decide (id ∈ R) then None else Some id
    | None => None
    end.

Lemma binv_without b a R g b' :
  binv b a → rep g (a_remove R a) → without b R g b' → binv b' (a_remove R a).
Proof.
  intros Hinv Hrep (Hg & HB & HT). split; [by rewrite Hg|..].
  - intros id. rewrite HB, lookup_del_keys, a_remove_Some. case_decide.
    + split; [by intros []|naive_solver].
    + rewrite (b_dom _ _ Hinv). naive_solver.
  - intros t id. rewrite HT, HB, lookup_del_keys. split.
    + destruct (transactions b !! t) as [id'|] eqn:Ht; [|done]. case_decide; [done|]. intros [= <-].
      rewrite decide_False by done. by apply (b_txs _ _ Hinv).
    + intros (l & Hl & Hin). case_decide; [done|].
      assert (transactions b !! t = Some id) as -> by (apply (b_txs _ _ Hinv); eauto).
      by rewrite decide_False.
  - intros id l. rewrite HB, lookup_del_keys. case_decide; [done|]. apply (b_list _ _ Hinv).
  - intros id l. rewrite HB, lookup_del_keys. case_decide; [done|]. apply (b_ids _ _ Hinv).
  - intros id n v. rewrite a_remove_lookup. case_decide; [done|].
    intros ([st ps] & Hn & ->)%fmap_Some Hv. by eapply (b_key _ _ Hinv).
Qed.

(** Deleting the transactions of the batches [R] one by one. *)
Lemma lookup_delete_members b a (R : gset BatchId) (l : list TransactionId) t :
  binv b a → (∀ t, t ∈ l ↔ ∃ id, id ∈ R ∧ transactions b !! t = Some id) →
  foldl (λ m t, delete t m) (transactions b) l !! t =
    match transactions b !! t with
    | Some id => if decide (id ∈ R) then None else Some id
    | None => None
    end.
Proof.
  intros Hinv Hl. rewrite foldl_delete, lookup_del_keys. case_decide as Ht.
  - apply elem_of_list_to_set, Hl in Ht as (id & Hid & ->). by rewrite decide_True.
  - destruct (transactions b !! t) as [id|] eqn:Hid; [|done]. case_decide; [|done].
    destruct Ht. apply elem_of_list_to_set, Hl. eauto.
Qed.

Lemma on_inner_ok {E A} (m : M (Graph.DependencyGraph BatchId ProvenBatch) E A) b Q X :
  wp m (inner b) (λ g r, Q (mk_batch_graph g (transactions b) (batches b)) r)
    (λ g e, X (mk_batch_graph g (transactions b) (batches b)) e) →
  wp (on_inner m) b Q X.
Proof. unfold on_inner. by rewrite wp_zoom. Qed.

Lemma wp_remove_batches b a (ids : gset BatchId) (Q : _ → gmap BatchId (list TransactionId) → Prop) X :
  binv b a → (∀ id, id ∈ ids → is_Some (a !! id)) →
  (∀ b' R removed, closure a ids R → binv b' (a_remove R a) → without b R (inner b') b' →
    (∀ id, removed !! id = if decide (id ∈ R) then batches b !! id else None) → Q b' removed) →
  wp (remove_batches ids) b Q X.
Proof.
  intros Hinv Hids HQ. unfold remove_batches. wp_steps. apply on_inner_ok.
  eapply wp_mono; [apply wp_purge_subgraphs; exact (b_rep _ _ Hinv)| |].
  2: { cbn. intros g e (_ & ks & _ & Hne & Hks). apply set_choose_L in Hne as [id Hid].
       apply Hks in Hid as [Hid Hno]. destruct (Hids _ Hid). congruence. }
  cbn. intros g R (HR & Hrep & _). wp_steps.
  assert (∀ id, id ∈ R → is_Some (batches b !! id)) as HRb.
  { intros id (k & Hk & Hrtc)%HR. apply (b_dom _ _ Hinv).
    apply rtc_inv_r in Hrtc as [<-|(y & _ & (n & Hn & _))]; [by apply Hids|eauto]. }
  eapply wp_mono with (X := λ _ _, False); [|intros b1 removed|done].
  { apply (wp_fold_m_ok (λ pre b' removed,
      b' = mk_batch_graph g (transactions b) (del_keys (list_to_set pre) (batches b)) ∧
      ∀ id, removed !! id = if decide (id ∈ pre) then batches b !! id else None)).
    - split; [cbn; by rewrite del_keys_empty|]. intros id. by rewrite lookup_empty, decide_False by set_solver.
    - intros pre id rest b' removed Hl [-> Hrem]. wp_steps.
      pose proof (NoDup_bt_iter R) as Hnd. rewrite Hl in Hnd. apply NoDup_app in Hnd as (_ & Hx & _).
      destruct (HRb id) as [l Hlb]; [apply elem_of_bt_iter; rewrite Hl; set_solver|].
      apply (wp_expect_some _ l).
      { cbn. rewrite lookup_del_keys, decide_False; [done|]. rewrite elem_of_list_to_set.
        intros Hin. apply (Hx _ Hin). by left. }
      wp_steps. split.
      + unfold over_batches. cbn. rewrite delete_del_keys. f_equal. f_equal. set_solver.
      + intros id'. rewrite lookup_insert, Hrem. repeat case_decide; subst; try done; set_solver.
    - intros b' removed H1. exact H1. }
  cbn. intros [-> Hrem]. wp_steps. rewrite wp_for_each_modify. wp_steps.
  rewrite (foldl_over over_transactions (λ x m, delete x m)) by (done || by intros []).
  assert (∀ t, t ∈ concat (bm_values removed) ↔ ∃ id, id ∈ R ∧ transactions b !! t = Some id) as Hmem.
  { intros t. rewrite list_elem_of_In, in_concat. split.
    - intros (l & Hl & Ht). apply list_elem_of_In, elem_of_bm_values in Hl as [id Hl].
      apply list_elem_of_In in Ht. rewrite Hrem in Hl. case_decide as Hid; [|done].
      exists id. split; [by apply elem_of_bt_iter|]. apply (b_txs _ _ Hinv). eauto.
    - intros (id & Hid & (l & Hl & Ht)%(b_txs _ _ Hinv)). exists l.
      rewrite <- !list_elem_of_In. split; [|done]. apply elem_of_bm_values. exists id.
      by rewrite Hrem, decide_True by by apply elem_of_bt_iter. }
  set (b' := over_transactions _ _). assert (without b R g b') as Hwo.
  { unfold b'. split; [done|]. cbn. rewrite list_to_set_bt_iter. split; [done|].
    intros t. by apply (lookup_delete_members _ _ _ _ _ Hinv). }
  apply (HQ _ R); [done|by eapply binv_without|done|].
  intros id. rewrite Hrem. apply decide_ext. apply elem_of_bt_iter.
Qed.

(** ** [prune_committed] *)

Lemma wp_collect_batches {E} b g (ids : gset BatchId) (Q : BatchGraph → list TransactionId → Prop)
    (X : BatchGraph → E → Prop) :
  (∀ txs, txs = concat ((λ id, default [] (batches b !! id)) <$> bt_iter ids) →
    Q (mk_batch_graph g (transactions b) (del_keys ids (batches b))) txs) →
  wp (fold_m (λ acc batch_id,
    b ← get;
    _ ← modify (over_batches (λ m, delete batch_id m));
    mret (acc ++ default [] (batches b !! batch_id))) [] (bt_iter ids))
    (mk_batch_graph g (transactions b) (batches b)) Q X.
Proof.
  intros HQ. apply wp_weaken, (wp_fold_m_ok (λ pre b' txs,
    b' = mk_batch_graph g (transactions b) (del_keys (list_to_set pre) (batches b)) ∧
    txs = concat ((λ id, default [] (batches b !! id)) <$> pre))).
  - split; [cbn; by rewrite del_keys_empty|done].
  - intros pre id rest b' txs Hl [-> ->]. wp_steps. split.
    + unfold over_batches. cbn. rewrite delete_del_keys. f_equal. f_equal. set_solver.
    + rewrite fmap_app, concat_app. cbn. rewrite app_nil_r, lookup_del_keys, decide_False; [done|].
      pose proof (NoDup_bt_iter ids) as Hnd. rewrite Hl in Hnd. apply NoDup_app in Hnd as (_ & Hx & _).
      rewrite elem_of_list_to_set. intros Hin. apply (Hx _ Hin). by left.
  - intros b' txs [-> ->]. rewrite list_to_set_bt_iter. by apply HQ.
Qed.

(** The transactions of the batches [ids], in batch order. *)
Definition collected b (ids : gset BatchId) : list TransactionId :=
  concat ((λ id, default [] (batches b !! id)) <$> bt_iter ids).

Lemma elem_of_collected b a ids t :
  binv b a → t ∈ collected b ids ↔ ∃ id, id ∈ ids ∧ transactions b !! t = Some id.
Proof.
  intros Hinv. unfold collected. rewrite list_elem_of_In, in_concat. split.
  - intros (l & Hl & Ht). apply list_elem_of_In, list_elem_of_fmap in Hl as (id & -> & Hid).
    apply list_elem_of_In in Ht. apply elem_of_bt_iter in Hid. exists id. split; [done|].
    apply (b_txs _ _ Hinv). destruct (batches b !! id) as [l|]; [eauto|set_solver].
  - intros (id & Hid & (l & Hl & Ht)%(b_txs _ _ Hinv)). exists l. rewrite <- !list_elem_of_In.
    split; [|done]. apply list_elem_of_fmap. exists id. rewrite Hl. split; [done|]. by apply elem_of_bt_iter.
Qed.

Lemma NoDup_collected b a ids : binv b a → NoDup (collected b ids).
Proof.
  intros Hinv. unfold collected. pose proof (NoDup_bt_iter ids) as Hnd.
  induction (bt_iter ids) as [|id l IH]; cbn; [constructor|]. apply NoDup_cons in Hnd as [Hid Hnd].
  apply NoDup_app. split_and!; [|intros t Ht Hin|by apply IH].
  - destruct (batches b !! id) as [l'|] eqn:Hl; [by eapply b_list|constructor].
  - apply list_elem_of_In, in_concat in Hin as (l' & Hl' & Ht').
    apply list_elem_of_In, list_elem_of_fmap in Hl' as (id' & -> & Hid'). apply list_elem_of_In in Ht'.
    destruct (batches b !! id) as [l1|] eqn:E1; [|set_solver].
    destruct (batches b !! id') as [l2|] eqn:E2; [|set_solver]. cbn in *.
    by rewrite (binv_disjoint _ _ _ _ _ _ _ Hinv E1 E2 Ht Ht') in Hid.
Qed.

Lemma wp_prune_committed b a (ids : gset BatchId) (Q : _ → list TransactionId → Prop) X :
  binv b a → (∀ id, id ∈ ids → is_processed a id) → (∀ p c, edge a p c → c ∈ ids → p ∈ ids) →
  (∀ b', binv b' (a_remove ids a) → without b ids (inner b') b' → Q b' (collected b ids)) →
  wp (prune_committed ids) b Q X.
Proof.
  intros Hinv Hids Hdang HQ. unfold prune_committed. wp_steps. apply on_inner_ok.
  eapply wp_mono; [apply wp_prune_processed; exact (b_rep _ _ Hinv)| |].
  2: { cbn. intros g e (_ & ks & Hne & Herr). apply set_choose_L in Hne as [id Hid].
       destruct Herr as [[_ Hks]|[[_ Hks]|[_ Hks]]]; apply Hks in Hid.
       - destruct Hid as [Hid Hno]. destruct (Hids _ Hid) as (v & ps & Hk'). congruence.
       - destruct Hid as [Hid Hno]. destruct Hno. by apply Hids.
       - destruct Hid as [Hid (c & Hc & He)]. destruct Hid. by apply (Hdang _ c). }
  cbn. intros g vs (Hrep & _). wp_steps. apply wp_collect_batches. intros txs Htxs. fold (collected b ids) in Htxs.
  subst txs. wp_steps. rewrite wp_for_each_modify. wp_steps.
  rewrite (foldl_over over_transactions (λ x m, delete x m)) by (done || by intros []).
  set (b' := over_transactions _ _). assert (without b ids g b') as Hwo.
  { unfold b'. split_and!; [done..|]. cbn. intros t. apply (lookup_delete_members _ _ _ _ _ Hinv).
    intros t'. by eapply elem_of_collected. }
  apply HQ; [by eapply binv_without|done].
Qed.

(** ** [submit_proof] and [select_block] *)

Lemma binv_same_maps b a g a' :
  binv b a → rep g a' → (∀ id, is_Some (a' !! id) ↔ is_Some (a !! id)) →
  (∀ id n v, a' !! id = Some n → node_value n = Some v → batch_id v = id) →
  binv (mk_batch_graph g (transactions b) (batches b)) a'.
Proof.
  intros [_ Hd Ht Hl Hi _] Hrep Hdom Hkey. split; cbn; try done.
  intros id. by rewrite Hdom.
Qed.

Lemma wp_submit_proof b a batch (Q : _ → unit → Prop) X :
  binv b a → is_pending a (batch_id batch) →
  (∀ b', binv b' (a_promote (batch_id batch) batch a) →
    transactions b' = transactions b → batches b' = batches b → Q b' tt) →
  wp (submit_proof batch) b Q X.
Proof.
  intros Hinv Hpe HQ. unfold submit_proof. apply on_inner_ok.
  eapply wp_mono; [apply wp_promote_pending; exact (b_rep _ _ Hinv)| |naive_solver].
  cbn. intros g [] [Hrep _]. apply HQ; [|done..]. eapply binv_same_maps; [done..| |].
  - intros id. rewrite a_promote_lookup. case_decide; [|done]. apply fmap_is_Some.
  - intros id n v. rewrite a_promote_lookup. case_decide; [|by apply (b_key _ _ Hinv)]. subst.
    intros ([st ps] & _ & ->)%fmap_Some Hv. cbn in Hv. congruence.
Qed.

(** What is known of a block under construction. *)
Record block_selection b0 a0 (budget : BlockBudget.BlockBudget) b (selected : list ProvenBatch)
    (rest : BlockBudget.BlockBudget) : Prop := {
  bs_graph : ∃ a, selects a0 (batch_id <$> selected) a ∧ binv b a;
  bs_maps : transactions b = transactions b0 ∧ batches b = batches b0;
  bs_value : ∀ v, v ∈ selected → ∃ ps, a0 !! batch_id v = Some (mk_node (Queued v) ps);
  bs_budget : BlockBudget.batches budget = (BlockBudget.batches rest + N.of_nat (length selected))%N;
}.

Definition block_exhausted b (rest : BlockBudget.BlockBudget) : Prop :=
  BlockBudget.batches rest = 0%N ∨ Graph.roots (inner b) = ∅.

Lemma block_budget_spent rest batch rest' :
  BlockBudget.check_then_subtract rest batch = (WithinScope, rest') →
  BlockBudget.batches rest = (BlockBudget.batches rest' + 1)%N.
Proof. unfold BlockBudget.check_then_subtract. destruct (N.eqb_spec (BlockBudget.batches rest) 0); [done|]. intros [= <-]. cbn. lia. Qed.

Lemma wp_select_block_loop {E} b0 a0 budget fuel : ∀ b selected rest,
  binv b0 a0 → block_selection b0 a0 budget b selected rest →
  Graph.len (inner b0) < length selected + fuel →
  wp_ok (select_block_loop fuel rest selected : M BatchGraph E _) b (λ b' selected,
    ∃ rest, block_selection b0 a0 budget b' selected rest ∧ block_exhausted b' rest).
Proof.
  induction fuel as [|fuel IH]; intros b selected rest Hinv Hsel Hfuel;
    pose proof Hsel as [(a & Hs & Hb) [HT HB] Hval Hbud].
  { pose proof (selects_length _ _ _ _ (b_rep _ _ Hinv) Hs) as Hlen. rewrite length_fmap in Hlen. lia. }
  cbn. wp_steps. destruct (bt_first (Graph.roots (inner b))) as [root|] eqn:Hroot.
  2: { wp_steps. exists rest. split; [done|]. right. by apply bt_first_None. }
  destruct (first_root _ _ _ (b_rep _ _ Hb) Hroot) as (Hready & v & ps & Hlk & Hv).
  pose proof (b_key _ _ Hb _ _ v Hlk eq_refl) as Hid. subst root. wp_steps.
  apply (wp_expect_some _ v); [done|].
  destruct (BlockBudget.check_then_subtract rest v) as [[] rest'] eqn:Hcheck.
  2: { wp_steps. exists rest. split; [done|]. left. unfold BlockBudget.check_then_subtract in Hcheck.
       by destruct (N.eqb_spec (BlockBudget.batches rest) 0). }
  wp_steps. apply wp_expect_ok. apply on_inner_ok.
  eapply wp_mono; [apply wp_process_first; [exact (b_rep _ _ Hb)|done]| |done]. cbn.
  intros g' [] Hrep'. apply IH; [done| |rewrite length_app; cbn; lia].
  assert (selects a0 (batch_id <$> (selected ++ [v])) (a_process (batch_id v) a)) as Hs'.
  { rewrite fmap_app. by constructor. }
  assert (∃ qs, a0 !! batch_id v = Some (mk_node (Queued v) qs)) as [qs Hqs].
  { destruct (selects_queued _ _ _ (batch_id v) Hs') as (w & qs & Hq).
    { rewrite fmap_app. apply elem_of_app. right. by left. }
    pose proof (selects_value _ _ _ (batch_id v) Hs) as Heq. rewrite Hq, Hlk in Heq. cbn in Heq.
    exists qs. congruence. }
  split; [|done| |].
  - exists (a_process (batch_id v) a). split; [done|]. eapply binv_same_maps; [done..| |].
    + intros id. rewrite a_process_lookup. case_decide; [|done]. apply fmap_is_Some.
    + intros id n w Hn Hw. pose proof (selects_value _ _ _ id Hs') as Heq. rewrite Hn in Heq. cbn in Heq.
      rewrite Hw in Heq. destruct (a0 !! id) as [n'|] eqn:Hn'; [|done]. by eapply (b_key _ _ Hinv).
  - intros w [Hin| ->%list_elem_of_singleton]%elem_of_app; [auto|eauto].
  - apply block_budget_spent in Hcheck. rewrite length_app. cbn. lia.
Qed.

Lemma wp_select_block {E} b a budget :
  binv b a →
  wp_ok (select_block budget : M BatchGraph E _) b (λ b' selected,
    ∃ rest, block_selection b a budget b' selected rest ∧ block_exhausted b' rest).
Proof.
  intros Hinv. unfold select_block. wp_steps. apply wp_select_block_loop; [done| |cbn; lia].
  split; [|done|set_solver|cbn; lia]. exists a. split; [constructor|done].
Qed.

End batchgraph.
