(* ===== verification/SubscriptionProofs.v ===== *)
(** * Correctness of the subscription

    The tracker of inflight transactions is a list of events in insertion order;
    a subscriber that replays what was sent to it ends with the same list. *)

From S2P Require Import Prelude.
From S2P Require Import External.
From S2P Require Import Transaction.
From S2P Require Import Subscription.
Import Subscription.

(** Ascending keys, with the order of [N]. *)
Section ascending.
Context {V : Type}.
Implicit Types (m : gmap N V).

Abbreviation keys m := (bm_keys (Key0 := N_key) m).
Abbreviation vals m := (bm_values (Key0 := N_key) m).

Lemma sorted_keys m : StronglySorted N.le (keys m).
Proof. apply (sorted_bt_iter (Key0 := N_key)). Qed.

Lemma NoDup_keys m : NoDup (keys m).
Proof. apply (NoDup_bt_iter (Key0 := N_key)). Qed.

Lemma elem_of_keys m (i : N) : i ∈ keys m ↔ is_Some (m !! i).
Proof. unfold bm_keys. rewrite (elem_of_bt_iter (Key0 := N_key)). apply elem_of_dom. Qed.

Lemma sorted_keys_unique m (l : list N) :
  StronglySorted N.le l → NoDup l → (∀ i, i ∈ l ↔ is_Some (m !! i)) → keys m = l.
Proof.
  intros Hs Hnd Hl. apply (StronglySorted_unique N.le); [apply sorted_keys|done|].
  apply NoDup_Permutation; [apply NoDup_keys|done|]. intros i. by rewrite elem_of_keys, Hl.
Qed.

Lemma keys_insert_last m (i : N) v :
  (∀ j : N, is_Some (m !! j) → (j < i)%N) → keys (<[i := v]> m) = keys m ++ [i].
Proof.
  intros Hi. apply sorted_keys_unique.
  - apply StronglySorted_app_2; [|apply sorted_keys|by repeat constructor].
    intros j k Hj%elem_of_keys%Hi ->%list_elem_of_singleton. lia.
  - apply NoDup_app. split_and!; [apply NoDup_keys| |apply NoDup_singleton].
    intros j Hj%elem_of_keys%Hi ->%list_elem_of_singleton. lia.
  - intros j. rewrite elem_of_app, list_elem_of_singleton, elem_of_keys, lookup_insert.
    case_decide; [subst; split; eauto|]. naive_solver.
Qed.

Lemma StronglySorted_filter {A} (R : relation A) (P : A → Prop) `{!∀ x, Decision (P x)} (l : list A) :
  StronglySorted R l → StronglySorted R (filter P l).
Proof.
  induction 1 as [|x l _ IH Hall]; [constructor|]. rewrite filter_cons. case_decide; [|done].
  constructor; [done|]. rewrite Forall_forall in *. intros y [_ Hy]%list_elem_of_filter. auto.
Qed.

Lemma keys_delete m (i : N) : keys (delete i m) = filter (λ j, j ≠ i) (keys m).
Proof.
  apply sorted_keys_unique.
  - apply StronglySorted_filter, sorted_keys.
  - apply NoDup_filter, NoDup_keys.
  - intros j. rewrite list_elem_of_filter, elem_of_keys, lookup_delete.
    case_decide; [|naive_solver]. split; [naive_solver|by intros []].
Qed.

End ascending.

Section subscription.
Context `{!MidenObjects} `{!Channel}.
Implicit Types (t : InflightTransactions) (ev : MempoolEvent) (id : TransactionId) (i : N).

Definition ev_id ev : option TransactionId :=
  match ev with TransactionAdded id _ _ _ => Some id | _ => None end.

Record tracker_inv t : Prop := {
  tr_index : ∀ id i, index t !! id = Some i ↔ ∃ ev, txs t !! i = Some ev ∧ ev_id ev = Some id;
  tr_added : ∀ i ev, txs t !! i = Some ev → is_Some (ev_id ev);
}.

Definition kept (ids : gset TransactionId) ev : bool :=
  match ev_id ev with Some id => bool_decide (id ∉ ids) | None => true end.

(** The events that are not about [ids]. *)
Definition drop_ids (ids : gset TransactionId) (l : list MempoolEvent) : list MempoolEvent :=
  filter (λ ev, kept ids ev = true) l.

Lemma drop_ids_drop (ids ids' : gset TransactionId) l :
  drop_ids ids (drop_ids ids' l) = drop_ids (ids' ∪ ids) l.
Proof.
  unfold drop_ids. rewrite list_filter_filter. apply list_filter_iff. intros ev. unfold kept.
  destruct (ev_id ev) as [id|]; [|done]. rewrite !bool_decide_eq_true. set_solver.
Qed.

Lemma drop_ids_empty l : drop_ids ∅ l = l.
Proof.
  apply filter_all, Forall_forall. intros ev _. unfold kept. destruct (ev_id ev); [|done].
  apply bool_decide_eq_true. set_solver.
Qed.

(** ** The tracker *)

Lemma tracker_default : tracker_inv default_inflight.
Proof.
  split; cbn; intros *; rewrite lookup_empty; [|done].
  split; [done|]. intros (ev & Hev & _). by rewrite lookup_empty in Hev.
Qed.

Lemma last_key_max (m : gmap N MempoolEvent) (j : N) :
  is_Some (m !! j) → ∃ k, last_key m = Some k ∧ (j ≤ k)%N.
Proof.
  intros Hj%elem_of_keys. unfold last_key. pose proof (sorted_keys m) as Hs.
  destruct (last (bm_keys (Key0 := N_key) m)) as [k|] eqn:Hk.
  - exists k. split; [done|]. apply last_Some in Hk as [l Hl]. rewrite Hl in Hs, Hj.
    apply elem_of_app in Hj as [Hj| ->%list_elem_of_singleton]; [|done].
    apply (StronglySorted_app_1_elem_of _ _ _ _ _ Hs Hj). by left.
  - apply last_None in Hk. rewrite Hk in Hj. set_solver.
Qed.

Lemma wp_inflight_insert {E} t ev id :
  tracker_inv t → ev_id ev = Some id → index t !! id = None →
  wp_ok (inflight_insert ev : M _ E _) t (λ t' _, tracker_inv t' ∧
    inflight_iter t' = inflight_iter t ++ [ev] ∧ dom (index t') = {[id]} ∪ dom (index t)).
Proof.
  intros [Hidx Hadd] Hev Hnew. destruct ev as [id' ns nn ad| |]; [|done..]. injection Hev as ->.
  set (ev := TransactionAdded id ns nn ad). unfold inflight_insert, ev. wp_steps. fold ev.
  set (idx := match last_key (txs t) with Some k => (k + 1)%N | None => 0%N end).
  apply wp_assert; [by apply bool_decide_eq_true|]. wp_steps.
  assert (∀ j : N, is_Some (txs t !! j) → (j < idx)%N) as Hidx'.
  { intros j (k & Hk & Hle)%last_key_max. unfold idx. rewrite Hk. lia. }
  assert (txs t !! idx = None) as Hfree.
  { apply eq_None_not_Some. intros Hin%Hidx'. lia. }
  split; [split; cbn|split; cbn].
  - intros id' i. rewrite !lookup_insert. case_decide as Hid; subst; case_decide as Hi; subst.
    + split; [|done]. intros _. by exists ev.
    + split; [congruence|]. intros (ev' & Hev & Hid'). assert (index t !! id' = Some i) by (apply Hidx; eauto).
      congruence.
    + split; [|intros (ev' & [= <-] & [= Hid'])]; [|done]. intros (ev' & Hev & _)%Hidx. congruence.
    + apply Hidx.
  - intros i ev' [[_ <-]|[_ Hev]]%lookup_insert_Some; [by eexists|by eapply Hadd].
  - unfold inflight_iter, bm_values. cbn. rewrite keys_insert_last, omap_app by done. f_equal.
    + apply omap_ext_in. intros j Hj%elem_of_keys%Hidx'. apply lookup_insert_ne. lia.
    + cbn. by rewrite lookup_insert_eq.
  - by rewrite dom_insert_L.
Qed.

Lemma kept_singleton id ev : kept {[id]} ev = true ↔ ev_id ev ≠ Some id.
Proof.
  unfold kept. destruct (ev_id ev) as [id'|]; [|done]. rewrite bool_decide_eq_true, elem_of_singleton.
  naive_solver.
Qed.

Lemma omap_filter_drop (m : gmap N MempoolEvent) i id (l : list N) :
  (∀ j ev, m !! j = Some ev → j = i ↔ ev_id ev = Some id) →
  omap (λ j, delete i m !! j) (filter (λ j, j ≠ i) l) = drop_ids {[id]} (omap (λ j, m !! j) l).
Proof.
  intros Hi. induction l as [|j l IH]; [done|]. rewrite filter_cons. cbn [omap list_omap].
  specialize (Hi j). destruct (decide (j ≠ i)) as [Hne|Heq%dec_stable].
  - cbn [omap list_omap]. rewrite lookup_delete_ne by done.
    destruct (m !! j) as [ev|]; [|done]. specialize (Hi ev eq_refl).
    unfold drop_ids in *. rewrite filter_cons, decide_True by (apply kept_singleton; naive_solver).
    by f_equal.
  - destruct (m !! j) as [ev|]; [|done]. specialize (Hi ev eq_refl).
    unfold drop_ids in *. rewrite filter_cons, decide_False; [done|].
    rewrite kept_singleton. naive_solver.
Qed.

Lemma wp_inflight_remove {E} t id :
  tracker_inv t → id ∈ dom (index t) →
  wp_ok (inflight_remove id : M _ E _) t (λ t' _, tracker_inv t' ∧
    inflight_iter t' = drop_ids {[id]} (inflight_iter t) ∧ dom (index t') = dom (index t) ∖ {[id]}).
Proof.
  intros [Hidx Hadd] [i Hi]%elem_of_dom. unfold inflight_remove. wp_steps.
  apply (wp_expect_some _ i); [done|]. wp_steps. cbn.
  assert (∀ j ev, txs t !! j = Some ev → j = i ↔ ev_id ev = Some id) as Hji.
  { intros j ev Hev. split.
    - intros ->. apply Hidx in Hi as (ev' & Hev' & Hid). congruence.
    - intros Hid. assert (index t !! id = Some j) by (apply Hidx; eauto). congruence. }
  split; [split; cbn|split; cbn].
  - intros id' j. rewrite !lookup_delete. case_decide as Hid; subst; case_decide as Hj; subst.
    + split; [done|]. naive_solver.
    + split; [done|]. intros (ev & Hev & Hid). by apply (Hji _ _ Hev) in Hid.
    + split; [|naive_solver]. intros (ev & Hev & Hid')%Hidx. rewrite (proj1 (Hji _ _ Hev) eq_refl) in Hid'. congruence.
    + apply Hidx.
  - intros j ev [_ Hev]%lookup_delete_Some. by eapply Hadd.
  - unfold inflight_iter, bm_values. cbn. rewrite keys_delete. by apply omap_filter_drop.
  - by rewrite dom_delete_L.
Qed.

(** ** The provider *)

Context `{!ChannelLaws}.
Implicit Types (p : SubscriptionProvider).

(** What a subscriber makes of an event: it keeps the list of inflight ones. *)
Definition apply_event (l : list MempoolEvent) ev : list MempoolEvent :=
  match ev with
  | TransactionAdded _ _ _ _ => l ++ [ev]
  | BlockCommitted _ ids => drop_ids (list_to_set ids) l
  | TransactionsReverted ids => drop_ids ids l
  end.

Definition replay (log : list MempoolEvent) : list MempoolEvent := foldl apply_event [] log.

Record sub_inv p : Prop := {
  sub_tracker : tracker_inv (inflight_txs p);
  sub_replay : ∀ sender, subscription p = Some sender → replay (sent sender) = inflight_iter (inflight_txs p);
}.

Definition tracked p : gset TransactionId := dom (index (inflight_txs p)).

Lemma sub_inv_new tip : sub_inv (new tip) ∧ tracked (new tip) = ∅.
Proof. split; [split; [apply tracker_default|done]|]. unfold tracked. cbn. by rewrite dom_empty_L. Qed.

Lemma replay_send (sender : option Sender) ev l :
  (∀ s, sender = Some s → replay (sent s) = l) →
  ∀ s, send_event sender ev = Some s → replay (sent s) = apply_event l ev.
Proof.
  intros Hl s. destruct sender as [s0|]; [|done]. cbn. intros Hs%sent_try_send.
  destruct Hs as [-> _]. unfold replay in *. rewrite foldl_app. cbn. by rewrite (Hl s0).
Qed.

Lemma wp_transaction_added {E} p tx :
  sub_inv p → tx_id tx ∉ tracked p →
  wp_ok (transaction_added tx : M _ E _) p (λ p' _, sub_inv p' ∧ chain_tip p' = chain_tip p ∧
    inflight_iter (inflight_txs p') = inflight_iter (inflight_txs p) ++ [added_event tx] ∧
    tracked p' = {[tx_id tx]} ∪ tracked p).
Proof.
  intros [Ht Hr] Hnew. unfold transaction_added. wp_steps.
  eapply wp_mono; [apply (wp_inflight_insert _ _ (tx_id tx)); [done..|by apply not_elem_of_dom]| |done].
  cbn beta. intros t [] (Ht' & Hiter & Hdom). wp_steps. split; [split; cbn; [done|]|done].
  rewrite Hiter. intros s Hs. by rewrite (replay_send _ _ _ Hr _ Hs).
Qed.

Lemma replay_added l : (∀ ev, ev ∈ l → ev_id ev ≠ None) → replay l = l.
Proof.
  intros Hl. enough (∀ acc, foldl apply_event acc l = acc ++ l) as Henough by apply Henough.
  induction l as [|ev l IH]; intros acc; cbn; [by rewrite app_nil_r|].
  rewrite IH by (intros; apply Hl; by right). specialize (Hl ev ltac:(by left)).
  destruct ev; [|done..]. cbn. by rewrite <- app_assoc.
Qed.

Lemma length_omap {A B} (f : A → option B) (l : list A) : length (omap f l) ≤ length l.
Proof. induction l as [|x l IH]; cbn; [lia|]. destruct (f x); cbn; lia. Qed.

Lemma wp_untrack {E} p (ids : list TransactionId) :
  tracker_inv (inflight_txs p) → NoDup ids → (∀ id, id ∈ ids → id ∈ tracked p) →
  wp_ok (for_each ids (λ tx, zoom inflight_txs (λ t, over_inflight (λ _, t)) (inflight_remove tx)) : M _ E _)
    p (λ p' _, tracker_inv (inflight_txs p') ∧ subscription p' = subscription p ∧ chain_tip p' = chain_tip p ∧
      inflight_iter (inflight_txs p') = drop_ids (list_to_set ids) (inflight_iter (inflight_txs p)) ∧
      tracked p' = tracked p ∖ list_to_set ids).
Proof.
  intros Ht Hnd Hids.
  apply (wp_for_each_ok (λ pre p', tracker_inv (inflight_txs p') ∧ subscription p' = subscription p ∧
      chain_tip p' = chain_tip p ∧
      inflight_iter (inflight_txs p') = drop_ids (list_to_set pre) (inflight_iter (inflight_txs p)) ∧
      tracked p' = tracked p ∖ list_to_set pre)); [|intros pre t rest p' Hl (Ht' & Hs & Hc & Hi & Hd)|done].
  - split_and!; [done..|cbn; by rewrite drop_ids_empty|cbn; set_solver].
  - wp_steps. eapply wp_mono; [apply wp_inflight_remove; [done|]| |done].
    + fold (tracked p'). rewrite Hd, elem_of_difference, elem_of_list_to_set. split.
      * apply Hids. rewrite Hl. set_solver.
      * rewrite Hl in Hnd. apply NoDup_app in Hnd as (_ & Hx & _). intros Hin. apply (Hx _ Hin). by left.
    + cbn. intros t' [] (Ht'' & Hi' & Hd'). split_and!; [done..| |].
      * rewrite Hi', Hi, drop_ids_drop. f_equal. set_solver.
      * unfold tracked in *. cbn. rewrite Hd', Hd. set_solver.
Qed.

Lemma wp_block_committed {E} p header (ids : list TransactionId) :
  sub_inv p → NoDup ids → (∀ id, id ∈ ids → id ∈ tracked p) →
  wp_ok (block_committed header ids : M _ E _) p (λ p' _, sub_inv p' ∧
    chain_tip p' = header_block_num header ∧
    inflight_iter (inflight_txs p') = drop_ids (list_to_set ids) (inflight_iter (inflight_txs p)) ∧
    tracked p' = tracked p ∖ list_to_set ids).
Proof.
  intros [Ht Hr] Hnd Hids. unfold block_committed. wp_steps.
  eapply wp_mono; [by apply wp_untrack| |done]. cbn. intros p' [] (Ht' & Hs & Hc & Hi & Hd). wp_steps.
  split; [split; cbn; [done|]|done]. rewrite Hs, Hi. intros s. by apply (replay_send _ (BlockCommitted header ids)).
Qed.

Lemma wp_txs_reverted {E} p (ids : gset TransactionId) :
  sub_inv p → ids ⊆ tracked p →
  wp_ok (txs_reverted ids : M _ E _) p (λ p' _, sub_inv p' ∧ chain_tip p' = chain_tip p ∧
    inflight_iter (inflight_txs p') = drop_ids ids (inflight_iter (inflight_txs p)) ∧
    tracked p' = tracked p ∖ ids).
Proof.
  intros [Ht Hr] Hids. unfold txs_reverted. wp_steps.
  eapply wp_mono; [apply wp_untrack; [done|apply NoDup_bt_iter|]| |done].
  { intros t Hin%elem_of_bt_iter. by apply Hids. }
  cbn. intros p' []. rewrite list_to_set_bt_iter. intros (Ht' & Hs & Hc & Hi & Hd). wp_steps.
  split; [split; cbn; [done|]|done]. rewrite Hs, Hi. intros s. by apply (replay_send _ (TransactionsReverted ids)).
Qed.

(** [subscribe] sends the events of all inflight transactions; they fit. *)
Lemma wp_subscribe p tip :
  sub_inv p →
  wp (subscribe tip) p (λ p' _, sub_inv p' ∧ tip = chain_tip p ∧ chain_tip p' = chain_tip p ∧
      inflight_txs p' = inflight_txs p ∧
      ∃ sender, subscription p' = Some sender ∧ sent sender = inflight_iter (inflight_txs p))
    (λ p' e, p' = p ∧ e = chain_tip p ∧ tip ≠ chain_tip p).
Proof.
  intros [Ht Hr]. unfold subscribe. wp_steps. case_decide as Htip; [by wp_steps|].
  destruct (mpsc_channel _) as [tx rx] eqn:Hch. wp_steps.
  pose proof (sent_channel ((inflight_len (inflight_txs p) * 2) `max` 1024)) as Hsent.
  pose proof (capacity_channel ((inflight_len (inflight_txs p) * 2) `max` 1024)) as Hcap.
  rewrite Hch in Hsent, Hcap. cbn in Hsent, Hcap.
  assert (length (inflight_iter (inflight_txs p)) ≤ inflight_len (inflight_txs p)) as Hlen.
  { unfold inflight_iter, inflight_len, bm_values.
    rewrite <- (size_dom (D := gset N)), <- (length_bt_iter (Key0 := N_key)). apply length_omap. }
  apply wp_weaken, (wp_for_each_ok (λ pre p', ∃ sender, p' = over_subscription (λ _, Some sender) p ∧
      sent sender = pre ∧ capacity sender = (inflight_len (inflight_txs p) * 2) `max` 1024)).
  - by exists tx.
  - intros pre ev rest p' Hl (sender & -> & Hpre & Hcs). wp_steps. cbn.
    destruct (try_send_room sender ev) as [sender' Hsend].
    { rewrite Hpre, Hcs. apply (f_equal length) in Hl. rewrite length_app in Hl. cbn in Hl. lia. }
    exists sender'. destruct (sent_try_send _ _ _ Hsend) as [-> ->]. rewrite Hpre.
    split; [|done]. unfold over_subscription. cbn. by rewrite Hsend.
  - intros p' (sender & -> & Hs & _). wp_steps. split_and!; cbn; [split; cbn; [done|]|done..|eauto].
    intros s [= <-]. rewrite Hs. apply replay_added. intros ev [i Hev]%elem_of_bm_values.
    destruct (tr_added _ Ht _ _ Hev). by destruct ev.
Qed.

End subscription.
