(* ===== verification/MempoolInv.v ===== *)
(** * The invariant of the mempool

    [minv] relates the components of the mempool to two abstract graphs, that of
    the inflight transactions and that of the batches, and to each other. This file
    states it and proves the graph-theoretic facts its preservation rests on. *)

From S2P Require Import Prelude.
From S2P Require Import Graph.
From S2P Require Import GraphProofs.
From S2P Require Import GraphRemoval.
From S2P Require Import TransactionGraphProofs.
From S2P Require Import GraphTheorems.
From S2P Require Import External.
From S2P Require Import Transaction.
From S2P Require Import Expirations.
From S2P Require Import InflightState.
From S2P Require Import InflightProofs.
From S2P Require Import InflightOps.
From S2P Require Import Subscription.
From S2P Require Import SubscriptionProofs.
From S2P Require Import TransactionGraph.
From S2P Require Import BatchGraph.
From S2P Require Import BatchGraphProofs.
From S2P Require Import Mempool.
Import GraphSpec.

(** ** The values of a graph *)

Section values.
Context {K V : Type} `{!Key K}.
Implicit Types (a : agraph K V) (k p c : K) (R : gset K).

Definition value_of a k : option V := a !! k ≫= node_value.

Lemma value_of_remove a R k :
  value_of (a_remove R a) k = if decide (k ∈ R) then None else value_of a k.
Proof. unfold value_of. rewrite a_remove_lookup. case_decide; [done|]. by destruct (a !! k). Qed.

Lemma value_of_requeue a R k : value_of (a_requeue R a) k = value_of a k.
Proof.
  unfold value_of. rewrite a_requeue_lookup. destruct (a !! k) as [[[] ps]|]; cbn; by try case_decide.
Qed.

Lemma edge_requeue a R p c : edge (a_requeue R a) p c ↔ edge a p c.
Proof. apply same_preds_edge, same_preds_requeue. Qed.

Lemma a_requeue_Some a R k : is_Some (a_requeue R a !! k) ↔ is_Some (a !! k).
Proof. rewrite a_requeue_lookup. apply fmap_is_Some. Qed.

Lemma a_remove_empty a : a_remove ∅ a = a.
Proof.
  apply map_eq. intros k. rewrite a_remove_lookup, decide_False by set_solver.
  destruct (a !! k) as [[st ps]|]; [|done]. cbn. by rewrite difference_empty_L.
Qed.

Lemma closure_step a (ks R : gset K) p c : closure a ks R → edge a p c → p ∈ R → c ∈ R.
Proof. intros HR He (k & Hk & Hrtc)%HR. apply HR. exists k. split; [done|]. by eapply rtc_r. Qed.

Lemma closure_incl a (ks R : gset K) k : closure a ks R → k ∈ ks → k ∈ R.
Proof. intros HR Hk. apply HR. by exists k. Qed.

Lemma closure_dom a (ks R : gset K) k :
  closure a ks R → (∀ k, k ∈ ks → is_Some (a !! k)) → k ∈ R → is_Some (a !! k).
Proof.
  intros HR Hks (k0 & Hk & Hrtc)%HR.
  apply rtc_inv_r in Hrtc as [<-|(y & _ & (n & Hn & _))]; [by apply Hks|eauto].
Qed.

End values.

Section mempool_inv.
Context `{!MidenObjects} `{!MidenLaws} `{!Channel} `{!ChannelLaws}.
Implicit Types (m : Mempool.Mempool) (t p c : TransactionId) (b d : BatchId).
Implicit Types (ta : agraph TransactionId AuthenticatedTransaction) (ba : agraph BatchId ProvenBatch).
Implicit Types (tm : gmap TransactionId BatchId) (R Rq : gset TransactionId) (Rb : gset BatchId).

(** ** The two graphs *)

(** [tm] is the map from the selected transactions to their batches. A processed
    transaction is one that is in a batch, and the parents of a transaction in a
    batch are in the same batch or in a parent batch. *)
Record cross ta ba tm : Prop := {
  x_batched : ∀ t, is_processed ta t ↔ is_Some (tm !! t);
  x_order : ∀ p c d, edge ta p c → tm !! c = Some d → ∃ b, tm !! p = Some b ∧ (b = d ∨ edge ba b d);
}.

Definition tm_without tm Rb tm' : Prop :=
  ∀ t, tm' !! t = match tm !! t with
                  | Some b => if decide (b ∈ Rb) then None else Some b
                  | None => None
                  end.

(** Removing the transactions [R], dropping the batches [Rb] and requeueing the
    rest of their transactions. *)
Lemma cross_removed ta ba tm R Rq Rb tm' :
  cross ta ba tm → tm_without tm Rb tm' →
  (∀ b d, edge ba b d → b ∈ Rb → d ∈ Rb) →
  (∀ t b, t ∈ R → tm !! t = Some b → b ∈ Rb) →
  (∀ t, t ∈ Rq ↔ t ∉ R ∧ ∃ b, b ∈ Rb ∧ tm !! t = Some b) →
  cross (a_requeue Rq (a_remove R ta)) (a_remove Rb ba) tm'.
Proof.
  intros [Hb Ho] Htm Hclosed HR HRq. split.
  - intros t. rewrite is_processed_requeue, is_processed_remove, Hb, HRq, Htm. split.
    + intros [[[b ->] Ht] Hno]. case_decide; [|done]. destruct Hno. eauto.
    + destruct (tm !! t) as [b|] eqn:Htb; [|by intros []]. case_decide as Hin; [by intros []|].
      intros _. split_and!; [done|naive_solver|]. intros [_ (b' & Hb' & [= <-])]. done.
  - intros p c d. rewrite edge_requeue, edge_remove, Htm. intros (He & Hp & Hc) Hd.
    destruct (tm !! c) as [d'|] eqn:Hc'; [|done]. case_decide as Hin; [done|]. injection Hd as ->.
    destruct (Ho _ _ _ He Hc') as (b & Hpb & Hbd). exists b. rewrite Htm, Hpb.
    assert (b ∉ Rb) as Hno by (intros Hin'; destruct Hbd as [->|Hbd]; eauto).
    rewrite decide_False by done. split; [done|]. rewrite edge_remove. naive_solver.
Qed.

(** Committing the batches [Rb] with exactly their transactions [R]. *)
Lemma cross_committed ta ba tm R Rb tm' :
  cross ta ba tm → tm_without tm Rb tm' →
  (∀ t, t ∈ R ↔ ∃ b, b ∈ Rb ∧ tm !! t = Some b) →
  cross (a_remove R ta) (a_remove Rb ba) tm'.
Proof.
  intros [Hb Ho] Htm HR. split.
  - intros t. rewrite is_processed_remove, Hb, HR, Htm. split.
    + intros [[b ->] Hno]. case_decide; [|done]. destruct Hno. eauto.
    + destruct (tm !! t) as [b|] eqn:Htb; [|by intros []]. case_decide as Hin; [by intros []|]. naive_solver.
  - intros p c d. rewrite edge_remove, Htm. intros (He & Hp & Hc) Hd.
    destruct (tm !! c) as [d'|] eqn:Hc'; [|done]. case_decide as Hin; [done|]. injection Hd as ->.
    destruct (Ho _ _ _ He Hc') as (b & Hpb & Hbd). exists b. rewrite Htm, Hpb.
    assert (b ∉ Rb) as Hno by (intros Hin'; apply Hp, HR; eauto).
    rewrite decide_False by done. split; [done|]. rewrite edge_remove. naive_solver.
Qed.

(** What is requeued with a dropped batch is what the batch holds: no processed
    descendant lies outside the dropped batches. *)
Lemma requeue_closed ta ba tm R Rb (Q Rq : gset TransactionId) :
  awf ta → cross ta ba tm →
  (∀ b d, edge ba b d → b ∈ Rb → d ∈ Rb) →
  (∀ t, t ∈ Q ↔ t ∉ R ∧ ∃ b, b ∈ Rb ∧ tm !! t = Some b) →
  processed_closure (a_remove R ta) Q Rq →
  ∀ t, t ∈ Rq ↔ t ∉ R ∧ ∃ b, b ∈ Rb ∧ tm !! t = Some b.
Proof.
  intros Hwf [Hb Ho] Hclosed HQ HRq t. split.
  - intros [Hpr (k & Hk & Hrtc)]%HRq. apply HQ.
    enough (∀ x y, rtc (edge (a_remove R ta)) x y → is_processed (a_remove R ta) y → x ∈ Q → y ∈ Q)
      as Hind by (by eapply Hind).
    clear -Hwf Hb Ho Hclosed HQ. intros x y Hxy. induction Hxy as [|x z y Hxz Hzy IH]; [done|].
    intros Hy Hx. apply IH; [done|]. apply HQ.
    assert (is_processed (a_remove R ta) z) as [Hz HzR]%is_processed_remove
      by (eapply processed_ancestor; [by apply awf_remove|done..]).
    apply edge_remove in Hxz as (He & _ & _). apply Hb in Hz as [d Hd]. split; [done|]. exists d.
    split; [|done]. apply HQ in Hx as [_ (b & HbR & Hxb)].
    destruct (Ho _ _ _ He Hd) as (b' & Hb' & Hbd). assert (b' = b) as -> by congruence.
    destruct Hbd as [->|Hbd]; eauto.
  - intros [HtR Ht]. pose proof Ht as (b & HbR & Htb). apply HRq. split.
    + apply is_processed_remove. split; [|done]. apply Hb. eauto.
    + exists t. split; [|done]. by apply HQ.
Qed.

(** ** The invariant *)

(** Neighbours in the chain of an account: the later transaction depends on the
    earlier one and starts from the state it left. *)
Definition linked ta (x y : Digest * TransactionId) : Prop :=
  edge ta x.2 y.2 ∧ ∃ tx, value_of ta y.2 = Some tx ∧ initial_state_commitment tx = x.1.

(** The events the subscription has for the inflight transactions. *)
Definition events m : list MempoolEvent :=
  Subscription.inflight_iter (Subscription.inflight_txs (Mempool.subscription m)).

(** Each is the event of an inflight transaction. *)
Definition events_ok m ta : Prop :=
  ∀ ev, ev ∈ events m → ∃ tx, value_of ta (tx_id tx) = Some tx ∧ ev = Subscription.added_event tx.

Record minv m ta ba : Prop := {
  m_tx : tinv (Mempool.transactions m) ta;
  m_batch : binv (Mempool.batches m) ba;
  m_cross : cross ta ba (BatchGraph.transactions (Mempool.batches m));
  m_state : iinv (Mempool.state m);
  m_deltas : ∀ t, InflightState.transaction_deltas (Mempool.state m) !! t =
    InflightState.delta_new <$> value_of ta t;
  m_chain : ∀ id, Sorted (linked ta) (segment (Mempool.state m) id);
  m_final : ∀ id x, x ∈ segment (Mempool.state m) id →
    ∃ tx, value_of ta x.2 = Some tx ∧ final_state_commitment tx = x.1;
  m_exp : einv (Mempool.expirations m);
  m_expires : ∀ t, Expirations.by_tx (Mempool.expirations m) !! t = expires_at <$> value_of ta t;
  m_sub : sub_inv (Mempool.subscription m);
  m_tracked : tracked (Mempool.subscription m) = dom ta;
  m_events : events_ok m ta;
  m_tip : InflightState.chain_tip (Mempool.state m) = Mempool.chain_tip m;
  m_sub_tip : Subscription.chain_tip (Mempool.subscription m) = Mempool.chain_tip m;
}.

(** The processed batches are those of the block in progress. *)
Definition block_inv m ba : Prop :=
  ∀ b, is_processed ba b ↔ b ∈ default ∅ (Mempool.block_in_progress m).

(** No inflight transaction has expired. *)
Definition alive m ta : Prop :=
  ∀ t tx, value_of ta t = Some tx → (Mempool.chain_tip m < expires_at tx)%N.

Lemma sorted_weaken {A} (P Q : relation A) (l : list A) :
  Sorted P l → (∀ x y, x ∈ l → y ∈ l → P x y → Q x y) → Sorted Q l.
Proof.
  induction 1 as [|x l Hs IH Hhd]; intros HPQ; [constructor|]. constructor.
  - apply IH. intros y z Hy Hz. apply HPQ; by right.
  - destruct Hhd as [|y l HP]; constructor. apply HPQ; [by left|by right; left|done].
Qed.

Lemma value_is_Some g ta t : tinv g ta → is_Some (value_of ta t) ↔ is_Some (ta !! t).
Proof.
  intros Ht. unfold value_of. split.
  - destruct (ta !! t); [eauto|by intros []].
  - intros [n Hn]. destruct (tinv_value _ _ _ _ Ht Hn) as (tx & Hv & _). rewrite Hn. cbn. eauto.
Qed.

Lemma minv_removed m m' ta ba R Rq Rb :
  let ta' := a_requeue Rq (a_remove R ta) in
  minv m ta ba →
  tinv (Mempool.transactions m') ta' →
  binv (Mempool.batches m') (a_remove Rb ba) →
  cross ta' (a_remove Rb ba) (BatchGraph.transactions (Mempool.batches m')) →
  iinv (Mempool.state m') →
  InflightState.transaction_deltas (Mempool.state m') =
    del_keys R (InflightState.transaction_deltas (Mempool.state m)) →
  (∀ id, segment (Mempool.state m') id = filter (outside R) (segment (Mempool.state m) id)) →
  (∀ id, Sorted (linked ta) (filter (outside R) (segment (Mempool.state m) id))) →
  einv (Mempool.expirations m') →
  Expirations.by_tx (Mempool.expirations m') =
    del_keys R (Expirations.by_tx (Mempool.expirations m)) →
  sub_inv (Mempool.subscription m') →
  tracked (Mempool.subscription m') = tracked (Mempool.subscription m) ∖ R →
  events m' = drop_ids R (events m) →
  InflightState.chain_tip (Mempool.state m') = Mempool.chain_tip m' →
  Subscription.chain_tip (Mempool.subscription m') = Mempool.chain_tip m' →
  minv m' ta' (a_remove Rb ba).
Proof.
  intros ta' Hm Ht Hb Hx Hi HD Hseg Hsort He HE Hs HT Hev Htip Hstip.
  assert (∀ t, value_of ta' t = if decide (t ∈ R) then None else value_of ta t) as Hval.
  { intros t. unfold ta'. by rewrite value_of_requeue, value_of_remove. }
  split; try done.
  - intros t. rewrite HD, lookup_del_keys, Hval. case_decide; [done|]. apply (m_deltas _ _ _ Hm).
  - intros id. rewrite Hseg. eapply sorted_weaken; [apply Hsort|].
    intros x y [Hx1 _]%list_elem_of_filter [Hy1 _]%list_elem_of_filter [Hedge (tx & Hv & Hin)].
    unfold linked, outside, ta' in *. rewrite edge_requeue, edge_remove. split; [done|].
    exists tx. by rewrite Hval, decide_False.
  - intros id x. rewrite Hseg. intros [Hout Hin]%list_elem_of_filter.
    rewrite Hval, decide_False by done. by apply (m_final _ _ _ Hm id).
  - intros t. rewrite HE, lookup_del_keys, Hval. case_decide; [done|]. apply (m_expires _ _ _ Hm).
  - rewrite HT, (m_tracked _ _ _ Hm). apply set_eq. intros t.
    unfold ta'. rewrite elem_of_difference, !elem_of_dom, a_requeue_Some, a_remove_Some. done.
  - intros ev. rewrite Hev. unfold drop_ids. intros [Hk Hin]%list_elem_of_filter.
    destruct (m_events _ _ _ Hm _ Hin) as (tx & Hv & ->). exists tx. rewrite Hval.
    unfold kept in Hk. cbn in Hk. apply bool_decide_eq_true in Hk. by rewrite decide_False.
Qed.

(** The start: everything is empty. *)
Lemma cross_empty : cross ∅ ∅ ∅.
Proof.
  split.
  - intros t. rewrite lookup_empty. split; [|by intros []]. intros (v & ps & Ht). by rewrite lookup_empty in Ht.
  - intros p c d (n & Hn & _). by rewrite lookup_empty in Hn.
Qed.

Lemma minv_new tip bb kb retention slack :
  (N.of_nat retention < 2 ^ 32)%N →
  minv (Mempool.new tip bb kb retention slack) ∅ ∅.
Proof.
  intros Hret. split; cbn.
  - split; [apply rep_default| |].
    + intros k [ps Hk]. by rewrite lookup_empty in Hk.
    + intros k n tx Hn. by rewrite lookup_empty in Hn.
  - apply binv_default.
  - apply cross_empty.
  - by apply iinv_new.
  - intros t. unfold value_of. by rewrite !lookup_empty.
  - intros id. unfold segment, acct_states, acct. cbn. rewrite lookup_empty. constructor.
  - intros id x. unfold segment, acct_states, acct. cbn. rewrite lookup_empty. cbn. set_solver.
  - apply einv_default.
  - intros t. unfold value_of. by rewrite !lookup_empty.
  - apply sub_inv_new.
  - unfold tracked. cbn. by rewrite !dom_empty_L.
  - intros ev Hev. by apply not_elem_of_nil in Hev.
  - done.
  - done.
Qed.

End mempool_inv.
