(* ===== verification/MempoolOps.v ===== *)
(** * The operations of the mempool preserve its invariant

    One lemma per method of [Mempool]: run from a state that satisfies the
    invariant, it does not panic, and it leaves a state that satisfies it. *)

From S2P Require Import Prelude.
From S2P Require Import Graph.
From S2P Require Import GraphProofs.
From S2P Require Import GraphRemoval.
From S2P Require Import GraphTheorems.
From S2P Require Import TransactionGraphProofs.
From S2P Require Import External.
From S2P Require Import Transaction.
From S2P Require Import InflightState.
From S2P Require Import Expirations.
From S2P Require Import InflightProofs.
From S2P Require Import InflightOps.
From S2P Require Import Subscription.
From S2P Require Import SubscriptionProofs.
From S2P Require Import TransactionGraph.
From S2P Require Import BatchGraph.
From S2P Require Import BatchGraphProofs.
From S2P Require Import Mempool.
From S2P Require Import MempoolInv.
Import GraphSpec.

Section mempool_ops.
Context `{!MidenObjects} `{!MidenLaws} `{!Channel} `{!ChannelLaws}.
Implicit Types (m : Mempool.Mempool) (t p c : TransactionId) (b d : BatchId).
Implicit Types (ta : agraph TransactionId AuthenticatedTransaction) (ba : agraph BatchId ProvenBatch).
Implicit Types (tx : AuthenticatedTransaction).

(** The full invariant. *)
Record minv_full m ta ba : Prop := {
  mf_inv : minv m ta ba;
  mf_block : block_inv m ba;
  mf_alive : alive m ta;
}.

(** Batches are only dropped, and those left keep their proofs. *)
Definition kept ba ba' : Prop :=
  ∀ b, is_Some (ba' !! b) → is_Some (ba !! b) ∧ value_of ba' b = value_of ba b.

Lemma kept_refl ba : kept ba ba.
Proof. done. Qed.

Lemma kept_trans ba ba1 ba2 : kept ba ba1 → kept ba1 ba2 → kept ba ba2.
Proof. intros H1' H2' b [Hb Hv]%H2'. apply H1' in Hb as [Hb Hv']. split; [done|]. congruence. Qed.

Lemma kept_remove ba (R : gset BatchId) : kept ba (a_remove R ba).
Proof.
  intros b Hb. rewrite value_of_remove. rewrite a_remove_lookup in Hb. case_decide; [by destruct Hb|].
  split; [|done]. by apply fmap_is_Some in Hb.
Qed.

(** The committed blocks the mempool retains. *)
Definition retained_blocks m : list (gmap TransactionId InflightState.Delta) :=
  InflightState.committed_blocks (Mempool.state m).

(** What only the block operations change. *)
Definition frame m m' : Prop :=
  Mempool.chain_tip m' = Mempool.chain_tip m ∧
  Mempool.block_in_progress m' = Mempool.block_in_progress m ∧
  Mempool.batch_budget m' = Mempool.batch_budget m ∧
  Mempool.block_budget m' = Mempool.block_budget m ∧
  retained_blocks m' = retained_blocks m.

Lemma frame_block_inv m m' ba : frame m m' → block_inv m ba → block_inv m' ba.
Proof. intros (_ & HB & _) Hb b. rewrite HB. apply Hb. Qed.

(** ** [add_transaction] *)

(** An id not inflight, or a transaction that touches some note: its nullifiers or
    output notes tell a duplicate. *)
Definition distinguishable m tx : Prop :=
  InflightState.transaction_deltas (Mempool.state m) !! tx_id tx = None ∨
  nullifiers_of tx ≠ [] ∨ output_note_ids tx ≠ [].

Lemma admissible_fresh m ta ba tx :
  minv m ta ba → distinguishable m tx → admissible (Mempool.state m) tx → ta !! tx_id tx = None.
Proof.
  intros Hm Hdist Hadm. apply eq_None_not_Some. intros Hs.
  apply (value_is_Some _ _ _ (m_tx _ _ _ Hm)) in Hs as [tx' Hv].
  pose proof (m_deltas _ _ _ Hm (tx_id tx)) as Hd. rewrite Hv in Hd. cbn in Hd.
  assert (tx_id tx' = tx_id tx) as Hid.
  { unfold value_of in Hv. destruct (ta !! tx_id tx) as [n|] eqn:Hn; [|done]. cbn in Hv.
    by apply (t_key _ _ (m_tx _ _ _ Hm) _ _ _ Hn). }
  destruct (linv_owned _ _ _ _ (i_books _ (m_state _ _ _ Hm)) Hd) as [HN HO].
  destruct Hdist as [?|[Hne|Hne]]; [congruence| |].
  - destruct (nullifiers_of tx) as [|n ns] eqn:Hns; [done|].
    apply (adm_nullifiers _ _ Hadm n); [rewrite Hns; by left|]. apply HN. cbn.
    rewrite elem_of_list_to_set. unfold nullifiers_of in *. rewrite (ptx_id_nullifiers _ _ Hid), Hns. by left.
  - destruct (output_note_ids tx) as [|n ns] eqn:Hns; [done|].
    assert (n ∈ dom (InflightState.output_notes (Mempool.state m))) as [st Hst]%elem_of_dom.
    { apply HO. cbn. rewrite elem_of_list_to_set. unfold output_note_ids in *.
      rewrite (ptx_id_output_notes _ _ Hid), Hns. by left. }
    rewrite (adm_outputs _ _ Hadm n) in Hst; [done|]. rewrite Hns. by left.
Qed.

Lemma value_of_t_insert ta tx ps t :
  value_of (t_insert tx ps ta) t = if decide (tx_id tx = t) then Some tx else value_of ta t.
Proof. unfold value_of, t_insert. rewrite lookup_insert. by case_decide. Qed.

Lemma cross_inserted ta ba tm tx ps :
  ta !! tx_id tx = None → cross ta ba tm → cross (t_insert tx ps ta) ba tm.
Proof.
  intros Hfresh [Hb Ho].
  assert (∀ t, is_processed (t_insert tx ps ta) t ↔ is_processed ta t) as Hproc.
  { intros t. unfold is_processed, t_insert. rewrite lookup_insert. case_decide; [|done].
    subst. rewrite Hfresh. split; naive_solver. }
  split; [intros t; by rewrite Hproc|]. intros p c d (n & Hn & Hp) Hd.
  unfold t_insert in Hn. apply lookup_insert_Some in Hn as [[<- _]|[_ Hn]].
  - assert (is_processed ta (tx_id tx)) as (v & qs & Hv) by (apply Hb; eauto). congruence.
  - apply (Ho p c d); [by exists n|done].
Qed.

(** The next transaction of an account starts where its last one ended. *)
Lemma expected_state_last s tx x :
  last (segment s (account_id tx)) = Some x → expected_state s tx = x.1.
Proof.
  unfold segment, expected_state, acct_states, acct_committed, acct, AccountState.current_state.
  destruct (InflightState.accounts s !! account_id tx) as [a|]; cbn.
  - intros Hlast. rewrite last_drop in Hlast; [by rewrite Hlast|].
    destruct (decide (AccountState.committed a < length (AccountState.states a))) as [|Hge]; [done|].
    by rewrite drop_ge in Hlast by lia.
  - done.
Qed.

Lemma minv_inserted m m' ta ba tx ps :
  minv m ta ba → ta !! tx_id tx = None → admissible (Mempool.state m) tx →
  (∀ p, p ∈ ps ↔ parent_of (Mempool.state m) tx p) →
  tinv (Mempool.transactions m') (t_insert tx ps ta) →
  Mempool.batches m' = Mempool.batches m →
  Mempool.state m' = inserted (Mempool.state m) tx →
  einv (Mempool.expirations m') →
  Expirations.by_tx (Mempool.expirations m') =
    <[tx_id tx := expires_at tx]> (Expirations.by_tx (Mempool.expirations m)) →
  sub_inv (Mempool.subscription m') →
  tracked (Mempool.subscription m') = {[tx_id tx]} ∪ tracked (Mempool.subscription m) →
  events m' = events m ++ [Subscription.added_event tx] →
  Subscription.chain_tip (Mempool.subscription m') = Subscription.chain_tip (Mempool.subscription m) →
  Mempool.chain_tip m' = Mempool.chain_tip m →
  minv m' (t_insert tx ps ta) ba.
Proof.
  intros Hm Hfresh Hadm Hps Ht Hb Hs He HE Hsub HT Hev Hstip Htip.
  pose proof (m_state _ _ _ Hm) as Hinv.
  assert (value_of ta (tx_id tx) = None) as Hno by (unfold value_of; by rewrite Hfresh).
  assert (InflightState.transaction_deltas (Mempool.state m) !! tx_id tx = None) as HD
    by (by rewrite (m_deltas _ _ _ Hm), Hno).
  assert (∀ id x, x ∈ segment (Mempool.state m) id → tx_id tx ≠ x.2) as Hother.
  { intros id x (d & Hd & _)%(list_elem_of_fmap_2 snd)%(i_segment _ Hinv) Heq. congruence. }
  split; rewrite ?Hb, ?Hs, ?Hstip, ?Htip; try done.
  - apply (m_batch _ _ _ Hm).
  - apply cross_inserted; [done|apply (m_cross _ _ _ Hm)].
  - by apply iinv_inserted.
  - intros t. cbn. rewrite lookup_insert, value_of_t_insert. case_decide; [done|apply (m_deltas _ _ _ Hm)].
  - intros id. rewrite (segment_inserted _ _ _ _ (i_books _ Hinv)).
    assert (Sorted (linked (t_insert tx ps ta)) (segment (Mempool.state m) id)) as Hold.
    { eapply sorted_weaken; [apply (m_chain _ _ _ Hm)|]. intros x y Hx Hy [(n & Hn & Hp) Hv].
      unfold linked. rewrite value_of_t_insert, decide_False by by eapply Hother.
      split; [|done]. exists n. unfold t_insert. rewrite lookup_insert_ne by by eapply Hother. done. }
    case_decide; [|done]. subst. apply sorted_snoc; [done|]. intros x Hlast. split; cbn.
    + eexists. unfold t_insert. rewrite lookup_insert_eq. split; [done|]. cbn. apply Hps. left. by rewrite Hlast.
    + exists tx. rewrite value_of_t_insert, decide_True by done. split; [done|].
      rewrite (adm_account _ _ Hadm). by apply expected_state_last.
  - intros id x. rewrite (segment_inserted _ _ _ _ (i_books _ Hinv)), value_of_t_insert.
    assert (x ∈ segment (Mempool.state m) id → ∃ tx0,
      (if decide (tx_id tx = x.2) then Some tx else value_of ta x.2) = Some tx0 ∧
      final_state_commitment tx0 = x.1) as Hold.
    { intros Hx. rewrite decide_False by by eapply Hother. by apply (m_final _ _ _ Hm id). }
    destruct (decide (id = account_id tx)); [|exact Hold]. intros [Hx| ->%list_elem_of_singleton]%elem_of_app; [auto|].
    exists tx. by rewrite decide_True.
  - intros t. rewrite HE, lookup_insert, value_of_t_insert. case_decide; [done|apply (m_expires _ _ _ Hm)].
  - unfold t_insert. by rewrite HT, dom_insert_L, (m_tracked _ _ _ Hm).
  - intros ev. rewrite Hev. intros [Hin| ->%list_elem_of_singleton]%elem_of_app.
    + destruct (m_events _ _ _ Hm _ Hin) as (tx' & Hv & ->). exists tx'. rewrite value_of_t_insert.
      rewrite decide_False by congruence. done.
    + exists tx. by rewrite value_of_t_insert, decide_True.
  - apply (m_tip _ _ _ Hm).
  - apply (m_sub_tip _ _ _ Hm).
Qed.

Lemma wp_mempool_add m ta ba tx :
  minv_full m ta ba → distinguishable m tx →
  wp (Mempool.add_transaction tx) m
    (λ m' height, height = Mempool.chain_tip m ∧ frame m m' ∧ admissible (Mempool.state m) tx ∧
      events m' =
        events m ++
          [Subscription.added_event tx] ∧
      ∃ ps, (∀ p, p ∈ ps ↔ parent_of (Mempool.state m) tx p) ∧ minv_full m' (t_insert tx ps ta) ba)
    (λ m' e, m' = m ∧ rejection (Mempool.state m) tx e).
Proof.
  intros [Hm Hblk Hal] Hdist. unfold Mempool.add_transaction, Mempool.on_state. wp_steps.
  eapply wp_mono; [apply wp_add_transaction, (m_state _ _ _ Hm)| |].
  2: { cbn. intros s e [-> Hrej]. split; [by destruct m|done]. }
  cbn beta. intros s ps (Hadm & -> & Hps).
  pose proof (admissible_fresh _ _ _ _ Hm Hdist Hadm) as Hfresh.
  unfold Mempool.on_subscription. wp_steps.
  eapply wp_mono; [apply wp_transaction_added; [exact (m_sub _ _ _ Hm)|]| |done].
  { cbn. rewrite (m_tracked _ _ _ Hm). by apply not_elem_of_dom. }
  cbn beta. intros sub [] (Hsub & Hstip & Hiter & HT). unfold Mempool.on_expirations. wp_steps.
  eapply wp_mono; [apply wp_expire_insert; [exact (m_exp _ _ _ Hm)|]| |done].
  { cbn. rewrite (m_expires _ _ _ Hm). unfold value_of. by rewrite Hfresh. }
  cbn beta. intros ex [] [He HE]. wp_steps. apply wp_expect_ok.
  unfold Mempool.on_transactions. wp_steps.
  eapply wp_mono; [apply wp_tx_insert; [exact (m_tx _ _ _ Hm)|done|]| |done].
  { intros p Hp%Hps%(parent_inflight _ _ _ (m_state _ _ _ Hm)). rewrite (m_deltas _ _ _ Hm) in Hp.
    by apply fmap_is_Some, (value_is_Some _ _ _ (m_tx _ _ _ Hm)) in Hp. }
  cbn beta. intros g [] Ht. wp_steps. cbn in *. split_and!; [done..|].
  exists ps. split; [done|]. split.
  - by eapply minv_inserted.
  - exact Hblk.
  - intros t tx'. rewrite value_of_t_insert. cbn. case_decide; [|by apply Hal].
    intros [= <-]. pose proof (adm_live _ _ Hadm) as Hlive. rewrite (m_tip _ _ _ Hm) in Hlive. lia.
Qed.

(** ** Reverting *)

(** The batches that hold one of the transactions [R]. *)
Definition touched m (R : gset TransactionId) (B : gset BatchId) : Prop :=
  ∀ b, b ∈ B ↔ ∃ t, t ∈ R ∧ BatchGraph.transactions (Mempool.batches m) !! t = Some b.

Lemma upward_linked m ta ba (R : gset TransactionId) :
  minv m ta ba → (∀ p c, edge ta p c → p ∈ R → c ∈ R) → upward (linked ta) R (Mempool.state m).
Proof.
  intros Hm Hcl id. split; [apply (m_chain _ _ _ Hm)|]. intros x y _ _ [He _]. by apply Hcl.
Qed.

Lemma sorted_outside P (R : gset TransactionId) s id :
  upward P R s → Sorted P (filter (outside R) (segment s id)).
Proof.
  intros Hup. destruct (Hup id) as [Hs Hcl].
  pose proof (sorted_filter_split P (λ x, x.2 ∈ R) _ Hs Hcl) as Hsplit.
  rewrite Hsplit in Hs. by apply sorted_app_inv in Hs as [Hs _].
Qed.

Lemma wp_remove_batches_with_transactions {E} (b : BatchGraph.BatchGraph) a (txs : gset TransactionId)
    (Q : BatchGraph.BatchGraph → gmap BatchId (list TransactionId) → Prop) (X : _ → E → Prop) :
  binv b a →
  (∀ (b' : BatchGraph.BatchGraph) B Rb removed,
    (∀ id, id ∈ B ↔ ∃ t, t ∈ txs ∧ BatchGraph.transactions b !! t = Some id) →
    closure a B Rb → binv b' (a_remove Rb a) → without b Rb (BatchGraph.inner b') b' →
    (∀ id, removed !! id = if decide (id ∈ Rb) then BatchGraph.batches b !! id else None) →
    Q b' removed) →
  wp (BatchGraph.remove_batches_with_transactions (bt_iter txs)) b Q X.
Proof.
  intros Hb HQ. unfold BatchGraph.remove_batches_with_transactions. wp_steps. apply wp_expect_ok.
  set (B := list_to_set _ : gset BatchId).
  assert (∀ id, id ∈ B ↔ ∃ t, t ∈ txs ∧ BatchGraph.transactions b !! t = Some id) as HB.
  { intros id. unfold B. rewrite elem_of_list_to_set, list_elem_of_omap.
    by setoid_rewrite elem_of_bt_iter. }
  apply (wp_remove_batches _ a); [done| |intros b' Rb removed ? ? ?; by apply (HQ b' B)].
  intros id (t & _ & (l & Hl & _)%(b_txs _ _ Hb))%HB. apply (b_dom _ _ Hb). eauto.
Qed.

(** The transactions of the removed batches that are to be queued again. *)
Lemma elem_of_requeue (b : BatchGraph.BatchGraph) a (removed : gmap BatchId (list TransactionId)) (Rb : gset BatchId) (R : gset TransactionId) t :
  binv b a →
  (∀ id, removed !! id = if decide (id ∈ Rb) then BatchGraph.batches b !! id else None) →
  t ∈ (list_to_set (filter (λ tx : TransactionId, tx ∉ R) (concat (bm_values removed))) : gset TransactionId) ↔
  t ∉ R ∧ ∃ id, id ∈ Rb ∧ BatchGraph.transactions b !! t = Some id.
Proof.
  intros Hb Hrem. rewrite elem_of_list_to_set, list_elem_of_filter. f_equiv.
  rewrite list_elem_of_In, in_concat. split.
  - intros (l & Hl & Ht). apply list_elem_of_In, elem_of_bm_values in Hl as [id Hl].
    apply list_elem_of_In in Ht. rewrite Hrem in Hl. case_decide; [|done]. exists id. split; [done|].
    apply (b_txs _ _ Hb). eauto.
  - intros (id & Hid & (l & Hl & Ht)%(b_txs _ _ Hb)). exists l. rewrite <- !list_elem_of_In. split; [|done].
    apply elem_of_bm_values. exists id. by rewrite Hrem, decide_True.
Qed.

(** The reverted transactions are [R], the dropped batches [Rb] and the requeued
    transactions [Rq]. *)
Record reverted m ta ba (ids : gset TransactionId) (R : gset TransactionId) (Rb : gset BatchId)
    (Rq : gset TransactionId) : Prop := {
  rv_txs : closure ta ids R;
  rv_batches : ∃ B, touched m R B ∧ closure ba B Rb;
  rv_requeued : ∀ t, t ∈ Rq ↔ t ∉ R ∧ ∃ b, b ∈ Rb ∧
    BatchGraph.transactions (Mempool.batches m) !! t = Some b;
}.

Lemma wp_mempool_revert m ta ba (ids : list TransactionId) :
  minv m ta ba → (∀ t, t ∈ ids → is_Some (ta !! t)) →
  wp_ok (Mempool.revert_transactions ids) m (λ m' R, frame m m' ∧
    events m' =
      drop_ids R (events m) ∧
    ∃ Rb Rq, reverted m ta ba (list_to_set ids) R Rb Rq ∧
      minv m' (a_requeue Rq (a_remove R ta)) (a_remove Rb ba)).
Proof.
  intros Hm Hids. pose proof (m_tx _ _ _ Hm) as Ht. pose proof (m_batch _ _ _ Hm) as Hb.
  pose proof (m_cross _ _ _ Hm) as Hx. pose proof (m_state _ _ _ Hm) as Hi.
  unfold Mempool.revert_transactions, Mempool.on_transactions. wp_steps.
  apply (wp_remove_transactions _ ta); [done..|]. intros g1 R HR Ht1. wp_steps.
  unfold Mempool.on_batches. wp_steps. cbn.
  apply (wp_remove_batches_with_transactions _ ba); [done|]. intros b1 B Rb removed HB HRb Hb1 Hwo Hrem.
  wp_steps. apply wp_expect_ok. wp_steps. cbn.
  set (Q := list_to_set _ : gset TransactionId).
  assert (∀ t, t ∈ Q ↔ t ∉ R ∧ ∃ b, b ∈ Rb ∧ BatchGraph.transactions (Mempool.batches m) !! t = Some b)
    as HQ by (intros t; by apply (elem_of_requeue _ ba)).
  assert (∀ b d, edge ba b d → b ∈ Rb → d ∈ Rb) as Hcl by (intros b d; by apply (closure_step _ B)).
  eapply wp_mono; [apply (wp_requeue_transactions _ _ Q Ht1)| |done].
  { intros t [HtR (b & _ & Htb)]%HQ. apply is_processed_remove. split; [|done]. apply (x_batched _ _ _ Hx). eauto. }
  cbn beta. intros g2 [] (Rq & HRq & Ht2).
  assert (∀ t, t ∈ Rq ↔ t ∉ R ∧ ∃ b, b ∈ Rb ∧ BatchGraph.transactions (Mempool.batches m) !! t = Some b)
    as HRq' by (by eapply requeue_closed; [apply (rep_wf _ _ (t_rep _ _ Ht))|..]).
  assert (∀ t, t ∈ R → is_Some (value_of ta t)) as HRdom.
  { intros t Htr. apply (value_is_Some _ _ _ Ht). eapply closure_dom; [done| |done].
    intros t' Hin%elem_of_list_to_set. by apply Hids. }
  unfold Mempool.on_expirations. wp_steps. cbn.
  eapply wp_mono; [apply wp_expire_remove; exact (m_exp _ _ _ Hm)| |done].
  cbn beta. rewrite list_to_set_bt_iter. intros ex [] [He HE].
  unfold Mempool.on_state. wp_steps. cbn.
  assert (upward (linked ta) R (Mempool.state m)) as Hup.
  { apply (upward_linked _ _ ba); [done|]. intros p c. by apply (closure_step _ (list_to_set ids)). }
  eapply wp_mono; [apply (wp_revert_rest (linked ta)); [done..|]| |done].
  { intros t [tx Hv]%HRdom. apply elem_of_dom. rewrite (m_deltas _ _ _ Hm), Hv. by eexists. }
  cbn beta. intros s [] (Hi' & HD & HF & Hseg). unfold Mempool.on_subscription. wp_steps. cbn.
  eapply wp_mono; [apply wp_txs_reverted; [exact (m_sub _ _ _ Hm)|]| |done].
  { intros t Hv%HRdom. rewrite (m_tracked _ _ _ Hm). by apply elem_of_dom, (value_is_Some _ _ _ Ht). }
  cbn beta. intros sub [] (Hsub & Hstip & Hiter & HT). wp_steps.
  split; [split_and!; [done..|exact (proj1 HF)]|]. split; [done|].
  exists Rb, Rq. split; [split; [done|by exists B|done]|].
  eapply (minv_removed m); cbn; try done.
  - eapply cross_removed; [done|by destruct Hwo as (_ & _ & ?)|done| |done].
    intros t b Htr Htb. apply (closure_incl _ _ _ _ HRb), HB. eauto.
  - intros id. by apply sorted_outside.
  - destruct HF as (_ & _ & HF & _). rewrite HF. apply (m_tip _ _ _ Hm).
  - rewrite Hstip. apply (m_sub_tip _ _ _ Hm).
Qed.

(** ** Selecting and proving batches *)

(** A step that changes the status of nodes only. *)
Lemma minv_regraph m m' ta ta' ba ba' :
  minv m ta ba →
  tinv (Mempool.transactions m') ta' →
  binv (Mempool.batches m') ba' →
  cross ta' ba' (BatchGraph.transactions (Mempool.batches m')) →
  (∀ t, value_of ta' t = value_of ta t) →
  (∀ p c, edge ta p c → edge ta' p c) →
  Mempool.state m' = Mempool.state m → Mempool.expirations m' = Mempool.expirations m →
  Mempool.subscription m' = Mempool.subscription m → Mempool.chain_tip m' = Mempool.chain_tip m →
  minv m' ta' ba'.
Proof.
  intros Hm Ht Hb Hx Hval Hedge Hs He Hsub Htip.
  pose proof Hm as [Ht0 _ _ Hi HD HC HF HE HE' HS HT Hev Htip' Hstip].
  split; rewrite ?Hs, ?He, ?Hsub, ?Htip; try done.
  - intros t. by rewrite Hval.
  - intros id. eapply sorted_weaken; [apply HC|]. intros x y _ _ [He1 Hv]. split; [by apply Hedge|]. by rewrite Hval.
  - intros id x Hin. rewrite Hval. by apply (HF id).
  - intros t. by rewrite Hval.
  - rewrite HT. apply set_eq. intros t.
    by rewrite !elem_of_dom, <- (value_is_Some _ _ _ Ht0), <- (value_is_Some _ _ _ Ht), Hval.
  - intros ev. unfold events. rewrite Hsub. intros (tx & Hv & ->)%Hev. exists tx. by rewrite Hval.
Qed.

Lemma alive_same m m' ta ta' :
  alive m ta → Mempool.chain_tip m' = Mempool.chain_tip m → (∀ t, value_of ta' t = value_of ta t) → alive m' ta'.
Proof. intros Hal Htip Hval t tx. rewrite Hval, Htip. apply Hal. Qed.

Lemma edge_a_insert ba id (pb : gset BatchId) b d :
  ba !! id = None → edge ba b d → edge (a_insert id pb ba) b d.
Proof.
  intros Hno (n & Hn & Hp). exists n. unfold a_insert. rewrite lookup_insert_ne; [done|]. congruence.
Qed.

Lemma cross_selected ta ta' ba (bg bg' : BatchGraph.BatchGraph) ids txs (parents : gset TransactionId) pb :
  cross ta ba (BatchGraph.transactions bg) → selects ta ids ta' → txs.*1 = ids →
  (∀ t, t ∈ ids → BatchGraph.transactions bg !! t = None) →
  (∀ p c, edge ta p c → c ∈ ids → p ∈ parents) →
  parent_batches bg ids parents pb → batch_inserted bg ba txs pb bg' →
  (∀ p, p ∈ parents → p ∈ ids ∨ is_Some (BatchGraph.transactions bg !! p)) →
  cross ta' (a_insert (batch_id_from_ids txs) pb ba) (BatchGraph.transactions bg').
Proof.
  intros [Hb Ho] Hs <- Hfresh Hpar Hpb [_ Hno _ Htm _] Hpp. split.
  - intros t. rewrite (selects_processed _ _ _ _ Hs), Hb, Htm. case_decide; [|naive_solver].
    split; [by eexists|by right].
  - intros p c d He%(selects_edge _ _ _ _ _ Hs). rewrite !Htm. case_decide as Hc.
    + intros [= <-]. case_decide as Hp; [naive_solver|].
      destruct (Hpp p) as [?|[b Hb']]; [by eapply Hpar|done|]. exists b. split; [done|]. right.
      eexists. unfold a_insert. rewrite lookup_insert_eq. split; [done|]. cbn. apply Hpb. exists p. eauto.
    + intros Hd. destruct (Ho _ _ _ He Hd) as (b & Hp & Hbd). rewrite decide_False.
      * exists b. split; [done|]. destruct Hbd as [?|?]; [by left|right]. by apply edge_a_insert.
      * intros Hin. rewrite Hfresh in Hp by done. done.
Qed.

Lemma selects_nil_inv {K V} `{!Key K} (a a' : agraph K V) : selects a [] a' → a' = a.
Proof. intros Hs. inv Hs; [done|]. by destruct ks. Qed.

Lemma spent_nil budget rest : spent budget [] rest → rest = budget.
Proof. intros [E1 E2 E3 E4]. destruct budget, rest; cbn in *. f_equal; lia. Qed.

(** What [select_batch] returns. *)
Definition batch_result m ta (r : option (BatchId * list AuthenticatedTransaction)) : Prop :=
  match r with
  | None => exhausted (Mempool.transactions m) (Mempool.batch_budget m)
  | Some (id, batch) =>
      batch ≠ [] ∧ id = batch_id_from_ids ((λ tx, (tx_id tx, account_id tx)) <$> batch) ∧
      (∃ rest, spent (Mempool.batch_budget m) batch rest) ∧
      ∃ ta', selects ta (tx_id <$> batch) ta' ∧
        ∀ tx, tx ∈ batch → ∃ ps, ta !! tx_id tx = Some (mk_node (Queued tx) ps)
  end.

Lemma batch_ids (batch : list AuthenticatedTransaction) :
  ((λ tx, (tx_id tx, account_id tx)) <$> batch).*1 = tx_id <$> batch.
Proof. by rewrite <- list_fmap_compose. Qed.

Lemma wp_mempool_select_batch {E} m ta ba :
  minv_full m ta ba →
  wp_ok (Mempool.select_batch : M _ E _) m (λ m' r, frame m m' ∧ batch_result m ta r ∧
    match r with
    | Some (id, batch) => Mempool.state m' = Mempool.state m ∧ ∀ t, t ∈ tx_id <$> batch →
        BatchGraph.transactions (Mempool.batches m') !! t = Some id
    | None => m' = m
    end ∧ ∃ ta' ba', minv_full m' ta' ba' ∧
    match r with
    | Some (id, _) => ba !! id = None ∧ ∃ pb, ba' = a_insert id pb ba
    | None => ba' = ba
    end).
Proof.
  intros [Hm Hblk Hal]. pose proof (m_batch _ _ _ Hm) as Hb. pose proof (m_cross _ _ _ Hm) as Hx.
  unfold Mempool.select_batch. wp_steps. apply wp_expect_ok. unfold Mempool.on_transactions. wp_steps.
  eapply wp_mono; [apply wp_select_batch; exact (m_tx _ _ _ Hm)| |done].
  cbn beta. intros g [batch parents] (rest & [(ta' & Hs & Ht) Hval Hpar Hbud] & Hex).
  assert (∀ t, value_of ta' t = value_of ta t) as Hv by (intros t; by apply (selects_value _ _ _ _ Hs)).
  case_decide as Hlen.
  - apply length_zero_iff_nil in Hlen as ->. wp_steps. apply selects_nil_inv in Hs as ->.
    apply spent_nil in Hbud as ->.
    rewrite (rep_det _ _ _ (t_rep _ _ Ht) (t_rep _ _ (m_tx _ _ _ Hm))) in Hex |- *.
    assert (Mempool.set_transactions (Mempool.transactions m) m = m) as -> by by destruct m.
    split_and!; [done..|]. exists ta, ba. by split.
  - assert (batch ≠ []) as Hne by by intros ->.
    set (txs := (λ tx, (tx_id tx, account_id tx)) <$> batch). wp_steps. apply wp_expect_ok.
    assert (∀ t, t ∈ txs.*1 → BatchGraph.transactions (Mempool.batches m) !! t = None) as Hfresh.
    { intros t. unfold txs. rewrite batch_ids. intros Hin. apply eq_None_not_Some.
      intros (v & ps & Hp)%(x_batched _ _ _ Hx).
      destruct (selects_queued _ _ _ _ Hs Hin) as (w & qs & Hq). congruence. }
    assert (∀ p, p ∈ parents → p ∈ txs.*1 ∨ is_Some (BatchGraph.transactions (Mempool.batches m) !! p)) as Hpp.
    { intros p (tx & Hin & He)%Hpar. unfold txs. rewrite batch_ids.
      apply (list_elem_of_fmap_2 tx_id) in Hin. apply list_elem_of_split in Hin as (l1 & l2 & Heq).
      destruct (selects_topological _ _ _ _ _ _ _ Hs Heq He) as [Hp|Hp].
      - right. by apply (x_batched _ _ _ Hx).
      - left. rewrite Heq. set_solver. }
    unfold Mempool.on_batches. wp_steps. cbn.
    eapply wp_mono; [apply (wp_batch_insert _ ba); [done| | |done|done]| |done].
    { unfold txs. by destruct batch. }
    { unfold txs. rewrite batch_ids. by eapply selects_NoDup. }
    cbn beta. intros bg id (-> & pb & Hpb & Hins). wp_steps. cbn.
    split; [done|]. split.
    { split_and!; [done..|by exists rest|]. by exists ta'. }
    split.
    { split; [done|]. intros t Hin. rewrite (bi_txs _ _ _ _ _ Hins). unfold txs. by rewrite batch_ids, decide_True. }
    exists ta', (a_insert (batch_id_from_ids txs) pb ba).
    split; [split; [|intros b|]|split; [exact (bi_fresh _ _ _ _ _ Hins)|eauto]].
    + eapply (minv_regraph m _ ta); cbn; try done.
      * apply (bi_inv _ _ _ _ _ Hins).
      * eapply cross_selected; [done|done|apply batch_ids| | | |done|].
        -- intros t. rewrite <- batch_ids. apply Hfresh.
        -- intros p c He Hc. apply list_elem_of_fmap in Hc as (tx & -> & Hin). apply Hpar. eauto.
        -- by rewrite <- batch_ids.
        -- intros p. rewrite <- batch_ids. apply Hpp.
      * intros p c. by rewrite (selects_edge _ _ _ _ _ Hs).
    + cbn. rewrite <- (Hblk b). unfold is_processed, a_insert. rewrite lookup_insert.
      case_decide; [|done]. subst b. rewrite (bi_fresh _ _ _ _ _ Hins). naive_solver.
    + by eapply alive_same.
Qed.

Lemma wp_mempool_rollback_batch {E} m ta ba b :
  minv_full m ta ba → b ∉ default ∅ (Mempool.block_in_progress m) →
  wp_ok (Mempool.rollback_batch b : M _ E _) m (λ m' _, frame m m' ∧
    Mempool.subscription m' = Mempool.subscription m ∧ ∃ ta' ba' Rb, minv_full m' ta' ba' ∧
      (∀ t, value_of ta' t = value_of ta t) ∧
      (∀ d, d ∈ Rb ↔ is_Some (ba !! b) ∧ rtc (edge ba) b d) ∧
      tm_without (BatchGraph.transactions (Mempool.batches m)) Rb
        (BatchGraph.transactions (Mempool.batches m')) ∧ ba' = a_remove Rb ba).
Proof.
  intros [Hm Hblk Hal] Hnot. pose proof (m_batch _ _ _ Hm) as Hb. pose proof (m_cross _ _ _ Hm) as Hx.
  unfold Mempool.rollback_batch. wp_steps. unfold BatchGraph.contains. case_bool_decide as Hc; wp_steps.
  2: { split_and!; [done..|]. exists ta, ba, ∅. split; [done|]. split; [done|]. split.
       - intros d. split; [set_solver|]. intros [Hs%(b_dom _ _ Hb) _]. by destruct Hc.
       - split; [|by rewrite a_remove_empty].
         intros t. by destruct (BatchGraph.transactions (Mempool.batches m) !! t). }
  apply wp_expect_ok. unfold Mempool.on_batches. wp_steps.
  apply (wp_remove_batches _ ba); [done| |].
  { intros id ->%elem_of_singleton. by apply (b_dom _ _ Hb). }
  intros bg Rb removed HRb Hb1 Hwo Hrem. wp_steps. apply wp_expect_ok. unfold Mempool.on_transactions. wp_steps. cbn.
  set (Q := list_to_set _ : gset TransactionId).
  assert (∀ t, t ∈ Q ↔ t ∉ (∅ : gset TransactionId) ∧
    ∃ b, b ∈ Rb ∧ BatchGraph.transactions (Mempool.batches m) !! t = Some b) as HQ.
  { intros t. rewrite <- (elem_of_requeue _ ba removed Rb ∅ t Hb Hrem). unfold Q.
    rewrite filter_all; [done|]. apply Forall_forall. set_solver. }
  assert (∀ b d, edge ba b d → b ∈ Rb → d ∈ Rb) as Hcl by (intros ??; by apply (closure_step _ {[b]})).
  eapply wp_mono; [apply (wp_requeue_transactions _ ta Q (m_tx _ _ _ Hm))| |done].
  { intros t [_ (b' & _ & Htb)]%HQ. apply (x_batched _ _ _ Hx). eauto. }
  cbn beta. intros g [] (Rq & HRq & Ht). split; [done|]. split; [done|].
  rewrite <- (a_remove_empty ta) in HRq.
  pose proof (requeue_closed _ _ _ _ _ _ _ (rep_wf _ _ (t_rep _ _ (m_tx _ _ _ Hm))) Hx Hcl HQ HRq) as HRq'.
  pose proof (cross_removed _ _ _ ∅ Rq Rb _ Hx (proj2 (proj2 Hwo)) Hcl ltac:(set_solver) HRq') as Hcross.
  rewrite a_remove_empty in Hcross. exists (a_requeue Rq ta), (a_remove Rb ba), Rb.
  split; [|split; [intros t; by rewrite value_of_requeue|split; [|split; [exact (proj2 (proj2 Hwo))|done]]]].
  2: { intros d. split; [intros (k & ->%elem_of_singleton & Hrtc)%HRb|].
       - split; [by apply (b_dom _ _ Hb)|done].
       - intros [_ Hrtc]. apply HRb. exists b. set_solver. }
  split.
  - eapply (minv_regraph m); cbn; try done.
    + intros t. by rewrite value_of_requeue.
    + intros p c. by rewrite edge_requeue.
  - intros b'. cbn. rewrite is_processed_remove, (Hblk b'). split; [naive_solver|].
    intros Hin. split; [done|]. intros (k & ->%elem_of_singleton & Hrtc)%HRb. apply Hnot, Hblk.
    eapply processed_ancestor; [exact (rep_wf _ _ (b_rep _ _ Hb))|done|]. by apply Hblk.
  - eapply alive_same; [done|done|]. intros t. by rewrite value_of_requeue.
Qed.

Lemma cross_same_edges ta ba ba' tm :
  cross ta ba tm → (∀ b d, edge ba b d → edge ba' b d) → cross ta ba' tm.
Proof.
  intros [Hb Ho] He. split; [done|]. intros p c d Hpc Hc. destruct (Ho _ _ _ Hpc Hc) as (b & Hp & Hbd). naive_solver.
Qed.

Lemma wp_mempool_commit_batch {E} m ta ba (batch : ProvenBatch) :
  minv_full m ta ba → (is_Some (ba !! batch_id batch) → is_pending ba (batch_id batch)) →
  wp_ok (Mempool.commit_batch batch : M _ E _) m (λ m' _, frame m m' ∧
    Mempool.subscription m' = Mempool.subscription m ∧
    ∃ ba', minv_full m' ta ba' ∧ ba' = a_promote (batch_id batch) batch ba).
Proof.
  intros [Hm Hblk Hal] Hpe. pose proof (m_batch _ _ _ Hm) as Hb.
  unfold Mempool.commit_batch. wp_steps. unfold BatchGraph.contains. case_bool_decide as Hc; wp_steps.
  2: { split_and!; [done..|]. exists ba. split; [done|]. symmetry. apply alter_id.
       intros n Hn. destruct Hc. apply (b_dom _ _ Hb). eauto. }
  apply (b_dom _ _ Hb), Hpe in Hc. apply wp_expect_ok. unfold Mempool.on_batches. wp_steps.
  apply (wp_submit_proof _ ba); [done..|]. intros bg Hb1 HT HB.
  split; [done|]. split; [done|]. exists (a_promote (batch_id batch) batch ba). split; [|done]. split.
  - apply (minv_regraph m _ ta _ ba); [done|apply (m_tx _ _ _ Hm)|done| |done..]. cbn. rewrite HT.
    eapply cross_same_edges; [apply (m_cross _ _ _ Hm)|]. intros b d.
    apply same_preds_edge, same_preds_promote.
  - intros b. cbn. by rewrite is_processed_promote.
  - by eapply alive_same.
Qed.

(** ** Blocks *)

Lemma wp_mempool_select_block {E} m ta ba :
  minv_full m ta ba → Mempool.block_in_progress m = None →
  wp_ok (Mempool.select_block : M _ E _) m (λ m' '(number, selected),
    number = (Mempool.chain_tip m + 1)%N ∧
    (N.of_nat (length selected) ≤ BlockBudget.batches (Mempool.block_budget m))%N ∧
    Mempool.chain_tip m' = Mempool.chain_tip m ∧
    Mempool.block_in_progress m' = Some (list_to_set (batch_id <$> selected)) ∧
    Mempool.subscription m' = Mempool.subscription m ∧
    ∃ ba', selects ba (batch_id <$> selected) ba' ∧ minv_full m' ta ba' ∧ retained_blocks m' = retained_blocks m ∧
      ∀ pb, pb ∈ selected → value_of ba (batch_id pb) = Some pb).
Proof.
  intros [Hm Hblk Hal] Hnone. pose proof (m_batch _ _ _ Hm) as Hb.
  unfold Mempool.select_block. wp_steps. apply wp_assert; [by apply bool_decide_eq_true|].
  unfold Mempool.on_batches. wp_steps.
  eapply wp_mono; [by apply (wp_select_block _ ba)| |done].
  cbn beta. intros bg selected (rest & [(ba' & Hs & Hb') [HT HB] Hval Hbud] & Hex). wp_steps.
  split; [apply bn_child_spec|]. split; [lia|]. split_and!; [done..|]. exists ba'. split; [done|].
  split; [split|split; [done|]; intros pb [ps Hps]%Hval; unfold value_of; by rewrite Hps].
  - apply (minv_regraph m _ ta _ ba); [done|apply (m_tx _ _ _ Hm)|done| |done..]. cbn. rewrite HT.
    eapply cross_same_edges; [apply (m_cross _ _ _ Hm)|]. intros b d. by apply (selects_edge _ _ _ _ _ Hs).
  - intros b. cbn. rewrite (selects_processed _ _ _ _ Hs), (Hblk b), Hnone, elem_of_list_to_set. cbn. set_solver.
  - by eapply alive_same.
Qed.

Lemma a_requeue_empty {K V} `{!Key K} (a : agraph K V) : a_requeue ∅ a = a.
Proof.
  apply map_eq. intros k. rewrite a_requeue_lookup. destruct (a !! k) as [n|]; [|done]. cbn.
  by rewrite decide_False by set_solver.
Qed.

Lemma sorted_outside_down P (R : gset TransactionId) s id :
  downward P R s → Sorted P (filter (outside R) (segment s id)).
Proof.
  intros Hup. destruct (Hup id) as [Hs Hcl].
  pose proof (sorted_filter_split P (outside R) _ Hs) as Hsplit. rewrite Hsplit in Hs.
  - by apply sorted_app_inv in Hs as [_ Hs].
  - intros x y Hx Hy HR Hout Hin. by apply Hout, (Hcl x y).
Qed.

(** The transactions of the block in progress. *)
Definition block_txs m (B : gset BatchId) : list TransactionId := collected (Mempool.batches m) B.

(** They are processed, and closed under parents. *)
Lemma block_txs_closed m ta ba (B : gset BatchId) :
  minv m ta ba → (∀ b, is_processed ba b ↔ b ∈ B) →
  (∀ b d, edge ba b d → d ∈ B → b ∈ B) ∧
  (∀ t, t ∈ block_txs m B → is_processed ta t) ∧
  (∀ p c, edge ta p c → c ∈ block_txs m B → p ∈ block_txs m B).
Proof.
  intros Hm HB. pose proof (m_batch _ _ _ Hm) as Hb. pose proof (m_cross _ _ _ Hm) as [Hxb Hxo].
  assert (∀ b d, edge ba b d → d ∈ B → b ∈ B) as Hcl.
  { intros p c He Hc. apply HB. eapply awf_closed; [apply (rep_wf _ _ (b_rep _ _ Hb))|done|]. by apply HB. }
  split_and!; [done| |]; unfold block_txs.
  - intros t (b & _ & Ht)%(elem_of_collected _ _ _ _ Hb). apply Hxb. eauto.
  - intros p c He (d & Hd & Hc)%(elem_of_collected _ _ _ _ Hb). apply (elem_of_collected _ _ _ _ Hb).
    destruct (Hxo _ _ _ He Hc) as (b & Hp & Hbd). exists b. split; [|done]. destruct Hbd as [->|Hbd]; eauto.
Qed.

(** The part of [commit_block] before the expired transactions are reverted. *)
Definition committed_part {E} (header : BlockHeader) (block : gset BatchId) : M Mempool.Mempool E unit :=
  _ ← modify (Mempool.set_block_in_progress None);
  txs ← expect_ok (Mempool.on_batches (BatchGraph.prune_committed block)) "Batches failed to commit";
  _ ← expect_ok (Mempool.on_transactions (TransactionGraph.commit_transactions txs)) "Transaction graph malformed";
  _ ← Mempool.on_expirations (Expirations.remove txs);
  _ ← Mempool.on_state (InflightState.commit_block txs);
  _ ← modify (λ m, Mempool.set_chain_tip (bn_child (Mempool.chain_tip m)) m);
  Mempool.on_subscription (Subscription.block_committed header txs).

(** The block of the transactions [R] is the newest of the retained ones. *)
Definition advanced m (R : gset TransactionId) m' : Prop :=
  retained_blocks m' = retained (InflightState.num_retained_blocks (Mempool.state m))
    (retained_blocks m ++ [block_of R (Mempool.state m)]).

Lemma wp_committed_part {E} m ta ba header (B : gset BatchId) :
  minv_full m ta ba → Mempool.block_in_progress m = Some B →
  header_block_num header = (Mempool.chain_tip m + 1)%N →
  let R := list_to_set (block_txs m B) in
  wp_ok (committed_part header B : M _ E _) m (λ m' _,
    Mempool.chain_tip m' = (Mempool.chain_tip m + 1)%N ∧ Mempool.block_in_progress m' = None ∧
    events m' =
      drop_ids R (events m) ∧
    minv m' (a_remove R ta) (a_remove B ba) ∧ advanced m R m').
Proof.
  intros [Hm Hblk Hal] HB Hhead R. pose proof (m_batch _ _ _ Hm) as Hb. pose proof (m_cross _ _ _ Hm) as Hx.
  assert (∀ b, is_processed ba b ↔ b ∈ B) as HBp by (intros b; by rewrite (Hblk b), HB).
  destruct (block_txs_closed _ _ _ _ Hm HBp) as (Hclb & Hproc & Hclt).
  assert (∀ t, t ∈ block_txs m B → is_Some (value_of ta t)) as Hval.
  { intros t (v & ps & Hv)%Hproc. unfold value_of. rewrite Hv. by eexists. }
  unfold committed_part. wp_steps. apply wp_expect_ok. unfold Mempool.on_batches. wp_steps. cbn.
  apply (wp_prune_committed _ ba); [done|by intros ? ?%HBp|done|]. intros bg Hb1 Hwo. fold (block_txs m B).
  wp_steps. apply wp_expect_ok. unfold Mempool.on_transactions. wp_steps. cbn.
  eapply wp_mono; [apply (wp_commit_transactions _ ta); [apply (m_tx _ _ _ Hm)|done|done]| |done].
  cbn beta. intros g [] Ht. fold R in Ht. unfold Mempool.on_expirations. wp_steps. cbn.
  eapply wp_mono; [apply wp_expire_remove; exact (m_exp _ _ _ Hm)| |done].
  cbn beta. intros ex [] [He HE]. fold R in HE. unfold Mempool.on_state. wp_steps. cbn.
  assert (downward (linked ta) R (Mempool.state m)) as Hdown.
  { intros id. split; [apply (m_chain _ _ _ Hm)|]. intros x y _ _ [Hedge _]. unfold R.
    rewrite !elem_of_list_to_set. by apply Hclt. }
  eapply wp_mono; [apply (wp_commit_rest (linked ta)); [apply (m_state _ _ _ Hm)| |done|]| |done].
  { by eapply NoDup_collected. }
  { intros t [tx Hv]%Hval. apply elem_of_dom. rewrite (m_deltas _ _ _ Hm), Hv. by eexists. }
  cbn beta. intros s [] (Hi & HD & HT & Hret & _ & _ & Hseg). fold R in HD, Hret, Hseg. wp_steps.
  unfold Mempool.on_subscription. wp_steps. cbn.
  eapply wp_mono; [apply wp_block_committed; [exact (m_sub _ _ _ Hm)| |]| |done].
  { by eapply NoDup_collected. }
  { intros t Hv%Hval. cbn. rewrite (m_tracked _ _ _ Hm). by apply elem_of_dom, (value_is_Some _ _ _ (m_tx _ _ _ Hm)). }
  cbn beta. intros sub [] (Hsub & Hstip & Hiter & Htr). cbn in *.
  split; [apply bn_child_spec|]. split; [done|]. split; [done|]. split; [|exact Hret].
  rewrite <- (a_requeue_empty (a_remove R ta)). rewrite <- (a_requeue_empty (a_remove R ta)) in Ht.
  apply (minv_removed m); cbn; try done.
  - rewrite a_requeue_empty. eapply cross_committed; [done|exact (proj2 (proj2 Hwo))|].
    intros t. unfold R. rewrite elem_of_list_to_set. by apply (elem_of_collected _ ba).
  - intros id. by apply sorted_outside_down.
  - by rewrite HT, (m_tip _ _ _ Hm), bn_child_spec.
  - by rewrite Hstip, Hhead, bn_child_spec.
Qed.

Lemma wp_mempool_revert_expired {E} m ta ba :
  minv m ta ba → Mempool.block_in_progress m = None → (∀ b, ¬ is_processed ba b) →
  (∀ t tx, value_of ta t = Some tx → (Mempool.chain_tip m ≤ expires_at tx)%N) →
  wp_ok (Mempool.revert_expired_transactions : M _ E _) m (λ m' expired, frame m m' ∧
    (∀ t, t ∈ expired ↔ ∃ tx, value_of ta t = Some tx ∧ expires_at tx = Mempool.chain_tip m) ∧
    ∃ R ta' ba', closure ta expired R ∧ minv_full m' ta' ba' ∧
      (∀ t, value_of ta' t = if decide (t ∈ R) then None else value_of ta t) ∧
      events m' =
        drop_ids R (events m) ∧ kept ba ba').
Proof.
  intros Hm Hnone Hnp Hle. unfold Mempool.revert_expired_transactions, Mempool.on_expirations.
  wp_steps. unfold Expirations.get_expiring. wp_steps. apply wp_expect_ok.
  set (expired := default ∅ _ : gset TransactionId).
  assert (∀ t, t ∈ expired ↔ ∃ tx, value_of ta t = Some tx ∧ expires_at tx = Mempool.chain_tip m) as Hexp.
  { intros t. unfold expired. rewrite elem_of_get_expiring by exact (m_exp _ _ _ Hm).
    rewrite (m_expires _ _ _ Hm), fmap_Some. naive_solver. }
  assert (Mempool.set_expirations (Mempool.expirations m) m = m) as -> by by destruct m.
  eapply wp_mono; [apply (wp_mempool_revert m ta ba); [done|]| |done].
  { intros t Hin%elem_of_bt_iter. apply Hexp in Hin as (tx & Hv & _).
    apply (value_is_Some _ _ _ (m_tx _ _ _ Hm)). eauto. }
  cbn beta. rewrite list_to_set_bt_iter. intros m' R (HF & Hiter & Rb & Rq & [HR _ _] & Hm').
  wp_steps. split; [done|]. split; [done|].
  assert (∀ t, value_of (a_requeue Rq (a_remove R ta)) t = if decide (t ∈ R) then None else value_of ta t) as Hval.
  { intros t. by rewrite value_of_requeue, value_of_remove. }
  exists R, (a_requeue Rq (a_remove R ta)), (a_remove Rb ba).
  split_and!; [done| |done|done|apply kept_remove].
  pose proof HF as (Htip & Hblk & _). split; [done| |].
  - intros b. rewrite Hblk, Hnone, is_processed_remove. cbn. split; [|set_solver]. intros [Hb _]. by destruct (Hnp b).
  - intros t tx. rewrite Hval, Htip. case_decide as HtR; [done|]. intros Hv.
    pose proof (Hle _ _ Hv). assert (expires_at tx ≠ Mempool.chain_tip m); [|lia].
    intros Heq. apply HtR, (closure_incl _ _ _ _ HR), Hexp. eauto.
Qed.

Lemma commit_block_split {E} header m (block : gset BatchId) (Q : _ → unit → Prop) (X : _ → E → Prop) :
  Mempool.block_in_progress m = Some block →
  wp (committed_part header block) m (λ m' _, wp (Mempool.revert_expired_transactions) m' (λ m'' _, Q m'' tt) X) X →
  wp (Mempool.commit_block header : M _ E _) m Q X.
Proof.
  intros HB HQ. unfold Mempool.commit_block, committed_part in *. rewrite wp_bind, wp_get.
  rewrite wp_bind. apply (wp_expect_some _ block); [done|].
  do 6 (rewrite !wp_bind in HQ |- *; eapply wp_mono; [exact HQ| |done]; cbn beta; clear HQ; intros ? ? HQ).
  rewrite wp_bind. eapply wp_mono; [exact HQ| |done]. cbn beta. clear HQ. intros m1 [] HQ.
  rewrite wp_bind. eapply wp_mono; [exact HQ| |done]. cbn beta. intros. by rewrite wp_ret.
Qed.

(** The transactions a committed block removes: its own, and the expired ones with
    their descendants. *)
Lemma wp_mempool_commit_block {E} m ta ba header (B : gset BatchId) :
  minv_full m ta ba → Mempool.block_in_progress m = Some B →
  header_block_num header = (Mempool.chain_tip m + 1)%N →
  let C := list_to_set (block_txs m B) in
  wp_ok (Mempool.commit_block header : M _ E _) m (λ m' _,
    Mempool.chain_tip m' = (Mempool.chain_tip m + 1)%N ∧ Mempool.block_in_progress m' = None ∧
    ∃ expired R ta' ba', minv_full m' ta' ba' ∧ closure (a_remove C ta) expired R ∧
      (∀ t, t ∈ expired ↔ t ∉ C ∧ ∃ tx, value_of ta t = Some tx ∧ expires_at tx = (Mempool.chain_tip m + 1)%N) ∧
      (∀ t, value_of ta' t = if decide (t ∈ C ∪ R) then None else value_of ta t) ∧
      events m' =
        drop_ids (C ∪ R) (events m) ∧ kept ba ba' ∧ advanced m C m').
Proof.
  intros Hfull HB Hhead C. pose proof Hfull as [Hm Hblk Hal].
  apply (commit_block_split _ _ B); [done|].
  eapply wp_mono; [by apply wp_committed_part|cbn beta|done].
  intros m1 [] (Htip & Hnone & Hiter & Hm1 & Hadv). fold C in Hiter, Hm1, Hadv.
  assert (∀ t, value_of (a_remove C ta) t = if decide (t ∈ C) then None else value_of ta t) as Hval
    by (intros t; apply value_of_remove).
  eapply wp_mono; [apply (wp_mempool_revert_expired _ _ _ Hm1 Hnone)|cbn beta|done].
  - intros b [Hb Hno]%is_processed_remove. apply Hno. apply Hblk in Hb. by rewrite HB in Hb.
  - intros t tx. rewrite Hval, Htip. case_decide; [done|]. intros Hv%Hal. lia.
  - intros m2 expired (HF & Hexp & R & ta' & ba' & HR & Hfull' & Hval' & Hiter' & Hkept).
    pose proof HF as (Htip' & Hblk' & _ & _ & Hhist).
    split; [by rewrite Htip', Htip|]. split; [by rewrite Hblk'|]. exists expired, R, ta', ba'.
    split; [done|]. split; [done|]. split_and!.
    + intros t. rewrite Hexp, Hval, Htip. case_decide; naive_solver.
    + intros t. rewrite Hval', Hval. repeat case_decide; try done; set_solver.
    + by rewrite Hiter', Hiter, drop_ids_drop.
    + eapply kept_trans; [apply kept_remove|exact Hkept].
    + unfold advanced. by rewrite Hhist.
Qed.

Lemma wp_block_transactions {E} m ta ba (B : gset BatchId) :
  minv m ta ba → (∀ b, b ∈ B → is_Some (ba !! b)) →
  wp_ok (fold_m (λ acc batch,
    m ← get;
    ids ← expect_some (BatchGraph.get_transactions batch (Mempool.batches m))
            "batch from a block must be in the mempool";
    mret (acc ++ ids)) [] (bt_iter B) : M _ E _) m (λ m' txs, m' = m ∧ txs = block_txs m B).
Proof.
  intros Hm HB. apply (wp_fold_m_ok (λ pre m' txs, m' = m ∧
    txs = concat ((λ id, default [] (BatchGraph.batches (Mempool.batches m) !! id)) <$> pre))).
  - done.
  - intros pre b rest m' txs Hl [-> ->]. wp_steps.
    assert (is_Some (ba !! b)) as [l Hlb]%(b_dom _ _ (m_batch _ _ _ Hm)).
    { apply HB, elem_of_bt_iter. rewrite Hl. set_solver. }
    eapply wp_expect_some; [exact Hlb|]. wp_steps. split; [done|].
    rewrite fmap_app, concat_app. cbn. by rewrite Hlb, app_nil_r.
  - done.
Qed.

Lemma wp_mempool_rollback_block {E} m ta ba (B : gset BatchId) :
  minv_full m ta ba → Mempool.block_in_progress m = Some B →
  wp_ok (Mempool.rollback_block : M _ E _) m (λ m' _,
    Mempool.chain_tip m' = Mempool.chain_tip m ∧ Mempool.block_in_progress m' = None ∧
    ∃ R ta' ba', minv_full m' ta' ba' ∧ closure ta (list_to_set (block_txs m B)) R ∧
      (∀ t, value_of ta' t = if decide (t ∈ R) then None else value_of ta t) ∧
      events m' =
        drop_ids R (events m) ∧ kept ba ba' ∧ retained_blocks m' = retained_blocks m).
Proof.
  intros [Hm Hblk Hal] HB. unfold Mempool.rollback_block. wp_steps.
  apply (wp_expect_some _ B); [done|]. wp_steps.
  set (m1 := Mempool.set_block_in_progress None m).
  assert (minv m1 ta ba) as Hm1 by (destruct Hm; by split).
  assert (∀ b, is_processed ba b ↔ b ∈ B) as HBp by (intros b; by rewrite (Hblk b), HB).
  eapply wp_mono; [apply (wp_block_transactions _ _ _ B Hm1)|cbn beta|done].
  { intros b (v & ps & Hb)%HBp. eauto. }
  intros m' txs [-> ->]. wp_steps. apply wp_expect_ok.
  destruct (block_txs_closed _ _ _ _ Hm1 HBp) as (_ & Hproc & _).
  eapply wp_mono; [apply (wp_mempool_revert m1 ta ba); [done|]|cbn beta|done].
  { intros t (v & ps & Ht)%Hproc. eauto. }
  intros m2 R (HF & Hiter & Rb & Rq & [HR (B' & HB' & HRb) _] & Hm2). wp_steps. pose proof HF as (Htip & Hb2 & _ & _ & Hhist).
  assert (∀ t, value_of (a_requeue Rq (a_remove R ta)) t = if decide (t ∈ R) then None else value_of ta t) as Hval.
  { intros t. by rewrite value_of_requeue, value_of_remove. }
  split; [done|]. split; [done|]. exists R, (a_requeue Rq (a_remove R ta)), (a_remove Rb ba).
  split_and!; [split; [done| |]|done|done|done|apply kept_remove|exact Hhist].
  - intros b. rewrite Hb2. cbn. rewrite is_processed_remove. split; [|set_solver]. intros [Hb Hno].
    apply HBp in Hb as HbB. destruct Hno. apply (closure_incl _ _ _ _ HRb), HB'.
    destruct Hb as (v & ps & Hb). pose proof (m_batch _ _ _ Hm1) as Hbi.
    assert (is_Some (BatchGraph.batches (Mempool.batches m1) !! b)) as [l Hl] by (apply (b_dom _ _ Hbi); eauto).
    destruct (b_list _ _ Hbi _ _ Hl) as [_ Hne]. destruct l as [|t l]; [done|].
    assert (BatchGraph.transactions (Mempool.batches m1) !! t = Some b) as Ht.
    { apply (b_txs _ _ Hbi). eexists. split; [done|left]. }
    exists t. split; [|done]. apply (closure_incl _ _ _ _ HR), elem_of_list_to_set.
    apply (elem_of_collected _ _ _ _ Hbi). eauto.
  - intros t tx. rewrite Hval, Htip. case_decide; [done|]. apply Hal.
Qed.

Lemma wp_mempool_subscribe m ta ba tip :
  minv_full m ta ba →
  wp (Mempool.subscribe tip) m (λ m' _, frame m m' ∧ tip = Mempool.chain_tip m ∧ minv_full m' ta ba ∧
      ∃ sender, Subscription.subscription (Mempool.subscription m') = Some sender ∧
        sent sender = events m)
    (λ m' e, m' = m ∧ e = Mempool.chain_tip m ∧ tip ≠ Mempool.chain_tip m).
Proof.
  intros [Hm Hblk Hal]. unfold Mempool.subscribe, Mempool.on_subscription. wp_steps.
  eapply wp_mono; [apply wp_subscribe, (m_sub _ _ _ Hm)| |]; cbn beta.
  - intros sub rx (Hsub & Htip & Hstip & Htxs & sender & Hs & Hsent). rewrite (m_sub_tip _ _ _ Hm) in Htip, Hstip.
    split; [done|]. split; [done|]. split; [|by exists sender]. split; [|done|done].
    pose proof (m_events _ _ _ Hm) as Hev. destruct Hm. split; cbn; try done.
    + unfold tracked. by rewrite Htxs.
    + intros ev. unfold events. cbn. rewrite Htxs. exact (Hev ev).
  - intros sub e (-> & -> & Hne). rewrite (m_sub_tip _ _ _ Hm) in Hne |- *. split; [by destruct m|done].
Qed.

End mempool_ops.
