(* ===== verification/MempoolTheorems.v ===== *)
(** * Theorems about the mempool

    A mempool is driven by the RPC tasks (which add transactions), the batch and
    the block builder, and the subscriber, each holding its lock for one call.
    [reachable] describes the states such an interleaving of calls can produce; the
    theorems hold in all of them. *)

From S2P Require Import Prelude.
From S2P Require Import Graph.
From S2P Require Import GraphProofs.
From S2P Require Import GraphRemoval.
From S2P Require Import GraphTheorems.
From S2P Require Import TransactionGraphProofs.
From S2P Require Import External.
From S2P Require Import Transaction.
From S2P Require Import InflightState.
From S2P Require Import InflightProofs.
From S2P Require Import InflightOps.
From S2P Require Import Subscription.
From S2P Require Import SubscriptionProofs.
From S2P Require Import TransactionGraph.
From S2P Require Import BatchGraph.
From S2P Require Import BatchGraphProofs.
From S2P Require Import Mempool.
From S2P Require Import MempoolInv.
From S2P Require Import MempoolOps.
Import GraphSpec InflightState.

(** The calls of the other components. *)
Inductive MempoolOp `{!MidenObjects} : Type :=
| AddTransaction (tx : AuthenticatedTransaction)
| SelectBatch
| RollbackBatch (batch : BatchId)
| CommitBatch (batch : ProvenBatch)
| SelectBlock
| CommitBlock (header : BlockHeader)
| RollbackBlock
| Subscribe (tip : BlockNumber).

Inductive outcome : Type := Returned | Rejected | Panicked | Stuck.

Definition outcome_of {E A} (r : res E A) : outcome :=
  match r with Ok _ => Returned | Err _ => Rejected | Panic _ => Panicked | OutOfFuel => Stuck end.

Section theorems.
Context `{!MidenObjects} `{!MidenLaws} `{!Channel} `{!ChannelLaws}.
Implicit Types (m : Mempool.Mempool) (t p c : TransactionId) (b d : BatchId) (tx : AuthenticatedTransaction).

Definition perform {E A} (op : M Mempool.Mempool E A) m : Mempool.Mempool * outcome :=
  let '(m', r) := op m in (m', outcome_of r).

Definition run (op : MempoolOp) m : Mempool.Mempool * outcome :=
  match op with
  | AddTransaction tx => perform (Mempool.add_transaction tx) m
  | SelectBatch => perform (E := Empty_set) Mempool.select_batch m
  | RollbackBatch batch => perform (E := Empty_set) (Mempool.rollback_batch batch) m
  | CommitBatch batch => perform (E := Empty_set) (Mempool.commit_batch batch) m
  | SelectBlock => perform (E := Empty_set) Mempool.select_block m
  | CommitBlock header => perform (E := Empty_set) (Mempool.commit_block header) m
  | RollbackBlock => perform (E := Empty_set) Mempool.rollback_block m
  | Subscribe tip => perform (Mempool.subscribe tip) m
  end.

(** The protocol the callers keep to. A block is built at a time and committed with
    the header after the chain tip; a batch that is already in that block is not
    rolled back; a batch is proven once. *)
Definition allowed m (op : MempoolOp) : Prop :=
  match op with
  | AddTransaction tx => distinguishable m tx
  | RollbackBatch batch => batch ∉ default ∅ (Mempool.block_in_progress m)
  | CommitBatch batch => BatchGraph.contains (batch_id batch) (Mempool.batches m) = true →
      batch_id batch ∈ Graph.pending (BatchGraph.inner (Mempool.batches m))
  | SelectBlock => Mempool.block_in_progress m = None
  | CommitBlock header => Mempool.block_in_progress m ≠ None ∧
      header_block_num header = (Mempool.chain_tip m + 1)%N
  | RollbackBlock => Mempool.block_in_progress m ≠ None
  | SelectBatch | Subscribe _ => True
  end.

Inductive reachable : Mempool.Mempool → Prop :=
| reachable_new tip batch_budget block_budget retention slack :
    (N.of_nat retention < 2 ^ 32)%N →
    reachable (Mempool.new tip batch_budget block_budget retention slack)
| reachable_run m op : reachable m → allowed m op → reachable (run op m).1.

(** [t] is inflight and [tx] its transaction. *)
Definition inflight m t tx : Prop := Graph.get_value t (Mempool.transactions m) = Some tx.

(** [p] is an inflight parent of [t]. *)
Definition parent m p t : Prop :=
  ∃ ps, Graph.parents_of t (Mempool.transactions m) = Some ps ∧ p ∈ ps.

Definition batch_of m t : option BatchId := BatchGraph.transactions (Mempool.batches m) !! t.

(** ** From the invariant to the state *)

Lemma inflight_value m ta ba t tx : minv m ta ba → inflight m t tx ↔ value_of ta t = Some tx.
Proof.
  intros Hm. unfold inflight, Graph.get_value, value_of.
  by rewrite (rep_vertices _ _ (rep_is_core _ _ (t_rep _ _ (m_tx _ _ _ Hm)))).
Qed.

Lemma parent_edge m ta ba p t : minv m ta ba → parent m p t ↔ edge ta p t.
Proof.
  intros Hm. unfold parent, Graph.parents_of, edge.
  rewrite (rep_parents _ _ (rep_is_core _ _ (t_rep _ _ (m_tx _ _ _ Hm)))). split.
  - intros (ps & (n & Hn & ->)%fmap_Some & Hp). eauto.
  - intros (n & -> & Hp). by exists (preds n).
Qed.

Lemma value_id g ta t tx : tinv g ta → value_of ta t = Some tx → tx_id tx = t.
Proof.
  intros Ht. unfold value_of. destruct (ta !! t) as [n|] eqn:Hn; [|done]. cbn. by apply (t_key _ _ Ht).
Qed.

Lemma perform_wp {E A} (op : M Mempool.Mempool E A) m Q X (P : Mempool.Mempool → outcome → Prop) :
  wp op m Q X → (∀ m' a, Q m' a → P m' Returned) → (∀ m' e, X m' e → P m' Rejected) →
  P (perform op m).1 (perform op m).2.
Proof.
  rewrite wp_unfold. unfold perform. destruct (op m) as [m' []]; cbn; intros Hwp HQ HX; try done; eauto.
Qed.

(** Every call keeps the invariant, does not panic, and leaves the state alone when
    it returns an error. *)
Lemma run_inv m ta ba op :
  minv_full m ta ba → allowed m op →
  ((run op m).2 = Returned ∨ (run op m).2 = Rejected ∧ (run op m).1 = m) ∧
  ∃ ta' ba', minv_full (run op m).1 ta' ba'.
Proof.
  intros Hm Hal. set (P m' o := (o = Returned ∨ o = Rejected ∧ m' = m) ∧ ∃ ta' ba', minv_full m' ta' ba').
  destruct op; cbn in *.
  - apply (perform_wp _ _ _ _ P (wp_mempool_add _ _ _ _ Hm Hal)); unfold P; naive_solver.
  - apply (perform_wp _ _ _ _ P (wp_mempool_select_batch _ _ _ Hm)); unfold P; naive_solver.
  - apply (perform_wp _ _ _ _ P (wp_mempool_rollback_batch _ _ _ _ Hm Hal)); unfold P; naive_solver.
  - apply (perform_wp _ _ _ _ P (wp_mempool_commit_batch _ _ _ batch Hm
      ltac:(intros Hs; apply (rep_pending _ _ (rep_is_core _ _ (b_rep _ _ (m_batch _ _ _ (mf_inv _ _ _ Hm)))));
        apply Hal, bool_decide_eq_true, (b_dom _ _ (m_batch _ _ _ (mf_inv _ _ _ Hm))), Hs))); unfold P; naive_solver.
  - apply (perform_wp _ _ _ _ P (wp_mempool_select_block _ _ _ Hm Hal)); unfold P.
    + intros m' [number selected]. naive_solver.
    + naive_solver.
  - destruct Hal as [Hne Hhead]. destruct (Mempool.block_in_progress m) as [B|] eqn:HB; [|done].
    apply (perform_wp _ _ _ _ P (wp_mempool_commit_block _ _ _ _ _ Hm HB Hhead)); unfold P; naive_solver.
  - destruct (Mempool.block_in_progress m) as [B|] eqn:HB; [|done].
    apply (perform_wp _ _ _ _ P (wp_mempool_rollback_block _ _ _ _ Hm HB)); unfold P; naive_solver.
  - apply (perform_wp _ _ _ _ P (wp_mempool_subscribe _ _ _ tip Hm)); unfold P; naive_solver.
Qed.

Lemma reachable_inv m : reachable m → ∃ ta ba, minv_full m ta ba.
Proof.
  induction 1 as [tip bb kb n slack Hn|m op _ (ta & ba & Hm) Hal].
  - exists ∅, ∅. split; [by apply minv_new| |].
    + intros b. cbn. split; [|set_solver]. intros (v & ps & Hb). by rewrite lookup_empty in Hb.
    + intros t tx. unfold value_of. by rewrite lookup_empty.
  - by eapply run_inv.
Qed.

(** A call evaluated. *)
Lemma wp_run {E A} (op : M Mempool.Mempool E A) m Q X :
  wp op m Q X → match op m with (m', Ok a) => Q m' a | (m', Err e) => X m' e | _ => False end.
Proof. by rewrite wp_unfold. Qed.

(** ** Safety *)

(** C1: No interleaving of the calls of the other components makes the mempool
    panic: not one of its [expect]s, [unwrap]s, assertions and subtractions can
    fail and no loop runs on forever, as long as the callers keep to the protocol.
    Every call returns, and a call that returns an error changes nothing. *)
Theorem mempool_never_panics m op (Hm : reachable m) (Hop : allowed m op) :
  (run op m).2 = Returned ∨ (run op m).2 = Rejected ∧ (run op m).1 = m.
Proof. destruct (reachable_inv _ Hm) as (ta & ba & Hinv). by destruct (run_inv _ _ _ _ Hinv Hop). Qed.

(** Two inflight deltas, or an inflight and a committed one, share nothing. *)
Lemma linv_exclusive s cm t1 t2 (d1 d2 : Delta) :
  linv s cm → t1 ≠ t2 → transaction_deltas s !! t1 = Some d1 → transaction_deltas s !! t2 = Some d2 →
  nullifiers_d d1 ## nullifiers_d d2 ∧ output_notes_d d1 ## output_notes_d d2.
Proof.
  intros [Hn Ho _ _ _ _ _] Hne H1' H2'.
  assert (deltas_of s ≡ₚ d1 :: d2 :: (map_to_list (delete t2 (delete t1 (transaction_deltas s)))).*2) as HP.
  { unfold deltas_of. rewrite <- (map_to_list_delete _ _ _ H1'). cbn. f_equiv.
    rewrite <- (map_to_list_delete (delete t1 (transaction_deltas s)) t2 d2); [done|].
    by rewrite lookup_delete_ne. }
  rewrite HP in Hn, Ho. cbn in Hn, Ho. split; by eapply partitions_disjoint.
Qed.

Lemma linv_exclusive_committed s cm t1 (d1 d2 : Delta) :
  linv s cm → transaction_deltas s !! t1 = Some d1 → d2 ∈ cm →
  nullifiers_d d1 ## nullifiers_d d2 ∧ output_notes_d d1 ## output_notes_d d2.
Proof.
  intros [Hn Ho _ _ _ _ _] H1' [cm' HP2]%elem_of_Permutation.
  assert (deltas_of s ++ cm ≡ₚ d1 :: d2 :: (map_to_list (delete t1 (transaction_deltas s))).*2 ++ cm') as HP.
  { unfold deltas_of. rewrite <- (map_to_list_delete _ _ _ H1'), HP2. cbn. f_equiv.
    by rewrite <- Permutation_middle. }
  rewrite HP in Hn, Ho. cbn in Hn, Ho. split; by eapply partitions_disjoint.
Qed.

Lemma inflight_delta m ta ba t tx :
  minv m ta ba → inflight m t tx → transaction_deltas (Mempool.state m) !! t = Some (delta_new tx).
Proof. intros Hm Ht. rewrite (m_deltas _ _ _ Hm). by rewrite (proj1 (inflight_value _ _ _ _ _ Hm) Ht). Qed.

(** C2: No double spend. In every reachable state two different inflight
    transactions consume no common nullifier and create no common note, and neither
    does an inflight transaction and one of the committed blocks that are still
    retained. *)
Theorem mempool_no_double_spend m t1 tx1 (Hm : reachable m) (H1' : inflight m t1 tx1) :
  (∀ t2 tx2, inflight m t2 tx2 → t1 ≠ t2 →
    (∀ n, n ∈ nullifiers_of tx1 → n ∉ nullifiers_of tx2) ∧
    (∀ n, n ∈ output_note_ids tx1 → n ∉ output_note_ids tx2)) ∧
  (∀ block t2 (d : Delta), block ∈ committed_blocks (Mempool.state m) → block !! t2 = Some d →
    (∀ n, n ∈ nullifiers_of tx1 → n ∉ nullifiers_d d) ∧
    (∀ n, n ∈ output_note_ids tx1 → n ∉ output_notes_d d)).
Proof.
  destruct (reachable_inv _ Hm) as (ta & ba & [Hinv _ _]).
  pose proof (i_books _ (m_state _ _ _ Hinv)) as Hbooks.
  pose proof (inflight_delta _ _ _ _ _ Hinv H1') as Hd1. split.
  - intros t2 tx2 Ht2 Hne. pose proof (inflight_delta _ _ _ _ _ Hinv Ht2) as Hd2.
    destruct (linv_exclusive _ _ _ _ _ _ Hbooks Hne Hd1 Hd2) as [HN HO]. split; intros n Hn1 Hn2.
    + by apply (HN n); apply elem_of_list_to_set.
    + by apply (HO n); apply elem_of_list_to_set.
  - intros block t2 d Hb Hd. assert (d ∈ committed_deltas (Mempool.state m)) as Hin.
    { unfold committed_deltas. apply list_elem_of_In, in_concat. exists (map_to_list block).*2.
      rewrite <- !list_elem_of_In. split; [apply list_elem_of_fmap; eauto|].
      by apply (list_elem_of_fmap_2 snd _ (t2, d)), elem_of_map_to_list. }
    destruct (linv_exclusive_committed _ _ _ _ _ Hbooks Hd1 Hin) as [HN HO]. split; intros n Hn1 Hn2.
    + apply (HN n); [by apply elem_of_list_to_set|done].
    + apply (HO n); [by apply elem_of_list_to_set|done].
Qed.

(** Nothing expired is inflight. In every reachable state each inflight
    transaction expires after the chain tip. *)
Theorem mempool_nothing_expired m t tx (Hm : reachable m) (Ht : inflight m t tx) :
  (Mempool.chain_tip m < expires_at tx)%N.
Proof.
  destruct (reachable_inv _ Hm) as (ta & ba & [Hinv _ Hal]). apply (Hal t).
  by apply (inflight_value _ _ _ _ _ Hinv).
Qed.

(** The account's chain of inflight transactions, read off its segment. *)
Lemma segment_chain m ta ba id :
  minv m ta ba → ∃ chain, Forall2 (λ x tx, value_of ta x.2 = Some tx ∧ final_state_commitment tx = x.1)
    (segment (Mempool.state m) id) chain.
Proof.
  intros Hm. assert (∀ x, x ∈ segment (Mempool.state m) id → ∃ tx,
    value_of ta x.2 = Some tx ∧ final_state_commitment tx = x.1) as Hall by apply (m_final _ _ _ Hm).
  induction (segment (Mempool.state m) id) as [|x l IH]; [by exists []|].
  destruct IH as [chain Hc]; [intros y Hy; apply Hall; by right|].
  destruct (Hall x) as [tx Htx]; [by left|]. exists (tx :: chain). by constructor.
Qed.

Lemma chain_sorted ta (l : list (Digest * TransactionId)) chain :
  Forall2 (λ x tx, value_of ta x.2 = Some tx ∧ final_state_commitment tx = x.1) l chain →
  (∀ x tx, value_of ta x = Some tx → tx_id tx = x) →
  Sorted (linked ta) l →
  Sorted (λ tx tx', initial_state_commitment tx' = final_state_commitment tx ∧
    edge ta (tx_id tx) (tx_id tx')) chain.
Proof.
  intros Hc Hid. induction Hc as [|x tx l chain [Hv Hf] Hc IH]; intros Hs; [constructor|].
  apply Sorted_inv in Hs as [Hs Hhd]. constructor; [by apply IH|].
  destruct Hc as [|y tx' l chain [Hv' Hf'] Hc]; constructor.
  apply HdRel_inv in Hhd as [He (tx'' & Hv'' & Hi)]. rewrite Hv' in Hv''. injection Hv'' as <-.
  rewrite (Hid _ _ Hv), (Hid _ _ Hv'), Hf. done.
Qed.

Lemma chain_members ta (l : list (Digest * TransactionId)) chain :
  Forall2 (λ x tx, value_of ta x.2 = Some tx ∧ final_state_commitment tx = x.1) l chain →
  (∀ x tx, value_of ta x = Some tx → tx_id tx = x) →
  tx_id <$> chain = l.*2 ∧ (∀ tx, tx ∈ chain → value_of ta (tx_id tx) = Some tx) ∧
  final_state_commitment <$> last chain = fst <$> last l.
Proof.
  intros Hc Hid. induction Hc as [|x tx l chain [Hv Hf] Hc IH]; [split_and!; [done|set_solver|done]|].
  destruct IH as (IH1 & IH2 & IH3). split_and!.
  - cbn. by rewrite IH1, (Hid _ _ Hv).
  - intros tx' [->|Hin]%elem_of_cons; [by rewrite (Hid _ _ Hv)|auto].
  - destruct Hc as [|y tx' l chain _ _]; [by cbn; rewrite Hf|]. rewrite !last_cons_cons. exact IH3.
Qed.

(** C3: The inflight transactions of an account form a chain. In every reachable
    state they can be listed, each exactly once, so that each transaction starts
    from the state its predecessor leaves and has it as a parent in the graph, and
    the last one leaves the state the account is tracked at. *)
Theorem mempool_account_chain m id (Hm : reachable m) :
  ∃ chain : list AuthenticatedTransaction,
    NoDup (tx_id <$> chain) ∧
    (∀ tx, tx ∈ chain ↔ inflight m (tx_id tx) tx ∧ account_id tx = id) ∧
    Sorted (λ tx tx', initial_state_commitment tx' = final_state_commitment tx ∧
      parent m (tx_id tx) (tx_id tx')) chain ∧
    (∀ tx, last chain = Some tx →
      accounts (Mempool.state m) !! id ≫= AccountState.current_state = Some (final_state_commitment tx)).
Proof.
  destruct (reachable_inv _ Hm) as (ta & ba & [Hinv _ _]). pose proof (m_state _ _ _ Hinv) as Hi.
  assert (∀ x tx, value_of ta x = Some tx → tx_id tx = x) as Hid
    by (intros ??; apply (value_id _ _ _ _ (m_tx _ _ _ Hinv))).
  destruct (segment_chain _ _ _ id Hinv) as [chain Hc]. exists chain.
  destruct (chain_members _ _ _ Hc Hid) as (Hids & Hval & Hlast). split_and!.
  - rewrite Hids. apply (i_nodup _ Hi).
  - intros tx. rewrite (inflight_value _ _ _ _ _ Hinv).
    assert (tx ∈ chain ↔ value_of ta (tx_id tx) = Some tx ∧ tx_id tx ∈ (segment (Mempool.state m) id).*2) as ->.
    { rewrite <- Hids. split; [intros Hin; split; [auto|by apply list_elem_of_fmap_2]|].
      intros [Hv (tx' & Heq & Hin)%list_elem_of_fmap]. assert (tx = tx') as ->; [|done].
      apply Hval in Hin. rewrite <- Heq in Hin. congruence. }
    rewrite (i_segment _ Hi). setoid_rewrite (m_deltas _ _ _ Hinv). split.
    + intros (Hv & d & Hd & Ha). rewrite Hv in Hd. cbn in Hd. injection Hd as <-. done.
    + intros (Hv & Ha). split; [done|]. exists (delta_new tx). by rewrite Hv.
  - eapply sorted_weaken; [apply (chain_sorted _ _ _ Hc Hid), (m_chain _ _ _ Hinv)|].
    intros tx tx' _ _ [Hi' He]. split; [done|]. by apply (parent_edge _ _ _ _ _ Hinv).
  - intros tx Htx. rewrite Htx in Hlast. cbn in Hlast. destruct (last (segment _ id)) as [x|] eqn:Hx; [|done].
    cbn in Hlast. injection Hlast as ->. revert Hx. unfold segment, acct_states, acct_committed, acct.
    unfold AccountState.current_state. destruct (accounts (Mempool.state m) !! id) as [a|]; cbn; [|done].
    destruct (decide (AccountState.committed a < length (AccountState.states a))) as [Hlt|Hge].
    + rewrite last_drop by done. by intros ->.
    + by rewrite drop_ge by lia.
Qed.

(** ** Adding transactions *)

Lemma rejection_not_admissible s tx e : rejection s tx e → ¬ admissible s tx.
Proof.
  intros Hrej [Hl Hf Ha Hn Ho Hi]. destruct Hrej as [He|limit -> He|cur He|ns Hne Hns|ns Hne Hns|ns Hne Hns].
  - lia.
  - lia.
  - done.
  - destruct ns as [|n ns]; [done|]. destruct (proj1 (Hns n)) as [H1' H2']; [by left|]. by apply (Hn n).
  - destruct ns as [|n ns]; [done|]. destruct (proj1 (Hns n)) as [H1' H2']; [by left|].
    rewrite (Ho _ H1') in H2'. by destruct H2'.
  - destruct ns as [|n ns]; [done|]. destruct (proj1 (Hns n)) as [H1' H2']; [by left|].
    destruct (Hi _ H1'). congruence.
Qed.

(** C4: Exactly the admissible transactions are accepted: those that expire after
    the tip and the slack, were authenticated against a retained block, start from
    the tracked state of their account, spend no nullifier and create no note known
    to the mempool, and whose unauthenticated notes all exist. An accepted
    transaction is inflight afterwards, below the parents it depends on, and nothing
    else about the inflight transactions changes; a rejected one leaves the mempool
    as it was and is answered with an error that names the violated condition. *)
Theorem mempool_add_transaction m tx (Hm : reachable m) (Hd : distinguishable m tx) :
  match Mempool.add_transaction tx m with
  | (m', Ok height) => admissible (Mempool.state m) tx ∧ height = Mempool.chain_tip m ∧
      (∀ t tx', inflight m' t tx' ↔ t = tx_id tx ∧ tx' = tx ∨ inflight m t tx') ∧
      (∀ p t, parent m' p t ↔ t = tx_id tx ∧ parent_of (Mempool.state m) tx p ∨ parent m p t)
  | (m', Err e) => m' = m ∧ rejection (Mempool.state m) tx e ∧ ¬ admissible (Mempool.state m) tx
  | _ => False
  end.
Proof.
  destruct (reachable_inv _ Hm) as (ta & ba & Hinv).
  pose proof (wp_run _ _ _ _ (wp_mempool_add _ _ _ _ Hinv Hd)) as Hrun.
  destruct (Mempool.add_transaction tx m) as [m' [h|e| |]]; try done.
  - destruct Hrun as (-> & _ & Hadm & _ & ps & Hps & [Hinv' _ _]). split; [done|]. split; [done|].
    destruct Hinv as [Hinv _ _]. pose proof (admissible_fresh _ _ _ _ Hinv Hd Hadm) as Hfresh. split.
    + intros t tx'. rewrite (inflight_value _ _ _ _ _ Hinv), (inflight_value _ _ _ _ _ Hinv'), value_of_t_insert.
      case_decide as Ht; [|naive_solver]. subst t. unfold value_of. rewrite Hfresh. naive_solver.
    + intros p t. rewrite (parent_edge _ _ _ _ _ Hinv), (parent_edge _ _ _ _ _ Hinv'). unfold edge, t_insert.
      rewrite lookup_insert. case_decide as Ht; [subst t|naive_solver]. rewrite Hfresh, <- Hps. split.
      * intros (n & [= <-] & Hp). by left.
      * intros [[_ Hp]|(n & ? & _)]; [|done]. eexists. by split.
  - destruct Hrun as [-> Hrej]. split_and!; [done..|]. by eapply rejection_not_admissible.
Qed.

(** Insertion and reversion cancel out. On the inflight state of every reachable
    mempool, reverting a transaction that has just been added gives back the state
    exactly: accounts, nullifiers, output notes, deltas and blocks. *)
Theorem inflight_add_revert m tx s parents (Hm : reachable m) (Hd : distinguishable m tx)
    (Hadd : add_transaction tx (Mempool.state m) = (s, Ok parents)) :
  (revert_transactions {[tx_id tx]} : M _ Empty_set _) s = (Mempool.state m, Ok tt).
Proof.
  destruct (reachable_inv _ Hm) as (ta & ba & [Hi _ _]). pose proof (m_state _ _ _ Hi) as Hinv.
  pose proof (wp_run_ok _ _ _ _ _ _ (wp_add_transaction _ tx Hinv) Hadd) as (Hadm & -> & _).
  pose proof (admissible_fresh _ _ _ _ Hi Hd Hadm) as Hfresh.
  assert (transaction_deltas (Mempool.state m) !! tx_id tx = None) as HD.
  { rewrite (m_deltas _ _ _ Hi). unfold value_of. by rewrite Hfresh. }
  pose proof (wp_revert_inserted (E := Empty_set) _ _ Hinv HD Hadm) as Hwp. rewrite wp_unfold in Hwp.
  destruct (revert_transactions _ _) as [s' [[]|e| |]]; by try subst.
Qed.

(** ** Batches *)

(** C6: A selected batch is not empty, fits the budget, holds no transaction twice,
    and is in dependency order: the inflight parents of each of its transactions
    come earlier in the batch or are already in another batch. Its transactions
    were not in a batch before. When no batch is selected the mempool is unchanged,
    and there is no unbatched root or the first one exceeds the budget. *)
Theorem mempool_select_batch m (Hm : reachable m) :
  match (Mempool.select_batch : M _ Empty_set _) m with
  | (m', Ok (Some (id, batch))) =>
      batch ≠ [] ∧ id = batch_id_from_ids ((λ tx, (tx_id tx, account_id tx)) <$> batch) ∧
      (N.of_nat (length batch) ≤ BatchBudget.transactions (Mempool.batch_budget m))%N ∧
      (N.of_nat (length batch) ≤ BatchBudget.accounts (Mempool.batch_budget m))%N ∧
      (sum_of input_note_count batch ≤ BatchBudget.input_notes (Mempool.batch_budget m))%N ∧
      (sum_of output_note_count batch ≤ BatchBudget.output_notes (Mempool.batch_budget m))%N ∧
      NoDup (tx_id <$> batch) ∧
      (∀ tx, tx ∈ batch → inflight m (tx_id tx) tx ∧ batch_of m (tx_id tx) = None ∧
        batch_of m' (tx_id tx) = Some id) ∧
      (∀ pre tx post p, batch = pre ++ tx :: post → parent m p (tx_id tx) →
        p ∈ tx_id <$> pre ∨ is_Some (batch_of m p))
  | (m', Ok None) => m' = m ∧ exhausted (Mempool.transactions m) (Mempool.batch_budget m)
  | _ => False
  end.
Proof.
  destruct (reachable_inv _ Hm) as (ta & ba & Hinv). pose proof (mf_inv _ _ _ Hinv) as Hi.
  pose proof (wp_run _ _ _ _ (wp_mempool_select_batch (E := Empty_set) _ _ _ Hinv)) as Hrun.
  destruct (Mempool.select_batch m) as [m' [[[id batch]|]|e| |]]; try done.
  - destruct Hrun as (_ & (Hne & -> & (rest & [B1 B2 B3 B4]) & ta' & Hs & Hval) & [_ Hmem] & _).
    split_and!; [done..|lia|lia|lia|lia|by eapply selects_NoDup| |].
    + intros tx Hin. destruct (Hval _ Hin) as [ps Hq]. split_and!.
      * apply (inflight_value _ _ _ _ _ Hi). unfold value_of. by rewrite Hq.
      * unfold batch_of. apply eq_None_not_Some. intros (v & qs & Hp)%(x_batched _ _ _ (m_cross _ _ _ Hi)).
        congruence.
      * apply Hmem. apply list_elem_of_fmap. eauto.
    + intros pre tx post p -> Hp%(parent_edge _ _ _ _ _ Hi).
      rewrite fmap_app, fmap_cons in Hs.
      destruct (selects_topological _ _ _ _ _ _ _ Hs eq_refl Hp) as [Hpp|Hpp]; [right|by left].
      by apply (x_batched _ _ _ (m_cross _ _ _ Hi)).
  - by destruct Hrun as (_ & Hex & ? & _).
Qed.

(** [d] is [b] or depends on it through other batches. *)
Definition batch_parent m b d : Prop :=
  ∃ ps, Graph.parents_of d (BatchGraph.inner (Mempool.batches m)) = Some ps ∧ b ∈ ps.

Lemma batch_parent_edge m ta ba b d : minv m ta ba → batch_parent m b d ↔ edge ba b d.
Proof.
  intros Hm. unfold batch_parent, Graph.parents_of, edge.
  rewrite (rep_parents _ _ (rep_is_core _ _ (b_rep _ _ (m_batch _ _ _ Hm)))). split.
  - intros (ps & (n & Hn & ->)%fmap_Some & Hp). eauto.
  - intros (n & -> & Hp). by exists (preds n).
Qed.

(** Rolling a failed batch back loses nothing. It drops the batch and the
    batches that depend on it, directly or not; their transactions stay inflight and
    can be selected again, and every other batch keeps its transactions. *)
Lemma rollback_batch_effect m b (Hm : reachable m)
    (Hb : b ∉ default ∅ (Mempool.block_in_progress m)) :
  match (Mempool.rollback_batch b : M _ Empty_set _) m with
  | (m', Ok _) =>
      (∀ t tx, inflight m' t tx ↔ inflight m t tx) ∧
      (∀ t d, batch_of m' t = Some d ↔ batch_of m t = Some d ∧
        ¬ (BatchGraph.contains b (Mempool.batches m) = true ∧ rtc (batch_parent m) b d)) ∧
      Mempool.subscription m' = Mempool.subscription m
  | _ => False
  end.
Proof.
  destruct (reachable_inv _ Hm) as (ta & ba & Hinv). pose proof (mf_inv _ _ _ Hinv) as Hi.
  pose proof (wp_run _ _ _ _ (wp_mempool_rollback_batch (E := Empty_set) _ _ _ _ Hinv Hb)) as Hrun.
  destruct (Mempool.rollback_batch b m) as [m' [[]|e| |]]; try done.
  destruct Hrun as (_ & Hsub & ta' & ba' & Rb & [Hi' _ _] & Hval & HRb & Htm & _). split_and!; [| |done].
  - intros t tx. by rewrite (inflight_value _ _ _ _ _ Hi), (inflight_value _ _ _ _ _ Hi'), Hval.
  - intros t d. unfold batch_of. rewrite Htm.
    assert (d ∈ Rb ↔ BatchGraph.contains b (Mempool.batches m) = true ∧ rtc (batch_parent m) b d) as HR.
    { rewrite HRb. unfold BatchGraph.contains. rewrite bool_decide_eq_true, (b_dom _ _ (m_batch _ _ _ Hi)).
      assert (rtc (edge ba) b d ↔ rtc (batch_parent m) b d) as ->; [|done].
      split; apply rtc_subrel; intros ??; by apply (batch_parent_edge _ _ _ _ _ Hi). }
    destruct (BatchGraph.transactions (Mempool.batches m) !! t) as [d'|]; [|naive_solver].
    case_decide as Hd'; split; try done.
    + intros [[= ->] Hno]. by destruct Hno; apply HR.
    + intros [= ->]. split; [done|]. by rewrite <- HR.
    + intros [[= ->] _]. done.
Qed.

(** ** Blocks *)

(** C5: A selected block is within its budget, is the next one, and is
    self-contained: it lists no batch twice, and an inflight parent of one of its
    transactions is in the same or in an earlier batch of the block. The batches of
    the block are exactly those recorded as in progress. *)
Theorem mempool_select_block m (Hm : reachable m) (Hn : Mempool.block_in_progress m = None) :
  match (Mempool.select_block : M _ Empty_set _) m with
  | (m', Ok (number, selected)) =>
      number = (Mempool.chain_tip m + 1)%N ∧
      (N.of_nat (length selected) ≤ BlockBudget.batches (Mempool.block_budget m))%N ∧
      NoDup (batch_id <$> selected) ∧
      Mempool.block_in_progress m' = Some (list_to_set (batch_id <$> selected)) ∧
      ∀ pre v post t p, selected = pre ++ v :: post →
        batch_of m t = Some (batch_id v) → parent m p t →
        ∃ w, w ∈ pre ++ [v] ∧ batch_of m p = Some (batch_id w)
  | _ => False
  end.
Proof.
  destruct (reachable_inv _ Hm) as (ta & ba & Hinv). pose proof Hinv as [Hi Hblk _].
  pose proof (wp_run _ _ _ _ (wp_mempool_select_block (E := Empty_set) _ _ _ Hinv Hn)) as Hrun.
  destruct (Mempool.select_block m) as [m' [[number selected]|e| |]]; try done.
  destruct Hrun as (-> & Hlen & _ & HB & _ & ba' & Hs & _).
  split_and!; [done|done|by eapply selects_NoDup|done|].
  intros pre v post t p -> Ht Hp%(parent_edge _ _ _ _ _ Hi).
  destruct (x_order _ _ _ (m_cross _ _ _ Hi) _ _ _ Hp Ht) as (b & Hb & Hbd).
  destruct Hbd as [->|He]; [exists v; set_solver|]. rewrite fmap_app, fmap_cons in Hs.
  destruct (selects_topological _ _ _ _ _ _ _ Hs eq_refl He) as [Hpr|(w & -> & Hw)%list_elem_of_fmap].
  - apply Hblk in Hpr. by rewrite Hn in Hpr.
  - exists w. set_solver.
Qed.

(** [t] is in a batch of the block in progress. *)
Definition in_block m t : Prop :=
  ∃ b block, Mempool.block_in_progress m = Some block ∧ b ∈ block ∧ batch_of m t = Some b.

(** [t] depends on [s], directly or not, or is [s]. *)
Definition descends m s t : Prop := rtc (parent m) s t.

Lemma descends_edge m ta ba s t : minv m ta ba → descends m s t ↔ rtc (edge ta) s t.
Proof. intros Hm. split; apply rtc_subrel; intros ??; by apply (parent_edge _ _ _ _ _ Hm). Qed.

Lemma in_block_txs m ta ba (B : gset BatchId) t :
  minv m ta ba → Mempool.block_in_progress m = Some B → t ∈ block_txs m B ↔ in_block m t.
Proof.
  intros Hm HB. unfold block_txs, in_block, batch_of. rewrite (elem_of_collected _ _ _ _ (m_batch _ _ _ Hm)).
  rewrite HB. naive_solver.
Qed.

(** Rolling a failed block back removes from the mempool exactly the
    transactions of the block and their descendants. The tip stays, no block is in
    progress afterwards, and all other transactions stay inflight. *)
Lemma rollback_block_effect m (Hm : reachable m) (Hb : Mempool.block_in_progress m ≠ None) :
  match (Mempool.rollback_block : M _ Empty_set _) m with
  | (m', Ok _) => Mempool.chain_tip m' = Mempool.chain_tip m ∧ Mempool.block_in_progress m' = None ∧
      ∀ t tx, inflight m' t tx ↔ inflight m t tx ∧ ¬ ∃ s, in_block m s ∧ descends m s t
  | _ => False
  end.
Proof.
  destruct (reachable_inv _ Hm) as (ta & ba & Hinv). pose proof (mf_inv _ _ _ Hinv) as Hi.
  destruct (Mempool.block_in_progress m) as [B|] eqn:HB; [|done].
  pose proof (wp_run _ _ _ _ (wp_mempool_rollback_block (E := Empty_set) _ _ _ _ Hinv HB)) as Hrun.
  destruct (Mempool.rollback_block m) as [m' [[]|e| |]]; try done.
  destruct Hrun as (-> & -> & R & ta' & ba' & [Hi' _ _] & HR & Hval & _). split_and!; [done..|].
  intros t tx. rewrite (inflight_value _ _ _ _ _ Hi), (inflight_value _ _ _ _ _ Hi'), Hval.
  assert (t ∈ R ↔ ∃ s, in_block m s ∧ descends m s t) as HRt.
  { split; [intros (s & Hs & Hrtc)%HR|intros (s & Hs & Hrtc); apply HR]; exists s; revert Hs Hrtc;
      rewrite elem_of_list_to_set, (in_block_txs _ _ _ _ _ Hi HB), (descends_edge _ _ _ _ _ Hi); done. }
  case_decide; naive_solver.
Qed.

(** C8: Failures are rolled back. Rolling a failed batch back loses nothing: it drops
    the batch and the batches that depend on it, directly or not; their transactions
    stay inflight and can be selected again, and every other batch keeps its
    transactions. Rolling a failed block back removes from the mempool exactly the
    transactions of the block and their descendants; the tip stays, no block is in
    progress afterwards, and all other transactions stay inflight. *)
Theorem mempool_rollback m (Hm : reachable m) :
  (∀ b, b ∉ default ∅ (Mempool.block_in_progress m) →
    match (Mempool.rollback_batch b : M _ Empty_set _) m with
    | (m', Ok _) =>
        (∀ t tx, inflight m' t tx ↔ inflight m t tx) ∧
        (∀ t d, batch_of m' t = Some d ↔ batch_of m t = Some d ∧
          ¬ (BatchGraph.contains b (Mempool.batches m) = true ∧ rtc (batch_parent m) b d)) ∧
        Mempool.subscription m' = Mempool.subscription m
    | _ => False
    end) ∧
  (Mempool.block_in_progress m ≠ None →
    match (Mempool.rollback_block : M _ Empty_set _) m with
    | (m', Ok _) => Mempool.chain_tip m' = Mempool.chain_tip m ∧ Mempool.block_in_progress m' = None ∧
        ∀ t tx, inflight m' t tx ↔ inflight m t tx ∧ ¬ ∃ s, in_block m s ∧ descends m s t
    | _ => False
    end).
Proof. split; [intros b Hb; by apply rollback_batch_effect|intros Hb; by apply rollback_block_effect]. Qed.

(** A path from outside a set closed under parents stays outside of it. *)
Lemma rtc_avoids {K V} `{!Key K} (a : agraph K V) (C : gset K) x y :
  (∀ k k' : K, edge a k k' → k' ∈ C → k ∈ C) → x ∉ C → rtc (edge a) x y → rtc (edge (a_remove C a)) x y.
Proof.
  intros Hcl Hx. induction 1 as [x|x y z He _ IH]; [done|].
  assert (y ∉ C) as Hy by (intros Hy; apply Hx; by eapply Hcl).
  apply rtc_l with y; [by apply edge_remove|auto].
Qed.

(** C7: Committing a block removes exactly its transactions and those the new tip
    makes expire, with the descendants of the latter; all other transactions stay
    inflight, the tip advances by one and no block is in progress. *)
Theorem mempool_commit_block m header (Hm : reachable m) (Hb : Mempool.block_in_progress m ≠ None)
    (Hh : header_block_num header = (Mempool.chain_tip m + 1)%N) :
  match (Mempool.commit_block header : M _ Empty_set _) m with
  | (m', Ok _) => Mempool.chain_tip m' = (Mempool.chain_tip m + 1)%N ∧
      Mempool.block_in_progress m' = None ∧
      ∀ t tx, inflight m' t tx ↔ inflight m t tx ∧ ¬ in_block m t ∧
        ¬ ∃ s txs, inflight m s txs ∧ ¬ in_block m s ∧
            expires_at txs = (Mempool.chain_tip m + 1)%N ∧ descends m s t
  | _ => False
  end.
Proof.
  destruct (reachable_inv _ Hm) as (ta & ba & Hinv). pose proof (mf_inv _ _ _ Hinv) as Hi.
  destruct (Mempool.block_in_progress m) as [B|] eqn:HB; [|done].
  pose proof (wp_run _ _ _ _ (wp_mempool_commit_block (E := Empty_set) _ _ _ header _ Hinv HB Hh)) as Hrun.
  destruct (Mempool.commit_block header m) as [m' [[]|e| |]]; try done.
  destruct Hrun as (-> & -> & exp & R & ta' & ba' & [Hi' _ _] & HR & Hexp & Hval & _). split_and!; [done..|].
  set (C := list_to_set (block_txs m B) : gset TransactionId) in *.
  assert (∀ t, t ∈ C ↔ in_block m t) as HC.
  { intros t. unfold C. by rewrite elem_of_list_to_set, (in_block_txs _ _ _ _ _ Hi HB). }
  intros t tx. rewrite (inflight_value _ _ _ _ _ Hi), (inflight_value _ _ _ _ _ Hi'), Hval.
  assert (∀ p c, edge ta p c → c ∈ C → p ∈ C) as Hcl.
  { destruct (block_txs_closed _ _ _ B Hi) as (_ & _ & Hcl).
    - intros b. by rewrite (mf_block _ _ _ Hinv b), HB.
    - intros p c He. unfold C. rewrite !elem_of_list_to_set. by apply Hcl. }
  assert (t ∈ R ↔ ∃ s txs, inflight m s txs ∧ ¬ in_block m s ∧
            expires_at txs = (Mempool.chain_tip m + 1)%N ∧ descends m s t) as HRt.
  { split.
    - intros (s & Hs & Hrtc)%HR. apply Hexp in Hs as (HsC & txs & Hv & He). exists s, txs.
      rewrite (inflight_value _ _ _ _ _ Hi), <- HC, (descends_edge _ _ _ _ _ Hi). split_and!; [done..|].
      revert Hrtc. apply rtc_subrel. by intros x y (? & _)%edge_remove.
    - intros (s & txs & Hv%(inflight_value _ _ _ _ _ Hi) & Hs & He & Hrtc%(descends_edge _ _ _ _ _ Hi)).
      rewrite <- HC in Hs. apply HR. exists s. split; [apply Hexp; eauto|].
      by apply rtc_avoids. }
  rewrite <- HC, <- HRt. case_decide as Hcr; rewrite elem_of_union in Hcr; naive_solver.
Qed.

(** ** The subscriber *)

Lemma NoDup_tracker (t : Subscription.InflightTransactions) : tracker_inv t → NoDup (Subscription.inflight_iter t).
Proof.
  intros Ht. unfold Subscription.inflight_iter, bm_values.
  pose proof (NoDup_keys (Subscription.txs t)) as Hnd.
  induction (bm_keys (Key0 := N_key) (Subscription.txs t)) as [|i l IH]; [constructor|].
  apply NoDup_cons in Hnd as [Hi Hnd]. cbn. destruct (Subscription.txs t !! i) as [ev|] eqn:Hev; [|by apply IH].
  constructor; [|by apply IH]. rewrite list_elem_of_omap. intros (j & Hj & Hevj).
  destruct (tr_added _ Ht _ _ Hev) as [id Hid].
  assert (Subscription.index t !! id = Some i) by (apply (tr_index _ Ht); eauto).
  assert (Subscription.index t !! id = Some j) by (apply (tr_index _ Ht); eauto). congruence.
Qed.

(** C9: A subscriber is never out of step. In every reachable state in which a
    subscription is alive, whoever replays the events sent to it since it
    subscribed - adding a transaction at the end, and dropping those committed or
    reverted - holds one event for each inflight transaction and no other, with the
    transaction's own data. *)
Theorem mempool_subscriber_in_sync m sender (Hm : reachable m)
    (Hs : Subscription.subscription (Mempool.subscription m) = Some sender) :
  NoDup (replay (sent sender)) ∧
  ∀ ev, ev ∈ replay (sent sender) ↔ ∃ tx, inflight m (tx_id tx) tx ∧ ev = Subscription.added_event tx.
Proof.
  destruct (reachable_inv _ Hm) as (ta & ba & [Hi _ _]). pose proof (m_sub _ _ _ Hi) as Hsub.
  rewrite (sub_replay _ Hsub _ Hs). split; [apply NoDup_tracker, (sub_tracker _ Hsub)|].
  intros ev. setoid_rewrite (inflight_value _ _ _ _ _ Hi). split; [apply (m_events _ _ _ Hi)|].
  intros (tx & Hv & ->). assert (tx_id tx ∈ tracked (Mempool.subscription m)) as Htr.
  { rewrite (m_tracked _ _ _ Hi). apply elem_of_dom, (value_is_Some _ _ _ (m_tx _ _ _ Hi)). eauto. }
  unfold tracked in Htr. apply elem_of_dom in Htr as [i Hidx]. apply (tr_index _ (sub_tracker _ Hsub)) in Hidx as (ev & Hev & Hid).
  assert (ev ∈ events m) as Hin by (apply elem_of_bm_values; eauto).
  destruct (m_events _ _ _ Hi _ Hin) as (tx' & Hv' & ->). cbn in Hid. injection Hid as Hid.
  rewrite Hid in Hv'. assert (tx' = tx) as <- by congruence. done.
Qed.

(** ** Liveness *)

(** C10: The mempool cannot starve a transaction. In every reachable state in which
    some inflight transaction is not in a batch, and in which each inflight
    transaction alone fits the batch budget, [select_batch] returns a batch. *)
Theorem mempool_batch_progress m t tx (Hm : reachable m) (Ht : inflight m t tx) (Hn : batch_of m t = None)
    (Hfit : ∀ t' tx', inflight m t' tx' →
      (BatchBudget.check_then_subtract (Mempool.batch_budget m) tx').1 = WithinScope) :
  match (Mempool.select_batch : M _ Empty_set _) m with
  | (_, Ok (Some _)) => True
  | _ => False
  end.
Proof.
  destruct (reachable_inv _ Hm) as (ta & ba & Hinv). pose proof (mf_inv _ _ _ Hinv) as Hi.
  pose proof (m_tx _ _ _ Hi) as Htx. pose proof (t_rep _ _ Htx) as Hrep.
  pose proof (wp_run _ _ _ _ (wp_mempool_select_batch (E := Empty_set) _ _ _ Hinv)) as Hrun.
  destruct (Mempool.select_batch m) as [m' [[[id batch]|]|e| |]]; try done.
  destruct Hrun as (_ & Hex & _). cbn in Hex.
  destruct (ready_exists (Mempool.transactions m) ta t Hrep) as [k Hk].
  - apply set_eq. intros k. rewrite (rep_pending _ _ (rep_is_core _ _ Hrep)). split; [|set_solver].
    intros Hpe. by destruct (t_promoted _ _ Htx k).
  - apply elem_of_dom. exists tx. exact Ht.
  - rewrite (rep_processed _ _ (rep_is_core _ _ Hrep)), (x_batched _ _ _ (m_cross _ _ _ Hi)).
    unfold batch_of in Hn. rewrite Hn. by intros [].
  - apply (rep_roots _ _ Hrep) in Hk. unfold exhausted in Hex.
    destruct (bt_first (Graph.roots (Mempool.transactions m))) as [r|] eqn:Hr.
    + destruct Hex as (tx' & Hv & Hexc). by rewrite (Hfit r tx' Hv) in Hexc.
    + apply bt_first_None in Hr. rewrite Hr in Hk. set_solver.
Qed.

End theorems.
