(* ===== verification/NtxAccount.v ===== *)
(** * The network account state of the transaction builder

    Model of [crates/ntx-builder/src/state/account.rs]. The account types of the
    protocol library are an interface, [NtxObjects]. *)

From S2P Require Import Prelude.
From S2P Require Import External.
From S2P Require Import Subscription.

(** [AccountUpdateDetails] of the protocol library, as its three cases. *)
Inductive UpdateView (Account AccountDelta : Type) : Type :=
| Private
| New (account : Account)
| Delta (delta : AccountDelta).
Arguments Private {_ _}.
Arguments New {_ _}.
Arguments Delta {_ _}.

Class NtxObjects `{!MidenObjects} := {
  NetworkAccountPrefix : Type;
  prefix_key :: Key NetworkAccountPrefix;
  Account : Type;
  AccountDelta : Type;
  acc_id : Account → AccountId;
  delta_id : AccountDelta → AccountId;
  (** [Account::apply_delta]; [None] is its error. *)
  apply_delta : Account → AccountDelta → option Account;
  details_view : AccountUpdateDetails → UpdateView Account AccountDelta;
  (** The prefix of a network account's id. *)
  prefix_of_id : AccountId → NetworkAccountPrefix;
  (** The prefix of the account a network note is addressed to. *)
  note_prefix : Note → NetworkAccountPrefix;
}.

Module NtxAccount.

Section defs.
Context `{!MidenObjects} `{!NtxObjects}.

Record AccountState := mk_account {
  (** [None] while the creating transaction is inflight. *)
  committed : option Account;
  (** Oldest first. *)
  inflight : list Account;
  available_notes : gmap Nullifier NetworkNote;
  nullified_notes : gmap Nullifier NetworkNote;
}.

Implicit Types (a : AccountState) (n : Nullifier).

Definition nullifier_of (note : NetworkNote) : Nullifier := note_nullifier (network_note_inner note).

Definition account_prefix (note : NetworkNote) : NetworkAccountPrefix := note_prefix (network_note_inner note).

Definition from_committed_account (account : Account) : AccountState := mk_account (Some account) [] ∅ ∅.

Definition from_uncommitted_account (account : Account) : AccountState := mk_account None [account] ∅ ∅.

Definition set_inflight l a := mk_account (committed a) l (available_notes a) (nullified_notes a).

Definition over_available f a := mk_account (committed a) (inflight a) (f (available_notes a)) (nullified_notes a).

Definition over_nullified f a := mk_account (committed a) (inflight a) (available_notes a) (f (nullified_notes a)).

Context {E : Type}.
Abbreviation AM := (M AccountState E).

Definition latest_account : AM Account :=
  a ← get;
  expect_some (match last (inflight a) with Some x => Some x | None => committed a end)
    "account must have either a committed or inflight state".

Definition add_delta (delta : AccountDelta) : AM unit :=
  state ← latest_account;
  state ← expect_some (apply_delta state delta)
    "network account delta should apply since it was accepted by the mempool";
  modify (λ a, set_inflight (inflight a ++ [state]) a).

Definition commit_delta : AM unit :=
  a ← get;
  front ← expect_some (head (inflight a)) "must have a delta to commit";
  modify (λ a, mk_account (Some front) (tail (inflight a)) (available_notes a) (nullified_notes a)).

(** [true] if the account's creation was reverted. *)
Definition revert_delta : AM bool :=
  a ← get;
  _ ← expect_some (last (inflight a)) "must have a delta to revert";
  _ ← modify (λ a, set_inflight (removelast (inflight a)) a);
  gets (λ a, bool_decide (committed a = None) && bool_decide (inflight a = [])).

Definition add_note (note : NetworkNote) : AM unit :=
  modify (over_available (λ m, <[nullifier_of note := note]> m)).

Definition revert_note (note : Nullifier) : AM unit :=
  _ ← modify (over_available (λ m, delete note m));
  modify (over_nullified (λ m, delete note m)).

Definition add_nullifier (nullifier : Nullifier) : AM unit :=
  a ← get;
  _ ← modify (over_available (λ m, delete nullifier m));
  note ← expect_some (available_notes a !! nullifier) "note must be available to nullify";
  modify (over_nullified (λ m, <[nullifier := note]> m)).

Definition commit_nullifier (nullifier : Nullifier) : AM unit :=
  a ← get;
  _ ← modify (over_nullified (λ m, delete nullifier m));
  _ ← expect_some (nullified_notes a !! nullifier)
        "committed nullified note should be in the nullified set";
  mret tt.

Definition revert_nullifier (nullifier : Nullifier) : AM unit :=
  a ← get;
  _ ← modify (over_nullified (λ m, delete nullifier m));
  match nullified_notes a !! nullifier with
  | Some note => modify (over_available (λ m, <[nullifier := note]> m))
  | None => mret tt
  end.

(** In nullifier order. *)
Definition notes a : list NetworkNote := bm_values (available_notes a).

Definition is_empty a : bool :=
  bool_decide (inflight a = []) && bool_decide (available_notes a = ∅) && bool_decide (nullified_notes a = ∅).

End defs.

Section update.
Context `{!MidenObjects} `{!NtxObjects}.

Inductive NetworkAccountUpdate : Type :=
| NewAccount (account : Account)
| DeltaOf (delta : AccountDelta).

Definition update_account_id (u : NetworkAccountUpdate) : AccountId :=
  match u with NewAccount account => acc_id account | DeltaOf delta => delta_id delta end.

Definition from_protocol (update : AccountUpdateDetails) : option NetworkAccountUpdate :=
  u ← match details_view update with
      | Private => None
      | New account => Some (NewAccount account)
      | Delta delta => Some (DeltaOf delta)
      end;
  if account_is_network (update_account_id u) then Some u else None.

Definition prefix (u : NetworkAccountUpdate) : NetworkAccountPrefix := prefix_of_id (update_account_id u).

End update.

End NtxAccount.
