(* ===== verification/NtxState.v ===== *)
(** * The state of the network transaction builder

    Model of [crates/ntx-builder/src/state/mod.rs]: the type [State] and its
    methods. The store is asked for accounts that are not tracked; its answers are
    an argument of the methods, so that they may differ from call to call. *)

From S2P Require Import Prelude.
From S2P Require Import External.
From S2P Require Import Subscription.
From S2P Require Import NtxAccount.

Module NtxState.

Section defs.
Context `{!MidenObjects} `{!NtxObjects} {StoreError : Type}.

Record TransactionImpact := mk_impact {
  account_delta : option NetworkAccountPrefix;
  (** Network notes the transaction created. *)
  impact_notes : gset Nullifier;
  (** Network notes the transaction consumed. *)
  impact_nullifiers : gset Nullifier;
}.

Record TransactionCandidate := mk_candidate {
  candidate_account : Account;
  candidate_notes : list NetworkNote;
}.

Record State := mk_state {
  accounts : gmap NetworkAccountPrefix NtxAccount.AccountState;
  (** The front comes first. *)
  queue : list NetworkAccountPrefix;
  in_progress : gset NetworkAccountPrefix;
  inflight_txs : gmap TransactionId TransactionImpact;
  nullifier_idx : gmap Nullifier NetworkAccountPrefix;
}.

Inductive NtxError : Type :=
| StoreFailed (e : StoreError)
| AccountNotFound.

Implicit Types (s : State) (p : NetworkAccountPrefix).

(** [StoreClient::get_network_account]. *)
Definition Store : Type := NetworkAccountPrefix → StoreError + option Account.

Definition over_accounts f s := mk_state (f (accounts s)) (queue s) (in_progress s) (inflight_txs s) (nullifier_idx s).

Definition over_queue f s := mk_state (accounts s) (f (queue s)) (in_progress s) (inflight_txs s) (nullifier_idx s).

Definition over_in_progress f s := mk_state (accounts s) (queue s) (f (in_progress s)) (inflight_txs s) (nullifier_idx s).

Definition over_inflight f s := mk_state (accounts s) (queue s) (in_progress s) (f (inflight_txs s)) (nullifier_idx s).

Definition over_idx f s := mk_state (accounts s) (queue s) (in_progress s) (inflight_txs s) (f (nullifier_idx s)).

Definition empty_state : State := mk_state ∅ [] ∅ ∅ ∅.

Definition impact_empty : TransactionImpact := mk_impact None ∅ ∅.

Definition impact_is_empty (i : TransactionImpact) : bool :=
  bool_decide (account_delta i = None) && bool_decide (impact_notes i = ∅) && bool_decide (impact_nullifiers i = ∅).

Abbreviation NM := (M State NtxError).

(** A method call on the account at [p], which [a] is a reference to. *)
Definition on_account {A} (p : NetworkAccountPrefix) (a : NtxAccount.AccountState)
    (m : M NtxAccount.AccountState NtxError A) : NM A := λ s,
  let '(a', r) := m a in (over_accounts (λ accs, <[p := a']> accs) s, r).

(** The tracked account, or the store's, which is then tracked. *)
Definition fetch_account (store : Store) p : NM (option NtxAccount.AccountState) :=
  s ← get;
  match accounts s !! p with
  | Some a => mret (Some a)
  | None =>
    match store p with
    | inl e => throw (StoreFailed e)
    | inr None => mret None
    | inr (Some account) =>
      let a := NtxAccount.from_committed_account account in
      _ ← modify (over_queue (λ q, q ++ [p]));
      _ ← modify (over_accounts (λ m, <[p := a]> m));
      mret (Some a)
    end
  end.

(** [load]: the notes and the accounts are those of the store at the time. *)
Definition load (store : Store) (unconsumed : StoreError + list NetworkNote) : NM unit :=
  match unconsumed with
  | inl e => throw (StoreFailed e)
  | inr notes =>
    for_each notes (λ note,
      account ← fetch_account store (NtxAccount.account_prefix note);
      match account with
      | None => mret tt
      | Some a => on_account (NtxAccount.account_prefix note) a (NtxAccount.add_note note)
      end)
  end.

(** [for _ in 0..self.queue.len()] of [select_candidate]. *)
Fixpoint select_loop (n : nat) (limit : nat) : NM (option TransactionCandidate) :=
  match n with
  | 0 => mret None
  | S n =>
    s ← get;
    candidate ← expect_some (head (queue s)) "called `Option::unwrap()` on a `None` value";
    _ ← modify (over_queue (λ q, tail q ++ [candidate]));
    s ← get;
    if decide (candidate ∈ in_progress s) then select_loop n limit else
    account ← expect_some (accounts s !! candidate) "queue account must be tracked";
    (* Skip empty accounts, and prune them. *)
    if NtxAccount.is_empty account then
      _ ← modify (over_accounts (λ m, delete candidate m));
      _ ← modify (over_queue (λ q, removelast q));
      select_loop n limit
    else
    let notes := take limit (NtxAccount.notes account) in
    (* Skip accounts with no available notes. *)
    if decide (notes = []) then select_loop n limit else
    _ ← modify (over_in_progress (λ ps, {[candidate]} ∪ ps));
    latest ← on_account candidate account NtxAccount.latest_account;
    mret (Some (mk_candidate latest notes))
  end.

Definition select_candidate (limit : nat) : NM (option TransactionCandidate) :=
  s ← get;
  select_loop (length (queue s)) limit.

Definition candidate_failed p : NM unit := modify (over_in_progress (λ ps, ps ∖ {[p]})).

(** The account part of [add_transaction]. *)
Definition apply_update (store : Store) (update : NtxAccount.NetworkAccountUpdate) : NM unit :=
  let p := NtxAccount.prefix update in
  match update with
  | NtxAccount.NewAccount account =>
    _ ← modify (over_accounts (λ m, <[p := NtxAccount.from_uncommitted_account account]> m));
    modify (over_queue (λ q, q ++ [p]))
  | NtxAccount.DeltaOf delta =>
    account ← fetch_account store p;
    match account with
    | None => throw AccountNotFound
    | Some a => on_account p a (NtxAccount.add_delta delta)
    end
  end.

(** The body of the loop over the created notes. *)
Definition add_created (store : Store) (impact : TransactionImpact) (note : NetworkNote) : NM TransactionImpact :=
  let n := NtxAccount.nullifier_of note in
  let p := NtxAccount.account_prefix note in
  _ ← modify (over_idx (λ m, <[n := p]> m));
  account ← fetch_account store p;
  _ ← match account with
      | None => mret tt
      | Some a => on_account p a (NtxAccount.add_note note)
      end;
  mret (mk_impact (account_delta impact) ({[n]} ∪ impact_notes impact) (impact_nullifiers impact)).

(** The body of the loop over the nullifiers. *)
Definition add_consumed (impact : TransactionImpact) (n : Nullifier) : NM TransactionImpact :=
  s ← get;
  match nullifier_idx s !! n with
  | None => mret impact
  | Some p =>
    a ← expect_some (accounts s !! p) "nullifier account must exist";
    _ ← on_account p a (NtxAccount.add_nullifier n);
    mret (mk_impact (account_delta impact) (impact_notes impact) ({[n]} ∪ impact_nullifiers impact))
  end.

Definition add_transaction (store : Store) (id : TransactionId) (nullifiers : list Nullifier)
    (network_notes : list NetworkNote) (details : option AccountUpdateDetails) : NM unit :=
  s ← get;
  if decide (is_Some (inflight_txs s !! id)) then mret tt else
  impact ←
    match details ≫= NtxAccount.from_protocol with
    | Some update =>
      _ ← apply_update store update;
      _ ← modify (over_in_progress (λ ps, ps ∖ {[NtxAccount.prefix update]}));
      mret (mk_impact (Some (NtxAccount.prefix update)) ∅ ∅)
    | None => mret impact_empty
    end;
  impact ← fold_m (add_created store) impact network_notes;
  impact ← fold_m add_consumed impact nullifiers;
  if impact_is_empty impact then mret tt
  else modify (over_inflight (λ m, <[id := impact]> m)).

Definition commit_transaction (tx : TransactionId) : NM unit :=
  s ← get;
  match inflight_txs s !! tx with
  | None => mret tt
  | Some impact =>
    _ ← modify (over_inflight (λ m, delete tx m));
    _ ← match account_delta impact with
        | None => mret tt
        | Some p =>
          s ← get;
          a ← expect_some (accounts s !! p) "called `Option::unwrap()` on a `None` value";
          on_account p a NtxAccount.commit_delta
        end;
    for_each (bt_iter (impact_nullifiers impact)) (λ n,
      s ← get;
      _ ← modify (over_idx (λ m, delete n m));
      p ← expect_some (nullifier_idx s !! n) "called `Option::unwrap()` on a `None` value";
      match accounts s !! p with
      | Some a => on_account p a (NtxAccount.commit_nullifier n)
      | None => mret tt
      end)
  end.

Definition revert_transaction (tx : TransactionId) : NM unit :=
  s ← get;
  match inflight_txs s !! tx with
  | None => mret tt
  | Some impact =>
    _ ← modify (over_inflight (λ m, delete tx m));
    _ ← match account_delta impact with
        | None => mret tt
        | Some p =>
          s ← get;
          a ← expect_some (accounts s !! p) "called `Option::unwrap()` on a `None` value";
          created ← on_account p a NtxAccount.revert_delta;
          (* The account is removed if this transaction created it. *)
          if created : bool then modify (over_accounts (λ m, delete p m)) else mret tt
        end;
    _ ← for_each (bt_iter (impact_notes impact)) (λ n,
      s ← get;
      _ ← modify (over_idx (λ m, delete n m));
      p ← expect_some (nullifier_idx s !! n) "called `Option::unwrap()` on a `None` value";
      match accounts s !! p with
      | Some a => on_account p a (NtxAccount.revert_note n)
      | None => mret tt
      end);
    for_each (bt_iter (impact_nullifiers impact)) (λ n,
      s ← get;
      p ← expect_some (nullifier_idx s !! n) "called `Option::unwrap()` on a `None` value";
      match accounts s !! p with
      | Some a => on_account p a (NtxAccount.revert_nullifier n)
      | None => mret tt
      end)
  end.

Definition mempool_update (store : Store) (update : MempoolEvent) : NM unit :=
  match update with
  | TransactionAdded id nullifiers network_notes account_delta =>
    add_transaction store id nullifiers network_notes account_delta
  | BlockCommitted _ txs => for_each txs commit_transaction
  | TransactionsReverted txs => for_each (bt_iter txs) revert_transaction
  end.

End defs.

End NtxState.
