(* ===== verification/NtxTheorems.v ===== *)
(** * Theorems about the state of the network transaction builder *)

From S2P Require Import Prelude.
From S2P Require Import External.
From S2P Require Import Subscription.
From S2P Require Import NtxAccount.
From S2P Require Import NtxState.
Import NtxState.

Section theorems.
Context `{!MidenObjects} `{!NtxObjects} {StoreError : Type}.
Implicit Types (s : State) (p q : NetworkAccountPrefix) (a : NtxAccount.AccountState).

Abbreviation NM := (M State (NtxError (StoreError := StoreError))).

(** The queue lists every tracked account once, and each has some state. *)
Record tracked s : Prop := {
  tr_nodup : NoDup (queue s);
  tr_queue : ∀ p, p ∈ queue s ↔ is_Some (accounts s !! p);
  tr_state : ∀ p a, accounts s !! p = Some a →
    NtxAccount.committed a ≠ None ∨ NtxAccount.inflight a ≠ [];
}.

(** Not being worked on, and with a note to consume. *)
Definition selectable s p : Prop :=
  p ∉ in_progress s ∧ ∃ a, accounts s !! p = Some a ∧ NtxAccount.available_notes a ≠ ∅.

(** Not being worked on, and without any inflight data. *)
Definition prunable s p : bool :=
  bool_decide (p ∉ in_progress s) &&
  match accounts s !! p with Some a => NtxAccount.is_empty a | None => false end.

(** The queue and the accounts after the accounts [pre] were visited in vain. *)
Definition visited s (pre post : list NetworkAccountPrefix) : State :=
  mk_state (del_keys (list_to_set (filter (λ p, prunable s p = true) pre)) (accounts s))
    (post ++ filter (λ p, prunable s p = false) pre) (in_progress s) (inflight_txs s) (nullifier_idx s).

Lemma notes_nil a limit :
  0 < limit → take limit (NtxAccount.notes a) = [] ↔ NtxAccount.available_notes a = ∅.
Proof.
  intros Hl. unfold NtxAccount.notes. split.
  - destruct (bm_values (NtxAccount.available_notes a)) as [|x l] eqn:Hv.
    + intros _. apply map_eq. intros n. rewrite lookup_empty. apply eq_None_not_Some. intros [v Hn].
      assert (v ∈ bm_values (NtxAccount.available_notes a)) as Hin by (apply elem_of_bm_values; eauto).
      rewrite Hv in Hin. set_solver.
    + by destruct limit; [lia|].
  - intros ->. unfold bm_values, bm_keys. rewrite dom_empty_L.
    by rewrite (proj2 (bt_iter_nil ∅)) by done; destruct limit.
Qed.

(** The front of the queue is rotated to the back. *)
Definition rotated p : State → State := over_queue (λ qs, tail qs ++ [p]).

Lemma visited_snoc_keep s pre p post :
  prunable s p = false → rotated p (visited s pre (p :: post)) = visited s (pre ++ [p]) post.
Proof.
  intros Hp. unfold visited, rotated, over_queue. cbn. rewrite !filter_app, !filter_cons, !filter_nil.
  rewrite (decide_True (P := prunable s p = false)), (decide_False (P := prunable s p = true)) by congruence.
  by rewrite app_nil_r, app_assoc.
Qed.

Lemma visited_snoc_prune s pre p post :
  prunable s p = true →
  over_queue (λ qs, removelast qs) (over_accounts (λ m, delete p m) (rotated p (visited s pre (p :: post)))) =
  visited s (pre ++ [p]) post.
Proof.
  intros Hp. unfold visited, rotated, over_queue, over_accounts. cbn. rewrite !filter_app, !filter_cons, !filter_nil.
  rewrite (decide_False (P := prunable s p = false)), (decide_True (P := prunable s p = true)) by congruence.
  rewrite app_nil_r, delete_del_keys, removelast_last. f_equal. f_equal. set_solver.
Qed.

(** The account at the front of the queue has not been touched yet. *)
Lemma visited_front s pre p post :
  tracked s → queue s = pre ++ p :: post → accounts (visited s pre (p :: post)) !! p = accounts s !! p.
Proof.
  intros [Hnd _ _] Hq. unfold visited. cbn. rewrite lookup_del_keys, decide_False; [done|].
  rewrite Hq in Hnd. apply NoDup_app in Hnd as (_ & Hx & _).
  rewrite elem_of_list_to_set, list_elem_of_filter. intros [_ Hin]. apply (Hx _ Hin). by left.
Qed.

Lemma wp_latest_account {E} a :
  NtxAccount.committed a ≠ None ∨ NtxAccount.inflight a ≠ [] →
  wp_ok (NtxAccount.latest_account : M _ E _) a (λ a' x, a' = a ∧
    Some x = match last (NtxAccount.inflight a) with Some x => Some x | None => NtxAccount.committed a end).
Proof.
  intros Hs. unfold NtxAccount.latest_account. wp_steps.
  destruct (last (NtxAccount.inflight a)) as [x|] eqn:Hl; [by apply (wp_expect_some _ x)|].
  apply last_None in Hl. destruct (NtxAccount.committed a) as [x|]; [by apply (wp_expect_some _ x)|naive_solver].
Qed.

(** What a call of [select_candidate] leaves and returns, the queue of [s] having
    been visited up to [p]. *)
Definition chosen s limit (s' : State) (c : TransactionCandidate) : Prop :=
  ∃ pre p post a, queue s = pre ++ p :: post ∧ (∀ q, q ∈ pre → ¬ selectable s q) ∧ selectable s p ∧
    accounts s !! p = Some a ∧
    Some (candidate_account c) =
      match last (NtxAccount.inflight a) with Some x => Some x | None => NtxAccount.committed a end ∧
    candidate_notes c = take limit (NtxAccount.notes a) ∧
    s' = over_in_progress (λ ps, {[p]} ∪ ps) (visited s (pre ++ [p]) post).

Lemma wp_on_account {A} p a (m : M _ (NtxError (StoreError := StoreError)) A) s (Q : State → A → Prop) X :
  wp m a (λ a' r, Q (over_accounts (λ accs, <[p := a']> accs) s) r)
    (λ a' e, X (over_accounts (λ accs, <[p := a']> accs) s) e) →
  wp (on_account p a m : NM A) s Q X.
Proof. rewrite !wp_unfold. unfold on_account. by destruct (m a) as [a' []]. Qed.

Lemma wp_select_loop s limit : ∀ post pre n,
  tracked s → 0 < limit → queue s = pre ++ post → n = length post →
  (∀ q, q ∈ pre → ¬ selectable s q) →
  wp_ok (select_loop n limit : NM _) (visited s pre post) (λ s' r,
    match r with
    | Some c => chosen s limit s' c
    | None => (∀ q, q ∈ queue s → ¬ selectable s q) ∧ s' = visited s (queue s) []
    end).
Proof.
  induction post as [|p post IH]; intros pre n Htr Hlim Hq -> Hpre; cbn [select_loop length].
  { wp_steps. rewrite app_nil_r in Hq. by rewrite Hq. }
  wp_steps. apply (wp_expect_some _ p); [done|]. wp_steps. fold (rotated p).
  pose proof (visited_front _ _ _ _ Htr Hq) as Hfront. cbn in Hfront.
  assert (∀ q, q ∈ pre ++ [p] → ¬ selectable s p → ¬ selectable s q) as Hpre'.
  { intros q [Hin| ->%list_elem_of_singleton]%elem_of_app; auto. }
  assert (queue s = (pre ++ [p]) ++ post) as Hq' by by rewrite <- app_assoc.
  case_decide as Hin.
  { assert (prunable s p = false) as Hnp.
    { unfold prunable. by rewrite bool_decide_eq_false_2 by naive_solver. }
    rewrite (visited_snoc_keep s pre p post Hnp). apply IH; [done..|].
    intros q Hqin. apply Hpre'; [done|]. by intros [? _]. }
  destruct (proj1 (tr_queue _ Htr p)) as [a Ha]; [rewrite Hq; set_solver|].
  wp_steps. apply (wp_expect_some _ a); [exact (eq_trans Hfront Ha)|].
  destruct (NtxAccount.is_empty a) eqn:Hemp.
  { assert (prunable s p = true) as Hp.
    { unfold prunable. by rewrite bool_decide_eq_true_2, Ha by done. }
    wp_steps. rewrite (visited_snoc_prune s pre p post Hp). apply IH; [done..|].
    intros q Hqin. apply Hpre'; [done|]. intros [_ (a' & Ha' & Hne)].
    rewrite Ha in Ha'. injection Ha' as <-. unfold NtxAccount.is_empty in Hemp.
    rewrite !andb_true_iff, !bool_decide_eq_true in Hemp. naive_solver. }
  assert (prunable s p = false) as Hnp by (unfold prunable; rewrite Ha, Hemp; by destruct (bool_decide _)).
  case_decide as Hnotes.
  { rewrite (visited_snoc_keep s pre p post Hnp). apply IH; [done..|].
    intros q Hqin. apply Hpre'; [done|]. intros [_ (a' & Ha' & Hne)].
    rewrite Ha in Ha'. injection Ha' as <-. by apply (notes_nil a limit) in Hnotes. }
  wp_steps. apply wp_on_account. eapply wp_mono; [apply wp_latest_account; by eapply tr_state| |done].
  cbn beta. intros a' x [-> Hx]. wp_steps. exists pre, p, post, a. split_and!; try done.
  - split; [done|]. exists a. split; [done|]. intros Hav. apply Hnotes. by apply notes_nil.
  - rewrite (visited_snoc_keep s pre p post Hnp). unfold over_accounts, over_in_progress.
    rewrite <- (visited_snoc_keep s pre p post Hnp). cbn. rewrite insert_id; [done|]. by rewrite <- Ha.
Qed.

(** The tracked accounts after a visit. *)
Lemma tracked_visited s pre post :
  tracked s → queue s = pre ++ post → tracked (visited s pre post).
Proof.
  intros Htr Hq. pose proof Htr as [Hnd Hqa Hst]. rewrite Hq in Hnd, Hqa.
  apply NoDup_app in Hnd as (Hn1 & Hx & Hn2). split; cbn.
  - apply NoDup_app. split; [done|]. split; [|by apply NoDup_filter].
    intros q Hin [_ Hpre]%list_elem_of_filter. by apply (Hx q).
  - intros q. rewrite elem_of_app, list_elem_of_filter, lookup_del_keys.
    specialize (Hqa q). rewrite elem_of_app in Hqa. case_decide as Hin.
    + rewrite elem_of_list_to_set, list_elem_of_filter in Hin. destruct Hin as [Hp Hin].
      split; [|by intros []]. intros [Hpost|[Hf _]]; [by destruct (Hx q Hin)|congruence].
    + rewrite <- Hqa. rewrite elem_of_list_to_set, list_elem_of_filter in Hin.
      destruct (prunable s q); naive_solver.
  - intros q a. rewrite lookup_del_keys. case_decide; [done|]. apply Hst.
Qed.

Lemma wp_select_candidate s limit :
  tracked s → 0 < limit →
  wp_ok (select_candidate limit : NM _) s (λ s' r,
    match r with
    | Some c => chosen s limit s' c
    | None => (∀ q, q ∈ queue s → ¬ selectable s q) ∧ s' = visited s (queue s) []
    end).
Proof.
  intros Htr Hlim. assert (visited s [] (queue s) = s) as Hstart.
  { unfold visited. cbn. rewrite del_keys_empty, app_nil_r. by destruct s. }
  unfold select_candidate. wp_steps.
  pose proof (wp_select_loop s limit (queue s) [] _ Htr Hlim eq_refl eq_refl) as Hl.
  rewrite Hstart in Hl. apply Hl. set_solver.
Qed.

(** C21: Candidate selection is total, fair and exclusive. When the queue lists the
    tracked accounts, [select_candidate] never panics. It returns the first account
    of the queue that is not in progress and has notes to consume, with its latest
    state and at most [limit] of its notes in nullifier order, locks it and rotates
    it to the back; the accounts before it are rotated too, or dropped if they are
    idle and empty. It returns nothing only when no account is selectable. The queue
    lists the tracked accounts afterwards. *)
Theorem ntx_select_candidate s limit (Htr : tracked s) (Hlim : 0 < limit) :
  match (select_candidate limit : NM _) s with
  | (s', Ok (Some c)) => tracked s' ∧ chosen s limit s' c ∧ candidate_notes c ≠ []
  | (s', Ok None) => tracked s' ∧ (∀ p, ¬ selectable s p) ∧ in_progress s' = in_progress s
  | _ => False
  end.
Proof.
  pose proof (wp_select_candidate s limit Htr Hlim) as Hwp.
  rewrite wp_unfold in Hwp. destruct (select_candidate limit s) as [s' [[c|]|e| |]]; try done.
  - pose proof Hwp as (pre & p & post & a & Hq & _ & (_ & a' & Ha' & Hav) & Ha & _ & Hnotes & ->).
    split_and!; [|done|].
    + assert (queue s = (pre ++ [p]) ++ post) as Hq' by by rewrite <- app_assoc.
      destruct (tracked_visited _ _ _ Htr Hq') as [T1 T2 T3]. by split.
    + rewrite Hnotes. rewrite (notes_nil a limit Hlim). congruence.
  - destruct Hwp as [Hno ->]. split_and!; [apply tracked_visited; [done|by rewrite app_nil_r]| |done].
    intros p Hsel. pose proof Hsel as (_ & a & Ha & _). apply (Hno p); [|done]. apply (tr_queue _ Htr). eauto.
Qed.

(** The effects of an inflight transaction on an account can be undone. A delta
    that applies is taken back by [revert_delta], which does not report the account
    as never created; a note that was consumed becomes available again; and a note
    that was added is gone. Each time the account is exactly what it was. *)
Theorem ntx_account_undo a (delta : AccountDelta) (n : Nullifier) (note : NetworkNote)
    (Hs : NtxAccount.committed a ≠ None ∨ NtxAccount.inflight a ≠ [])
    (Hd : ∀ x, apply_delta x delta ≠ None)
    (Hn : NtxAccount.available_notes a !! n = Some note) (Hnn : NtxAccount.nullified_notes a !! n = None) :
  (_ ← NtxAccount.add_delta delta; NtxAccount.revert_delta : M _ Empty_set _) a = (a, Ok false) ∧
  (_ ← NtxAccount.add_nullifier n; NtxAccount.revert_nullifier n : M _ Empty_set _) a = (a, Ok tt) ∧
  ∀ note', NtxAccount.available_notes a !! NtxAccount.nullifier_of note' = None →
    NtxAccount.nullified_notes a !! NtxAccount.nullifier_of note' = None →
    (_ ← NtxAccount.add_note note'; NtxAccount.revert_note (NtxAccount.nullifier_of note') : M _ Empty_set _) a =
      (a, Ok tt).
Proof.
  split_and!.
  - enough (wp_ok (_ ← NtxAccount.add_delta delta; NtxAccount.revert_delta : M _ Empty_set _) a
      (λ a' r, a' = a ∧ r = false)) as Hwp.
    { rewrite wp_unfold in Hwp. destruct ((_ ← NtxAccount.add_delta delta; NtxAccount.revert_delta) a) as [a' []];
        naive_solver. }
    unfold NtxAccount.add_delta. rewrite !wp_bind.
    eapply wp_mono; [by apply wp_latest_account| |done]. cbn beta. intros ? x [-> Hx]. wp_steps.
    destruct (apply_delta x delta) as [y|] eqn:Hy; [|by destruct (Hd x)].
    apply (wp_expect_some _ y); [done|]. wp_steps. unfold NtxAccount.revert_delta. wp_steps.
    apply (wp_expect_some _ y); [cbn; by rewrite last_snoc|]. wp_steps. cbn. rewrite removelast_last. split; [by destruct a|].
    destruct Hs as [Hs|Hs]; [by rewrite bool_decide_eq_false_2 by done|].
    rewrite (bool_decide_eq_false_2 (NtxAccount.inflight a = [])) by done. apply andb_false_r.
  - unfold NtxAccount.add_nullifier, NtxAccount.revert_nullifier. cbn. unfold mbind, M_bind, get, modify, expect_some, mret, M_ret.
    cbn. rewrite Hn. cbn. rewrite lookup_insert_eq. cbn. unfold NtxAccount.over_available, NtxAccount.over_nullified. cbn.
    rewrite delete_insert_id, insert_delete_id by done. by destruct a.
  - intros note' H1' H2'. unfold NtxAccount.add_note, NtxAccount.revert_note, mbind, M_bind, modify. cbn.
    unfold NtxAccount.over_available, NtxAccount.over_nullified. cbn.
    rewrite delete_insert_id, delete_id by done. by destruct a.
Qed.

End theorems.
