(* ===== verification/NtxInv.v ===== *)
(** * The invariant of the network transaction builder's state

    [inv] ties the accounts, the index of nullifiers and the inflight transactions
    together. It is preserved by every method, on the event streams that
    [admissible_event] describes; outside of them the state panics, which
    [NtxExamples.v] shows. The transactions are an argument of the invariant, so that
    it can be stated in the middle of a method, where the transaction at hand is not
    in the state. *)

From S2P Require Import Prelude.
From S2P Require Import External.
From S2P Require Import Subscription.
From S2P Require Import NtxAccount.
From S2P Require Import NtxState.
From S2P Require Import NtxTheorems.
Import NtxState.

(** Documented behaviour: a delta does not change the id of an account. *)
Class NtxLaws `{!MidenObjects} `{!NtxObjects} : Prop :=
  apply_delta_id x d y : apply_delta x d = Some y → acc_id y = acc_id x.

Section inv.
Context `{!MidenObjects} `{!NtxObjects} {StoreError : Type}.
Implicit Types (s : State) (p q : NetworkAccountPrefix) (a : NtxAccount.AccountState) (n : Nullifier)
  (tx : TransactionId) (i : TransactionImpact) (x : Account).

Abbreviation Impacts := (gmap TransactionId TransactionImpact).

Abbreviation NM := (M State (NtxError (StoreError := StoreError))).

(** [x] is a network account at [p]. *)
Definition acc_at p x : Prop := account_is_network (acc_id x) = true ∧ prefix_of_id (acc_id x) = p.

(** The inflight transactions that update account [p]. *)
Definition updaters (txs : Impacts) p : gset TransactionId := dom (filter (λ kv, account_delta kv.2 = Some p) txs).

(** The indexed nullifier [n] of a note that its account holds in [notes]. *)
Definition held (notes : NtxAccount.AccountState → gmap Nullifier NetworkNote) s n : Prop :=
  ∃ p a, nullifier_idx s !! n = Some p ∧ accounts s !! p = Some a ∧ is_Some (notes a !! n).

(** The account can consume the note. *)
Definition available_at : State → Nullifier → Prop := held NtxAccount.available_notes.

(** The account has consumed the note. *)
Definition nullified_at : State → Nullifier → Prop := held NtxAccount.nullified_notes.

(** The accounts: those tracked are network accounts, with one state for each
    inflight transaction that updates them. *)
Record account_inv (txs : Impacts) s : Prop := {
  inv_tracked : tracked s;
  inv_ids : ∀ p a x, accounts s !! p = Some a →
    NtxAccount.committed a = Some x ∨ x ∈ NtxAccount.inflight a → acc_at p x;
  inv_deltas : ∀ p, size (updaters txs p) =
    match accounts s !! p with Some a => length (NtxAccount.inflight a) | None => 0 end;
}.

(** The notes: what a transaction created is indexed, what it consumed is kept as
    consumed and by nobody else. *)
Record note_inv (txs : Impacts) s : Prop := {
  inv_notes : ∀ tx i n, txs !! tx = Some i → n ∈ impact_notes i → is_Some (nullifier_idx s !! n);
  inv_nullified : ∀ tx i n, txs !! tx = Some i → n ∈ impact_nullifiers i → nullified_at s n;
  inv_notes_once : ∀ tx i tx' i' n, txs !! tx = Some i → txs !! tx' = Some i' →
    n ∈ impact_notes i → n ∈ impact_notes i' → tx = tx';
  inv_nullified_once : ∀ tx i tx' i' n, txs !! tx = Some i → txs !! tx' = Some i' →
    n ∈ impact_nullifiers i → n ∈ impact_nullifiers i' → tx = tx';
  inv_own : ∀ tx i n, txs !! tx = Some i → n ∈ impact_notes i → n ∉ impact_nullifiers i;
  inv_available : ∀ n, available_at s n → ∀ tx i, txs !! tx = Some i → n ∉ impact_nullifiers i;
}.

Definition inv (txs : Impacts) s : Prop := account_inv txs s ∧ note_inv txs s.

(** ** Updaters *)

Lemma elem_of_updaters txs p tx : tx ∈ updaters txs p ↔ ∃ i, txs !! tx = Some i ∧ account_delta i = Some p.
Proof.
  unfold updaters. rewrite elem_of_dom. unfold is_Some. setoid_rewrite map_lookup_filter_Some. naive_solver.
Qed.

(** The updaters change only by the one transaction that changes. *)
Lemma updaters_insert txs p tx i :
  updaters (<[tx := i]> txs) p =
    if decide (account_delta i = Some p) then {[tx]} ∪ updaters txs p else updaters txs p ∖ {[tx]}.
Proof.
  apply set_eq. intros tx'. rewrite elem_of_updaters. setoid_rewrite lookup_insert.
  destruct (decide (account_delta i = Some p)) as [Hp|Hp].
  - rewrite elem_of_union, elem_of_singleton, elem_of_updaters. destruct (decide (tx = tx')) as [->|Hne]; naive_solver.
  - rewrite elem_of_difference, elem_of_singleton, elem_of_updaters. destruct (decide (tx = tx')) as [->|Hne]; naive_solver.
Qed.

(** ** Changes of the transactions *)

(** Each of [txs'] has at most the notes that [txs] has of it. *)
Definition fewer_notes (txs' txs : Impacts) : Prop := ∀ tx i', txs' !! tx = Some i' →
  ∃ i, txs !! tx = Some i ∧ impact_notes i' ⊆ impact_notes i ∧ impact_nullifiers i' ⊆ impact_nullifiers i.

Lemma note_inv_fewer txs txs' s : note_inv txs s → fewer_notes txs' txs → note_inv txs' s.
Proof.
  intros [H1 H2 H3 H4 H5 H6] Hle. split.
  - intros tx i n (j & Hj & Hs & _)%Hle Hin. eauto.
  - intros tx i n (j & Hj & _ & Hs)%Hle Hin. eauto.
  - intros tx i tx' i' n (j & Hj & Hs & _)%Hle (j' & Hj' & Hs' & _)%Hle Hin Hin'. eauto.
  - intros tx i tx' i' n (j & Hj & _ & Hs)%Hle (j' & Hj' & _ & Hs')%Hle Hin Hin'. eauto.
  - intros tx i n (j & Hj & Hs & Hs')%Hle Hin Hin'. by apply (H5 tx j n); [done|apply Hs|apply Hs'].
  - intros n Hav tx i (j & Hj & _ & Hs)%Hle Hin. by apply (H6 n Hav tx j Hj), Hs.
Qed.

Lemma account_inv_updaters txs txs' s :
  account_inv txs s → (∀ p, updaters txs' p = updaters txs p) → account_inv txs' s.
Proof. intros [H1 H2 H3] Hu. split; [done..|]. intros p. by rewrite Hu. Qed.

Lemma fewer_insert txs tx i i' :
  txs !! tx = Some i → impact_notes i' ⊆ impact_notes i → impact_nullifiers i' ⊆ impact_nullifiers i →
  fewer_notes (<[tx := i']> txs) txs.
Proof. intros Hi Hn Hu tx' j. rewrite lookup_insert. case_decide; [|naive_solver]. intros [= <-]. subst. eauto. Qed.

Lemma fewer_delete txs tx : fewer_notes (delete tx txs) txs.
Proof. intros tx' j [_ Hj]%lookup_delete_Some. eauto. Qed.

(** A transaction without an update can be forgotten. *)
Lemma inv_forget txs s tx i : inv txs s → txs !! tx = Some i → account_delta i = None → inv (delete tx txs) s.
Proof.
  intros [Ha Hn] Hi Hd. split; [|exact (note_inv_fewer _ _ _ Hn (fewer_delete _ _))].
  apply (account_inv_updaters txs); [done|]. intros p. apply set_eq. intros tx'. rewrite !elem_of_updaters.
  setoid_rewrite lookup_delete_Some. naive_solver.
Qed.

(** A transaction without any impact can be added. *)
Lemma inv_begin txs s tx : inv txs s → txs !! tx = None → inv (<[tx := impact_empty]> txs) s.
Proof.
  intros [Ha [H1 H2 H3 H4 H5 H6]] Htx. split.
  { apply (account_inv_updaters txs); [done|]. intros p. rewrite updaters_insert, decide_False by done.
    apply set_eq. intros tx'. rewrite elem_of_difference, elem_of_singleton, elem_of_updaters. naive_solver. }
  assert (∀ tx0 i0, <[tx := impact_empty]> txs !! tx0 = Some i0 → txs !! tx0 = Some i0 ∨ i0 = impact_empty) as Hle.
  { intros tx0 i0. rewrite lookup_insert. case_decide; naive_solver. }
  split.
  - intros tx0 i0 n [Hi| ->]%Hle; [eauto|set_solver].
  - intros tx0 i0 n [Hi| ->]%Hle; [eauto|set_solver].
  - intros tx0 i0 tx1 i1 n [Hi0| ->]%Hle [Hi1| ->]%Hle; [eauto|set_solver..].
  - intros tx0 i0 tx1 i1 n [Hi0| ->]%Hle [Hi1| ->]%Hle; [eauto|set_solver..].
  - intros tx0 i0 n [Hi| ->]%Hle; [eauto|set_solver].
  - intros n Hav tx0 i0 [Hi| ->]%Hle; [eauto|set_solver].
Qed.

(** ** Changes of an account *)

(** The states of a tracked account change, with the transactions that update it. *)
Lemma account_inv_set txs txs' s p a a' :
  account_inv txs s → accounts s !! p = Some a →
  (∀ q, q ≠ p → updaters txs' q = updaters txs q) → size (updaters txs' p) = length (NtxAccount.inflight a') →
  (∀ x, NtxAccount.committed a' = Some x ∨ x ∈ NtxAccount.inflight a' → acc_at p x) →
  NtxAccount.committed a' ≠ None ∨ NtxAccount.inflight a' ≠ [] →
  account_inv txs' (over_accounts (λ m, <[p := a']> m) s).
Proof.
  intros [[H1 H2 H3] H4 H5] Ha Hu Hlen Hids Hst. split; [split|..]; cbn.
  - done.
  - intros q. rewrite H2, lookup_insert. case_decide; [subst; naive_solver|done].
  - intros q b. rewrite lookup_insert. case_decide; naive_solver.
  - intros q b x. rewrite lookup_insert. case_decide; naive_solver.
  - intros q. rewrite lookup_insert. case_decide; [by subst|]. by rewrite Hu by done.
Qed.

(** Only its notes change. *)
Lemma account_inv_notes txs s p a a' :
  account_inv txs s → accounts s !! p = Some a → NtxAccount.committed a' = NtxAccount.committed a →
  NtxAccount.inflight a' = NtxAccount.inflight a → account_inv txs (over_accounts (λ m, <[p := a']> m) s).
Proof.
  intros Hinv Ha Hc Hi. apply (account_inv_set txs txs s p a); rewrite ?Hc, ?Hi; try done.
  - rewrite (inv_deltas _ _ Hinv), Ha. done.
  - intros x. by apply (inv_ids _ _ Hinv).
  - by apply (tr_state _ (inv_tracked _ _ Hinv) p).
Qed.

(** An account that was not tracked is, without notes. *)
Lemma account_inv_new txs txs' s p a :
  account_inv txs s → accounts s !! p = None →
  (∀ q, q ≠ p → updaters txs' q = updaters txs q) → size (updaters txs' p) = length (NtxAccount.inflight a) →
  (∀ x, NtxAccount.committed a = Some x ∨ x ∈ NtxAccount.inflight a → acc_at p x) →
  NtxAccount.committed a ≠ None ∨ NtxAccount.inflight a ≠ [] →
  account_inv txs' (over_accounts (λ m, <[p := a]> m) (over_queue (λ qs, qs ++ [p]) s)).
Proof.
  intros [[H1 H2 H3] H4 H5] Ha Hu Hlen Hids Hst. split; [split|..]; cbn.
  - apply NoDup_app. split_and!; [done| |apply NoDup_singleton]. intros q Hq ->%list_elem_of_singleton.
    apply H2 in Hq as [b Hb]. by rewrite Ha in Hb.
  - intros q. rewrite elem_of_app, list_elem_of_singleton, H2, lookup_insert. case_decide; [|naive_solver].
    subst. split; [eauto|by right].
  - intros q b. rewrite lookup_insert. case_decide; naive_solver.
  - intros q b x. rewrite lookup_insert. case_decide; naive_solver.
  - intros q. rewrite lookup_insert. case_decide; [by subst|]. by rewrite Hu by done.
Qed.

(** The accounts do not depend on the other parts of the state. *)
Lemma account_inv_frame txs s s' :
  account_inv txs s → queue s' = queue s → accounts s' = accounts s → account_inv txs s'.
Proof. intros [[H1 H2 H3] H4 H5] Hq Ha. split; [split|..]; rewrite ?Hq, ?Ha; done. Qed.

(** The notes do not depend on the states of the accounts. *)
Lemma note_inv_frame txs s s' :
  note_inv txs s → (∀ n, is_Some (nullifier_idx s !! n) → is_Some (nullifier_idx s' !! n)) →
  (∀ n, nullified_at s n → nullified_at s' n) → (∀ n, available_at s' n → available_at s n) → note_inv txs s'.
Proof. intros [H1 H2 H3 H4 H5 H6] Hi Hn Ha. split; eauto. Qed.

(** ** Where a note is held *)

(** What is held while account [p] changes from [a] to [a']. *)
Lemma held_set notes s p a a' n :
  accounts s !! p = Some a → (is_Some (notes a' !! n) ↔ is_Some (notes a !! n)) →
  held notes (over_accounts (λ m, <[p := a']> m) s) n ↔ held notes s n.
Proof.
  intros Ha Hn. unfold held. cbn. split.
  - intros (q & b & Hq & Hb & Hs). revert Hb. rewrite lookup_insert. case_decide; [|naive_solver].
    intros [= <-]. subst. exists q, a. naive_solver.
  - intros (q & b & Hq & Hb & Hs). destruct (decide (p = q)) as [->|Hne].
    + exists q, a'. rewrite lookup_insert_eq. naive_solver.
    + exists q, b. by rewrite lookup_insert_ne.
Qed.

Lemma held_mono notes s s' n :
  nullifier_idx s' !! n = nullifier_idx s !! n → accounts s ⊆ accounts s' → held notes s n → held notes s' n.
Proof. intros Hi Ha (p & a & Hp & Hpa & Hs). exists p, a. split_and!; [by rewrite Hi|by eapply lookup_weaken|done]. Qed.

(** An account without notes is added. *)
Lemma held_new notes s p a n qs :
  accounts s !! p = None → notes a = ∅ →
  held notes (over_accounts (λ m, <[p := a]> m) (over_queue qs s)) n ↔ held notes s n.
Proof.
  intros Ha Hn. unfold held. cbn. split.
  - intros (q & b & Hq & Hb & Hs). revert Hb. rewrite lookup_insert. case_decide; [|naive_solver].
    intros [= <-]. rewrite Hn, lookup_empty in Hs. by destruct Hs.
  - intros (q & b & Hq & Hb & Hs). exists q, b. rewrite lookup_insert_ne by congruence. done.
Qed.

Lemma note_inv_new txs s p a qs :
  note_inv txs s → accounts s !! p = None → NtxAccount.available_notes a = ∅ → NtxAccount.nullified_notes a = ∅ →
  note_inv txs (over_accounts (λ m, <[p := a]> m) (over_queue qs s)).
Proof.
  intros Hinv Ha Hav Hnu. apply (note_inv_frame txs s); [done|done|..]; intros n; by apply held_new.
Qed.

(** ** Changes of the notes of an account *)

Section notes.
Context (txs : Impacts) (s : State) (p : NetworkAccountPrefix) (a : NtxAccount.AccountState) (n : Nullifier)
  (tx : TransactionId) (i : TransactionImpact).
Context (Hinv : note_inv txs s) (Hi : txs !! tx = Some i) (Hn : nullifier_idx s !! n = Some p)
  (Ha : accounts s !! p = Some a).

(** The note is consumed by [tx]. *)
Lemma note_inv_consume v a' :
  is_Some (NtxAccount.available_notes a !! n) → n ∉ impact_notes i →
  NtxAccount.available_notes a' = delete n (NtxAccount.available_notes a) →
  NtxAccount.nullified_notes a' = <[n := v]> (NtxAccount.nullified_notes a) →
  note_inv (<[tx := mk_impact (account_delta i) (impact_notes i) ({[n]} ∪ impact_nullifiers i)]> txs)
    (over_accounts (λ m, <[p := a']> m) s).
Proof.
  intros Hav Hown Hava Hnul. destruct Hinv as [H1 H2 H3 H4 H5 H6].
  assert (∀ tx0 j, <[tx := mk_impact (account_delta i) (impact_notes i) ({[n]} ∪ impact_nullifiers i)]> txs !! tx0 = Some j →
    ∃ j0, txs !! tx0 = Some j0 ∧ impact_notes j = impact_notes j0 ∧
      ∀ m, m ∈ impact_nullifiers j → (m = n ∧ tx0 = tx) ∨ m ∈ impact_nullifiers j0) as Hle.
  { intros tx0 j. rewrite lookup_insert. case_decide; [|naive_solver]. subst. intros [= <-]. exists i.
    split_and!; [done|done|]. intros m. cbn. set_solver. }
  assert (∀ tx0 j, txs !! tx0 = Some j → n ∉ impact_nullifiers j) as Hfree by (apply H6; by exists p, a).
  assert (∀ m, m ≠ n → held NtxAccount.nullified_notes s m →
    held NtxAccount.nullified_notes (over_accounts (λ m, <[p := a']> m) s) m) as Hkeep.
  { intros m Hm. apply (held_set _ _ _ a); [done|]. by rewrite Hnul, lookup_insert_ne. }
  split.
  - intros tx0 j m (j0 & Hj & -> & _)%Hle Hm. eauto.
  - intros tx0 j m (j0 & Hj & _ & Hs)%Hle [[-> ->]|Hm]%Hs.
    + exists p, a'. cbn. rewrite lookup_insert_eq, Hnul, lookup_insert_eq. eauto.
    + apply Hkeep; [intros ->; by apply (Hfree tx0 j0)|by eapply H2].
  - intros tx0 j tx1 j1 m (k & Hk & -> & _)%Hle (k1 & Hk1 & -> & _)%Hle. eauto.
  - intros tx0 j tx1 j1 m (k & Hk & _ & Hs)%Hle (k1 & Hk1 & _ & Hs1)%Hle [[-> ->]|Hm]%Hs [[Heq ->]|Hm1]%Hs1;
      [done| | |by eapply H4].
    + by destruct (Hfree tx1 k1).
    + subst. by destruct (Hfree tx0 k).
  - intros tx0 j m (k & Hk & Heq & Hs)%Hle Hm [[-> ->]|Hm1]%Hs.
    + rewrite Heq in Hm. assert (k = i) as -> by congruence. done.
    + rewrite Heq in Hm. by apply (H5 tx0 k m).
  - intros m (q & b & Hq & Hb & Hs) tx0 j (k & Hk & _ & Hs')%Hle Hm. cbn in Hq, Hb.
    assert (m ≠ n) as Hne.
    { intros ->. assert (q = p) as -> by congruence. rewrite lookup_insert_eq in Hb. injection Hb as <-.
      rewrite Hava, lookup_delete_eq in Hs. by destruct Hs. }
    apply Hs' in Hm as [[-> _]|Hm]; [done|]. apply (H6 m) with tx0 k; [|done|done].
    assert (held NtxAccount.available_notes (over_accounts (λ m, <[p := a']> m) s) m) as Hh by by exists q, b.
    apply (held_set _ _ _ a) in Hh; [done|done|]. by rewrite Hava, lookup_delete_ne.
Qed.

(** The note that [tx] consumed is available again. *)
Lemma note_inv_restore a' :
  n ∈ impact_nullifiers i →
  (∀ m, m ≠ n → NtxAccount.available_notes a' !! m = NtxAccount.available_notes a !! m) →
  NtxAccount.nullified_notes a' = delete n (NtxAccount.nullified_notes a) →
  note_inv (<[tx := mk_impact (account_delta i) (impact_notes i) (impact_nullifiers i ∖ {[n]})]> txs)
    (over_accounts (λ m, <[p := a']> m) s).
Proof.
  intros Hin Hava Hnul. destruct Hinv as [H1 H2 H3 H4 H5 H6].
  set (txs' := <[tx := _]> txs).
  assert (note_inv txs' s) as [G1 G2 G3 G4 G5 G6].
  { apply (note_inv_fewer txs); [done|]. apply fewer_insert with i; set_solver. }
  assert (∀ tx0 j, txs' !! tx0 = Some j → n ∉ impact_nullifiers j) as Hgone.
  { intros tx0 j. unfold txs'. rewrite lookup_insert. case_decide; [intros [= <-]; set_solver|].
    intros Hj Hnj. by destruct (H4 tx i tx0 j n). }
  split; [done| |done|done|done|].
  - intros tx0 j m Hj Hm. apply (held_set _ _ _ a); [done| |by eapply G2].
    rewrite Hnul, lookup_delete_ne; [done|]. intros ->. by eapply Hgone.
  - intros m Hm tx0 j Hj. destruct (decide (m = n)) as [->|Hne]; [by eapply Hgone|].
    eapply G6; [|done]. apply (held_set _ _ _ a) in Hm; [done|done|]. by rewrite Hava.
Qed.

End notes.

(** ** Changes of the index *)

(** A note of [tx] enters the index. *)
Lemma note_inv_index txs s p n tx i :
  note_inv txs s → txs !! tx = Some i → nullifier_idx s !! n = None →
  (∀ tx' j, txs !! tx' = Some j → n ∉ impact_nullifiers j) ∧
  note_inv (<[tx := mk_impact (account_delta i) ({[n]} ∪ impact_notes i) (impact_nullifiers i)]> txs)
    (over_idx (λ m, <[n := p]> m) s).
Proof.
  intros [H1 H2 H3 H4 H5 H6] Hi Hn.
  assert (∀ tx' j, txs !! tx' = Some j → n ∉ impact_nullifiers j) as Hfree.
  { intros tx' j Hj Hin. destruct (H2 _ _ _ Hj Hin) as (q & a & Hq & _). congruence. }
  assert (∀ tx' j, txs !! tx' = Some j → n ∉ impact_notes j) as Hfresh.
  { intros tx' j Hj Hin. destruct (H1 _ _ _ Hj Hin) as [q Hq]. congruence. }
  split; [done|].
  assert (∀ tx0 j, <[tx := mk_impact (account_delta i) ({[n]} ∪ impact_notes i) (impact_nullifiers i)]> txs !! tx0 = Some j →
    ∃ j0, txs !! tx0 = Some j0 ∧ impact_nullifiers j = impact_nullifiers j0 ∧
      ∀ m, m ∈ impact_notes j → (m = n ∧ tx0 = tx) ∨ m ∈ impact_notes j0) as Hle.
  { intros tx0 j. rewrite lookup_insert. case_decide; [|naive_solver]. subst. intros [= <-]. exists i.
    split_and!; [done|done|]. intros m. cbn. set_solver. }
  assert (∀ notes m, m ≠ n → held notes (over_idx (λ m, <[n := p]> m) s) m ↔ held notes s m) as Hheld.
  { intros notes m Hm. unfold held. cbn. by setoid_rewrite lookup_insert_ne; [|done]. }
  split.
  - intros tx0 j m (k & Hk & _ & Hs)%Hle Hm. cbn. rewrite lookup_insert. case_decide; [eauto|].
    apply Hs in Hm as [[-> _]|Hm]; [done|eauto].
  - intros tx0 j m (k & Hk & Heq & _)%Hle Hm. rewrite Heq in Hm. apply Hheld; [|by eapply H2].
    intros ->. by eapply Hfree.
  - intros tx0 j tx1 j1 m (k & Hk & _ & Hs)%Hle (k1 & Hk1 & _ & Hs1)%Hle [[-> ->]|Hm]%Hs [[Heq ->]|Hm1]%Hs1;
      [done| | |by eapply H3]; subst; exfalso; naive_solver.
  - intros tx0 j tx1 j1 m (k & Hk & -> & _)%Hle (k1 & Hk1 & -> & _)%Hle. eauto.
  - intros tx0 j m (k & Hk & Heq & Hs)%Hle Hm. rewrite Heq.
    apply Hs in Hm as [[-> _]|Hm]; [by eapply Hfree|by eapply H5].
  - intros m Hm tx0 j (k & Hk & Heq & _)%Hle. rewrite Heq. destruct (decide (m = n)) as [->|Hne]; [by eapply Hfree|].
    eapply H6; [|done]. by apply Hheld in Hm.
Qed.

(** A note that no transaction has leaves the index. *)
Lemma note_inv_unindex txs s n :
  note_inv txs s → (∀ tx i, txs !! tx = Some i → n ∉ impact_notes i ∧ n ∉ impact_nullifiers i) →
  note_inv txs (over_idx (λ m, delete n m) s).
Proof.
  intros [H1 H2 H3 H4 H5 H6] Hfree.
  assert (∀ notes m, m ≠ n → held notes (over_idx (λ m, delete n m) s) m ↔ held notes s m) as Hheld.
  { intros notes m Hm. unfold held. cbn. by setoid_rewrite lookup_delete_ne; [|done]. }
  split; [| |done|done|done|].
  - intros tx i m Hi Hm. cbn. rewrite lookup_delete_ne; [eauto|]. intros ->. by destruct (Hfree tx i).
  - intros tx i m Hi Hm. apply Hheld; [|by eapply H2]. intros ->. by destruct (Hfree tx i).
  - intros m Hm tx i Hi. destruct (decide (m = n)) as [->|Hne]; [by eapply Hfree|].
    eapply H6; [|done]. by apply Hheld in Hm.
Qed.

(** Any change of the notes of nullifiers that no transaction has. *)
Lemma note_inv_outside txs s p a a' n :
  note_inv txs s → accounts s !! p = Some a → (∀ tx i, txs !! tx = Some i → n ∉ impact_nullifiers i) →
  (∀ m, m ≠ n → NtxAccount.available_notes a' !! m = NtxAccount.available_notes a !! m) →
  (∀ m, m ≠ n → NtxAccount.nullified_notes a' !! m = NtxAccount.nullified_notes a !! m) →
  note_inv txs (over_accounts (λ m, <[p := a']> m) s).
Proof.
  intros [H1 H2 H3 H4 H5 H6] Ha Hfree Hav Hnu. split; [done| |done|done|done|].
  - intros tx i m Hi Hm. apply (held_set _ _ _ a); [done| |by eapply H2].
    rewrite Hnu; [done|]. intros ->. by eapply Hfree.
  - intros m Hm tx i Hi. destruct (decide (m = n)) as [->|Hne]; [by eapply Hfree|].
    eapply H6; [|done]. apply (held_set _ _ _ a) in Hm; [done|done|]. by rewrite Hav.
Qed.

End inv.
