(* ===== verification/NtxOps.v ===== *)
(** * Every method of the builder's state keeps the invariant *)

From S2P Require Import Prelude.
From S2P Require Import External.
From S2P Require Import Subscription.
From S2P Require Import NtxAccount.
From S2P Require Import NtxState.
From S2P Require Import NtxTheorems.
From S2P Require Import NtxInv.
Import NtxState.

Section ops.
Context `{!MidenObjects} `{!NtxObjects} `{!NtxLaws} {StoreError : Type}.
Implicit Types (s : State) (p q : NetworkAccountPrefix) (a : NtxAccount.AccountState) (n : Nullifier)
  (tx : TransactionId) (i : TransactionImpact) (x : Account) (store : Store (StoreError := StoreError)).

Abbreviation NM := (M State (NtxError (StoreError := StoreError))).

(** The store returns the network account that it is asked for. *)
Definition store_ok store : Prop := ∀ p x, store p = inr (Some x) → acc_at p x.

(** The account that a lookup finds, tracked or in the store. *)
Definition account_at store s p : option NtxAccount.AccountState :=
  match accounts s !! p with
  | Some a => Some a
  | None => match store p with inr (Some x) => Some (NtxAccount.from_committed_account x) | _ => None end
  end.

(** The error is the store's, or an account is missing there. *)
Definition update_error store (e : NtxError (StoreError := StoreError)) : Prop :=
  match e with
  | StoreFailed e => ∃ p, store p = inl e
  | AccountNotFound => ∃ p, store p = inr None
  end.

(** Only accounts and the queue have changed, and no account was lost. *)
Definition framed s s' : Prop :=
  nullifier_idx s' = nullifier_idx s ∧ inflight_txs s' = inflight_txs s ∧ in_progress s' = in_progress s.

Lemma framed_refl s : framed s s.
Proof. done. Qed.

Lemma framed_trans s s' s'' : framed s s' → framed s' s'' → framed s s''.
Proof. unfold framed. intuition congruence. Qed.

Lemma inv_progress txs f s : inv txs s → inv txs (over_in_progress f s).
Proof.
  intros [Ha Hn]. split; [by eapply account_inv_frame|]. by apply (note_inv_frame _ s).
Qed.

Lemma inv_inflight txs f s : inv txs s → inv txs (over_inflight f s).
Proof.
  intros [Ha Hn]. split; [by eapply account_inv_frame|]. by apply (note_inv_frame _ s).
Qed.

(** ** Looking up an account *)

Lemma wp_fetch txs store p s :
  inv txs s → store_ok store →
  wp (fetch_account store p) s (λ s' r, inv txs s' ∧ framed s s' ∧ accounts s ⊆ accounts s' ∧
    r = account_at store s p ∧ match r with Some a => accounts s' !! p = Some a | None => store p = inr None end)
    (λ _ e, update_error store e).
Proof.
  intros [Ha Hn] Hst. unfold fetch_account, account_at. wp_steps.
  destruct (accounts s !! p) as [a|] eqn:Hp; [by wp_steps|].
  destruct (store p) as [e|[x|]] eqn:Hs; wp_steps; [by exists p| |by split_and!].
  split_and!; try done.
  - split; [|by apply note_inv_new].
    apply (account_inv_new txs txs); [done|done|done|..].
    + rewrite (inv_deltas _ _ Ha), Hp. done.
    + intros y [[= <-]|[]%not_elem_of_nil]. by apply Hst.
    + by left.
  - by apply insert_subseteq.
  - by apply lookup_insert_eq.
Qed.

(** ** The parts of [add_transaction] *)

(** The latest state of the account at [p] takes the delta. *)
Definition applies store s p (delta : AccountDelta) : Prop := ∀ a x, account_at store s p = Some a →
  Some x = match last (NtxAccount.inflight a) with Some x => Some x | None => NtxAccount.committed a end →
  apply_delta x delta ≠ None.

(** The update can be applied: a new account is not tracked yet, a delta applies. *)
Definition update_applies store s (u : NtxAccount.NetworkAccountUpdate) : Prop :=
  match u with
  | NtxAccount.NewAccount x => accounts s !! NtxAccount.prefix u = None
  | NtxAccount.DeltaOf delta => applies store s (NtxAccount.prefix u) delta
  end.

Lemma updaters_other txs tx i p q :
  (∀ j, txs !! tx = Some j → account_delta j = None ∨ account_delta j = Some p) →
  account_delta i = Some p ∨ account_delta i = None → q ≠ p →
  updaters (<[tx := i]> txs) q = updaters txs q.
Proof.
  intros Hj Hi Hq. rewrite updaters_insert, decide_False by naive_solver.
  apply set_eq. intros tx'. rewrite elem_of_difference, elem_of_singleton, elem_of_updaters.
  split; [by intros []|]. intros (j & Hl & Hd). split; [eauto|]. intros ->. naive_solver.
Qed.

Lemma updaters_gain txs tx i p :
  (∀ j, txs !! tx = Some j → account_delta j = None) → account_delta i = Some p →
  size (updaters (<[tx := i]> txs) p) = S (size (updaters txs p)).
Proof.
  intros Hj Hi. rewrite updaters_insert, decide_True by done. rewrite size_union.
  - by rewrite size_singleton.
  - apply disjoint_singleton_l. rewrite elem_of_updaters. intros (j & Hl & Hd). specialize (Hj _ Hl). congruence.
Qed.

Lemma updaters_lose txs tx i j p :
  txs !! tx = Some j → account_delta j = Some p → account_delta i = None →
  S (size (updaters (<[tx := i]> txs) p)) = size (updaters txs p).
Proof.
  intros Hj Hd Hi. rewrite updaters_insert, decide_False by congruence.
  assert (tx ∈ updaters txs p) as Hin by (apply elem_of_updaters; eauto).
  assert (size (updaters txs p) ≠ 0) as Hne by (rewrite size_non_empty_iff; set_solver).
  rewrite size_difference by set_solver. rewrite size_singleton. lia.
Qed.

Lemma wp_add_delta {E} delta p a :
  NtxAccount.committed a ≠ None ∨ NtxAccount.inflight a ≠ [] →
  (∀ x, NtxAccount.committed a = Some x ∨ x ∈ NtxAccount.inflight a → acc_at p x) →
  (∀ x, Some x = match last (NtxAccount.inflight a) with Some x => Some x | None => NtxAccount.committed a end →
    apply_delta x delta ≠ None) →
  wp_ok (NtxAccount.add_delta delta : M _ E _) a (λ a' _, ∃ y, acc_at p y ∧
    a' = NtxAccount.set_inflight (NtxAccount.inflight a ++ [y]) a).
Proof.
  intros Hst Hid Hd. unfold NtxAccount.add_delta. rewrite !wp_bind.
  eapply wp_mono; [by apply wp_latest_account| |done]. cbn beta. intros ? x [-> Hx]. wp_steps.
  destruct (apply_delta x delta) as [y|] eqn:Hy; [|by destruct (Hd x)].
  apply (wp_expect_some _ y); [done|]. wp_steps. exists y. split; [|done].
  assert (acc_at p x) as [H1' H2'].
  { apply Hid. destruct (last (NtxAccount.inflight a)) as [z|] eqn:Hl; [|by left]. right. simplify_eq.
    by apply last_Some_elem_of. }
  unfold acc_at. by rewrite (apply_delta_id _ _ _ Hy).
Qed.

Lemma wp_apply_update txs store u s tx :
  inv txs s → store_ok store → txs !! tx = Some impact_empty → update_applies store s u →
  account_is_network (NtxAccount.update_account_id u) = true →
  wp (apply_update store u) s (λ s' _,
    inv (<[tx := mk_impact (Some (NtxAccount.prefix u)) ∅ ∅]> txs) s' ∧ framed s s' ∧
    ∀ n, available_at s n → available_at s' n) (λ _ e, update_error store e).
Proof.
  intros Hinv Hst Htx Hu Hnet. unfold apply_update. set (p := NtxAccount.prefix u) in *.
  set (i := mk_impact (Some p) ∅ ∅).
  assert (∀ s, note_inv txs s → note_inv (<[tx := i]> txs) s) as Hfew.
  { intros s' Hn. apply (note_inv_fewer txs); [done|]. by apply fewer_insert with impact_empty. }
  assert (∀ q, q ≠ p → updaters (<[tx := i]> txs) q = updaters txs q) as Hother.
  { intros q Hq. apply updaters_other with p; [naive_solver|by left|done]. }
  assert (size (updaters (<[tx := i]> txs) p) = S (size (updaters txs p))) as Hgain.
  { apply updaters_gain; [naive_solver|done]. }
  destruct u as [x|delta].
  - change (accounts s !! p = None) in Hu. destruct Hinv as [Ha Hn]. wp_steps. split_and!; [|done|].
    + change (inv (<[tx:=i]> txs)
        (over_accounts (λ m, <[p:=NtxAccount.from_uncommitted_account x]> m) (over_queue (λ qs, qs ++ [p]) s))). split.
      * apply (account_inv_new txs); [done|done|done|..].
        -- by rewrite Hgain, (inv_deltas _ _ Ha), Hu.
        -- intros y [|Hy%list_elem_of_singleton]; [done|]. by subst.
        -- by right.
      * apply Hfew, note_inv_new; done.
    + intros n Hav. apply (held_new _ s p _ n (λ qs, qs ++ [p])); done.
  - change (applies store s p delta) in Hu. rewrite wp_bind. eapply wp_mono; [by apply (wp_fetch txs)| |done].
    intros s' r ([Ha Hn] & Hfr & Hsub & -> & Hr). destruct (account_at store s p) as [a|] eqn:Hat; cycle 1.
    { wp_steps. by exists p. }
    apply wp_on_account. eapply wp_weaken, wp_mono; [apply (wp_add_delta _ p)| |done].
    + by apply (tr_state _ (inv_tracked _ _ Ha) p).
    + intros x. by apply (inv_ids _ _ Ha).
    + intros x. by apply Hu.
    + intros a' _ (y & Hy & ->). split_and!; [split|done|].
      * apply (account_inv_set txs _ s' p a); [done|done|done|..].
        -- rewrite Hgain, (inv_deltas _ _ Ha), Hr. cbn. rewrite length_app. cbn. lia.
        -- intros x Hx. cbn in Hx. rewrite elem_of_app, list_elem_of_singleton in Hx.
           destruct Hx as [Hx|[Hx| ->]]; [..|done]; eapply (inv_ids _ _ Ha); eauto.
        -- right. cbn. by destruct (NtxAccount.inflight a).
      * apply Hfew. apply (note_inv_frame _ s'); [done|done|..]; intros n; by apply (held_set _ _ _ a).
      * intros n Hav. apply (held_set _ _ _ a); [done|done|].
        eapply held_mono; [|exact Hsub|exact Hav]. by rewrite (proj1 Hfr).
Qed.

(** The index, the transactions and the locks are as before but for new entries of
    the index; what could be consumed still can. *)
Definition indexed s s' (l : list NetworkNote) : Prop :=
  (∀ n, n ∉ NtxAccount.nullifier_of <$> l → nullifier_idx s' !! n = nullifier_idx s !! n) ∧
  inflight_txs s' = inflight_txs s ∧ in_progress s' = in_progress s ∧
  ∀ n, n ∉ NtxAccount.nullifier_of <$> l → available_at s n → available_at s' n.

Lemma held_index notes s n m p : m ≠ n → held notes (over_idx (λ idx, <[n := p]> idx) s) m ↔ held notes s m.
Proof. intros Hm. unfold held. cbn. by setoid_rewrite lookup_insert_ne; [|done]. Qed.

Lemma wp_add_created txs store tx i note s :
  inv txs s → store_ok store → txs !! tx = Some i → nullifier_idx s !! NtxAccount.nullifier_of note = None →
  wp (add_created store i note) s (λ s' i',
    i' = mk_impact (account_delta i) ({[NtxAccount.nullifier_of note]} ∪ impact_notes i) (impact_nullifiers i) ∧
    inv (<[tx := i']> txs) s' ∧ indexed s s' [note]) (λ _ e, update_error store e).
Proof.
  intros [Ha Hn] Hst Htx Hidx. unfold add_created. set (n := NtxAccount.nullifier_of note) in *.
  set (p := NtxAccount.account_prefix note). set (i' := mk_impact _ ({[n]} ∪ _) _).
  destruct (note_inv_index txs s p n tx i Hn Htx Hidx) as [Hfree Hn1].
  assert (inv (<[tx := i']> txs) (over_idx (λ m, <[n := p]> m) s)) as Hinv.
  { split; [|exact Hn1]. apply (account_inv_updaters txs); [by eapply account_inv_frame|].
    intros q. apply set_eq. intros tx'. rewrite !elem_of_updaters. setoid_rewrite lookup_insert.
    split; [intros (j & Hj & Hd); case_decide; naive_solver|]. intros (j & Hj & Hd).
    case_decide; [|naive_solver]. subst. exists i'. split; [done|]. cbn. congruence. }
  wp_steps. eapply wp_mono; [by apply wp_fetch| |done].
  intros s' r ([Ha' Hn'] & (Hf1 & Hf2 & Hf3) & Hsub & _ & Hr). cbn in Hf1, Hf2, Hf3.
  assert (∀ m, m ∉ [n] → nullifier_idx s' !! m = nullifier_idx s !! m) as Hix.
  { intros m Hm. rewrite Hf1, lookup_insert_ne; [done|]. intros ->. set_solver. }
  assert (∀ m, m ∉ [n] → available_at s m → available_at s' m) as Hav.
  { intros m Hm Hav. eapply held_mono; [by rewrite Hix|exact Hsub|exact Hav]. }
  wp_steps. destruct r as [a|]; [|by wp_steps; split_and!].
  apply wp_on_account. unfold NtxAccount.add_note. wp_steps. split; [done|]. split.
  - split; [by apply (account_inv_notes _ _ _ a)|]. apply (note_inv_outside _ s' p a _ n); [done|done| |..|done].
    + intros tx' j. rewrite lookup_insert. case_decide; [|naive_solver]. intros [= <-]. cbn. by apply (Hfree tx).
    + intros m Hm. cbn. by rewrite lookup_insert_ne.
  - split_and!; [done|done|done|]. intros m Hm Hma. apply Hav in Hma; [|done].
    apply (held_set _ s' p a); [done| |done]. cbn. rewrite lookup_insert_ne; [done|].
    intros Heq. apply Hm. rewrite <- Heq. by left.
Qed.

(** All notes that a transaction creates. *)
Lemma wp_created store tx : ∀ l txs i s,
  inv txs s → store_ok store → txs !! tx = Some i → NoDup (NtxAccount.nullifier_of <$> l) →
  (∀ note, note ∈ l → nullifier_idx s !! NtxAccount.nullifier_of note = None) →
  wp (fold_m (add_created store) i l) s (λ s' i',
    i' = mk_impact (account_delta i) (list_to_set (NtxAccount.nullifier_of <$> l) ∪ impact_notes i) (impact_nullifiers i) ∧
    inv (<[tx := i']> txs) s' ∧ indexed s s' l) (λ _ e, update_error store e).
Proof.
  induction l as [|note l IH]; intros txs i s Hinv Hst Htx Hnd Hnew; cbn [fold_m].
  { wp_steps. split; [|split].
    - destruct i. cbn. f_equal. set_solver.
    - by rewrite insert_id.
    - by split_and!. }
  cbn in Hnd. apply NoDup_cons in Hnd as [Hnote Hnd].
  rewrite wp_bind. eapply wp_mono; [apply (wp_add_created txs _ tx); eauto; apply Hnew; by left| |done].
  intros s1 i1 (-> & Hinv1 & (Hi & Ht & Hp & Hav)). cbn beta.
  eapply wp_mono; [apply IH; [exact Hinv1|done|apply lookup_insert_eq|done|]| |done].
  - intros m Hm. rewrite Hi; [apply Hnew; by right|]. cbn. intros Heq%list_elem_of_singleton.
    apply Hnote. rewrite <- Heq. by apply list_elem_of_fmap_2.
  - intros s2 i2 (-> & Hinv2 & (Hi2 & Ht2 & Hp2 & Hav2)). cbn beta. split; [|split].
    + cbn. f_equal. set_solver.
    + by rewrite insert_insert_eq in Hinv2.
    + split_and!; [|congruence|congruence|].
      * intros n Hn. cbn in Hn. rewrite Hi2, Hi by set_solver. done.
      * intros n Hn Hna. cbn in Hn. apply Hav2; [set_solver|]. apply Hav; [set_solver|done].
Qed.

Lemma wp_add_consumed {store} txs tx i n s :
  inv txs s → txs !! tx = Some i → n ∉ impact_notes i →
  (is_Some (nullifier_idx s !! n) → available_at s n) →
  wp (add_consumed i n : NM _) s (λ s' i',
    account_delta i' = account_delta i ∧ impact_notes i' = impact_notes i ∧
    inv (<[tx := i']> txs) s' ∧ framed s s' ∧ ∀ m, m ≠ n → available_at s m → available_at s' m)
    (λ _ e, update_error store e).
Proof.
  intros [Ha Hn] Htx Hown Hav. unfold add_consumed. wp_steps.
  destruct (nullifier_idx s !! n) as [p|] eqn:Hi; cycle 1.
  { wp_steps. split_and!; [done|done| |done..]. rewrite insert_id by done. done. }
  destruct (Hav ltac:(eauto)) as (q & a & Hq & Hqa & [note Hnote]). assert (q = p) as -> by congruence.
  wp_steps. apply (wp_expect_some _ a); [done|]. wp_steps. apply wp_on_account.
  unfold NtxAccount.add_nullifier. wp_steps. apply (wp_expect_some _ note); [done|]. wp_steps.
  split_and!; [done|done| |done|].
  - split.
    + apply (account_inv_updaters txs); [by apply (account_inv_notes _ _ _ a)|]. intros q.
      apply set_eq. intros tx'. rewrite !elem_of_updaters. setoid_rewrite lookup_insert.
      split; [intros (j & Hj & Hd); case_decide; naive_solver|]. intros (j & Hj & Hd).
      case_decide; [|naive_solver]. subst. eexists. split; [done|]. cbn. congruence.
    + by apply (note_inv_consume txs s p a n tx i) with note.
  - intros m Hm Hma. apply (held_set _ s p a); [done| |done]. cbn. by rewrite lookup_delete_ne.
Qed.

(** All notes that a transaction consumes. *)
Lemma wp_consumed {store} tx : ∀ l txs i s,
  inv txs s → txs !! tx = Some i → NoDup l → (∀ n, n ∈ l → n ∉ impact_notes i) →
  (∀ n, n ∈ l → is_Some (nullifier_idx s !! n) → available_at s n) →
  wp (fold_m add_consumed i l : NM _) s (λ s' i',
    account_delta i' = account_delta i ∧ inv (<[tx := i']> txs) s' ∧ framed s s') (λ _ e, update_error store e).
Proof.
  induction l as [|n l IH]; intros txs i s Hinv Htx Hnd Hown Hav; cbn [fold_m].
  { wp_steps. split_and!; [done| |done]. by rewrite insert_id. }
  apply NoDup_cons in Hnd as [Hn Hnd].
  rewrite wp_bind. eapply wp_mono; [apply (wp_add_consumed (store := store) txs tx); try done| |done].
  - apply Hown. by left.
  - apply Hav. by left.
  - intros s1 i1 (Hd & Hns & Hinv1 & (Hf1 & Hf2 & Hf3) & Hav1). cbn beta.
    eapply wp_mono; [apply IH; [exact Hinv1|apply lookup_insert_eq|done|..]| |done].
    + intros m Hm. rewrite Hns. apply Hown. by right.
    + intros m Hm. rewrite Hf1. intros Hs. apply Hav1; [by intros ->|]. apply Hav; [by right|done].
    + intros s2 i2 (Hd2 & Hinv2 & Hfr). cbn beta. rewrite insert_insert_eq in Hinv2. split_and!; [congruence|done|].
      by eapply framed_trans.
Qed.

(** ** The events *)

(** Condition for [TransactionAdded]: the update can be applied, the created notes are
    new, and what the index knows of the consumed notes is available. *)
Record add_admissible store s (nullifiers : list Nullifier) (notes : list NetworkNote)
    (details : option AccountUpdateDetails) : Prop := {
  add_update : ∀ u, details ≫= NtxAccount.from_protocol = Some u → update_applies store s u;
  add_notes_once : NoDup (NtxAccount.nullifier_of <$> notes);
  add_notes_new : ∀ note, note ∈ notes → nullifier_idx s !! NtxAccount.nullifier_of note = None;
  add_nullifiers_once : NoDup nullifiers;
  add_not_own : ∀ n, n ∈ nullifiers → n ∉ NtxAccount.nullifier_of <$> notes;
  add_available : ∀ n, n ∈ nullifiers → is_Some (nullifier_idx s !! n) → available_at s n;
}.

(** What a new transaction unlocks. *)
Definition unlocks (details : option AccountUpdateDetails) : gset NetworkAccountPrefix :=
  match details ≫= NtxAccount.from_protocol with Some u => {[NtxAccount.prefix u]} | None => ∅ end.

Lemma from_protocol_network (details : option AccountUpdateDetails) u :
  details ≫= NtxAccount.from_protocol = Some u → account_is_network (NtxAccount.update_account_id u) = true.
Proof.
  destruct details as [d|]; [|done]. cbn. unfold NtxAccount.from_protocol.
  destruct (details_view d); cbn; try done; case_match; naive_solver.
Qed.

(** The update part of [add_transaction]. *)
Definition update_impact store (details : option AccountUpdateDetails) : NM TransactionImpact :=
  match details ≫= NtxAccount.from_protocol with
  | Some update =>
    _ ← apply_update store update;
    _ ← modify (over_in_progress (λ ps, ps ∖ {[NtxAccount.prefix update]}));
    mret (mk_impact (Some (NtxAccount.prefix update)) ∅ ∅)
  | None => mret impact_empty
  end.

Lemma wp_update_impact txs store details s tx :
  inv txs s → store_ok store → txs !! tx = Some impact_empty →
  (∀ u, details ≫= NtxAccount.from_protocol = Some u → update_applies store s u) →
  wp (update_impact store details) s (λ s' i, impact_notes i = ∅ ∧ impact_nullifiers i = ∅ ∧
    inv (<[tx := i]> txs) s' ∧ nullifier_idx s' = nullifier_idx s ∧ inflight_txs s' = inflight_txs s ∧
    in_progress s' = in_progress s ∖ unlocks details ∧ ∀ n, available_at s n → available_at s' n)
    (λ _ e, update_error store e).
Proof.
  intros Hinv Hst Htx Hu. unfold update_impact, unlocks.
  destruct (details ≫= NtxAccount.from_protocol) as [u|] eqn:Hd; cycle 1.
  { wp_steps. split_and!; [done|done| |done|done|set_solver|done]. by rewrite insert_id. }
  rewrite wp_bind. eapply wp_mono; [apply (wp_apply_update txs store u s tx); eauto using from_protocol_network| |done].
  intros s1 _ (Hinv1 & (Hf1 & Hf2 & Hf3) & Hav). wp_steps. split_and!; [done|done| |done|done| |done].
  - by apply inv_progress.
  - cbn. by rewrite Hf3.
Qed.

Lemma wp_ntx_add_transaction store id nullifiers notes details s :
  inv (inflight_txs s) s → store_ok store →
  (inflight_txs s !! id = None → add_admissible store s nullifiers notes details) →
  wp (add_transaction store id nullifiers notes details) s (λ s' _, inv (inflight_txs s') s' ∧
    in_progress s' = if decide (is_Some (inflight_txs s !! id)) then in_progress s else in_progress s ∖ unlocks details)
    (λ _ e, update_error store e).
Proof.
  intros Hinv Hst Hadm. unfold add_transaction. wp_steps. case_decide as Hid; [by wp_steps|].
  assert (inflight_txs s !! id = None) as Hfresh by (destruct (inflight_txs s !! id); naive_solver).
  specialize (Hadm Hfresh) as [Hu Hn1 Hn2 Hc1 Hc2 Hc3]. set (txs := inflight_txs s) in *.
  pose proof (inv_begin _ _ _ Hinv Hfresh) as Hbegin. fold (update_impact store details).
  rewrite wp_bind. eapply wp_mono; [by apply (wp_update_impact _ _ _ _ id Hbegin Hst (lookup_insert_eq _ _ _))| |done].
  intros s1 i1 (Hi1 & Hi1' & Hinv1 & Hx1 & Ht1 & Hp1 & Hav1). rewrite insert_insert_eq in Hinv1. cbn beta.
  rewrite wp_bind. eapply wp_mono; [apply (wp_created store id _ _ _ _ Hinv1 Hst (lookup_insert_eq _ _ _) Hn1)| |done].
  { intros note Hnote. rewrite Hx1. by apply Hn2. }
  intros s2 i2 (-> & Hinv2 & (Hx2 & Ht2 & Hp2 & Hav2)). rewrite insert_insert_eq in Hinv2. cbn beta.
  rewrite wp_bind. eapply wp_mono; [apply (wp_consumed (store := store) id _ _ _ _ Hinv2 (lookup_insert_eq _ _ _) Hc1)| |done].
  { intros n Hn. cbn. rewrite Hi1. specialize (Hc2 n Hn). rewrite elem_of_union, elem_of_list_to_set. set_solver. }
  { intros n Hn Hs. apply Hav2; [by apply Hc2|]. apply Hav1, Hc3; [done|].
    rewrite Hx2, Hx1 in Hs by by apply Hc2. done. }
  intros s3 i3 (Hd3 & Hinv3 & (Hx3 & Ht3 & Hp3)). rewrite insert_insert_eq in Hinv3. cbn beta.
  assert (inflight_txs s3 = txs) as Ht by (by rewrite Ht3, Ht2, Ht1).
  destruct (impact_is_empty i3) eqn:Hempty; wp_steps; (split; [|cbn; by rewrite Hp3, Hp2, Hp1]).
  - rewrite Ht. unfold impact_is_empty in Hempty. rewrite !andb_true_iff, !bool_decide_eq_true in Hempty.
    destruct Hempty as [[Hnone _] _].
    pose proof (inv_forget _ _ _ _ Hinv3 (lookup_insert_eq _ _ _) Hnone) as Hf. by rewrite delete_insert_id in Hf.
  - cbn. rewrite Ht. by apply inv_inflight.
Qed.

End ops.
