(* ===== verification/NtxEvents.v ===== *)
(** * Commits, reverts and whole events keep the invariant of the builder's state *)

From S2P Require Import Prelude.
From S2P Require Import External.
From S2P Require Import Subscription.
From S2P Require Import NtxAccount.
From S2P Require Import NtxState.
From S2P Require Import NtxTheorems.
From S2P Require Import NtxInv.
From S2P Require Import NtxOps.
Import NtxState.

Section events.
Context `{!MidenObjects} `{!NtxObjects} `{!NtxLaws} {StoreError : Type}.
Implicit Types (s : State) (p q : NetworkAccountPrefix) (a : NtxAccount.AccountState) (n : Nullifier)
  (tx : TransactionId) (i : TransactionImpact) (x : Account) (store : Store (StoreError := StoreError)).

Abbreviation NM := (M State (NtxError (StoreError := StoreError))).

(** ** Commits *)

(** Conditions for the commit of [tx]: whoever created a note that it consumed has
    been committed before. *)
Definition commit_admissible (txs : gmap TransactionId TransactionImpact) tx : Prop :=
  ∀ i n, txs !! tx = Some i → n ∈ impact_nullifiers i → ∀ tx' j, txs !! tx' = Some j → n ∉ impact_notes j.

(** One more nullifier is done. *)
Definition without_nullifier (txs : gmap TransactionId TransactionImpact) tx i (X : gset Nullifier) :=
  <[tx := mk_impact (account_delta i) (impact_notes i) (impact_nullifiers i ∖ X)]> txs.

Definition without_note (txs : gmap TransactionId TransactionImpact) tx i (X : gset Nullifier) :=
  <[tx := mk_impact (account_delta i) (impact_notes i ∖ X) (impact_nullifiers i)]> txs.

(** The transactions' updates are the same. *)
Lemma updaters_same txs tx i j q :
  txs !! tx = Some i → account_delta j = account_delta i → updaters (<[tx := j]> txs) q = updaters txs q.
Proof.
  intros Hi Hd. apply set_eq. intros tx'. rewrite !elem_of_updaters. setoid_rewrite lookup_insert.
  split; intros (k & Hk & Hdk).
  - case_decide; [|eauto]. simplify_eq. exists i. split; [done|congruence].
  - case_decide; [|naive_solver]. subst. exists j. split; [done|]. congruence.
Qed.

Lemma without_nullifier_inv txs tx i X s :
  inv txs s → txs !! tx = Some i → X ⊆ impact_nullifiers i →
  inv (without_nullifier txs tx i X) s ∧
  ∀ n, n ∈ X → ∀ tx' j, without_nullifier txs tx i X !! tx' = Some j → n ∉ impact_nullifiers j.
Proof.
  intros [Ha Hn] Hi HX. split; [split|].
  - apply (account_inv_updaters txs); [done|]. intros q. by apply updaters_same with i.
  - apply (note_inv_fewer txs); [done|]. apply fewer_insert with i; set_solver.
  - intros n Hin tx' j. unfold without_nullifier. rewrite lookup_insert. case_decide; [intros [= <-]; set_solver|].
    intros Hj Hnj. by destruct (inv_nullified_once _ _ Hn tx i tx' j n Hi Hj (HX _ Hin) Hnj).
Qed.

Lemma without_note_inv txs tx i X s :
  inv txs s → txs !! tx = Some i → X ⊆ impact_notes i →
  inv (without_note txs tx i X) s ∧
  ∀ n, n ∈ X → ∀ tx' j, without_note txs tx i X !! tx' = Some j → n ∉ impact_notes j.
Proof.
  intros [Ha Hn] Hi HX. split; [split|].
  - apply (account_inv_updaters txs); [done|]. intros q. by apply updaters_same with i.
  - apply (note_inv_fewer txs); [done|]. apply fewer_insert with i; set_solver.
  - intros n Hin tx' j. unfold without_note. rewrite lookup_insert. case_decide; [intros [= <-]; set_solver|].
    intros Hj Hnj. by destruct (inv_notes_once _ _ Hn tx i tx' j n Hi Hj (HX _ Hin) Hnj).
Qed.

(** The account of an index entry forgets the note. *)
Lemma inv_forget_note txs s n a p a' :
  inv txs s → (∀ tx j, txs !! tx = Some j → n ∉ impact_notes j ∧ n ∉ impact_nullifiers j) →
  accounts s !! p = Some a → NtxAccount.committed a' = NtxAccount.committed a →
  NtxAccount.inflight a' = NtxAccount.inflight a →
  (∀ m, m ≠ n → NtxAccount.available_notes a' !! m = NtxAccount.available_notes a !! m) →
  (∀ m, m ≠ n → NtxAccount.nullified_notes a' !! m = NtxAccount.nullified_notes a !! m) →
  inv txs (over_accounts (λ m, <[p := a']> m) (over_idx (λ m, delete n m) s)).
Proof.
  intros [Ha Hn] Hfree Hp Hc Hi Hav Hnu. split.
  - apply (account_inv_notes _ _ _ a); [by eapply account_inv_frame|done..].
  - apply (note_inv_outside _ _ _ a _ n); [by apply note_inv_unindex|done| |done..]. intros tx j Hj. by eapply Hfree.
Qed.

(** The loop of [commit_transaction] over the nullifiers. *)
Definition commit_nullifiers (l : list Nullifier) : NM unit :=
  for_each l (λ n,
    s ← get;
    _ ← modify (over_idx (λ m, delete n m));
    p ← expect_some (nullifier_idx s !! n) "called `Option::unwrap()` on a `None` value";
    match accounts s !! p with
    | Some a => on_account p a (NtxAccount.commit_nullifier n)
    | None => mret tt
    end).

(** The rest of the state is not touched. *)
Definition same_txs s s' : Prop := inflight_txs s' = inflight_txs s ∧ in_progress s' = in_progress s.

Lemma wp_commit_nullifiers tx : ∀ l txs i s,
  inv txs s → txs !! tx = Some i → (∀ n, n ∈ l → n ∈ impact_nullifiers i) → NoDup l →
  (∀ n, n ∈ l → ∀ tx' j, txs !! tx' = Some j → n ∉ impact_notes j) →
  wp_ok (commit_nullifiers l) s (λ s' _, inv (without_nullifier txs tx i (list_to_set l)) s' ∧ same_txs s s').
Proof.
  induction l as [|n l IH]; intros txs i s Hinv Hi Hl Hnd Hno; unfold commit_nullifiers; cbn [for_each].
  { wp_steps. split; [|done]. apply without_nullifier_inv; [done|done|set_solver]. }
  fold (commit_nullifiers l). apply NoDup_cons in Hnd as [Hnl Hnd].
  assert (n ∈ impact_nullifiers i) as Hn by (apply Hl; by left).
  destruct (inv_nullified _ _ (proj2 Hinv) tx i n Hi Hn) as (p & a & Hp & Ha & [note Hnote]).
  destruct (without_nullifier_inv txs tx i {[n]} s Hinv Hi ltac:(set_solver)) as [Hinv1 Hfree].
  wp_steps. apply (wp_expect_some _ p); [done|]. cbn beta. rewrite Ha.
  apply wp_on_account. unfold NtxAccount.commit_nullifier. wp_steps. apply (wp_expect_some _ note); [done|]. wp_steps.
  eapply wp_mono; [eapply IH with (txs := without_nullifier txs tx i {[n]}); [|apply lookup_insert_eq|..]| |done].
  - apply inv_forget_note with (a := a); [done| |done|done|done|done|].
    + intros tx' j Hj. split; [|by eapply Hfree; [set_solver|done]]. unfold without_nullifier in Hj.
      rewrite lookup_insert in Hj. case_decide; [simplify_eq; cbn; eapply Hno; [by left|done]|eapply Hno; [by left|done]].
    + intros m Hm. cbn. by rewrite lookup_delete_ne.
  - intros m Hm. cbn. specialize (Hl m (list_elem_of_further _ _ _ Hm)). set_solver.
  - done.
  - intros m Hm tx' j. unfold without_nullifier. rewrite lookup_insert.
    case_decide; [intros [= <-]; cbn|]; intros; eapply Hno; [by right|done|by right|done].
  - intros s' _ [Hinv' [H1' H2']]. split; [|done]. unfold without_nullifier in Hinv' |- *. cbn in Hinv' |- *.
    rewrite insert_insert_eq in Hinv'. by rewrite difference_difference_l_L in Hinv'.
Qed.

(** The account part of [commit_transaction]: the oldest inflight state is committed. *)
Lemma inv_commit_delta txs s tx i p a x l :
  inv txs s → txs !! tx = Some i → account_delta i = Some p → accounts s !! p = Some a →
  NtxAccount.inflight a = x :: l →
  inv (<[tx := mk_impact None (impact_notes i) (impact_nullifiers i)]> txs)
    (over_accounts (λ m, <[p := NtxAccount.mk_account (Some x) l (NtxAccount.available_notes a)
      (NtxAccount.nullified_notes a)]> m) s).
Proof.
  intros [Ha Hn] Hi Hd Hp Hl. split.
  - apply (account_inv_set txs _ s p a); [done|done|..].
    + intros q Hq. apply updaters_other with p; [naive_solver|by right|done].
    + pose proof (updaters_lose txs tx (mk_impact None (impact_notes i) (impact_nullifiers i)) i p Hi Hd eq_refl) as Hs.
      rewrite (inv_deltas _ _ Ha), Hp, Hl in Hs. cbn in Hs |- *. lia.
    + intros y Hy. cbn in Hy. eapply (inv_ids _ _ Ha); [done|]. rewrite Hl.
      destruct Hy as [[= ->]|Hy]; right; [by left|by right].
    + by left.
  - apply (note_inv_frame _ s).
    + apply (note_inv_fewer txs); [done|]. by apply fewer_insert with i.
    + done.
    + intros n. by apply (held_set _ _ _ a).
    + intros n. by apply (held_set _ _ _ a).
Qed.

(** An updated account is tracked and has a state for the update. *)
Lemma inv_updated txs s tx i p :
  inv txs s → txs !! tx = Some i → account_delta i = Some p →
  ∃ a, accounts s !! p = Some a ∧ NtxAccount.inflight a ≠ [].
Proof.
  intros [Ha _] Hi Hd. pose proof (inv_deltas _ _ Ha p) as Hs.
  assert (tx ∈ updaters txs p) as Hin by (apply elem_of_updaters; eauto).
  assert (size (updaters txs p) ≠ 0) as Hne by (rewrite size_non_empty_iff; set_solver).
  destruct (accounts s !! p) as [a|]; [|done]. exists a. split; [done|]. by destruct (NtxAccount.inflight a).
Qed.

Lemma wp_commit_transaction tx s :
  inv (inflight_txs s) s → commit_admissible (inflight_txs s) tx →
  wp_ok (commit_transaction tx : NM _) s (λ s' _, inv (inflight_txs s') s' ∧
    inflight_txs s' = delete tx (inflight_txs s) ∧ in_progress s' = in_progress s).
Proof.
  intros Hinv Hadm. unfold commit_transaction. wp_steps. set (txs := inflight_txs s) in *.
  destruct (txs !! tx) as [i|] eqn:Hi; cycle 1.
  { wp_steps. split_and!; [done| |done]. by rewrite delete_id. }
  wp_steps. apply (inv_inflight _ (λ m, delete tx m)) in Hinv. set (s0 := over_inflight _ s) in *.
  assert (inflight_txs s0 = delete tx txs) as Ht0 by done. assert (in_progress s0 = in_progress s) as Hp0 by done.
  clearbody s0.
  assert (∀ s1, inv (<[tx := mk_impact None (impact_notes i) (impact_nullifiers i)]> txs) s1 → same_txs s0 s1 →
    wp_ok (commit_nullifiers (bt_iter (impact_nullifiers i))) s1 (λ s' _, inv (inflight_txs s') s' ∧
      inflight_txs s' = delete tx txs ∧ in_progress s' = in_progress s)) as Hloop.
  { intros s1 Hinv1 [Hs1 Hs1']. eapply wp_mono; [apply (wp_commit_nullifiers tx _ _ _ _ Hinv1 (lookup_insert_eq _ _ _))| |done].
    - intros n. by rewrite elem_of_bt_iter.
    - apply NoDup_bt_iter.
    - intros n Hn%elem_of_bt_iter tx' j. rewrite lookup_insert. case_decide; [intros [= <-]; cbn|]; intros; by eapply Hadm.
    - intros s2 _ [Hinv2 [H1' H2']]. unfold without_nullifier in Hinv2. rewrite insert_insert_eq in Hinv2.
      apply inv_forget with (tx := tx) (i := mk_impact None (impact_notes i)
        (impact_nullifiers i ∖ list_to_set (bt_iter (impact_nullifiers i)))) in Hinv2; [|by rewrite lookup_insert_eq|done].
      rewrite delete_insert_eq in Hinv2. rewrite H1', Hs1, Ht0. split_and!; [done|done|by rewrite H2', Hs1']. }
  fold (commit_nullifiers (bt_iter (impact_nullifiers i))).
  destruct (account_delta i) as [p|] eqn:Hd; wp_steps; cycle 1.
  { apply Hloop; [|done]. rewrite insert_id; [done|]. rewrite Hi. destruct i; cbn in *; congruence. }
  destruct (inv_updated _ _ _ _ _ Hinv Hi Hd) as (a & Ha & Hne).
  apply (wp_expect_some _ a); [done|]. apply wp_on_account. unfold NtxAccount.commit_delta. wp_steps.
  destruct (NtxAccount.inflight a) as [|x l] eqn:Hl; [done|]. apply (wp_expect_some _ x); [done|]. wp_steps.
  apply Hloop; [|done]. rewrite Hl. by apply inv_commit_delta.
Qed.

(** ** Reverts *)

(** Conditions for the revert of [tx]: the consumers of its notes have been reverted
    before, and it is not the one that an account that was never committed rests on. *)
Record revert_admissible s tx : Prop := {
  revert_notes_unused : ∀ i n, inflight_txs s !! tx = Some i → n ∈ impact_notes i →
    ∀ tx' j, inflight_txs s !! tx' = Some j → n ∉ impact_nullifiers j;
  revert_keeps_account : ∀ i p a, inflight_txs s !! tx = Some i → account_delta i = Some p →
    accounts s !! p = Some a → NtxAccount.committed a ≠ None ∨ 2 ≤ length (NtxAccount.inflight a);
}.

(** A revert changes no transaction but its own, no lock, and nothing committed. *)
Definition uncommitted_only s s' : Prop := same_txs s s' ∧
  ∀ p, NtxAccount.committed <$> accounts s' !! p = NtxAccount.committed <$> accounts s !! p.

Lemma uncommitted_trans s s' s'' : uncommitted_only s s' → uncommitted_only s' s'' → uncommitted_only s s''.
Proof.
  intros [[H1' H2'] H3'] [[H4' H5'] H6']. split; [split; congruence|]. intros p. by rewrite H6', H3'.
Qed.

Lemma uncommitted_set s s1 p a a' :
  uncommitted_only s s1 → accounts s1 !! p = Some a → NtxAccount.committed a' = NtxAccount.committed a →
  uncommitted_only s (over_accounts (λ m, <[p := a']> m) s1).
Proof.
  intros [Hs Hc] Ha Heq. split; [done|]. intros q. cbn. rewrite <- Hc, lookup_insert. case_decide; [|done].
  subst. rewrite Ha. cbn. by rewrite Heq.
Qed.

(** The loops of [revert_transaction] over the created and the consumed notes. *)
Definition revert_notes (l : list Nullifier) : NM unit :=
  for_each l (λ n,
    s ← get;
    _ ← modify (over_idx (λ m, delete n m));
    p ← expect_some (nullifier_idx s !! n) "called `Option::unwrap()` on a `None` value";
    match accounts s !! p with
    | Some a => on_account p a (NtxAccount.revert_note n)
    | None => mret tt
    end).

Definition revert_nullifiers (l : list Nullifier) : NM unit :=
  for_each l (λ n,
    s ← get;
    p ← expect_some (nullifier_idx s !! n) "called `Option::unwrap()` on a `None` value";
    match accounts s !! p with
    | Some a => on_account p a (NtxAccount.revert_nullifier n)
    | None => mret tt
    end).

Lemma wp_revert_notes tx : ∀ l txs i s,
  inv txs s → txs !! tx = Some i → (∀ n, n ∈ l → n ∈ impact_notes i) → NoDup l →
  (∀ n, n ∈ l → ∀ tx' j, txs !! tx' = Some j → n ∉ impact_nullifiers j) →
  wp_ok (revert_notes l) s (λ s' _, inv (without_note txs tx i (list_to_set l)) s' ∧ uncommitted_only s s').
Proof.
  induction l as [|n l IH]; intros txs i s Hinv Hi Hl Hnd Hno; unfold revert_notes; cbn [for_each].
  { wp_steps. split; [|by split]. apply without_note_inv; [done|done|set_solver]. }
  fold (revert_notes l). apply NoDup_cons in Hnd as [Hnl Hnd].
  assert (n ∈ impact_notes i) as Hn by (apply Hl; by left).
  destruct (inv_notes _ _ (proj2 Hinv) tx i n Hi Hn) as [p Hp].
  destruct (without_note_inv txs tx i {[n]} s Hinv Hi ltac:(set_solver)) as [Hinv1 Hfree].
  assert (∀ tx' j, without_note txs tx i {[n]} !! tx' = Some j → n ∉ impact_notes j ∧ n ∉ impact_nullifiers j) as Hgone.
  { intros tx' j Hj. split; [by eapply Hfree; [set_solver|done]|]. unfold without_note in Hj.
    rewrite lookup_insert in Hj. case_decide; [simplify_eq; cbn; eapply Hno; [by left|done]|eapply Hno; [by left|done]]. }
  assert (∀ s1, inv (without_note txs tx i {[n]}) s1 → uncommitted_only s s1 →
    wp_ok (revert_notes l) s1 (λ s' _, inv (without_note txs tx i (list_to_set (n :: l))) s' ∧ uncommitted_only s s')) as Hrest.
  { intros s1 Hs1 Hu1. eapply wp_mono; [eapply IH with (txs := without_note txs tx i {[n]});
      [exact Hs1|apply lookup_insert_eq| |done|]| |done].
    - intros m Hm. cbn. specialize (Hl m (list_elem_of_further _ _ _ Hm)). set_solver.
    - intros m Hm tx' j. unfold without_note. rewrite lookup_insert.
      case_decide; [intros [= <-]; cbn|]; intros; eapply Hno; [by right|done|by right|done].
    - intros s' _ [Hinv' Hu']. split; [|by eapply uncommitted_trans]. unfold without_note in Hinv' |- *. cbn in Hinv' |- *.
      rewrite insert_insert_eq in Hinv'. by rewrite difference_difference_l_L in Hinv'. }
  wp_steps. apply (wp_expect_some _ p); [done|]. cbn beta. destruct (accounts s !! p) as [a|] eqn:Ha; wp_steps.
  - apply wp_on_account. unfold NtxAccount.revert_note. wp_steps. apply Hrest; [|by apply uncommitted_set with a].
    apply inv_forget_note with (a := a); try done; intros m Hm; cbn; by rewrite lookup_delete_ne.
  - apply Hrest; [|by split]. split; [by eapply account_inv_frame; [apply Hinv1|..]|].
    by apply note_inv_unindex; [apply Hinv1|].
Qed.

Lemma wp_revert_nullifiers tx : ∀ l txs i s,
  inv txs s → txs !! tx = Some i → (∀ n, n ∈ l → n ∈ impact_nullifiers i) → NoDup l →
  wp_ok (revert_nullifiers l) s (λ s' _, inv (without_nullifier txs tx i (list_to_set l)) s' ∧ uncommitted_only s s').
Proof.
  induction l as [|n l IH]; intros txs i s Hinv Hi Hl Hnd; unfold revert_nullifiers; cbn [for_each].
  { wp_steps. split; [|by split]. apply without_nullifier_inv; [done|done|set_solver]. }
  fold (revert_nullifiers l). apply NoDup_cons in Hnd as [Hnl Hnd].
  assert (n ∈ impact_nullifiers i) as Hn by (apply Hl; by left).
  destruct (inv_nullified _ _ (proj2 Hinv) tx i n Hi Hn) as (p & a & Hp & Ha & [note Hnote]).
  wp_steps. apply (wp_expect_some _ p); [done|]. cbn beta. rewrite Ha.
  apply wp_on_account. unfold NtxAccount.revert_nullifier. wp_steps. rewrite Hnote. wp_steps.
  eapply wp_mono; [eapply IH with (txs := without_nullifier txs tx i {[n]}); [|apply lookup_insert_eq|..]| |done].
  - destruct Hinv as [Hai Hni]. split.
    + apply (account_inv_notes _ _ _ a); [|done|done|done]. apply (account_inv_updaters txs); [done|].
      intros q. by apply updaters_same with i.
    + apply note_inv_restore with (a := a); try done.
      intros m Hm. cbn. by rewrite lookup_insert_ne.
  - intros m Hm. cbn. specialize (Hl m (list_elem_of_further _ _ _ Hm)). set_solver.
  - done.
  - intros s' _ [Hinv' Hu']. split; [|eapply uncommitted_trans; [|exact Hu']; by apply uncommitted_set with a].
    unfold without_nullifier in Hinv' |- *. cbn in Hinv' |- *.
    rewrite insert_insert_eq in Hinv'. by rewrite difference_difference_l_L in Hinv'.
Qed.

(** The account part of [revert_transaction]: the newest inflight state is dropped. *)
Lemma inv_revert_delta txs s tx i p a :
  inv txs s → txs !! tx = Some i → account_delta i = Some p → accounts s !! p = Some a →
  NtxAccount.inflight a ≠ [] → NtxAccount.committed a ≠ None ∨ 2 ≤ length (NtxAccount.inflight a) →
  inv (<[tx := mk_impact None (impact_notes i) (impact_nullifiers i)]> txs)
    (over_accounts (λ m, <[p := NtxAccount.set_inflight (removelast (NtxAccount.inflight a)) a]> m) s).
Proof.
  intros [Ha Hn] Hi Hd Hp Hne Hkeep. destruct (exists_last Hne) as (l & x & Hl). split.
  - apply (account_inv_set txs _ s p a); [done|done|..].
    + intros q Hq. apply updaters_other with p; [naive_solver|by right|done].
    + pose proof (updaters_lose txs tx (mk_impact None (impact_notes i) (impact_nullifiers i)) i p Hi Hd eq_refl) as Hs.
      rewrite (inv_deltas _ _ Ha), Hp, Hl, length_app in Hs. cbn in Hs |- *. rewrite Hl, removelast_last. lia.
    + intros y Hy. cbn in Hy. rewrite Hl, removelast_last in Hy. eapply (inv_ids _ _ Ha); [done|]. rewrite Hl.
      rewrite elem_of_app. naive_solver.
    + cbn. rewrite Hl, removelast_last. rewrite Hl, length_app in Hkeep. cbn in Hkeep.
      destruct Hkeep as [|Hlen]; [by left|]. right. intros ->. cbn in Hlen. lia.
  - apply (note_inv_frame _ s).
    + apply (note_inv_fewer txs); [done|]. by apply fewer_insert with i.
    + done.
    + intros n. by apply (held_set _ _ _ a).
    + intros n. by apply (held_set _ _ _ a).
Qed.

Lemma wp_revert_transaction tx s :
  inv (inflight_txs s) s → revert_admissible s tx →
  wp_ok (revert_transaction tx : NM _) s (λ s' _, inv (inflight_txs s') s' ∧
    inflight_txs s' = delete tx (inflight_txs s) ∧ in_progress s' = in_progress s ∧
    ∀ p, NtxAccount.committed <$> accounts s' !! p = NtxAccount.committed <$> accounts s !! p).
Proof.
  intros Hinv [Hun Hkeep]. unfold revert_transaction. wp_steps. set (txs := inflight_txs s) in *.
  destruct (txs !! tx) as [i|] eqn:Hi; cycle 1.
  { wp_steps. split_and!; [done| |done|done]. by rewrite delete_id. }
  wp_steps. apply (inv_inflight _ (λ m, delete tx m)) in Hinv.
  assert (∀ p a, account_delta i = Some p → accounts (over_inflight (λ m, delete tx m) s) !! p = Some a →
    NtxAccount.committed a ≠ None ∨ 2 ≤ length (NtxAccount.inflight a)) as Hkeep' by eauto. clear Hkeep.
  set (s0 := over_inflight _ s) in *.
  assert (inflight_txs s0 = delete tx txs) as Ht0 by done. assert (in_progress s0 = in_progress s) as Hp0 by done.
  assert (accounts s0 = accounts s) as Ha0 by done.
  clearbody s0. set (j := mk_impact None (impact_notes i) (impact_nullifiers i)).
  assert (∀ s1, inv (<[tx := j]> txs) s1 → uncommitted_only s0 s1 →
    wp_ok (revert_notes (bt_iter (impact_notes i))) s1 (λ s2 _,
      wp_ok (revert_nullifiers (bt_iter (impact_nullifiers i))) s2 (λ s' _, inv (inflight_txs s') s' ∧
        inflight_txs s' = delete tx txs ∧ in_progress s' = in_progress s ∧
        ∀ p, NtxAccount.committed <$> accounts s' !! p = NtxAccount.committed <$> accounts s !! p))) as Hloop.
  { intros s1 Hinv1 Hu1.
    eapply wp_mono; [apply (wp_revert_notes tx _ _ _ _ Hinv1 (lookup_insert_eq _ _ _))| |done].
    - intros n. by rewrite elem_of_bt_iter.
    - apply NoDup_bt_iter.
    - intros n Hn%elem_of_bt_iter tx' k. rewrite lookup_insert. case_decide; [intros [= <-]; cbn|]; intros; by eapply Hun.
    - intros s2 _ [Hinv2 Hu2]. unfold without_note in Hinv2. rewrite insert_insert_eq in Hinv2. cbn beta.
      eapply wp_mono; [apply (wp_revert_nullifiers tx _ _ _ _ Hinv2 (lookup_insert_eq _ _ _))| |done].
      + intros n. by rewrite elem_of_bt_iter.
      + apply NoDup_bt_iter.
      + intros s3 _ [Hinv3 Hu3]. unfold without_nullifier in Hinv3. rewrite insert_insert_eq in Hinv3.
        eapply inv_forget in Hinv3; [|by rewrite lookup_insert_eq|done]. rewrite delete_insert_eq in Hinv3.
        destruct (uncommitted_trans _ _ _ Hu1 (uncommitted_trans _ _ _ Hu2 Hu3)) as [[H1' H2'] H3'].
        rewrite H1', Ht0. split_and!; [done|done|by rewrite H2'|]. intros p. by rewrite H3', Ha0. }
  fold (revert_notes (bt_iter (impact_notes i))). fold (revert_nullifiers (bt_iter (impact_nullifiers i))).
  destruct (account_delta i) as [p|] eqn:Hd; wp_steps; cycle 1.
  { apply Hloop; [|by split]. rewrite insert_id; [done|]. rewrite Hi. subst j. destruct i; cbn in *; congruence. }
  destruct (inv_updated _ _ _ _ _ Hinv Hi Hd) as (a & Ha & Hne).
  apply (wp_expect_some _ a); [done|]. wp_steps. apply wp_on_account. unfold NtxAccount.revert_delta. wp_steps.
  destruct (exists_last Hne) as (l & x & Hl). apply (wp_expect_some _ x); [by rewrite Hl, last_snoc|]. wp_steps.
  specialize (Hkeep' p a eq_refl Ha).
  assert ((bool_decide (NtxAccount.committed a = None) && bool_decide (removelast (NtxAccount.inflight a) = [])) = false) as Hc.
  { destruct Hkeep' as [Hcm|Hlen]; [by rewrite bool_decide_eq_false_2|].
    rewrite (bool_decide_eq_false_2 (removelast _ = [])); [apply andb_false_r|].
    rewrite Hl, removelast_last. rewrite Hl, length_app in Hlen. cbn in Hlen. intros ->. cbn in Hlen. lia. }
  cbn [NtxAccount.set_inflight NtxAccount.committed NtxAccount.inflight]. rewrite Hc. wp_steps.
  apply Hloop; [|by apply uncommitted_set with a]. by apply inv_revert_delta.
Qed.

(** ** Events *)

(** The event streams on which the state is safe. A transaction that is added applies
    and consumes what is available; a block commits a note's creator before its
    consumer; a revert takes back the consumer before the creator, and leaves an
    account that was never committed one of its inflight transactions. *)
Definition admissible_event store s (ev : MempoolEvent) : Prop :=
  match ev with
  | TransactionAdded id nullifiers notes details =>
    inflight_txs s !! id = None → add_admissible store s nullifiers notes details
  | BlockCommitted _ txs =>
    ∀ pre tx post, txs = pre ++ tx :: post → commit_admissible (del_keys (list_to_set pre) (inflight_txs s)) tx
  | TransactionsReverted txs =>
    (∀ pre tx post i n, bt_iter txs = pre ++ tx :: post → inflight_txs s !! tx = Some i → n ∈ impact_notes i →
      ∀ tx' j, tx' ∉ pre → inflight_txs s !! tx' = Some j → n ∉ impact_nullifiers j) ∧
    (∀ tx i p a, tx ∈ txs → inflight_txs s !! tx = Some i → account_delta i = Some p → accounts s !! p = Some a →
      NtxAccount.committed a ≠ None ∨
      ∃ tx' j, tx' ∉ txs ∧ inflight_txs s !! tx' = Some j ∧ account_delta j = Some p)
  end.

(** The locks after an event: a new transaction unlocks the account it updates. *)
Definition locks_after s (ev : MempoolEvent) : gset NetworkAccountPrefix :=
  match ev with
  | TransactionAdded id _ _ details =>
    if decide (is_Some (inflight_txs s !! id)) then in_progress s else in_progress s ∖ unlocks details
  | _ => in_progress s
  end.

Lemma del_keys_snoc {V} (pre : list TransactionId) tx (m : gmap TransactionId V) :
  delete tx (del_keys (list_to_set pre) m) = del_keys (list_to_set (pre ++ [tx])) m.
Proof. rewrite delete_del_keys. f_equal. set_solver. Qed.

Lemma wp_ntx_block_committed txs s :
  inv (inflight_txs s) s →
  (∀ pre tx post, txs = pre ++ tx :: post → commit_admissible (del_keys (list_to_set pre) (inflight_txs s)) tx) →
  wp_ok (for_each txs commit_transaction : NM _) s (λ s' _, inv (inflight_txs s') s' ∧ in_progress s' = in_progress s).
Proof.
  intros Hinv Hadm. apply (wp_for_each_ok (λ pre s', inv (inflight_txs s') s' ∧ in_progress s' = in_progress s ∧
    inflight_txs s' = del_keys (list_to_set pre) (inflight_txs s))).
  - split_and!; [done|done|]. cbn [list_to_set foldr]. by rewrite del_keys_empty.
  - intros pre tx post s' Htxs (Hinv' & Hp & Ht). specialize (Hadm _ _ _ Htxs). rewrite <- Ht in Hadm.
    eapply wp_mono; [by apply wp_commit_transaction| |done]. intros s2 _ (Hinv2 & Ht2 & Hp2).
    split_and!; [done|congruence|]. by rewrite Ht2, Ht, del_keys_snoc.
  - naive_solver.
Qed.

(** Two updaters of an account are two of its inflight states. *)
Lemma two_updaters txs s p tx i tx' j a :
  inv txs s → txs !! tx = Some i → account_delta i = Some p → txs !! tx' = Some j → account_delta j = Some p →
  tx ≠ tx' → accounts s !! p = Some a → 2 ≤ length (NtxAccount.inflight a).
Proof.
  intros [Ha _] Hi Hd Hj Hd' Hne Hp. pose proof (inv_deltas _ _ Ha p) as Hs. rewrite Hp in Hs. rewrite <- Hs.
  transitivity (size ({[tx; tx']} : gset TransactionId)).
  - rewrite size_union, !size_singleton; [done|]. set_solver.
  - apply subseteq_size. intros tx0 [->%elem_of_singleton| ->%elem_of_singleton]%elem_of_union;
      apply elem_of_updaters; eauto.
Qed.

Lemma wp_transactions_reverted store (txs : gset TransactionId) s :
  inv (inflight_txs s) s → admissible_event store s (TransactionsReverted txs) →
  wp_ok (for_each (bt_iter txs) revert_transaction : NM _) s
    (λ s' _, inv (inflight_txs s') s' ∧ in_progress s' = in_progress s).
Proof.
  intros Hinv [Hnotes Hacc]. apply (wp_for_each_ok (λ pre s', inv (inflight_txs s') s' ∧ in_progress s' = in_progress s ∧
    inflight_txs s' = del_keys (list_to_set pre) (inflight_txs s) ∧
    ∀ p, NtxAccount.committed <$> accounts s' !! p = NtxAccount.committed <$> accounts s !! p)).
  - split_and!; [done|done| |done]. cbn [list_to_set foldr]. by rewrite del_keys_empty.
  - intros pre tx post s' Htxs (Hinv' & Hp & Ht & Hc).
    assert (∀ tx' j, inflight_txs s' !! tx' = Some j → tx' ∉ pre ∧ inflight_txs s !! tx' = Some j) as Hold.
    { intros tx' j. rewrite Ht, lookup_del_keys. case_decide as Hin; [done|]. rewrite elem_of_list_to_set in Hin. done. }
    assert (tx ∈ txs) as Htx by (apply elem_of_bt_iter; rewrite Htxs; set_solver).
    eapply wp_mono; [apply wp_revert_transaction; [done|split]| |done].
    + intros i n [_ Hi]%Hold Hn tx' j [Hout Hj]%Hold. by eapply Hnotes.
    + intros i p a Hi Hd Ha. pose proof Hi as [_ Hi']%Hold.
      assert (∃ a0, accounts s !! p = Some a0 ∧ NtxAccount.committed a0 = NtxAccount.committed a) as (a0 & Ha0 & Hc0).
      { specialize (Hc p). rewrite Ha in Hc. destruct (accounts s !! p) as [a0|]; [|done]. cbn in Hc.
        exists a0. split; [done|]. congruence. }
      destruct (Hacc tx i p a0 Htx Hi' Hd Ha0) as [Hcm|(tx' & j & Hout & Hj & Hdj)]; [left; by rewrite <- Hc0|right].
      apply (two_updaters _ _ p tx i tx' j a Hinv' Hi Hd); [|done|by intros ->|done].
      rewrite Ht, lookup_del_keys, decide_False; [done|]. rewrite elem_of_list_to_set. intros Hpre. apply Hout.
      apply elem_of_bt_iter. rewrite Htxs. set_solver.
    + intros s2 _ (Hinv2 & Ht2 & Hp2 & Hc2). split_and!; [done|congruence| |].
      * by rewrite Ht2, Ht, del_keys_snoc.
      * intros p. by rewrite Hc2, Hc.
  - naive_solver.
Qed.

(** Every event that is admissible keeps the invariant; an error is the store's. *)
Lemma wp_mempool_update store ev s :
  inv (inflight_txs s) s → store_ok store → admissible_event store s ev →
  wp (mempool_update store ev) s (λ s' _, inv (inflight_txs s') s' ∧ in_progress s' = locks_after s ev)
    (λ _ e, update_error store e).
Proof.
  intros Hinv Hst Hadm. destruct ev as [id nullifiers notes details|header txs|txs]; cbn.
  - by apply wp_ntx_add_transaction.
  - by apply wp_weaken, wp_ntx_block_committed.
  - by apply wp_weaken, (wp_transactions_reverted store).
Qed.

End events.
