(* ===== verification/NtxBuilder.v ===== *)
(** * The loop of the network transaction builder

    Model of [crates/ntx-builder/src/builder/mod.rs]: the loop of [serve_new], which
    selects candidates at every tick, follows the mempool's events, and collects the
    tasks that execute the candidates' transactions; and of the mempool's part of
    [crates/ntx-builder/src/block_producer.rs]. A turn of the loop is one branch of
    the [select!], with what the branch received as its argument. *)

From S2P Require Import Prelude.
From S2P Require Import External.
From S2P Require Import Subscription.
From S2P Require Import NtxAccount.
From S2P Require Import NtxState.
From S2P Require Import NtxTheorems.
From S2P Require Import NtxInv.
From S2P Require Import NtxOps.
From S2P Require Import NtxEvents.

(** [lib.rs] *)
Definition MAX_NOTES_PER_TX : nat := 50.

Definition MAX_IN_PROGRESS_TXS : nat := 4.

Module NtxBuilder.

Section defs.
Context `{!MidenObjects} `{!NtxObjects} {StoreError StreamError TxError : Type}.

(** tokio's id of a task. *)
Abbreviation TaskId := N.

Record Builder := mk_builder {
  state : NtxState.State;
  (** The tasks of the [JoinSet] that have not been joined, with what they execute. *)
  inflight : gmap TaskId NtxState.TransactionCandidate;
  inflight_idx : gmap TaskId NetworkAccountPrefix;
}.

Definition set_state s b := mk_builder s (inflight b) (inflight_idx b).

Definition over_tasks f b := mk_builder (state b) (f (inflight b)) (inflight_idx b).

Definition over_task_idx f b := mk_builder (state b) (inflight b) (f (inflight_idx b)).

(** The errors that end the loop. *)
Inductive ServeError : Type :=
| StreamEnded
| StreamFailed (e : StreamError)
| UpdateFailed (e : NtxState.NtxError (StoreError := StoreError)).

(** What a joined task returns; [JoinError] is a panic of the task. *)
Inductive Joined : Type :=
| Finished (result : TxError + unit)
| JoinError.

Abbreviation BM := (M Builder ServeError).

(** A call on the state. *)
Definition on_state {A} (m : M NtxState.State NtxState.NtxError A) : BM A :=
  zoom state set_state (map_err UpdateFailed m).

(** [NetworkAccountPrefix::try_from] of an account id. *)
Definition prefix_try_from (id : AccountId) : option NetworkAccountPrefix :=
  if account_is_network id then Some (prefix_of_id id) else None.

(** [interval.tick()]; [task_id] is the id of the task if one is spawned. *)
Definition tick (task_id : TaskId) : BM unit :=
  b ← get;
  if decide (MAX_IN_PROGRESS_TXS < size (inflight b)) then mret tt else
  candidate ← on_state (NtxState.select_candidate MAX_NOTES_PER_TX);
  match candidate with
  | None => mret tt
  | Some candidate =>
    prefix ← expect_some (prefix_try_from (acc_id (NtxState.candidate_account candidate)))
      "called `Result::unwrap()` on an `Err` value";
    _ ← modify (over_tasks (λ m, <[task_id := candidate]> m));
    modify (over_task_idx (λ m, <[task_id := prefix]> m))
  end.

(** [mempool_events.try_next()]; [None] is the end of the stream. *)
Definition mempool_event (store : NtxState.Store) (event : option (StreamError + MempoolEvent)) : BM unit :=
  match event with
  | None => throw StreamEnded
  | Some (inl e) => throw (StreamFailed e)
  | Some (inr event) => on_state (NtxState.mempool_update store event)
  end.

(** [inflight.join_next_with_id()] *)
Definition task_completed (task_id : TaskId) (completed : Joined) : BM unit :=
  _ ← modify (over_tasks (λ m, delete task_id m));
  b ← get;
  _ ← modify (over_task_idx (λ m, delete task_id m));
  candidate ← expect_some (inflight_idx b !! task_id) "called `Option::unwrap()` on a `None` value";
  match completed with
  | Finished (inr _) => mret tt
  | Finished (inl _) | JoinError => on_state (NtxState.candidate_failed candidate)
  end.

Inductive Branch : Type :=
| Tick (task_id : TaskId)
| Event (store : NtxState.Store (StoreError := StoreError)) (event : option (StreamError + MempoolEvent))
| Completed (task_id : TaskId) (completed : Joined).

Definition turn (branch : Branch) : BM unit :=
  match branch with
  | Tick task_id => tick task_id
  | Event store event => mempool_event store event
  | Completed task_id completed => task_completed task_id completed
  end.

(** A new task has an id that no running task has, and only a running task can be
    joined: [join_next_with_id] never returns while there is none. *)
Definition enabled (b : Builder) (branch : Branch) : Prop :=
  match branch with
  | Tick task_id => inflight b !! task_id = None
  | Event _ _ => True
  | Completed task_id _ => is_Some (inflight b !! task_id)
  end.

(** The state the loop starts with. *)
Definition started (s : NtxState.State) : Builder := mk_builder s ∅ ∅.

End defs.

Arguments Joined TxError : clear implicits.

End NtxBuilder.

(** ** The network transaction builder's loop is safe

    Over every run of the loop on admissible events: no panic, a bounded number of
    tasks, and locks that are released. *)

Import NtxState.
Import NtxBuilder.

Section theorems.
Context `{!MidenObjects} `{!NtxObjects} `{!NtxLaws} {StoreError StreamError TxError : Type}.
Implicit Types (s : State) (b : Builder) (p : NetworkAccountPrefix) (store : Store (StoreError := StoreError)).

Abbreviation NM := (M State (NtxError (StoreError := StoreError))).
Abbreviation BM := (M Builder (ServeError (StoreError := StoreError) (StreamError := StreamError))).
Abbreviation Branch := (Branch (StoreError := StoreError) (StreamError := StreamError) (TxError := TxError)).

(** ** Selection keeps the invariant *)

(** Dropping idle accounts and changing the order of the queue. *)
Lemma inv_visited txs s pre post : inv txs s → queue s = pre ++ post → inv txs (visited s pre post).
Proof.
  intros [Ha Hn] Hq.
  assert (∀ p a, accounts (visited s pre post) !! p = Some a → accounts s !! p = Some a) as Hsub.
  { intros p a. unfold visited. cbn. rewrite lookup_del_keys. by case_decide. }
  assert (∀ p a, accounts s !! p = Some a → accounts (visited s pre post) !! p = None → NtxAccount.is_empty a = true) as Hempty.
  { intros p a Hpa. unfold visited. cbn. rewrite lookup_del_keys. case_decide as Hin; [|congruence]. intros _.
    apply elem_of_list_to_set, list_elem_of_filter in Hin as [Hpr _]. unfold prunable in Hpr. rewrite Hpa in Hpr.
    by apply andb_true_iff in Hpr as [_ ?]. }
  assert (∀ p a, accounts s !! p = Some a → NtxAccount.is_empty a = false → accounts (visited s pre post) !! p = Some a) as Hkept.
  { intros p a Hpa Hne. destruct (accounts (visited s pre post) !! p) as [a'|] eqn:Hv.
    - apply Hsub in Hv. congruence.
    - apply (Hempty p a) in Hv; congruence. }
  split; [split|apply (note_inv_frame _ s)]; [|..|done|done| |].
  - apply tracked_visited; [apply Ha|done].
  - intros p a x Hp%Hsub. by apply (inv_ids _ _ Ha).
  - intros p. rewrite (inv_deltas _ _ Ha). destruct (accounts s !! p) as [a|] eqn:Hp.
    + destruct (accounts (visited s pre post) !! p) as [a'|] eqn:Hv; [apply Hsub in Hv; naive_solver|].
      apply (Hempty _ _ Hp) in Hv. unfold NtxAccount.is_empty in Hv. rewrite !andb_true_iff, !bool_decide_eq_true in Hv.
      destruct Hv as [[-> _] _]. done.
    + destruct (accounts (visited s pre post) !! p) as [a'|] eqn:Hv; [|done]. apply Hsub in Hv. congruence.
  - intros n (p & a & Hp & Hpa & Hs). exists p, a. split_and!; [done| |done]. apply Hkept; [done|].
    unfold NtxAccount.is_empty. rewrite (bool_decide_eq_false_2 (NtxAccount.nullified_notes a = ∅)); [apply andb_false_r|].
    intros He. rewrite He, lookup_empty in Hs. by destruct Hs.
  - intros n (p & a & Hp & Hpa%Hsub & Hs). by exists p, a.
Qed.

(** What a selection does to the builder's state. *)
Lemma wp_select s limit :
  inv (inflight_txs s) s → 0 < limit →
  wp_ok (select_candidate limit : NM _) s (λ s' r, inv (inflight_txs s') s' ∧
    match r with
    | Some c => prefix_try_from (acc_id (candidate_account c)) = Some (prefix_of_id (acc_id (candidate_account c))) ∧
                selectable s (prefix_of_id (acc_id (candidate_account c))) ∧
                in_progress s' = {[prefix_of_id (acc_id (candidate_account c))]} ∪ in_progress s
    | None => (∀ p, ¬ selectable s p) ∧ in_progress s' = in_progress s
    end).
Proof.
  intros Hinv Hlim. pose proof (inv_tracked _ _ (proj1 Hinv)) as Htr.
  eapply wp_mono; [by apply wp_select_candidate| |done].
  intros s' [c|].
  - intros (pre & p & post & a & Hq & _ & Hsel & Ha & Hc & _ & ->).
    assert (acc_at p (candidate_account c)) as [Hnet Hp].
    { apply (inv_ids _ _ (proj1 Hinv) p a); [done|].
      destruct (last (NtxAccount.inflight a)) as [z|] eqn:Hl; [right|left; congruence]. simplify_eq.
      by apply last_Some_elem_of. }
    rewrite Hp. split_and!; [|by unfold prefix_try_from; rewrite Hnet, Hp|done|done].
    apply (inv_progress (inflight_txs s)), inv_visited; [done|]. by rewrite <- app_assoc.
  - intros [Hno ->]. split_and!; [apply inv_visited; [done|by rewrite app_nil_r]| |done].
    intros p Hsel. pose proof Hsel as (_ & a & Ha & _). apply (Hno p); [|done]. apply (tr_queue _ Htr). eauto.
Qed.

(** ** Loading keeps the invariant *)

Lemma inv_empty : inv ∅ empty_state.
Proof.
  split; split; try done.
  split; [constructor| |done]. intros p. split; [by intros ?%not_elem_of_nil|]. intros [a Ha]. done.
Qed.

Lemma wp_load store unconsumed :
  store_ok store → wp (load store unconsumed : NM _) empty_state
    (λ s _, inv (inflight_txs s) s ∧ inflight_txs s = ∅ ∧ in_progress s = ∅) (λ _ _, True).
Proof.
  intros Hst. unfold load. destruct unconsumed as [e|notes]; [by wp_steps|].
  apply (wp_for_each (λ _ s, inv (inflight_txs s) s ∧ inflight_txs s = ∅ ∧ in_progress s = ∅)).
  { split_and!; [exact inv_empty|done|done]. }
  intros _ note _ s' _ (Hinv & Ht & Hp). rewrite wp_bind.
  eapply wp_mono; [by apply (wp_fetch _ _ _ _ Hinv Hst)| |done].
  intros s2 r (Hinv2 & (Hf1 & Hf2 & Hf3) & _ & _ & Hr). destruct r as [a|]; cycle 1.
  { wp_steps. rewrite Hf2. by split_and!; [|congruence|congruence]. }
  apply wp_on_account. unfold NtxAccount.add_note. wp_steps. cbn. rewrite Hf2. split_and!; [|congruence|congruence].
  destruct Hinv2 as [Ha Hn]. split; [by apply (account_inv_notes _ _ _ a)|].
  apply (note_inv_outside _ _ _ a _ (NtxAccount.nullifier_of note)); [done|done| |..|done].
  - intros tx i. rewrite Ht. done.
  - intros m Hm. cbn. by rewrite lookup_insert_ne.
Qed.

(** ** Runs of the loop *)

(** What arrives in a turn is what the environment can send: an event is admissible
    and the store answers with the accounts that it is asked for. *)
Definition admissible_branch b (branch : Branch) : Prop :=
  match branch with
  | Event store (Some (inr ev)) => store_ok store ∧ admissible_event store (state b) ev
  | _ => True
  end.

(** A run from the state that was loaded. The set holds the locked accounts whose
    transaction was submitted, so that they wait for the mempool's event. *)
Inductive run : Builder → gset NetworkAccountPrefix → Prop :=
| run_start store unconsumed s :
    store_ok store → (load store unconsumed : NM unit) empty_state = (s, Ok tt) → run (started s) ∅
| run_turn b awaiting branch b' :
    run b awaiting → enabled b branch → admissible_branch b branch → (turn branch : BM unit) b = (b', Ok tt) →
    run b' (in_progress (state b') ∩
      (awaiting ∪ match branch with
                  | Completed id (Finished (inr _)) =>
                    match inflight_idx b !! id with Some p => {[p]} | None => ∅ end
                  | _ => ∅
                  end)).

(** The account that a running task works on. *)
Definition task_prefix (c : TransactionCandidate) : NetworkAccountPrefix := prefix_of_id (acc_id (candidate_account c)).

Record builder_inv b (awaiting : gset NetworkAccountPrefix) : Prop := {
  bi_state : inv (inflight_txs (state b)) (state b);
  bi_tasks : ∀ id, inflight_idx b !! id = task_prefix <$> inflight b !! id;
  bi_size : size (inflight b) ≤ S MAX_IN_PROGRESS_TXS;
  bi_locks : ∀ p, p ∈ in_progress (state b) → p ∈ awaiting ∨ ∃ id, inflight_idx b !! id = Some p;
}.

(** The locks after a turn. *)
Definition turn_locks b (branch : Branch) b' : Prop :=
  match branch with
  | Tick id =>
    (inflight b' = inflight b ∧ in_progress (state b') = in_progress (state b)) ∨
    ∃ c, inflight b' = <[id := c]> (inflight b) ∧ selectable (state b) (task_prefix c) ∧
         in_progress (state b') = {[task_prefix c]} ∪ in_progress (state b)
  | Event _ (Some (inr ev)) => inflight b' = inflight b ∧ in_progress (state b') = locks_after (state b) ev
  | Event _ _ => False
  | Completed id result =>
    ∃ c, inflight b !! id = Some c ∧ inflight b' = delete id (inflight b) ∧
      in_progress (state b') =
        match result with
        | Finished (inr _) => in_progress (state b)
        | _ => in_progress (state b) ∖ {[task_prefix c]}
        end
  end.

(** Why a turn may end the loop. *)
Definition turn_error (branch : Branch) (e : ServeError (StoreError := StoreError) (StreamError := StreamError)) : Prop :=
  match branch, e with
  | Event _ None, StreamEnded => True
  | Event _ (Some (inl e)), StreamFailed e' => e = e'
  | Event store (Some (inr _)), UpdateFailed e => update_error store e
  | _, _ => False
  end.

Lemma wp_on_state {A} (m : NM A) b (Q : Builder → A → Prop) X :
  wp m (state b) (λ s a, Q (set_state s b) a) (λ s e, X (set_state s b) (UpdateFailed e)) → wp (on_state m : BM A) b Q X.
Proof. unfold on_state. by rewrite wp_zoom, wp_map_err. Qed.

Lemma wp_turn b awaiting branch :
  builder_inv b awaiting → enabled b branch → admissible_branch b branch →
  wp (turn branch : BM unit) b (λ b' _, turn_locks b branch b' ∧ inv (inflight_txs (state b')) (state b') ∧
    (∀ id, inflight_idx b' !! id = task_prefix <$> inflight b' !! id) ∧ size (inflight b') ≤ S MAX_IN_PROGRESS_TXS)
    (λ _ e, turn_error branch e).
Proof.
  intros [Hs Ht Hsz _] Hen Hadm. destruct branch as [id|store ev|id result]; cbn [turn].
  - unfold tick. wp_steps. case_decide as Hfull; [wp_steps; by split_and!; [left|..]|].
    wp_steps. apply wp_on_state. eapply wp_weaken, wp_mono; [apply (wp_select _ MAX_NOTES_PER_TX Hs); unfold MAX_NOTES_PER_TX; lia| |done].
    intros s' [c|]; cbn beta iota.
    + intros (Hinv & Hpre & Hsel & Hp). wp_steps. apply (wp_expect_some _ (task_prefix c)); [done|]. wp_steps. cbn.
      split_and!; [by right; exists c|done| |].
      * intros id'. rewrite !lookup_insert. case_decide; [done|]. apply Ht.
      * rewrite map_size_insert_None by done. unfold MAX_IN_PROGRESS_TXS in *. lia.
    + intros (Hinv & _ & Hp). wp_steps. cbn. split_and!; [by left|done|done|done].
  - destruct ev as [[e|ev]|]; cbn in *; wp_steps; [done| |done].
    destruct Hadm as [Hst Hadm]. apply wp_on_state.
    eapply wp_mono; [by apply (wp_mempool_update store)|..].
    + intros s' _ [Hinv Hp]. by split_and!.
    + intros ? e He. exact He.
  - destruct Hen as [c Hc]. unfold task_completed. wp_steps. cbn [inflight_idx over_tasks over_task_idx].
    apply (wp_expect_some _ (task_prefix c)); [cbn; by rewrite Ht, Hc|]. cbn beta.
    set (b1 := over_task_idx _ _).
    assert (∀ s', inv (inflight_txs s') s' → turn_locks b (Completed id result) (set_state s' b1) →
      turn_locks b (Completed id result) (set_state s' b1) ∧ inv (inflight_txs (state (set_state s' b1))) (state (set_state s' b1)) ∧
      (∀ id, inflight_idx (set_state s' b1) !! id = task_prefix <$> inflight (set_state s' b1) !! id) ∧
      size (inflight (set_state s' b1)) ≤ S MAX_IN_PROGRESS_TXS) as Hend.
    { intros s' Hs' Hl. split_and!; [done|done|..]; cbn.
      - intros id'. rewrite !lookup_delete. case_decide; [done|]. apply Ht.
      - etrans; [|exact Hsz]. apply map_subseteq_size, delete_subseteq. }
    destruct result as [[e|[]]|]; wp_steps.
    + apply wp_on_state. unfold candidate_failed. wp_steps. apply Hend; [by apply (inv_progress (inflight_txs (state b)))|].
      exists c. by split_and!.
    + apply (Hend (state b)); [done|]. exists c. by split_and!.
    + apply wp_on_state. unfold candidate_failed. wp_steps. apply Hend; [by apply (inv_progress (inflight_txs (state b)))|].
      exists c. by split_and!.
Qed.

Lemma locks_after_subseteq s ev : locks_after s ev ⊆ in_progress s.
Proof. destruct ev; cbn; [case_decide|..]; set_solver. Qed.

(** Every lock has a reason after the turn if it had one before. *)
Lemma turn_keeps_locks b awaiting branch b' :
  builder_inv b awaiting → enabled b branch → turn_locks b branch b' →
  (∀ id, inflight_idx b' !! id = task_prefix <$> inflight b' !! id) →
  ∀ p, p ∈ in_progress (state b') →
    p ∈ awaiting ∨
    match branch with
    | Completed id (Finished (inr _)) => inflight_idx b !! id = Some p
    | _ => False
    end ∨ ∃ id, inflight_idx b' !! id = Some p.
Proof.
  intros [_ Ht _ Hl] Hen Htl Ht' p Hp.
  assert (∀ p, p ∈ in_progress (state b) → p ∈ awaiting ∨ ∃ id c, inflight b !! id = Some c ∧ task_prefix c = p) as Hl'.
  { intros q [Hq|[id Hq]]%Hl; [by left|right]. rewrite Ht in Hq. destruct (inflight b !! id) as [c|] eqn:Hc; naive_solver. }
  assert (∀ id c, inflight b' !! id = Some c → task_prefix c = p → ∃ id, inflight_idx b' !! id = Some p) as Hrun.
  { intros id c Hc Hpc. exists id. rewrite Ht', Hc. cbn. congruence. }
  destruct branch as [id|store ev|id result]; cbn in Htl, Hen.
  - destruct Htl as [[Hi Heq]|(c & Hi & _ & Heq)]; rewrite Heq in Hp.
    + apply Hl' in Hp as [Hp|(id' & c & Hc & Hpc)]; [by left|]. do 2 right. apply (Hrun id' c); [by rewrite Hi|done].
    + apply elem_of_union in Hp as [->%elem_of_singleton|Hp].
      * do 2 right. apply (Hrun id c); [by rewrite Hi, lookup_insert_eq|done].
      * apply Hl' in Hp as [Hp|(id' & c' & Hc & Hpc)]; [by left|]. do 2 right. apply (Hrun id' c'); [|done].
        rewrite Hi, lookup_insert_ne; [done|]. intros ->. congruence.
  - destruct ev as [[e|ev]|]; [done| |done]. destruct Htl as [Hi Heq]. rewrite Heq in Hp.
    apply locks_after_subseteq, Hl' in Hp as [Hp|(id' & c & Hc & Hpc)]; [by left|]. do 2 right.
    apply (Hrun id' c); [by rewrite Hi|done].
  - destruct Htl as (c & Hc & Hi & Heq).
    assert (p ∈ in_progress (state b)) as Hp0 by (rewrite Heq in Hp; destruct result as [[]|]; set_solver).
    apply Hl' in Hp0 as [Hp0|(id' & c' & Hc' & Hpc)]; [by left|right].
    destruct (decide (id = id')) as [<-|Hne].
    + assert (c' = c) as -> by congruence. destruct result as [[e|[]]|].
      * rewrite Heq in Hp. set_solver.
      * left. rewrite Ht, Hc. cbn. congruence.
      * rewrite Heq in Hp. set_solver.
    + right. apply (Hrun id' c'); [|done]. by rewrite Hi, lookup_delete_ne.
Qed.

Lemma builder_run_inv b awaiting : run b awaiting → builder_inv b awaiting.
Proof.
  induction 1 as [store unconsumed s Hst Hload|b awaiting branch b' Hrun IH Hen Hadm Hturn].
  - pose proof (wp_run_ok _ _ _ _ _ _ (wp_load store unconsumed Hst) Hload) as (Hinv & _ & Hp).
    split; cbn; [done|done| |].
    + rewrite map_size_empty. lia.
    + intros p. rewrite Hp. set_solver.
  - pose proof (wp_run_ok _ _ _ _ _ _ (wp_turn b awaiting branch IH Hen Hadm) Hturn) as (Htl & Hinv & Ht & Hsz).
    split; [done|done|done|]. intros p Hp.
    destruct (turn_keeps_locks b awaiting branch b' IH Hen Htl Ht p Hp) as [Haw|[Hdone|Htask]]; [left|left|by right].
    + set_solver.
    + destruct branch as [| |id [[|[]]|]]; try done. rewrite Hdone. set_solver.
Qed.

(** C36: The network transaction builder does not crash on the streams of events that
    [admissible_event] describes. A run starts from a state that was loaded,
    and in each turn the store answers a query for an account with that account. On
    arrival, a transaction applies to the account it updates and consumes notes that
    are available; a block commits the creator of a note before its consumer; a revert,
    which is processed in the order of the ids, takes back the consumer of a note
    before its creator, and leaves an account that was never committed one of its
    inflight transactions. In every state that such a run reaches, the next turn
    does not panic on such an event; it ends the loop only if the stream of events ends
    or fails, or if the store fails or lacks an account that a transaction updates. At
    most one task more than [MAX_IN_PROGRESS_TXS] runs. A tick starts a task only for
    an account that is not locked and has notes, and locks it; a lock is released
    exactly by the failure of its task or by the event of a new transaction that
    updates its account; and every locked account has a running task or a submitted
    transaction whose event is still to come, so that no lock is left over. The
    conditions are needed, and the mempool does not keep all of them: events in another
    order make the builder panic ([ntx_revert_order_panics],
    [ntx_reverted_account_panics], [ntx_early_note_panics]). *)
Theorem ntx_builder_never_panics b awaiting branch (Hrun : run b awaiting) (Hen : enabled b branch)
    (Hadm : admissible_branch b branch) :
  size (inflight b) ≤ S MAX_IN_PROGRESS_TXS ∧
  (∀ p, p ∈ in_progress (state b) → p ∈ awaiting ∨ ∃ id c, inflight b !! id = Some c ∧ task_prefix c = p) ∧
  match (turn branch : BM unit) b with
  | (b', Ok _) => turn_locks b branch b'
  | (_, Err e) => turn_error branch e
  | _ => False
  end.
Proof.
  pose proof (builder_run_inv _ _ Hrun) as Hinv. split_and!; [apply Hinv| |].
  - intros p [Hp|[id Hp]]%(bi_locks _ _ Hinv); [by left|right]. rewrite (bi_tasks _ _ Hinv) in Hp.
    destruct (inflight b !! id) as [c|] eqn:Hc; naive_solver.
  - pose proof (wp_turn b awaiting branch Hinv Hen Hadm) as Hwp. rewrite wp_unfold in Hwp.
    destruct ((turn branch : BM unit) b) as [b' []]; tauto.
Qed.

End theorems.
