(* ===== verification/Challenge.v ===== *)
(** * Proof-of-work challenges and API keys of the faucet

    Model of [bin/faucet/src/server/challenge.rs] and [server/api_key.rs]. What they
    call of the protocol library and of the hashing and encoding libraries is an
    interface, [FaucetObjects]. *)

From S2P Require Import Prelude.
From S2P Require Import Bytes.
From S2P Require Import External.

(** [AccountId::SERIALIZED_SIZE]. *)
Definition ACCOUNT_ID_SIZE : nat := 15.

Class FaucetObjects `{!MidenObjects} := {
  (** [Serializable::to_bytes], [Into<[u8; 15]>] and [Deserializable] of an account id. *)
  account_to_bytes : AccountId → bytes;
  account_into_bytes : AccountId → bytes;
  account_read_from_bytes : bytes → option AccountId;
  account_from_hex : string → option AccountId;
  account_from_bech32 : string → option AccountId;
  (** [ToHex::to_hex_with_prefix] and [hex_to_bytes] for an array of the given size. *)
  to_hex_with_prefix : bytes → string;
  hex_to_bytes : nat → string → option bytes;
  sha3_256 : bytes → bytes;
  (** [BASE64_STANDARD]. *)
  base64_encode : bytes → string;
  base64_decode : string → option bytes;
}.

(** Documented behaviour: what is encoded is decoded, arrays have their sizes, and
    the underscore is not a letter of the standard Base64 alphabet. *)
Class FaucetLaws `{!MidenObjects} `{!FaucetObjects} : Prop := {
  account_bytes_size a : length (account_to_bytes a) = ACCOUNT_ID_SIZE;
  account_bytes_inv a : account_read_from_bytes (account_to_bytes a) = Some a;
  hex_inv l : hex_to_bytes (length l) (to_hex_with_prefix l) = Some l;
  hex_size n s l : hex_to_bytes n s = Some l → length l = n;
  sha3_size l : length (sha3_256 l) = 32;
  base64_inv l : base64_decode (base64_encode l) = Some l;
  base64_alphabet l : contains "_" (base64_encode l) = false;
}.

(** [server/get_tokens.rs]. *)
Inductive MintRequestError : Type :=
| AccountIdError
| AssetAmountError (amount : N)
| InvalidApiKey (key : string)
| InvalidPoW
| MissingPowParameters
| ServerSignaturesDoNotMatch
| ExpiredServerTimestamp (received current : N)
| ChallengeAlreadyUsed
| RateLimited.

Module ApiKey.

(** A [u8; 32]. *)
Abbreviation ApiKey := bytes.

Section defs.
Context `{!MidenObjects} `{!FaucetObjects}.

Definition API_KEY_PREFIX : string := "miden_faucet_".

Definition default_key : ApiKey := replicate 32 (byte_of 0).

Definition encode (k : ApiKey) : string := API_KEY_PREFIX +:+ base64_encode k.

Definition decode (api_key_str : string) : MintRequestError + ApiKey :=
  let api_key_str := trim_start_matches API_KEY_PREFIX api_key_str in
  match base64_decode api_key_str with
  | None => inl (InvalidApiKey api_key_str)
  | Some bytes => if decide (length bytes = 32) then inr bytes else inl (InvalidApiKey api_key_str)
  end.

End defs.

End ApiKey.

Module Challenge.

Section defs.
Context `{!MidenObjects} `{!FaucetObjects}.
Import ApiKey.

Definition CHALLENGE_ENCODED_SIZE : nat := 95.

Record Challenge := mk_challenge {
  target : N;
  timestamp : N;
  account_id : AccountId;
  api_key : ApiKey;
  signature : bytes;
}.

Implicit Types (c : Challenge).

Definition compute_signature (secret : bytes) (target timestamp : N) (account_id : AccountId) (api_key : bytes) : bytes :=
  sha3_256 (secret ++ u64_to_le_bytes target ++ u64_to_le_bytes timestamp ++ account_into_bytes account_id ++ api_key).

Definition new (target timestamp : N) (account_id : AccountId) (api_key : ApiKey) (secret : bytes) : Challenge :=
  mk_challenge target timestamp account_id api_key (compute_signature secret target timestamp account_id api_key).

Definition encode_bytes c : bytes :=
  u64_to_le_bytes (target c) ++ u64_to_le_bytes (timestamp c) ++ account_to_bytes (account_id c) ++
  api_key c ++ signature c.

Definition encode c : string := to_hex_with_prefix (encode_bytes c).

(** The id is parsed before the signature is compared, and its error is unwrapped. *)
Definition decode {S} (value : string) (secret : bytes) : M S MintRequestError Challenge :=
  match hex_to_bytes CHALLENGE_ENCODED_SIZE value with
  | None => throw MissingPowParameters
  | Some bytes =>
    let target := u64_from_le_bytes (slice 0 8 bytes) in
    let timestamp := u64_from_le_bytes (slice 8 16 bytes) in
    account_id ← expect_some (account_read_from_bytes (slice 16 31 bytes))
      "called `Result::unwrap()` on an `Err` value";
    let api_key := slice 31 63 bytes in
    let signature := slice 63 CHALLENGE_ENCODED_SIZE bytes in
    if decide (signature = compute_signature secret target timestamp account_id api_key)
    then mret (mk_challenge target timestamp account_id api_key signature)
    else throw ServerSignaturesDoNotMatch
  end.

Definition validate_pow c (nonce : N) : bool :=
  let hash := sha3_256 (string_bytes (encode c) ++ u64_to_be_bytes nonce) in
  (u64_from_be_bytes (take 8 hash) <? target c)%N.

(** [checked_sub], with [u64::MAX] for a challenge of the future. *)
Definition is_expired c (current_time challenge_lifetime : N) : bool :=
  let diff := if (timestamp c <=? current_time)%N then (current_time - timestamp c)%N else U64_MAX in
  (challenge_lifetime <? diff)%N.

End defs.

End Challenge.
