(* ===== verification/Pow.v ===== *)
(** * The faucet's proof of work

    Model of [bin/faucet/src/server/pow.rs] and of the request handlers that use it,
    in [server/get_pow.rs], [server/get_tokens.rs], [server/mod.rs] and [types.rs].
    The clock is read before the lock of the cache is taken, so its reading is an
    argument of the operations. *)

From S2P Require Import Prelude.
From S2P Require Import Bytes.
From S2P Require Import External.
From S2P Require Import Challenge.
Import ApiKey Challenge.

Module Pow.

Section defs.
Context `{!MidenObjects} `{!FaucetObjects}.

Record ChallengeCache := mk_cache {
  challenges : gmap N (list (AccountId * ApiKey));
  challenges_per_key : gmap ApiKey N;
  account_ids : gmap AccountId N;
}.

Implicit Types (s : ChallengeCache) (c : Challenge).

Definition empty_cache : ChallengeCache := mk_cache ∅ ∅ ∅.

Definition over_challenges f s := mk_cache (f (challenges s)) (challenges_per_key s) (account_ids s).

Definition over_per_key f s := mk_cache (challenges s) (f (challenges_per_key s)) (account_ids s).

Definition over_account_ids f s := mk_cache (challenges s) (challenges_per_key s) (f (account_ids s)).

Abbreviation CM E := (M ChallengeCache E).

(** [entry(k).and_modify(|c| *c = c.saturating_add(1)).or_insert(1)]. *)
Definition count_up {K} `{Countable K} (k : K) (m : gmap K N) : gmap K N :=
  <[k := match m !! k with Some n => saturating_add n 1 | None => 1%N end]> m.

Definition insert_challenge {E} c : CM E bool :=
  s ← get;
  let issuers := default [] (challenges s !! timestamp c) in
  _ ← modify (over_challenges (<[timestamp c := issuers]>));
  if decide ((account_id c, api_key c) ∈ issuers) then mret false else
  _ ← modify (over_challenges (<[timestamp c := issuers ++ [(account_id c, api_key c)]]>));
  _ ← modify (over_per_key (count_up (api_key c)));
  _ ← modify (over_account_ids (count_up (account_id c)));
  mret true.

Definition has_challenge_for_account (id : AccountId) s : bool := bool_decide (is_Some (account_ids s !! id)).

Definition num_challenges_for_api_key (key : ApiKey) s : N := default 0%N (challenges_per_key s !! key).

(** [get_mut(k).map(..).expect(msg)], and the removal of a count that is zero. *)
Definition count_down {E K} `{Countable K} (field : ChallengeCache → gmap K N)
    (over : (gmap K N → gmap K N) → ChallengeCache → ChallengeCache) (k : K) (msg : string) : CM E unit :=
  m ← gets field;
  n ← expect_some (m !! k) msg;
  _ ← modify (over (<[k := saturating_sub n 1]>));
  if decide (saturating_sub n 1 = 0%N) then modify (over (delete k)) else mret tt.

Definition remove_issuer {E} (issuer : AccountId * ApiKey) : CM E unit :=
  let '(account_id, api_key) := issuer in
  _ ← count_down challenges_per_key over_per_key api_key "challenge should have had a key entry";
  count_down account_ids over_account_ids account_id "challenge should have had an account entry".

(** [split_off] keeps the challenges from [limit_timestamp] on; the others are
    visited in ascending order. *)
Definition cleanup_expired_challenges {E} (current_time challenge_lifetime : N) : CM E unit :=
  limit_timestamp ← u64_sub current_time challenge_lifetime;
  s ← get;
  let expired := filter (λ kv, (kv.1 < limit_timestamp)%N) (challenges s) in
  _ ← modify (over_challenges (filter (λ kv, (limit_timestamp <= kv.1)%N)));
  for_each (merge_sort N.le (elements (dom expired))) (λ timestamp,
    for_each (default [] (expired !! timestamp)) remove_issuer).

Record PoWConfig := mk_config {
  challenge_lifetime : N;
  growth_rate : positive;
  baseline : N;
}.

Implicit Types (cfg : PoWConfig).

Definition get_challenge_target {E} cfg (api_key : ApiKey) : CM E N :=
  num_challenges ← gets (num_challenges_for_api_key api_key);
  max_target ← u64_shr U64_MAX (baseline cfg);
  shifted ← u64_shl num_challenges (Npos (growth_rate cfg));
  mret (max_target / (shifted `max` 1))%N.

Definition build_challenge {E} cfg (secret : bytes) (account_id : AccountId) (api_key : ApiKey) (current_time : N)
  : CM E Challenge :=
  target ← get_challenge_target cfg api_key;
  mret (Challenge.new target current_time account_id api_key secret).

Definition submit_challenge cfg (secret : bytes) (id : AccountId) (key : ApiKey) (challenge : string) (nonce : N)
    (current_time : N) : CM MintRequestError unit :=
  c ← Challenge.decode challenge secret;
  if is_expired c current_time (challenge_lifetime cfg) then throw (ExpiredServerTimestamp (timestamp c) current_time) else
  if negb (validate_pow c nonce && bool_decide (id = account_id c) && bool_decide (key = api_key c)) then throw InvalidPoW else
  limited ← gets (has_challenge_for_account id);
  if (limited : bool) then throw RateLimited else
  inserted ← insert_challenge c;
  if (inserted : bool) then mret tt else throw ChallengeAlreadyUsed.

End defs.

End Pow.
