(* ===== verification/PowTheorems.v ===== *)
(** * Correctness of the challenge cache

    The cache is a map from accounts to the challenge each has used last: the
    abstract cache of this file. Its three collections represent that map, so the
    counts never run out, and every operation implements one on the map. *)

From S2P Require Import Prelude.
From S2P Require Import Bytes.
From S2P Require Import External.
From S2P Require Import Challenge.
From S2P Require Import Pow.

Import ApiKey Challenge Pow.

Lemma for_each_bind {S E A B} (f : A → list B) (g : B → M S E unit) (l : list A) s Q X :
  wp (for_each (l ≫= f) g) s Q X → wp (for_each l (λ x, for_each (f x) g)) s Q X.
Proof.
  revert s. induction l as [|x l IH]; intros s; cbn; [done|].
  enough (∀ l' s, wp (for_each (l' ++ (l ≫= f)) g) s Q X →
    wp (_ ← for_each l' g; for_each l (λ x, for_each (f x) g)) s Q X) as H by apply H.
  intros l'. induction l' as [|y l' IH']; intros s'; cbn.
  { intros H. rewrite wp_bind, wp_ret. by apply IH. }
  rewrite !wp_bind. intros H. eapply wp_mono; [exact H| |done].
  intros s'' [] H'. apply IH' in H'. by rewrite wp_bind in H'.
Qed.

Lemma fmap_bind_list {A B C} (f : A → list B) (g : B → C) (l : list A) :
  g <$> (l ≫= f) = l ≫= (λ x, g <$> f x).
Proof. induction l as [|x l IH]; cbn; [done|]. by rewrite fmap_app, IH. Qed.

Section cache.
Context `{!MidenObjects} `{!FaucetObjects}.
Implicit Types (s : ChallengeCache) (A : gmap AccountId (N * ApiKey)).

Definition uses (k : ApiKey) A : nat := size (filter (λ kv, kv.2.2 = k) A).

(** The two maps of counts. *)
Record counted s A : Prop := {
  c_accounts : account_ids s = (λ _, 1%N) <$> A;
  c_keys k : challenges_per_key s !! k = if decide (uses k A = 0) then None else Some (N.of_nat (uses k A));
}.

Record cached s A : Prop := {
  c_counted : counted s A;
  c_issuers t a k : (a, k) ∈ default [] (challenges s !! t) ↔ A !! a = Some (t, k);
  c_nodup t : NoDup (default [] (challenges s !! t)).*1;
}.

Lemma uses_insert k k' t a A : A !! a = None →
  uses k' (<[a := (t, k)]> A) = if decide (k = k') then S (uses k' A) else uses k' A.
Proof.
  intros Ha. unfold uses. case_decide as Hk.
  - rewrite map_filter_insert_True by done. apply map_size_insert_None.
    apply map_lookup_filter_None. by left.
  - by rewrite map_filter_insert_False, delete_id by done.
Qed.

Lemma uses_delete k k' t a A : A !! a = Some (t, k) →
  uses k' A = if decide (k = k') then S (uses k' (delete a A)) else uses k' (delete a A).
Proof.
  intros Ha. rewrite <- (insert_delete_id A a (t, k)) at 1 by done.
  apply uses_insert, lookup_delete_eq.
Qed.

Lemma uses_size k A : uses k A ≤ size A.
Proof. apply map_subseteq_size, map_filter_subseteq. Qed.

Lemma cached_empty : cached empty_cache ∅.
Proof.
  split; [split|..]; cbn.
  - by rewrite fmap_empty.
  - intros k. unfold uses. by rewrite map_filter_empty, map_size_empty, lookup_empty.
  - intros t a k. rewrite !lookup_empty. cbn. split; [by intros ?%not_elem_of_nil|done].
  - intros t. rewrite lookup_empty. constructor.
Qed.

(** *** Counting *)

Lemma counted_insert s s' A a k t : counted s A → A !! a = None → (N.of_nat (size A) < U64_MAX)%N →
  account_ids s' = count_up a (account_ids s) → challenges_per_key s' = count_up k (challenges_per_key s) →
  counted s' (<[a := (t, k)]> A).
Proof.
  intros [Hac Hk] Ha Hsz Eac Ek. split.
  - rewrite Eac, Hac, fmap_insert. unfold count_up. by rewrite lookup_fmap, Ha.
  - intros k'. rewrite Ek, uses_insert by done. unfold count_up. rewrite lookup_insert.
    case_decide; subst; rewrite ?Hk; [|done]. pose proof (uses_size k' A). unfold saturating_add.
    repeat case_decide; try lia; f_equal; lia.
Qed.

(** The removal of a challenge that the map has. *)
Lemma wp_remove_issuer {E} s A a k t (Q : ChallengeCache → unit → Prop) (X : ChallengeCache → E → Prop) :
  counted s A → A !! a = Some (t, k) →
  (∀ s', challenges s' = challenges s → counted s' (delete a A) → Q s' tt) →
  wp (remove_issuer (a, k)) s Q X.
Proof.
  intros [Hac Hk] Ha HQ. pose proof (uses_delete k k t a A Ha) as Hu. rewrite decide_True in Hu by done.
  unfold remove_issuer, count_down. wp_steps.
  eapply wp_expect_some; [rewrite Hk, decide_False by lia; done|]. wp_steps.
  eapply (wp_mono _ _ (λ s' _, challenges s' = challenges s ∧ account_ids s' = account_ids s ∧
    ∀ k', challenges_per_key s' !! k' =
      if decide (uses k' (delete a A) = 0) then None else Some (N.of_nat (uses k' (delete a A))))
    _ (λ _ _, False)); [| |done].
  - unfold saturating_sub. case_decide; wp_steps; cbn; split_and!; try done; intros k'.
    + rewrite delete_insert_eq, lookup_delete. case_decide; subst.
      * rewrite decide_True by lia. done.
      * pose proof (uses_delete k k' t a A Ha) as E'. rewrite decide_False in E' by done. by rewrite Hk, E'.
    + rewrite lookup_insert. case_decide; subst.
      * rewrite decide_False by lia. f_equal. lia.
      * pose proof (uses_delete k k' t a A Ha) as E'. rewrite decide_False in E' by done. by rewrite Hk, E'.
  - intros s' [] (Ech & Eac & Hk'). wp_steps. rewrite Eac, Hac.
    eapply wp_expect_some; [by rewrite lookup_fmap, Ha|]. wp_steps. rewrite decide_True by done.
    wp_steps. apply HQ; [done|]. split; cbn; [|done].
    rewrite Eac, Hac, delete_insert_eq. by rewrite fmap_delete.
Qed.

(** *** The operations on the map *)

Lemma wp_insert_challenge {E} s A c (X : ChallengeCache → E → Prop) :
  cached s A → A !! account_id c = None → (N.of_nat (size A) < U64_MAX)%N →
  wp (insert_challenge c) s
    (λ s' b, b = true ∧ cached s' (<[account_id c := (timestamp c, api_key c)]> A)) X.
Proof.
  intros [Hc Hi Hn] Ha Hsz. unfold insert_challenge. wp_steps.
  rewrite decide_False by (rewrite Hi, Ha; done). wp_steps. split; [done|]. split; cbn.
  - by eapply counted_insert.
  - intros t a k. rewrite !lookup_insert. destruct (decide (timestamp c = t)) as [Et|Et]; cbn.
    + subst t. rewrite elem_of_app, Hi, list_elem_of_singleton. case_decide as Eq; [|naive_solver].
      subst a. rewrite Ha. split; [by intros [?|[= ->]]|intros [= ->]; by right].
    + rewrite Hi. case_decide as Eq; [|done]. subst a. rewrite Ha. naive_solver.
  - intros t. rewrite !lookup_insert. destruct (decide (timestamp c = t)) as [<-|Et]; cbn; [|apply Hn].
    rewrite fmap_app. apply NoDup_app. split_and!; [apply Hn| |apply NoDup_singleton].
    intros a ([a' k] & -> & Hin)%list_elem_of_fmap. apply Hi in Hin. cbn.
    rewrite list_elem_of_singleton. intros ->. by rewrite Ha in Hin.
Qed.

(** Removing the accounts of a list. *)
Definition without (l : list AccountId) A := filter (λ kv, kv.1 ∉ l) A.

Lemma lookup_without l A a : without l A !! a = if decide (a ∈ l) then None else A !! a.
Proof.
  unfold without. case_decide as Hd.
  - apply map_lookup_filter_None. right. by intros ? _ ?.
  - destruct (A !! a) eqn:Ea; [by apply map_lookup_filter_Some|]. apply map_lookup_filter_None. by left.
Qed.

Lemma wp_remove_issuers {E} s A l (X : ChallengeCache → E → Prop) :
  counted s A → NoDup l.*1 → (∀ a k, (a, k) ∈ l → ∃ t, A !! a = Some (t, k)) →
  wp (for_each l remove_issuer) s
    (λ s' _, challenges s' = challenges s ∧ counted s' (without l.*1 A)) X.
Proof.
  intros Hc Hnd Hin.
  apply (wp_for_each (λ pre s', challenges s' = challenges s ∧ counted s' (without pre.*1 A))).
  { split; [done|]. cbn. unfold without. rewrite map_filter_id; [done|].
    intros a x _. apply not_elem_of_nil. }
  intros pre [a k] rest s' -> [Ech Hc']. rewrite fmap_app in Hnd.
  apply NoDup_app in Hnd as (_ & Hpre & _).
  destruct (Hin a k) as [t Ht]; [set_solver|].
  assert (a ∉ pre.*1) as Hna by (intros Hp; apply (Hpre _ Hp); cbn; set_solver).
  eapply wp_remove_issuer; [exact Hc'|by rewrite lookup_without, decide_False|].
  intros s'' Ech' Hc''. split; [by rewrite Ech'|].
  enough (without (pre ++ [(a, k)]).*1 A = delete a (without pre.*1 A)) as -> by done.
  apply map_eq. intros a'. rewrite lookup_delete, !lookup_without, fmap_app. cbn.
  repeat case_decide; set_solver.
Qed.

Lemma default_filter (P : N → Prop) `{!∀ t, Decision (P t)} (m : gmap N (list (AccountId * ApiKey))) t :
  default [] (filter (λ kv, P kv.1) m !! t) = if decide (P t) then default [] (m !! t) else [].
Proof.
  rewrite map_lookup_filter. destruct (m !! t) as [x|]; cbn; [|by case_decide].
  case_decide; [by rewrite option_guard_True by done|by rewrite option_guard_False by done].
Qed.

Definition unexpired (limit : N) A := filter (λ kv, (limit ≤ kv.2.1)%N) A.

Lemma lookup_unexpired limit A a t k :
  unexpired limit A !! a = Some (t, k) ↔ A !! a = Some (t, k) ∧ (limit ≤ t)%N.
Proof. unfold unexpired. by rewrite map_lookup_filter_Some. Qed.

Lemma wp_cleanup {E} s A now life (X : ChallengeCache → E → Prop) :
  cached s A → (life ≤ now)%N →
  wp (cleanup_expired_challenges now life) s (λ s' _, cached s' (unexpired (now - life) A)) X.
Proof.
  intros [Hc Hi Hn] Hle. unfold cleanup_expired_challenges, u64_sub.
  rewrite (proj2 (N.leb_le _ _) Hle). wp_steps. set (limit := (now - life)%N).
  set (expired := filter _ (challenges s)). apply for_each_bind. set (l := _ ≫= _).
  assert (∀ t, default [] (expired !! t) = if decide (t < limit)%N then default [] (challenges s !! t) else []) as He
    by (intros t; exact (default_filter (λ t, (t < limit)%N) (challenges s) t)).
  assert (∀ a k, (a, k) ∈ l ↔ ∃ t, A !! a = Some (t, k) ∧ (t < limit)%N) as Hl.
  { intros a k. subst l. rewrite list_elem_of_bind. split.
    - intros (t & Hin & _). rewrite He in Hin. case_decide; [|by apply not_elem_of_nil in Hin].
      apply Hi in Hin. eauto.
    - intros (t & Ha%Hi & Hlt). pose proof Ha as Hin. exists t. rewrite He, decide_True by done. split; [done|].
      rewrite merge_sort_Permutation, elem_of_elements, elem_of_dom.
      specialize (He t). rewrite decide_True in He by done. rewrite <- He in Ha.
      destruct (expired !! t); [eauto|by apply not_elem_of_nil in Ha]. }
  assert (NoDup l.*1) as Hnd.
  { subst l. rewrite fmap_bind_list. apply NoDup_bind.
    - intros t t' a _ _. rewrite !He. intros Hin1 Hin2. revert Hin1 Hin2.
      repeat case_decide; try by intros ?%not_elem_of_nil || intros ? ?%not_elem_of_nil.
      intros ([a1 k1] & Ea1 & Hk1%Hi)%list_elem_of_fmap ([a2 k2] & Ea2 & Hk2%Hi)%list_elem_of_fmap.
      cbn in Ea1, Ea2. subst. naive_solver.
    - intros t _. rewrite He. case_decide; [apply Hn|constructor].
    - rewrite merge_sort_Permutation. apply NoDup_elements. }
  eapply wp_mono; [apply (wp_remove_issuers _ A l (λ _ _, False)); [by destruct Hc; split|done|]|cbn|done].
  { intros a k Hak. apply Hl in Hak as (t & Hak & _). eauto. }
  intros s' [] [Ech Hc'].
  assert (without l.*1 A = unexpired limit A) as Ew.
  { apply map_eq. intros a. apply option_eq. intros [t k].
    rewrite lookup_unexpired, lookup_without.
    case_decide as Hd; (split; [try done|]); [| |by intros []].
    - apply list_elem_of_fmap in Hd as ([a' k'] & Ea & (t' & Ha' & Hlt')%Hl). cbn in Ea. subst a'.
      intros [Ha Hlt]. rewrite Ha in Ha'. injection Ha' as -> _. lia.
    - intros Ha. split; [done|]. destruct (decide (limit ≤ t)%N); [done|]. destruct Hd.
      apply list_elem_of_fmap. exists (a, k). split; [done|]. apply Hl. exists t. split; [done|lia]. }
  rewrite Ew in Hc'. split; [done|..].
  - intros t a k. rewrite Ech. cbn. rewrite (default_filter (λ t, (limit <= t)%N)), lookup_unexpired.
    case_decide; [by rewrite Hi; naive_solver|]. split; [by intros ?%not_elem_of_nil|naive_solver].
  - intros t. rewrite Ech. cbn. rewrite (default_filter (λ t, (limit <= t)%N)).
    case_decide; [apply Hn|constructor].
Qed.

End cache.

(** ** Theorems about the faucet's proof of work

    Challenges survive their encoding and cannot be altered, the cache implements a
    map from accounts to challenges, and an account is served at most once in the
    lifetime of a challenge. *)

Import ApiKey Challenge Pow.

Lemma bind_not_ok {S E A B} {m : M S E A} {k : A → M S E B} {s y r} : m s = (y, r) → (∀ a, r ≠ Ok a) →
  ((x ← m; k x) s).1 = y ∧ ∀ b, ((x ← m; k x) s).2 ≠ Ok b.
Proof. intros Hm Hr. unfold mbind, M_bind. rewrite Hm. destruct r; naive_solver. Qed.

Section pow.
Context `{!MidenObjects} `{!FaucetObjects} `{!FaucetLaws}.
Implicit Types (s : ChallengeCache) (c : Challenge) (A : gmap AccountId (N * ApiKey)).

(** ** Encoding *)

(** The sizes of the fields of a challenge. *)
Record well_formed c : Prop := {
  wf_target : (target c < 2 ^ 64)%N;
  wf_timestamp : (timestamp c < 2 ^ 64)%N;
  wf_key : length (api_key c) = 32;
  wf_signature : length (signature c) = 32;
}.

Definition signed (secret : bytes) c : Prop :=
  signature c = compute_signature secret (target c) (timestamp c) (account_id c) (api_key c).

Lemma length_encode c : well_formed c → length (encode_bytes c) = CHALLENGE_ENCODED_SIZE.
Proof.
  intros [_ _ Hk Hs]. unfold encode_bytes, u64_to_le_bytes.
  rewrite !length_app, !length_le_bytes, account_bytes_size, Hk, Hs. done.
Qed.

#[global] Instance signed_dec secret c : Decision (signed secret c).
Proof. unfold signed. apply _. Defined.

Lemma decode_encode {S} secret c (s : S) : well_formed c →
  Challenge.decode (encode c) secret s =
    (s, if decide (signed secret c) then Ok c else Err ServerSignaturesDoNotMatch).
Proof.
  intros Hwf. unfold Challenge.decode.
  assert (hex_to_bytes CHALLENGE_ENCODED_SIZE (encode c) = Some (encode_bytes c)) as ->
    by (rewrite <- (length_encode _ Hwf); apply hex_inv).
  destruct Hwf as [Ht Hts Hk Hs]. unfold encode_bytes.
  pose proof (length_le_bytes 8 (target c)) as L0. pose proof (length_le_bytes 8 (timestamp c)) as L1.
  pose proof (account_bytes_size (account_id c)) as L2.
  rewrite (slice_here 8 (u64_to_le_bytes (target c))) by done.
  rewrite !(slice_skip 8 _ _ (u64_to_le_bytes (target c))) by (done || lia).
  rewrite (slice_here _ (u64_to_le_bytes (timestamp c))) by exact L1.
  rewrite !(slice_skip 8 _ _ (u64_to_le_bytes (timestamp c))) by (exact L1 || (cbn; lia)).
  rewrite (slice_here _ (account_to_bytes (account_id c))) by exact L2.
  rewrite !(slice_skip 15 _ _ (account_to_bytes (account_id c))) by (exact L2 || (cbn; lia)).
  rewrite (slice_here _ (api_key c)) by exact Hk.
  rewrite !(slice_skip 32 _ _ (api_key c)) by (exact Hk || (cbn; lia)).
  rewrite (slice_all _ (signature c)) by exact Hs.
  rewrite account_bytes_inv, !u64_le_roundtrip by done.
  unfold expect_some, mbind, M_bind, mret, M_ret. destruct (decide (signed secret c)) as [Hs'|Hs'].
  - rewrite decide_True by exact Hs'. by destruct c.
  - rewrite decide_False by exact Hs'. done.
Qed.

Lemma decode_ok {S} value secret (s s' : S) c :
  Challenge.decode value secret s = (s', Ok c) → s' = s ∧ well_formed c ∧ signed secret c.
Proof.
  unfold Challenge.decode. destruct (hex_to_bytes _ value) as [l|] eqn:El; [|done].
  apply hex_size in El. unfold CHALLENGE_ENCODED_SIZE in El.
  destruct (account_read_from_bytes _) as [a|]; [|done].
  unfold expect_some, mbind, M_bind, mret, M_ret. case_decide as Es; [|done]. intros [= <- <-].
  split_and!; [done|split|exact Es].
  - apply u64_from_le_bound. rewrite length_slice; lia.
  - apply u64_from_le_bound. rewrite length_slice; lia.
  - apply (length_slice 31 63). lia.
  - apply (length_slice 63 95). lia.
Qed.

Lemma api_key_roundtrip (k : ApiKey) : length k = 32 → ApiKey.decode (ApiKey.encode k) = inr k.
Proof.
  intros Hk. unfold ApiKey.decode, ApiKey.encode. rewrite trim_start_matches_prefix.
  - rewrite base64_inv. by rewrite decide_True.
  - destruct (strip_prefix _ _) as [rest|] eqn:Es; [|done].
    apply strip_prefix_Some in Es. pose proof (base64_alphabet k) as Hb. by rewrite Es in Hb.
Qed.

(** C29: Challenges survive their encoding and cannot be altered. Decoding the text of
    a challenge gives it back if the faucet has signed it and rejects it otherwise;
    whatever text is accepted is a challenge with fields of the right sizes that
    carries the faucet's signature over all of them; and an API key survives its
    encoding. *)
Theorem pow_challenge_roundtrip {S} (secret : bytes) (x : S) :
  (∀ c, well_formed c → Challenge.decode (encode c) secret x =
    (x, if decide (signed secret c) then Ok c else Err ServerSignaturesDoNotMatch)) ∧
  (∀ value y c, Challenge.decode value secret x = (y, Ok c) → y = x ∧ well_formed c ∧ signed secret c) ∧
  (∀ k : ApiKey, length k = 32 → ApiKey.decode (ApiKey.encode k) = inr k).
Proof.
  split_and!; [intros c; apply decode_encode|intros value y c; apply decode_ok|apply api_key_roundtrip].
Qed.

(** ** The cache as a map *)

(** What [submit_challenge] promises, on the map from accounts to challenges. *)
Inductive submitted cfg (c : Challenge) (id : AccountId) (key : ApiKey) (nonce now : N) A :
  res MintRequestError unit → gmap AccountId (N * ApiKey) → Prop :=
| submitted_expired : is_expired c now (challenge_lifetime cfg) = true →
    submitted cfg c id key nonce now A (Err (ExpiredServerTimestamp (timestamp c) now)) A
| submitted_invalid : is_expired c now (challenge_lifetime cfg) = false →
    ¬ (validate_pow c nonce = true ∧ id = account_id c ∧ key = api_key c) →
    submitted cfg c id key nonce now A (Err InvalidPoW) A
| submitted_limited : is_expired c now (challenge_lifetime cfg) = false →
    validate_pow c nonce = true → id = account_id c → key = api_key c → is_Some (A !! id) →
    submitted cfg c id key nonce now A (Err RateLimited) A
| submitted_accepted : is_expired c now (challenge_lifetime cfg) = false →
    validate_pow c nonce = true → id = account_id c → key = api_key c → A !! id = None →
    submitted cfg c id key nonce now A (Ok tt) (<[id := (timestamp c, key)]> A).

Lemma cached_has s A id : cached s A → has_challenge_for_account id s = bool_decide (is_Some (A !! id)).
Proof.
  intros [[Hac _] _ _]. unfold has_challenge_for_account. rewrite Hac. apply bool_decide_ext.
  by rewrite lookup_fmap, fmap_is_Some.
Qed.

Lemma cached_num s A key : cached s A → num_challenges_for_api_key key s = N.of_nat (uses key A).
Proof.
  intros [[_ Hk] _ _]. unfold num_challenges_for_api_key. rewrite Hk. case_decide as E; [by rewrite E|done].
Qed.

Lemma submit_spec cfg secret id key value nonce now s A c : cached s A → (N.of_nat (size A) < U64_MAX)%N →
  Challenge.decode value secret s = (s, Ok c) →
  ∃ s' r A', submit_challenge cfg secret id key value nonce now s = (s', r) ∧
    submitted cfg c id key nonce now A r A' ∧ cached s' A'.
Proof.
  intros Hc Hsz Hd. unfold submit_challenge. rewrite (bind_ok Hd).
  destruct (is_expired c now (challenge_lifetime cfg)) eqn:Hexp.
  { eexists _, _, A. split; [done|]. split; [by constructor|done]. }
  destruct (validate_pow c nonce && bool_decide (id = account_id c) && bool_decide (key = api_key c)) eqn:Hv; cbn [negb].
  2: { eexists _, _, A. split; [done|]. split; [|done]. constructor; [done|]. intros (H1' & H2' & H3').
       rewrite H1', H2', H3', !bool_decide_true in Hv by done. done. }
  apply andb_true_iff in Hv as [[Hv Hid%bool_decide_eq_true]%andb_true_iff Hkey%bool_decide_eq_true].
  rewrite (bind_ok (m := gets (has_challenge_for_account id)) (s := s) eq_refl), (cached_has _ _ _ Hc).
  case_bool_decide as Hl.
  { eexists _, _, A. split; [done|]. split; [by constructor|done]. }
  apply eq_None_not_Some in Hl. subst id key.
  destruct (wp_ok_run _ _ _ (wp_insert_challenge (E := MintRequestError) s A c (λ _ _, False) Hc Hl Hsz))
    as (s' & b & Hr & -> & Hc').
  rewrite (bind_ok Hr). eexists _, _, _. split; [done|]. split; [by constructor|done].
Qed.

(** ** Runs *)

(** A request that was accepted: the clock that it had read, and that of the last
    cleanup before it was accepted. *)
Record Accepted := mk_accepted {
  at_time : N;
  swept_at : N;
  by_account : AccountId;
  with_timestamp : N;
  for_key : ApiKey;
}.

(** The requests accepted so far, in order, and the time of the last cleanup. A
    request may have read the clock at any time before it takes the lock, even before
    the last cleanup; the clock of the cleanups does not run backwards, and the cache
    fits in memory. *)
Inductive serves cfg (secret : bytes) : list Accepted → N → ChallengeCache → Prop :=
| serves_start : serves cfg secret [] 0 empty_cache
| serves_accept log clean s id key value nonce now s' y c :
    serves cfg secret log clean s → (N.of_nat (size (account_ids s)) < U64_MAX)%N →
    Challenge.decode value secret s = (y, Ok c) →
    submit_challenge cfg secret id key value nonce now s = (s', Ok tt) →
    serves cfg secret (log ++ [mk_accepted now clean id (timestamp c) key]) clean s'
| serves_reject log clean s id key value nonce now s' e :
    serves cfg secret log clean s → (N.of_nat (size (account_ids s)) < U64_MAX)%N →
    submit_challenge cfg secret id key value nonce now s = (s', Err e) →
    serves cfg secret log clean s'
| serves_cleanup log clean s now s' :
    serves cfg secret log clean s → (clean ≤ now)%N → (challenge_lifetime cfg ≤ now)%N →
    (cleanup_expired_challenges now (challenge_lifetime cfg) : M _ Empty_set _) s = (s', Ok tt) →
    serves cfg secret log now s'.

(** Every accepted challenge is in the cache or had expired at the last cleanup. *)
Definition remembered cfg (log : list Accepted) (clean : N) A : Prop :=
  Forall (λ x, A !! by_account x = Some (with_timestamp x, for_key x) ∨
    (with_timestamp x + challenge_lifetime cfg < clean)%N) log.

(** An account's next challenge is accepted after a cleanup at which the previous one
    had expired. *)
Definition spaced cfg (log : list Accepted) : Prop :=
  ∀ i j x y, i < j → log !! i = Some x → log !! j = Some y → by_account x = by_account y →
    (with_timestamp x + challenge_lifetime cfg < swept_at y)%N.

Lemma spaced_snoc cfg log z : spaced cfg log →
  Forall (λ x, by_account x = by_account z → (with_timestamp x + challenge_lifetime cfg < swept_at z)%N) log →
  spaced cfg (log ++ [z]).
Proof.
  intros Hs Hall i j x y Hij Hi Hj Hxy. rewrite Forall_lookup in Hall.
  apply lookup_app_Some in Hj as [Hj|[Hj Hz]].
  - rewrite lookup_app_l in Hi by (apply lookup_lt_Some in Hj; lia). by eapply Hs.
  - assert (j = length log) as ->.
    { apply lookup_lt_Some in Hz. cbn in Hz. lia. }
    rewrite Nat.sub_diag in Hz. injection Hz as <-. rewrite lookup_app_l in Hi by done. by eapply Hall.
Qed.

Lemma size_accounts s A : cached s A → size (account_ids s) = size A.
Proof. intros [[Hac _] _ _]. rewrite Hac. apply map_size_fmap. Qed.

Lemma decode_state {S} value secret (x : S) : (Challenge.decode value secret x).1 = x.
Proof.
  unfold Challenge.decode. destruct (hex_to_bytes _ value); [|done].
  destruct (account_read_from_bytes _); [|done]. unfold expect_some, mbind, M_bind, mret, M_ret. by case_decide.
Qed.

Lemma submit_undecoded cfg secret id key value nonce now s y r :
  Challenge.decode value secret s = (y, r) → (∀ c, r ≠ Ok c) →
  (submit_challenge cfg secret id key value nonce now s).1 = s ∧
  ∀ x, (submit_challenge cfg secret id key value nonce now s).2 ≠ Ok x.
Proof.
  intros Hd Hr. assert (y = s) as -> by (by rewrite <- (decode_state value secret s), Hd).
  by apply (bind_not_ok Hd).
Qed.

(** A submission on a cache that represents a map. *)
Lemma submit_run cfg secret id key value nonce now s s' r A : cached s A → (N.of_nat (size A) < U64_MAX)%N →
  submit_challenge cfg secret id key value nonce now s = (s', r) →
  (∃ c A', Challenge.decode value secret s = (s, Ok c) ∧ submitted cfg c id key nonce now A r A' ∧ cached s' A') ∨
  (∀ c, (Challenge.decode value secret s).2 ≠ Ok c) ∧ (∀ x, r ≠ Ok x) ∧ s' = s.
Proof.
  intros Hc Hsz Hr. destruct (Challenge.decode value secret s) as [y rd] eqn:Hd.
  assert (y = s) as -> by (by rewrite <- (decode_state value secret s), Hd).
  assert ((∃ c, rd = Ok c) ∨ ∀ c, rd ≠ Ok c) as [[c ->]|Hrd] by (destruct rd; [left; eauto|right; done..]).
  - left. destruct (submit_spec cfg secret id key value nonce now s A c Hc Hsz Hd) as (s'' & r' & A' & Hr' & Hs & Hc').
    rewrite Hr in Hr'. injection Hr' as <- <-. eauto.
  - right. destruct (submit_undecoded cfg secret id key value nonce now s s rd Hd Hrd) as [H1' H2'].
    rewrite Hr in H1', H2'. done.
Qed.

Lemma submitted_err cfg c id key nonce now A e A' : submitted cfg c id key nonce now A (Err e) A' → A' = A.
Proof. by inversion 1. Qed.

Lemma serves_inv cfg secret log clean s : serves cfg secret log clean s →
  ∃ A, cached s A ∧ remembered cfg log clean A ∧ spaced cfg log.
Proof.
  induction 1 as [|log clean s id key value nonce now s' y c _ (A & Hc & Hrem & Hsp) Hsz Hd Hr
    |log clean s id key value nonce now s' e _ (A & Hc & Hrem & Hsp) Hsz Hr
    |log clean s now s' _ (A & Hc & Hrem & Hsp) Hnow Hlife Hr].
  - exists ∅. split_and!; [apply cached_empty|constructor|intros i j x y _ Hi; by rewrite lookup_nil in Hi].
  - rewrite (size_accounts _ _ Hc) in Hsz.
    assert (y = s) as -> by (by rewrite <- (decode_state value secret s), Hd).
    destruct (submit_spec cfg secret id key value nonce now s A c Hc Hsz Hd) as (s'' & r & A' & Hr' & Hs & Hc').
    rewrite Hr in Hr'. injection Hr' as <- <-. inversion Hs as [| | |_ _ _ _ Hid]; subst.
    exists (<[id := (timestamp c, key)]> A). split; [done|].
    assert (Forall (λ x, by_account x = id → (with_timestamp x + challenge_lifetime cfg < clean)%N) log) as Hold.
    { eapply Forall_impl; [exact Hrem|]. intros x [Hx|Hx] Eid; [|done]. by rewrite Eid, Hid in Hx. }
    split.
    + apply Forall_app. split; [|constructor; [left; cbn; by rewrite lookup_insert_eq|constructor]].
      apply Forall_forall. intros x Hx. unfold remembered in Hrem. rewrite Forall_forall in Hrem, Hold.
      destruct (decide (by_account x = id)) as [Ei|Ei]; [right; cbn; by apply Hold|].
      destruct (Hrem x Hx) as [Hl|Hl]; [left|by right]. by rewrite lookup_insert_ne.
    + by apply spaced_snoc.
  - rewrite (size_accounts _ _ Hc) in Hsz.
    destruct (submit_run _ _ _ _ _ _ _ _ _ _ _ Hc Hsz Hr) as [(c & A' & _ & Hs & Hc')|(_ & _ & ->)]; [|by exists A].
    apply submitted_err in Hs as ->. by exists A.
  - pose proof (wp_run_ok _ _ _ _ _ _ (wp_cleanup (E := Empty_set) s A now (challenge_lifetime cfg) (λ _ _, False) Hc Hlife) Hr) as Hc'.
    eexists. split; [exact Hc'|]. split; [|done]. eapply Forall_impl; [exact Hrem|].
    intros x [Hx|Hx]; [|right; lia].
    destruct (decide (now - challenge_lifetime cfg ≤ with_timestamp x)%N); [left|right; lia].
    by apply lookup_unexpired.
Qed.

(** C27: An account is served again only after its previous challenge has expired, by
    the clock of the last cleanup. In every run of submissions and cleanups, of two
    accepted requests of one account the later one was accepted after a cleanup at
    whose time the earlier one's challenge had expired. So if the later request has
    read the clock at or after that cleanup, no challenge is accepted twice, not even
    for different keys or nonces, and an account is served at most once in the lifetime
    of a challenge. The condition is needed: the server reads the clock before it takes
    the lock of the cache, and a request that a cleanup overtakes in between can have
    its challenge accepted twice ([overtaken_request]). *)
Theorem pow_rate_limit cfg secret log clean s (Hs : serves cfg secret log clean s) :
  ∀ i j x y, i < j → log !! i = Some x → log !! j = Some y → by_account x = by_account y →
    (with_timestamp x + challenge_lifetime cfg < swept_at y)%N ∧
    ((swept_at y ≤ at_time y)%N → (with_timestamp x + challenge_lifetime cfg < at_time y)%N).
Proof.
  destruct (serves_inv _ _ _ _ _ Hs) as (A & _ & _ & Hsp). intros i j x y Hij Hi Hj Hxy.
  pose proof (Hsp i j x y Hij Hi Hj Hxy). split; [done|lia].
Qed.

(** The cache implements a map from accounts to challenges. In every state of
    every run there is such a map that the cache represents: a submission that
    decodes behaves as [submitted] says on the map - [ChallengeAlreadyUsed] is never
    the answer - and one that does not leaves the cache alone; a cleanup from the
    lifetime on never panics and keeps exactly the challenges that have not expired;
    and the number of challenges of a key is the number of accounts that hold one. *)
Theorem pow_cache_refines_map cfg secret log clean s (Hs : serves cfg secret log clean s)
    (Hsz : (N.of_nat (size (account_ids s)) < U64_MAX)%N) :
  ∃ A, cached s A ∧
  (∀ id key value nonce now s' r, submit_challenge cfg secret id key value nonce now s = (s', r) →
    (∃ c A', Challenge.decode value secret s = (s, Ok c) ∧ submitted cfg c id key nonce now A r A' ∧ cached s' A') ∨
    (∀ c, (Challenge.decode value secret s).2 ≠ Ok c) ∧ (∀ x, r ≠ Ok x) ∧ s' = s) ∧
  (∀ now life, (life ≤ now)%N → ∃ s',
    (cleanup_expired_challenges now life : M _ Empty_set _) s = (s', Ok tt) ∧ cached s' (unexpired (now - life) A)) ∧
  (∀ key, num_challenges_for_api_key key s = N.of_nat (uses key A)).
Proof.
  destruct (serves_inv _ _ _ _ _ Hs) as (A & Hc & _ & _). exists A. rewrite (size_accounts _ _ Hc) in Hsz.
  split_and!; [done| | |].
  - intros. by eapply submit_run.
  - intros now life Hl.
    destruct (wp_ok_run _ _ _ (wp_cleanup (E := Empty_set) s A now life (λ _ _, False) Hc Hl)) as (s' & [] & Hr & Hc').
    eauto.
  - intros key. by apply cached_num.
Qed.

(** ** Honest clients *)

(** The difficulty: the left shift drops the bits beyond 64. *)
Definition difficulty cfg (num : N) : N := ((num * 2 ^ Npos (growth_rate cfg)) mod 2 ^ 64) `max` 1.

Lemma shiftr_max b : (b ≤ 64)%N → N.shiftr U64_MAX b = (2 ^ (64 - b) - 1)%N.
Proof.
  intros Hb. unfold U64_MAX. rewrite N.shiftr_div_pow2.
  replace (2 ^ 64)%N with (2 ^ (64 - b) * 2 ^ b)%N by (rewrite <- N.pow_add_r; f_equal; lia).
  assert (0 < 2 ^ b)%N by (apply N.neq_0_lt_0, N.pow_nonzero; lia).
  assert (0 < 2 ^ (64 - b))%N by (apply N.neq_0_lt_0, N.pow_nonzero; lia).
  symmetry. apply (N.div_unique _ _ _ (2 ^ b - 1)); nia.
Qed.

Lemma build_challenge_spec {E} cfg secret id key now s : (baseline cfg < 64)%N → (Npos (growth_rate cfg) < 64)%N →
  (build_challenge cfg secret id key now : M _ E _) s =
    (s, Ok (Challenge.new ((2 ^ (64 - baseline cfg) - 1) / difficulty cfg (num_challenges_for_api_key key s)) now id key secret)).
Proof.
  intros Hb Hg. unfold build_challenge, get_challenge_target, u64_shr, u64_shl.
  rewrite (proj2 (N.ltb_lt _ _) Hb), (proj2 (N.ltb_lt _ _) Hg).
  unfold mbind, M_bind, mret, M_ret, gets. rewrite shiftr_max by lia. by rewrite N.shiftl_mul_pow2.
Qed.

Lemma target_range b d : ((2 ^ (64 - b) - 1) / (d `max` 1) < 2 ^ 64)%N.
Proof.
  assert (2 ^ (64 - b) ≤ 2 ^ 64)%N by (apply N.pow_le_mono_r; lia).
  assert (0 < 2 ^ (64 - b))%N by (apply N.neq_0_lt_0, N.pow_nonzero; lia).
  apply N.Div0.div_lt_upper_bound. nia.
Qed.

(** C28: An honest client is served, if its account has no challenge in the cache. With
    a baseline and a growth rate below 64 (a shift by more overflows) a challenge is
    built in every state of the cache. Its target is the largest one, [2^(64 -
    baseline) - 1], divided by the difficulty. The documented difficulty is the number
    of the key's challenges shifted left by the growth rate, and at least 1: the target
    is that one as long as the shift fits in 64 bits. Beyond, the code drops the high
    bits, so that the target is larger than documented. A client who finds a nonce for
    the challenge and submits both within its lifetime is accepted in every run,
    provided its account has no challenge in the cache: then it is refused, whoever
    asks ([account_is_rate_limited] in the tests). *)
Theorem pow_honest_client cfg secret id key t0 s0 (Hb : (baseline cfg < 64)%N) (Hg : (Npos (growth_rate cfg) < 64)%N)
    (Hkey : length key = 32) (Ht0 : (t0 < 2 ^ 64)%N) :
  ∃ c, (build_challenge cfg secret id key t0 : M _ Empty_set _) s0 = (s0, Ok c) ∧
    target c = ((2 ^ (64 - baseline cfg) - 1) / difficulty cfg (num_challenges_for_api_key key s0))%N ∧
    ((num_challenges_for_api_key key s0 * 2 ^ Npos (growth_rate cfg) < 2 ^ 64)%N →
      target c = ((2 ^ (64 - baseline cfg) - 1) /
        ((num_challenges_for_api_key key s0 * 2 ^ Npos (growth_rate cfg)) `max` 1))%N) ∧
    ∀ log clean s nonce now, serves cfg secret log clean s → (N.of_nat (size (account_ids s)) < U64_MAX)%N →
      (t0 ≤ now ≤ t0 + challenge_lifetime cfg)%N → validate_pow c nonce = true →
      has_challenge_for_account id s = false →
      ∃ s', submit_challenge cfg secret id key (encode c) nonce now s = (s', Ok tt) ∧
        has_challenge_for_account id s' = true.
Proof.
  set (c := Challenge.new ((2 ^ (64 - baseline cfg) - 1) / difficulty cfg (num_challenges_for_api_key key s0)) t0 id key secret).
  exists c. split_and!; [by apply build_challenge_spec|done| |].
  { intros Hsmall. unfold c, difficulty. cbn [target Challenge.new]. by rewrite N.mod_small. }
  intros log clean s nonce now Hs Hsz Hnow Hv Hhas. destruct (serves_inv _ _ _ _ _ Hs) as (A & Hc & _ & _).
  rewrite (size_accounts _ _ Hc) in Hsz. rewrite (cached_has _ _ _ Hc) in Hhas. apply bool_decide_eq_false in Hhas.
  assert (well_formed c) as Hwf by (split; [apply target_range|done|done|apply sha3_size]).
  pose proof (decode_encode secret c s Hwf) as Hd. rewrite decide_True in Hd by done.
  destruct (submit_spec cfg secret id key _ nonce now s A c Hc Hsz Hd) as (s' & r & A' & Hr & Hsub & Hc').
  assert (is_expired c now (challenge_lifetime cfg) = false) as Hexp.
  { unfold is_expired. cbn. rewrite (proj2 (N.leb_le _ _)) by lia. apply N.ltb_ge. lia. }
  exists s'. rewrite Hr, (cached_has _ _ _ Hc').
  assert (¬ ¬ (validate_pow c nonce = true ∧ id = account_id c ∧ key = api_key c)) as Hok by auto.
  clearbody c. inversion Hsub; subst; try congruence; try done.
  split; [done|]. apply bool_decide_eq_true. rewrite lookup_insert_eq. eauto.
Qed.

End pow.
