(* ===== verification/FaucetServer.v ===== *)
(** * The faucet's server

    Model of the request handlers of [bin/faucet/src/server]: [get_pow.rs],
    [get_tokens.rs] and the server's state in [mod.rs], with the amounts of
    [types.rs]. Requests that pass go to the minting task over a bounded channel. *)

From S2P Require Import Prelude.
From S2P Require Import Bytes.
From S2P Require Import External.
From S2P Require Import Challenge.
From S2P Require Import Pow.
Import ApiKey Challenge Pow.

Module AssetOptions.

(** An [AssetAmount] wraps a [u64]; an [AssetOptions] a vector of them. *)
Abbreviation AssetAmount := N.
Abbreviation AssetOptions := (list AssetAmount).

Definition validate (options : AssetOptions) (amount : N) : option AssetAmount :=
  if decide (amount ∈ options) then Some amount else None.

(** [MAX] is [FungibleAsset::MAX_AMOUNT]. *)
Definition new (MAX : N) (options : list N) : N + AssetOptions :=
  match list_find (λ x, (MAX < x)%N) options with
  | Some (_, invalid) => inl invalid
  | None => inr options
  end.

End AssetOptions.

Module FaucetServer.
Import AssetOptions.

(** [crates/../main.rs]: the capacity of the channel to the minting task. *)
Definition REQUESTS_QUEUE_SIZE : nat := 1000.

Section defs.
Context `{!MidenObjects} `{!FaucetObjects}.

Inductive NoteType : Type := Private | Public.

Record MintRequest := mk_mint_request {
  dest_account : AccountId;
  note_type : NoteType;
  asset_amount : AssetAmount;
}.

Record Server := mk_server {
  cache : ChallengeCache;
  (** The channel to the minting task, and whether its receiver is gone. *)
  requests : list MintRequest;
  closed : bool;
}.

Record ServerConfig := mk_server_config {
  pow_config : PoWConfig;
  secret : bytes;
  asset_options : AssetOptions;
  api_keys : list ApiKey;
}.

Implicit Types (srv : Server) (cfg : ServerConfig).

Definition set_cache x srv := mk_server x (requests srv) (closed srv).

Definition set_requests x srv := mk_server (cache srv) x (closed srv).

(** [Server::new]: the secret is hashed. *)
Definition new_config (options : AssetOptions) (pow_secret : string) (pow : PoWConfig) (keys : list ApiKey) : ServerConfig :=
  mk_server_config pow (sha3_256 (string_bytes pow_secret)) options keys.

Definition parse_account (text : string) : option AccountId :=
  if starts_with "0x" text then account_from_hex text else account_from_bech32 text.

(** [get_pow.rs]. *)
Inductive PowRequestError : Type := InvalidAccount | InvalidPowApiKey (text : string).

Record RawPowRequest := mk_raw_pow_request { raw_pow_account_id : string; raw_pow_api_key : option string }.

Definition validate_pow_request (raw : RawPowRequest) : PowRequestError + (AccountId * ApiKey) :=
  match parse_account (raw_pow_account_id raw) with
  | None => inl InvalidAccount
  | Some account_id =>
    match raw_pow_api_key raw with
    | None => inr (account_id, default_key)
    | Some text =>
      match ApiKey.decode text with
      | inr key => inr (account_id, key)
      | inl _ => inl (InvalidPowApiKey text)
      end
    end
  end.

Definition get_pow cfg (raw : RawPowRequest) (current_time : N) : M Server PowRequestError Challenge :=
  match validate_pow_request raw with
  | inl e => throw e
  | inr (account_id, key) =>
    zoom cache set_cache (build_challenge (pow_config cfg) (secret cfg) account_id key current_time)
  end.

(** [get_tokens.rs]. *)
Record RawMintRequest := mk_raw_mint_request {
  raw_account_id : string;
  is_private_note : bool;
  raw_asset_amount : N;
  raw_challenge : option string;
  raw_nonce : option N;
  raw_api_key : option string;
}.

Definition submit_challenge cfg (challenge : string) (nonce : N) (account_id : AccountId) (api_key : ApiKey) (timestamp : N)
  : M Server MintRequestError unit :=
  zoom cache set_cache (Pow.submit_challenge (pow_config cfg) (secret cfg) account_id api_key challenge nonce timestamp).

(** A key that is given must decode and be one the server knows. *)
Definition check_api_key cfg (text : option string) : MintRequestError + option ApiKey :=
  match text with
  | None => inr None
  | Some text =>
    match ApiKey.decode text with
    | inl e => inl e
    | inr key => if decide (key ∈ api_keys cfg) then inr (Some key) else inl (InvalidApiKey (ApiKey.encode key))
    end
  end.

Definition validate_request cfg (raw : RawMintRequest) (now : N) : M Server MintRequestError MintRequest :=
  let note_type := if is_private_note raw then Private else Public in
  match parse_account (raw_account_id raw) with
  | None => throw AccountIdError
  | Some account_id =>
  match AssetOptions.validate (asset_options cfg) (raw_asset_amount raw) with
  | None => throw (AssetAmountError (raw_asset_amount raw))
  | Some amount =>
  match check_api_key cfg (raw_api_key raw) with
  | inl e => throw e
  | inr api_key =>
  match raw_challenge raw, raw_nonce raw with
  | Some challenge_str, Some nonce =>
    _ ← submit_challenge cfg challenge_str nonce account_id (default default_key api_key) now;
    mret (mk_mint_request account_id note_type amount)
  | _, _ => throw MissingPowParameters
  end end end end.

Inductive GetTokenError : Type :=
| InvalidRequest (e : MintRequestError)
| FaucetOverloaded
| FaucetClosed.

(** [try_send] on the channel. *)
Definition try_send (request : MintRequest) : M Server GetTokenError unit :=
  srv ← get;
  if closed srv then throw FaucetClosed else
  if decide (REQUESTS_QUEUE_SIZE ≤ length (requests srv)) then throw FaucetOverloaded else
  modify (set_requests (requests srv ++ [request])).

(** The error is what the event for the client says. *)
Definition get_tokens cfg (raw : RawMintRequest) (now : N) : M Server GetTokenError unit :=
  request ← map_err InvalidRequest (validate_request cfg raw now);
  try_send request.

End defs.

End FaucetServer.
