(* ===== verification/FaucetMint.v ===== *)
(** * The faucet's minting task

    Model of [bin/faucet/src/faucet/mod.rs] with the updates of [updates.rs] and the
    store of [store.rs]: batches of requests become notes of one transaction; the
    account state it leads to is kept, with the previous ones for a rollback. What
    the executor, the provers and the node answer is part of an environment. *)

From Stdlib Require Import Strings.Ascii.
From S2P Require Import Prelude.
From S2P Require Import Bytes.
From S2P Require Import External.
From S2P Require Import Transaction.
From S2P Require Import NtxAccount.
From S2P Require Import Challenge.
From S2P Require Import FaucetServer.
Import FaucetServer.

(** The parts of the protocol library and of its prover clients the task calls. *)
Class MintObjects `{!MidenObjects} `{!NtxObjects} := {
  account_commitment : Account → Digest;
  (** [BasicFungibleFaucet::try_from] and [decimals]. *)
  faucet_decimals : Account → option N;
  FungibleAsset : Type;
  FUNGIBLE_MAX_AMOUNT : N;
  is_faucet_id : AccountId → bool;
  (** [FungibleAsset::new]; [None] is its error. *)
  fungible_new : AccountId → N → option FungibleAsset;
  (** [RpoRandomCoin], which building a note advances. *)
  Coin : Type;
  create_p2id_note : Coin → AccountId → AccountId → FungibleAsset → NoteType → Coin * option Note;
  TransactionArgs : Type;
  ExecutedTransaction : Type;
  executed_delta : ExecutedTransaction → AccountDelta;
  executed_id : ExecutedTransaction → TransactionId;
  (** [Display] of a digest and [parse_hex_string_as_word]. *)
  digest_to_string : Digest → string;
  parse_hex_string_as_word : string → option Digest;
}.

Fixpoint string_forall (f : ascii → bool) (s : string) : bool :=
  match s with EmptyString => true | String c s => f c && string_forall f s end.

Definition is_hex_char (c : ascii) : bool :=
  let n := N_of_ascii c in
  ((48 <=? n) && (n <=? 57) || (97 <=? n) && (n <=? 102) || (n =? 120))%N.

(** Documented behaviour: an asset is created for a faucet and an amount in range; a
    digest is shown as [0x] and lower-case hexadecimal digits, and is parsed back. *)
Class MintLaws `{!MidenObjects} `{!NtxObjects} `{!MintObjects} : Prop := {
  fungible_new_spec id n : is_faucet_id id = true → is_Some (fungible_new id n) ↔ (n ≤ FUNGIBLE_MAX_AMOUNT)%N;
  fungible_max_u64 : (FUNGIBLE_MAX_AMOUNT ≤ U64_MAX)%N;
  digest_text_prefix d : ∃ rest, digest_to_string d = "0x" +:+ rest;
  digest_text_hex d : string_forall is_hex_char (digest_to_string d) = true;
  digest_text_inv d : parse_hex_string_as_word (digest_to_string d) = Some d;
}.

(** ** Reports of errors *)

Module Report.

Section defs.
Context `{!MidenObjects} `{!NtxObjects} `{!MintObjects}.

Definition newline : string := String (ascii_of_N 10) EmptyString.

(** [ErrorReport::as_report] of an error with its chain of sources. *)
Definition as_report (error : string) (sources : list string) : string :=
  foldl (λ report source, report +:+ newline +:+ "caused by: " +:+ source) error sources.

(** [format_opt]. *)
Definition format_opt (d : option Digest) : string :=
  match d with Some d => digest_to_string d | None => "None" end.

(** [Display] of [VerifyTxError::IncorrectAccountInitialCommitment]. *)
Definition incorrect_commitment_message (tx_initial : Digest) (current : option Digest) : string :=
  "transaction's initial state commitment " +:+ digest_to_string tx_initial +:+
  " does not match the account's current value of " +:+ format_opt current.

(** The message of the status an [AddTransactionError] of this kind becomes. *)
Definition incorrect_commitment_status (tx_initial : Digest) (current : option Digest) : StatusClass * string :=
  (status_of_error (VerificationFailed (IncorrectAccountInitialCommitment tx_initial current)),
   as_report "transaction verification failed" [incorrect_commitment_message tx_initial current]).

End defs.

End Report.

Module Mint.

Section defs.
Context `{!MidenObjects} `{!NtxObjects} `{!MintObjects}.

Inductive Code : Type := InvalidArgumentCode | NotFoundCode | OtherCode.

Inductive RpcError : Type := Transport (code : Code) (message : string) | ResponseParsing.

Inductive MintError : Type :=
| ScriptCompilation
| Execution
| Proving
| Submission (e : RpcError)
| NoteBuild.

Inductive FaucetProver : Type := Local | Remote.

Record Faucet := mk_faucet {
  id : AccountId;
  (** The account of [FaucetDataStore]. *)
  faucet_account : Account;
  prior_state : list Account;
  tx_prover : FaucetProver;
  decimals : N;
}.

Implicit Types (f : Faucet).

Definition update_faucet_state a f := mk_faucet (id f) a (prior_state f) (tx_prover f) (decimals f).

Definition set_prior_state l f := mk_faucet (id f) (faucet_account f) l (tx_prover f) (decimals f).

(** [Faucet::load]: the node's state of the account, or that of the file if the node
    does not know it. The file holds one key. *)
Definition load (answer : RpcError + Account) (file_account : Account) (num_keys : nat)
    (remote_url : option string) : option Faucet :=
  account ← match answer with
            | inr account => Some account
            | inl (Transport NotFoundCode _) => Some file_account
            | inl _ => None
            end;
  decimals ← faucet_decimals account;
  if decide (num_keys = 1) then
    Some (mk_faucet (acc_id file_account) account [] (match remote_url with Some _ => Remote | None => Local end) decimals)
  else None.

(** ** Minting *)

(** [P2IdNotes::build]. *)
Definition build_notes (source : AccountId) (decimals : N) (requests : list MintRequest) : M Coin MintError (list Note) :=
  fold_m (λ notes request,
    factor ← u64_pow 10 decimals;
    amount ← u64_mul (asset_amount request) factor;
    asset ← expect_some (fungible_new source amount) "called `Result::unwrap()` on an `Err` value";
    note ← (λ coin, let '(coin, note) := create_p2id_note coin source (dest_account request) asset (note_type request) in
                    (coin, Ok note));
    match note with
    | Some note => mret (notes ++ [note])
    | None => throw NoteBuild
    end) [] requests.

Inductive MintUpdate : Type :=
| Built
| Executed
| Proven
| Submitted
| Minted (note : Note) (block_number : BlockNumber) (tx_id : TransactionId).

Record MintEnv := mk_mint_env {
  coin : Coin;
  compile : list Note → option TransactionArgs;
  execute : Account → TransactionArgs → option ExecutedTransaction;
  prove_local : ExecutedTransaction → option ProvenTransaction;
  prove_remote : ExecutedTransaction → option ProvenTransaction;
  submit : ProvenTransaction → RpcError + BlockNumber;
}.

(** [FaucetProver::prove]: a remote prover that fails is replaced by the local one. *)
Definition prove (env : MintEnv) (prover : FaucetProver) (tx : ExecutedTransaction) : option ProvenTransaction :=
  match prover with
  | Local => prove_local env tx
  | Remote => match prove_remote env tx with Some proven => Some proven | None => prove_local env tx end
  end.

(** [handle_request_batch]. The state is the list of the updates sent to every client. *)
Definition handle_request_batch (env : MintEnv) f (requests : list MintRequest)
  : M (list MintUpdate) MintError (AccountDelta * BlockNumber * list Note * TransactionId) :=
  let send_updates u := modify (λ sent, sent ++ [u]) in
  let or_error {A} (o : option A) e := match o with Some a => mret a | None => throw e end in
  notes ← (λ sent, (sent, (build_notes (id f) (decimals f) requests (coin env)).2));
  tx_args ← or_error (compile env notes) ScriptCompilation;
  _ ← send_updates Built;
  executed ← or_error (execute env (faucet_account f) tx_args) Execution;
  _ ← send_updates Executed;
  tx ← or_error (prove env (tx_prover f) executed) Proving;
  _ ← send_updates Proven;
  block_number ← match submit env tx with inr n => mret n | inl e => throw (Submission e) end;
  _ ← send_updates Submitted;
  mret (executed_delta executed, block_number, notes, executed_id executed).

(** ** The account's state *)

(** [None] is the error of [apply_delta]. *)
Definition update_state {E} (delta : AccountDelta) : M Faucet E (option unit) :=
  f ← get;
  _ ← (if decide (1000 < length (prior_state f)) then modify (set_prior_state (tail (prior_state f))) else mret tt);
  f ← get;
  _ ← modify (set_prior_state (prior_state f ++ [faucet_account f]));
  match apply_delta (faucet_account f) delta with
  | None => mret None
  | Some account => _ ← modify (update_faucet_state account); mret (Some tt)
  end.

Definition parse_desync_error (err : string) : option Digest :=
  onchain_state ← after_once "current value of " err ≫= first_word;
  if eq_ignore_ascii_case onchain_state "none" then Some digest_default
  else parse_hex_string_as_word onchain_state.

(** [Err] is an error that cannot be recovered from. *)
Definition handle_desync (err : string) : M Faucet unit unit :=
  match parse_desync_error err with
  | None => throw tt
  | Some onchain_state =>
    f ← get;
    match list_find (λ state, account_commitment state = onchain_state) (prior_state f) with
    | None => throw tt
    | Some (rollback, state) =>
      _ ← modify (update_faucet_state state);
      modify (set_prior_state (take rollback (prior_state f)))
    end
  end.

Definition error_recovery (err : MintError) : M Faucet unit unit :=
  match err with
  | Submission (Transport InvalidArgumentCode message) =>
    if contains "incorrect initial state commitment" message then handle_desync message else throw tt
  | _ => throw tt
  end.

(** One turn of the loop of [run]: the requests whose clients are gone are dropped. *)
Definition run_batch (env : MintEnv) (buffer : list (MintRequest * bool)) : M Faucet unit unit :=
  let requests := (filter (λ rc, rc.2 = false) buffer).*1 in
  f ← get;
  match (handle_request_batch env f requests []).2 with
  | Ok (delta, _, _, _) =>
    updated ← update_state delta;
    expect_some updated "called `Result::unwrap()` on an `Err` value"
  | Err err => error_recovery err
  | Panic msg => panic msg
  | OutOfFuel => out_of_fuel
  end.

(** What each client is sent: the updates of the batch, and its note. *)
Definition client_events (env : MintEnv) f (requests : list MintRequest) : list (list MintUpdate) :=
  match handle_request_batch env f requests [] with
  | (sent, Ok (_, block_number, notes, tx_id)) =>
    (λ ir, sent ++ match notes !! ir.1 with Some note => [Minted note block_number tx_id] | None => [] end)
      <$> imap pair requests
  | (sent, _) => (λ _, sent) <$> requests
  end.

End defs.

End Mint.
