(* ===== verification/FaucetTheorems.v ===== *)
(** * Theorems about the faucet

    Amounts, rollbacks and the recovery from a rejected transaction. *)

From Stdlib Require Import Strings.Ascii.
From S2P Require Import Prelude.
From S2P Require Import Bytes.
From S2P Require Import External.
From S2P Require Import Transaction.
From S2P Require Import NtxAccount.
From S2P Require Import Challenge.
From S2P Require Import FaucetServer.
From S2P Require Import FaucetMint.
Import FaucetServer Report Mint.

(** ** Searching in strings *)

(** Whether a pattern differs from a text before either ends. *)
Fixpoint mismatch (p s : string) : bool :=
  match p, s with
  | String a p, String b s => if Ascii.eqb a b then mismatch p s else true
  | _, _ => false
  end.

Fixpoint no_match (p s : string) : bool :=
  match s with EmptyString => true | String _ s' => mismatch p s && no_match p s' end.

Lemma mismatch_strip p s rest : mismatch p s = true → strip_prefix p (s +:+ rest) = None.
Proof.
  revert s. induction p as [|a p IH]; intros [|b s]; try done. rewrite append_cons.
  cbn -[Ascii.eqb]. destruct (Ascii.eqb a b); [apply IH|done].
Qed.

Lemma after_once_strip p s : strip_prefix p s = None →
  after_once p s = match s with String _ s => after_once p s | EmptyString => None end.
Proof. intros E. destruct s; cbn [after_once]; by rewrite E. Qed.

Lemma after_once_here p s : after_once p (p +:+ s) = Some s.
Proof. pose proof (strip_prefix_app p s) as E. destruct (p +:+ s); cbn [after_once]; by rewrite E. Qed.

(** A constant text without an occurrence. *)
Lemma after_once_const p s rest : no_match p s = true → after_once p (s +:+ rest) = after_once p rest.
Proof.
  induction s as [|b s IH]; [done|]. cbn [no_match]. intros [Hm Hn]%andb_true_iff.
  rewrite after_once_strip by (by apply mismatch_strip). rewrite append_cons. by apply IH.
Qed.

(** A text that lacks the second character of the pattern. *)
Lemma after_once_skip a b p s rest :
  string_forall (λ c, negb (Ascii.eqb b c)) s = true → strip_prefix (String b p) rest = None →
  after_once (String a (String b p)) (s +:+ rest) = after_once (String a (String b p)) rest.
Proof.
  intros Hs Hr. induction s as [|c s IH]; [done|]. cbn [string_forall] in Hs.
  apply andb_true_iff in Hs as [_ Hs]. rewrite append_cons, after_once_strip; [by apply IH|].
  cbn -[Ascii.eqb]. destruct (Ascii.eqb a c); [|done]. destruct s as [|c' s]; [exact Hr|].
  cbn [string_forall] in Hs. apply andb_true_iff in Hs as [Hc%negb_true_iff _].
  rewrite append_cons. by rewrite Hc.
Qed.

Lemma string_forall_impl (f g : ascii → bool) s :
  (∀ c, f c = true → g c = true) → string_forall f s = true → string_forall g s = true.
Proof.
  intros Hfg. induction s as [|c s IH]; [done|]. cbn. rewrite !andb_true_iff. naive_solver.
Qed.

(** Hexadecimal text lacks the letters [n] and [u] and white space. *)
Lemma hex_char_not c : is_hex_char c = true →
  negb (Ascii.eqb "n" c) = true ∧ negb (Ascii.eqb "u" c) = true ∧ is_whitespace c = false.
Proof.
  destruct c as [b0 b1 b2 b3 b4 b5 b6 b7].
  destruct b0, b1, b2, b3, b4, b5, b6, b7; vm_compute; intros; split_and!; congruence.
Qed.

Lemma first_word_hex s : string_forall is_hex_char s = true → s ≠ EmptyString → first_word s = Some s.
Proof.
  intros Hs. assert (first_word_from s = s) as Hw.
  { induction s as [|c s IH]; [done|]. cbn in *. apply andb_true_iff in Hs as [Hc Hs].
    apply hex_char_not in Hc as (_ & _ & ->). by rewrite IH. }
  destruct s as [|c s]; [done|]. intros _. cbn [first_word]. rewrite Hw.
  cbn in Hs. apply andb_true_iff in Hs as [Hc _]. by apply hex_char_not in Hc as (_ & _ & ->).
Qed.

Section faucet.
Context `{!MidenObjects} `{!NtxObjects} `{!MintObjects} `{!MintLaws}.
Implicit Types (f : Faucet).

(** ** Rejected transactions *)

Lemma digest_text_skip a b p d rest : b = "n"%char ∨ b = "u"%char → strip_prefix (String b p) rest = None →
  after_once (String a (String b p)) (digest_to_string d +:+ rest) = after_once (String a (String b p)) rest.
Proof.
  intros Hb. apply after_once_skip. eapply string_forall_impl; [|apply digest_text_hex].
  intros c Hc%hex_char_not. destruct Hb; subst; naive_solver.
Qed.

Lemma first_word_digest d : first_word (digest_to_string d) = Some (digest_to_string d).
Proof.
  apply first_word_hex; [apply digest_text_hex|]. by destruct (digest_text_prefix d) as [rest ->].
Qed.

Lemma digest_text_not_none d : eq_ignore_ascii_case (digest_to_string d) "none" = false.
Proof. destruct (digest_text_prefix d) as [rest ->]. by apply bool_decide_eq_false. Qed.

(** The message before and after the transaction's commitment. *)
Definition before_digest : string :=
  "transaction verification failed" +:+ newline +:+ "caused by: transaction's initial state commitment ".

Lemma incorrect_status_text tx current :
  incorrect_commitment_status tx current = (InvalidArgument,
    before_digest +:+ (digest_to_string tx +:+
      (" does not match the account's " +:+ ("current value of " +:+ format_opt current)))).
Proof. reflexivity. Qed.

Lemma parse_incorrect tx current :
  parse_desync_error (incorrect_commitment_status tx current).2 = Some (default digest_default current).
Proof.
  rewrite incorrect_status_text. unfold parse_desync_error. cbn [snd].
  rewrite after_once_const, digest_text_skip, after_once_const, after_once_here by (vm_compute; auto).
  cbn [mbind option_bind]. destruct current as [d|]; cbn [format_opt default].
  - rewrite first_word_digest. cbn [mbind option_bind]. rewrite digest_text_not_none. apply digest_text_inv.
  - reflexivity.
Qed.

Lemma contains_incorrect tx current :
  contains "incorrect initial state commitment" (incorrect_commitment_status tx current).2 = false.
Proof.
  rewrite incorrect_status_text. unfold contains. cbn [snd].
  rewrite after_once_const, digest_text_skip, !after_once_const by (vm_compute; auto).
  destruct current as [d|]; [|reflexivity]. cbn [format_opt].
  by rewrite <- (append_empty (digest_to_string d)), digest_text_skip by (vm_compute; auto).
Qed.

(** The faucet never recovers from a rejected account state. The status that the
    block producer answers when a transaction's initial commitment is not the
    account's names the current commitment, and the faucet's parser reads it; but
    the text its error handler looks for is not in the message, so the rollback is
    never tried and the error ends the faucet. *)
Theorem faucet_desync_unrecovered tx current f :
  let '(status, message) := incorrect_commitment_status tx current in
  status = InvalidArgument ∧ parse_desync_error message = Some (default digest_default current) ∧
  error_recovery (Submission (Transport InvalidArgumentCode message)) f = (f, Err tt).
Proof.
  pose proof (parse_incorrect tx current) as Hp. pose proof (contains_incorrect tx current) as Hc.
  unfold incorrect_commitment_status in *. cbn [snd] in *. split_and!; [done|done|].
  cbn [error_recovery]. by rewrite Hc.
Qed.

(** ** Rollback *)

Lemma update_state_run {E} delta f account : apply_delta (faucet_account f) delta = Some account →
  (update_state delta : M _ E _) f =
    (update_faucet_state account (set_prior_state
      ((if decide (1000 < length (prior_state f)) then tail (prior_state f) else prior_state f) ++ [faucet_account f]) f),
     Ok (Some tt)).
Proof.
  intros Ha. unfold update_state, mbind, M_bind, get, modify, mret, M_ret. case_decide; cbn; by rewrite Ha.
Qed.

(** A run of accepted transactions. *)
Inductive updates : Faucet → list AccountDelta → Faucet → Prop :=
| updates_nil f : updates f [] f
| updates_cons f delta f' deltas f'' : (update_state delta : M _ Empty_set _) f = (f', Ok (Some tt)) →
    updates f' deltas f'' → updates f (delta :: deltas) f''.

Lemma update_state_ok f delta f' : (update_state delta : M _ Empty_set _) f = (f', Ok (Some tt)) →
  ∃ account, apply_delta (faucet_account f) delta = Some account ∧
    f' = update_faucet_state account (set_prior_state
      ((if decide (1000 < length (prior_state f)) then tail (prior_state f) else prior_state f) ++ [faucet_account f]) f).
Proof.
  intros Hu. destruct (apply_delta (faucet_account f) delta) as [account|] eqn:Ha.
  - exists account. split; [done|]. rewrite (update_state_run _ _ _ Ha) in Hu. by injection Hu.
  - unfold update_state, mbind, M_bind, get, modify, mret, M_ret in Hu. case_decide; cbn in Hu; by rewrite Ha in Hu.
Qed.

(** The states that are remembered: the oldest ones are dropped beyond 1001. *)
Lemma updates_prior f deltas f' : updates f deltas f' → length (prior_state f) ≤ 1001 → deltas ≠ [] →
  length deltas ≤ 1001 → ∃ account later,
    f' = update_faucet_state account (set_prior_state
      (drop (length (prior_state f) + length deltas - 1001) (prior_state f) ++ faucet_account f :: later) f).
Proof.
  induction 1 as [|f delta f1 deltas f2 Hu Hr IH]; [done|]. intros Hlen _ Hn. cbn in Hn.
  apply update_state_ok in Hu as (account & _ & ->).
  set (kept := if decide (1000 < length (prior_state f)) then tail (prior_state f) else prior_state f) in *.
  assert (length kept ≤ 1000 ∧ ∀ k, k ≤ 1000 → drop (S (length kept) + k - 1001) kept =
    drop (length (prior_state f) + S k - 1001) (prior_state f)) as [Hk Hdrop].
  { unfold kept. case_decide; [|split; [lia|]; intros k _; f_equal; lia].
    destruct (prior_state f) as [|x l]; [cbn in *; lia|]. cbn in *. split; [lia|]. intros k _.
    replace (length l + S k - 1000) with (S (length l + k - 1000)) by lia. done. }
  destruct deltas as [|delta' deltas].
  - inversion Hr; subst. exists account, []. cbn [length]. rewrite <- (Hdrop 0) by lia.
    replace (S (length kept) + 0 - 1001) with 0 by lia. rewrite drop_0. reflexivity.
  - destruct IH as (account' & later & ->); [cbn; rewrite length_app; cbn; lia|done|cbn in *; lia|].
    exists account', (account :: later). cbn [prior_state faucet_account update_faucet_state set_prior_state].
    rewrite length_app. cbn [length] in *. rewrite drop_app_le by lia.
    replace (length kept + 1) with (S (length kept)) by lia. rewrite Hdrop by lia.
    rewrite <- app_assoc. done.
Qed.

Lemma updates_bound f deltas f' : updates f deltas f' → length (prior_state f) ≤ 1001 → length (prior_state f') ≤ 1001.
Proof.
  induction 1 as [|f delta f1 deltas f2 Hu Hr IH]; [done|]. intros Hlen. apply IH.
  apply update_state_ok in Hu as (account & _ & ->). cbn. rewrite length_app. cbn.
  case_decide; destruct (prior_state f); cbn in *; lia.
Qed.

(** C30: A rollback undoes the transactions that the node dropped, up to a thousand and
    one of them. The comment says that the last 1000 states are stored; the code drops
    the oldest only when there are more than 1000, so that it keeps 1001, and the list
    never grows beyond that. After at least one and at most 1001 accepted transactions,
    a message that names the commitment of the state before them restores that state,
    with the older states that are still remembered, and so, if none was dropped in
    between, restores the faucet to exactly what it was. The commitment must not be
    that of a remembered older state as well, in which case that one is restored; a
    message whose commitment is not that of a remembered state is an error and changes
    nothing. This is about [handle_desync]: its caller [error_recovery] does not
    recognise the message that the block producer sends ([faucet_desync_unrecovered]). *)
Theorem faucet_rollback f deltas f' err (Hu : updates f deltas f') (Hb : length (prior_state f) ≤ 1001) :
  let dropped := length (prior_state f) + length deltas - 1001 in
  length (prior_state f') ≤ 1001 ∧
  (deltas ≠ [] → length deltas ≤ 1001 →
   parse_desync_error err = Some (account_commitment (faucet_account f)) →
   account_commitment (faucet_account f) ∉ account_commitment <$> drop dropped (prior_state f) →
   handle_desync err f' = (set_prior_state (drop dropped (prior_state f)) f, Ok tt) ∧
   (length (prior_state f) + length deltas ≤ 1001 → handle_desync err f' = (f, Ok tt))) ∧
  (∀ commitment, parse_desync_error err = Some commitment →
   commitment ∉ account_commitment <$> prior_state f' → handle_desync err f' = (f', Err tt)).
Proof.
  intros dropped. split_and!; [by eapply updates_bound| |].
  - intros Hne Hlen Hp Hnew.
    destruct (updates_prior _ _ _ Hu Hb Hne Hlen) as (account & later & ->). fold dropped.
    assert (handle_desync err (update_faucet_state account
      (set_prior_state (drop dropped (prior_state f) ++ faucet_account f :: later) f)) =
      (set_prior_state (drop dropped (prior_state f)) f, Ok tt)) as ->.
    { unfold handle_desync. rewrite Hp. unfold mbind, M_bind, get. cbn [prior_state update_faucet_state set_prior_state].
      assert (list_find (λ state, account_commitment state = account_commitment (faucet_account f))
        (drop dropped (prior_state f) ++ faucet_account f :: later) =
        Some (length (drop dropped (prior_state f)), faucet_account f)) as ->.
      { apply list_find_Some. rewrite lookup_app_r, Nat.sub_diag by lia. split_and!; [done|done|].
        intros j y Hj Hjl Heq. rewrite lookup_app_l in Hj by done. destruct Hnew. rewrite <- Heq.
        apply list_elem_of_fmap. exists y. split; [done|]. by eapply list_elem_of_lookup_2. }
      unfold modify, mret, M_ret. cbn. by rewrite take_app_length. }
    split; [done|]. intros Hcap. unfold dropped. replace (_ - 1001) with 0 by lia. by destruct f.
  - intros commitment Hp Hnew. unfold handle_desync. rewrite Hp. unfold mbind, M_bind, get.
    assert (list_find (λ state, account_commitment state = commitment) (prior_state f') = None) as ->; [|done].
    apply list_find_None, Forall_forall. intros x Hx Heq. apply Hnew. rewrite <- Heq. by apply list_elem_of_fmap_2.
Qed.

(** ** Amounts *)

Definition mintable (decimals : N) (request : MintRequest) : Prop :=
  (10 ^ decimals ≤ U64_MAX)%N ∧ (asset_amount request * 10 ^ decimals ≤ FUNGIBLE_MAX_AMOUNT)%N.

Lemma wp_fungible_new source n msg (c : Coin) (Q : Coin → FungibleAsset → Prop) (X : Coin → MintError → Prop) :
  is_faucet_id source = true → (n ≤ FUNGIBLE_MAX_AMOUNT)%N → (∀ asset, Q c asset) →
  wp (expect_some (fungible_new source n) msg) c Q X.
Proof. intros Hs [asset Ha]%(fungible_new_spec _ _ Hs) HQ. by eapply wp_expect_some. Qed.

Lemma wp_build_p2id_notes source decimals requests (c : Coin) :
  is_faucet_id source = true → Forall (mintable decimals) requests →
  wp (build_notes source decimals requests) c (λ _ notes, length notes = length requests) (λ _ e, e = NoteBuild).
Proof.
  intros Hs Hall. pose proof fungible_max_u64 as Hmax. unfold build_notes.
  apply (wp_fold_m (λ pre _ notes, length notes = length pre)); [done|].
  intros pre request rest c' notes -> Hl. apply Forall_app in Hall as [_ [[Hp Hm] _]%Forall_cons].
  unfold u64_pow, u64_mul. rewrite (proj2 (N.leb_le _ _) Hp). wp_steps.
  rewrite (proj2 (N.leb_le (_ * _) _)) by lia. wp_steps. apply wp_fungible_new; [done|done|]. intros asset.
  wp_steps. rewrite wp_unfold. destruct (create_p2id_note _ _ _ _ _) as [c'' [note|]]; wp_steps; [|done].
  rewrite !length_app. cbn. lia.
Qed.

(** Which requests can be minted. If every amount, scaled by the decimals of the
    token, is within the network's limit, building the notes never panics and gives
    one note per request or the error of the note library; a request beyond the limit
    panics, and with it the faucet. The check of the configured options guarantees
    the first case only for a token without decimals. *)
Theorem faucet_mint_amounts source decimals (Hs : is_faucet_id source = true) :
  (∀ requests c, Forall (mintable decimals) requests → ∃ c' r,
    build_notes source decimals requests c = (c', r) ∧
    (r = Err NoteBuild ∨ ∃ notes, r = Ok notes ∧ length notes = length requests)) ∧
  (∀ request rest c, ¬ mintable decimals request →
    ∃ msg, (build_notes source decimals (request :: rest) c).2 = Panic msg) ∧
  (∀ options amounts request, AssetOptions.new FUNGIBLE_MAX_AMOUNT options = inr amounts →
    AssetOptions.validate amounts (asset_amount request) = Some (asset_amount request) → mintable 0 request).
Proof.
  split_and!.
  - intros requests c Hall. pose proof (wp_build_p2id_notes source decimals requests c Hs Hall) as Hwp.
    rewrite wp_unfold in Hwp. destruct (build_notes _ _ _ c) as [c' [notes|e|msg|]]; [| |done|done].
    + exists c', (Ok notes). split; [done|]. right. by exists notes.
    + subst. by exists c', (Err NoteBuild); auto.
  - intros request rest c Hnot. unfold build_notes. cbn [fold_m]. unfold mbind, M_bind, u64_pow, u64_mul.
    destruct (10 ^ decimals <=? U64_MAX)%N eqn:Hp; [|eexists; cbn; done]. cbn [mret M_ret].
    destruct (asset_amount request * 10 ^ decimals <=? U64_MAX)%N eqn:Hm; unfold mret, M_ret; cbn [snd]; [|eauto].
    destruct (fungible_new source _) as [asset|] eqn:Ha; [|cbn; eauto].
    destruct Hnot. split; [by apply N.leb_le|]. apply (fungible_new_spec _ _ Hs). eauto.
  - intros options amounts request Hnew Hv. unfold AssetOptions.new in Hnew.
    destruct (list_find _ options) as [[]|] eqn:Hf; [done|]. injection Hnew as <-.
    unfold AssetOptions.validate in Hv. case_decide as Hin; [|done].
    apply list_find_None in Hf. rewrite Forall_forall in Hf. apply Hf, N.nlt_ge in Hin.
    split; [vm_compute; done|]. by rewrite N.mul_1_r.
Qed.

(** ** Updates of clients *)

(** The updates are sent in order, up to the stage that fails. *)
Lemma batch_updates env f requests : ∃ n,
  (handle_request_batch env f requests []).1 = take n [Built; Executed; Proven; Submitted].
Proof.
  unfold handle_request_batch, mbind, M_bind, mret, M_ret, throw, modify.
  destruct (build_notes _ _ requests (coin env)) as [c' [notes|e|msg|]]; cbn; try by exists 0.
  destruct (compile env notes) as [args|]; cbn; [|by exists 0].
  destruct (execute env _ args) as [executed|]; cbn; [|by exists 1].
  destruct (prove env _ executed) as [tx|]; cbn; [|by exists 2].
  destruct (submit env tx) as [e|n]; cbn; [by exists 3|by exists 4].
Qed.

(** The five slots of a client's channel are enough: the minting task never waits for
    a client. *)
Lemma client_updates_fit env f requests : Forall (λ events, length events ≤ 5) (client_events env f requests).
Proof.
  unfold client_events. destruct (batch_updates env f requests) as [n Hn].
  destruct (handle_request_batch env f requests []) as [sent r]. cbn in Hn.
  assert (length sent ≤ 4) as Hsent by (subst; rewrite length_take; cbn; lia).
  destruct r as [[[[delta bn] notes] tx]|e|msg|]; apply Forall_fmap, Forall_forall; intros x _; cbn; try lia.
  rewrite length_app. destruct (notes !! x.1); cbn; lia.
Qed.

End faucet.
