(* ===== verification/StoreObjects.v ===== *)
(** * The protocol library as the store uses it

    Blocks, headers, note metadata and account contents of [miden_objects], as an
    interface on top of [MidenObjects] and [NtxObjects]. Blobs of the database are
    the values they serialise. *)

From S2P Require Import Prelude.
From S2P Require Import External.
From S2P Require Import NtxAccount.

(** A slot of an account's storage. *)
Inductive StorageSlot (Word StorageMap : Type) : Type :=
| SlotValue (value : Word)
| SlotMap (map : StorageMap).
Arguments SlotValue {_ _}.
Arguments SlotMap {_ _}.

(** An asset of an account's vault. *)
Inductive AssetView (FaucetId NonFungible : Type) : Type :=
| Fungible (faucet : FaucetId) (amount : N)
| NonFungible (asset : NonFungible).
Arguments Fungible {_ _}.
Arguments NonFungible {_ _}.

Class StoreObjects `{!MidenObjects} `{!NtxObjects} := {
  digest_countable :: Countable Digest;

  (** Block headers. *)
  header_commitment : BlockHeader → Digest;
  header_prev_block_commitment : BlockHeader → Digest;
  header_tx_commitment : BlockHeader → Digest;
  header_chain_commitment : BlockHeader → Digest;
  header_nullifier_root : BlockHeader → Digest;
  header_account_root : BlockHeader → Digest;
  header_note_root : BlockHeader → Digest;

  (** Accounts. *)
  Word : Type;
  StorageMap : Type;
  NonFungibleAsset : Type;
  asset_eq :: EqDecision NonFungibleAsset;
  asset_countable :: Countable NonFungibleAsset;
  prefix_u32 : NetworkAccountPrefix → N;
  acc_commitment : Account → Digest;
  acc_nonce : Account → N;
  acc_slots : Account → list (StorageSlot Word StorageMap);
  acc_assets : Account → list (AssetView AccountId NonFungibleAsset);
  (** The entries of a [StorageMap] as a [StorageMapDelta]. *)
  map_delta_of : StorageMap → list (Digest * Word);
  (** [AccountStorageDelta::from_parts], [FungibleAssetDelta::new] and
      [AccountDelta::new]; [None] is their error. [true] removes an asset. *)
  delta_new : AccountId → gmap N Word → gmap N (list (Digest * Word)) →
    gmap AccountId Z → gmap NonFungibleAsset bool → N → option AccountDelta;
  delta_nonce : AccountDelta → N;
  delta_values : AccountDelta → list (N * Word);
  delta_maps : AccountDelta → list (N * list (Digest * Word));
  delta_fungible : AccountDelta → list (AccountId * Z);
  delta_non_fungible : AccountDelta → list (NonFungibleAsset * bool);
  (** [NonFungibleAssetDelta::add] and [remove]. *)
  non_fungible_add : gmap NonFungibleAsset bool → NonFungibleAsset → option (gmap NonFungibleAsset bool);
  non_fungible_remove : gmap NonFungibleAsset bool → NonFungibleAsset → option (gmap NonFungibleAsset bool);

  (** Account updates of a block. *)
  BlockAccountUpdate : Type;
  update_id : BlockAccountUpdate → AccountId;
  update_commitment : BlockAccountUpdate → Digest;
  update_details : BlockAccountUpdate → AccountUpdateDetails;

  (** Note metadata. The conversions from the integers of the database fail. *)
  NoteMetadata : Type;
  NoteType : Type;
  NoteExecutionHint : Type;
  metadata_note_type : NoteMetadata → NoteType;
  metadata_sender : NoteMetadata → AccountId;
  metadata_tag : NoteMetadata → N;
  metadata_aux : NoteMetadata → N;
  metadata_hint : NoteMetadata → NoteExecutionHint;
  note_type_u8 : NoteType → N;
  note_type_from : N → option NoteType;
  hint_u64 : NoteExecutionHint → N;
  hint_from : N → option NoteExecutionHint;
  (** The execution mode of a tag: 0 for [Network], 1 for [Local]. *)
  tag_execution_mode : N → N;
  (** Whether an integer is a field element. *)
  is_felt : N → bool;
  metadata_new : AccountId → NoteType → N → NoteExecutionHint → N → option NoteMetadata;

  (** Note contents. *)
  NoteAssets : Type;
  NoteInputs : Type;
  NoteScript : Type;
  NoteDetails : Type;
  script_root : NoteScript → Digest;
  details_assets : NoteDetails → NoteAssets;
  details_inputs : NoteDetails → NoteInputs;
  details_script : NoteDetails → NoteScript;
  details_serial_num : NoteDetails → Word;
  details_new : NoteAssets → Word → NoteScript → NoteInputs → NoteDetails;
  details_of : Note → NoteDetails;

  (** Output notes. *)
  MerklePath : Type;
  (** The batch of a note and its place in it. *)
  BlockNoteIndex : Type;
  batch_idx : BlockNoteIndex → N;
  note_idx_in_batch : BlockNoteIndex → N;
  output_note_is_partial : OutputNote → bool;
  output_note_metadata : OutputNote → NoteMetadata;
  (** [BlockNoteIndex::new]; [None] when out of range. *)
  note_index_new : N → N → option BlockNoteIndex;
  leaf_index_value : BlockNoteIndex → N;

  (** The 16 high bits of a nullifier. *)
  nullifier_prefix : Nullifier → N;

  (** Blocks. *)
  ProvenBlock : Type;
  Bytes : Type;
  block_bytes : ProvenBlock → Bytes;
  block_header : ProvenBlock → BlockHeader;
  block_commitment : ProvenBlock → Digest;
  block_updated_accounts : ProvenBlock → list BlockAccountUpdate;
  block_created_nullifiers : ProvenBlock → list Nullifier;
  block_transactions : ProvenBlock → list (TransactionId * AccountId);
  transactions_commitment : list (TransactionId * AccountId) → Digest;
  block_output_notes : ProvenBlock → list (BlockNoteIndex * OutputNote);
  (** [build_output_note_tree]: its root and the paths in it. *)
  block_note_root : ProvenBlock → Digest;
  block_note_path : ProvenBlock → BlockNoteIndex → MerklePath;
}.

(** Documented behaviour: a block's commitment is its header's, the conversions of
    metadata are inverse to its accessors, and the columns of a note's details
    rebuild them. *)
Class StoreLaws `{!MidenObjects} `{!NtxObjects} `{!StoreObjects} : Prop := {
  block_commitment_spec b : block_commitment b = header_commitment (block_header b);
  note_type_inv t : note_type_from (note_type_u8 t) = Some t;
  note_type_range t : (1 ≤ note_type_u8 t ≤ 3)%N;
  hint_inv h : hint_from (hint_u64 h) = Some h;
  hint_range h : (hint_u64 h < 2 ^ 64)%N;
  tag_range m : (metadata_tag m < 2 ^ 32)%N;
  mode_range t : (tag_execution_mode t ≤ 1)%N;
  aux_felt m : is_felt (metadata_aux m) = true;
  felt_range n : is_felt n = true → (n < 2 ^ 64)%N;
  metadata_inv m :
    metadata_new (metadata_sender m) (metadata_note_type m) (metadata_tag m) (metadata_hint m) (metadata_aux m) = Some m;
  details_inv d : details_new (details_assets d) (details_serial_num d) (details_script d) (details_inputs d) = d;
  script_root_inj s s' : script_root s = script_root s' → s = s';
  note_index_inv i : note_index_new (batch_idx i) (note_idx_in_batch i) = Some i;
  note_index_range i : (batch_idx i < 2 ^ 32)%N ∧ (note_idx_in_batch i < 2 ^ 32)%N;
  prefix_range n : (nullifier_prefix n < 2 ^ 16)%N;
}.
