(* ===== verification/BlockStore.v ===== *)
(** * The files of the block store

    Model of [crates/store/src/blocks.rs] on a file system of directories and files.
    [StoreState.v] takes the block store to be a map from block numbers to the bytes
    of the blocks; the theorem of this file shows that the files are such a map. *)

From S2P Require Import Prelude.
From S2P Require Import Bytes.
From S2P Require Import External.

Module BlockStore.

Section defs.
(** What a block's file holds. *)
Context {A : Type}.

Inductive IoError : Type :=
| AlreadyExists
| NotFound
| NotADirectory
| OtherIo (code : N).

Record Fs := mk_fs {
  dirs : gset string;
  files : gmap string A;
}.

Definition over_dirs f fs := mk_fs (f (dirs fs)) (files fs).

Definition over_files f fs := mk_fs (dirs fs) (f (files fs)).

Record BlockStore := mk_block_store { store_dir : string }.

Abbreviation FM := (M Fs IoError).

(** How the file system fails: creating a directory, and writing a file, with what the
    file holds after that. *)
Record IoFaults := mk_io_faults {
  fault_create : option IoError;
  fault_write : option (IoError * option A);
}.

Definition no_io_faults : IoFaults := mk_io_faults None None.

Definition io_fault (fault : option IoError) : FM unit :=
  match fault with Some e => throw e | None => mret tt end.

(** [Path::join] with a relative name. *)
Definition join (dir name : string) : string := dir +:+ "/" +:+ name.

(** [std::fs::create_dir] *)
Definition create_dir (faults : IoFaults) (dir : string) : FM unit :=
  _ ← io_fault (fault_create faults);
  fs ← get;
  if decide (dir ∈ dirs fs ∨ is_Some (files fs !! dir)) then throw AlreadyExists
  else modify (over_dirs (λ d, {[dir]} ∪ d)).

(** [create_dir_all] for a directory of the store's directory. *)
Definition create_dir_all (faults : IoFaults) (parent dir : string) : FM unit :=
  _ ← io_fault (fault_create faults);
  modify (over_dirs (λ d, {[dir]} ∪ ({[parent]} ∪ d))).

(** [write] in a directory. *)
Definition write (faults : IoFaults) (dir path : string) (data : A) : FM unit :=
  fs ← get;
  if decide (dir ∉ dirs fs) then throw NotFound else
  match fault_write faults with
  | Some (e, content) =>
    _ ← modify (over_files (λ m, match content with Some data => <[path := data]> m | None => m end));
    throw e
  | None => modify (over_files (λ m, <[path := data]> m))
  end.

Implicit Types (b : BlockStore) (block_num : BlockNumber).

Definition epoch_path b block_num : string :=
  join (store_dir b) (hex_digits false 4 (N.shiftr block_num 16)).

Definition block_path b block_num : string :=
  join (epoch_path b block_num) ("block_" +:+ hex_digits false 8 block_num +:+ ".dat").

(** The parent of a block's path is the directory of its epoch. *)
Definition epoch_block_path b block_num : string * string := (epoch_path b block_num, block_path b block_num).

Definition save_block (faults : IoFaults) b block_num (data : A) : FM unit :=
  let '(epoch_path, block_path) := epoch_block_path b block_num in
  fs ← get;
  _ ← (if decide (epoch_path ∉ dirs fs) then create_dir_all faults (store_dir b) epoch_path else mret tt);
  write faults epoch_path block_path data.

(** [save_block_blocking] is the same without waiting. *)
Definition save_block_blocking := save_block.

(** [fault] is an error of the file system other than that the file is missing. *)
Definition load_block (fault : option IoError) b block_num : FM (option A) :=
  _ ← io_fault fault;
  fs ← get;
  mret (files fs !! block_path b block_num).

Definition bootstrap (faults : IoFaults) (store_dir : string) (genesis : A) : FM BlockStore :=
  _ ← create_dir faults store_dir;
  let block_store := mk_block_store store_dir in
  _ ← save_block_blocking faults block_store 0%N genesis;
  mret block_store.

Definition load (store_dir : string) : FM BlockStore :=
  fs ← get;
  if decide (store_dir ∈ dirs fs) then mret (mk_block_store store_dir)
  else if decide (is_Some (files fs !! store_dir)) then throw NotADirectory
  else throw NotFound.

End defs.

Arguments Fs A : clear implicits.
Arguments IoFaults A : clear implicits.

End BlockStore.

(** ** The files are a map *)

Import BlockStore.

Lemma append_char_inj s t a b : s +:+ String a "" = t +:+ String b "" → s = t ∧ a = b.
Proof.
  revert t. induction s as [|x s IH]; intros [|y t]; rewrite ?append_cons.
  - by intros [= ->].
  - intros [= _ Ht]. by destruct t.
  - intros [= _ Hs]. by destruct s.
  - intros [= -> [-> ->]%IH]. done.
Qed.

Lemma append_inj_l s t u : s +:+ t = s +:+ u → t = u.
Proof. induction s as [|x s IH]; [done|]. rewrite !append_cons. intros [= Ht]. by apply IH. Qed.

Lemma hex_digit_inj upper n m : (n < 16)%N → (m < 16)%N → hex_digit upper n = hex_digit upper m → n = m.
Proof.
  intros Hn Hm.
  assert (∀ k, (k < 16)%N → k ∈ N.of_nat <$> seq 0 16) as Hin.
  { intros k Hk. apply list_elem_of_fmap. exists (N.to_nat k). split; [lia|]. apply elem_of_seq. lia. }
  assert (Forall (λ n, Forall (λ m, hex_digit upper n = hex_digit upper m → n = m) (N.of_nat <$> seq 0 16))
    (N.of_nat <$> seq 0 16)) as Hall by (destruct upper; repeat constructor; done).
  pose proof (proj1 (Forall_forall _ _) Hall n (Hin n Hn)) as Hrow. by apply (proj1 (Forall_forall _ _) Hrow m (Hin m Hm)).
Qed.

Lemma hex_digits_inj upper len n m :
  (n < 16 ^ N.of_nat len)%N → (m < 16 ^ N.of_nat len)%N → hex_digits upper len n = hex_digits upper len m → n = m.
Proof.
  revert n m. induction len as [|len IH]; intros n m Hn Hm; [cbn in Hn, Hm; lia|].
  rewrite Nat2N.inj_succ, N.pow_succ_r' in Hn, Hm. cbn [hex_digits]. intros [H1 H2]%append_char_inj.
  apply hex_digit_inj in H2; [|apply N.mod_lt; lia..].
  apply IH in H1; [|apply N.Div0.div_lt_upper_bound; lia..].
  rewrite (N.Div0.div_mod n 16), (N.Div0.div_mod m 16). congruence.
Qed.

Section theorems.
Context {A : Type}.
Implicit Types (fs : Fs A) (b : BlockStore) (m : gmap BlockNumber A).

(** The files of the blocks, whose numbers are 32 bits wide. *)
Definition holds fs b m : Prop :=
  store_dir b ∈ dirs fs ∧ (∀ n, is_Some (m !! n) → (n < 2 ^ 32)%N) ∧
  ∀ n, (n < 2 ^ 32)%N → files fs !! block_path b n = m !! n.

Lemma string_app_length s t : String.length (s +:+ t) = String.length s + String.length t.
Proof. induction s as [|x s IH]; [done|]. rewrite append_cons. cbn. by rewrite IH. Qed.

Lemma hex_digits_length upper len n : String.length (hex_digits upper len n) = len.
Proof. revert n. induction len as [|len IH]; intros n; [done|]. cbn [hex_digits]. rewrite string_app_length, IH. cbn. lia. Qed.

Lemma append_inj_r s s' t : s +:+ t = s' +:+ t → s = s'.
Proof.
  revert s'. induction s as [|x s IH]; intros [|y s'] Heq; [done| | |].
  - apply (f_equal String.length) in Heq. rewrite !string_app_length in Heq. cbn in Heq. lia.
  - apply (f_equal String.length) in Heq. rewrite !string_app_length in Heq. cbn in Heq. lia.
  - rewrite !append_cons in Heq. injection Heq as -> Heq. f_equal. by apply IH.
Qed.

Lemma append_inj_len s s' t t' : String.length s = String.length s' → s +:+ t = s' +:+ t' → s = s' ∧ t = t'.
Proof.
  revert s'. induction s as [|x s IH]; intros [|y s']; [done..|]. cbn. intros [= Hlen]. rewrite !append_cons.
  intros [= -> Heq]. by destruct (IH _ Hlen Heq) as [-> ->].
Qed.

Lemma block_path_inj b n n' : (n < 2 ^ 32)%N → (n' < 2 ^ 32)%N → block_path b n = block_path b n' → n = n'.
Proof.
  intros Hn Hn'. unfold block_path, epoch_path, join. rewrite !append_assoc. intros Heq%append_inj_l%append_inj_l.
  apply append_inj_len in Heq as [_ Heq%append_inj_l%append_inj_l%append_inj_r]; [|by rewrite !hex_digits_length].
  by apply hex_digits_inj in Heq.
Qed.

(** Saving a block, without errors and with them. *)
Lemma wp_save_block faults b n data fs m :
  holds fs b m → (n < 2 ^ 32)%N →
  wp (save_block faults b n data) fs (λ fs' _, holds fs' b (<[n := data]> m) ∧ fault_write faults = None)
    (λ fs' _, (fault_create faults ≠ None ∨ fault_write faults ≠ None) ∧ ∃ m', holds fs' b m' ∧ delete n m' = delete n m ∧
      ∀ content, m' !! n = Some content → m !! n = Some content ∨ ∃ e, fault_write faults = Some (e, Some content)).
Proof.
  intros (Hdir & Hbound & Hfiles) Hn.
  assert (∀ fs' data', dirs fs ⊆ dirs fs' → files fs' = files fs →
    holds (over_files (λ f, <[block_path b n := data']> f) fs') b (<[n := data']> m)) as Hwrite.
  { intros fs' data' Hd Hf. split_and!; [by apply Hd| |].
    - intros n' [x Hx]. apply lookup_insert_Some in Hx as [[<- _]|[_ Hx]]; [done|]. apply Hbound. eauto.
    - intros n' Hn'. cbn. rewrite Hf. destruct (decide (n = n')) as [<-|Hne].
      + by rewrite !lookup_insert_eq.
      + rewrite !lookup_insert_ne; [by apply Hfiles|done|]. intros Heq. by apply block_path_inj in Heq. }
  assert (∀ fs', dirs fs ⊆ dirs fs' → files fs' = files fs → holds fs' b m) as Hkeep.
  { intros fs' Hd Hf. split_and!; [by apply Hd|done|]. intros n' Hn'. rewrite Hf. by apply Hfiles. }
  assert (∀ fs', dirs fs ⊆ dirs fs' → files fs' = files fs → epoch_path b n ∈ dirs fs' →
    wp (write faults (epoch_path b n) (block_path b n) data) fs'
      (λ fs' _, holds fs' b (<[n := data]> m) ∧ fault_write faults = None)
      (λ fs' _, (fault_create faults ≠ None ∨ fault_write faults ≠ None) ∧ ∃ m', holds fs' b m' ∧ delete n m' = delete n m ∧
        ∀ content, m' !! n = Some content → m !! n = Some content ∨ ∃ e, fault_write faults = Some (e, Some content))) as Hw.
  { intros fs' Hd Hf Hin. unfold write. wp_steps. rewrite decide_False by tauto.
    destruct (fault_write faults) as [[e [content|]]|]; wp_steps.
    - split; [by right|]. exists (<[n := content]> m). split_and!; [by apply Hwrite|by rewrite delete_insert_eq|].
      intros c. rewrite lookup_insert_eq. intros [= <-]. eauto.
    - split; [by right|]. exists m. split_and!; [by apply Hkeep|done|by left].
    - split; [by apply Hwrite|done]. }
  unfold save_block. cbn. wp_steps. case_decide as Hin; wp_steps.
  - unfold create_dir_all, io_fault. wp_steps. destruct (fault_create faults); wp_steps.
    + split; [by left|]. exists m. split_and!; [by apply Hkeep|done|by left].
    + apply Hw; cbn; [set_solver|done|set_solver].
  - by apply Hw.
Qed.

Lemma wp_bootstrap faults dir genesis fs :
  dir ∉ dirs fs → files fs = ∅ →
  wp (bootstrap faults dir genesis) fs (λ fs' b, b = mk_block_store dir ∧ holds fs' b {[0%N := genesis]})
    (λ _ _, fault_create faults ≠ None ∨ fault_write faults ≠ None).
Proof.
  intros Hdir Hfiles. unfold bootstrap, create_dir, io_fault. wp_steps.
  destruct (fault_create faults) eqn:Hc; wp_steps; [by left|].
  rewrite decide_False by (rewrite Hfiles, lookup_empty; intros [?|[? ?]]; done). wp_steps.
  assert (holds (over_dirs (λ d, {[dir]} ∪ d) fs) (mk_block_store dir) ∅) as Hh.
  { split_and!; cbn; [set_solver|by intros n []|]. intros n _. by rewrite Hfiles, !lookup_empty. }
  eapply wp_mono; [by apply (wp_save_block faults _ 0%N genesis _ ∅ Hh)| |].
  - intros fs' _ [Hh' _]. wp_steps. by split.
  - intros fs' e [Hf _]. by rewrite Hc in Hf.
Qed.

(** Where a directory is, it is loaded and not bootstrapped. *)
Lemma load_existing dir fs : dir ∈ dirs fs → load dir fs = (fs, Ok (mk_block_store dir)).
Proof. intros Hd. unfold load, mbind, M_bind, get. by rewrite decide_True. Qed.

Lemma load_spec dir fs fs' b : load dir fs = (fs', Ok b) → b = mk_block_store dir.
Proof.
  unfold load, mbind, M_bind, get. cbn. case_decide; [by intros [= _ <-]|]. by case_decide.
Qed.

Lemma bootstrap_existing faults dir genesis fs :
  dir ∈ dirs fs → (bootstrap faults dir genesis fs).1 = fs ∧ ∃ e, (bootstrap faults dir genesis fs).2 = Err e.
Proof.
  intros Hd. unfold bootstrap, create_dir, io_fault, mbind, M_bind, get.
  destruct (fault_create faults); [by eauto|]. cbn. rewrite decide_True by by left. split; [done|by eexists].
Qed.

(** C17: The block store is a map from block numbers to the bytes of blocks. Bootstrapping
    it, where nothing is, makes it hold the genesis block alone, and fails where
    something is. Saving a block of the store puts it under its number, and leaves
    every other block as it was; a save that fails leaves the block as it was, or with
    what the failing write has left in its file. Loading a block answers with what is
    under its number, if the file system does not fail. So no two of the 2^32 numbers
    share a file. *)
Theorem block_store_is_map :
  (∀ faults dir (genesis : A) fs, dir ∉ dirs fs → files fs = ∅ →
    match bootstrap faults dir genesis fs with
    | (fs', Ok b) => store_dir b = dir ∧ holds fs' b {[0%N := genesis]} ∧ load dir fs' = (fs', Ok b) ∧
        (bootstrap faults dir genesis fs').1 = fs' ∧ ∃ e, (bootstrap faults dir genesis fs').2 = Err e
    | (_, Err _) => fault_create faults ≠ None ∨ fault_write faults ≠ None
    | _ => False
    end) ∧
  (∀ faults b n (data : A) fs m, holds fs b m → (n < 2 ^ 32)%N →
    match save_block faults b n data fs with
    | (fs', Ok _) => holds fs' b (<[n := data]> m)
    | (fs', Err _) => ∃ m', holds fs' b m' ∧ delete n m' = delete n m ∧
        ∀ content, m' !! n = Some content → m !! n = Some content ∨ ∃ e, fault_write faults = Some (e, Some content)
    | _ => False
    end) ∧
  (∀ fault b n fs m, holds fs b m → (n < 2 ^ 32)%N →
    load_block fault b n fs = (fs, match fault with Some e => Err e | None => Ok (m !! n) end)).
Proof.
  split_and!.
  - intros faults dir genesis fs Hdir Hfiles. pose proof (wp_bootstrap faults dir genesis fs Hdir Hfiles) as Hw.
    rewrite wp_unfold in Hw. destruct (bootstrap faults dir genesis fs) as [fs' [b|e|p|]]; [|done|done|done].
    destruct Hw as [-> Hh]. assert (dir ∈ dirs fs') as Hin by apply Hh.
    split_and!; [done|done|by apply load_existing|by apply bootstrap_existing..].
  - intros faults b n data fs m Hh Hn. pose proof (wp_save_block faults b n data fs m Hh Hn) as Hw.
    rewrite wp_unfold in Hw. destruct (save_block faults b n data fs) as [fs' []]; try done; apply Hw.
  - intros fault b n fs m (_ & _ & Hf) Hn. unfold load_block, io_fault, mbind, M_bind, get, throw.
    destruct fault; [done|]. cbn. by rewrite Hf.
Qed.

End theorems.

(** ** A concrete store *)

Definition fresh_fs : Fs string := mk_fs {["/data"]} ∅.

Definition run_fs : Fs string := (bootstrap no_io_faults "/data/blocks" "genesis" fresh_fs).1.

(** The block after the first epoch, and the block of the first epoch that its file
    could be mistaken for. *)
Lemma block_store_is_map_witness :
  let b := mk_block_store "/data/blocks" in
  let r := save_block no_io_faults b 65536%N "first" run_fs in
  r.2 = Ok tt ∧ block_path b 65536%N = "/data/blocks/0001/block_00010000.dat" ∧
  files r.1 !! "/data/blocks/0000/block_00000000.dat" = Some "genesis" ∧
  holds r.1 b (<[65536%N := "first"]> {[0%N := "genesis"]}) ∧
  load_block None b 65536%N r.1 = (r.1, Ok (Some "first")).
Proof.
  cbv zeta. destruct (block_store_is_map (A := string)) as (Hb & Hs & Hl).
  set (b := mk_block_store "/data/blocks").
  assert (holds run_fs b {[0%N := "genesis"]}) as Hrun.
  { specialize (Hb no_io_faults "/data/blocks" "genesis" fresh_fs ltac:(vm_compute; intros [=]) eq_refl).
    unfold run_fs. destruct (bootstrap _ _ _ fresh_fs) as [fs [b'|e|p|]] eqn:Hrun.
    - destruct Hb as (Hdir & Hb & _). destruct b' as [d]. cbn in Hdir. by subst d.
    - by destruct Hb.
    - done.
    - done. }
  specialize (Hs no_io_faults b 65536%N "first" run_fs _ Hrun ltac:(lia)).
  assert ((save_block no_io_faults b 65536%N "first" run_fs).2 = Ok tt) as Hok by reflexivity.
  destruct (save_block no_io_faults b 65536%N "first" run_fs) as [fs r] eqn:Hsave. cbn in Hok. subst r. cbn [fst snd].
  split_and!; [done|reflexivity| |done|].
  - destruct Hs as (_ & _ & Hf). etrans; [exact (Hf 0%N ltac:(lia))|reflexivity].
  - rewrite (Hl None b 65536%N fs _ Hs) by lia. reflexivity.
Defined.
