(* ===== verification/StoreSql.v ===== *)
(** * The tables of the store and its queries

    Model of [crates/store/src/db/sql/mod.rs], [sql/utils.rs] and the row types of
    [db/mod.rs], on the schema of [db/migrations/001-init.sql]. A table with a
    primary key is a map; [notes] is the list of its rows in rowid order (no row is
    ever deleted, so row [i] has rowid [i + 1]). A statement that violates a key, a
    check or a foreign key fails. Rows that a query does not order are returned in
    an arbitrary order, that of the map or of the rowids. *)

From S2P Require Import Prelude.
From S2P Require Import External.
From S2P Require Import NtxAccount.
From S2P Require Import StoreObjects.

Module Sql.

(** ** Limits of [crates/utils/src/limiter.rs] *)

Definition account_id_limit : nat := 1000.
Definition nullifier_prefix_limit : nat := 1000.
Definition nullifier_limit : nat := 1000.
Definition note_tag_limit : nat := 1000.
Definition note_id_limit : nat := 1000.
Definition block_limit : nat := 1000.

(** ** Integers of SQLite *)

(** A [u64] as the [i64] that is stored. *)
Definition u64_to_value (v : N) : Z :=
  if (v <? 2 ^ 63)%N then Z.of_N v else Z.of_N v - 2 ^ 64.

(** The stored [i64] cast back. *)
Definition column_value_as_u64 (value : Z) : N :=
  Z.to_N (if (0 <=? value)%Z then value else value + 2 ^ 64).

(** [row.get::<u64>]: a negative integer is out of range. *)
Definition get_u64 (value : Z) : option N :=
  if (0 <=? value)%Z then Some (Z.to_N value) else None.

(** A [u64] bound as a parameter: out of range if it does not fit an [i64]. *)
Definition u64_param (v : N) : option Z :=
  if (v <? 2 ^ 63)%N then Some (Z.of_N v) else None.

Definition is_u32 (v : N) : bool := (v <? 2 ^ 32)%N.

Section defs.
Context `{!MidenObjects} `{!NtxObjects} `{!StoreObjects}.

Inductive DatabaseError : Type :=
| SqliteError (what : string)
| QueryParamLimitExceeded (limit size : nat)
| AccountDeltaError
| AccountError
| NoteError
| InvalidFelt
| AccountCommitmentsMismatch (calculated expected : Digest)
| AccountNotFoundInDb (id : AccountId)
| AccountsNotFoundInDb (ids : list AccountId)
| AccountNotPublic (id : AccountId)
| DataCorrupted
| ClosedChannel
| MissingDbConnection
| InteractError.

(** ** Rows *)

Record AccountRow := mk_account_row {
  network_account_id_prefix : option N;
  account_commitment : Digest;
  account_block_num : BlockNumber;
  details : option Account;
}.

Record NoteRow := mk_note_row {
  nr_block_num : BlockNumber;
  nr_batch_index : N;
  nr_note_index : N;
  nr_note_id : NoteId;
  nr_note_type : N;
  nr_sender : AccountId;
  nr_tag : N;
  nr_execution_mode : N;
  nr_aux : Z;
  nr_execution_hint : Z;
  nr_merkle_path : MerklePath;
  nr_consumed : bool;
  nr_nullifier : option Nullifier;
  nr_assets : option NoteAssets;
  nr_inputs : option NoteInputs;
  nr_script_root : option Digest;
  nr_serial_num : option Word;
}.

Record NullifierInfo := mk_nullifier_info {
  ni_nullifier : Nullifier;
  ni_block_num : BlockNumber;
}.

Record AccountSummary := mk_account_summary {
  as_account_id : AccountId;
  as_commitment : Digest;
  as_block_num : BlockNumber;
}.

Record AccountInfo := mk_account_info {
  summary : AccountSummary;
  info_details : option Account;
}.

Record TransactionSummary := mk_transaction_summary {
  ts_account_id : AccountId;
  ts_block_num : BlockNumber;
  ts_transaction_id : TransactionId;
}.

Record NoteRecord := mk_note_record {
  rec_block_num : BlockNumber;
  rec_note_index : BlockNoteIndex;
  rec_note_id : NoteId;
  rec_metadata : NoteMetadata;
  rec_details : option NoteDetails;
  rec_merkle_path : MerklePath;
}.

Record NoteSyncRecord := mk_note_sync_record {
  sync_block_num : BlockNumber;
  sync_note_index : BlockNoteIndex;
  sync_note_id : NoteId;
  sync_metadata : NoteMetadata;
  sync_merkle_path : MerklePath;
}.

Record NoteInclusionProof := mk_inclusion_proof {
  proof_block_num : BlockNumber;
  proof_node_index : N;
  proof_path : MerklePath;
}.

Record StateSyncUpdate := mk_state_sync {
  ss_notes : list NoteSyncRecord;
  ss_block_header : BlockHeader;
  ss_account_updates : list AccountSummary;
  ss_transactions : list TransactionSummary;
}.

Record NoteSyncUpdate := mk_note_sync {
  ns_notes : list NoteSyncRecord;
  ns_block_header : BlockHeader;
}.

(** The token is the rowid of the first note of the page. *)
Record Page := mk_page {
  token : option nat;
  page_size : nat;
}.

(** ** Tables *)

Record Tables := mk_tables {
  block_headers : gmap BlockNumber BlockHeader;
  accounts : gmap AccountId AccountRow;
  notes : list NoteRow;
  note_scripts : gmap Digest NoteScript;
  account_deltas : gmap (AccountId * BlockNumber) Z;
  slot_updates : gmap (AccountId * BlockNumber * N) Word;
  map_updates : gmap (AccountId * BlockNumber * N * Digest) Word;
  fungible_deltas : gmap (AccountId * BlockNumber * AccountId) Z;
  non_fungible_updates : gmap (AccountId * BlockNumber * NonFungibleAsset) bool;
  nullifiers : gmap Nullifier (N * BlockNumber);
  transactions : gmap TransactionId (AccountId * BlockNumber);
}.

Implicit Types (t : Tables) (bn : BlockNumber) (id : AccountId).

Definition empty_tables : Tables := mk_tables ∅ ∅ [] ∅ ∅ ∅ ∅ ∅ ∅ ∅ ∅.

Definition over_block_headers f t := mk_tables (f (block_headers t)) (accounts t) (notes t) (note_scripts t)
  (account_deltas t) (slot_updates t) (map_updates t) (fungible_deltas t) (non_fungible_updates t) (nullifiers t) (transactions t).

Definition over_accounts f t := mk_tables (block_headers t) (f (accounts t)) (notes t) (note_scripts t)
  (account_deltas t) (slot_updates t) (map_updates t) (fungible_deltas t) (non_fungible_updates t) (nullifiers t) (transactions t).

Definition over_notes f t := mk_tables (block_headers t) (accounts t) (f (notes t)) (note_scripts t)
  (account_deltas t) (slot_updates t) (map_updates t) (fungible_deltas t) (non_fungible_updates t) (nullifiers t) (transactions t).

Definition over_note_scripts f t := mk_tables (block_headers t) (accounts t) (notes t) (f (note_scripts t))
  (account_deltas t) (slot_updates t) (map_updates t) (fungible_deltas t) (non_fungible_updates t) (nullifiers t) (transactions t).

Definition over_account_deltas f t := mk_tables (block_headers t) (accounts t) (notes t) (note_scripts t)
  (f (account_deltas t)) (slot_updates t) (map_updates t) (fungible_deltas t) (non_fungible_updates t) (nullifiers t) (transactions t).

Definition over_slot_updates f t := mk_tables (block_headers t) (accounts t) (notes t) (note_scripts t)
  (account_deltas t) (f (slot_updates t)) (map_updates t) (fungible_deltas t) (non_fungible_updates t) (nullifiers t) (transactions t).

Definition over_map_updates f t := mk_tables (block_headers t) (accounts t) (notes t) (note_scripts t)
  (account_deltas t) (slot_updates t) (f (map_updates t)) (fungible_deltas t) (non_fungible_updates t) (nullifiers t) (transactions t).

Definition over_fungible_deltas f t := mk_tables (block_headers t) (accounts t) (notes t) (note_scripts t)
  (account_deltas t) (slot_updates t) (map_updates t) (f (fungible_deltas t)) (non_fungible_updates t) (nullifiers t) (transactions t).

Definition over_non_fungible_updates f t := mk_tables (block_headers t) (accounts t) (notes t) (note_scripts t)
  (account_deltas t) (slot_updates t) (map_updates t) (fungible_deltas t) (f (non_fungible_updates t)) (nullifiers t) (transactions t).

Definition over_nullifiers f t := mk_tables (block_headers t) (accounts t) (notes t) (note_scripts t)
  (account_deltas t) (slot_updates t) (map_updates t) (fungible_deltas t) (non_fungible_updates t) (f (nullifiers t)) (transactions t).

Definition over_transactions f t := mk_tables (block_headers t) (accounts t) (notes t) (note_scripts t)
  (account_deltas t) (slot_updates t) (map_updates t) (fungible_deltas t) (non_fungible_updates t) (nullifiers t) (f (transactions t)).

Abbreviation DB := (M Tables DatabaseError).

(** [QueryParamLimiter::check]. *)
Definition check_limit (limit size : nat) : DB unit :=
  if decide (limit < size) then throw (QueryParamLimitExceeded limit size) else mret tt.

(** A constraint of the schema. *)
Definition constraint (b : bool) (what : string) : DB unit :=
  if b then mret tt else throw (SqliteError what).

(** The foreign key on [block_num]. *)
Definition block_exists t bn : bool := bool_decide (is_Some (block_headers t !! bn)).

(** The foreign keys on [account_id] and [sender]. *)
Definition account_exists t id : bool := bool_decide (is_Some (accounts t !! id)).

(** [?] on a conversion of the protocol library. *)
Definition or_throw {A} (o : option A) (e : DatabaseError) : DB A :=
  match o with Some a => mret a | None => throw e end.

(** An element of a [Vec] processed by a fallible conversion. *)
Definition collect {A B} (f : A → DB B) (l : list A) : DB (list B) :=
  fold_m (λ acc x, y ← f x; mret (acc ++ [y])) [] l.

End defs.

End Sql.
