(* ===== verification/StoreWrite.v ===== *)
(** * The writes of the store's database

    Model of the inserting functions of [crates/store/src/db/sql/mod.rs] and of
    [apply_block], which runs them all for a block. The counts of affected rows are
    left out, as no caller uses them; so are the foreign keys of the tables of an
    account delta, whose parent row is inserted just before ([StoreSchema.v] shows
    that they hold). *)

From S2P Require Import Prelude.
From S2P Require Import External.
From S2P Require Import NtxAccount.
From S2P Require Import StoreObjects.
From S2P Require Import StoreSql.
Import Sql.

Module Write.

Section defs.
Context `{!MidenObjects} `{!NtxObjects} `{!StoreObjects}.
Implicit Types (t : Tables) (bn : BlockNumber) (id : AccountId).

Abbreviation DB := (M Tables DatabaseError).

Definition insert_block_header (header : BlockHeader) : DB unit :=
  t ← get;
  let bn := header_block_num header in
  _ ← constraint (bool_decide (block_headers t !! bn = None)) "UNIQUE block_headers.block_num";
  _ ← constraint (is_u32 bn) "CHECK block_header_block_num_is_u32";
  modify (over_block_headers (λ m, <[bn := header]> m)).

(** ** Accounts *)

(** The storage part of [build_insert_delta], slot by slot. *)
Definition build_slot (acc : gmap N Word * gmap N (list (Digest * Word))) (slot : nat * StorageSlot Word StorageMap)
    : DB (gmap N Word * gmap N (list (Digest * Word))) :=
  let '(values, maps) := acc in
  slot_idx ← expect_some (if decide (slot.1 < 256) then Some (N.of_nat slot.1) else None)
               "slot index must fit into `u8`";
  match slot.2 with
  | SlotValue value => mret (<[slot_idx := value]> values, maps)
  | SlotMap map => mret (values, <[slot_idx := map_delta_of map]> maps)
  end.

(** The vault part, asset by asset. *)
Definition build_asset (acc : gmap AccountId Z * gmap NonFungibleAsset bool)
    (asset : AssetView AccountId NonFungibleAsset) : DB (gmap AccountId Z * gmap NonFungibleAsset bool) :=
  let '(fungible, non_fungible) := acc in
  match asset with
  | Fungible faucet amount =>
    amount ← expect_some (u64_param amount) "asset amount should be at most i64::MAX by construction";
    mret (<[faucet := amount]> fungible, non_fungible)
  | NonFungible asset => mret (fungible, <[asset := false]> non_fungible)
  end.

Definition build_insert_delta (account : Account) : DB AccountDelta :=
  '(values, maps) ← fold_m build_slot (∅, ∅) (imap pair (acc_slots account));
  '(fungible, non_fungible) ← fold_m build_asset (∅, ∅) (acc_assets account);
  or_throw (delta_new (acc_id account) values maps fungible non_fungible (acc_nonce account)) AccountDeltaError.

Definition insert_account_delta id bn (delta : AccountDelta) : DB unit :=
  nonce ← or_throw (u64_param (delta_nonce delta)) (SqliteError "nonce out of range");
  t ← get;
  _ ← constraint (bool_decide (account_deltas t !! (id, bn) = None)) "UNIQUE account_deltas";
  _ ← constraint (account_exists t id && block_exists t bn) "FOREIGN KEY account_deltas";
  _ ← modify (over_account_deltas (λ m, <[(id, bn) := nonce]> m));
  _ ← for_each (delta_values delta) (λ '(slot, value),
    t ← get;
    _ ← constraint (bool_decide (slot_updates t !! (id, bn, slot) = None)) "UNIQUE account_storage_slot_updates";
    modify (over_slot_updates (λ m, <[(id, bn, slot) := value]> m)));
  _ ← for_each (delta_maps delta) (λ '(slot, entries),
    for_each entries (λ '(key, value),
      t ← get;
      _ ← constraint (bool_decide (map_updates t !! (id, bn, slot, key) = None)) "UNIQUE account_storage_map_updates";
      modify (over_map_updates (λ m, <[(id, bn, slot, key) := value]> m))));
  _ ← for_each (delta_fungible delta) (λ '(faucet, amount),
    t ← get;
    _ ← constraint (bool_decide (fungible_deltas t !! (id, bn, faucet) = None)) "UNIQUE account_fungible_asset_deltas";
    modify (over_fungible_deltas (λ m, <[(id, bn, faucet) := amount]> m)));
  for_each (delta_non_fungible delta) (λ '(asset, is_remove),
    t ← get;
    _ ← constraint (bool_decide (non_fungible_updates t !! (id, bn, asset) = None)) "UNIQUE account_non_fungible_asset_updates";
    modify (over_non_fungible_updates (λ m, <[(id, bn, asset) := is_remove]> m))).

(** [utils::apply_delta] on the [details] column. *)
Definition apply_delta_to id (value : option Account) (delta : AccountDelta) (final : Digest) : DB Account :=
  account ← or_throw value (AccountNotPublic id);
  account ← or_throw (apply_delta account delta) AccountError;
  if decide (acc_commitment account = final) then mret account
  else throw (AccountCommitmentsMismatch (acc_commitment account) final).

(** The new details of an account, and the delta to store. *)
Definition updated_details (update : BlockAccountUpdate) : DB (option Account * option AccountDelta) :=
  let id := update_id update in
  match details_view (update_details update) with
  | Private => mret (None, None)
  | New account =>
    _ ← assert_ (bool_decide (id = acc_id account)) "assertion `left == right` failed";
    if decide (acc_commitment account = update_commitment update) then
      delta ← build_insert_delta account;
      mret (Some account, Some delta)
    else throw (AccountCommitmentsMismatch (acc_commitment account) (update_commitment update))
  | Delta delta =>
    t ← get;
    row ← or_throw (accounts t !! id) (AccountNotFoundInDb id);
    account ← apply_delta_to id (details row) delta (update_commitment update);
    mret (Some account, Some delta)
  end.

(** The body of the loop of [upsert_accounts]. *)
Definition upsert_account bn (update : BlockAccountUpdate) : DB unit :=
  let id := update_id update in
  let prefix := if account_is_network id then Some (prefix_u32 (prefix_of_id id)) else None in
  '(account, delta) ← updated_details update;
  t ← get;
  _ ← constraint (block_exists t bn) "FOREIGN KEY accounts";
  _ ← modify (over_accounts (λ m, <[id := mk_account_row prefix (update_commitment update) bn account]> m));
  match delta with
  | Some delta => insert_account_delta id bn delta
  | None => mret tt
  end.

Definition upsert_accounts (updates : list BlockAccountUpdate) bn : DB unit :=
  for_each updates (upsert_account bn).

(** ** Notes *)

(** [INSERT OR IGNORE]. *)
Definition insert_script (note : NoteRecord) : DB unit :=
  match rec_details note with
  | Some d =>
    let script := details_script d in
    modify (over_note_scripts (λ m, if decide (is_Some (m !! script_root script)) then m
                                    else <[script_root script := script]> m))
  | None => mret tt
  end.

Definition insert_scripts (records : list NoteRecord) : DB unit := for_each records insert_script.

(** The columns of a note. *)
Definition row_of_note (note : NoteRecord) (nullifier : option Nullifier) : NoteRow :=
  let meta := rec_metadata note in
  {| nr_block_num := rec_block_num note;
     nr_batch_index := batch_idx (rec_note_index note);
     nr_note_index := note_idx_in_batch (rec_note_index note);
     nr_note_id := rec_note_id note;
     nr_note_type := note_type_u8 (metadata_note_type meta);
     nr_sender := metadata_sender meta;
     nr_tag := metadata_tag meta;
     nr_execution_mode := tag_execution_mode (metadata_tag meta);
     nr_aux := u64_to_value (metadata_aux meta);
     nr_execution_hint := u64_to_value (hint_u64 (metadata_hint meta));
     nr_merkle_path := rec_merkle_path note;
     nr_consumed := false;
     nr_nullifier := nullifier;
     nr_assets := details_assets <$> rec_details note;
     nr_inputs := details_inputs <$> rec_details note;
     nr_script_root := (λ d, script_root (details_script d)) <$> rec_details note;
     nr_serial_num := details_serial_num <$> rec_details note |}.

(** The primary key of a note. *)
Definition note_key (row : NoteRow) : BlockNumber * N * N :=
  (nr_block_num row, nr_batch_index row, nr_note_index row).

Definition insert_note (entry : NoteRecord * option Nullifier) : DB unit :=
  let row := row_of_note entry.1 entry.2 in
  t ← get;
  _ ← constraint (bool_decide (note_key row ∉ note_key <$> notes t)) "UNIQUE notes";
  _ ← constraint ((1 <=? nr_note_type row)%N && (nr_note_type row <=? 3)%N && (nr_execution_mode row <=? 1)%N &&
                  is_u32 (nr_batch_index row) && is_u32 (nr_note_index row)) "CHECK notes";
  _ ← constraint (block_exists t (nr_block_num row) && account_exists t (nr_sender row) &&
                  match nr_script_root row with
                  | Some root => bool_decide (is_Some (note_scripts t !! root))
                  | None => true
                  end) "FOREIGN KEY notes";
  modify (over_notes (λ l, l ++ [row])).

Definition insert_notes (entries : list (NoteRecord * option Nullifier)) : DB unit :=
  for_each entries insert_note.

(** ** Nullifiers and transactions *)

Definition consume (ns : list Nullifier) (row : NoteRow) : NoteRow :=
  {| nr_block_num := nr_block_num row; nr_batch_index := nr_batch_index row; nr_note_index := nr_note_index row;
     nr_note_id := nr_note_id row; nr_note_type := nr_note_type row; nr_sender := nr_sender row;
     nr_tag := nr_tag row; nr_execution_mode := nr_execution_mode row; nr_aux := nr_aux row;
     nr_execution_hint := nr_execution_hint row; nr_merkle_path := nr_merkle_path row;
     nr_consumed := nr_consumed row || match nr_nullifier row with Some n => bool_decide (n ∈ ns) | None => false end;
     nr_nullifier := nr_nullifier row; nr_assets := nr_assets row; nr_inputs := nr_inputs row;
     nr_script_root := nr_script_root row; nr_serial_num := nr_serial_num row |}.

Definition insert_nullifier bn (n : Nullifier) : DB unit :=
  t ← get;
  _ ← constraint (bool_decide (nullifiers t !! n = None)) "UNIQUE nullifiers.nullifier";
  _ ← constraint (nullifier_prefix n <? 2 ^ 16)%N "CHECK nullifiers_nullifier_prefix_is_u16";
  _ ← constraint (block_exists t bn) "FOREIGN KEY nullifiers";
  modify (over_nullifiers (λ m, <[n := (nullifier_prefix n, bn)]> m)).

Definition insert_nullifiers_for_block (ns : list Nullifier) bn : DB unit :=
  _ ← check_limit nullifier_limit (length ns);
  _ ← modify (over_notes (fmap (consume ns)));
  for_each ns (insert_nullifier bn).

Definition insert_transaction bn (tx : TransactionId * AccountId) : DB unit :=
  t ← get;
  _ ← constraint (bool_decide (transactions t !! tx.1 = None)) "UNIQUE transactions.transaction_id";
  _ ← constraint (account_exists t tx.2 && block_exists t bn) "FOREIGN KEY transactions";
  modify (over_transactions (λ m, <[tx.1 := (tx.2, bn)]> m)).

Definition insert_transactions bn (txs : list (TransactionId * AccountId)) : DB unit :=
  for_each txs (insert_transaction bn).

(** ** A block *)

Definition apply_block (header : BlockHeader) (entries : list (NoteRecord * option Nullifier))
    (ns : list Nullifier) (updates : list BlockAccountUpdate) (txs : list (TransactionId * AccountId)) : DB unit :=
  let bn := header_block_num header in
  _ ← insert_block_header header;
  _ ← upsert_accounts updates bn;
  _ ← insert_scripts (fst <$> entries);
  _ ← insert_notes entries;
  _ ← insert_transactions bn txs;
  insert_nullifiers_for_block ns bn.

End defs.

End Write.
