(* ===== verification/StoreRead.v ===== *)
(** * The queries of the store's database

    Model of the selecting functions of [crates/store/src/db/sql/mod.rs]. *)

From S2P Require Import Prelude.
From S2P Require Import External.
From S2P Require Import NtxAccount.
From S2P Require Import StoreObjects.
From S2P Require Import StoreSql.
Import Sql.

Module Read.

(** [ORDER BY block_num ASC] on the rows of a table. *)
Definition block_le {A} (x y : BlockNumber * A) : Prop := (x.1 ≤ y.1)%N.

#[global] Instance block_le_dec {A} : RelDecision (block_le (A := A)).
Proof. intros x y. unfold block_le. apply _. Defined.

Definition by_block {A} (f : A → BlockNumber) (l : list A) : list A :=
  snd <$> merge_sort block_le ((λ x, (f x, x)) <$> l).

Section defs.
Context `{!MidenObjects} `{!NtxObjects} `{!StoreObjects}.
Implicit Types (t : Tables) (bn : BlockNumber) (id : AccountId).

Abbreviation DB := (M Tables DatabaseError).

(** ** Accounts *)

Definition summary_of (row : AccountId * AccountRow) : AccountSummary :=
  mk_account_summary row.1 (account_commitment row.2) (account_block_num row.2).

Definition account_info_from_row (row : AccountId * AccountRow) : AccountInfo :=
  mk_account_info (summary_of row) (details row.2).

Definition select_all_account_commitments : DB (list (AccountId * Digest)) :=
  gets (λ t, (λ s, (as_account_id s, as_commitment s)) <$>
    by_block as_block_num (summary_of <$> map_to_list (accounts t))).

(** [x IN rarray(l)] and [block_num > block_start AND block_num <= block_end]. *)
Definition in_range (block_start block_end bn : BlockNumber) : bool :=
  (block_start <? bn)%N && (bn <=? block_end)%N.

Definition select_accounts_by_block_range (block_start block_end : BlockNumber) (ids : list AccountId)
    : DB (list AccountSummary) :=
  _ ← check_limit account_id_limit (length ids);
  gets (λ t, by_block as_block_num (filter (λ s, in_range block_start block_end (as_block_num s) = true ∧
    as_account_id s ∈ ids) (summary_of <$> map_to_list (accounts t)))).

Definition select_account id : DB AccountInfo :=
  t ← get;
  row ← or_throw (accounts t !! id) (AccountNotFoundInDb id);
  mret (account_info_from_row (id, row)).

(** The first row of the query, if any. *)
Definition select_network_account_by_prefix (id_prefix : N) : DB (option AccountInfo) :=
  gets (λ t, account_info_from_row <$>
    head (filter (λ row, network_account_id_prefix row.2 = Some id_prefix) (map_to_list (accounts t)))).

Definition select_accounts_by_ids (ids : list AccountId) : DB (list AccountInfo) :=
  _ ← check_limit account_id_limit (length ids);
  gets (λ t, account_info_from_row <$> filter (λ row, row.1 ∈ ids) (map_to_list (accounts t))).

(** ** Account deltas *)

(** The entries of account [id] in the block range, of a table of account deltas. *)
Definition entries_of {K A} `{Countable K} (f : K → AccountId * BlockNumber) id (block_start block_end : BlockNumber)
    (m : gmap K A) : list (K * A) :=
  filter (λ e, (f e.1).1 = id ∧ in_range block_start block_end (f e.1).2 = true) (map_to_list m).

(** Addition in [SUM]: leaving the range of an [i64] is an error of SQLite. *)
Definition add_i64 (x y : Z) : DB Z :=
  if (- 2 ^ 63 <=? x + y)%Z && (x + y <? 2 ^ 63)%Z then mret (x + y)%Z else throw (SqliteError "integer overflow").

(** [SUM] of a column; [None] is the [NULL] of no rows. *)
Definition sql_sum (l : list Z) : DB (option Z) :=
  match l with
  | [] => mret None
  | _ => sum ← fold_m add_i64 0%Z l; mret (Some sum)
  end.

(** [NOT EXISTS] a row with the same key and a later block. *)
Definition latest {K A} `{EqDecision K} (l : list (BlockNumber * K * A)) : list (BlockNumber * K * A) :=
  filter (λ e, Forall (λ e', ¬ (e'.1.2 = e.1.2 ∧ (e.1.1 < e'.1.1)%N)) l) l.

(** The rows of the slot and map updates, as block, key and value. *)
Definition slot_rows t id a b : list (BlockNumber * N * Word) :=
  (λ '((_, bn, slot), value), (bn, slot, value)) <$> entries_of (λ k, k.1) id a b (slot_updates t).

Definition map_rows t id a b : list (BlockNumber * (N * Digest) * Word) :=
  (λ '((_, bn, slot, key), value), (bn, (slot, key), value)) <$> entries_of (λ k, k.1.1) id a b (map_updates t).

Definition fungible_rows t id a b : list (AccountId * Z) :=
  (λ '((_, _, faucet), amount), (faucet, amount)) <$> entries_of (λ k, k.1) id a b (fungible_deltas t).

(** [ORDER BY block_num]. *)
Definition non_fungible_rows t id a b : list (BlockNumber * (NonFungibleAsset * bool)) :=
  by_block fst ((λ '((_, bn, asset), is_remove), (bn, (asset, is_remove))) <$>
    entries_of (λ k, k.1) id a b (non_fungible_updates t)).

(** [GROUP BY faucet_id] with the sum of each group. *)
Definition sum_fungible (l : list (AccountId * Z)) : DB (gmap AccountId Z) :=
  fold_m (λ m '(faucet, amount), total ← add_i64 (default 0%Z (m !! faucet)) amount; mret (<[faucet := total]> m)) ∅ l.

(** The rows of a map slot gathered per slot. *)
Definition gather_maps (l : list (BlockNumber * (N * Digest) * Word)) : gmap N (list (Digest * Word)) :=
  foldl (λ m '(_, (slot, key), value), <[slot := default [] (m !! slot) ++ [(key, value)]]> m) ∅ l.

Definition replay_non_fungible (l : list (BlockNumber * (NonFungibleAsset * bool))) : option (gmap NonFungibleAsset bool) :=
  foldl (λ acc '(_, (asset, is_remove)),
    d ← acc; if is_remove : bool then non_fungible_remove d asset else non_fungible_add d asset) (Some ∅) l.

Definition select_account_delta id (block_start block_end : BlockNumber) : DB (option AccountDelta) :=
  t ← get;
  nonce ← sql_sum ((λ e : (AccountId * BlockNumber) * Z, e.2) <$> entries_of (λ k, k) id block_start block_end (account_deltas t));
  match nonce with
  | None => mret None
  | Some sum =>
    nonce ← or_throw (get_u64 sum) (SqliteError "integer out of range");
    _ ← or_throw (if is_felt nonce then Some tt else None) InvalidFelt;
    let scalars := list_to_map ((λ '(_, slot, value), (slot, value)) <$> latest (slot_rows t id block_start block_end)) in
    let maps := gather_maps (latest (map_rows t id block_start block_end)) in
    fungible ← sum_fungible (fungible_rows t id block_start block_end);
    non_fungible ← or_throw (replay_non_fungible (non_fungible_rows t id block_start block_end)) AccountDeltaError;
    delta ← or_throw (delta_new id scalars maps fungible non_fungible nonce) AccountDeltaError;
    mret (Some delta)
  end.

(** ** Nullifiers *)

Definition info_of (row : Nullifier * (N * BlockNumber)) : NullifierInfo := mk_nullifier_info row.1 row.2.2.

Definition select_all_nullifiers : DB (list NullifierInfo) :=
  gets (λ t, by_block ni_block_num (info_of <$> map_to_list (nullifiers t))).

Definition select_nullifiers_by_prefix (prefix_len : N) (prefixes : list N) bn : DB (list NullifierInfo) :=
  _ ← assert_ (prefix_len =? 16)%N "Only 16-bit prefixes are supported";
  _ ← check_limit nullifier_prefix_limit (length prefixes);
  gets (λ t, by_block ni_block_num (info_of <$>
    filter (λ row, row.2.1 ∈ prefixes ∧ (bn <= row.2.2)%N) (map_to_list (nullifiers t)))).

(** ** Notes *)

(** The metadata of a row: each conversion can fail. The note sync query runs the
    conversions in another order, which only changes the error of a row that fails
    two of them. *)
Definition metadata_from_row (row : NoteRow) : DB NoteMetadata :=
  note_type ← or_throw (note_type_from (nr_note_type row)) NoteError;
  aux ← or_throw (get_u64 (nr_aux row)) (SqliteError "integer out of range");
  _ ← or_throw (if is_felt aux then Some tt else None) InvalidFelt;
  hint ← or_throw (hint_from (column_value_as_u64 (nr_execution_hint row))) NoteError;
  or_throw (metadata_new (nr_sender row) note_type (nr_tag row) hint aux) NoteError.

(** [LEFT JOIN note_scripts]. *)
Definition script_of t (row : NoteRow) : option NoteScript := nr_script_root row ≫= λ root, note_scripts t !! root.

Definition details_from_row t (row : NoteRow) : option NoteDetails :=
  match nr_assets row, nr_inputs row, script_of t row, nr_serial_num row with
  | Some assets, Some inputs, Some script, Some serial_num => Some (details_new assets serial_num script inputs)
  | _, _, _, _ => None
  end.

(** The debug assertion of [from_row]. *)
Definition columns_agree t (row : NoteRow) : bool :=
  let present := [bool_decide (is_Some (nr_assets row)); bool_decide (is_Some (nr_inputs row));
                  bool_decide (is_Some (script_of t row)); bool_decide (is_Some (nr_serial_num row))] in
  forallb id present || forallb negb present.

Definition note_from_row (row : NoteRow) : DB NoteRecord :=
  t ← get;
  note_index ← expect_some (note_index_new (nr_batch_index row) (nr_note_index row))
                 "batch and note index from DB should be valid";
  _ ← assert_ (columns_agree t row) "assets, inputs, script, serial_num must be either all present or all absent";
  meta ← metadata_from_row row;
  mret (mk_note_record (nr_block_num row) note_index (nr_note_id row) meta (details_from_row t row) (nr_merkle_path row)).

Definition sync_note_from_row (row : NoteRow) : DB NoteSyncRecord :=
  note_index ← expect_some (note_index_new (nr_batch_index row) (nr_note_index row))
                 "batch and note index from DB should be valid";
  meta ← metadata_from_row row;
  mret (mk_note_sync_record (nr_block_num row) note_index (nr_note_id row) meta (nr_merkle_path row)).

(** [(tag IN rarray(?1) OR sender IN rarray(?2))]. *)
Definition matches (tags : list N) (ids : list AccountId) (row : NoteRow) : bool :=
  bool_decide (nr_tag row ∈ tags) || bool_decide (nr_sender row ∈ ids).

(** The next block with a matching note. *)
Definition next_block (tags : list N) (ids : list AccountId) bn t : option BlockNumber :=
  head (merge_sort N.le (nr_block_num <$> filter (λ row, matches tags ids row = true ∧ (bn < nr_block_num row)%N) (notes t))).

Definition select_notes_since_block_by_tag_and_sender (tags : list N) (ids : list AccountId) bn
    : DB (list NoteSyncRecord) :=
  _ ← check_limit account_id_limit (length ids);
  _ ← check_limit note_tag_limit (length tags);
  t ← get;
  match next_block tags ids bn t with
  | Some next => collect sync_note_from_row
      (filter (λ row, nr_block_num row = next ∧ matches tags ids row = true) (notes t))
  | None => mret []
  end.

Definition select_notes_by_id (ids : list NoteId) : DB (list NoteRecord) :=
  _ ← check_limit note_id_limit (length ids);
  t ← get;
  collect note_from_row (filter (λ row, nr_note_id row ∈ ids) (notes t)).

Definition inclusion_proof_of (row : NoteRow) : DB (NoteId * NoteInclusionProof) :=
  note_index ← expect_some (note_index_new (nr_batch_index row) (nr_note_index row))
                 "batch and note index from DB should be valid";
  mret (nr_note_id row, mk_inclusion_proof (nr_block_num row) (leaf_index_value note_index) (nr_merkle_path row)).

(** The last proof of an id stays in the map. *)
Definition select_note_inclusion_proofs (ids : gset NoteId) : DB (gmap NoteId NoteInclusionProof) :=
  _ ← check_limit note_id_limit (size ids);
  t ← get;
  proofs ← collect inclusion_proof_of (by_block nr_block_num (filter (λ row, nr_note_id row ∈ ids) (notes t)));
  mret (foldl (λ m '(note, proof), <[note := proof]> m) ∅ proofs).

(** The rows from rowid [from] on, with their rowids. *)
Definition rows_from (from : nat) t : list (nat * NoteRow) :=
  filter (λ r, from ≤ r.1) (imap (λ i row, (S i, row)) (notes t)).

Definition is_unconsumed_network (row : NoteRow) : bool := (nr_execution_mode row =? 0)%N && negb (nr_consumed row).

Definition unconsumed_network_notes (page : Page) : DB (list NoteRecord * Page) :=
  t ← get;
  let rows := take (page_size page + 1)
    (filter (λ r, is_unconsumed_network r.2 = true) (rows_from (default 0 (token page)) t)) in
  found ← collect note_from_row (snd <$> take (page_size page) rows);
  mret (found, mk_page (fst <$> rows !! page_size page) (page_size page)).

(** ** Blocks and transactions *)

(** [ORDER BY block_num DESC LIMIT 1] without a number. *)
Definition select_block_header_by_block_num (bn : option BlockNumber) : DB (option BlockHeader) :=
  gets (λ t,
    match bn with
    | Some bn => block_headers t !! bn
    | None => last (bm_values (K := N) (block_headers t))
    end).

Definition select_block_headers (blocks : list BlockNumber) : DB (list BlockHeader) :=
  _ ← check_limit block_limit (length blocks);
  gets (λ t, snd <$> filter (λ row, row.1 ∈ blocks) (map_to_list (block_headers t))).

Definition select_all_block_headers : DB (list BlockHeader) := gets (λ t, bm_values (K := N) (block_headers t)).

(** [ORDER BY transaction_id ASC]. *)
Definition select_transactions_by_accounts_and_block_range (block_start block_end : BlockNumber) (ids : list AccountId)
    : DB (list TransactionSummary) :=
  _ ← check_limit account_id_limit (length ids);
  gets (λ t, omap (λ tx,
    '(id, bn) ← transactions t !! tx;
    if decide (in_range block_start block_end bn = true ∧ id ∈ ids) then Some (mk_transaction_summary id bn tx) else None)
    (bm_keys (transactions t))).

(** ** Synchronisation *)

Inductive SyncError : Type :=
| SyncDatabaseError (e : DatabaseError)
| EmptyBlockHeadersTable
| MmrError.

(** The header of the notes' block, or of the chain tip. *)
Definition sync_header (found : list NoteSyncRecord) : M Tables SyncError BlockHeader :=
  header ← map_err SyncDatabaseError (select_block_header_by_block_num (sync_block_num <$> head found));
  match header with Some header => mret header | None => throw EmptyBlockHeadersTable end.

Definition get_state_sync bn (ids : list AccountId) (tags : list N) : M Tables SyncError StateSyncUpdate :=
  found ← map_err SyncDatabaseError (select_notes_since_block_by_tag_and_sender tags ids bn);
  header ← sync_header found;
  updates ← map_err SyncDatabaseError (select_accounts_by_block_range bn (header_block_num header) ids);
  txs ← map_err SyncDatabaseError (select_transactions_by_accounts_and_block_range bn (header_block_num header) ids);
  mret (mk_state_sync found header updates txs).

Definition get_note_sync bn (tags : list N) : M Tables SyncError NoteSyncUpdate :=
  _ ← map_err SyncDatabaseError (check_limit note_tag_limit (length tags));
  found ← map_err SyncDatabaseError (select_notes_since_block_by_tag_and_sender tags [] bn);
  header ← sync_header found;
  mret (mk_note_sync found header).

End defs.

End Read.
