(* ===== verification/StoreProofs.v ===== *)
(** * Proofs about the store's database

    What a successful [apply_block] writes, by partial-correctness rules: a query
    that fails is rolled back, so only its success matters. *)

From S2P Require Import Prelude.
From S2P Require Import External.
From S2P Require Import NtxAccount.
From S2P Require Import StoreObjects.
From S2P Require Import StoreSql.
From S2P Require Import StoreWrite.
From S2P Require Import StoreRead.
Import Sql.
Import Write.

(** ** Rows in block order *)

Lemma by_block_perm {A} (f : A → BlockNumber) (l : list A) : Read.by_block f l ≡ₚ l.
Proof.
  unfold Read.by_block. rewrite merge_sort_Permutation, <- list_fmap_compose. by rewrite list_fmap_id.
Qed.

Section writes.
Context `{!MidenObjects} `{!NtxObjects} `{!StoreObjects}.
Implicit Types (t : Tables) (bn : BlockNumber) (id : AccountId).

Abbreviation DB := (M Tables DatabaseError).

Lemma pwp_constraint b what t (Q : Tables → unit → Prop) : (b = true → Q t tt) → pwp (constraint b what : DB unit) t Q.
Proof. destruct b; cbn; auto. Qed.

Lemma pwp_or_throw {A} (o : option A) e t (Q : Tables → A → Prop) :
  (∀ a, o = Some a → Q t a) → pwp (or_throw o e : DB A) t Q.
Proof. destruct o; cbn; auto. Qed.

Lemma pwp_check_limit limit size t (Q : Tables → unit → Prop) :
  (size ≤ limit → Q t tt) → pwp (check_limit limit size : DB unit) t Q.
Proof. unfold check_limit. case_decide; [done|]. rewrite pwp_ret. intros HQ. apply HQ. lia. Qed.

(** The tables that the writes of an account delta leave alone. *)
Record same_core t t' : Prop := {
  core_headers : block_headers t' = block_headers t;
  core_accounts : accounts t' = accounts t;
  core_notes : notes t' = notes t;
  core_scripts : note_scripts t' = note_scripts t;
  core_nullifiers : nullifiers t' = nullifiers t;
  core_transactions : transactions t' = transactions t;
}.

#[local] Instance same_core_refl : Reflexive same_core.
Proof. by split. Qed.

#[local] Instance same_core_trans : Transitive same_core.
Proof. intros t1 t2 t3 [] []. split; congruence. Qed.

(** A loop whose iterations leave the core alone. *)
Lemma pwp_for_each_core {A} (l : list A) (f : A → DB unit) t :
  (∀ x t', pwp (f x) t' (λ t'' _, same_core t' t'')) → pwp (for_each l f) t (λ t' _, same_core t t').
Proof.
  intros Hf. apply (pwp_for_each (λ _, same_core t)); [done| |done].
  intros _ x _ t' _ Ht'. eapply pwp_mono; [apply Hf|]. cbn beta. intros t'' _ Hcore. by trans t'.
Qed.

Lemma insert_account_delta_core id bn delta t :
  pwp (insert_account_delta id bn delta : DB unit) t (λ t' _, same_core t t').
Proof.
  unfold insert_account_delta. pwp_steps. apply pwp_or_throw. intros nonce _. pwp_steps.
  apply pwp_constraint. intros _. pwp_steps. apply pwp_constraint. intros _. pwp_steps.
  set (t1 := over_account_deltas _ t). assert (same_core t t1) as Hc1 by by split. clearbody t1.
  eapply pwp_mono; [apply pwp_for_each_core|].
  { intros [slot value] t'. pwp_steps. apply pwp_constraint. intros _. pwp_steps. by split. }
  cbn beta. intros t2 _ Hc2. pwp_steps. eapply pwp_mono; [apply pwp_for_each_core|].
  { intros [slot entries] t'. apply pwp_for_each_core. intros [key value] t''.
    pwp_steps. apply pwp_constraint. intros _. pwp_steps. by split. }
  cbn beta. intros t3 _ Hc3. pwp_steps. eapply pwp_mono; [apply pwp_for_each_core|].
  { intros [faucet amount] t'. pwp_steps. apply pwp_constraint. intros _. pwp_steps. by split. }
  cbn beta. intros t4 _ Hc4. eapply pwp_mono; [apply pwp_for_each_core|].
  { intros [asset is_remove] t'. pwp_steps. apply pwp_constraint. intros _. pwp_steps. by split. }
  cbn beta. intros t5 _ Hc5. by trans t1; [|trans t2; [|trans t3; [|trans t4]]].
Qed.

(** ** Rows that are added to a table *)

Section rows.
Context {K V : Type} `{Countable K}.
Implicit Types (m : gmap K V) (P Q : K → V → Prop).

Definition rows_added m m' P : Prop := ∀ k v, m' !! k = Some v ↔ m !! k = Some v ∨ P k v.

Lemma rows_added_none m P : (∀ k v, ¬ P k v) → rows_added m m P.
Proof. intros HP k v. split; [by left|]. by intros [?|[]%HP]. Qed.

Lemma rows_added_iff m m' P Q : rows_added m m' P → (∀ k v, P k v ↔ Q k v) → rows_added m m' Q.
Proof. intros HP HQ k v. by rewrite (HP k v), HQ. Qed.

Lemma rows_added_insert m k v : m !! k = None → rows_added m (<[k := v]> m) (λ k' v', k' = k ∧ v' = v).
Proof.
  intros Hk k' v'. rewrite lookup_insert_Some. split; [naive_solver|]. intros [Hl|[-> ->]]; [right|by left].
  split; [|done]. intros ->. congruence.
Qed.

Lemma rows_added_trans m1 m2 m3 P Q R :
  rows_added m1 m2 P → rows_added m2 m3 Q → (∀ k v, R k v ↔ P k v ∨ Q k v) → rows_added m1 m3 R.
Proof. intros HP HQ HR k v. rewrite (HQ k v), (HP k v), (HR k v). tauto. Qed.

(** A loop over a table that each iteration adds to. *)
Context (table : Tables → gmap K V) (over : (gmap K V → gmap K V) → Tables → Tables).
Hypothesis Htable : ∀ f t, table (over f t) = f (table t).
Hypothesis Hover : ∀ f g t, over f (over g t) = over (λ m, f (g m)) t.
Hypothesis Hid : ∀ t, over (λ _, table t) t = t.

Lemma pwp_add_rows {A} (f : A → DB unit) (P : A → K → V → Prop) l t :
  (∀ x t', x ∈ l → pwp (f x) t' (λ t'' _, t'' = over (λ _, table t'') t' ∧ rows_added (table t') (table t'') (P x))) →
  pwp (for_each l f) t (λ t' _, t' = over (λ _, table t') t ∧
    rows_added (table t) (table t') (λ k v, ∃ x, x ∈ l ∧ P x k v)).
Proof.
  intros Hf. apply (pwp_for_each (λ pre t', t' = over (λ _, table t') t ∧
    rows_added (table t) (table t') (λ k v, ∃ x, x ∈ pre ∧ P x k v))); [| |done].
  { split; [by rewrite Hid|]. apply rows_added_none. intros k v (x & Hx & _). by apply elem_of_nil in Hx. }
  intros pre x rest t' Hl [Ht' Hadd]. eapply pwp_mono; [apply Hf; rewrite Hl; set_solver|]. cbn beta.
  intros t'' _ [Ht'' Hadd']. split; [etrans; [exact Ht''|]; by rewrite Ht', Hover|].
  eapply rows_added_trans; [exact Hadd|exact Hadd'|]. intros k v. split.
  - intros (y & [Hy| ->%list_elem_of_singleton]%elem_of_app & HP); [left; eauto|by right].
  - intros [(y & Hy & HP)|HP]; [exists y|exists x]; (split; [set_solver|done]).
Qed.

Lemma pwp_add_row k v what t :
  pwp (t ← get; _ ← constraint (bool_decide (table t !! k = None)) what; modify (over (λ m, <[k := v]> m)) : DB unit) t
    (λ t' _, t' = over (λ _, table t') t ∧ rows_added (table t) (table t') (λ k' v', k' = k ∧ v' = v)).
Proof.
  pwp_steps. apply pwp_constraint. intros Hk%bool_decide_eq_true. pwp_steps. rewrite Htable.
  split; [|by apply rows_added_insert]. rewrite <- (Hid t) at 1. by rewrite Hover.
Qed.

End rows.

(** The rows that the deltas [ds] make, where [rows] are those of one delta. *)
Definition of_deltas {K V} (ds : AccountId → AccountDelta → Prop) (rows : AccountId → AccountDelta → K → V → Prop)
    (k : K) (v : V) : Prop := ∃ id d, ds id d ∧ rows id d k v.

(** What a block writes of the account deltas [ds]. *)
Record deltas_written bn (ds : AccountId → AccountDelta → Prop) t t' : Prop := {
  dw_nonces : rows_added (account_deltas t) (account_deltas t') (of_deltas ds (λ id d k z,
    k = (id, bn) ∧ u64_param (delta_nonce d) = Some z));
  dw_slots : rows_added (slot_updates t) (slot_updates t') (of_deltas ds (λ id d k v, ∃ slot,
    k = (id, bn, slot) ∧ (slot, v) ∈ delta_values d));
  dw_maps : rows_added (map_updates t) (map_updates t') (of_deltas ds (λ id d k v, ∃ slot entries key,
    k = (id, bn, slot, key) ∧ (slot, entries) ∈ delta_maps d ∧ (key, v) ∈ entries));
  dw_fungible : rows_added (fungible_deltas t) (fungible_deltas t') (of_deltas ds (λ id d k v, ∃ faucet,
    k = (id, bn, faucet) ∧ (faucet, v) ∈ delta_fungible d));
  dw_non_fungible : rows_added (non_fungible_updates t) (non_fungible_updates t') (of_deltas ds (λ id d k v, ∃ asset,
    k = (id, bn, asset) ∧ (asset, v) ∈ delta_non_fungible d));
}.

(** The tables of the account deltas are as they were. *)
Definition same_deltas t t' : Prop :=
  account_deltas t' = account_deltas t ∧ slot_updates t' = slot_updates t ∧ map_updates t' = map_updates t ∧
  fungible_deltas t' = fungible_deltas t ∧ non_fungible_updates t' = non_fungible_updates t.

#[local] Instance same_deltas_trans : Transitive same_deltas.
Proof. intros t1 t2 t3 (? & ? & ? & ? & ?) (? & ? & ? & ? & ?). split_and!; congruence. Qed.

Lemma of_deltas_or {K V} ds1 ds2 ds (rows : AccountId → AccountDelta → K → V → Prop) k v :
  (∀ id d, ds id d ↔ ds1 id d ∨ ds2 id d) →
  of_deltas ds rows k v ↔ of_deltas ds1 rows k v ∨ of_deltas ds2 rows k v.
Proof.
  intros Hds. split.
  - intros (id & d & [Hd|Hd]%Hds & Hr); [left|right]; by exists id, d.
  - intros [(id & d & Hd & Hr)|(id & d & Hd & Hr)]; exists id, d; rewrite Hds; auto.
Qed.

Lemma of_deltas_one {K V} id delta (rows : AccountId → AccountDelta → K → V → Prop) k v :
  of_deltas (λ id' d, id' = id ∧ d = delta) rows k v ↔ rows id delta k v.
Proof. split; [by intros (? & ? & [-> ->] & Hr)|]. intros Hr. by exists id, delta. Qed.

Lemma deltas_written_core bn ds t t' : same_deltas t t' → (∀ id d, ¬ ds id d) → deltas_written bn ds t t'.
Proof.
  intros (D1 & D2 & D3 & D4 & D5) Hno.
  split; rewrite ?D1, ?D2, ?D3, ?D4, ?D5; apply rows_added_none; by intros k v (id & d & Hd%Hno & _).
Qed.

Lemma deltas_written_trans bn ds1 ds2 ds t1 t2 t3 :
  deltas_written bn ds1 t1 t2 → deltas_written bn ds2 t2 t3 → (∀ id d, ds id d ↔ ds1 id d ∨ ds2 id d) →
  deltas_written bn ds t1 t3.
Proof.
  intros [] [] Hds. split; (eapply rows_added_trans; [eassumption..|]); intros k v; by apply of_deltas_or.
Qed.

Lemma insert_account_delta_rows id bn delta t :
  pwp (insert_account_delta id bn delta : DB unit) t
    (λ t' _, deltas_written bn (λ id' d, id' = id ∧ d = delta) t t').
Proof.
  unfold insert_account_delta. pwp_steps. apply pwp_or_throw. intros nonce Hnonce. pwp_steps.
  apply pwp_constraint. intros Hnew%bool_decide_eq_true. pwp_steps. apply pwp_constraint. intros _. pwp_steps.
  set (t1 := over_account_deltas _ t).
  assert (rows_added (account_deltas t) (account_deltas t1) (λ k z, k = (id, bn) ∧ z = nonce)) as R0
    by by apply rows_added_insert.
  assert (t1 = over_account_deltas (λ _, account_deltas t1) t) as E0 by done. clearbody t1.
  eapply pwp_mono; [apply (pwp_add_rows slot_updates over_slot_updates) with
    (P := λ x k v, k = (id, bn, x.1) ∧ v = x.2); [done|done|by intros []|]|].
  { intros [slot value] t' _. apply (pwp_add_row slot_updates over_slot_updates); [done|done|by intros []]. }
  cbn beta. intros t2 _ [E1 R1]. pwp_steps.
  eapply pwp_mono; [apply (pwp_add_rows map_updates over_map_updates) with
    (P := λ x k v, ∃ y, y ∈ x.2 ∧ k = (id, bn, x.1, y.1) ∧ v = y.2); [done|done|by intros []|]|].
  { intros [slot entries] t' _. apply (pwp_add_rows map_updates over_map_updates) with
      (P := λ y k v, k = (id, bn, slot, y.1) ∧ v = y.2); [done|done|by intros []|].
    intros [key value] t'' _. apply (pwp_add_row map_updates over_map_updates); [done|done|by intros []]. }
  cbn beta. intros t3 _ [E2 R2]. pwp_steps.
  eapply pwp_mono; [apply (pwp_add_rows fungible_deltas over_fungible_deltas) with
    (P := λ x k v, k = (id, bn, x.1) ∧ v = x.2); [done|done|by intros []|]|].
  { intros [faucet amount] t' _.
    apply (pwp_add_row fungible_deltas over_fungible_deltas); [done|done|by intros []]. }
  cbn beta. intros t4 _ [E3 R3]. pwp_steps.
  eapply pwp_mono; [apply (pwp_add_rows non_fungible_updates over_non_fungible_updates) with
    (P := λ x k v, k = (id, bn, x.1) ∧ v = x.2); [done|done|by intros []|]|].
  { intros [asset is_remove] t' _.
    apply (pwp_add_row non_fungible_updates over_non_fungible_updates); [done|done|by intros []]. }
  cbn beta. intros t5 _ [E4 R4].
  assert (same_deltas (mk_tables ∅ ∅ [] ∅ (account_deltas t1) (slot_updates t2) (map_updates t3) (fungible_deltas t4)
    (non_fungible_updates t5) ∅ ∅) t5) as (D1 & D2 & D3 & D4 & _).
  { unfold same_deltas. cbn. rewrite E4. cbn. rewrite E3. cbn. rewrite E2. cbn. rewrite E1. done. }
  rewrite E3 in R4. rewrite E2 in R3, R4. rewrite E1 in R2, R3, R4. rewrite E0 in R1, R2, R3, R4. cbn in *.
  split; rewrite ?D1, ?D2, ?D3, ?D4; (eapply rows_added_iff; [eassumption|]); intros k v; cbn; rewrite of_deltas_one.
  - naive_solver.
  - split; [intros ([slot v'] & Hin & -> & ->); by exists slot|]. intros (slot & -> & Hin). by exists (slot, v).
  - split.
    + intros ([slot entries] & Hin & [key v'] & Hkey & -> & ->). by exists slot, entries, key.
    + intros (slot & entries & key & -> & Hin & Hkey). exists (slot, entries). split; [done|]. by exists (key, v).
  - split; [intros ([faucet v'] & Hin & -> & ->); by exists faucet|]. intros (faucet & -> & Hin). by exists (faucet, v).
  - split; [intros ([asset v'] & Hin & -> & ->); by exists asset|]. intros (asset & -> & Hin). by exists (asset, v).
Qed.

(** The amounts of a faucet's assets in a vault. *)
Definition amounts (faucet : AccountId) (assets : list (AssetView AccountId NonFungibleAsset)) : list Z :=
  omap (λ asset, match asset with
    | Fungible f amount => if decide (f = faucet) then u64_param amount else None
    | NonFungible _ => None
    end) assets.

(** The delta that makes a new account: all its storage and all its assets. *)
Definition insert_delta (account : Account) (d : AccountDelta) : Prop := ∃ values maps fungible non_fungible,
  delta_new (acc_id account) values maps fungible non_fungible (acc_nonce account) = Some d ∧
  (∀ k v, values !! k = Some v ↔ acc_slots account !! N.to_nat k = Some (SlotValue v)) ∧
  (∀ k es, maps !! k = Some es ↔ ∃ m, acc_slots account !! N.to_nat k = Some (SlotMap m) ∧ es = map_delta_of m) ∧
  (∀ f, fungible !! f = last (amounts f (acc_assets account))) ∧
  (∀ a b, non_fungible !! a = Some b ↔ b = false ∧ NonFungible a ∈ acc_assets account).

Lemma lookup_imap_pair {A} (l : list A) i x : imap pair l !! i = Some x ↔ ∃ y, l !! i = Some y ∧ x = (i, y).
Proof. rewrite list_lookup_imap. destruct (l !! i); cbn; naive_solver. Qed.

Definition slots_read (l : list (StorageSlot Word StorageMap)) (r : gmap N Word * gmap N (list (Digest * Word))) : Prop :=
  (∀ k v, r.1 !! k = Some v ↔ l !! N.to_nat k = Some (SlotValue v)) ∧
  (∀ k es, r.2 !! k = Some es ↔ ∃ m, l !! N.to_nat k = Some (SlotMap m) ∧ es = map_delta_of m).

Lemma slots_read_snoc l slot values maps :
  slots_read l (values, maps) →
  slots_read (l ++ [slot]) match slot with
    | SlotValue value => (<[N.of_nat (length l) := value]> values, maps)
    | SlotMap map => (values, <[N.of_nat (length l) := map_delta_of map]> maps)
    end.
Proof.
  intros [Hv Hm]. assert (∀ k x, (l ++ [slot]) !! N.to_nat k = Some x ↔
    l !! N.to_nat k = Some x ∨ k = N.of_nat (length l) ∧ slot = x) as Hl.
  { intros k x. rewrite lookup_snoc_Some. split.
    - intros [[_ Hx]|[Hk Hx]]; [by left|right]. split; [lia|done].
    - intros [Hx|[-> Hx]]; [left|right; split; [lia|done]]. split; [by eapply lookup_lt_Some|done]. }
  assert (∀ x, l !! N.to_nat (N.of_nat (length l)) = Some x → False) as Hno.
  { intros x Hx%lookup_lt_Some. lia. }
  destruct slot as [value|map]; split; cbn; intros k v; setoid_rewrite Hl; rewrite ?lookup_insert_Some; cbn in Hv, Hm;
    rewrite ?Hv, ?Hm.
  - split; [intros [[<- <-]|[Hne Hx]]; auto|]. intros [Hx|[-> [= ->]]]; [right|by left]. split; [|done].
    intros <-. by eapply Hno.
  - naive_solver.
  - naive_solver.
  - split; [intros [[<- <-]|[Hne (m & Hx & ->)]]; eauto|]. intros (m & [Hx|[-> [= ->]]] & ->); [right|by left].
    split; [|eauto]. intros <-. by eapply Hno.
Qed.

Definition assets_read (l : list (AssetView AccountId NonFungibleAsset))
    (r : gmap AccountId Z * gmap NonFungibleAsset bool) : Prop :=
  (∀ f, r.1 !! f = last (amounts f l)) ∧ (∀ a b, r.2 !! a = Some b ↔ b = false ∧ NonFungible a ∈ l).

Lemma assets_read_fungible l faucet amount z fungible non_fungible :
  u64_param amount = Some z → assets_read l (fungible, non_fungible) →
  assets_read (l ++ [Fungible faucet amount]) (<[faucet := z]> fungible, non_fungible).
Proof.
  intros Hz [Hf Hn]. split; cbn in *.
  - intros f. unfold amounts. rewrite omap_app, lookup_insert. cbn. case_decide as Hd.
    + by rewrite Hz, last_snoc.
    + by rewrite app_nil_r, Hf.
  - intros a b. rewrite Hn. set_solver.
Qed.

Lemma assets_read_non_fungible l asset fungible non_fungible :
  assets_read l (fungible, non_fungible) →
  assets_read (l ++ [NonFungible asset]) (fungible, <[asset := false]> non_fungible).
Proof.
  intros [Hf Hn]. split; cbn in *.
  - intros f. unfold amounts. rewrite omap_app. cbn. by rewrite app_nil_r, Hf.
  - intros a b. rewrite lookup_insert_Some, Hn, elem_of_app, list_elem_of_singleton.
    destruct (decide (asset = a)); naive_solver.
Qed.

Lemma build_insert_delta_spec account t :
  pwp (build_insert_delta account : DB AccountDelta) t (λ t' d, t' = t ∧ insert_delta account d).
Proof.
  unfold build_insert_delta. pwp_steps.
  apply (pwp_fold_m (λ pre t' r, t' = t ∧ slots_read pre.*2 r)); [by split; [|split; intros; cbn; naive_solver]| |].
  { intros pre [i slot] rest t' [values maps] Hl [-> Hr]. cbn. pwp_steps. apply pwp_expect_some. intros slot_idx Hi.
    assert (i = length pre.*2) as ->.
    { rewrite length_fmap. assert (imap pair (acc_slots account) !! length pre = Some (i, slot)) as Hx.
      { rewrite Hl. by apply list_lookup_middle. }
      apply lookup_imap_pair in Hx as (y & _ & [= -> _]). done. }
    case_decide; [|done]. injection Hi as <-. pose proof (slots_read_snoc _ slot _ _ Hr) as Hs. rewrite fmap_app.
    by destruct slot; pwp_steps. }
  intros ? [values maps] [-> Hslots]. pwp_steps.
  apply (pwp_fold_m (λ pre t' r, t' = t ∧ assets_read pre r)); [| |].
  { split; [done|]. split; [done|]. intros a b. cbn. rewrite lookup_empty. set_solver. }
  { intros pre asset rest t' [fungible non_fungible] _ [-> Hr]. cbn. destruct asset as [faucet amount|asset]; pwp_steps.
    - apply pwp_expect_some. intros z Hz. pwp_steps. split; [done|]. by apply assets_read_fungible.
    - split; [done|]. by apply assets_read_non_fungible. }
  intros ? [fungible non_fungible] [-> Hassets]. pwp_steps. apply pwp_or_throw. intros d Hd. split; [done|].
  assert ((imap pair (acc_slots account)).*2 = acc_slots account) as Hsnd.
  { rewrite fmap_imap. apply list_eq. intros i. rewrite list_lookup_imap. by destruct (_ !! i). }
  rewrite Hsnd in Hslots. destruct Hslots, Hassets. by exists values, maps, fungible, non_fungible.
Qed.

(** The new details of an account and the delta that is stored. *)
Definition update_result t (update : BlockAccountUpdate) (account : option Account) (delta : option AccountDelta) : Prop :=
  match details_view (update_details update) with
  | Private => account = None ∧ delta = None
  | New a => account = Some a ∧ ∃ d, delta = Some d ∧ insert_delta a d
  | Delta d => delta = Some d ∧ ∃ row old a, accounts t !! update_id update = Some row ∧ details row = Some old ∧
      apply_delta old d = Some a ∧ account = Some a
  end.

(** The stored details have the stored commitment. *)
Lemma updated_details_spec update t :
  pwp (updated_details update : DB _) t (λ t' r, t' = t ∧
    (∀ a, r.1 = Some a → acc_commitment a = update_commitment update) ∧ update_result t update r.1 r.2).
Proof.
  unfold updated_details, update_result. destruct (details_view _) as [|account|delta]; pwp_steps; [done| |].
  - apply pwp_assert. intros _. pwp_steps. case_decide; [|done]. pwp_steps.
    eapply pwp_mono; [apply build_insert_delta_spec|]. cbn beta. intros ? delta [-> Hd]. pwp_steps.
    split; [done|]. split; [by intros a [= <-]|]. cbn. eauto.
  - apply pwp_or_throw. intros row Hrow. pwp_steps. unfold apply_delta_to. pwp_steps.
    apply pwp_or_throw. intros a1 Ha1. pwp_steps. apply pwp_or_throw. intros a2 Ha2. pwp_steps.
    case_decide; [|done]. pwp_steps. split; [done|]. split; [by intros a [= <-]|]. cbn. naive_solver.
Qed.

(** The row of an updated account. *)
Definition account_updated bn (update : BlockAccountUpdate) (row : AccountRow) : Prop :=
  account_commitment row = update_commitment update ∧ account_block_num row = bn ∧
  network_account_id_prefix row =
    (if account_is_network (update_id update) then Some (prefix_u32 (prefix_of_id (update_id update))) else None) ∧
  ∀ a, details row = Some a → acc_commitment a = update_commitment update.

(** Everything but the accounts (and their deltas). *)
Definition same_but_accounts t t' : Prop :=
  block_headers t' = block_headers t ∧ notes t' = notes t ∧ note_scripts t' = note_scripts t ∧
  nullifiers t' = nullifiers t ∧ transactions t' = transactions t.

(** A vault's delta is determined by the account, and so is the delta that is stored. *)
Lemma insert_delta_unique account d d' : insert_delta account d → insert_delta account d' → d = d'.
Proof.
  intros (v & m & f & n & Hd & Hv & Hm & Hf & Hn) (v' & m' & f' & n' & Hd' & Hv' & Hm' & Hf' & Hn').
  assert (v = v') as -> by (apply map_eq; intros k; apply option_eq; intros x; by rewrite Hv, Hv').
  assert (m = m') as -> by (apply map_eq; intros k; apply option_eq; intros x; by rewrite Hm, Hm').
  assert (f = f') as -> by (apply map_eq; intros k; by rewrite Hf, Hf').
  assert (n = n') as -> by (apply map_eq; intros k; apply option_eq; intros x; by rewrite Hn, Hn').
  congruence.
Qed.

Lemma update_result_unique t u account account' delta delta' :
  update_result t u account delta → update_result t u account' delta' → delta = delta'.
Proof.
  unfold update_result. destruct (details_view _) as [|a|d]; [by intros [_ ->] [_ ->]| |].
  - intros (_ & d & -> & Hd) (_ & d' & -> & Hd'). by rewrite (insert_delta_unique _ _ _ Hd Hd').
  - by intros [-> _] [-> _].
Qed.

Lemma update_result_same t t' u account delta :
  accounts t' !! update_id u = accounts t !! update_id u →
  update_result t' u account delta ↔ update_result t u account delta.
Proof. intros Heq. unfold update_result. by rewrite Heq. Qed.

(** The deltas that the updates of a block store. *)
Definition deltas_of t (updates : list BlockAccountUpdate) id (d : AccountDelta) : Prop :=
  ∃ u account, u ∈ updates ∧ update_id u = id ∧ update_result t u account (Some d).

Lemma upsert_account_spec bn update t :
  pwp (upsert_account bn update : DB unit) t (λ t' _, same_but_accounts t t' ∧
    ∃ row delta, accounts t' = <[update_id update := row]> (accounts t) ∧ account_updated bn update row ∧
      update_result t update (details row) delta ∧
      deltas_written bn (λ id d, id = update_id update ∧ delta = Some d) t t').
Proof.
  unfold upsert_account. pwp_steps. eapply pwp_mono; [apply updated_details_spec|]. cbn beta.
  intros ? [account delta] (-> & Hacc & Hres). pwp_steps. apply pwp_constraint. intros _. pwp_steps.
  set (t1 := over_accounts _ t).
  assert (∀ t', same_core t1 t' → deltas_written bn (λ id d, id = update_id update ∧ delta = Some d) t1 t' →
    same_but_accounts t t' ∧ ∃ row delta, accounts t' = <[update_id update := row]> (accounts t) ∧
      account_updated bn update row ∧ update_result t update (details row) delta ∧
      deltas_written bn (λ id d, id = update_id update ∧ delta = Some d) t t') as Hend.
  { intros t' [C1 C2 C3 C4 C5 C6] [D1 D2 D3 D4 D5]. split; [done|]. eexists _, delta. split; [exact C2|]. done. }
  destruct delta as [delta|].
  - eapply pwp_mono; [apply pwp_and; [apply insert_account_delta_core|apply insert_account_delta_rows]|].
    cbn beta. intros t' _ [Hcore [D1 D2 D3 D4 D5]]. apply Hend; [done|].
    split; (eapply rows_added_iff; [eassumption|]); intros k v; unfold of_deltas; naive_solver.
  - apply Hend; [done|]. apply deltas_written_core; [done|]. by intros id d [_ ?].
Qed.

Lemma upsert_accounts_spec updates bn t :
  NoDup (update_id <$> updates) →
  pwp (upsert_accounts updates bn : DB unit) t (λ t' _, same_but_accounts t t' ∧
    (∀ id, id ∉ update_id <$> updates → accounts t' !! id = accounts t !! id) ∧
    (∀ u, u ∈ updates → ∃ row delta, accounts t' !! update_id u = Some row ∧ account_updated bn u row ∧
      update_result t u (details row) delta) ∧
    deltas_written bn (deltas_of t updates) t t').
Proof.
  intros Hnd. unfold upsert_accounts. apply (pwp_for_each (λ pre t', same_but_accounts t t' ∧
    (∀ id, id ∉ update_id <$> pre → accounts t' !! id = accounts t !! id) ∧
    (∀ u, u ∈ pre → ∃ row delta, accounts t' !! update_id u = Some row ∧ account_updated bn u row ∧
      update_result t u (details row) delta) ∧
    deltas_written bn (deltas_of t pre) t t')); [| |done].
  { split_and!; try done; [intros u; set_solver|]. apply deltas_written_core; [done|].
    intros id d (u & _ & Hu & _). by apply elem_of_nil in Hu. }
  intros pre u rest t' Hl (Hsame & Hkeep & Hset & Hdeltas). eapply pwp_mono; [apply upsert_account_spec|].
  cbn beta. intros t'' _ ((B1 & B2 & B3 & B4 & B5) & row & delta & Hrow & Hupd & Hres & Hdelta).
  destruct Hsame as (S1 & S2 & S3 & S4 & S5).
  rewrite Hl, fmap_app in Hnd. apply NoDup_app in Hnd as (_ & Hx & _).
  assert (update_id u ∉ update_id <$> pre) as Hu.
  { intros Hin. apply (Hx _ Hin). cbn. set_solver. }
  apply (update_result_same t) in Hres; [|by apply Hkeep].
  split; [split_and!; congruence|]. rewrite Hrow. split_and!.
  - intros id. rewrite fmap_app, not_elem_of_app. cbn. intros [Hpre Hid].
    rewrite lookup_insert_ne by set_solver. by apply Hkeep.
  - intros u'. rewrite elem_of_app, list_elem_of_singleton. intros [Hin| ->].
    + rewrite lookup_insert_ne; [by apply Hset|]. intros Heq. apply Hu. rewrite Heq. by apply list_elem_of_fmap_2.
    + rewrite lookup_insert_eq. eauto.
  - eapply deltas_written_trans; [exact Hdeltas|exact Hdelta|]. intros id d. split.
    + intros (u' & account & [Hin| ->%list_elem_of_singleton]%elem_of_app & <- & Hres'); [left|right].
      * by exists u', account.
      * split; [done|]. by eapply update_result_unique.
    + intros [(u' & account & Hin & <- & Hres')|[-> ->]].
      * exists u', account. split; [set_solver|done].
      * exists u, (details row). split; [set_solver|done].
Qed.

(** ** Notes *)

Lemma insert_scripts_spec records t :
  (∀ root s, note_scripts t !! root = Some s → script_root s = root) →
  pwp (insert_scripts records : DB unit) t (λ t' _,
    t' = over_note_scripts (λ _, note_scripts t') t ∧ note_scripts t ⊆ note_scripts t' ∧
    (∀ root s, note_scripts t' !! root = Some s → script_root s = root) ∧
    (∀ r d, r ∈ records → rec_details r = Some d → is_Some (note_scripts t' !! script_root (details_script d))) ∧
    ∀ root s, note_scripts t' !! root = Some s → note_scripts t !! root = Some s ∨
      ∃ r d, r ∈ records ∧ rec_details r = Some d ∧ details_script d = s).
Proof.
  intros Hroots. unfold insert_scripts. apply (pwp_for_each (λ pre t',
    t' = over_note_scripts (λ _, note_scripts t') t ∧ note_scripts t ⊆ note_scripts t' ∧
    (∀ root s, note_scripts t' !! root = Some s → script_root s = root) ∧
    (∀ r d, r ∈ pre → rec_details r = Some d → is_Some (note_scripts t' !! script_root (details_script d))) ∧
    ∀ root s, note_scripts t' !! root = Some s → note_scripts t !! root = Some s ∨
      ∃ r d, r ∈ pre ∧ rec_details r = Some d ∧ details_script d = s)); [| |done].
  { split_and!; [by destruct t|done|done| |by left]. intros r d. set_solver. }
  intros pre r rest t' _ (Hframe & Hsub & Hr & Hin & Hfrom).
  assert (∀ root s, note_scripts t' !! root = Some s → note_scripts t !! root = Some s ∨
    ∃ r0 d, r0 ∈ pre ++ [r] ∧ rec_details r0 = Some d ∧ details_script d = s) as Hfrom'.
  { intros root s [Hs|(r0 & d & Hr0 & Hd)]%Hfrom; [by left|right]. exists r0, d. split; [set_solver|done]. }
  unfold insert_script.
  destruct (rec_details r) as [d|] eqn:Hd; pwp_steps.
  2: { split_and!; [done..| |done]. intros r' d' [Hr'| ->%list_elem_of_singleton]%elem_of_app; [by apply Hin|congruence]. }
  set (m' := if decide (is_Some (note_scripts t' !! script_root (details_script d))) then note_scripts t'
             else <[script_root (details_script d) := details_script d]> (note_scripts t')).
  assert (note_scripts t' ⊆ m' ∧ is_Some (m' !! script_root (details_script d)) ∧
    (∀ root s, m' !! root = Some s → script_root s = root) ∧
    ∀ root s, m' !! root = Some s → note_scripts t' !! root = Some s ∨ details_script d = s)
    as (Hsub' & Hsome & Hr' & Hm').
  { unfold m'. destruct (decide (is_Some _)) as [Hs|Hs]; [by split_and!; auto|]. split_and!.
    - apply insert_subseteq. by apply eq_None_not_Some.
    - rewrite lookup_insert_eq. eauto.
    - intros root s'. rewrite lookup_insert_Some. intros [[<- <-]|[_ Hl]]; [done|]. by apply Hr.
    - intros root s'. rewrite lookup_insert_Some. intros [[<- <-]|[_ Hl]]; auto. }
  change (note_scripts (over_note_scripts _ t')) with m'. split_and!.
  - rewrite Hframe. reflexivity.
  - by trans (note_scripts t').
  - exact Hr'.
  - intros r' d' [Hin'| ->%list_elem_of_singleton]%elem_of_app Hd'.
    + destruct (Hin _ _ Hin' Hd') as [sc Hsc]. exists sc. by eapply lookup_weaken.
    + by simplify_eq.
  - intros root s [Hs| <-]%Hm'; [by apply Hfrom'|right]. exists r, d. split; [set_solver|done].
Qed.

Lemma insert_notes_spec entries t :
  pwp (insert_notes entries : DB unit) t (λ t' _,
    t' = over_notes (λ l, l ++ ((λ e, row_of_note e.1 e.2) <$> entries)) t ∧
    (NoDup (note_key <$> notes t) → NoDup (note_key <$> notes t'))).
Proof.
  unfold insert_notes. apply (pwp_for_each (λ pre t',
    t' = over_notes (λ l, l ++ ((λ e, row_of_note e.1 e.2) <$> pre)) t ∧
    (NoDup (note_key <$> notes t) → NoDup (note_key <$> notes t')))); [| |done].
  { split; [|done]. unfold over_notes. cbn. rewrite app_nil_r. by destruct t. }
  intros pre e rest t' _ [-> Hnd]. unfold insert_note. pwp_steps. apply pwp_constraint. intros Hkey. pwp_steps.
  apply pwp_constraint. intros _. pwp_steps. apply pwp_constraint. intros _. pwp_steps.
  apply bool_decide_eq_true in Hkey. split.
  - unfold over_notes. cbn. by rewrite fmap_app, app_assoc.
  - intros Ht. cbn. rewrite fmap_app. apply NoDup_app. split; [by apply Hnd|]. cbn.
    split; [|apply NoDup_singleton]. intros k Hk ->%list_elem_of_singleton. by apply Hkey.
Qed.

(** ** Nullifiers and transactions *)

Lemma insert_transactions_spec bn txs t :
  pwp (insert_transactions bn txs : DB unit) t (λ t' _,
    t' = over_transactions (λ m, list_to_map ((λ x, (x.1, (x.2, bn))) <$> txs) ∪ m) t ∧
    NoDup txs.*1 ∧ ∀ x, x ∈ txs → transactions t !! x.1 = None).
Proof.
  unfold insert_transactions. apply (pwp_for_each (λ pre t',
    t' = over_transactions (λ m, list_to_map ((λ x, (x.1, (x.2, bn))) <$> pre) ∪ m) t ∧
    NoDup pre.*1 ∧ ∀ x, x ∈ pre → transactions t !! x.1 = None)); [| |done].
  { split_and!; [|constructor|intros x; set_solver]. unfold over_transactions. cbn.
    by rewrite map_empty_union; destruct t. }
  intros pre x rest t' _ (-> & Hnd & Hfresh). unfold insert_transaction. pwp_steps.
  apply pwp_constraint. intros Hnew. pwp_steps. apply pwp_constraint. intros _. pwp_steps.
  apply bool_decide_eq_true in Hnew. cbn in Hnew. apply lookup_union_None in Hnew as [Hnew Hx].
  assert (x.1 ∉ pre.*1) as Hpre.
  { apply not_elem_of_list_to_map in Hnew. rewrite <- list_fmap_compose in Hnew. exact Hnew. }
  split_and!.
  - unfold over_transactions. cbn. f_equal. rewrite fmap_app. cbn. rewrite list_to_map_snoc.
    + by rewrite insert_union_l.
    + by apply not_elem_of_list_to_map.
  - rewrite fmap_app. apply NoDup_app. split_and!; [done| |apply NoDup_singleton].
    intros y Hy ->%list_elem_of_singleton. done.
  - intros y [Hy| ->%list_elem_of_singleton]%elem_of_app; [by apply Hfresh|done].
Qed.

Lemma insert_nullifiers_spec ns bn t :
  pwp (insert_nullifiers_for_block ns bn : DB unit) t (λ t' _,
    t' = over_nullifiers (λ m, list_to_map ((λ n, (n, (nullifier_prefix n, bn))) <$> ns) ∪ m)
           (over_notes (fmap (consume ns)) t) ∧
    length ns ≤ nullifier_limit ∧ NoDup ns ∧ ∀ n, n ∈ ns → nullifiers t !! n = None).
Proof.
  unfold insert_nullifiers_for_block. pwp_steps. apply pwp_check_limit. intros Hlen. pwp_steps.
  set (t1 := over_notes _ t). apply (pwp_for_each (λ pre t',
    t' = over_nullifiers (λ m, list_to_map ((λ n, (n, (nullifier_prefix n, bn))) <$> pre) ∪ m) t1 ∧
    NoDup pre ∧ ∀ n, n ∈ pre → nullifiers t !! n = None)); [| |naive_solver].
  { split_and!; [|constructor|by intros n Hin%not_elem_of_nil]. unfold over_nullifiers. cbn.
    rewrite map_empty_union. reflexivity. }
  intros pre n rest t' _ (-> & Hnd & Hfresh). unfold insert_nullifier. pwp_steps.
  apply pwp_constraint. intros Hnew. pwp_steps. do 2 (apply pwp_constraint; intros _; pwp_steps).
  apply bool_decide_eq_true in Hnew. cbn in Hnew. apply lookup_union_None in Hnew as [Hnew Hn].
  assert (n ∉ pre) as Hpre.
  { apply not_elem_of_list_to_map in Hnew. rewrite <- list_fmap_compose in Hnew. intros Hin. apply Hnew.
    by apply (list_elem_of_fmap_2 (fst ∘ λ n, (n, (nullifier_prefix n, bn)))). }
  split_and!.
  - unfold over_nullifiers. cbn. f_equal. rewrite fmap_app. cbn. rewrite list_to_map_snoc.
    + by rewrite insert_union_l.
    + by apply not_elem_of_list_to_map.
  - apply NoDup_app. split_and!; [done| |apply NoDup_singleton]. intros y Hy ->%list_elem_of_singleton. done.
  - intros y [Hy| ->%list_elem_of_singleton]%elem_of_app; [by apply Hfresh|done].
Qed.

(** ** A block *)

(** What a block writes. *)
Record written t (header : BlockHeader) (entries : list (NoteRecord * option Nullifier)) (ns : list Nullifier)
    (updates : list BlockAccountUpdate) (txs : list (TransactionId * AccountId)) t' : Prop := {
  w_new : block_headers t !! header_block_num header = None;
  w_headers : block_headers t' = <[header_block_num header := header]> (block_headers t);
  w_accounts_kept id : id ∉ update_id <$> updates → accounts t' !! id = accounts t !! id;
  w_accounts_set u : u ∈ updates →
    ∃ row, accounts t' !! update_id u = Some row ∧ account_updated (header_block_num header) u row;
  w_notes : notes t' = consume ns <$> (notes t ++ ((λ e, row_of_note e.1 e.2) <$> entries));
  w_note_keys : NoDup (note_key <$> notes t) → NoDup (note_key <$> notes t');
  w_scripts_kept : note_scripts t ⊆ note_scripts t';
  w_script_roots root s : note_scripts t' !! root = Some s → script_root s = root;
  w_scripts e d : e ∈ entries → rec_details e.1 = Some d → is_Some (note_scripts t' !! script_root (details_script d));
  w_nullifiers : nullifiers t' =
    list_to_map ((λ n, (n, (nullifier_prefix n, header_block_num header))) <$> ns) ∪ nullifiers t;
  w_nullifiers_fresh n : n ∈ ns → nullifiers t !! n = None;
  w_nullifiers_nodup : NoDup ns;
  w_limit : length ns ≤ nullifier_limit;
  w_transactions : transactions t' = list_to_map ((λ x, (x.1, (x.2, header_block_num header))) <$> txs) ∪ transactions t;
  w_transactions_fresh x : x ∈ txs → transactions t !! x.1 = None;
  w_transactions_nodup : NoDup txs.*1;
  w_details u : u ∈ updates →
    ∃ row delta, accounts t' !! update_id u = Some row ∧ update_result t u (details row) delta;
  w_scripts_new root s : note_scripts t' !! root = Some s → note_scripts t !! root = Some s ∨
    ∃ e d, e ∈ entries ∧ rec_details e.1 = Some d ∧ details_script d = s;
  w_deltas : deltas_written (header_block_num header) (deltas_of t updates) t t';
}.

Lemma note_key_consume ns (l : list NoteRow) : note_key <$> (consume ns <$> l) = note_key <$> l.
Proof. rewrite <- list_fmap_compose. by apply list_fmap_ext. Qed.

Lemma apply_block_written t header entries ns updates txs :
  (∀ root s, note_scripts t !! root = Some s → script_root s = root) →
  NoDup (update_id <$> updates) →
  pwp (apply_block header entries ns updates txs : DB unit) t (λ t' _, written t header entries ns updates txs t').
Proof.
  intros Hroots Hnd. unfold apply_block. pwp_steps. unfold insert_block_header. pwp_steps.
  apply pwp_constraint. intros Hnew. pwp_steps. apply pwp_constraint. intros _. pwp_steps.
  apply bool_decide_eq_true in Hnew.
  set (t0 := over_block_headers _ t).
  assert (∀ u account delta, update_result t0 u account delta ↔ update_result t u account delta) as Hres
    by (intros; by apply update_result_same).
  eapply pwp_mono; [by apply upsert_accounts_spec|]. cbn beta.
  intros t1 _ ((A1 & A2 & A3 & A4 & A5) & Hkept & Hset & Hdeltas).
  pwp_steps. eapply pwp_mono; [apply insert_scripts_spec; by rewrite A3|]. cbn beta.
  intros t2 _ (B1 & Hsub & Hr & Hin & Hfrom). pwp_steps.
  eapply pwp_mono; [apply insert_notes_spec|]. cbn beta. intros t3 _ [-> Hkeys]. pwp_steps.
  eapply pwp_mono; [apply insert_transactions_spec|]. cbn beta. intros t4 _ (-> & Hndt & Htx).
  eapply pwp_mono; [apply insert_nullifiers_spec|]. cbn beta. intros t5 _ (-> & Hlen & Hndn & Hfresh).
  rewrite B1 in Hkeys, Htx, Hfresh |- *. cbn in *. split; cbn; try done.
  - intros u Hu. destruct (Hset u Hu) as (row & delta & Hrow & Hupd & _). eauto.
  - by rewrite A2.
  - rewrite <- A2. intros Hk. rewrite note_key_consume. by apply Hkeys.
  - by rewrite <- A3.
  - intros e d He. apply Hin. by apply list_elem_of_fmap_2.
  - by rewrite A4.
  - by rewrite <- A4.
  - by rewrite A5.
  - by rewrite <- A5.
  - intros u Hu. destruct (Hset u Hu) as (row & delta & Hrow & _ & Hd). exists row, delta. by rewrite <- Hres.
  - intros root s. rewrite <- A3. intros [Hs|(r & d & Hr0 & Hd)]%Hfrom; [by left|right].
    apply list_elem_of_fmap in Hr0 as (e & -> & He). by exists e, d.
  - destruct Hdeltas as [D1 D2 D3 D4 D5].
    split; (eapply rows_added_iff; [eassumption|]); intros k v; unfold of_deltas, deltas_of; by setoid_rewrite Hres.
Qed.

(** ** The invariant of the tables *)

(** A row of [notes] is that of a record, up to the consumed flag, and its script
    is stored. *)
Definition note_row_ok t (row : NoteRow) : Prop := ∃ r n ns,
  row = consume ns (row_of_note r n) ∧ is_Some (block_headers t !! rec_block_num r) ∧
  ∀ d, rec_details r = Some d → note_scripts t !! script_root (details_script d) = Some (details_script d).

Record tables_ok t : Prop := {
  ok_header_num bn h : block_headers t !! bn = Some h → header_block_num h = bn;
  ok_headers : ∃ tip, ∀ bn, is_Some (block_headers t !! bn) ↔ (bn ≤ tip)%N;
  ok_script_roots root s : note_scripts t !! root = Some s → script_root s = root;
  ok_notes : Forall (note_row_ok t) (notes t);
  ok_note_keys : NoDup (note_key <$> notes t);
  ok_nullifiers n p bn : nullifiers t !! n = Some (p, bn) → bn ≠ 0%N ∧ is_Some (block_headers t !! bn);
  ok_accounts id row : accounts t !! id = Some row →
    account_commitment row ≠ digest_default ∧ is_Some (block_headers t !! account_block_num row) ∧
    ∀ a, details row = Some a → acc_commitment a = account_commitment row;
  ok_transactions tx id bn : transactions t !! tx = Some (id, bn) → is_Some (block_headers t !! bn);
}.

Lemma consume_consume ns ns' row : consume ns (consume ns' row) = consume (ns ++ ns') row.
Proof.
  unfold consume. f_equal. cbn. destruct (nr_nullifier row) as [n|]; [|by rewrite orb_false_r].
  rewrite <- orb_assoc. f_equal. apply eq_bool_prop_intro. rewrite orb_True, !bool_decide_spec, elem_of_app. tauto.
Qed.

End writes.
