(* ===== verification/StoreTrees.v ===== *)
(** * The authenticated data structures of the store

    The nullifier tree, the account tree and the chain's Merkle mountain range are
    those of [miden_objects]: an interface with the operations that the store calls,
    and the documented behaviour the proofs rely on. *)

From S2P Require Import Prelude.
From S2P Require Import External.
From S2P Require Import NtxAccount.
From S2P Require Import StoreObjects.

Class StoreTrees `{!MidenObjects} `{!NtxObjects} `{!StoreObjects} := {
  (** [NullifierTree]; [None] is an error. *)
  NullifierTree : Type;
  NullifierMutation : Type;
  SmtProof : Type;
  nt_root : NullifierTree → Digest;
  nt_get_block_num : NullifierTree → Nullifier → option BlockNumber;
  nt_compute_mutations : NullifierTree → list (Nullifier * BlockNumber) → option NullifierMutation;
  nt_apply_mutations : NullifierTree → NullifierMutation → option NullifierTree;
  nm_root : NullifierMutation → Digest;
  nt_with_entries : list (Nullifier * BlockNumber) → option NullifierTree;
  nt_open : NullifierTree → Nullifier → SmtProof;

  (** [AccountTree]. *)
  AccountTree : Type;
  AccountMutation : Type;
  AccountWitness : Type;
  at_root : AccountTree → Digest;
  at_get : AccountTree → AccountId → Digest;
  at_compute_mutations : AccountTree → list (AccountId * Digest) → option AccountMutation;
  at_apply_mutations : AccountTree → AccountMutation → option AccountTree;
  am_root : AccountMutation → Digest;
  at_with_entries : list (AccountId * Digest) → option AccountTree;
  at_open : AccountTree → AccountId → AccountWitness;

  (** [Blockchain]. *)
  Blockchain : Type;
  MmrProof : Type;
  MmrPeaks : Type;
  MmrDelta : Type;
  PartialMmr : Type;
  PartialBlockchain : Type;
  chain_of : list Digest → Blockchain;
  chain_tip : Blockchain → option BlockNumber;
  chain_push : Blockchain → Digest → Blockchain;
  chain_peaks_hash : Blockchain → Digest;
  chain_peaks_at : Blockchain → BlockNumber → option MmrPeaks;
  chain_open : Blockchain → BlockNumber → option MmrProof;
  chain_partial_mmr : Blockchain → gset BlockNumber → BlockNumber → option PartialMmr;
  (** [Mmr::get_delta], and the delta without data. *)
  chain_delta : Blockchain → N → N → option MmrDelta;
  mmr_delta_empty : N → MmrDelta;
  (** [PartialBlockchain::new_unchecked]. *)
  partial_blockchain_new : PartialMmr → list BlockHeader → option PartialBlockchain;
}.

Class TreeLaws `{!MidenObjects} `{!NtxObjects} `{!StoreObjects} `{!StoreTrees} := {
  (** The entries of a nullifier tree. Block 0 marks an unspent nullifier, so an
      entry with it is not seen. *)
  nt_entries : NullifierTree → gmap Nullifier BlockNumber;
  nt_get_spec t n : nt_get_block_num t n = nt_entries t !! n;
  nt_compute_fresh t l m : nt_compute_mutations t l = Some m → ∀ n, n ∈ l.*1 → nt_entries t !! n = None;
  nt_apply_spec t l m :
    nt_compute_mutations t l = Some m → NoDup l.*1 → Forall (λ e, e.2 ≠ 0%N) l →
    ∃ t', nt_apply_mutations t m = Some t' ∧ nt_entries t' = list_to_map l ∪ nt_entries t ∧ nt_root t' = nm_root m;
  nt_with_entries_spec l :
    NoDup l.*1 → Forall (λ e, e.2 ≠ 0%N) l → ∃ t, nt_with_entries l = Some t ∧ nt_entries t = list_to_map l;

  (** The ids that occupy a leaf of an account tree, one per id prefix; the empty
      digest marks an empty leaf. *)
  id_slot : AccountId → N;
  at_ids : AccountTree → gset AccountId;
  at_ids_slot t id id' : id ∈ at_ids t → id' ∈ at_ids t → id_slot id = id_slot id' → id = id';
  at_apply_spec t l m :
    at_compute_mutations t l = Some m → NoDup l.*1 → Forall (λ e, e.2 ≠ digest_default) l →
    ∃ t', at_apply_mutations t m = Some t' ∧ at_ids t' = list_to_set l.*1 ∪ at_ids t ∧ at_root t' = am_root m ∧
      ∀ id, at_get t' id = default (at_get t id) ((list_to_map l : gmap AccountId Digest) !! id);
  at_with_entries_spec l :
    NoDup l.*1 → Forall (λ e, e.2 ≠ digest_default) l →
    (∀ id id', id ∈ l.*1 → id' ∈ l.*1 → id_slot id = id_slot id' → id = id') →
    ∃ t, at_with_entries l = Some t ∧ at_ids t = list_to_set l.*1 ∧
      ∀ id, at_get t id = default digest_default ((list_to_map l : gmap AccountId Digest) !! id);

  (** The commitments of the chain's blocks, in order. *)
  chain_commitments : Blockchain → list Digest;
  chain_of_spec l : chain_commitments (chain_of l) = l;
  chain_push_spec c d : chain_commitments (chain_push c d) = chain_commitments c ++ [d];
  chain_tip_spec c : chain_tip c =
    match length (chain_commitments c) with 0 => None | S n => Some (N.of_nat n) end;
  (** Blocks below the checkpoint have authentication paths. *)
  chain_partial_mmr_spec c blocks checkpoint :
    (N.to_nat checkpoint ≤ length (chain_commitments c)) → (∀ b, b ∈ blocks → b < checkpoint)%N →
    is_Some (chain_partial_mmr c blocks checkpoint);
  chain_open_spec c b : (N.to_nat b < length (chain_commitments c)) → is_Some (chain_open c b);
  chain_peaks_at_spec c b : (N.to_nat b ≤ length (chain_commitments c)) → is_Some (chain_peaks_at c b);
  chain_delta_spec c a b : (a ≤ b)%N → (N.to_nat b ≤ length (chain_commitments c)) → is_Some (chain_delta c a b);
  (** The headers must be of distinct blocks of the partial range. *)
  partial_blockchain_new_spec c blocks checkpoint mmr headers :
    chain_partial_mmr c blocks checkpoint = Some mmr → NoDup (header_block_num <$> headers) →
    (∀ h, h ∈ headers → header_block_num h ∈ blocks) → is_Some (partial_blockchain_new mmr headers);
}.
