(* ===== verification/StoreState.v ===== *)
(** * The state of the store

    Model of [crates/store/src/state.rs] and of the transactions of
    [crates/store/src/db/mod.rs]: the database, the in-memory trees that mirror it,
    and the block files. *)

From S2P Require Import Prelude.
From S2P Require Import External.
From S2P Require Import NtxAccount.
From S2P Require Import StoreObjects.
From S2P Require Import StoreSql.
From S2P Require Import StoreWrite.
From S2P Require Import StoreRead.
From S2P Require Import StoreTrees.
Import Sql.

(** [Vec::swap_remove]. *)
Definition swap_remove {A} (i : nat) (l : list A) : option (A * list A) :=
  x ← l !! i;
  y ← last l;
  Some (x, removelast (<[i := y]> l)).

Module StoreState.

Section defs.
Context `{!MidenObjects} `{!NtxObjects} `{!StoreObjects} `{!StoreTrees}.
Implicit Types (bn : BlockNumber).

Record InnerState := mk_inner {
  nullifier_tree : NullifierTree;
  blockchain : Blockchain;
  account_tree : AccountTree;
}.

(** Besides the fields of the code: the saves of blocks that were spawned and not
    awaited, which run at some later point. *)
Record State := mk_state {
  db : Tables;
  block_store : gmap BlockNumber Bytes;
  pending_saves : list (BlockNumber * Bytes);
  inner : InnerState;
  (** Whether the lock [writer] is held. *)
  writer : bool;
}.

Implicit Types (s : State).

Definition set_db t s := mk_state t (block_store s) (pending_saves s) (inner s) (writer s).

Definition over_block_store f s := mk_state (db s) (f (block_store s)) (pending_saves s) (inner s) (writer s).

Definition over_pending f s := mk_state (db s) (block_store s) (f (pending_saves s)) (inner s) (writer s).

Definition set_inner i s := mk_state (db s) (block_store s) (pending_saves s) i (writer s).

Inductive InvalidBlockError : Type :=
| DuplicatedNullifiers (ns : list Nullifier)
| InvalidOutputNoteType (note : OutputNote)
| InvalidBlockTxCommitment (expected actual : Digest)
| NewBlockInvalidAccountRoot
| NewBlockInvalidBlockNum (expected submitted : BlockNumber)
| NewBlockInvalidChainCommitment
| NewBlockInvalidNoteRoot
| NewBlockInvalidNullifierRoot
| NewBlockInvalidPrevCommitment
| NewBlockNullifierAlreadySpent
| NewBlockDuplicateAccountIdPrefix.

Inductive ApplyBlockError : Type :=
| ApplyDatabaseError (e : DatabaseError)
| ApplyIoError
| InvalidBlock (e : InvalidBlockError)
| ApplyClosedChannel
| ConcurrentWrite
| DbBlockHeaderEmpty
| DbUpdateTaskFailed (e : DatabaseError).

(** What the environment does to a call of [apply_block]: the errors of the first
    query, of the file system (with what it leaves in the block's file), of the
    connection of the writing task and of its commit. *)
Record Faults := mk_faults {
  fault_query : option DatabaseError;
  fault_save : option (option Bytes);
  fault_write : option DatabaseError;
  fault_commit : option DatabaseError;
}.

Definition no_faults : Faults := mk_faults None None None None.

(** [Db::transact]: commits if the query succeeds, and rolls back otherwise. A panic
    of the query is reported as an error. *)
Definition transact {E A} (interact_error : E) (query : M Tables E A) : M Tables E A := λ t,
  match query t with
  | (t', Ok a) => (t', Ok a)
  | (_, Err e) => (t, Err e)
  | (_, Panic _) => (t, Err interact_error)
  | (_, OutOfFuel) => (t, OutOfFuel)
  end.

(** A query of the database. *)
Definition query {E A} (f : DatabaseError → E) (q : M Tables DatabaseError A) : M State E A :=
  zoom db set_db (map_err f (transact InteractError q)).

Definition fail_with {E} (fault : option DatabaseError) (f : DatabaseError → E) : M State E unit :=
  match fault with Some e => throw (f e) | None => mret tt end.

(** ** Loading *)

Inductive StateInitializationError : Type :=
| InitDatabaseError (e : DatabaseError)
| FailedToCreateNullifierTree
| FailedToCreateAccountsTree.

Definition load_nullifier_tree : M Tables StateInitializationError NullifierTree :=
  nullifiers ← map_err InitDatabaseError (transact InteractError Read.select_all_nullifiers);
  match nt_with_entries ((λ i, (ni_nullifier i, ni_block_num i)) <$> nullifiers) with
  | Some tree => mret tree
  | None => throw FailedToCreateNullifierTree
  end.

Definition load_mmr : M Tables StateInitializationError Blockchain :=
  headers ← map_err InitDatabaseError (transact InteractError Read.select_all_block_headers);
  mret (chain_of (header_commitment <$> headers)).

Definition load_accounts : M Tables StateInitializationError AccountTree :=
  account_data ← map_err InitDatabaseError (transact InteractError Read.select_all_account_commitments);
  match at_with_entries account_data with
  | Some tree => mret tree
  | None => throw FailedToCreateAccountsTree
  end.

Definition load (files : gmap BlockNumber Bytes) : M Tables StateInitializationError State :=
  tree ← load_nullifier_tree;
  chain ← load_mmr;
  accounts ← load_accounts;
  t ← get;
  mret (mk_state t files [] (mk_inner tree chain accounts) false).

Definition latest_block_num {E} : M State E BlockNumber :=
  s ← get;
  expect_some (chain_tip (blockchain (inner s))) "chain should always have at least the genesis block".

(** ** Applying a block *)

Abbreviation SM := (M State ApplyBlockError).

(** A condition on the block. *)
Definition check_block (b : bool) (e : InvalidBlockError) : SM unit :=
  if b then mret tt else throw (InvalidBlock e).

(** The header follows the chain tip. *)
Definition check_header (faults : Faults) (block : ProvenBlock) : SM unit :=
  let header := block_header block in
  let tx_commitment := transactions_commitment (block_transactions block) in
  _ ← check_block (bool_decide (header_tx_commitment header = tx_commitment))
        (InvalidBlockTxCommitment tx_commitment (header_tx_commitment header));
  _ ← fail_with (fault_query faults) ApplyDatabaseError;
  prev_block ← query ApplyDatabaseError (Read.select_block_header_by_block_num None);
  prev_block ← match prev_block with Some h => mret h | None => throw DbBlockHeaderEmpty end;
  let expected := bn_child (header_block_num prev_block) in
  _ ← check_block (bool_decide (header_block_num header = expected))
        (NewBlockInvalidBlockNum expected (header_block_num header));
  check_block (bool_decide (header_prev_block_commitment header = header_commitment prev_block))
    NewBlockInvalidPrevCommitment.

(** The roots of the trees before the block, and the mutations it makes. *)
Record TreeUpdates := mk_updates {
  nullifier_tree_old_root : Digest;
  nullifier_tree_update : NullifierMutation;
  account_tree_old_root : Digest;
  account_tree_update : AccountMutation;
}.

Definition compute_updates (block : ProvenBlock) : SM TreeUpdates :=
  let header := block_header block in
  s ← get;
  let i := inner s in
  let duplicates := filter (λ n, is_Some (nt_get_block_num (nullifier_tree i) n)) (block_created_nullifiers block) in
  _ ← check_block (bool_decide (duplicates = [])) (DuplicatedNullifiers duplicates);
  _ ← check_block (bool_decide (chain_peaks_hash (blockchain i) = header_chain_commitment header))
        NewBlockInvalidChainCommitment;
  nullifier_update ←
    match nt_compute_mutations (nullifier_tree i)
            ((λ n, (n, header_block_num header)) <$> block_created_nullifiers block) with
    | Some m => mret m
    | None => throw (InvalidBlock NewBlockNullifierAlreadySpent)
    end;
  _ ← check_block (bool_decide (nm_root nullifier_update = header_nullifier_root header)) NewBlockInvalidNullifierRoot;
  account_update ←
    match at_compute_mutations (account_tree i)
            ((λ u, (update_id u, update_commitment u)) <$> block_updated_accounts block) with
    | Some m => mret m
    | None => throw (InvalidBlock NewBlockDuplicateAccountIdPrefix)
    end;
  _ ← check_block (bool_decide (am_root account_update = header_account_root header)) NewBlockInvalidAccountRoot;
  mret (mk_updates (nt_root (nullifier_tree i)) nullifier_update (at_root (account_tree i)) account_update).

(** The record of an output note, and its nullifier if the note is public. *)
Definition note_record (block : ProvenBlock) (entry : BlockNoteIndex * OutputNote) : SM (NoteRecord * option Nullifier) :=
  let '(note_index, note) := entry in
  _ ← check_block (negb (output_note_is_partial note)) (InvalidOutputNoteType note);
  let full := output_note_full note in
  mret ({| rec_block_num := header_block_num (block_header block);
           rec_note_index := note_index;
           rec_note_id := output_note_id note;
           rec_metadata := output_note_metadata note;
           rec_details := details_of <$> full;
           rec_merkle_path := block_note_path block note_index |}, note_nullifier <$> full).

Definition build_notes (block : ProvenBlock) : SM (list (NoteRecord * option Nullifier)) :=
  _ ← check_block (bool_decide (block_note_root block = header_note_root (block_header block))) NewBlockInvalidNoteRoot;
  fold_m (λ acc entry, r ← note_record block entry; mret (acc ++ [r])) [] (block_output_notes block).

(** The writes of [Db::apply_block] in an open transaction. If the task fails, for
    whatever reason, the waiting call only sees that the channel is closed. *)
Definition stage (faults : Faults) (block : ProvenBlock) (notes : list (NoteRecord * option Nullifier)) : SM Tables :=
  _ ← fail_with (fault_write faults) (λ _, ApplyClosedChannel);
  s ← get;
  match Write.apply_block (block_header block) notes (block_created_nullifiers block)
          (block_updated_accounts block) (block_transactions block) (db s) with
  | (staged, Ok _) => mret staged
  | _ => throw ApplyClosedChannel
  end.

Definition spawn_save (block : ProvenBlock) : SM unit :=
  modify (over_pending (λ l, l ++ [(header_block_num (block_header block), block_bytes block)])).

(** The task of this call is the last one that was spawned. *)
Definition await_save (faults : Faults) (block : ProvenBlock) : SM unit :=
  let bn := header_block_num (block_header block) in
  _ ← modify (over_pending (λ l, removelast l));
  match fault_save faults with
  | None => modify (over_block_store (λ m, <[bn := block_bytes block]> m))
  | Some content =>
    _ ← modify (over_block_store (λ m, match content with Some bytes => <[bn := bytes]> m | None => m end));
    throw ApplyIoError
  end.

(** Under the write lock: the commit, then the trees. *)
Definition publish (faults : Faults) (block : ProvenBlock) (updates : TreeUpdates) (staged : Tables) : SM unit :=
  s ← get;
  let i := inner s in
  if decide (nt_root (nullifier_tree i) ≠ nullifier_tree_old_root updates ∨
             at_root (account_tree i) ≠ account_tree_old_root updates)
  then throw ConcurrentWrite else
  _ ← fail_with (fault_commit faults) DbUpdateTaskFailed;
  _ ← modify (set_db staged);
  nullifiers ← expect_some (nt_apply_mutations (nullifier_tree i) (nullifier_tree_update updates))
    "Unreachable: old nullifier tree root must be checked before this step";
  accounts ← expect_some (at_apply_mutations (account_tree i) (account_tree_update updates))
    "Unreachable: old account tree root must be checked before this step";
  modify (set_inner (mk_inner nullifiers (chain_push (blockchain i) (block_commitment block)) accounts)).

Definition apply_block (faults : Faults) (block : ProvenBlock) : SM unit :=
  s ← get;
  if writer s then throw ConcurrentWrite else
  _ ← check_header faults block;
  _ ← spawn_save block;
  updates ← compute_updates block;
  notes ← build_notes block;
  staged ← stage faults block notes;
  _ ← await_save faults block;
  publish faults block updates staged.

(** A detached save runs to its end. *)
Definition run_save (i : nat) : M State Empty_set unit :=
  s ← get;
  match pending_saves s !! i with
  | Some (bn, bytes) =>
    _ ← modify (over_pending (λ l, take i l ++ drop (S i) l));
    modify (over_block_store (λ m, <[bn := bytes]> m))
  | None => mret tt
  end.

End defs.

End StoreState.
