(* ===== verification/StoreApply.v ===== *)
(** * The invariant of the store's state, and applying a block

    The in-memory trees mirror the tables, and [apply_block] keeps them so. *)

From S2P Require Import Prelude.
From S2P Require Import External.
From S2P Require Import NtxAccount.
From S2P Require Import StoreObjects.
From S2P Require Import StoreSql.
From S2P Require Import StoreWrite.
From S2P Require Import StoreRead.
From S2P Require Import StoreTrees.
From S2P Require Import StoreProofs.
From S2P Require Import StoreState.

Import Sql.
Import StoreState.

Section inv.
Context `{!MidenObjects} `{!NtxObjects} `{!StoreObjects} `{!StoreTrees} `{!MidenLaws} `{!StoreLaws} `{!TreeLaws}.
Implicit Types (t : Tables) (s : State) (bn : BlockNumber) (block : ProvenBlock).

(** The highest block. *)
Definition is_tip t bn : Prop := ∀ bn', is_Some (block_headers t !! bn') ↔ (bn' ≤ bn)%N.

(** The trees mirror the tables. *)
Record mirrors (i : InnerState) t : Prop := {
  mir_nullifiers : nt_entries (nullifier_tree i) = snd <$> nullifiers t;
  mir_ids : at_ids (account_tree i) = dom (accounts t);
  mir_accounts id : at_get (account_tree i) id = default digest_default (account_commitment <$> accounts t !! id);
  mir_chain : chain_commitments (blockchain i) = header_commitment <$> bm_values (K := N) (block_headers t);
}.

Record consistent s : Prop := {
  con_tables : tables_ok (db s);
  con_mirrors : mirrors (inner s) (db s);
}.

(** What the protocol library guarantees of a block: one update per account, and
    commitments that are hashes. *)
Record block_ok block : Prop := {
  bo_ids : NoDup (update_id <$> block_updated_accounts block);
  bo_commitments : Forall (λ u, update_commitment u ≠ digest_default) (block_updated_accounts block);
}.

Lemma length_headers t tip : is_tip t tip → length (bm_values (K := N) (block_headers t)) = S (N.to_nat tip).
Proof.
  intros Htip. unfold bm_values. 
  assert (∀ l : list N, Forall (λ bn, is_Some (block_headers t !! bn)) l →
    length (omap (λ bn, block_headers t !! bn) l) = length l) as Hlen.
  { intros l. induction l as [|x l IH]; intros Hl; [done|]. apply Forall_cons in Hl as [[h Hh] Hl].
    cbn. rewrite Hh. cbn. by rewrite IH. }
  etrans; [apply Hlen|].
  { apply Forall_forall. intros bn Hbn. unfold bm_keys in Hbn. by apply elem_of_bt_iter, elem_of_dom in Hbn. }
  unfold bm_keys. rewrite bt_iter_perm. change (size (dom (block_headers t)) = S (N.to_nat tip)).
  assert (dom (block_headers t) ≡ list_to_set (N.of_nat <$> seq 0 (S (N.to_nat tip)))) as Hdom.
  { intros bn. rewrite elem_of_dom, (Htip bn), elem_of_list_to_set, list_elem_of_fmap. split.
    - intros Hle. exists (N.to_nat bn). rewrite N2Nat.id. split; [done|]. apply elem_of_seq. lia.
    - intros (n & -> & Hn%elem_of_seq). lia. }
  rewrite Hdom, size_list_to_set; [by rewrite length_fmap, length_seq|].
  apply NoDup_fmap; [intros ???; lia|apply NoDup_seq].
Qed.

Lemma headers_snoc (m : gmap BlockNumber BlockHeader) bn h :
  (∀ bn', is_Some (m !! bn') → (bn' ≤ bn)%N ∧ bn' ≠ bn) →
  bm_values (K := N) (<[bn := h]> m) = bm_values (K := N) m ++ [h].
Proof. exact (@bm_values_insert_last N _ N_key m bn h). Qed.

(** The last header is that of the tip. *)
Lemma last_header t tip h :
  is_tip t tip → block_headers t !! tip = Some h → last (bm_values (K := N) (block_headers t)) = Some h.
Proof.
  intros Htip Hh. rewrite <- (insert_delete_id _ _ _ Hh).
  rewrite headers_snoc; [by rewrite last_snoc|].
  intros bn [h' Hbn]. apply lookup_delete_Some in Hbn as [Hne Hbn].
  assert (bn ≤ tip)%N by (apply Htip; eauto). by split.
Qed.

Lemma mirrors_tip i t tip : mirrors i t → is_tip t tip → chain_tip (blockchain i) = Some tip.
Proof.
  intros Hm Htip. rewrite chain_tip_spec, (mir_chain _ _ Hm), length_fmap, (length_headers _ _ Htip).
  by rewrite N2Nat.id.
Qed.

(** ** The tables after a block *)

Lemma note_row_ok_mono t t' row :
  note_row_ok t row → block_headers t ⊆ block_headers t' → note_scripts t ⊆ note_scripts t' → note_row_ok t' row.
Proof.
  intros (r & n & ns & Hrow & [h Hh] & Hd) Hheaders Hscripts. exists r, n, ns. split_and!; [done| |].
  - exists h. by eapply lookup_weaken.
  - intros d Hdd. eapply lookup_weaken; [by apply Hd|done].
Qed.

Section block.
Context (t t' : Tables) (tip : BlockNumber) (header : BlockHeader)
  (entries : list (NoteRecord * option Nullifier)) (ns : list Nullifier)
  (updates : list BlockAccountUpdate) (txs : list (TransactionId * AccountId)).
Hypothesis Hok : tables_ok t.
Hypothesis Htip : is_tip t tip.
Hypothesis Hnum : header_block_num header = (tip + 1)%N.
Hypothesis Hentries : Forall (λ e, rec_block_num e.1 = (tip + 1)%N) entries.
Hypothesis Hcommits : Forall (λ u, update_commitment u ≠ digest_default) updates.
Hypothesis Hw : written t header entries ns updates txs t'.

Lemma written_headers_sub : block_headers t ⊆ block_headers t'.
Proof. rewrite (w_headers _ _ _ _ _ _ _ Hw). apply insert_subseteq, (w_new _ _ _ _ _ _ _ Hw). Qed.

Lemma written_new_header : block_headers t' !! (tip + 1)%N = Some header.
Proof. rewrite (w_headers _ _ _ _ _ _ _ Hw), Hnum. apply lookup_insert_eq. Qed.

Lemma written_keeps_block bn : is_Some (block_headers t !! bn) → is_Some (block_headers t' !! bn).
Proof. intros [h Hh]. exists h. eapply lookup_weaken; [done|apply written_headers_sub]. Qed.

Lemma written_tip : is_tip t' (tip + 1)%N.
Proof.
  intros bn. rewrite (w_headers _ _ _ _ _ _ _ Hw), Hnum. destruct (decide (bn = tip + 1)%N) as [->|Hne].
  - rewrite lookup_insert_eq. split; [lia|eauto].
  - rewrite lookup_insert_ne by done. rewrite (Htip bn). lia.
Qed.

Lemma written_accounts id row :
  accounts t' !! id = Some row → accounts t !! id = Some row ∨
  ∃ u, u ∈ updates ∧ update_id u = id ∧ account_updated (tip + 1)%N u row.
Proof.
  intros Hrow. destruct (decide (id ∈ update_id <$> updates)) as [Hin|Hin].
  - apply list_elem_of_fmap in Hin as (u & -> & Hu). right. exists u. split_and!; [done|done|].
    destruct (w_accounts_set _ _ _ _ _ _ _ Hw u Hu) as (row' & Hrow' & Hupd). rewrite Hnum in Hupd.
    rewrite Hrow in Hrow'. by injection Hrow' as <-.
  - left. by rewrite <- (w_accounts_kept _ _ _ _ _ _ _ Hw id Hin).
Qed.

Lemma written_nullifiers n p bn :
  nullifiers t' !! n = Some (p, bn) → nullifiers t !! n = Some (p, bn) ∨ bn = (tip + 1)%N ∧ n ∈ ns.
Proof.
  rewrite (w_nullifiers _ _ _ _ _ _ _ Hw). rewrite lookup_union_Some_raw. intros [Hl|[_ Hl]]; [right|by left].
  apply elem_of_list_to_map_2, list_elem_of_fmap in Hl as (n' & Heq & Hn'). injection Heq as -> _ ->. by rewrite Hnum.
Qed.

Lemma written_notes_ok : Forall (note_row_ok t') (notes t').
Proof.
  rewrite (w_notes _ _ _ _ _ _ _ Hw). apply Forall_fmap, Forall_app. split.
  - eapply Forall_impl; [exact (ok_notes _ Hok)|]. intros row Hrow. cbn.
    apply (note_row_ok_mono _ t') in Hrow as (r & n & ns' & -> & Hb & Hd);
      [|apply written_headers_sub|apply (w_scripts_kept _ _ _ _ _ _ _ Hw)].
    exists r, n, (ns ++ ns'). by rewrite consume_consume.
  - apply Forall_fmap, Forall_forall. intros [r n] Hin. exists r, n, ns. split_and!; [done| |].
    + pose proof (proj1 (Forall_forall _ _) Hentries _ Hin) as Hr. cbn in Hr. rewrite Hr, written_new_header. eauto.
    + intros d Hd. destruct (w_scripts _ _ _ _ _ _ _ Hw _ d Hin Hd) as [sc Hsc].
      pose proof (w_script_roots _ _ _ _ _ _ _ Hw _ _ Hsc) as Hroot.
      apply script_root_inj in Hroot as ->. done.
Qed.

Lemma written_tables_ok : tables_ok t'.
Proof.
  split.
  - intros bn h. rewrite (w_headers _ _ _ _ _ _ _ Hw), lookup_insert_Some.
    intros [[<- <-]|[_ Hh]]; [done|]. by apply Hok.
  - exists (tip + 1)%N. apply written_tip.
  - apply (w_script_roots _ _ _ _ _ _ _ Hw).
  - apply written_notes_ok.
  - apply (w_note_keys _ _ _ _ _ _ _ Hw), Hok.
  - intros n p bn [Hl|[-> _]]%written_nullifiers.
    + destruct (ok_nullifiers _ Hok _ _ _ Hl). split; [done|by apply written_keeps_block].
    + split; [lia|]. rewrite written_new_header. eauto.
  - intros id row [Hl|(u & Hu & <- & Hc & Hb & _ & Hd)]%written_accounts.
    + destruct (ok_accounts _ Hok _ _ Hl) as (Hx & Hy & Hz). split_and!; [done|by apply written_keeps_block|done].
    + split_and!.
      * rewrite Hc. exact (proj1 (Forall_forall _ _) Hcommits _ Hu).
      * rewrite Hb, written_new_header. eauto.
      * intros a Ha. rewrite Hc. by apply Hd.
  - intros tx id bn. rewrite (w_transactions _ _ _ _ _ _ _ Hw), lookup_union_Some_raw. intros [Hl|[_ Hl]].
    + apply elem_of_list_to_map_2, list_elem_of_fmap in Hl as (x & Heq & _). injection Heq as _ _ ->.
      rewrite Hnum, written_new_header. eauto.
    + by eapply written_keeps_block, ok_transactions.
Qed.

End block.

End inv.

(** ** Applying a block to the store

    [apply_block] keeps the in-memory trees consistent with the database on every
    outcome, and a call that fails leaves both as they were. *)

Import Sql.
Import StoreState.

Section apply.
Context `{!MidenObjects} `{!NtxObjects} `{!StoreObjects} `{!StoreTrees} `{!MidenLaws} `{!StoreLaws} `{!TreeLaws}.
Implicit Types (t : Tables) (s : State) (bn : BlockNumber) (block : ProvenBlock).

Abbreviation SM := (M State ApplyBlockError).

Definition block_num block : BlockNumber := header_block_num (block_header block).

(** The entries that a block adds to the trees. *)
Definition spent block : list (Nullifier * BlockNumber) := (λ n, (n, block_num block)) <$> block_created_nullifiers block.

Definition committed block : list (AccountId * Digest) :=
  (λ u, (update_id u, update_commitment u)) <$> block_updated_accounts block.

(** The trees after a block. *)
Definition grown (i : InnerState) block (i' : InnerState) : Prop :=
  nt_entries (nullifier_tree i') = list_to_map (spent block) ∪ nt_entries (nullifier_tree i) ∧
  at_ids (account_tree i') = list_to_set (committed block).*1 ∪ at_ids (account_tree i) ∧
  (∀ id, at_get (account_tree i') id =
    default (at_get (account_tree i) id) ((list_to_map (committed block) : gmap AccountId Digest) !! id)) ∧
  chain_commitments (blockchain i') = chain_commitments (blockchain i) ++ [block_commitment block].

Lemma spent_fst block : (spent block).*1 = block_created_nullifiers block.
Proof. unfold spent. rewrite <- list_fmap_compose. by apply list_fmap_id. Qed.

Lemma committed_fst block : (committed block).*1 = update_id <$> block_updated_accounts block.
Proof. unfold committed. by rewrite <- list_fmap_compose. Qed.

Lemma mirrors_written i i' t t' tip entries block :
  mirrors i t → is_tip t tip → block_num block = (tip + 1)%N → block_ok block →
  written t (block_header block) entries (block_created_nullifiers block) (block_updated_accounts block)
    (block_transactions block) t' →
  grown i block i' → mirrors i' t'.
Proof.
  intros Hm Htip Hnum [Hids _] Hw (G1 & G2 & G3 & G4). split.
  - rewrite G1, (mir_nullifiers _ _ Hm), (w_nullifiers _ _ _ _ _ _ _ Hw), map_fmap_union. f_equal.
    unfold spent. rewrite <- list_to_map_fmap, <- list_fmap_compose. done.
  - rewrite G2, (mir_ids _ _ Hm), committed_fst. apply set_eq. intros id.
    rewrite elem_of_union, elem_of_list_to_set, !elem_of_dom.
    destruct (decide (id ∈ update_id <$> block_updated_accounts block)) as [Hin|Hin].
    + split; [|by left]. intros _. apply list_elem_of_fmap in Hin as (u & -> & Hu).
      destruct (w_accounts_set _ _ _ _ _ _ _ Hw u Hu) as (row & Hrow & _). eauto.
    + rewrite (w_accounts_kept _ _ _ _ _ _ _ Hw id Hin). tauto.
  - intros id. rewrite G3, (mir_accounts _ _ Hm).
    destruct (decide (id ∈ update_id <$> block_updated_accounts block)) as [Hin|Hin].
    + apply list_elem_of_fmap in Hin as (u & -> & Hu).
      destruct (w_accounts_set _ _ _ _ _ _ _ Hw u Hu) as (row & Hrow & Hc & _). rewrite Hrow. cbn.
      rewrite (elem_of_list_to_map_1 (committed block) (update_id u) (update_commitment u)); [by rewrite Hc| |].
      * by rewrite committed_fst.
      * unfold committed. by apply (list_elem_of_fmap_2 (λ u, (update_id u, update_commitment u))).
    + rewrite (w_accounts_kept _ _ _ _ _ _ _ Hw id Hin).
      rewrite (not_elem_of_list_to_map_1 (committed block)); [done|]. by rewrite committed_fst.
  - rewrite G4, (mir_chain _ _ Hm), (w_headers _ _ _ _ _ _ _ Hw).
    change (header_block_num (block_header block)) with (block_num block). rewrite Hnum, headers_snoc.
    + rewrite fmap_app. cbn. by rewrite block_commitment_spec.
    + intros bn Hbn. apply Htip in Hbn. lia.
Qed.

(** ** The steps before the writes *)

Lemma query_gets {E A} (f : DatabaseError → E) (g : Tables → A) s : query f (gets g) s = (s, Ok (g (db s))).
Proof. unfold query, zoom, map_err, transact, gets. by destruct s. Qed.

Lemma wp_query_gets {E A} (f : DatabaseError → E) (g : Tables → A) s (Q : State → A → Prop) X :
  wp (query f (gets g)) s Q X = Q s (g (db s)).
Proof. rewrite wp_unfold. by rewrite query_gets. Qed.

Lemma wp_check_block b e s (Q : State → unit → Prop) X :
  (b = true → Q s tt) → (b = false → X s (InvalidBlock e)) → wp (check_block b e : SM unit) s Q X.
Proof. intros HQ HX. destruct b; cbn; [by apply HQ|by apply HX]. Qed.

Lemma wp_fail_with {E} (fault : option DatabaseError) (f : DatabaseError → E) s (Q : State → unit → Prop) X :
  (fault = None → Q s tt) → (∀ e, X s (f e)) → wp (fail_with fault f) s Q X.
Proof. intros HQ HX. destruct fault; cbn; wp_steps; [by apply HX|by apply HQ]. Qed.

(** The block's header is accepted when it extends the tip. *)
Definition extends t tip block : Prop :=
  is_tip t tip ∧ block_num block = (tip + 1)%N ∧
  ∃ prev, block_headers t !! tip = Some prev ∧ header_prev_block_commitment (block_header block) = header_commitment prev.

Lemma wp_check_header faults block s :
  consistent s →
  wp (check_header faults block) s (λ s' _, s' = s ∧ ∃ tip, extends (db s) tip block) (λ s' _, s' = s).
Proof.
  intros [Hok _]. destruct (ok_headers _ Hok) as [tip Htip]. unfold check_header. wp_steps.
  apply wp_check_block; [intros _|done]. wp_steps. apply wp_fail_with; [intros _|done]. wp_steps.
  unfold Read.select_block_header_by_block_num. rewrite wp_query_gets.
  destruct (proj2 (Htip tip)) as [prev Hprev]; [lia|]. rewrite (last_header _ _ _ Htip Hprev). wp_steps.
  apply wp_check_block; [intros Hnum%bool_decide_eq_true|done]. wp_steps.
  apply wp_check_block; [intros Hcom%bool_decide_eq_true|done]. split; [done|]. exists tip. split_and!; [done| |].
  - unfold block_num. by rewrite Hnum, bn_child_spec, (ok_header_num _ Hok _ _ Hprev).
  - eauto.
Qed.

(** The mutations are those of the current trees. *)
Definition updates_of (i : InnerState) block (u : TreeUpdates) : Prop :=
  nt_compute_mutations (nullifier_tree i) (spent block) = Some (nullifier_tree_update u) ∧
  at_compute_mutations (account_tree i) (committed block) = Some (account_tree_update u) ∧
  nullifier_tree_old_root u = nt_root (nullifier_tree i) ∧ account_tree_old_root u = at_root (account_tree i) ∧
  nm_root (nullifier_tree_update u) = header_nullifier_root (block_header block) ∧
  am_root (account_tree_update u) = header_account_root (block_header block).

Lemma wp_compute_updates block s :
  wp (compute_updates block) s (λ s' u, s' = s ∧ updates_of (inner s) block u) (λ s' _, s' = s).
Proof.
  unfold compute_updates. wp_steps. apply wp_check_block; [intros _|done]. wp_steps.
  apply wp_check_block; [intros _|done]. wp_steps. fold (block_num block). fold (spent block). fold (committed block).
  destruct (nt_compute_mutations _ _) as [nm|] eqn:Hnm; wp_steps; [|done].
  apply wp_check_block; [intros Hr1%bool_decide_eq_true|done]. wp_steps.
  destruct (at_compute_mutations _ _) as [am|] eqn:Ham; wp_steps; [|done].
  apply wp_check_block; [intros Hr2%bool_decide_eq_true|done]. wp_steps. split; [done|]. by split_and!.
Qed.

(** The record of a note of the block. *)
Definition entry_of block (entry : BlockNoteIndex * OutputNote) : NoteRecord * option Nullifier :=
  let full := output_note_full entry.2 in
  (mk_note_record (block_num block) entry.1 (output_note_id entry.2) (output_note_metadata entry.2)
     (details_of <$> full) (block_note_path block entry.1), note_nullifier <$> full).

Lemma wp_build_notes block s :
  wp (build_notes block) s (λ s' r, s' = s ∧ r = entry_of block <$> block_output_notes block) (λ s' _, s' = s).
Proof.
  unfold build_notes. wp_steps. apply wp_check_block; [intros _|done].
  apply (wp_fold_m (λ pre s' r, s' = s ∧ r = entry_of block <$> pre)); [done|].
  intros pre [i note] rest s' r _ [-> ->]. wp_steps. unfold note_record. wp_steps.
  apply wp_check_block; [intros _|done]. wp_steps. split; [done|]. by rewrite fmap_app.
Qed.

(** The staged tables hold the block; nothing else has changed. *)
Lemma wp_stage faults block entries s :
  consistent s → block_ok block →
  wp (stage faults block entries) s (λ s' staged, s' = s ∧
    written (db s) (block_header block) entries (block_created_nullifiers block) (block_updated_accounts block)
      (block_transactions block) staged) (λ s' _, s' = s).
Proof.
  intros [Hok _] [Hids _]. unfold stage. wp_steps. apply wp_fail_with; [intros _|done]. wp_steps.
  pose proof (apply_block_written (db s) (block_header block) entries (block_created_nullifiers block)
    (block_updated_accounts block) (block_transactions block) (ok_script_roots _ Hok) Hids) as Hw.
  unfold pwp in Hw. destruct (Write.apply_block _ _ _ _ _ _) as [staged [u|e|p|]]; wp_steps; by try split.
Qed.

(** ** Publishing *)

Lemma spent_ok block :
  NoDup (block_created_nullifiers block) → block_num block ≠ 0%N →
  NoDup (spent block).*1 ∧ Forall (λ e, e.2 ≠ 0%N) (spent block).
Proof. rewrite spent_fst. intros Hnd Hnum. split; [done|]. by apply Forall_fmap, Forall_true. Qed.

Lemma committed_ok block :
  block_ok block → NoDup (committed block).*1 ∧ Forall (λ e, e.2 ≠ digest_default) (committed block).
Proof. intros [Hids Hc]. rewrite committed_fst. split; [done|]. by apply Forall_fmap. Qed.

Lemma updates_grown i block u :
  updates_of i block u → block_ok block → NoDup (block_created_nullifiers block) → block_num block ≠ 0%N →
  ∃ nt at_, nt_apply_mutations (nullifier_tree i) (nullifier_tree_update u) = Some nt ∧
    at_apply_mutations (account_tree i) (account_tree_update u) = Some at_ ∧
    nt_root nt = header_nullifier_root (block_header block) ∧
    at_root at_ = header_account_root (block_header block) ∧
    grown i block (mk_inner nt (chain_push (blockchain i) (block_commitment block)) at_).
Proof.
  intros (U1 & U2 & _ & _ & U3 & U4) Hb Hnd Hnum.
  destruct (spent_ok _ Hnd Hnum) as [S1 S2]. destruct (committed_ok _ Hb) as [C1 C2].
  destruct (nt_apply_spec _ _ _ U1 S1 S2) as (nt & Hnt & Hent & Hroot).
  destruct (at_apply_spec _ _ _ U2 C1 C2) as (at_ & Hat & Hids & Hroot' & Hget).
  exists nt, at_. split_and!; [done|done|congruence|congruence|]. split_and!; [done|done|done|]. apply chain_push_spec.
Qed.

(** A call that succeeded. *)
Record applied s block s' : Prop := {
  app_extends : ∃ tip, extends (db s) tip block;
  app_written : written (db s) (block_header block) (entry_of block <$> block_output_notes block)
    (block_created_nullifiers block) (block_updated_accounts block) (block_transactions block) (db s');
  app_grown : grown (inner s) block (inner s');
  app_roots : nt_root (nullifier_tree (inner s')) = header_nullifier_root (block_header block) ∧
    at_root (account_tree (inner s')) = header_account_root (block_header block);
  app_fresh : ∀ n, n ∈ block_created_nullifiers block → nt_entries (nullifier_tree (inner s)) !! n = None;
  app_file : block_store s' = <[block_num block := block_bytes block]> (block_store s);
  app_pending : pending_saves s' = pending_saves s;
}.

(** A call that failed: only the file of the next block may have changed. *)
Record unapplied s block s' : Prop := {
  un_db : db s' = db s;
  un_inner : inner s' = inner s;
  un_files : ∀ bn, block_store s' !! bn = block_store s !! bn ∨ bn = block_num block ∧ ∃ tip, extends (db s) tip block;
  un_pending : pending_saves s' = pending_saves s ∨
    pending_saves s' = pending_saves s ++ [(block_num block, block_bytes block)] ∧ ∃ tip, extends (db s) tip block;
}.

Lemma unapplied_refl s block : unapplied s block s.
Proof. split; auto. Qed.

Lemma consistent_applied s block s' : consistent s → block_ok block → applied s block s' → consistent s'.
Proof.
  intros [Hok Hm] Hb [(tip & Htip & Hnum & _) Hw Hg _ _ _ _]. split.
  - eapply (written_tables_ok (db s) (db s')); [done|done|done| |apply Hb|done].
    apply Forall_fmap, Forall_true. done.
  - by eapply mirrors_written.
Qed.

(** Under the write lock nothing has changed, so the mutations apply. *)
Lemma wp_publish faults block u staged entries s tip :
  extends (db s) tip block → block_ok block → updates_of (inner s) block u →
  written (db s) (block_header block) entries (block_created_nullifiers block) (block_updated_accounts block)
    (block_transactions block) staged →
  wp (publish faults block u staged : SM unit) s (λ s' _,
    db s' = staged ∧ grown (inner s) block (inner s') ∧ block_store s' = block_store s ∧
    pending_saves s' = pending_saves s ∧
    nt_root (nullifier_tree (inner s')) = header_nullifier_root (block_header block) ∧
    at_root (account_tree (inner s')) = header_account_root (block_header block)) (λ s' _, s' = s).
Proof.
  intros (_ & Hnum & _) Hb Hu Hw. pose proof Hu as (_ & _ & Hr1 & Hr2 & _).
  destruct (updates_grown _ _ _ Hu Hb (w_nullifiers_nodup _ _ _ _ _ _ _ Hw)) as (nt & at_ & Hnt & Hat & Hr3 & Hr4 & Hg).
  { rewrite Hnum. lia. }
  unfold publish. wp_steps. rewrite decide_False by (rewrite Hr1, Hr2; tauto). wp_steps.
  apply wp_fail_with; [intros _|done]. wp_steps. apply (wp_expect_some _ nt); [done|]. wp_steps.
  apply (wp_expect_some _ at_); [done|]. wp_steps. done.
Qed.

Lemma wp_apply_block faults block s :
  consistent s → block_ok block →
  wp (apply_block faults block : SM unit) s
    (λ s' _, applied s block s' ∧ writer s = false) (λ s' _, unapplied s block s').
Proof.
  intros Hc Hb. unfold apply_block. wp_steps. destruct (writer s); wp_steps; [apply unapplied_refl|].
  eapply wp_mono; [by apply wp_check_header| |by intros ? e ->; apply unapplied_refl].
  cbn beta. intros ? [] [-> [tip Hext]]. wp_steps. unfold spawn_save. wp_steps.
  set (s1 := over_pending (λ l, l ++ [(header_block_num (block_header block), block_bytes block)]) s).
  assert (unapplied s block s1) as Hun.
  { split; [done|done|by left|]. right. split; [done|eauto]. }
  eapply wp_mono; [apply wp_compute_updates| |by intros ? e ->].
  cbn beta. intros ? u [-> Hu]. wp_steps. eapply wp_mono; [apply wp_build_notes| |by intros ? e ->].
  cbn beta. intros ? entries [-> ->]. wp_steps.
  eapply wp_mono; [apply wp_stage; [by destruct Hc|done]| |by intros ? e ->].
  cbn beta. intros ? staged [-> Hw]. unfold await_save. wp_steps. destruct (fault_save faults) as [content|].
  { wp_steps. split; [done|done| |].
    - intros bn. cbn. destruct content as [bytes|]; [|by left].
      destruct (decide (bn = block_num block)) as [->|Hne]; [right; split; [done|eauto]|left].
      by apply lookup_insert_ne.
    - left. cbn. by rewrite removelast_last. }
  wp_steps. eapply wp_mono; [eapply wp_publish; [exact Hext|exact Hb|exact Hu|exact Hw]| |].
  - cbn beta. intros s' [] (P1 & P2 & P3 & P4 & P5). split; [|done]. split; try done.
    + eauto.
    + by rewrite P1.
    + intros n Hn. destruct Hu as (Hnm & _). eapply nt_compute_fresh; [exact Hnm|]. by rewrite spent_fst.
    + rewrite P4. cbn. by rewrite removelast_last.
  - intros ? e ->. split; [done|done| |].
    + intros bn. cbn. destruct (decide (bn = block_num block)) as [->|Hne]; [right; split; [done|eauto]|left].
      by apply lookup_insert_ne.
    + left. cbn. by rewrite removelast_last.
Qed.

End apply.
