(* ===== verification/StoreQueries.v ===== *)
(** * The queries of the store

    Model of the reading methods of [State] in [crates/store/src/state.rs]: each
    combines the database with the in-memory trees, which are read under one lock. *)

From S2P Require Import Prelude.
From S2P Require Import External.
From S2P Require Import NtxAccount.
From S2P Require Import StoreObjects.
From S2P Require Import StoreSql.
From S2P Require Import StoreWrite.
From S2P Require Import StoreRead.
From S2P Require Import StoreTrees.
From S2P Require Import StoreState.
Import Sql.
Import StoreState.

Module Queries.

Section defs.
Context `{!MidenObjects} `{!NtxObjects} `{!StoreObjects} `{!StoreTrees}.
Implicit Types (bn : BlockNumber).

Record TransactionInputs := mk_transaction_inputs {
  ti_account_commitment : Digest;
  ti_nullifiers : list NullifierInfo;
  ti_found_unauthenticated_notes : gset NoteId;
}.

Record BatchInputs := mk_batch_inputs {
  batch_reference_block_header : BlockHeader;
  batch_note_proofs : gmap NoteId NoteInclusionProof;
  batch_partial_block_chain : PartialBlockchain;
}.

Record BlockInputs := mk_block_inputs {
  prev_block_header : BlockHeader;
  block_partial_block_chain : PartialBlockchain;
  account_witnesses : gmap AccountId AccountWitness;
  nullifier_witnesses : gmap Nullifier SmtProof;
  unauthenticated_note_proofs : gmap NoteId NoteInclusionProof;
}.

Inductive QueryError : Type :=
| QueryDatabaseError (e : DatabaseError)
| QueryMmrError
| SelectNoteInclusionProofError (e : DatabaseError)
| SelectBlockHeaderError (e : DatabaseError)
| UnknownBlockReference (highest_block_num latest_block_num : BlockNumber)
| TransactionBlockReferencesEmpty
| InvalidPeaks
| QuerySyncError (e : Read.SyncError).

Abbreviation QM := (M State QueryError).

(** [?] on a result of the chain. *)
Definition or_error {A} (o : option A) (e : QueryError) : QM A :=
  match o with Some a => mret a | None => throw e end.

Definition get_block_header (block_num : option BlockNumber) (include_mmr_proof : bool)
    : QM (option BlockHeader * option MmrProof) :=
  header ← query QueryDatabaseError (Read.select_block_header_by_block_num block_num);
  match header with
  | Some header =>
    if include_mmr_proof then
      s ← get;
      proof ← or_error (chain_open (blockchain (inner s)) (header_block_num header)) QueryMmrError;
      mret (Some header, Some proof)
    else mret (Some header, None)
  | None => mret (None, None)
  end.

(** The assertion of [Db::select_nullifiers_by_prefix] is outside of the query. *)
Definition check_nullifiers_by_prefix (prefix_len : N) (prefixes : list N) bn : QM (list NullifierInfo) :=
  _ ← assert_ (prefix_len =? 16)%N "Only 16-bit prefixes are supported";
  query QueryDatabaseError (Read.select_nullifiers_by_prefix prefix_len prefixes bn).

Definition check_nullifiers (ns : list Nullifier) : QM (list SmtProof) :=
  gets (λ s, nt_open (nullifier_tree (inner s)) <$> ns).

Definition get_notes_by_id (ids : list NoteId) : QM (list NoteRecord) :=
  query QueryDatabaseError (Read.select_notes_by_id ids).

Definition get_current_blockchain_data (block_num : option BlockNumber) : QM (option (BlockHeader * MmrPeaks)) :=
  s ← get;
  latest ← latest_block_num;
  if bool_decide (block_num = Some latest) then mret None else
  header ← query QueryDatabaseError (Read.select_block_header_by_block_num None);
  header ← expect_some header "called `Option::unwrap()` on a `None` value";
  peaks ← or_error (chain_peaks_at (blockchain (inner s)) (header_block_num header)) InvalidPeaks;
  mret (Some (header, peaks)).

(** The greatest block of a set. *)
Definition highest (blocks : gset BlockNumber) : option BlockNumber := last (bt_iter (K := N) blocks).

(** The part common to batch and block inputs: the headers of the blocks and of the
    latest block, which is split off. *)
Definition fetch_headers (blocks : gset BlockNumber) (latest : BlockNumber) (msg : string)
    : QM (BlockHeader * list BlockHeader) :=
  headers ← query SelectBlockHeaderError (Read.select_block_headers (bt_iter (K := N) blocks ++ [latest]));
  index ← expect_some (fst <$> list_find (λ h, header_block_num h = latest) headers) msg;
  expect_some (swap_remove index headers) "swap_remove index should be < len".

Definition get_batch_inputs (tx_reference_blocks : gset BlockNumber) (unauthenticated_note_ids : gset NoteId)
    : QM BatchInputs :=
  if decide (tx_reference_blocks = ∅) then throw TransactionBlockReferencesEmpty else
  proofs ← query SelectNoteInclusionProofError (Read.select_note_inclusion_proofs unauthenticated_note_ids);
  let blocks := tx_reference_blocks ∪ list_to_set (proof_block_num <$> (map_to_list proofs).*2) in
  latest ← latest_block_num;
  top ← expect_some (highest blocks) "we should have checked for empty block references";
  if decide (latest < top)%N then throw (UnknownBlockReference top latest) else
  let blocks := blocks ∖ {[latest]} in
  s ← get;
  mmr ← expect_some (chain_partial_mmr (blockchain (inner s)) blocks latest)
    "latest block num should exist and all blocks in set should be < than latest block";
  '(header, headers) ← fetch_headers blocks latest
    "DB should have returned the header of the batch reference block";
  chain ← expect_some (partial_blockchain_new mmr headers) "partial mmr and block headers should be consistent";
  mret (mk_batch_inputs header proofs chain).

Definition sync_state bn (ids : list AccountId) (tags : list N) : QM (StateSyncUpdate * MmrDelta) :=
  update ← zoom db set_db (map_err QuerySyncError
    (transact (Read.SyncDatabaseError InteractError) (Read.get_state_sync bn ids tags)));
  let tip := header_block_num (ss_block_header update) in
  if decide (bn = tip) then mret (update, mmr_delta_empty bn) else
  s ← get;
  delta ← or_error (chain_delta (blockchain (inner s)) (bn_add bn 1) tip) QueryMmrError;
  mret (update, delta).

Definition sync_notes bn (tags : list N) : QM (NoteSyncUpdate * MmrProof) :=
  update ← zoom db set_db (map_err QuerySyncError
    (transact (Read.SyncDatabaseError InteractError) (Read.get_note_sync bn tags)));
  s ← get;
  proof ← or_error (chain_open (blockchain (inner s)) (header_block_num (ns_block_header update))) QueryMmrError;
  mret (update, proof).

(** The blocks without the latest one, the latest one, and the witnesses. *)
Definition get_block_inputs_witnesses (blocks : gset BlockNumber) (account_ids : list AccountId)
    (ns : list Nullifier)
    : QM (gset BlockNumber * BlockNumber * gmap AccountId AccountWitness * gmap Nullifier SmtProof * PartialMmr) :=
  latest ← latest_block_num;
  let top := default latest (highest blocks) in
  if decide (latest < top)%N then throw (UnknownBlockReference top latest) else
  let blocks := blocks ∖ {[latest]} in
  s ← get;
  mmr ← expect_some (chain_partial_mmr (blockchain (inner s)) blocks latest)
    "latest block num should exist and all blocks in set should be < than latest block";
  let accounts := list_to_map ((λ id, (id, at_open (account_tree (inner s)) id)) <$> account_ids) in
  let nullifiers := list_to_map ((λ n, (n, nt_open (nullifier_tree (inner s)) n)) <$> ns) in
  mret (blocks, latest, accounts, nullifiers, mmr).

Definition get_block_inputs (account_ids : list AccountId) (ns : list Nullifier)
    (unauthenticated_notes : gset NoteId) (reference_blocks : gset BlockNumber) : QM BlockInputs :=
  proofs ← query SelectNoteInclusionProofError (Read.select_note_inclusion_proofs unauthenticated_notes);
  let blocks := reference_blocks ∪ list_to_set (proof_block_num <$> (map_to_list proofs).*2) in
  '(blocks, latest, accounts, nullifiers, mmr) ← get_block_inputs_witnesses blocks account_ids ns;
  '(header, headers) ← fetch_headers blocks latest
    "DB should have returned the header of the latest block header";
  chain ← expect_some (partial_blockchain_new mmr headers) "partial mmr and block headers should be consistent";
  mret (mk_block_inputs header chain accounts nullifiers proofs).

(** [Db::select_note_ids]. *)
Definition select_note_ids (ids : list NoteId) : QM (gset NoteId) :=
  notes ← query QueryDatabaseError (Read.select_notes_by_id ids);
  mret (list_to_set (rec_note_id <$> notes)).

Definition get_transaction_inputs (id : AccountId) (ns : list Nullifier) (unauthenticated_notes : list NoteId)
    : QM TransactionInputs :=
  s ← get;
  let commitment := at_get (account_tree (inner s)) id in
  let infos := (λ n, mk_nullifier_info n (default 0%N (nt_get_block_num (nullifier_tree (inner s)) n))) <$> ns in
  found ← select_note_ids unauthenticated_notes;
  mret (mk_transaction_inputs commitment infos found).

Definition get_account_details (id : AccountId) : QM AccountInfo :=
  query QueryDatabaseError (Read.select_account id).

Definition get_network_account_details_by_prefix (id_prefix : N) : QM (option AccountInfo) :=
  query QueryDatabaseError (Read.select_network_account_by_prefix id_prefix).

Definition get_account_state_delta (id : AccountId) (from_block to_block : BlockNumber) : QM (option AccountDelta) :=
  query QueryDatabaseError (Read.select_account_delta id from_block to_block).

(** [Ok(None)] above the chain tip, where a file may hold an unfinished block. *)
Definition load_block bn : QM (option Bytes) :=
  latest ← latest_block_num;
  if decide (latest < bn)%N then mret None else gets (λ s, block_store s !! bn).

Definition get_unconsumed_network_notes (page : Page) : QM (list NoteRecord * Page) :=
  query QueryDatabaseError (Read.unconsumed_network_notes page).

(** [StoreClient::get_unconsumed_network_notes] of the transaction builder
    ([crates/ntx-builder/src/store.rs]): it follows the tokens from page to page.
    [convert] parses a note of the response. *)
Fixpoint fetch_pages {A} (convert : NoteRecord → option A) (fuel size : nat) (page_token : option nat) (all_notes : list A)
    : QM (list A) :=
  match fuel with
  | 0 => out_of_fuel
  | S fuel =>
    '(found, next) ← get_unconsumed_network_notes (mk_page page_token size);
    match mapM convert found with
    | None => throw (QueryDatabaseError NoteError)
    | Some notes =>
      let all_notes := all_notes ++ notes in
      match token next with
      | Some tok => fetch_pages convert fuel size (Some tok) all_notes
      | None => mret all_notes
      end
    end
  end.

Definition network_notes_page_size : nat := 128.

End defs.

End Queries.
