(* ===== verification/StoreReads.v ===== *)
(** * Theorems about the queries of the store *)

From S2P Require Import Prelude.
From S2P Require Import External.
From S2P Require Import NtxAccount.
From S2P Require Import StoreObjects.
From S2P Require Import StoreSql.
From S2P Require Import StoreWrite.
From S2P Require Import StoreRead.
From S2P Require Import StoreTrees.
From S2P Require Import StoreProofs.
From S2P Require Import StoreState.
From S2P Require Import StoreApply.
From S2P Require Import StoreQueries.
Import Sql.
Import Write.
Import Read.
Import StoreState.
Import Queries.

(** ** Integers of SQLite *)

Lemma get_u64_stored v : (v < 2 ^ 64)%N → get_u64 (u64_to_value v) = if (v <? 2 ^ 63)%N then Some v else None.
Proof.
  intros Hv. unfold get_u64, u64_to_value. destruct (N.ltb_spec v (2 ^ 63)) as [Hlt|Hge].
  - rewrite (proj2 (Z.leb_le 0 (Z.of_N v))) by lia. by rewrite N2Z.id.
  - rewrite (proj2 (Z.leb_gt 0 (Z.of_N v - 2 ^ 64))) by lia. done.
Qed.

Lemma column_value_stored v : (v < 2 ^ 64)%N → column_value_as_u64 (u64_to_value v) = v.
Proof.
  intros Hv. unfold column_value_as_u64, u64_to_value. destruct (N.ltb_spec v (2 ^ 63)) as [Hlt|Hge].
  - rewrite (proj2 (Z.leb_le 0 (Z.of_N v))) by lia. by rewrite N2Z.id.
  - rewrite (proj2 (Z.leb_gt 0 (Z.of_N v - 2 ^ 64))) by lia. lia.
Qed.

Section reads.
Context `{!MidenObjects} `{!NtxObjects} `{!StoreObjects} `{!StoreTrees} `{!MidenLaws} `{!StoreLaws} `{!TreeLaws}.
Implicit Types (t : Tables) (s : State) (bn : BlockNumber) (row : NoteRow).

Abbreviation DB := (M Tables DatabaseError).

(** ** Rows of notes *)

(** The [aux] value of a note survives the database. *)
Definition readable_aux (r : NoteRecord) : bool := (metadata_aux (rec_metadata r) <? 2 ^ 63)%N.

(** The script of a note is stored. *)
Definition script_stored t (r : NoteRecord) : Prop :=
  ∀ d, rec_details r = Some d → note_scripts t !! script_root (details_script d) = Some (details_script d).

Lemma metadata_from_row_spec t r n ns :
  metadata_from_row (consume ns (row_of_note r n)) t =
    if readable_aux r then (t, Ok (rec_metadata r)) else (t, Err (SqliteError "integer out of range")).
Proof.
  unfold metadata_from_row, row_of_note, consume, readable_aux, mbind, M_bind. cbn.
  rewrite note_type_inv. cbn. pose proof (felt_range _ (aux_felt (rec_metadata r))) as Haux.
  rewrite (get_u64_stored _ Haux). destruct (metadata_aux (rec_metadata r) <? 2 ^ 63)%N; cbn; [|done].
  rewrite aux_felt. cbn. rewrite column_value_stored by apply hint_range. rewrite hint_inv. cbn.
  by rewrite metadata_inv.
Qed.

Lemma details_from_row_spec t r n ns :
  script_stored t r →
  details_from_row t (consume ns (row_of_note r n)) = rec_details r ∧
  columns_agree t (consume ns (row_of_note r n)) = true.
Proof.
  intros Hs. unfold details_from_row, columns_agree, script_of, row_of_note, consume. cbn.
  destruct (rec_details r) as [d|] eqn:Hd; cbn; [|done]. rewrite (Hs d Hd). cbn. by rewrite details_inv.
Qed.

Lemma note_from_row_spec t r n ns :
  script_stored t r →
  note_from_row (consume ns (row_of_note r n)) t =
    (if readable_aux r then (t, Ok r) else (t, Err (SqliteError "integer out of range"))).
Proof.
  intros Hs. unfold note_from_row, mbind, M_bind, get. cbn. rewrite note_index_inv. cbn.
  destruct (details_from_row_spec t r n ns Hs) as [Hdet Hcol]. rewrite Hcol. cbn.
  rewrite metadata_from_row_spec. destruct (readable_aux r); [|done].
  unfold row_of_note, consume in Hdet |- *. cbn in *. rewrite Hdet. by destruct r.
Qed.

(** The database gives a note back as it was stored, unless its [aux] field is
    2^63 or more: such a value is stored as a negative integer (as the execution
    hint is) but read back by a conversion that rejects negative integers, so every
    query that meets the row fails. *)
Theorem store_note_roundtrip t r n ns (Hs : script_stored t r) :
  note_from_row (consume ns (row_of_note r n)) t =
    (if (metadata_aux (rec_metadata r) <? 2 ^ 63)%N then (t, Ok r)
     else (t, Err (SqliteError "integer out of range"))).
Proof. by apply note_from_row_spec. Qed.

(** ** Collecting rows *)

(** A conversion that succeeds and reads only. *)
Definition converts {B} (f : NoteRow → DB B) t row (b : B) : Prop := f row t = (t, Ok b).

Lemma collect_converts {B} (f : NoteRow → DB B) t rows (bs : list B) :
  Forall2 (converts f t) rows bs → collect f rows t = (t, Ok bs).
Proof.
  unfold collect. intros Hall.
  enough (∀ acc, fold_m (λ acc row, y ← f row; mret (acc ++ [y])) acc rows t = (t, Ok (acc ++ bs))) as Hx
    by apply (Hx []).
  induction Hall as [|row b rows bs Hf Hall IH]; intros acc; cbn; [by rewrite app_nil_r|].
  unfold mbind, M_bind. unfold converts in Hf. rewrite Hf. cbn. unfold mret, M_ret.
  rewrite IH. by rewrite <- app_assoc.
Qed.

(** Either every row converts, or a row of [P] makes the query fail with [e]. *)
Lemma collect_cases {B} (f : NoteRow → DB B) t (P : NoteRow → Prop) e rows :
  (∀ row, row ∈ rows → (∃ b, converts f t row b) ∨ P row ∧ f row t = (t, Err e)) →
  (∃ bs, Forall2 (converts f t) rows bs ∧ collect f rows t = (t, Ok bs)) ∨
  (∃ row, row ∈ rows ∧ P row) ∧ collect f rows t = (t, Err e).
Proof.
  intros Hrows. unfold collect. enough (∀ acc,
    (∃ bs, Forall2 (converts f t) rows bs ∧ fold_m (λ acc x, y ← f x; mret (acc ++ [y])) acc rows t = (t, Ok (acc ++ bs))) ∨
    (∃ row, row ∈ rows ∧ P row) ∧ fold_m (λ acc x, y ← f x; mret (acc ++ [y])) acc rows t = (t, Err e)) as Hx.
  { exact (Hx []). }
  induction rows as [|row rows IH]; intros acc; cbn [fold_m].
  { left. exists []. by rewrite app_nil_r. }
  destruct (Hrows row (list_elem_of_here _ _)) as [[b Hb]|[HP He]]; cycle 1.
  { right. split; [exists row; by split; [left|]|]. unfold mbind, M_bind. by rewrite He. }
  rewrite (bind_ok (m := y ← f row; mret (acc ++ [y])) (s' := t) (a := acc ++ [b])).
  2:{ unfold mbind, M_bind. unfold converts in Hb. by rewrite Hb. }
  destruct (IH (λ r Hr, Hrows r (list_elem_of_further _ _ _ Hr)) (acc ++ [b])) as [(bs & Hbs & Hf)|[(r & Hr & HP) Hf]].
  - left. exists (b :: bs). split; [by constructor|]. by rewrite Hf, <- app_assoc.
  - right. split; [exists r; split; [by right|done]|done].
Qed.

(** A row whose [aux] column is not negative. *)
Definition readable row : Prop := (0 ≤ nr_aux row)%Z.

#[global] Instance readable_dec row : Decision (readable row) := decide (0 ≤ nr_aux row)%Z.

Lemma readable_aux_spec r n ns : readable (consume ns (row_of_note r n)) ↔ readable_aux r = true.
Proof.
  unfold readable, readable_aux, consume, row_of_note, u64_to_value. cbn.
  pose proof (felt_range _ (aux_felt (rec_metadata r))). destruct (_ <? _)%N; lia.
Qed.

(** A row is read, with its id, if its [aux] value is small enough. *)
Lemma note_from_row_cases t row :
  note_row_ok t row →
  if decide (readable row) then ∃ r, converts note_from_row t row r ∧ rec_note_id r = nr_note_id row
  else note_from_row row t = (t, Err (SqliteError "integer out of range")).
Proof.
  intros (r & n & ns & -> & _ & Hs). pose proof (note_from_row_spec t r n ns Hs) as Hx.
  case_decide as Hr.
  - apply readable_aux_spec in Hr. rewrite Hr in Hx. exists r. done.
  - rewrite Hx. destruct (readable_aux r) eqn:Ha; [|done]. destruct Hr. by apply readable_aux_spec.
Qed.

Lemma note_from_row_readable t row :
  note_row_ok t row → readable row → ∃ r, converts note_from_row t row r.
Proof.
  intros Hok Hr. pose proof (note_from_row_cases t row Hok) as Hx. rewrite decide_True in Hx by done. naive_solver.
Qed.

Lemma Forall_converts {B} (f : NoteRow → DB B) t rows :
  Forall (λ row, ∃ b, converts f t row b) rows → ∃ bs, Forall2 (converts f t) rows bs.
Proof.
  induction rows as [|row rows IH]; intros Hall; [by exists []|].
  apply Forall_cons in Hall as [[b Hb] [bs Hbs]%IH]. exists (b :: bs). by constructor.
Qed.

(** ** Pagination *)

(** Rows numbered from [k] on. *)
Definition numbered (k : nat) (l : list NoteRow) : list (nat * NoteRow) := imap (λ i row, (k + i, row)) l.

Lemma numbered_cons k row l : numbered k (row :: l) = (k, row) :: numbered (S k) l.
Proof.
  unfold numbered. rewrite imap_cons, Nat.add_0_r. f_equal. apply imap_ext. intros i x _. cbn. f_equal. lia.
Qed.

(** The unconsumed network notes, with their rowids. *)
Definition unconsumed t : list (nat * NoteRow) :=
  filter (λ r, is_unconsumed_network r.2 = true) (imap (λ i row, (S i, row)) (notes t)).

Lemma sorted_unconsumed t : StronglySorted (λ x y : nat * NoteRow, x.1 < y.1) (unconsumed t).
Proof.
  enough (∀ (l : list NoteRow) k,
    StronglySorted (λ x y : nat * NoteRow, x.1 < y.1) (filter (λ r, is_unconsumed_network r.2 = true) (numbered k l)) ∧
    Forall (λ x : nat * NoteRow, k ≤ x.1) (filter (λ r, is_unconsumed_network r.2 = true) (numbered k l)))
    as Hx by apply (Hx _ 1).
  intros l. induction l as [|row l IH]; intros k; [by split; constructor|].
  rewrite numbered_cons, filter_cons. destruct (IH (S k)) as [Hs Hf].
  assert (Forall (λ x : nat * NoteRow, k < x.1) (filter (λ r, is_unconsumed_network r.2 = true) (numbered (S k) l)))
    as Hf' by (eapply Forall_impl; [exact Hf|done]).
  assert (Forall (λ x : nat * NoteRow, k ≤ x.1) (filter (λ r, is_unconsumed_network r.2 = true) (numbered (S k) l)))
    by (eapply Forall_impl; [exact Hf'|]; cbn; lia).
  case_decide; split; try done; by constructor.
Qed.

Lemma filter_from (l : list (nat * NoteRow)) i x :
  StronglySorted (λ x y : nat * NoteRow, x.1 < y.1) l → l !! i = Some x →
  filter (λ r : nat * NoteRow, x.1 ≤ r.1) l = drop i l.
Proof.
  revert i. induction l as [|y l IH]; intros i Hs Hi; [done|].
  apply StronglySorted_cons in Hs as [Hall Hs]. destruct i as [|i]; cbn in Hi.
  - injection Hi as ->. rewrite filter_all; [done|]. cbn. constructor; [lia|].
    eapply Forall_impl; [exact Hall|]. cbn. lia.
  - rewrite filter_cons, decide_False; [by apply IH|].
    apply list_elem_of_lookup_2 in Hi. pose proof (proj1 (Forall_forall _ _) Hall _ Hi). cbn in *. lia.
Qed.

(** The rows from a token on. *)
Definition starts t (page_token : option nat) (i : nat) : Prop :=
  match page_token with None => i = 0 | Some k => ∃ x, unconsumed t !! i = Some x ∧ k = x.1 end.

Lemma rows_of_page t page_token i :
  starts t page_token i →
  filter (λ r, is_unconsumed_network r.2 = true) (rows_from (default 0 page_token) t) = drop i (unconsumed t).
Proof.
  intros Hstart. unfold rows_from. rewrite list_filter_filter.
  rewrite (list_filter_iff _ (λ r : nat * NoteRow, default 0 page_token ≤ r.1 ∧ is_unconsumed_network r.2 = true)) by tauto.
  rewrite <- (list_filter_filter (λ r : nat * NoteRow, default 0 page_token ≤ r.1)). fold (unconsumed t).
  destruct page_token as [k|]; cbn in *.
  - destruct Hstart as (x & Hx & ->). apply filter_from; [apply sorted_unconsumed|done].
  - subst i. rewrite drop_0, filter_all; [done|]. apply Forall_forall. intros x _. cbn. lia.
Qed.

Lemma query_ok {E A} (f : DatabaseError → E) (q : DB A) s a :
  q (db s) = (db s, Ok a) → query f q s = (s, Ok a).
Proof. intros Hq. unfold query, zoom, map_err, transact. rewrite Hq. by destruct s. Qed.

Lemma query_err {E A} (f : DatabaseError → E) (q : DB A) s e :
  q (db s) = (db s, Err e) → query f q s = (s, Err (f e)).
Proof. intros Hq. unfold query, zoom, map_err, transact. rewrite Hq. by destruct s. Qed.

Lemma unconsumed_rows t : (unconsumed t).*2 = filter (λ row, is_unconsumed_network row = true) (notes t).
Proof.
  enough (∀ l k, (filter (λ r : nat * NoteRow, is_unconsumed_network r.2 = true) (numbered k l)).*2 =
    filter (λ row, is_unconsumed_network row = true) l) as Hx by apply (Hx _ 1).
  induction l as [|row l IH]; intros k; [done|]. rewrite numbered_cons, !filter_cons. cbn [snd].
  case_decide; cbn; by rewrite IH.
Qed.

Lemma unconsumed_readable t row :
  tables_ok t → row ∈ (unconsumed t).*2 →
  if decide (readable row) then ∃ r, converts note_from_row t row r ∧ rec_note_id r = nr_note_id row
  else note_from_row row t = (t, Err (SqliteError "integer out of range")).
Proof.
  intros Hok. rewrite unconsumed_rows. intros [_ Hrow]%list_elem_of_filter.
  apply note_from_row_cases. exact (proj1 (Forall_forall _ _) (ok_notes _ Hok) _ Hrow).
Qed.

(** A page holds the next notes, and the token of the one after them; a note that
    cannot be read makes the query fail. *)
Lemma page_cases t page i :
  tables_ok t → starts t (token page) i →
  let rows := take (page_size page) (drop i (unconsumed t).*2) in
  (∃ recs, Forall2 (converts note_from_row t) rows recs ∧
    unconsumed_network_notes page t =
      (t, Ok (recs, mk_page (fst <$> unconsumed t !! (i + page_size page)) (page_size page)))) ∨
  (∃ row, row ∈ rows ∧ ¬ readable row) ∧
    unconsumed_network_notes page t = (t, Err (SqliteError "integer out of range")).
Proof.
  intros Hok Hstart rows. unfold unconsumed_network_notes, mbind, M_bind, get. cbn [token page_size].
  rewrite (rows_of_page _ _ _ Hstart), take_take, min_l by lia. rewrite fmap_take, fmap_drop. fold rows.
  destruct (collect_cases note_from_row t (λ row, ¬ readable row) (SqliteError "integer out of range") rows)
    as [(recs & Hrecs & ->)|[Hrow ->]].
  - intros row Hrow%subseteq_take%subseteq_drop.
    pose proof (unconsumed_readable t row Hok Hrow) as Hx. case_decide; naive_solver.
  - left. exists recs. split; [done|]. cbn. rewrite lookup_take_lt by lia. by rewrite lookup_drop.
  - right. by split.
Qed.

Section pages.
Context {A : Type} (convert : NoteRecord → option A).

(** What a row is for the transaction builder, and a row that it cannot have. *)
Definition delivers t (row : NoteRow) (a : A) : Prop :=
  ∃ r, converts note_from_row t row r ∧ convert r = Some a.

Definition refused t (row : NoteRow) : Prop :=
  ¬ readable row ∨ ∃ r, converts note_from_row t row r ∧ convert r = None.

Lemma parse_cases t rows recs :
  Forall2 (converts note_from_row t) rows recs →
  (∃ l, mapM convert recs = Some l ∧ Forall2 (delivers t) rows l) ∨
  (∃ row, row ∈ rows ∧ refused t row) ∧ mapM convert recs = None.
Proof.
  induction 1 as [|row r rows recs Hr Hrecs IH]; [left; by exists []|]. cbn.
  destruct (convert r) as [a|] eqn:Ha; cbn.
  - destruct IH as [(l & -> & Hl)|[(row' & Hrow' & Hbad) ->]]; cbn; [left|right].
    + exists (a :: l). split; [done|]. constructor; [by exists r|done].
    + split; [|done]. exists row'. split; [by right|done].
  - right. split; [|done]. exists row. split; [by left|]. right. by exists r.
Qed.

Lemma fetch_pages_from s size : tables_ok (db s) → 0 < size →
  ∀ fuel page_token i acc, starts (db s) page_token i → length (unconsumed (db s)) - i < fuel →
  Forall2 (delivers (db s)) (take i (unconsumed (db s)).*2) acc →
  (∃ all, Forall2 (delivers (db s)) (unconsumed (db s)).*2 all ∧ fetch_pages convert fuel size page_token acc s = (s, Ok all)) ∨
  (∃ row, row ∈ (unconsumed (db s)).*2 ∧ refused (db s) row) ∧
    ∃ e, fetch_pages convert fuel size page_token acc s = (s, Err (QueryDatabaseError e)).
Proof.
  intros Hok Hsize. induction fuel as [|fuel IH]; intros page_token i acc Hstart Hfuel Hacc; [lia|].
  cbn [fetch_pages]. unfold mbind, M_bind, get_unconsumed_network_notes.
  destruct (page_cases (db s) (mk_page page_token size) i Hok Hstart) as [(recs & Hrecs & Hq)|[(row & Hrow & Hbad) Hq]];
    cbn [page_size token] in *.
  2: { rewrite (query_err _ _ _ _ Hq). right. split; [|by eexists]. exists row. split; [|by left].
       by apply subseteq_take, subseteq_drop in Hrow. }
  rewrite (query_ok _ _ _ _ Hq). cbn.
  destruct (parse_cases _ _ _ Hrecs) as [(l & -> & Hl)|[(row & Hrow & Hbad) ->]].
  2: { right. split; [|by eexists]. exists row. split; [|done]. by apply subseteq_take, subseteq_drop in Hrow. }
  assert (Forall2 (delivers (db s)) (take (i + size) (unconsumed (db s)).*2) (acc ++ l)) as Hnext.
  { rewrite <- take_take_drop. by apply Forall2_app. }
  destruct (unconsumed (db s) !! (i + size)) as [x|] eqn:Hx; cbn.
  - pose proof (lookup_lt_Some _ _ _ Hx). apply (IH _ (i + size)); [by exists x|lia|done].
  - apply lookup_ge_None_1 in Hx. rewrite take_ge in Hnext by by rewrite length_fmap. left. by exists (acc ++ l).
Qed.

End pages.

(** C19: Pagination loses and repeats nothing, while the store does not change. Let the
    transaction builder follow the tokens, with any page size, for as many pages as
    there are unconsumed network notes plus one. Either it receives exactly the
    unconsumed network notes of the store, in the order in which they were stored; or
    it receives nothing, the call ends with an error, and one of these notes is to
    blame: its [aux] value is 2^63 or more, which the store accepts but cannot read
    back, or the builder cannot parse it. *)
Theorem store_pages {A} (convert : NoteRecord → option A) size s (Hsize : 0 < size) (Hok : tables_ok (db s)) :
  let rows := filter (λ row, is_unconsumed_network row = true) (notes (db s)) in
  (∃ all, Forall2 (delivers convert (db s)) rows all ∧
    fetch_pages convert (S (length rows)) size None [] s = (s, Ok all)) ∨
  (∃ row, row ∈ rows ∧ refused convert (db s) row) ∧
    ∃ e, fetch_pages convert (S (length rows)) size None [] s = (s, Err (QueryDatabaseError e)).
Proof.
  intros rows. assert (length rows = length (unconsumed (db s))) as Hlen.
  { unfold rows. by rewrite <- unconsumed_rows, length_fmap. }
  rewrite Hlen. unfold rows. rewrite <- unconsumed_rows.
  apply (fetch_pages_from convert s size Hok Hsize) with (i := 0); [done|lia|constructor].
Qed.

(** ** Synchronisation *)

(** [From<NoteRecord> for NoteSyncRecord]. *)
Definition sync_of (r : NoteRecord) : NoteSyncRecord :=
  mk_note_sync_record (rec_block_num r) (rec_note_index r) (rec_note_id r) (rec_metadata r) (rec_merkle_path r).

Lemma sync_note_readable t row :
  note_row_ok t row → readable row →
  ∃ n, converts sync_note_from_row t row n ∧ sync_block_num n = nr_block_num row.
Proof.
  intros (r & n & ns & -> & _ & Hs) Hr%readable_aux_spec. exists (sync_of r). split; [|done]. unfold converts.
  unfold sync_note_from_row, mbind, M_bind. cbn. rewrite note_index_inv. cbn.
  by rewrite metadata_from_row_spec, Hr.
Qed.

Lemma next_block_spec tags ids bn t :
  match next_block tags ids bn t with
  | Some next => (bn < next)%N ∧ (∃ row, row ∈ notes t ∧ matches tags ids row = true ∧ nr_block_num row = next) ∧
      ∀ row, row ∈ notes t → matches tags ids row = true → (bn < nr_block_num row)%N → (next ≤ nr_block_num row)%N
  | None => ∀ row, row ∈ notes t → matches tags ids row = true → ¬ (bn < nr_block_num row)%N
  end.
Proof.
  unfold next_block. set (bs := nr_block_num <$> _).
  assert (∀ b, b ∈ bs ↔ ∃ row, row ∈ notes t ∧ matches tags ids row = true ∧ (bn < nr_block_num row)%N ∧ nr_block_num row = b)
    as Hbs.
  { intros b. unfold bs. rewrite list_elem_of_fmap. setoid_rewrite list_elem_of_filter. naive_solver. }
  assert (StronglySorted N.le (merge_sort N.le bs)) as Hs by (apply StronglySorted_merge_sort; apply _).
  assert (∀ b, b ∈ merge_sort N.le bs ↔ b ∈ bs) as Hin by (intros b; by rewrite merge_sort_Permutation).
  destruct (merge_sort N.le bs) as [|next l]; cbn.
  - intros row Hrow Hm Hlt. apply (not_elem_of_nil (nr_block_num row)), Hin, Hbs. eauto.
  - assert (next ∈ bs) as (row & Hrow & Hm & Hlt & <-)%Hbs by (apply Hin; left).
    split_and!; [done|eauto|]. intros row' Hrow' Hm' Hlt'.
    assert (nr_block_num row' ∈ nr_block_num row :: l) as [->|Hl]%elem_of_cons by (apply Hin, Hbs; eauto); [done|].
    apply StronglySorted_cons in Hs as [Hall _]. exact (proj1 (Forall_forall _ _) Hall _ Hl).
Qed.

(** The notes of a sync from [bn] on, and the block it reaches. *)
Lemma sync_query t bn tags ids :
  tables_ok t → Forall readable (notes t) → length ids ≤ account_id_limit → length tags ≤ note_tag_limit →
  ∃ found header,
    select_notes_since_block_by_tag_and_sender tags ids bn t = (t, Ok found) ∧
    sync_header found t = (t, Ok header) ∧
    block_headers t !! header_block_num header = Some header ∧
    Forall2 (converts sync_note_from_row t) (filter (λ row, matches tags ids row = true ∧
      (bn < nr_block_num row)%N ∧ (nr_block_num row ≤ header_block_num header)%N) (notes t)) found ∧
    Forall (λ n, sync_block_num n = header_block_num header) found ∧
    (found = [] → is_tip t (header_block_num header)).
Proof.
  intros Hok Hread Hids Htags. destruct (ok_headers _ Hok) as [tip Htip].
  assert (select_notes_since_block_by_tag_and_sender tags ids bn t =
    (match next_block tags ids bn t with
     | Some next => collect sync_note_from_row (filter (λ row, nr_block_num row = next ∧ matches tags ids row = true) (notes t))
     | None => mret [] end) t) as Hsel.
  { unfold select_notes_since_block_by_tag_and_sender, check_limit, mbind, M_bind.
    rewrite (decide_False (P := account_id_limit < length ids)) by lia. cbn.
    rewrite (decide_False (P := note_tag_limit < length tags)) by lia. cbn. done. }
  pose proof (next_block_spec tags ids bn t) as Hnext. destruct (next_block tags ids bn t) as [next|].
  - destruct Hnext as (Hlt & (row0 & Hrow0 & Hm0 & Hb0) & Hmin).
    assert (is_Some (block_headers t !! next)) as [header Hheader].
    { destruct (proj1 (Forall_forall _ _) (ok_notes _ Hok) _ Hrow0) as (r & n & ns & Heq & Hb & _).
      rewrite <- Hb0, Heq. done. }
    pose proof (ok_header_num _ Hok _ _ Hheader) as Hnum.
    assert (∀ row, row ∈ filter (λ row, nr_block_num row = next ∧ matches tags ids row = true) (notes t) →
      ∃ n, converts sync_note_from_row t row n ∧ sync_block_num n = nr_block_num row) as Hconv.
    { intros row [_ Hin]%list_elem_of_filter. apply sync_note_readable.
      - exact (proj1 (Forall_forall _ _) (ok_notes _ Hok) _ Hin).
      - exact (proj1 (Forall_forall _ _) Hread _ Hin). }
    destruct (Forall_converts sync_note_from_row t
      (filter (λ row, nr_block_num row = next ∧ matches tags ids row = true) (notes t))) as [found Hfound].
    { apply Forall_forall. intros row Hin. destruct (Hconv row Hin) as (n & Hn & _). eauto. }
    assert (Forall (λ n, sync_block_num n = next) found) as Hblocks.
    { apply Forall_forall. intros n Hn. apply list_elem_of_lookup in Hn as [i Hi].
      destruct (Forall2_lookup_r _ _ _ _ _ Hfound Hi) as (row & Hrow & Hc).
      apply list_elem_of_lookup_2 in Hrow. destruct (Hconv _ Hrow) as (n' & Hn' & Hb).
      unfold converts in Hc, Hn'. rewrite Hc in Hn'. injection Hn' as <-.
      apply list_elem_of_filter in Hrow as [[Hrb _] _]. congruence. }
    exists found, header. rewrite Hnum. split_and!; [| |done| |done|].
    + rewrite Hsel. by apply collect_converts.
    + destruct found as [|n found].
      { apply Forall2_nil_inv_r in Hfound. exfalso. apply (not_elem_of_nil row0). rewrite <- Hfound.
        by apply list_elem_of_filter. }
      apply Forall_cons in Hblocks as [Hn _]. unfold sync_header, select_block_header_by_block_num, mbind, M_bind. cbn.
      by rewrite Hn, Hheader.
    + erewrite filter_ext_in; [exact Hfound|]. cbn. intros row Hin. split.
      * intros (Hm & Hl & Hle). split; [|done]. apply N.le_antisymm; [done|]. by apply Hmin.
      * intros [-> Hm]. done.
    + intros ->. apply Forall2_nil_inv_r in Hfound. exfalso. apply (not_elem_of_nil row0). rewrite <- Hfound.
      by apply list_elem_of_filter.
  - destruct (proj2 (Htip tip)) as [header Hheader]; [lia|]. pose proof (ok_header_num _ Hok _ _ Hheader) as Hnum.
    exists [], header. rewrite Hnum. split_and!; [done| |done| |constructor|done].
    + unfold sync_header, select_block_header_by_block_num, mbind, M_bind. cbn.
      by rewrite (last_header _ _ _ Htip Hheader).
    + assert (filter (λ row, matches tags ids row = true ∧ (bn < nr_block_num row)%N ∧ (nr_block_num row ≤ tip)%N)
        (notes t) = []) as ->; [|constructor].
      apply filter_none. apply Forall_forall. intros row Hin (Hm & Hl & _). by apply (Hnext row).
Qed.

(** Note synchronisation skips nothing. From a consistent state with readable
    notes a request with at most 1000 tags succeeds and changes nothing. It returns
    exactly the matching notes in the blocks after [bn] up to and including the block
    of the returned header, all of which are in that block; with no such note the
    header is that of the chain tip. So a client that repeats the request from the
    returned block receives every matching note exactly once. *)
Theorem store_sync_notes s bn tags (Hc : consistent s) (Hread : Forall readable (notes (db s)))
    (Htags : length tags ≤ note_tag_limit) :
  ∃ update proof, sync_notes bn tags s = (s, Ok (update, proof)) ∧
    let tip := header_block_num (ns_block_header update) in
    block_headers (db s) !! tip = Some (ns_block_header update) ∧
    chain_open (blockchain (inner s)) tip = Some proof ∧
    Forall2 (converts sync_note_from_row (db s))
      (filter (λ row, matches tags [] row = true ∧ (bn < nr_block_num row)%N ∧ (nr_block_num row ≤ tip)%N) (notes (db s)))
      (ns_notes update) ∧
    Forall (λ n, sync_block_num n = tip) (ns_notes update) ∧
    (ns_notes update = [] → is_tip (db s) tip).
Proof.
  destruct Hc as [Hok Hm].
  destruct (sync_query (db s) bn tags [] Hok Hread) as (found & header & Hsel & Hhead & Hin & Hall & Hblk & Htip);
    [cbn; unfold account_id_limit; lia|done|].
  assert (is_Some (chain_open (blockchain (inner s)) (header_block_num header))) as [proof Hproof].
  { destruct (ok_headers _ Hok) as [top Htop]. apply chain_open_spec.
    rewrite (mir_chain _ _ Hm), length_fmap, (length_headers _ _ Htop).
    assert (header_block_num header ≤ top)%N by (apply Htop; eauto). lia. }
  exists (mk_note_sync found header), proof. split; [|done].
  unfold sync_notes, zoom, get_note_sync, transact, map_err, mbind, M_bind, check_limit.
  rewrite decide_False by lia. cbn. rewrite Hsel, Hhead. cbn. rewrite Hproof. cbn. by destruct s.
Qed.

End reads.
