(* ===== verification/StoreTheorems.v ===== *)
(** * Theorems about the store's state *)

From S2P Require Import Prelude.
From S2P Require Import External.
From S2P Require Import NtxAccount.
From S2P Require Import StoreObjects.
From S2P Require Import StoreSql.
From S2P Require Import StoreWrite.
From S2P Require Import StoreRead.
From S2P Require Import StoreTrees.
From S2P Require Import StoreProofs.
From S2P Require Import StoreState.
From S2P Require Import StoreApply.
From S2P Require Import StoreQueries.
From S2P Require Import StoreReads.
Import Sql.
Import Write.
Import Read.
Import StoreState.

Section theorems.
Context `{!MidenObjects} `{!NtxObjects} `{!StoreObjects} `{!StoreTrees} `{!MidenLaws} `{!StoreLaws} `{!TreeLaws}.
Implicit Types (t : Tables) (s : State) (bn : BlockNumber) (block : ProvenBlock).

Abbreviation SM := (M State ApplyBlockError).

(** ** What a block makes of each table *)

(** A row of [notes] but for its consumed flag. *)
Definition set_consumed (b : bool) (row : NoteRow) : NoteRow :=
  mk_note_row (nr_block_num row) (nr_batch_index row) (nr_note_index row) (nr_note_id row) (nr_note_type row)
    (nr_sender row) (nr_tag row) (nr_execution_mode row) (nr_aux row) (nr_execution_hint row) (nr_merkle_path row) b
    (nr_nullifier row) (nr_assets row) (nr_inputs row) (nr_script_root row) (nr_serial_num row).

(** The row of a note that the block consumes, or leaves as it was. *)
Definition row_kept block (row row' : NoteRow) : Prop :=
  row' = set_consumed (nr_consumed row') row ∧
  (nr_consumed row' = true ↔
    nr_consumed row = true ∨ ∃ n, nr_nullifier row = Some n ∧ n ∈ block_created_nullifiers block).

(** The row of an output note of the block: its columns, and what the reader of notes
    makes of it. *)
Definition row_made block t' (entry : BlockNoteIndex * OutputNote) (row' : NoteRow) : Prop :=
  let meta := output_note_metadata entry.2 in
  let record := mk_note_record (block_num block) entry.1 (output_note_id entry.2) meta
    (details_of <$> output_note_full entry.2) (block_note_path block entry.1) in
  note_key row' = (block_num block, batch_idx entry.1, note_idx_in_batch entry.1) ∧
  nr_note_id row' = output_note_id entry.2 ∧ nr_sender row' = metadata_sender meta ∧
  nr_tag row' = metadata_tag meta ∧ nr_execution_mode row' = tag_execution_mode (metadata_tag meta) ∧
  nr_nullifier row' = note_nullifier <$> output_note_full entry.2 ∧
  (nr_consumed row' = true ↔ ∃ n, nr_nullifier row' = Some n ∧ n ∈ block_created_nullifiers block) ∧
  note_from_row row' t' = (t', if (metadata_aux meta <? 2 ^ 63)%N then Ok record
                               else Err (SqliteError "integer out of range")).

(** The eleven tables after a block. *)
Record block_effects t block t' : Prop := {
  be_headers : block_headers t !! block_num block = None ∧
    block_headers t' = <[block_num block := block_header block]> (block_headers t);
  be_accounts_kept id : id ∉ update_id <$> block_updated_accounts block → accounts t' !! id = accounts t !! id;
  be_accounts u : u ∈ block_updated_accounts block → ∃ row delta, accounts t' !! update_id u = Some row ∧
    account_updated (block_num block) u row ∧ update_result t u (details row) delta;
  be_deltas : deltas_written (block_num block) (deltas_of t (block_updated_accounts block)) t t';
  be_notes : ∃ kept made, notes t' = kept ++ made ∧ Forall2 (row_kept block) (notes t) kept ∧
    Forall2 (row_made block t') (block_output_notes block) made;
  be_scripts root script : note_scripts t' !! root = Some script ↔ note_scripts t !! root = Some script ∨
    root = script_root script ∧ ∃ e note, e ∈ block_output_notes block ∧ output_note_full e.2 = Some note ∧
      details_script (details_of note) = script;
  be_nullifiers : rows_added (nullifiers t) (nullifiers t') (λ n v,
    n ∈ block_created_nullifiers block ∧ v = (nullifier_prefix n, block_num block));
  be_nullifiers_new n : n ∈ block_created_nullifiers block → nullifiers t !! n = None;
  be_transactions : rows_added (transactions t) (transactions t') (λ tx v, ∃ id,
    (tx, id) ∈ block_transactions block ∧ v = (id, block_num block));
  be_transactions_new tx id : (tx, id) ∈ block_transactions block → transactions t !! tx = None;
}.

Lemma row_kept_consume block row : row_kept block row (consume (block_created_nullifiers block) row).
Proof.
  split; [done|]. cbn. destruct (nr_nullifier row) as [n|]; rewrite orb_true_iff, ?bool_decide_eq_true; naive_solver.
Qed.

Lemma row_made_consume block t' entry :
  script_stored t' (entry_of block entry).1 →
  row_made block t' entry
    (consume (block_created_nullifiers block) (row_of_note (entry_of block entry).1 (entry_of block entry).2)).
Proof.
  intros Hs. unfold row_made. cbn zeta. do 6 (split; [done|]). split.
  - cbn. destruct (output_note_full entry.2) as [note|]; cbn; rewrite ?bool_decide_eq_true; naive_solver.
  - rewrite (note_from_row_spec t' _ _ _ Hs). unfold readable_aux. cbn. by case_match.
Qed.

(** The rows of a list with distinct keys, as a map on top of another. *)
Lemma rows_added_list `{Countable K} {V} (l : list (K * V)) (m : gmap K V) :
  NoDup l.*1 → (∀ k v, (k, v) ∈ l → m !! k = None) → rows_added m (list_to_map l ∪ m) (λ k v, (k, v) ∈ l).
Proof.
  intros Hnd Hnew k v. rewrite lookup_union_Some_raw. split.
  - intros [Hl|[_ Hl]]; [right|by left]. by apply elem_of_list_to_map_2.
  - intros [Hm|Hl]; [|left; by apply elem_of_list_to_map_1]. right. split; [|done].
    apply not_elem_of_list_to_map_1. intros ([k' v'] & -> & Hin)%list_elem_of_fmap. specialize (Hnew _ _ Hin). 
    cbn in *. congruence.
Qed.

Lemma written_effects t block t' :
  tables_ok t → tables_ok t' →
  written t (block_header block) (entry_of block <$> block_output_notes block)
    (block_created_nullifiers block) (block_updated_accounts block) (block_transactions block) t' →
  block_effects t block t'.
Proof.
  intros Hok Hok' Hw. split.
  - split; [apply (w_new _ _ _ _ _ _ _ Hw)|apply (w_headers _ _ _ _ _ _ _ Hw)].
  - apply (w_accounts_kept _ _ _ _ _ _ _ Hw).
  - intros u Hu. destruct (w_accounts_set _ _ _ _ _ _ _ Hw u Hu) as (row & Hrow & Hupd).
    destruct (w_details _ _ _ _ _ _ _ Hw u Hu) as (row' & delta & Hrow' & Hres).
    rewrite Hrow in Hrow'. injection Hrow' as <-. exists row, delta. by split_and!.
  - apply (w_deltas _ _ _ _ _ _ _ Hw).
  - rewrite (w_notes _ _ _ _ _ _ _ Hw), fmap_app. eexists _, _. split; [reflexivity|]. split.
    + apply Forall2_fmap_r, Forall_Forall2_diag, Forall_true. apply row_kept_consume.
    + rewrite <- !list_fmap_compose. apply Forall2_fmap_r, Forall_Forall2_diag, Forall_forall.
      intros e He. apply row_made_consume. intros d Hd.
      destruct (w_scripts _ _ _ _ _ _ _ Hw (entry_of block e) d) as [sc Hsc]; [by apply list_elem_of_fmap_2|done|].
      pose proof (w_script_roots _ _ _ _ _ _ _ Hw _ _ Hsc) as ->%script_root_inj. done.
  - intros root script. split.
    + intros Hs. destruct (w_scripts_new _ _ _ _ _ _ _ Hw _ _ Hs) as [|(e & d & He & Hd & <-)]; [by left|right].
      split; [symmetry; by apply (w_script_roots _ _ _ _ _ _ _ Hw)|].
      apply list_elem_of_fmap in He as (e' & -> & He'). cbn in Hd. apply fmap_Some in Hd as (note & Hnote & ->). eauto.
    + intros [Hs|(-> & e & note & He & Hnote & <-)].
      * eapply lookup_weaken; [exact Hs|apply (w_scripts_kept _ _ _ _ _ _ _ Hw)].
      * destruct (w_scripts _ _ _ _ _ _ _ Hw (entry_of block e) (details_of note)) as [sc Hsc];
          [by apply list_elem_of_fmap_2|cbn; by rewrite Hnote|].
        pose proof (w_script_roots _ _ _ _ _ _ _ Hw _ _ Hsc) as ->%script_root_inj. done.
  - rewrite (w_nullifiers _ _ _ _ _ _ _ Hw). eapply rows_added_iff; [apply rows_added_list|].
    + rewrite <- list_fmap_compose. cbn. rewrite list_fmap_id. apply (w_nullifiers_nodup _ _ _ _ _ _ _ Hw).
    + intros n v (n' & [= -> ->] & Hn)%list_elem_of_fmap. by apply (w_nullifiers_fresh _ _ _ _ _ _ _ Hw).
    + intros n v. rewrite list_elem_of_fmap. cbn. naive_solver.
  - apply (w_nullifiers_fresh _ _ _ _ _ _ _ Hw).
  - rewrite (w_transactions _ _ _ _ _ _ _ Hw). eapply rows_added_iff; [apply rows_added_list|].
    + rewrite <- list_fmap_compose. apply (w_transactions_nodup _ _ _ _ _ _ _ Hw).
    + intros tx v (x & [= -> ->] & Hx)%list_elem_of_fmap. by apply (w_transactions_fresh _ _ _ _ _ _ _ Hw).
    + intros tx v. rewrite list_elem_of_fmap. cbn. split; [intros ([] & [= -> ->] & Hx); eauto|].
      intros (id & Hx & ->). by exists (tx, id).
  - intros tx id Hx. apply (w_transactions_fresh _ _ _ _ _ _ _ Hw _ Hx).
Qed.

(** ** Applying a block *)

(** C12: Applying a block is atomic and has exactly the block's effects. Take a
    consistent state, and a block with one update per account and no update to the
    empty commitment ([block_ok], which the protocol library guarantees), and let the
    first query, the save of the file, the writing task and the commit fail in any
    way: [apply_block] never panics and the trees stay consistent with the database.
    If it succeeds, the block extends the chain tip, and each of the eleven tables is
    the old one plus what the block says ([block_effects]): its header; for each
    updated account the new commitment, block number and details, and the rows of its
    delta; one row per output note, which reads back as that note (unless its [aux]
    is 2^63 or more, which no query can read) and whose script is stored; the
    consumed flag on exactly the notes, new or old, whose nullifier is in the block;
    its nullifiers, none of which was there before, and its transactions; and nothing
    else. The trees and the chain have the same nullifiers, commitments and block,
    their roots are those of the header, and the file is written. If it fails, the
    database and the trees are unchanged, and no file but that of the next block has
    been touched. *)
Theorem store_apply_block s faults block (Hc : consistent s) (Hb : block_ok block) :
  match (apply_block faults block : SM unit) s with
  | (s', Ok _) => consistent s' ∧
      (∃ tip, extends (db s) tip block ∧ chain_tip (blockchain (inner s')) = Some (block_num block)) ∧
      block_effects (db s) block (db s') ∧
      (∀ n, n ∈ block_created_nullifiers block → nt_get_block_num (nullifier_tree (inner s)) n = None) ∧
      (∀ n, nt_get_block_num (nullifier_tree (inner s')) n =
        if decide (n ∈ block_created_nullifiers block) then Some (block_num block)
        else nt_get_block_num (nullifier_tree (inner s)) n) ∧
      (∀ u, u ∈ block_updated_accounts block →
        at_get (account_tree (inner s')) (update_id u) = update_commitment u) ∧
      (∀ id, id ∉ update_id <$> block_updated_accounts block →
        at_get (account_tree (inner s')) id = at_get (account_tree (inner s)) id) ∧
      chain_commitments (blockchain (inner s')) =
        chain_commitments (blockchain (inner s)) ++ [block_commitment block] ∧
      nt_root (nullifier_tree (inner s')) = header_nullifier_root (block_header block) ∧
      at_root (account_tree (inner s')) = header_account_root (block_header block) ∧
      block_store s' = <[block_num block := block_bytes block]> (block_store s)
  | (s', Err _) => consistent s' ∧ db s' = db s ∧ inner s' = inner s ∧
      ∀ bn, bn ≠ block_num block ∨ is_Some (block_headers (db s) !! bn) → block_store s' !! bn = block_store s !! bn
  | _ => False
  end.
Proof.
  pose proof (wp_apply_block faults block s Hc Hb) as Hwp. rewrite wp_unfold in Hwp.
  destruct (apply_block faults block s) as [s' [u|e|p|]]; try done.
  - destruct Hwp as [Happ _]. pose proof (consistent_applied _ _ _ Hc Hb Happ) as Hc'.
    destruct Happ as [[tip Hext] Hw (G1 & G2 & G3 & G4) [Hr1 Hr2] Hfresh Hfile _].
    pose proof Hext as (Htip & Hnum & _). split_and!; try done.
    + exists tip. split; [done|]. apply (mirrors_tip _ (db s')); [apply Hc'|]. rewrite Hnum. by eapply written_tip.
    + apply written_effects; [apply Hc|apply Hc'|done].
    + intros n Hn. rewrite nt_get_spec. by apply Hfresh.
    + intros n. rewrite !nt_get_spec, G1. case_decide as Hn.
      * apply lookup_union_Some_l, elem_of_list_to_map_1.
        -- rewrite spent_fst. apply (w_nullifiers_nodup _ _ _ _ _ _ _ Hw).
        -- unfold spent. by apply (list_elem_of_fmap_2 (λ n, (n, block_num block))).
      * apply lookup_union_r, not_elem_of_list_to_map_1. by rewrite spent_fst.
    + intros u' Hu. rewrite G3, (elem_of_list_to_map_1 (committed block) _ (update_commitment u')); [done| |].
      * rewrite committed_fst. apply Hb.
      * unfold committed. by apply (list_elem_of_fmap_2 (λ u, (update_id u, update_commitment u))).
    + intros id Hid. rewrite G3, (not_elem_of_list_to_map_1 (committed block)); [done|]. by rewrite committed_fst.
  - destruct Hwp as [Hdb Hinner Hfiles _]. split_and!; [|done|done|].
    + destruct Hc as [Hok Hm]. split; [by rewrite Hdb|by rewrite Hdb, Hinner].
    + intros bn Hbn. destruct (Hfiles bn) as [|[-> (tip & Htip & Hnum & _)]]; [done|].
      destruct Hbn as [|Hbn%Htip]; [done|lia].
Qed.

(** ** Restart *)

(** The entries the nullifier tree is loaded from. *)
Lemma nullifier_entries t :
  ((λ i, (ni_nullifier i, ni_block_num i)) <$>
    Read.by_block ni_block_num (Read.info_of <$> map_to_list (nullifiers t))) ≡ₚ map_to_list (snd <$> nullifiers t).
Proof.
  rewrite by_block_perm, <- list_fmap_compose, map_to_list_fmap. apply Permutation_refl'.
  apply list_fmap_ext. by intros i [n [p bn]].
Qed.

Lemma account_entries t :
  ((λ x, (as_account_id x, as_commitment x)) <$>
    Read.by_block as_block_num (Read.summary_of <$> map_to_list (accounts t))) ≡ₚ
  map_to_list (account_commitment <$> accounts t).
Proof.
  rewrite by_block_perm, <- list_fmap_compose, map_to_list_fmap. apply Permutation_refl'.
  apply list_fmap_ext. by intros i [id row].
Qed.

(** Loading from the tables of a consistent state. *)
Lemma load_consistent s files (Hc : consistent s) :
  ∃ s', load files (db s) = (db s, Ok s') ∧ consistent s' ∧ db s' = db s ∧ block_store s' = files.
Proof.
  destruct Hc as [Hok Hm].
  set (ns := (λ i, (ni_nullifier i, ni_block_num i)) <$>
    Read.by_block ni_block_num (Read.info_of <$> map_to_list (nullifiers (db s)))).
  set (accs := (λ x, (as_account_id x, as_commitment x)) <$>
    Read.by_block as_block_num (Read.summary_of <$> map_to_list (accounts (db s)))).
  assert (NoDup ns.*1) as Hnd1 by (unfold ns; rewrite nullifier_entries; apply NoDup_fst_map_to_list).
  assert (NoDup accs.*1) as Hnd2 by (unfold accs; rewrite account_entries; apply NoDup_fst_map_to_list).
  assert (list_to_map ns = snd <$> nullifiers (db s)) as Hns.
  { rewrite <- (list_to_map_to_list (snd <$> nullifiers (db s))).
    apply list_to_map_proper; [done|]. apply nullifier_entries. }
  assert (list_to_map accs = account_commitment <$> accounts (db s)) as Haccs.
  { rewrite <- (list_to_map_to_list (account_commitment <$> accounts (db s))).
    apply list_to_map_proper; [done|]. apply account_entries. }
  assert (∀ id, id ∈ accs.*1 ↔ id ∈ dom (accounts (db s))) as Hids.
  { intros id. rewrite <- (dom_fmap_L account_commitment), <- Haccs, dom_list_to_map_L. by rewrite elem_of_list_to_set. }
  destruct (nt_with_entries_spec ns Hnd1) as (nt & Hnt & Hent).
  { apply Forall_forall. intros [n bn]. unfold ns. rewrite nullifier_entries, elem_of_map_to_list, lookup_fmap_Some.
    intros ([p bn'] & <- & Hl). cbn. by apply (ok_nullifiers _ Hok) in Hl as []. }
  destruct (at_with_entries_spec accs Hnd2) as (at_ & Hat & Hat_ids & Hget).
  { apply Forall_forall. intros [id d]. unfold accs. rewrite account_entries, elem_of_map_to_list, lookup_fmap_Some.
    intros (row & <- & Hl). by apply (ok_accounts _ Hok) in Hl as (? & _). }
  { intros id id' Hid Hid'. apply (at_ids_slot (account_tree (inner s))); rewrite (mir_ids _ _ Hm); by apply Hids. }
  eexists. split.
  { unfold load, load_nullifier_tree, load_mmr, load_accounts, mbind, M_bind, map_err.
    unfold Read.select_all_nullifiers, Read.select_all_block_headers, Read.select_all_account_commitments.
    cbn. fold ns. rewrite Hnt. cbn. fold accs. rewrite Hat. reflexivity. }
  cbn. split_and!; [split; [done|]|done|done]. split; cbn.
  - by rewrite Hent.
  - rewrite Hat_ids. apply set_eq. intros id. rewrite elem_of_list_to_set. apply Hids.
  - intros id. rewrite Hget, Haccs. by rewrite lookup_fmap.
  - apply chain_of_spec.
Qed.

(** C14: A restart loses nothing. Loading the state from the database of a consistent
    state succeeds and changes no table, and the trees it builds have the same
    nullifiers, the same accounts and the same chain as those that were kept in
    memory. *)
Theorem store_reload s files (Hc : consistent s) :
  ∃ s', load files (db s) = (db s, Ok s') ∧ consistent s' ∧ db s' = db s ∧
    (∀ n, nt_get_block_num (nullifier_tree (inner s')) n = nt_get_block_num (nullifier_tree (inner s)) n) ∧
    (∀ id, at_get (account_tree (inner s')) id = at_get (account_tree (inner s)) id) ∧
    chain_commitments (blockchain (inner s')) = chain_commitments (blockchain (inner s)).
Proof.
  destruct (load_consistent s files Hc) as (s' & Hload & Hc' & Hdb & _). exists s'.
  destruct Hc as [_ [M1 _ M3 M4]]. pose proof Hc' as [_ [M1' _ M3' M4']]. rewrite Hdb in M1', M3', M4'.
  split_and!; [done|done|done| | |congruence].
  - intros n. by rewrite !nt_get_spec, M1, M1'.
  - intros id. by rewrite M3, M3'.
Qed.

(** ** Histories *)

(** Any number of calls with any faults, and detached saves in between; the blocks
    that were applied. *)
Inductive history : State → list ProvenBlock → State → Prop :=
| history_nil s : history s [] s
| history_applied s s' s'' faults block blocks :
    block_ok block → (apply_block faults block : SM unit) s = (s', Ok tt) → history s' blocks s'' →
    history s (block :: blocks) s''
| history_failed s s' s'' faults block e blocks :
    block_ok block → (apply_block faults block : SM unit) s = (s', Err e) → history s' blocks s'' →
    history s blocks s''
| history_save s i blocks s'' :
    history (run_save i s).1 blocks s'' → history s blocks s''.

(** Each block is the next one and refers to the one before. *)
Fixpoint linked (bn : BlockNumber) (commitment : Digest) (blocks : list ProvenBlock) : Prop :=
  match blocks with
  | [] => True
  | block :: blocks => block_num block = (bn + 1)%N ∧
      header_prev_block_commitment (block_header block) = commitment ∧
      linked (block_num block) (block_commitment block) blocks
  end.

Lemma run_save_same i s : db (run_save i s).1 = db s ∧ inner (run_save i s).1 = inner s.
Proof. unfold run_save, mbind, M_bind, get. destruct (pending_saves s !! i) as [[bn bytes]|]; by split. Qed.

Lemma run_save_consistent i s : consistent s → consistent (run_save i s).1.
Proof. destruct (run_save_same i s) as [Hdb Hinner]. intros [Hok Hm]. split; [by rewrite Hdb|by rewrite Hdb, Hinner]. Qed.

(** C13: The store only ever grows one valid chain. Over any history of calls, failed
    ones included, the applied blocks continue the chain one by one, each with the
    commitment of the one before as its prev commitment; no nullifier is spent by
    two of them or was spent before; and the chain kept in memory is the old one
    followed by their commitments. *)
Theorem store_history s blocks s' tip prev (Hc : consistent s) (Hh : history s blocks s')
    (Htip : is_tip (db s) tip) (Hprev : block_headers (db s) !! tip = Some prev) :
  consistent s' ∧ linked tip (header_commitment prev) blocks ∧
  NoDup (blocks ≫= block_created_nullifiers) ∧
  (∀ n, n ∈ blocks ≫= block_created_nullifiers → nt_get_block_num (nullifier_tree (inner s)) n = None) ∧
  chain_commitments (blockchain (inner s')) =
    chain_commitments (blockchain (inner s)) ++ (block_commitment <$> blocks).
Proof.
  revert tip prev Hc Htip Hprev. induction Hh as [s|s s' s'' faults block blocks Hb Hrun Hh IH|
    s s' s'' faults block e blocks Hb Hrun Hh IH|s i blocks s'' Hh IH]; intros tip prev Hc Htip Hprev.
  - split_and!; [done|done|constructor|by intros n Hn%not_elem_of_nil|by rewrite app_nil_r].
  - pose proof (wp_run_ok _ _ _ _ _ _ (wp_apply_block faults block s Hc Hb) Hrun) as [Happ _].
    pose proof (consistent_applied _ _ _ Hc Hb Happ) as Hc'.
    destruct Happ as [(tip' & Htip' & Hnum & prev' & Hprev' & Hcom) Hw (G1 & _ & _ & G4) _ Hfresh _ _].
    assert (tip' = tip) as ->.
    { apply N.le_antisymm; [apply Htip, Htip'; lia|apply Htip', Htip; lia]. }
    rewrite Hprev in Hprev'. injection Hprev' as <-.
    destruct (IH (tip + 1)%N (block_header block)) as (Hc'' & Hlink & Hnd & Hunspent & Hchain); [done| | |].
    { by eapply written_tip. }
    { by eapply written_new_header. }
    split_and!; [done| | | |].
    + split_and!; [done|done|]. by rewrite Hnum, block_commitment_spec.
    + cbn. apply NoDup_app. split_and!; [apply (w_nullifiers_nodup _ _ _ _ _ _ _ Hw)| |done].
      intros n Hn Hin. specialize (Hunspent n Hin). rewrite nt_get_spec, G1 in Hunspent.
      apply lookup_union_None in Hunspent as [Hnone _]. apply not_elem_of_list_to_map in Hnone.
      by rewrite spent_fst in Hnone.
    + intros n. cbn. rewrite elem_of_app, nt_get_spec. intros [Hn|Hn]; [by apply Hfresh|].
      specialize (Hunspent n Hn). rewrite nt_get_spec, G1 in Hunspent. by apply lookup_union_None in Hunspent as [].
    + rewrite Hchain, G4. cbn. by rewrite <- app_assoc.
  - pose proof (wp_run_err _ _ _ _ _ _ (wp_apply_block faults block s Hc Hb) Hrun) as [Hdb Hinner _ _].
    destruct Hc as [Hok Hm]. rewrite <- Hinner. apply (IH tip prev); [|by rewrite Hdb|by rewrite Hdb].
    split; [by rewrite Hdb|by rewrite Hdb, Hinner].
  - destruct (run_save_same i s) as [Hdb Hinner]. rewrite <- Hinner.
    apply (IH tip prev); [by apply run_save_consistent|by rewrite Hdb|by rewrite Hdb].
Qed.

(** A block with more than 1000 nullifiers can never be applied. The limit on
    query parameters also guards the insertion of a block's own nullifiers, so the
    writing task fails on every such block, however valid; nothing is changed. *)
Theorem store_nullifier_limit s faults block (Hc : consistent s) (Hb : block_ok block)
    (Hlen : 1000 < length (block_created_nullifiers block)) :
  ∃ s' e, (apply_block faults block : SM unit) s = (s', Err e) ∧ db s' = db s ∧ inner s' = inner s.
Proof.
  pose proof (wp_apply_block faults block s Hc Hb) as Hwp. rewrite wp_unfold in Hwp.
  destruct (apply_block faults block s) as [s' [u|e|p|]]; try done.
  - destruct Hwp as [Happ _]. pose proof (w_limit _ _ _ _ _ _ _ (app_written _ _ _ Happ)) as Hl.
    unfold nullifier_limit in Hl. lia.
  - exists s', e. split; [done|]. split; apply Hwp.
Qed.

End theorems.
