(* ===== verification/Genesis.v ===== *)
(** * Genesis

    Model of [crates/store/src/genesis/]: the accounts that a configuration describes
    ([config/mod.rs]) and the genesis block ([mod.rs]); and of bootstrapping the store
    with it, [Store::bootstrap] of [server/mod.rs] and [Db::bootstrap] of [db/mod.rs].
    Randomness and the order of a hash map are arguments. Reading the configuration
    from TOML is a library's. *)

From stdpp Require Import pretty.
From S2P Require Import Prelude.
From S2P Require Import Bytes.
From S2P Require Import External.
From S2P Require Import NtxAccount.
From S2P Require Import StoreObjects.
From S2P Require Import StoreSql.
From S2P Require Import StoreWrite.
From S2P Require Import StoreTrees.
From S2P Require Import BlockStore.
Import BlockStore.

(** Enumerations of the protocol library. *)
Inductive AccountType : Type :=
| FungibleFaucet
| NonFungibleFaucet
| RegularAccountImmutableCode
| RegularAccountUpdatableCode.

Inductive AccountStorageMode : Type :=
| NetworkMode
| PublicMode
| PrivateMode.

Class GenesisObjects `{!MidenObjects} `{!NtxObjects} `{!StoreObjects} `{!StoreTrees} := {
  (** [Felt::MODULUS], and a word from its elements. *)
  felt_modulus : N;
  word_of_felts : N → N → N → N → Word;
  TokenSymbol : Type;
  token_symbol_new : string → option TokenSymbol;
  (** What is generated from 32 random bytes: a key pair, then a seed. *)
  SecretKey : Type;
  secret_key_of : bytes → SecretKey;
  init_seed_of : bytes → bytes;
  (** [BasicFungibleFaucet] with its constructor, [try_from] of an account and its
      [max_supply]. *)
  BasicFungibleFaucet : Type;
  basic_faucet_new : TokenSymbol → N → N → option BasicFungibleFaucet;
  basic_faucet_of : Account → option BasicFungibleFaucet;
  max_supply_of : BasicFungibleFaucet → N;
  FAUCET_STORAGE_DATA_SLOT : N;
  (** [AccountBuilder] with an authentication component and the component given, and
      [create_basic_wallet]: the account with its seed. *)
  account_build : bytes → AccountType → AccountStorageMode → SecretKey → BasicFungibleFaucet → option (Account * Word);
  create_basic_wallet : bytes → SecretKey → AccountType → AccountStorageMode → option (Account * Word);
  (** [AssetVault::get_balance]. *)
  vault_balance : Account → AccountId → N;
  FungibleAsset : Type;
  fungible_asset_new : AccountId → N → option FungibleAsset;
  asset_faucet : FungibleAsset → AccountId;
  asset_amount : FungibleAsset → N;
  (** [FungibleAssetDelta::add]. *)
  fungible_delta_add : gmap AccountId Z → FungibleAsset → option (gmap AccountId Z);
  (** Blocks. *)
  account_is_public : AccountId → bool;
  update_private : AccountUpdateDetails;
  update_of_account : Account → AccountUpdateDetails;
  account_update_new : AccountId → Digest → AccountUpdateDetails → BlockAccountUpdate;
  empty_smt_root : Digest;
  empty_note_tree_root : Digest;
  mmr_peaks_new : N → list Digest → option MmrPeaks;
  hash_peaks : MmrPeaks → Digest;
  kernel_commitment : Digest;
  (** [BlockHeader::new]: version, previous block, number, chain, account, nullifier
      and note roots, transactions, kernel, proof and timestamp. *)
  block_header_new :
    N → Digest → BlockNumber → Digest → Digest → Digest → Digest → Digest → Digest → Digest → N → BlockHeader;
  (** [ProvenBlock::new_unchecked]: accounts, output notes, nullifiers, transactions. *)
  proven_block_new : BlockHeader → list BlockAccountUpdate → list (BlockNoteIndex * OutputNote) → list Nullifier →
    list (TransactionId * AccountId) → ProvenBlock;
}.

(** ** The configuration *)

Inductive StorageMode : Type :=
| Network
| Public
| Private.

Definition storage_mode_into (mode : StorageMode) : AccountStorageMode :=
  match mode with Network => NetworkMode | Private => PrivateMode | Public => PublicMode end.

Record FungibleFaucetConfig := mk_faucet_config {
  fc_symbol : string;
  fc_decimals : N;
  fc_max_supply : N;
  fc_storage_mode : StorageMode;
}.

Record AssetEntry := mk_asset_entry {
  ae_symbol : string;
  ae_amount : N;
}.

Record WalletConfig := mk_wallet_config {
  has_updatable_code : bool;
  wc_storage_mode : StorageMode;
  assets : list AssetEntry;
}.

Record GenesisConfig := mk_config {
  cfg_version : N;
  cfg_timestamp : N;
  cfg_wallet : list WalletConfig;
  cfg_fungible_faucet : list FungibleFaucetConfig;
}.

(** [now] is the number of seconds since the epoch. *)
Definition default_config (now : N) : M unit Empty_set GenesisConfig :=
  timestamp ← expect_some (if (now <? 2 ^ 32)%N then Some now else None) "Timestamp should fit into u32";
  mret (mk_config 1 timestamp [] [mk_faucet_config "MIDEN" 6 100000000000 Public]).

(** *** Names of files *)

(** [ilog10]: the fuel is the number of bits. *)
Fixpoint ilog10_fuel (fuel : nat) (n : N) : nat :=
  match fuel with
  | O => 0
  | S fuel => if (n <? 10)%N then 0 else S (ilog10_fuel fuel (n / 10))
  end.

Definition ilog10 (n : N) : nat := ilog10_fuel (N.size_nat n) n.

Fixpoint zeros (n : nat) : string := match n with O => "" | S n => "0" +:+ zeros n end.

(** [{index:0width$}] *)
Definition pad_index (width : nat) (index : N) : string :=
  zeros (width - String.length (pretty index)) +:+ pretty index.

Definition faucet_file_name (symbol : string) : string := "faucet_" +:+ string_lower symbol +:+ ".mac".

Definition wallet_file_name (width : nat) (index : N) : string := "wallet_" +:+ pad_index width index +:+ ".mac".

Module Genesis.

Section defs.
Context `{!MidenObjects} `{!NtxObjects} `{!StoreObjects} `{!StoreTrees} `{!GenesisObjects}.

Inductive GenesisConfigError : Type :=
| TomlError
| AccountError
| AssetError
| AccountDeltaError
| MissingFaucetDefinition (symbol : TokenSymbol)
| MissingGenesisAccount (account_id : AccountId)
| TokenSymbolError
| FungibleFaucetError
| DuplicateFaucetDefinition (symbol : TokenSymbol)
| MaxIssuanceExceeded (symbol : TokenSymbol) (total_issuance max_supply : N)
| IssuanceOverflow.

Record GenesisState := mk_genesis_state {
  accounts : list Account;
  version : N;
  timestamp : N;
}.

(** Name, account, private key and seed. *)
Abbreviation Secret := (string * AccountId * SecretKey * Word)%type.

(** The mutable variables of [into_state]. *)
Record Builder := mk_builder {
  wallet_accounts : list Account;
  faucet_accounts : gmap string Account;
  secrets : list Secret;
  faucet_issuance : gmap AccountId N;
}.

Definition builder_new : Builder := mk_builder [] ∅ [] ∅.

Definition over_wallet_accounts f b := mk_builder (f (wallet_accounts b)) (faucet_accounts b) (secrets b) (faucet_issuance b).

Definition over_faucet_accounts f b := mk_builder (wallet_accounts b) (f (faucet_accounts b)) (secrets b) (faucet_issuance b).

Definition push_secret x b := mk_builder (wallet_accounts b) (faucet_accounts b) (secrets b ++ [x]) (faucet_issuance b).

Definition over_issuance f b := mk_builder (wallet_accounts b) (faucet_accounts b) (secrets b) (f (faucet_issuance b)).

Abbreviation GM := (M Builder GenesisConfigError).

(** [?] on a result of the library. *)
Definition or_fail {A} (e : GenesisConfigError) (o : option A) : GM A :=
  match o with Some a => mret a | None => throw e end.

(** The body of the loop over the faucets. [random] is what [rand::random] returned. *)
Definition add_faucet (random : bytes) (config : FungibleFaucetConfig) : GM unit :=
  let secret_key := secret_key_of random in
  let init_seed := init_seed_of random in
  let symbol := fc_symbol config in
  token_symbol ← or_fail TokenSymbolError (token_symbol_new symbol);
  max_supply ← expect_some (if (fc_max_supply config <? felt_modulus)%N then Some (fc_max_supply config) else None)
    "The `Felt::MODULUS` is _always_ larger than the `max_supply`";
  component ← or_fail FungibleFaucetError (basic_faucet_new token_symbol (fc_decimals config) max_supply);
  '(faucet_account, faucet_account_seed) ← or_fail AccountError
    (account_build init_seed FungibleFaucet (storage_mode_into (fc_storage_mode config)) secret_key component);
  _ ← assert_ (bool_decide (acc_nonce faucet_account = 0%N)) "assertion `left == right` failed";
  b ← get;
  _ ← modify (over_faucet_accounts (λ m, <[symbol := faucet_account]> m));
  if decide (is_Some (faucet_accounts b !! symbol)) then throw (DuplicateFaucetDefinition token_symbol) else
  modify (push_secret (faucet_file_name symbol, acc_id faucet_account, secret_key, faucet_account_seed)).

Definition asset_of_entry (entry : AssetEntry) : GM FungibleAsset :=
  token_symbol ← or_fail TokenSymbolError (token_symbol_new (ae_symbol entry));
  b ← get;
  faucet_account ← or_fail (MissingFaucetDefinition token_symbol) (faucet_accounts b !! ae_symbol entry);
  or_fail AssetError (fungible_asset_new (acc_id faucet_account) (ae_amount entry)).

(** [entry(id).or_default()] and the checked addition. *)
Definition add_issuance (faucet_id : AccountId) (amount : Z) : GM unit :=
  _ ← modify (over_issuance (entry_or 0%N id faucet_id));
  amount ← expect_some (if (0 <=? amount)%Z then Some (Z.to_N amount) else None)
    "Issuance must always be positive in the scope of genesis config";
  b ← get;
  let issuance := default 0%N (faucet_issuance b !! faucet_id) in
  if (issuance + amount <=? U64_MAX)%N
  then modify (over_issuance (λ m, <[faucet_id := (issuance + amount)%N]> m))
  else throw IssuanceOverflow.

Definition prepare_fungible_asset_update (assets : list AssetEntry) : GM (gmap AccountId Z) :=
  assets ← fold_m (λ acc entry, asset ← asset_of_entry entry; mret (acc ++ [asset])) [] assets;
  wallet_asset_delta ← fold_m (λ delta asset, or_fail AccountDeltaError (fungible_delta_add delta asset)) ∅ assets;
  _ ← for_each (bm_entries wallet_asset_delta) (λ '(faucet_id, amount), add_issuance faucet_id amount);
  mret wallet_asset_delta.

(** The body of the loop over the wallets. *)
Definition add_wallet (zero_padding_width : nat) (random : bytes) (index : N) (config : WalletConfig) : GM unit :=
  let secret_key := secret_key_of random in
  let init_seed := init_seed_of random in
  let account_type := if has_updatable_code config then RegularAccountUpdatableCode else RegularAccountImmutableCode in
  '(wallet_account, wallet_account_seed) ← or_fail AccountError
    (create_basic_wallet init_seed secret_key account_type (storage_mode_into (wc_storage_mode config)));
  wallet_fungible_asset_update ← prepare_fungible_asset_update (assets config);
  wallet_delta ← or_fail AccountDeltaError
    (delta_new (acc_id wallet_account) ∅ ∅ wallet_fungible_asset_update ∅ 1);
  wallet_account ← or_fail AccountError (apply_delta wallet_account wallet_delta);
  _ ← assert_ (bool_decide (acc_nonce wallet_account = 1%N)) "assertion `left == right` failed";
  _ ← modify (push_secret (wallet_file_name zero_padding_width index, acc_id wallet_account, secret_key, wallet_account_seed));
  modify (over_wallet_accounts (λ l, l ++ [wallet_account])).

(** The body of the loop that adjusts the faucets. *)
Definition settle_faucet (all_accounts : list Account) (entry : string * Account) : GM (list Account) :=
  let '(symbol, faucet_account) := entry in
  let faucet_id := acc_id faucet_account in
  b ← get;
  let total_issuance := default 0%N (faucet_issuance b !! faucet_id) in
  let storage_delta :=
    if decide (total_issuance ≠ 0%N)
    then {[ FAUCET_STORAGE_DATA_SLOT := word_of_felts 0 0 0 (total_issuance mod felt_modulus) ]} else ∅ in
  delta ← or_fail AccountDeltaError (delta_new faucet_id storage_delta ∅ ∅ ∅ 1);
  faucet_account ← or_fail AccountError (apply_delta faucet_account delta);
  _ ← assert_ (bool_decide (acc_nonce faucet_account = 1%N)) "assertion `left == right` failed";
  basic ← or_fail FungibleFaucetError (basic_faucet_of faucet_account);
  let max_supply := max_supply_of basic in
  if (max_supply <? total_issuance)%N then
    symbol ← or_fail TokenSymbolError (token_symbol_new symbol);
    throw (MaxIssuanceExceeded symbol total_issuance max_supply)
  else mret (all_accounts ++ [faucet_account]).

(** [random] numbers the calls of [rand::random], and [iter] lists a hash map. *)
Definition build_state (random : nat → bytes) (iter : gmap string Account → list (string * Account)) (config : GenesisConfig)
    : GM (GenesisState * list Secret) :=
  let faucets := cfg_fungible_faucet config in
  let wallets := cfg_wallet config in
  _ ← for_each (imap pair faucets) (λ '(i, config), add_faucet (random i) config);
  let zero_padding_width := ilog10 (10 `max` N.of_nat (length wallets)) in
  _ ← for_each (imap pair wallets) (λ '(i, config),
    add_wallet zero_padding_width (random (length faucets + i)) (N.of_nat i) config);
  b ← get;
  all_accounts ← fold_m settle_faucet [] (iter (faucet_accounts b));
  mret (mk_genesis_state (all_accounts ++ wallet_accounts b) (cfg_version config) (cfg_timestamp config), secrets b).

Definition into_state random iter config : res GenesisConfigError (GenesisState * list Secret) :=
  (build_state random iter config builder_new).2.

(** [AccountFile] with its name. *)
Record AccountFileWithName := mk_account_file {
  af_name : string;
  af_account : Account;
  af_seed : option Word;
  af_keys : list SecretKey;
}.

(** [AccountSecrets::as_account_files] *)
Definition as_account_files (secrets : list Secret) (genesis_state : GenesisState)
    : list (GenesisConfigError + AccountFileWithName) :=
  let account_lut : gmap AccountId Account := foldl (λ m a, <[acc_id a := a]> m) ∅ (accounts genesis_state) in
  (λ '(name, account_id, secret_key, account_seed),
    match account_lut !! account_id with
    | Some account => inr (mk_account_file name account (Some account_seed) [secret_key])
    | None => inl (MissingGenesisAccount account_id)
    end) <$> secrets.

(** ** The genesis block *)

Inductive GenesisError : Type :=
| AccountTreeError.

Definition genesis_update (account : Account) : BlockAccountUpdate :=
  let account_update_details := if account_is_public (acc_id account) then update_of_account account else update_private in
  account_update_new (acc_id account) (acc_commitment account) account_update_details.

Definition into_block {S} (g : GenesisState) : M S GenesisError ProvenBlock :=
  let updates := genesis_update <$> accounts g in
  account_smt ← match at_with_entries ((λ u, (update_id u, update_commitment u)) <$> updates) with
                | Some t => mret t
                | None => throw AccountTreeError
                end;
  peaks ← expect_some (mmr_peaks_new 0 []) "called `Result::unwrap()` on an `Err` value";
  let header := block_header_new (version g) digest_default 0 (hash_peaks peaks) (at_root account_smt) empty_smt_root
    empty_note_tree_root digest_default kernel_commitment digest_default (timestamp g) in
  mret (proven_block_new header updates [] [] []).

(** ** Bootstrapping *)

Inductive BootstrapError : Type :=
| GenesisBlockError (e : GenesisError)
| DataDirectoryError
| BlockStoreError (e : IoError)
| OpenError
| MigrationError
| InsertError (e : Sql.DatabaseError)
| CommitError.

(** The disk: the file system with the block store, and the database, which has its
    tables once the migrations have run. *)
Record Disk := mk_disk {
  disk_fs : Fs Bytes;
  database : option Sql.Tables;
}.

Definition set_fs fs d := mk_disk fs (database d).

Definition set_database t d := mk_disk (disk_fs d) t.

Record BootstrapFaults := mk_bootstrap_faults {
  io_faults : IoFaults Bytes;
  fault_open : bool;
  fault_migrations : bool;
  fault_commit : bool;
}.

Abbreviation BM := (M Disk BootstrapError).

Definition fail_if (b : bool) (e : BootstrapError) : BM unit := if b then throw e else mret tt.

(** [Db::bootstrap]: an error or a panic before the commit drops the transaction. *)
Definition db_bootstrap (faults : BootstrapFaults) (genesis : ProvenBlock) : BM unit :=
  _ ← fail_if (fault_open faults) OpenError;
  _ ← fail_if (fault_migrations faults) MigrationError;
  _ ← modify (λ d, set_database (Some (default Sql.empty_tables (database d))) d);
  d ← get;
  let tables := default Sql.empty_tables (database d) in
  match Write.apply_block (block_header genesis) [] [] (block_updated_accounts genesis) (block_transactions genesis) tables with
  | (tables, Ok _) =>
    _ ← fail_if (fault_commit faults) CommitError;
    modify (set_database (Some tables))
  | (_, Err e) => throw (InsertError e)
  | (_, Panic msg) => panic msg
  | (_, OutOfFuel) => out_of_fuel
  end.

(** [DataDirectory] *)
Definition load_data_directory (data_directory : string) : BM string :=
  d ← get;
  if decide (data_directory ∈ dirs (disk_fs d)) then mret data_directory else throw DataDirectoryError.

Definition block_store_dir (data_directory : string) : string := join data_directory "blocks".

(** [Store::bootstrap] *)
Definition bootstrap (faults : BootstrapFaults) (genesis : GenesisState) (data_directory : string) : BM unit :=
  genesis ← map_err GenesisBlockError (into_block genesis);
  data_directory ← load_data_directory data_directory;
  _ ← map_err BlockStoreError (zoom disk_fs set_fs
        (BlockStore.bootstrap (io_faults faults) (block_store_dir data_directory) (block_bytes genesis)));
  db_bootstrap faults genesis.

End defs.

End Genesis.
