(* ===== verification/GenesisTheorems.v ===== *)
(** * Theorems about genesis

    A configuration becomes accounts that conserve every asset, and the genesis block
    of any accounts becomes a store that the node starts from. *)

From stdpp Require Import pretty.
From S2P Require Import Prelude.
From S2P Require Import Bytes.
From S2P Require Import External.
From S2P Require Import NtxAccount.
From S2P Require Import StoreObjects.
From S2P Require Import StoreSql.
From S2P Require Import StoreWrite.
From S2P Require Import StoreTrees.
From S2P Require Import StoreProofs.
From S2P Require Import StoreState.
From S2P Require Import StoreApply.
From S2P Require Import StoreTheorems.
From S2P Require Import BlockStore.
From S2P Require Import Genesis.
Import BlockStore.
Import Genesis.

(** The account declares the maximal supply. *)
Definition has_supply `{GenesisObjects} (a : Account) (supply : N) : Prop :=
  ∃ c, basic_faucet_of a = Some c ∧ max_supply_of c = supply.

(** Documented behaviour. New accounts have no nonce and wallets no assets; the
    component of a faucet declares its supply, which issuing leaves alone; a delta
    changes what it says. *)
Class AccountLaws `{!MidenObjects} `{!NtxObjects} `{!StoreObjects} `{!StoreTrees} `{!GenesisObjects} : Prop := {
  faucet_built symbol decimals supply component seed type mode key a s :
    basic_faucet_new symbol decimals supply = Some component →
    account_build seed type mode key component = Some (a, s) → acc_nonce a = 0%N ∧ has_supply a supply;
  wallet_built seed key type mode a s :
    create_basic_wallet seed key type mode = Some (a, s) → acc_nonce a = 0%N ∧ ∀ f, vault_balance a f = 0%N;
  fungible_asset_spec id n asset :
    fungible_asset_new id n = Some asset → asset_faucet asset = id ∧ asset_amount asset = n;
  fungible_add_spec d asset d' f : fungible_delta_add d asset = Some d' →
    default 0%Z (d' !! f) = (default 0%Z (d !! f) + if decide (asset_faucet asset = f) then Z.of_N (asset_amount asset) else 0)%Z;
  delta_applied id values fungible nonce d a a' :
    delta_new id values ∅ fungible ∅ nonce = Some d → apply_delta a d = Some a' →
    acc_id a' = acc_id a ∧ (acc_nonce a = 0%N → acc_nonce a' = nonce) ∧
    (∀ f, Z.of_N (vault_balance a' f) = (Z.of_N (vault_balance a f) + default 0 (fungible !! f))%Z) ∧
    (∀ slot v, values !! slot = Some v → acc_slots a' !! N.to_nat slot = Some (SlotValue v)) ∧
    (dom values ⊆ {[FAUCET_STORAGE_DATA_SLOT]} → ∀ supply, has_supply a supply → has_supply a' supply);
}.

(** ** Sums *)

Definition sumN (l : list N) : N := foldr N.add 0%N l.

Lemma sumN_app l l' : sumN (l ++ l') = (sumN l + sumN l')%N.
Proof. unfold sumN. induction l as [|x l IH]; [done|]. simpl. rewrite IH. apply N.add_assoc. Qed.

Section config.
Context `{!MidenObjects} `{!NtxObjects} `{!StoreObjects} `{!StoreTrees} `{!GenesisObjects} `{!AccountLaws}.
Implicit Types (b : Builder) (a : Account) (f : AccountId).

(** What an entry, or a wallet's entries, assign of the asset of a faucet. *)
Definition entry_amount (faucets : gmap string Account) f (entry : AssetEntry) : N :=
  match faucets !! ae_symbol entry with
  | Some a => if decide (acc_id a = f) then ae_amount entry else 0%N
  | None => 0%N
  end.

Definition wallet_amount (faucets : gmap string Account) f (entries : list AssetEntry) : N :=
  sumN (entry_amount faucets f <$> entries).

(** What was issued so far. *)
Definition issuance b f : N := default 0%N (faucet_issuance b !! f).

Lemma wp_or_fail {A} e (o : option A) b (Q : Builder → A → Prop) (X : Builder → GenesisConfigError → Prop) :
  (o = None → X b e) → (∀ x, o = Some x → Q b x) → wp (or_fail e o) b Q X.
Proof. destruct o; cbn; intros HX HQ; wp_steps; [by apply HQ|by apply HX]. Qed.

(** What the errors say of a configuration. *)
Definition blames (duplicate missing : Prop) (e : GenesisConfigError) : Prop :=
  match e with
  | DuplicateFaucetDefinition _ => duplicate
  | MissingFaucetDefinition _ => missing
  | MaxIssuanceExceeded _ total_issuance max_supply => (max_supply < total_issuance)%N
  | _ => True
  end.

Lemma blames_mono (D D' M M' : Prop) e : (D → D') → (M → M') → blames D M e → blames D' M' e.
Proof. destruct e; cbn; auto. Qed.

(** A faucet is configured for every asset of the entries. *)
Definition defined (faucets : gmap string Account) (entries : list AssetEntry) : Prop :=
  Forall (λ e, is_Some (faucets !! ae_symbol e)) entries.

(** ** Faucets *)

(** The faucet of a configuration is in the map, and its secret names it. *)
Definition faucet_made b (config : FungibleFaucetConfig) : Prop :=
  ∃ a, faucet_accounts b !! fc_symbol config = Some a ∧ acc_nonce a = 0%N ∧ has_supply a (fc_max_supply config).

Definition faucet_secret b (config : FungibleFaucetConfig) (x : string * AccountId * SecretKey * Word) : Prop :=
  x.1.1.1 = faucet_file_name (fc_symbol config) ∧ acc_id <$> faucet_accounts b !! fc_symbol config = Some x.1.1.2.

Record faucets_made (pre : list FungibleFaucetConfig) b : Prop := {
  fm_wallets : wallet_accounts b = [];
  fm_issuance : faucet_issuance b = ∅;
  fm_symbols : NoDup (fc_symbol <$> pre);
  fm_dom : dom (faucet_accounts b) = list_to_set (fc_symbol <$> pre);
  fm_made : Forall (faucet_made b) pre;
  fm_secrets : Forall2 (faucet_secret b) pre (secrets b);
}.

Lemma faucet_symbol pre b symbol :
  faucets_made pre b → is_Some (faucet_accounts b !! symbol) ↔ symbol ∈ fc_symbol <$> pre.
Proof. intros [_ _ _ Hdom _ _]. by rewrite <- elem_of_dom, Hdom, elem_of_list_to_set. Qed.

Lemma imap_pair_snd {A} (l : list A) : (imap pair l).*2 = l.
Proof. rewrite fmap_imap. apply list_eq. intros i. rewrite list_lookup_imap. by destruct (_ !! i). Qed.

Lemma imap_pair_elem {A} (l : list A) i x pre rest : imap pair l = pre ++ (i, x) :: rest → x ∈ l.
Proof. intros Hl. rewrite <- (imap_pair_snd l), Hl, fmap_app. apply elem_of_app. right. left. Qed.

Lemma wp_add_faucet random config pre b :
  (fc_max_supply config < felt_modulus)%N → faucets_made pre b →
  wp (add_faucet random config) b (λ b' _, faucets_made (pre ++ [config]) b')
    (λ _ e, blames (fc_symbol config ∈ fc_symbol <$> pre) False e).
Proof.
  intros Hfelt [Hw Hi Hnd Hdom Hmade Hsec]. unfold add_faucet. wp_steps. apply wp_or_fail; [done|]. intros symbol _. wp_steps.
  rewrite (proj2 (N.ltb_lt _ _) Hfelt). eapply wp_expect_some; [done|]. wp_steps.
  apply wp_or_fail; [done|]. intros component Hc. wp_steps. apply wp_or_fail; [done|]. intros [a seed] Ha. wp_steps.
  destruct (faucet_built _ _ _ _ _ _ _ _ _ _ Hc Ha) as [Hnonce Hsupply].
  apply wp_assert; [by apply bool_decide_eq_true|]. wp_steps. case_decide as Hnew; wp_steps.
  { apply elem_of_dom in Hnew. by rewrite Hdom, elem_of_list_to_set in Hnew. }
  apply eq_None_not_Some in Hnew. pose proof Hnew as Hfresh. apply not_elem_of_dom in Hfresh.
  rewrite Hdom, elem_of_list_to_set in Hfresh.
  assert (∀ c, c ∈ pre → fc_symbol config ≠ fc_symbol c) as Hne.
  { intros c Hin Heq. apply Hfresh. rewrite Heq. by apply list_elem_of_fmap_2. }
  split; cbn; [done|done| | | |].
  - rewrite fmap_app. apply NoDup_app. split_and!; [done| |apply NoDup_singleton].
    intros y Hy ->%list_elem_of_singleton. done.
  - rewrite dom_insert_L, Hdom, fmap_app, list_to_set_app_L. cbn. set_solver.
  - apply Forall_app. split; [|apply Forall_singleton].
    + apply Forall_forall. intros c Hin. destruct (proj1 (Forall_forall _ _) Hmade c Hin) as (a' & Ha' & ?).
      exists a'. split; [|done]. cbn. rewrite lookup_insert_ne by by apply Hne. done.
    + exists a. cbn. by rewrite lookup_insert_eq.
  - apply Forall2_app; [|constructor; [|constructor]].
    + apply Forall2_same_length_lookup. apply Forall2_same_length_lookup in Hsec as [Hlen Hsec]. split; [done|].
      intros i c x Hci Hxi. destruct (Hsec i c x Hci Hxi) as [Hname Hid]. split; [done|]. cbn.
      rewrite lookup_insert_ne; [done|]. apply Hne. by eapply list_elem_of_lookup_2.
    + split; [done|]. cbn. by rewrite lookup_insert_eq.
Qed.

(** ** Assets *)

Definition asset_on f (x : FungibleAsset) : N := if decide (asset_faucet x = f) then asset_amount x else 0%N.

Lemma wp_asset_of_entry entry b :
  wp (asset_of_entry entry) b
    (λ b' x, b' = b ∧ is_Some (faucet_accounts b !! ae_symbol entry) ∧
      ∀ f, asset_on f x = entry_amount (faucet_accounts b) f entry)
    (λ _ e, blames False (¬ defined (faucet_accounts b) [entry]) e).
Proof.
  unfold asset_of_entry. wp_steps. apply wp_or_fail; [done|]. intros symbol _. wp_steps.
  apply wp_or_fail; [intros Hnone [[? ?] _]%Forall_cons; cbn in *; congruence|]. intros a Ha. wp_steps.
  apply wp_or_fail; [done|]. intros x Hx.
  destruct (fungible_asset_spec _ _ _ Hx) as [Hid Hamount]. split_and!; [done|by eexists|].
  intros f. unfold asset_on, entry_amount. by rewrite Ha, Hid, Hamount.
Qed.

(** The state but for the issuance. *)
Definition same_but_issuance b b' : Prop :=
  wallet_accounts b' = wallet_accounts b ∧ faucet_accounts b' = faucet_accounts b ∧ secrets b' = secrets b.

(** Reads go through [entry_or] with the default. *)
Lemma default_entry (m : gmap AccountId N) k f : default 0%N (entry_or 0%N (λ n, n) k m !! f) = default 0%N (m !! f).
Proof. unfold entry_or. destruct (decide (k = f)) as [->|]; [by rewrite lookup_insert_eq|by rewrite lookup_insert_ne]. Qed.

Lemma wp_add_issuance k amount b :
  (0 ≤ amount)%Z →
  wp (add_issuance k amount) b (λ b' _, same_but_issuance b b' ∧
    ∀ f, issuance b' f = (issuance b f + if decide (k = f) then Z.to_N amount else 0)%N) (λ _ e, blames False False e).
Proof.
  intros Hpos. unfold add_issuance. wp_steps. rewrite (proj2 (Z.leb_le _ _) Hpos).
  eapply wp_expect_some; [done|]. wp_steps. destruct (_ <=? U64_MAX)%N; wp_steps; [|done].
  split; [done|]. intros f. unfold issuance. cbn. rewrite default_entry. case_decide as Hk.
  - subst f. by rewrite lookup_insert_eq.
  - rewrite lookup_insert_ne by done. rewrite default_entry. lia.
Qed.

Lemma wp_prepare entries b :
  wp (prepare_fungible_asset_update entries) b (λ b' d, same_but_issuance b b' ∧
    defined (faucet_accounts b) entries ∧
    (∀ f, default 0%Z (d !! f) = Z.of_N (wallet_amount (faucet_accounts b) f entries)) ∧
    ∀ f, issuance b' f = (issuance b f + wallet_amount (faucet_accounts b) f entries)%N)
    (λ _ e, blames False (¬ defined (faucet_accounts b) entries) e).
Proof.
  set (F := faucet_accounts b). unfold prepare_fungible_asset_update. wp_steps.
  eapply wp_mono; [apply (wp_fold_m (λ pre b' l, b' = b ∧ defined F pre ∧
    ∀ f, sumN (asset_on f <$> l) = wallet_amount F f pre))| |exact (λ _ _ Hx, Hx)].
  { split_and!; [done|constructor|done]. }
  { intros pre entry rest b' l Hl0 (-> & Hdef & Hl). wp_steps. eapply wp_mono; [apply wp_asset_of_entry| |].
    2: { cbn beta. intros _ e. apply blames_mono; [done|]. fold F. intros Hno Hall. apply Hno. rewrite Hl0 in Hall.
         apply Forall_app in Hall as [_ [? _]%Forall_cons]. by apply Forall_singleton. }
    cbn beta. intros ? x (-> & Hsome & Hx). wp_steps. split_and!; [done|by apply Forall_app; split; [|apply Forall_singleton]|].
    intros f. unfold wallet_amount. rewrite !fmap_app, !sumN_app.
    cbn. by rewrite Hl, Hx. }
  cbn beta. intros ? l (-> & Hdef & Hl). wp_steps.
  eapply wp_mono; [apply (wp_fold_m (λ pre b' d, b' = b ∧ ∀ f, default 0%Z (d !! f) = Z.of_N (sumN (asset_on f <$> pre))))| |exact (λ _ _ Hx, Hx)].
  { split; [done|]. intros f. by rewrite lookup_empty. }
  { intros pre x rest b' d _ [-> Hd]. apply wp_or_fail; [done|]. intros d' Hd'. split; [done|]. intros f.
    rewrite (fungible_add_spec _ _ _ f Hd'), Hd, fmap_app, sumN_app. cbn. unfold asset_on at 3. case_decide; lia. }
  cbn beta. intros ? d [-> Hd]. wp_steps.
  assert (∀ f, default 0%Z (d !! f) = Z.of_N (wallet_amount F f entries)) as Hdelta by (intros f; by rewrite Hd, Hl).
  eapply wp_mono; [apply (wp_for_each (λ pre b', same_but_issuance b b' ∧
    ∀ f, issuance b' f = (issuance b f + if decide (f ∈ pre.*1) then Z.to_N (default 0%Z (d !! f)) else 0)%N))| |exact (λ _ _ Hx, Hx)].
  { split; [done|]. intros f. rewrite decide_False by apply not_elem_of_nil. lia. }
  { intros pre [k amount] rest b' Hpre [Hsame Hiss].
    assert (d !! k = Some amount) as Hk.
    { apply elem_of_bm_entries. rewrite Hpre. apply elem_of_app. right. left. }
    assert (k ∉ pre.*1) as Hfresh.
    { pose proof (NoDup_bm_entries d) as Hnd. rewrite Hpre, fmap_app in Hnd. apply NoDup_app in Hnd as (_ & Hnd & _).
      intros Hin. apply (Hnd k Hin). left. }
    pose proof (Hdelta k) as Hpos. rewrite Hk in Hpos. cbn in Hpos.
    eapply wp_mono; [apply wp_add_issuance; lia| |intros ? e; cbn beta; by apply blames_mono]. cbn beta. intros b'' _ [(S1 & S2 & S3) Hiss'].
    destruct Hsame as (T1 & T2 & T3). split; [split_and!; congruence|]. intros f. rewrite Hiss', Hiss, fmap_app. cbn.
    destruct (decide (k = f)) as [<-|Hne].
    - rewrite decide_False by done. rewrite decide_True by set_solver. rewrite Hk. cbn. lia.
    - destruct (decide (f ∈ pre.*1)) as [Hin|Hin].
      + rewrite decide_True by set_solver. lia.
      + rewrite decide_False by set_solver. lia. }
  cbn beta. intros b' _ [Hsame Hiss]. wp_steps. split_and!; [done..|]. intros f. rewrite Hiss. case_decide as Hin.
  - by rewrite Hdelta, N2Z.id.
  - rewrite <- (N2Z.id (wallet_amount F f entries)), <- Hdelta.
    destruct (d !! f) as [z|] eqn:Hf; [|done]. destruct Hin. apply list_elem_of_fmap. exists (f, z).
    split; [done|]. by apply elem_of_bm_entries.
Qed.

(** ** Wallets *)

(** The wallet of a configuration has exactly the assets it lists. *)
Definition wallet_made (faucets : gmap string Account) (config : WalletConfig) (a : Account) : Prop :=
  acc_nonce a = 1%N ∧ defined faucets (assets config) ∧
  ∀ f, vault_balance a f = wallet_amount faucets f (assets config).

Lemma wp_add_wallet width random i config b :
  wp (add_wallet width random i config) b (λ b' _, ∃ a key seed, wallet_made (faucet_accounts b) config a ∧
    wallet_accounts b' = wallet_accounts b ++ [a] ∧ faucet_accounts b' = faucet_accounts b ∧
    secrets b' = secrets b ++ [(wallet_file_name width i, acc_id a, key, seed)] ∧
    ∀ f, issuance b' f = (issuance b f + vault_balance a f)%N)
    (λ _ e, blames False (¬ defined (faucet_accounts b) (assets config)) e).
Proof.
  unfold add_wallet. wp_steps. apply wp_or_fail; [done|]. intros [a0 seed] Ha0. wp_steps.
  destruct (wallet_built _ _ _ _ _ _ Ha0) as [Hnonce Hempty].
  eapply wp_mono; [apply wp_prepare| |exact (λ _ _ Hx, Hx)]. cbn beta. intros b1 d ((S1 & S2 & S3) & Hdef & Hd & Hiss). wp_steps.
  apply wp_or_fail; [done|]. intros delta Hdelta. wp_steps. apply wp_or_fail; [done|]. intros a Ha. wp_steps.
  destruct (delta_applied _ _ _ _ _ _ _ Hdelta Ha) as (Hid & Hnonce' & Hbal & _ & _).
  apply wp_assert; [by apply bool_decide_eq_true, Hnonce'|]. wp_steps.
  assert (∀ f, vault_balance a f = wallet_amount (faucet_accounts b) f (assets config)) as Hbalance.
  { intros f. specialize (Hbal f). rewrite Hempty, Hd in Hbal. lia. }
  exists a, (secret_key_of random), seed. split_and!; cbn; [|by rewrite S1|done|by rewrite S3|].
  - split_and!; [by apply Hnonce'|done|done].
  - intros f. unfold issuance in *. cbn. by rewrite Hiss, Hbalance.
Qed.

(** The state after some wallets, on top of the state [b0] with all faucets. *)
Record wallets_made b0 (width : nat) (pre : list (nat * WalletConfig)) b : Prop := {
  wm_faucets : faucet_accounts b = faucet_accounts b0;
  wm_wallets : Forall2 (wallet_made (faucet_accounts b0)) pre.*2 (wallet_accounts b);
  wm_issuance f : issuance b f = sumN ((λ a, vault_balance a f) <$> wallet_accounts b);
  wm_secrets : ∃ l, secrets b = secrets b0 ++ l ∧ (λ x, x.1.1.2) <$> l = acc_id <$> wallet_accounts b ∧
    (λ x, x.1.1.1) <$> l = (λ e, wallet_file_name width (N.of_nat e.1)) <$> pre;
}.

Lemma wp_wallets width (random : nat → bytes) configs b0 :
  wallet_accounts b0 = [] → faucet_issuance b0 = ∅ →
  wp (for_each (imap pair configs) (λ '(i, config), add_wallet width (random i) (N.of_nat i) config)) b0
    (λ b _, wallets_made b0 width (imap pair configs) b)
    (λ _ e, blames False (¬ Forall (λ c, defined (faucet_accounts b0) (assets c)) configs) e).
Proof.
  intros Hw Hi. apply wp_for_each.
  - split; [done|by rewrite Hw|intros f; unfold issuance; by rewrite Hi, lookup_empty, Hw|].
    exists []. rewrite app_nil_r. by rewrite Hw.
  - intros pre [i config] rest b Hpre [M1 M2 M3 (l & M4 & M5 & M6)].
    eapply wp_mono; [apply wp_add_wallet| |].
    2: { cbn beta. intros _ e. apply blames_mono; [done|]. rewrite M1. intros Hno Hall. apply Hno.
         apply (proj1 (Forall_forall _ _) Hall). by eapply imap_pair_elem. }
    cbn beta.
    intros b' _ (a & key & seed & Hmade & E1 & E2 & E3 & E4). rewrite M1 in Hmade.
    split; [congruence| | |].
    + rewrite E1, fmap_app. apply Forall2_app; [done|]. constructor; [exact Hmade|constructor].
    + intros f. rewrite E4, M3, E1, fmap_app, sumN_app. cbn. lia.
    + exists (l ++ [(wallet_file_name width (N.of_nat i), acc_id a, key, seed)]). rewrite E3, M4, E1, !fmap_app, M5, M6.
      by rewrite app_assoc.
Qed.

(** ** Settling the faucets *)

(** A faucet in the genesis state: what it has issued is below its supply. *)
Definition settled b (entry : string * Account) (a : Account) : Prop :=
  acc_id a = acc_id entry.2 ∧ acc_nonce a = 1%N ∧
  ∀ supply, has_supply entry.2 supply → has_supply a supply ∧ (issuance b (acc_id a) ≤ supply)%N ∧
    (issuance b (acc_id a) ≠ 0%N → acc_slots a !! N.to_nat FAUCET_STORAGE_DATA_SLOT =
      Some (SlotValue (word_of_felts 0 0 0 (issuance b (acc_id a) mod felt_modulus)))).

Lemma wp_settle entry l b :
  acc_nonce entry.2 = 0%N →
  wp (settle_faucet l entry) b (λ b' l', b' = b ∧ ∃ a, l' = l ++ [a] ∧ settled b entry a)
    (λ _ e, blames False False e).
Proof.
  destruct entry as [symbol a0]. cbn. intros Hnonce. unfold settle_faucet. wp_steps. fold (issuance b (acc_id a0)).
  apply wp_or_fail; [done|]. intros delta Hdelta. wp_steps. apply wp_or_fail; [done|]. intros a Ha. wp_steps.
  destruct (delta_applied _ _ _ _ _ _ _ Hdelta Ha) as (Hid & Hnonce' & _ & Hslots & Hsupply).
  apply wp_assert; [by apply bool_decide_eq_true, Hnonce'|]. wp_steps.
  apply wp_or_fail; [done|]. intros basic Hbasic. wp_steps. destruct (max_supply_of basic <? _)%N eqn:Hmax; wp_steps.
  { apply wp_or_fail; [done|]. intros ? _. wp_steps. by apply N.ltb_lt. }
  split; [done|]. exists a. split; [done|]. split_and!; [done|by apply Hnonce'|]. intros supply Hs. cbn in Hs.
  assert (has_supply a supply) as Ha'.
  { apply Hsupply; [|done]. destruct (decide _); [by rewrite dom_singleton_L|by rewrite dom_empty_L]. }
  rewrite Hid. split_and!; [done| |].
  - destruct Ha' as (c & Hc & <-). rewrite Hbasic in Hc. injection Hc as <-. by apply N.ltb_ge.
  - intros Hne. apply Hslots. rewrite decide_True by done. apply lookup_singleton_eq.
Qed.

(** The configuration's state before and after the faucets are settled. *)
Lemma wp_build_state random iter config :
  Forall (λ c, (fc_max_supply c < felt_modulus)%N) (cfg_fungible_faucet config) →
  (∀ m, iter m ≡ₚ map_to_list m) →
  wp (build_state random iter config) builder_new (λ b r, ∃ b0 faucets,
    faucets_made (cfg_fungible_faucet config) b0 ∧
    wallets_made b0 (ilog10 (10 `max` N.of_nat (length (cfg_wallet config)))) (imap pair (cfg_wallet config)) b ∧
    Forall2 (settled b) (iter (faucet_accounts b0)) faucets ∧
    r = (mk_genesis_state (faucets ++ wallet_accounts b) (cfg_version config) (cfg_timestamp config), secrets b))
    (λ _ e, blames (¬ NoDup (fc_symbol <$> cfg_fungible_faucet config))
      (¬ Forall (λ c, Forall (λ e, ae_symbol e ∈ fc_symbol <$> cfg_fungible_faucet config) (assets c)) (cfg_wallet config)) e).
Proof.
  intros Hfelt Hiter. unfold build_state. wp_steps.
  eapply wp_mono; [apply (wp_for_each (λ pre b, faucets_made pre.*2 b))| |exact (λ _ _ Hx, Hx)].
  { split; cbn; try done; constructor. }
  { intros pre [i c] rest b Hpre Hmade. rewrite fmap_app. cbn. eapply wp_mono; [apply wp_add_faucet; [|done]|done|].
    - apply (proj1 (Forall_forall _ _) Hfelt). by eapply imap_pair_elem.
    - cbn beta. intros _ e. apply blames_mono; [|done]. intros Hin Hnd. pose proof (imap_pair_snd (cfg_fungible_faucet config)) as Hsnd.
      rewrite Hpre in Hsnd. rewrite <- Hsnd, !fmap_app in Hnd. apply NoDup_app in Hnd as (_ & Hnd & _).
      apply (Hnd _ Hin). left. }
  cbn beta. intros b0 _ Hmade. wp_steps.
  rewrite imap_pair_snd in Hmade. eapply wp_mono; [apply wp_wallets; apply Hmade| |].
  2: { cbn beta. intros _ e. apply blames_mono; [done|]. intros Hno Hall. apply Hno. eapply Forall_impl; [exact Hall|].
       cbn. intros c Hc. eapply Forall_impl; [exact Hc|]. cbn. intros x Hx. by apply (faucet_symbol _ _ _ Hmade). }
  cbn beta. intros b _ Hwallets. wp_steps. rewrite (wm_faucets _ _ _ _ Hwallets).
  eapply wp_mono; [apply (wp_fold_m (λ pre b' l, b' = b ∧ Forall2 (settled b) pre l))| |intros ? e; cbn beta; by apply blames_mono].
  { by split. }
  { intros pre [symbol a] rest b' l Hpre [-> Hl]. eapply wp_mono; [apply wp_settle| |by intros ? e; cbn beta; apply blames_mono].
    - assert (faucet_accounts b0 !! symbol = Some a) as Ha.
      { apply elem_of_map_to_list. rewrite <- Hiter, Hpre. apply elem_of_app. right. left. }
      assert (symbol ∈ fc_symbol <$> cfg_fungible_faucet config) as (c & -> & Hc)%list_elem_of_fmap
        by (apply (faucet_symbol _ _ _ Hmade); eauto).
      destruct (proj1 (Forall_forall _ _) (fm_made _ _ Hmade) c Hc) as (a' & Ha' & Hn & _). cbn.
      rewrite Ha in Ha'. by injection Ha' as ->.
    - cbn beta. intros b'' l' [-> (a' & -> & Hset)]. split; [done|]. apply Forall2_app; [done|]. constructor; [exact Hset|constructor]. }
  cbn beta. intros ? faucets [-> Hset]. wp_steps. exists b0, faucets. done.
Qed.

(** ** The accounts of a configuration *)

(** The table of [as_account_files] has an account for every id. *)
Lemma account_lut_lookup (l : list Account) (m : gmap AccountId Account) id :
  id ∈ acc_id <$> l → ∃ a, foldl (λ m a, <[acc_id a := a]> m) m l !! id = Some a ∧ a ∈ l.
Proof.
  induction l as [|x l IH] using rev_ind; [by intros ?%not_elem_of_nil|].
  rewrite fmap_app, foldl_app. cbn. intros Hin. destruct (decide (acc_id x = id)) as [<-|Hne].
  - exists x. rewrite lookup_insert_eq. split; [done|set_solver].
  - rewrite lookup_insert_ne by done. destruct IH as (a & Ha & Hal); [set_solver|]. exists a. split; [done|set_solver].
Qed.

Definition file_of (accounts : list Account) (name : string) (r : GenesisConfigError + AccountFileWithName) : Prop :=
  ∃ file, r = inr file ∧ af_name file = name ∧ af_account file ∈ accounts.

Lemma account_files g (l : list (string * AccountId * SecretKey * Word)) :
  (∀ x, x ∈ l → x.1.1.2 ∈ acc_id <$> accounts g) →
  Forall2 (file_of (accounts g)) ((λ x, x.1.1.1) <$> l) (as_account_files l g).
Proof.
  intros Hl. unfold as_account_files. apply Forall2_fmap, Forall_Forall2_diag, Forall_forall.
  intros [[[name id] key] seed] Hx. destruct (account_lut_lookup (accounts g) ∅ id (Hl _ Hx)) as (a & Ha & Hin).
  cbn. rewrite Ha. by eexists.
Qed.

(** The faucets of a successful run. *)
Lemma faucets_settled configs b0 b (iter : gmap string Account → list (string * Account)) faucets :
  faucets_made configs b0 → (∀ m, iter m ≡ₚ map_to_list m) →
  Forall2 (settled b) (iter (faucet_accounts b0)) faucets →
  length faucets = length configs ∧
  ∀ c, c ∈ configs → ∃ m a, faucet_accounts b0 !! fc_symbol c = Some m ∧ a ∈ faucets ∧ acc_id a = acc_id m ∧
    has_supply m (fc_max_supply c) ∧ settled b (fc_symbol c, m) a.
Proof.
  intros [_ _ Hnd Hdom Hmade _] Hiter Hset. split.
  - rewrite <- (Forall2_length _ _ _ Hset), Hiter, length_map_to_list, <- size_dom, Hdom.
    rewrite size_list_to_set by done. by rewrite length_fmap.
  - intros c Hc. destruct (proj1 (Forall_forall _ _) Hmade c Hc) as (m & Hm & _ & Hs). exists m.
    assert ((fc_symbol c, m) ∈ iter (faucet_accounts b0)) as [i Hi]%list_elem_of_lookup_1.
    { rewrite Hiter. by apply elem_of_map_to_list. }
    destruct (Forall2_lookup_l _ _ _ _ _ Hset Hi) as (a & Ha & Hsettled). exists a.
    split_and!; [done|by eapply list_elem_of_lookup_2|apply Hsettled|done|done].
Qed.


End config.

(** ** Bootstrapping *)

(** Documented behaviour of the genesis block's parts. The account tree has a leaf for
    each prefix of an id; the index of a slot is a byte, and a balance fits 63 bits. *)
Class GenesisLaws `{!MidenObjects} `{!NtxObjects} `{!StoreObjects} `{!StoreTrees} `{!GenesisObjects} `{!TreeLaws} : Prop := {
  account_update_id id d u : update_id (account_update_new id d u) = id;
  account_update_commitment id d u : update_commitment (account_update_new id d u) = d;
  account_update_details id d u : update_details (account_update_new id d u) = u;
  update_private_view : details_view update_private = NtxAccount.Private;
  update_account_view a : details_view (update_of_account a) = New a;
  header_new_num v prev n chain ar nr nor txs kernel proof ts :
    header_block_num (block_header_new v prev n chain ar nr nor txs kernel proof ts) = n;
  block_new_header h us notes ns txs : block_header (proven_block_new h us notes ns txs) = h;
  block_new_updates h us notes ns txs : block_updated_accounts (proven_block_new h us notes ns txs) = us;
  block_new_transactions h us notes ns txs : block_transactions (proven_block_new h us notes ns txs) = txs;
  peaks_empty : is_Some (mmr_peaks_new 0 []);
  at_with_entries_slots l t : at_with_entries l = Some t → NoDup (id_slot <$> l.*1);
  acc_commitment_hash a : acc_commitment a ≠ digest_default;
  acc_slots_bound a : length (acc_slots a) ≤ 255;
  acc_assets_bound a f n : Fungible f n ∈ acc_assets a → (n < 2 ^ 63)%N;
}.

(** *** Inserting the accounts never panics *)

Definition never_panics {S E A} (m : M S E A) : Prop := ∀ s, wp m s (λ _ _, True) (λ _ _, True).

Section never_panics.
Context {S E : Type}.

Lemma np_bind {A B} (m : M S E A) (k : A → M S E B) : never_panics m → (∀ a, never_panics (k a)) → never_panics (m ≫= k).
Proof. intros Hm Hk s. rewrite wp_bind. eapply wp_mono; [apply Hm| |done]. intros s' a _. apply Hk. Qed.

Lemma np_ret {A} (a : A) : never_panics (mret a : M S E A).
Proof. done. Qed.

Lemma np_get : never_panics (get : M S E S).
Proof. done. Qed.

Lemma np_modify f : never_panics (modify f : M S E unit).
Proof. done. Qed.

Lemma np_throw {A} e : never_panics (throw e : M S E A).
Proof. done. Qed.

Lemma np_for_each {A} (l : list A) (f : A → M S E unit) : (∀ x, x ∈ l → never_panics (f x)) → never_panics (for_each l f).
Proof.
  intros Hf s. apply (wp_for_each (λ _ _, True)); [done|]. intros pre x rest s' Hl _. apply Hf. rewrite Hl.
  apply elem_of_app. right. left.
Qed.

Lemma np_fold_m {A B} (l : list A) (f : B → A → M S E B) b : (∀ b x, x ∈ l → never_panics (f b x)) → never_panics (fold_m f b l).
Proof.
  intros Hf s. apply (wp_fold_m (λ _ _ _, True)); [done|]. intros pre x rest s' b' Hl _. apply Hf. rewrite Hl.
  apply elem_of_app. right. left.
Qed.

End never_panics.

Create HintDb np.
#[export] Hint Resolve np_bind np_ret np_get np_modify np_throw np_for_each : np.

Section bootstrap.
Context `{!MidenObjects} `{!NtxObjects} `{!StoreObjects} `{!StoreTrees} `{!GenesisObjects}.
Context `{!MidenLaws} `{!StoreLaws} `{!TreeLaws} `{!GenesisLaws}.
Import Sql Write StoreState.
Implicit Types (t : Tables) (a : Account) (g : GenesisState).

Abbreviation DB := (M Tables DatabaseError).

Lemma np_constraint b what : never_panics (constraint b what : DB unit).
Proof. destruct b; cbn; auto with np. Qed.

Lemma np_or_throw {A} (o : option A) e : never_panics (or_throw o e : DB A).
Proof. destruct o; cbn; auto with np. Qed.

#[local] Hint Resolve np_constraint np_or_throw : np.

Lemma np_insert_account_delta id bn delta : never_panics (insert_account_delta id bn delta : DB unit).
Proof.
  unfold insert_account_delta. repeat (first [apply np_constraint | apply np_or_throw | apply np_get | apply np_modify
    | apply np_for_each; intros [??] _ | apply np_bind; [|intros ?]]).
Qed.

Lemma np_build_insert_delta a : never_panics (build_insert_delta a : DB AccountDelta).
Proof.
  unfold build_insert_delta. apply np_bind; [apply np_fold_m|intros [values maps]; apply np_bind; [apply np_fold_m|]].
  - intros [values maps] [i slot] Hin s. cbn. wp_steps.
    apply elem_of_lookup_imap in Hin as (j & slot' & [= -> ->] & Hj%lookup_lt_Some).
    pose proof (acc_slots_bound a). rewrite decide_True by lia. eapply wp_expect_some; [done|]. by destruct slot'; wp_steps.
  - intros [fungible non_fungible] asset Hin s. cbn. destruct asset as [f n|asset]; wp_steps; [|done].
    unfold u64_param. rewrite (proj2 (N.ltb_lt _ _) (acc_assets_bound _ _ _ Hin)). eapply wp_expect_some; [done|]. by wp_steps.
  - intros [fungible non_fungible]. apply np_or_throw.
Qed.

Lemma np_upsert_genesis bn a : never_panics (upsert_account bn (genesis_update a) : DB unit).
Proof.
  unfold upsert_account. apply np_bind.
  - unfold updated_details, genesis_update. rewrite account_update_details, account_update_id.
    destruct (account_is_public _).
    + rewrite update_account_view. apply np_bind.
      * intros t. apply wp_assert; [|done]. by apply bool_decide_eq_true.
      * intros _. case_decide; [|apply np_throw]. apply np_bind; [apply np_build_insert_delta|intros ?; apply np_ret].
    + rewrite update_private_view. apply np_ret.
  - intros [account delta]. apply np_bind; [apply np_get|intros t]. apply np_bind; [apply np_constraint|intros _].
    apply np_bind; [apply np_modify|intros _]. destruct delta; [apply np_insert_account_delta|apply np_ret].
Qed.

Lemma np_apply_genesis header (l : list Account) :
  never_panics (Write.apply_block header [] [] (genesis_update <$> l) [] : DB unit).
Proof.
  unfold Write.apply_block. apply np_bind.
  { unfold insert_block_header. auto with np. }
  intros _. apply np_bind.
  { apply np_for_each. intros u (a & -> & _)%list_elem_of_fmap. apply np_upsert_genesis. }
  intros _. apply np_bind; [apply np_ret|intros _]. apply np_bind; [apply np_ret|intros _].
  apply np_bind; [apply np_ret|intros _]. intros t. unfold insert_nullifiers_for_block, check_limit. wp_steps.
  rewrite decide_False by (cbn; lia). wp_steps. done.
Qed.

(** *** The tables and the trees of genesis *)

Lemma genesis_ids (l : list Account) : update_id <$> (genesis_update <$> l) = acc_id <$> l.
Proof. rewrite <- list_fmap_compose. apply list_fmap_ext. intros i a _. cbn. apply account_update_id. Qed.

Section tables.
Context (header : BlockHeader) (l : list Account) (t : Tables).
Hypothesis Hnum : header_block_num header = 0%N.
Hypothesis Hw : written empty_tables header [] [] (genesis_update <$> l) [] t.

Lemma genesis_headers : block_headers t = {[0%N := header]}.
Proof. rewrite (w_headers _ _ _ _ _ _ _ Hw), Hnum. reflexivity. Qed.

Lemma genesis_nullifiers : nullifiers t = ∅.
Proof. rewrite (w_nullifiers _ _ _ _ _ _ _ Hw). reflexivity. Qed.

Lemma genesis_account id row :
  accounts t !! id = Some row → ∃ a, a ∈ l ∧ acc_id a = id ∧ account_updated 0 (genesis_update a) row.
Proof.
  intros Hrow. destruct (decide (id ∈ acc_id <$> l)) as [Hin|Hin].
  - apply list_elem_of_fmap in Hin as (a & -> & Ha). exists a. split_and!; [done|done|].
    destruct (w_accounts_set _ _ _ _ _ _ _ Hw (genesis_update a)) as (row' & Hrow' & Hupd).
    { by apply list_elem_of_fmap_2. }
    unfold genesis_update at 1 in Hrow'. rewrite account_update_id, Hrow in Hrow'. injection Hrow' as <-.
    by rewrite Hnum in Hupd.
  - rewrite <- genesis_ids in Hin. rewrite (w_accounts_kept _ _ _ _ _ _ _ Hw id Hin) in Hrow. done.
Qed.

Lemma genesis_account_commitment a :
  a ∈ l → ∃ row, accounts t !! acc_id a = Some row ∧ account_commitment row = acc_commitment a.
Proof.
  intros Ha. destruct (w_accounts_set _ _ _ _ _ _ _ Hw (genesis_update a)) as (row & Hrow & Hc & _).
  { by apply list_elem_of_fmap_2. }
  exists row. unfold genesis_update in *. by rewrite account_update_id, account_update_commitment in *.
Qed.

Lemma genesis_tip : is_tip t 0.
Proof.
  intros bn. rewrite genesis_headers. split.
  - intros [h [<- _]%lookup_singleton_Some]. done.
  - intros Hbn. replace bn with 0%N by lia. rewrite lookup_singleton_eq. eauto.
Qed.

Lemma genesis_block_zero : is_Some (block_headers t !! 0%N).
Proof. by apply genesis_tip. Qed.

Lemma genesis_tables_ok : tables_ok t.
Proof.
  split.
  - intros bn h. rewrite genesis_headers. by intros [<- <-]%lookup_singleton_Some.
  - exists 0%N. apply genesis_tip.
  - apply (w_script_roots _ _ _ _ _ _ _ Hw).
  - rewrite (w_notes _ _ _ _ _ _ _ Hw). constructor.
  - rewrite (w_notes _ _ _ _ _ _ _ Hw). constructor.
  - intros n p bn. by rewrite genesis_nullifiers.
  - intros id row (a & _ & _ & Hc & Hb & _ & Hd)%genesis_account. unfold genesis_update in Hc, Hd.
    rewrite account_update_commitment in Hc, Hd. split_and!.
    + rewrite Hc. apply acc_commitment_hash.
    + rewrite Hb. apply genesis_block_zero.
    + intros a' Ha'. rewrite Hc. by apply Hd.
  - intros tx id bn. rewrite (w_transactions _ _ _ _ _ _ _ Hw). done.
Qed.

(** The trees that mirror the tables. *)
Lemma genesis_mirrors tree :
  at_with_entries ((λ a, (acc_id a, acc_commitment a)) <$> l) = Some tree →
  ∃ i, mirrors i t ∧ chain_commitments (blockchain i) = [header_commitment header].
Proof.
  intros Htree. pose proof (at_with_entries_slots _ _ Htree) as Hslots. rewrite <- !list_fmap_compose in Hslots.
  set (entries := (λ a, (acc_id a, acc_commitment a)) <$> l) in *.
  assert (entries.*1 = acc_id <$> l) as Hfst by (unfold entries; by rewrite <- list_fmap_compose).
  assert (NoDup entries.*1) as Hnd.
  { rewrite Hfst. apply (NoDup_fmap_1 id_slot). rewrite <- list_fmap_compose. exact Hslots. }
  destruct (at_with_entries_spec entries Hnd) as (at_ & _ & Hids & Hget).
  { apply Forall_fmap, Forall_true. intros a. apply acc_commitment_hash. }
  { rewrite Hfst. intros id id' (a & -> & [i Hi]%list_elem_of_lookup_1)%list_elem_of_fmap
      (a' & -> & [j Hj]%list_elem_of_lookup_1)%list_elem_of_fmap Heq.
    assert (i = j) as ->.
    { eapply NoDup_lookup; [exact Hslots| |]; rewrite list_lookup_fmap; [by rewrite Hi|rewrite Hj; cbn; by rewrite <- Heq]. }
    rewrite Hi in Hj. by injection Hj as ->. }
  destruct (nt_with_entries_spec []) as (nt & _ & Hnt); [constructor|constructor|].
  exists (mk_inner nt (chain_of [header_commitment header]) at_). split; [split; cbn|apply chain_of_spec].
  - rewrite Hnt, genesis_nullifiers. by rewrite fmap_empty.
  - rewrite Hids, Hfst. apply set_eq. intros id. rewrite elem_of_list_to_set, elem_of_dom. split.
    + intros (a & -> & Ha)%list_elem_of_fmap. destruct (genesis_account_commitment a Ha) as (row & -> & _). eauto.
    + intros [row (a & Ha & <- & _)%genesis_account]. by apply list_elem_of_fmap_2.
  - intros id. rewrite Hget. f_equal. destruct (accounts t !! id) as [row|] eqn:Hrow.
    + apply genesis_account in Hrow as (a & Ha & <- & Hc & _). cbn. rewrite Hc. unfold genesis_update.
      rewrite account_update_commitment. apply elem_of_list_to_map_1; [done|].
      unfold entries. by apply (list_elem_of_fmap_2 (λ a, (acc_id a, acc_commitment a))).
    + cbn. apply not_elem_of_list_to_map_1. rewrite Hfst. intros (a & -> & Ha)%list_elem_of_fmap.
      destruct (genesis_account_commitment a Ha) as (row & Hrow' & _). congruence.
  - rewrite chain_of_spec, genesis_headers. unfold bm_values, bm_keys. rewrite dom_singleton_L. unfold bt_iter.
    rewrite elements_singleton. cbn. by rewrite lookup_singleton_eq.
Qed.

End tables.

(** *** The block *)

Record genesis_block g (block : ProvenBlock) : Prop := {
  gb_num : header_block_num (block_header block) = 0%N;
  gb_updates : block_updated_accounts block = genesis_update <$> Genesis.accounts g;
  gb_transactions : block_transactions block = [];
  gb_tree : ∃ tree, at_with_entries ((λ a, (acc_id a, acc_commitment a)) <$> Genesis.accounts g) = Some tree;
}.

Lemma wp_into_block {S} g (s : S) :
  wp (into_block g) s (λ s' block, s' = s ∧ genesis_block g block) (λ s' _, s' = s).
Proof.
  unfold into_block. wp_steps.
  assert ((λ u, (update_id u, update_commitment u)) <$> (genesis_update <$> Genesis.accounts g) =
    (λ a, (acc_id a, acc_commitment a)) <$> Genesis.accounts g) as ->.
  { rewrite <- list_fmap_compose. apply list_fmap_ext. intros i a _. unfold genesis_update. cbn.
    by rewrite account_update_id, account_update_commitment. }
  destruct (at_with_entries _) as [tree|] eqn:Htree; wp_steps; [|done].
  destruct peaks_empty as [peaks Hpeaks]. eapply wp_expect_some; [exact Hpeaks|]. wp_steps. split; [done|].
  split; [by rewrite block_new_header, header_new_num|by rewrite block_new_updates|by rewrite block_new_transactions|].
  by exists tree.
Qed.

Lemma wp_db_bootstrap faults g block d :
  genesis_block g block → database d = None → NoDup (acc_id <$> Genesis.accounts g) →
  wp (db_bootstrap faults block) d
    (λ d' _, disk_fs d' = disk_fs d ∧ ∃ t, database d' = Some t ∧
      written empty_tables (block_header block) [] [] (genesis_update <$> Genesis.accounts g) [] t)
    (λ d' _, database d' = None ∨ database d' = Some empty_tables).
Proof.
  intros [_ Hu Ht _] Hdb Hnd. unfold db_bootstrap, fail_if. wp_steps. destruct (fault_open faults); wp_steps; [by left|].
  destruct (fault_migrations faults); wp_steps; [by left|]. cbn. rewrite Hdb, Hu, Ht. cbn.
  pose proof (np_apply_genesis (block_header block) (Genesis.accounts g) empty_tables) as Hnp.
  pose proof (apply_block_written empty_tables (block_header block) [] [] (genesis_update <$> Genesis.accounts g) []) as Hw.
  rewrite genesis_ids in Hw. specialize (Hw ltac:(done) Hnd). rewrite wp_unfold in Hnp. unfold pwp in Hw.
  destruct (Write.apply_block _ _ _ _ _ empty_tables) as [t [u|e|p|]]; wp_steps; try done; [|by right].
  destruct (Genesis.fault_commit faults); wp_steps; [by right|]. split; [done|]. by exists t.
Qed.

(** What a successful bootstrap leaves on the disk. *)
Lemma wp_bootstrap_disk faults g dir d :
  block_store_dir dir ∉ dirs (disk_fs d) → files (disk_fs d) = ∅ → database d = None →
  wp (bootstrap faults g dir) d
    (λ d' _, ∃ block t, genesis_block g block ∧ database d' = Some t ∧
      holds (disk_fs d') (mk_block_store (block_store_dir dir)) {[0%N := block_bytes block]} ∧
      written empty_tables (block_header block) [] [] (genesis_update <$> Genesis.accounts g) [] t)
    (λ d' _, database d' = None ∨ database d' = Some empty_tables).
Proof.
  intros Hnew Hfiles Hdb. unfold bootstrap. wp_steps. eapply wp_mono; [apply wp_into_block| |].
  2: { cbn beta. intros d' e ->. by left. }
  cbn beta. intros ? block [-> Hblock]. wp_steps. unfold load_data_directory. wp_steps. case_decide; wp_steps; [|by left].
  eapply wp_mono; [by apply wp_bootstrap| |].
  2: { cbn. by left. }
  cbn beta. intros fs' b [-> Hholds]. wp_steps.
  assert (NoDup (acc_id <$> Genesis.accounts g)) as Hnd.
  { destruct (gb_tree _ _ Hblock) as [tree Htree]. apply at_with_entries_slots in Htree.
    rewrite <- !list_fmap_compose in Htree. apply (NoDup_fmap_1 id_slot). rewrite <- list_fmap_compose. exact Htree. }
  eapply wp_mono; [by apply (wp_db_bootstrap faults g block)| |done].
  cbn beta. intros d' _ (Hfs & t & Ht & Hw). exists block, t. split_and!; try done. by rewrite Hfs.
Qed.

Lemma bootstrap_again faults g dir d :
  block_store_dir dir ∈ dirs (disk_fs d) → (bootstrap faults g dir d).1 = d ∧ ∃ e, (bootstrap faults g dir d).2 = Err e.
Proof.
  intros Hin. assert (wp (bootstrap faults g dir) d (λ _ _, False) (λ d' _, d' = d)) as Hwp.
  { unfold bootstrap. wp_steps. eapply wp_mono; [apply wp_into_block| |done]. cbn beta. intros ? block [-> _]. wp_steps.
    unfold load_data_directory. wp_steps. case_decide; wp_steps; [|done].
    destruct (bootstrap_existing (io_faults faults) (block_store_dir dir) (block_bytes block) (disk_fs d) Hin) as [Hfs [e He]].
    rewrite wp_unfold. destruct (BlockStore.bootstrap _ _ _ _) as [fs' r]. cbn in Hfs, He. subst. by destruct d. }
  rewrite wp_unfold in Hwp. destruct (bootstrap faults g dir d) as [d' []]; try done. cbn. by eauto.
Qed.

(** C15: The node starts from genesis. Bootstrapping a store on a disk without one never
    panics, whatever the accounts and whatever fails. If it succeeds, the block store
    holds the genesis block alone, as block 0, and a node that starts from this disk
    loads a consistent state, the one all theorems about the store start from: its
    tip is block 0, its chain is the genesis block, no nullifier is spent, and the
    accounts are those of the genesis state, with their commitments. A second
    bootstrap fails and changes nothing. If it fails, no block is in the database. *)
Theorem genesis_bootstraps faults g dir d
    (Hdir : dir ∈ dirs (disk_fs d)) (Hnew : block_store_dir dir ∉ dirs (disk_fs d))
    (Hfiles : files (disk_fs d) = ∅) (Hdb : database d = None) :
  match bootstrap faults g dir d with
  | (d', Ok _) => ∃ block t b s, genesis_block g block ∧ database d' = Some t ∧
      BlockStore.load (block_store_dir dir) (disk_fs d') = (disk_fs d', Ok b) ∧
      holds (disk_fs d') b {[0%N := block_bytes block]} ∧
      StoreState.load {[0%N := block_bytes block]} t = (t, Ok s) ∧ consistent s ∧ db s = t ∧
      is_tip t 0 ∧ block_headers t = {[0%N := block_header block]} ∧
      chain_commitments (blockchain (inner s)) = [block_commitment block] ∧
      (∀ n, nt_get_block_num (nullifier_tree (inner s)) n = None) ∧
      (∀ a, a ∈ Genesis.accounts g → at_get (account_tree (inner s)) (acc_id a) = acc_commitment a) ∧
      (∀ id, id ∉ acc_id <$> Genesis.accounts g → at_get (account_tree (inner s)) id = digest_default) ∧
      ∀ faults', (bootstrap faults' g dir d').1 = d' ∧ ∃ e, (bootstrap faults' g dir d').2 = Err e
  | (d', Err _) => database d' = None ∨ database d' = Some empty_tables
  | _ => False
  end.
Proof.
  pose proof (wp_bootstrap_disk faults g dir d Hnew Hfiles Hdb) as Hwp. rewrite wp_unfold in Hwp.
  destruct (bootstrap faults g dir d) as [d' [u|e|p|]]; [|done..].
  destruct Hwp as (block & t & Hblock & Ht & Hholds & Hw). pose proof Hblock as [Hnum _ _ [tree Htree]].
  destruct (genesis_mirrors _ _ _ Hnum Hw tree Htree) as (i & Hm & Hchain).
  destruct (load_consistent (mk_state t ∅ [] i false) {[0%N := block_bytes block]}) as (s & Hload & Hc & Hdbs & _).
  { split; [by eapply genesis_tables_ok|done]. }
  cbn in Hload, Hdbs. destruct (Hc) as [_ [M1 _ M3 M4]]. rewrite Hdbs in M1, M3, M4.
  assert (block_store_dir dir ∈ dirs (disk_fs d')) as Hin by apply Hholds.
  exists block, t, (mk_block_store (block_store_dir dir)), s. split_and!; try done.
  - by apply load_existing.
  - by eapply genesis_tip.
  - by eapply genesis_headers.
  - rewrite M4, <- (mir_chain _ _ Hm), Hchain. by rewrite block_commitment_spec.
  - intros n. rewrite nt_get_spec, M1. by erewrite genesis_nullifiers.
  - intros a Ha. rewrite M3. by destruct (genesis_account_commitment _ _ _ Hw a Ha) as (row & -> & Hr).
  - intros id Hid. rewrite M3. destruct (accounts t !! id) as [row|] eqn:Hrow; [|done].
    destruct (genesis_account _ _ _ Hnum Hw id row Hrow) as (a & Ha & <- & _). destruct Hid. by apply list_elem_of_fmap_2.
  - intros faults'. by apply bootstrap_again.
Qed.

End bootstrap.
