(* ===== verification/StoreInputs.v ===== *)
(** * Theorems about the inputs of blocks and transactions *)

From S2P Require Import Prelude.
From S2P Require Import External.
From S2P Require Import NtxAccount.
From S2P Require Import StoreObjects.
From S2P Require Import StoreSql.
From S2P Require Import StoreWrite.
From S2P Require Import StoreRead.
From S2P Require Import StoreTrees.
From S2P Require Import StoreProofs.
From S2P Require Import StoreState.
From S2P Require Import StoreApply.
From S2P Require Import StoreQueries.
From S2P Require Import StoreReads.
Import Sql.
Import Write.
Import Read.
Import StoreState.
Import Queries.

(** Removing an element by swapping it with the last one permutes the rest. *)
Lemma swap_remove_perm {A} i (l : list A) x :
  l !! i = Some x → ∃ rest, swap_remove i l = Some (x, rest) ∧ l ≡ₚ x :: rest.
Proof.
  intros Hi. unfold swap_remove. rewrite Hi. cbn. destruct l as [|y l _] using rev_ind; [done|].
  rewrite last_snoc. cbn. eexists. split; [done|]. destruct (decide (i = length l)) as [->|Hne].
  - rewrite lookup_app_r, Nat.sub_diag in Hi by done. injection Hi as ->.
    rewrite insert_app_r_alt, Nat.sub_diag by done. cbn. rewrite removelast_last.
    by rewrite Permutation_app_comm.
  - assert (i < length l) as Hlt.
    { apply lookup_lt_Some in Hi. rewrite length_app in Hi. cbn in Hi. lia. }
    rewrite lookup_app_l in Hi by done. rewrite insert_app_l by done. rewrite removelast_last.
    rewrite (insert_take_drop l i y Hlt). rewrite <- (take_drop_middle l i x Hi) at 1.
    rewrite <- !app_assoc. cbn. rewrite <- (Permutation_middle (take i l) _ x). apply perm_skip, Permutation_app_head.
    symmetry. apply Permutation_cons_append.
Qed.

Section inputs.
Context `{!MidenObjects} `{!NtxObjects} `{!StoreObjects} `{!StoreTrees} `{!MidenLaws} `{!StoreLaws} `{!TreeLaws}.
Implicit Types (t : Tables) (s : State) (bn : BlockNumber) (row : NoteRow).

Abbreviation QM := (M State QueryError).

(** ** Inclusion proofs *)

(** Every proof is of a stored note, and every stored note that was asked for has
    one. *)
Definition proofs_of t (ids : gset NoteId) (proofs : gmap NoteId NoteInclusionProof) : Prop :=
  (∀ id, is_Some (proofs !! id) ↔ id ∈ ids ∧ id ∈ nr_note_id <$> notes t) ∧
  ∀ id p, proofs !! id = Some p → is_Some (block_headers t !! proof_block_num p).

Lemma lookup_foldl_proofs (l : list (NoteId * NoteInclusionProof)) (m : gmap NoteId NoteInclusionProof) id :
  let m' := foldl (λ (m : gmap NoteId NoteInclusionProof) '(note, proof), <[note := proof]> m) m l in
  (m' !! id = m !! id ∧ id ∉ l.*1) ∨ ∃ p, m' !! id = Some p ∧ (id, p) ∈ l.
Proof.
  revert m. induction l as [|[id' p'] l IH]; intros m; cbn; [left; set_solver|].
  destruct (IH (<[id' := p']> m)) as [[Heq Hnin]|(p & Hp & Hin)]; [|right; exists p; set_solver].
  destruct (decide (id' = id)) as [->|Hne].
  - right. exists p'. rewrite Heq, lookup_insert_eq. set_solver.
  - left. rewrite Heq, lookup_insert_ne by done. set_solver.
Qed.

Lemma inclusion_proofs_spec t (ids : gset NoteId) :
  tables_ok t →
  if decide (note_id_limit < size ids)
  then select_note_inclusion_proofs ids t = (t, Err (QueryParamLimitExceeded note_id_limit (size ids)))
  else ∃ proofs, select_note_inclusion_proofs ids t = (t, Ok proofs) ∧ proofs_of t ids proofs.
Proof.
  intros Hok. unfold select_note_inclusion_proofs, check_limit, mbind, M_bind.
  destruct (decide (note_id_limit < size ids)) as [?|_]; [done|]. cbn.
  set (rows := filter (λ row, nr_note_id row ∈ ids) (notes t)).
  assert (∀ row, row ∈ rows → row ∈ notes t ∧ nr_note_id row ∈ ids ∧
    ∃ p, converts inclusion_proof_of t row (nr_note_id row, p) ∧ is_Some (block_headers t !! proof_block_num p)) as Hrows.
  { intros row [Hid Hin]%list_elem_of_filter. split_and!; [done|done|].
    destruct (proj1 (Forall_forall _ _) (ok_notes _ Hok) _ Hin) as (r & n & ns & -> & Hb & _).
    exists (mk_inclusion_proof (rec_block_num r) (leaf_index_value (rec_note_index r)) (rec_merkle_path r)).
    split; [|exact Hb]. unfold converts, inclusion_proof_of, mbind, M_bind. cbn. by rewrite note_index_inv. }
  destruct (Forall_converts inclusion_proof_of t (by_block nr_block_num rows)) as [ps Hps].
  { apply Forall_forall. intros row Hin. rewrite by_block_perm in Hin.
    destruct (Hrows row Hin) as (_ & _ & p & Hp & _). eauto. }
  rewrite (collect_converts _ _ _ _ Hps). cbn. eexists. split; [done|].
  assert (∀ id p, (id, p) ∈ ps → id ∈ ids ∧ id ∈ nr_note_id <$> notes t ∧ is_Some (block_headers t !! proof_block_num p))
    as Hps1.
  { intros id p Hin. apply list_elem_of_lookup in Hin as [i Hi].
    destruct (Forall2_lookup_r _ _ _ _ _ Hps Hi) as (row & Hrow & Hc). apply list_elem_of_lookup_2 in Hrow.
    rewrite by_block_perm in Hrow. destruct (Hrows _ Hrow) as (Hn & Hid & p' & Hp' & Hb).
    unfold converts in Hc, Hp'. rewrite Hc in Hp'. injection Hp' as -> ->. split_and!; [done| |done].
    by apply list_elem_of_fmap_2. }
  assert (∀ id, id ∈ ids → id ∈ nr_note_id <$> notes t → id ∈ ps.*1) as Hps2.
  { intros id Hid Hin. apply list_elem_of_fmap in Hin as (row & -> & Hin).
    assert (row ∈ by_block nr_block_num rows) as Hr by (rewrite by_block_perm; by apply list_elem_of_filter).
    apply list_elem_of_lookup in Hr as [i Hi].
    destruct (Forall2_lookup_l _ _ _ _ _ Hps Hi) as ([id' p] & Hp & Hc).
    apply list_elem_of_lookup_2 in Hi. rewrite by_block_perm in Hi.
    destruct (Hrows _ Hi) as (_ & _ & p' & Hp' & _). unfold converts in Hc, Hp'. rewrite Hc in Hp'.
    injection Hp' as -> ->. apply list_elem_of_fmap. exists (nr_note_id row, p'). split; [done|].
    by eapply list_elem_of_lookup_2. }
  split.
  - intros id. destruct (lookup_foldl_proofs ps ∅ id) as [[Heq Hnin]|(p & Hp & Hin)].
    + rewrite Heq, lookup_empty. split; [by intros []|]. intros [Hid Hin]. by destruct Hnin; apply Hps2.
    + rewrite Hp. split; [|eauto]. intros _. destruct (Hps1 id p Hin) as (? & ? & _). done.
  - intros id p Hp. destruct (lookup_foldl_proofs ps ∅ id) as [[Heq Hnin]|(p' & Hp' & Hin)].
    + rewrite Heq, lookup_empty in Hp. done.
    + rewrite Hp in Hp'. injection Hp' as <-. by apply (Hps1 id p Hin).
Qed.

(** ** Headers *)

Lemma elem_of_blocks (blocks : gset BlockNumber) bn : bn ∈ bt_iter (K := N) blocks ↔ bn ∈ blocks.
Proof. exact (@elem_of_bt_iter N N_key blocks bn). Qed.

Lemma length_blocks (blocks : gset BlockNumber) : length (bt_iter (K := N) blocks) = size blocks.
Proof. exact (@length_bt_iter N N_key blocks). Qed.

(** The headers of exactly the given blocks. *)
Definition headers_of t (blocks : gset BlockNumber) (headers : list BlockHeader) : Prop :=
  NoDup (header_block_num <$> headers) ∧
  ∀ h, h ∈ headers ↔ header_block_num h ∈ blocks ∧ block_headers t !! header_block_num h = Some h.

Lemma selected_headers t blocks latest :
  tables_ok t →
  let found := snd <$> filter (λ r : BlockNumber * BlockHeader, r.1 ∈ bt_iter (K := N) blocks ++ [latest])
    (map_to_list (block_headers t)) in
  headers_of t (blocks ∪ {[latest]}) found.
Proof.
  intros Hok found.
  assert (∀ h, h ∈ found ↔ header_block_num h ∈ blocks ∪ {[latest]} ∧ block_headers t !! header_block_num h = Some h) as Hin.
  { intros h. unfold found. rewrite list_elem_of_fmap. split.
    - intros ([bn h'] & -> & [Hb Hl%elem_of_map_to_list]%list_elem_of_filter). cbn in *.
      rewrite (ok_header_num _ Hok _ _ Hl). split; [|done].
      rewrite elem_of_app, list_elem_of_singleton in Hb. rewrite elem_of_union, elem_of_singleton.
      destruct Hb as [Hb|Hb]; [left; by apply elem_of_blocks|by right].
    - intros [Hb Hl]. exists (header_block_num h, h). split; [done|]. apply list_elem_of_filter. cbn.
      split; [|by apply elem_of_map_to_list]. rewrite elem_of_app, list_elem_of_singleton.
      rewrite elem_of_union, elem_of_singleton in Hb.
      destruct Hb as [Hb|Hb]; [left; by apply elem_of_blocks|by right]. }
  split; [|exact Hin].
  assert (header_block_num <$> found = (filter (λ r : BlockNumber * BlockHeader,
    r.1 ∈ bt_iter (K := N) blocks ++ [latest]) (map_to_list (block_headers t))).*1) as ->.
  { unfold found. rewrite <- list_fmap_compose. apply Forall_fmap_ext, Forall_forall.
    intros [bn h] [_ Hl%elem_of_map_to_list]%list_elem_of_filter. cbn. exact (ok_header_num _ Hok _ _ Hl). }
  apply NoDup_filter_fst, NoDup_fst_map_to_list.
Qed.

Lemma fetch_headers_spec s blocks latest header msg :
  consistent s → block_headers (db s) !! latest = Some header → latest ∉ blocks →
  if decide (block_limit < S (size blocks))
  then ∃ size, fetch_headers blocks latest msg s = (s, Err (SelectBlockHeaderError (QueryParamLimitExceeded block_limit size)))
  else ∃ headers, fetch_headers blocks latest msg s = (s, Ok (header, headers)) ∧ headers_of (db s) blocks headers.
Proof.
  intros [Hok _] Hheader Hlatest.
  assert (length (bt_iter (K := N) blocks ++ [latest]) = S (size blocks)) as Hlen.
  { rewrite length_app. cbn. rewrite Nat.add_1_r. f_equal. apply length_blocks. }
  pose proof (selected_headers (db s) blocks latest Hok) as Hfound. cbn zeta in Hfound.
  unfold fetch_headers, query, select_block_headers, check_limit, zoom, map_err, transact, mbind, M_bind. cbn beta.
  rewrite Hlen. destruct (decide (block_limit < S (size blocks))) as [Hl|Hl].
  { eexists. cbn. by destruct s. }
  cbn -[block_limit]. set (found := snd <$> filter _ _) in Hfound |- *. destruct Hfound as [Hnd Hin].
  assert (set_db (db s) s = s) as Hset by by destruct s.
  pose proof (ok_header_num _ Hok _ _ Hheader) as Hnum.
  assert (header ∈ found) as Hh by (apply Hin; rewrite Hnum; set_solver).
  assert (is_Some (list_find (λ h, header_block_num h = latest) found)) as [[i h] Hfind].
  { apply (list_find_elem_of _ _ header); [done|exact Hnum]. }
  rewrite Hfind. cbn. apply list_find_Some in Hfind as (Hi & Hlat & _).
  assert (h = header) as ->.
  { apply list_elem_of_lookup_2 in Hi. apply Hin in Hi as [_ Hi]. rewrite Hlat, Hheader in Hi. by injection Hi. }
  destruct (swap_remove_perm i found header Hi) as (rest & Hswap & Hperm). rewrite Hswap. cbn.
  exists rest. split; [by rewrite Hset|]. rewrite Hperm in Hnd. cbn in Hnd. apply NoDup_cons in Hnd as [Hnin Hnd].
  split; [done|]. intros h. split.
  - intros Hr. assert (h ∈ found) as [Hb Hl']%Hin by (rewrite Hperm; by right). split; [|done].
    rewrite elem_of_union, elem_of_singleton in Hb. destruct Hb as [|Hb]; [done|]. exfalso. apply Hnin.
    rewrite Hnum, <- Hb. by apply list_elem_of_fmap_2.
  - intros [Hb Hl']. assert (h ∈ found) as Hf by (apply Hin; set_solver). rewrite Hperm in Hf.
    apply elem_of_cons in Hf as [->|Hf]; [|done]. by rewrite Hnum in Hb.
Qed.

Lemma size_list_to_set_le (l : list BlockNumber) : size (list_to_set l : gset BlockNumber) ≤ length l.
Proof.
  induction l as [|x l IH]; cbn; [done|]. rewrite size_union_alt, size_singleton. apply le_n_S.
  etrans; [|exact IH]. apply subseteq_size. set_solver.
Qed.

Lemma highest_spec (blocks : gset BlockNumber) :
  match highest blocks with
  | Some top => top ∈ blocks ∧ ∀ bn, bn ∈ blocks → (bn ≤ top)%N
  | None => blocks = ∅
  end.
Proof.
  unfold highest. pose proof (@sorted_bt_iter N N_key blocks) as Hs.
  assert (∀ bn, bn ∈ bt_iter (K := N) blocks ↔ bn ∈ blocks) as Hin by apply elem_of_blocks. revert Hs Hin.
  generalize (bt_iter (K := N) blocks) as l. intros l. destruct l as [|top l _] using rev_ind; intros Hs Hin.
  - apply set_eq. intros bn. rewrite <- Hin. set_solver.
  - rewrite last_snoc. split; [apply Hin; set_solver|]. intros bn Hbn%Hin.
    apply elem_of_app in Hbn as [Hbn| ->%list_elem_of_singleton]; [|done].
    apply (StronglySorted_app_1_elem_of _ _ _ _ _ Hs Hbn). set_solver.
Qed.

(** The blocks of the proofs. *)
Definition proof_blocks (proofs : gmap NoteId NoteInclusionProof) : gset BlockNumber :=
  list_to_set (proof_block_num <$> (map_to_list proofs).*2).

Lemma elem_of_proof_blocks t ids proofs bn :
  proofs_of t ids proofs → bn ∈ proof_blocks proofs → is_Some (block_headers t !! bn).
Proof.
  intros [_ Hp]. unfold proof_blocks. rewrite elem_of_list_to_set, list_elem_of_fmap.
  intros (p & -> & Hin). apply list_elem_of_fmap in Hin as ([id p'] & -> & Hl%elem_of_map_to_list). by eapply Hp.
Qed.

(** C18: The inputs of a block never make the store panic. From a consistent state
    [get_block_inputs] changes nothing. It returns the header of the chain tip as the
    previous header, an inclusion proof for exactly the stored notes among those that
    were asked for, a partial chain of exactly the other blocks that were referenced
    or contain those notes, and the current witness of every account and nullifier.
    It fails only if a referenced block is newer than the tip, which it names, or if
    more than 1000 notes or blocks are involved. *)
Theorem store_block_inputs s ids ns notes_asked refs (Hc : consistent s) :
  match (get_block_inputs ids ns notes_asked refs : QM BlockInputs) s with
  | (s', Ok inputs) => s' = s ∧
      (∃ tip, is_tip (db s) tip ∧ block_headers (db s) !! tip = Some (prev_block_header inputs) ∧
        ∃ mmr headers,
          let blocks := (refs ∪ proof_blocks (unauthenticated_note_proofs inputs)) ∖ {[tip]} in
          chain_partial_mmr (blockchain (inner s)) blocks tip = Some mmr ∧ headers_of (db s) blocks headers ∧
          partial_blockchain_new mmr headers = Some (block_partial_block_chain inputs)) ∧
      proofs_of (db s) notes_asked (unauthenticated_note_proofs inputs) ∧
      account_witnesses inputs = list_to_map ((λ id, (id, at_open (account_tree (inner s)) id)) <$> ids) ∧
      nullifier_witnesses inputs = list_to_map ((λ n, (n, nt_open (nullifier_tree (inner s)) n)) <$> ns)
  | (s', Err (UnknownBlockReference top latest)) => s' = s ∧ top ∈ refs ∧ (latest < top)%N ∧ is_tip (db s) latest
  | (s', Err (SelectNoteInclusionProofError e)) => s' = s ∧ note_id_limit < size notes_asked
  | (s', Err (SelectBlockHeaderError e)) => s' = s ∧ block_limit ≤ size refs + size notes_asked
  | _ => False
  end.
Proof.
  pose proof Hc as [Hok Hm]. destruct (ok_headers _ Hok) as [tip Htip].
  destruct (proj2 (Htip tip)) as [header Hheader]; [lia|].
  pose proof (inclusion_proofs_spec (db s) notes_asked Hok) as Hproofs.
  unfold get_block_inputs, mbind, M_bind at 1. unfold query, zoom, map_err, transact.
  destruct (decide (note_id_limit < size notes_asked)) as [Hl|Hl].
  { rewrite Hproofs. cbn. split; [by destruct s|done]. }
  destruct Hproofs as (proofs & Hproofs & Hof). rewrite Hproofs. cbn beta iota zeta.
  assert (set_db (db s) s = s) as -> by by destruct s.
  fold (proof_blocks proofs). set (blocks := refs ∪ proof_blocks proofs).
  unfold get_block_inputs_witnesses, latest_block_num, mbind, M_bind, get, expect_some. cbn beta iota zeta.
  rewrite (mirrors_tip _ _ _ Hm Htip). cbn beta iota zeta. unfold mret, M_ret.
  pose proof (highest_spec blocks) as Htop.
  destruct (decide (tip < default tip (highest blocks))%N) as [Hlt|Hle].
  { unfold throw. split_and!; [done| |done|done]. destruct (highest blocks) as [top|]; cbn in *; [|lia].
    destruct Htop as [Htop _]. unfold blocks in Htop. apply elem_of_union in Htop as [|Htop]; [done|].
    apply (elem_of_proof_blocks _ _ _ _ Hof), Htip in Htop. lia. }
  assert (∀ bn, bn ∈ blocks ∖ {[tip]} → (bn < tip)%N) as Hbelow.
  { intros bn [Hbn Hne]%elem_of_difference. rewrite elem_of_singleton in Hne.
    destruct (highest blocks) as [top|]; cbn in *; [|subst; set_solver].
    destruct Htop as [_ Htop]. specialize (Htop bn Hbn). lia. }
  destruct (chain_partial_mmr_spec (blockchain (inner s)) (blocks ∖ {[tip]}) tip) as [mmr Hmmr].
  { rewrite (mir_chain _ _ Hm), length_fmap, (length_headers _ _ Htip). lia. }
  { done. }
  rewrite Hmmr. cbn beta iota zeta.
  pose proof (fetch_headers_spec s (blocks ∖ {[tip]}) tip header
    "DB should have returned the header of the latest block header" Hc Hheader) as Hfetch.
  destruct (decide (block_limit < S (size (blocks ∖ {[tip]})))) as [Hb|Hb].
  { destruct Hfetch as [sz ->]; [set_solver|]. split; [done|].
    assert (size (blocks ∖ {[tip]}) ≤ size blocks) by (apply subseteq_size; set_solver).
    assert (size blocks ≤ size refs + size (proof_blocks proofs)).
    { unfold blocks. rewrite size_union_alt. apply Nat.add_le_mono_l, subseteq_size. set_solver. }
    assert (size (proof_blocks proofs) ≤ size notes_asked); [|lia].
    etrans; [apply size_list_to_set_le|]. rewrite !length_fmap, length_map_to_list.
    rewrite <- size_dom. apply subseteq_size. intros id Hid%elem_of_dom. by apply (proj1 Hof) in Hid as []. }
  destruct Hfetch as (headers & -> & Hheaders); [set_solver|].
  destruct (partial_blockchain_new_spec _ _ _ mmr headers Hmmr) as [chain Hchain].
  { apply Hheaders. }
  { intros h Hh. by apply Hheaders in Hh as []. }
  rewrite Hchain. cbn. split_and!; [done| |done|done|done]. exists tip. split_and!; [done|done|].
  exists mmr, headers. done.
Qed.

End inputs.
