(* ===== verification/StoreSchema.v ===== *)
(** * The schema of the store's database

    [schema_ok] says that every row of every table satisfies the keys, the foreign
    keys and the checks of [db/migrations/001-init.sql], with the relations between
    columns that [db/sql/mod.rs] maintains by itself. It is the typing of the tables:
    every write preserves it, and a row that satisfies it reads back. *)

From S2P Require Import Prelude.
From S2P Require Import External.
From S2P Require Import NtxAccount.
From S2P Require Import StoreObjects.
From S2P Require Import StoreSql.
From S2P Require Import StoreWrite.
From S2P Require Import StoreRead.
From S2P Require Import StoreTrees.
From S2P Require Import StoreProofs.
From S2P Require Import StoreState.
From S2P Require Import StoreApply.
From S2P Require Import StoreReads.
Import Sql.
Import Write.
Import Read.
Import StoreState.

Create HintDb schema.

Section schema.
Context `{!MidenObjects} `{!NtxObjects} `{!StoreObjects} `{!StoreTrees} `{!MidenLaws} `{!StoreLaws} `{!TreeLaws}.
Implicit Types (t c : Tables) (s : State) (bn : BlockNumber) (id : AccountId) (block : ProvenBlock).

Abbreviation DB := (M Tables DatabaseError).

(** ** The rows of a table, and the rows they refer to *)

Definition has_block t bn : Prop := is_Some (block_headers t !! bn).

Definition has_account t id : Prop := is_Some (accounts t !! id).

Definition has_delta t (k : AccountId * BlockNumber) : Prop := is_Some (account_deltas t !! k).

Definition header_row_ok bn (h : BlockHeader) : Prop := header_block_num h = bn ∧ (bn < 2 ^ 32)%N.

(** The details are those of the commitment, and the prefix is that of the id. *)
Definition account_row_ok t id (row : AccountRow) : Prop :=
  has_block t (account_block_num row) ∧
  network_account_id_prefix row = (if account_is_network id then Some (prefix_u32 (prefix_of_id id)) else None) ∧
  ∀ a, details row = Some a → acc_commitment a = account_commitment row.

Definition script_row_ok (root : Digest) (script : NoteScript) : Prop := script_root script = root.

(** The row is that of a note (so that its columns are in the ranges of their
    checks), with the block, the sender and the script it refers to. *)
Definition note_row_typed t (row : NoteRow) : Prop :=
  note_row_ok t row ∧ has_account t (nr_sender row) ∧
  (1 ≤ nr_note_type row ≤ 3)%N ∧ (nr_execution_mode row ≤ 1)%N ∧
  (nr_batch_index row < 2 ^ 32)%N ∧ (nr_note_index row < 2 ^ 32)%N.

Definition delta_row_ok t (k : AccountId * BlockNumber) (nonce : Z) : Prop :=
  has_account t k.1 ∧ has_block t k.2 ∧ (0 ≤ nonce < 2 ^ 63)%Z.

Definition nullifier_row_ok t (n : Nullifier) (row : N * BlockNumber) : Prop :=
  row.1 = nullifier_prefix n ∧ (row.1 < 2 ^ 16)%N ∧ has_block t row.2.

Definition transaction_row_ok t (row : AccountId * BlockNumber) : Prop := has_account t row.1 ∧ has_block t row.2.

(** The rows of [t], with what they refer to in [c]. *)
Record typed_in c t : Prop := {
  sch_headers : map_Forall header_row_ok (block_headers t);
  sch_accounts : map_Forall (account_row_ok c) (accounts t);
  sch_notes : Forall (note_row_typed c) (notes t);
  sch_note_keys : NoDup (note_key <$> notes t);
  sch_scripts : map_Forall script_row_ok (note_scripts t);
  sch_deltas : map_Forall (delta_row_ok c) (account_deltas t);
  sch_slots : map_Forall (λ k _, has_delta c k.1) (slot_updates t);
  sch_maps : map_Forall (λ k _, has_delta c k.1.1) (map_updates t);
  sch_fungible : map_Forall (λ k _, has_delta c k.1) (fungible_deltas t);
  sch_non_fungible : map_Forall (λ k _, has_delta c k.1) (non_fungible_updates t);
  sch_nullifiers : map_Forall (nullifier_row_ok c) (nullifiers t);
  sch_transactions : map_Forall (λ _, transaction_row_ok c) (transactions t);
}.

Definition schema_ok t : Prop := typed_in t t.

(** ** Tables that other tables refer to only grow *)

Record grows t t' : Prop := {
  gr_headers : block_headers t ⊆ block_headers t';
  gr_accounts : dom (accounts t) ⊆ dom (accounts t');
  gr_scripts : note_scripts t ⊆ note_scripts t';
  gr_deltas : account_deltas t ⊆ account_deltas t';
}.

#[local] Instance grows_refl : Reflexive grows.
Proof. by split. Qed.

#[local] Instance grows_trans : Transitive grows.
Proof. intros t1 t2 t3 [] []. split; by etrans. Qed.

Lemma has_block_grows t t' bn : grows t t' → has_block t bn → has_block t' bn.
Proof. intros Hg [h Hh]. exists h. eapply lookup_weaken; [done|apply Hg]. Qed.

Lemma has_account_grows t t' id : grows t t' → has_account t id → has_account t' id.
Proof. intros Hg. unfold has_account. rewrite <- !elem_of_dom. apply Hg. Qed.

Lemma has_delta_grows t t' k : grows t t' → has_delta t k → has_delta t' k.
Proof. intros Hg [z Hz]. exists z. eapply lookup_weaken; [done|apply Hg]. Qed.

Hint Resolve has_block_grows has_account_grows has_delta_grows : schema.

Lemma account_row_grows t t' id row : grows t t' → account_row_ok t id row → account_row_ok t' id row.
Proof. intros Hg (R1 & R2 & R3). split_and!; eauto with schema. Qed.

Lemma note_row_grows t t' row : grows t t' → note_row_typed t row → note_row_typed t' row.
Proof.
  intros Hg (Hn & Hs & Hc). split_and!; try apply Hc; [|eauto with schema].
  eapply note_row_ok_mono; [done|apply Hg..].
Qed.

Lemma delta_row_grows t t' k z : grows t t' → delta_row_ok t k z → delta_row_ok t' k z.
Proof. intros Hg (R1 & R2 & R3). split_and!; eauto with schema; apply R3. Qed.

Lemma nullifier_row_grows t t' n row : grows t t' → nullifier_row_ok t n row → nullifier_row_ok t' n row.
Proof. intros Hg (R1 & R2 & R3). split_and!; eauto with schema. Qed.

Lemma transaction_row_grows t t' row : grows t t' → transaction_row_ok t row → transaction_row_ok t' row.
Proof. intros Hg [R1 R2]. split; eauto with schema. Qed.

Hint Resolve account_row_grows note_row_grows delta_row_grows nullifier_row_grows transaction_row_grows : schema.

Lemma map_Forall_weaken {K A} `{Countable K} (P Q : K → A → Prop) (m : gmap K A) :
  (∀ k x, P k x → Q k x) → map_Forall P m → map_Forall Q m.
Proof. intros HPQ Hm k x Hk. by apply HPQ, Hm. Qed.

Lemma Forall_weaken {A} (P Q : A → Prop) (l : list A) : (∀ x, P x → Q x) → Forall P l → Forall Q l.
Proof. intros HPQ Hl. by eapply Forall_impl. Qed.

Hint Resolve map_Forall_weaken Forall_weaken : schema.

Lemma typed_in_grows c c' t : grows c c' → typed_in c t → typed_in c' t.
Proof.
  intros Hg []. split; try done;
    first [eapply map_Forall_weaken; [|eassumption]|eapply Forall_weaken; [|eassumption]]; cbn; eauto with schema.
Qed.

(** A step from typed tables to typed tables that are larger. *)
Definition typed_step t t' : Prop := grows t t' ∧ (schema_ok t → schema_ok t').

#[local] Instance typed_step_refl : Reflexive typed_step.
Proof. by split. Qed.

#[local] Instance typed_step_trans : Transitive typed_step.
Proof. intros t1 t2 t3 [? ?] [? ?]. split; [by etrans|auto]. Qed.

(** It is enough that the rows of [t'] are typed if those of [t] are, both in [t']. *)
Lemma typed_step_intro t t' : grows t t' → (typed_in t' t → typed_in t' t') → typed_step t t'.
Proof. intros Hg Hs. split; [done|]. intros Ht. by apply Hs, (typed_in_grows t). Qed.

(** The insertion of one row: it must be fresh where others refer to the table, and typed. *)
Ltac typed_insert :=
  apply typed_step_intro;
  [ split; cbn; rewrite ?dom_insert; first [reflexivity | by apply insert_subseteq | set_solver]
  | intros []; split; cbn; try assumption; apply map_Forall_insert_2; [|assumption] ].

(** ** Every write is such a step *)

Lemma pwp_typed_for_each {A} (l : list A) (f : A → DB unit) t (I : Tables → Prop) :
  (∀ t1 t2, typed_step t1 t2 → I t1 → I t2) → I t →
  (∀ x t', x ∈ l → I t' → pwp (f x) t' (λ t'' _, typed_step t' t'')) →
  pwp (for_each l f) t (λ t' _, typed_step t t').
Proof.
  intros Hmono Hi Hf. apply (pwp_for_each (λ _, typed_step t)); [done| |done].
  intros pre x rest t' Hl Ht'. eapply pwp_mono; [apply Hf; [rewrite Hl; set_solver|by eapply Hmono]|].
  cbn beta. intros t'' _ Hs. by etrans.
Qed.

Lemma has_block_step bn t t' : typed_step t t' → has_block t bn → has_block t' bn.
Proof. intros [Hg _]. by apply has_block_grows. Qed.

Lemma has_delta_step k t t' : typed_step t t' → has_delta t k → has_delta t' k.
Proof. intros [Hg _]. by apply has_delta_grows. Qed.

Lemma typed_insert_block_header header t :
  pwp (insert_block_header header : DB unit) t (λ t' _, typed_step t t').
Proof.
  unfold insert_block_header. pwp_steps. apply pwp_constraint. intros Hnew%bool_decide_eq_true. pwp_steps.
  apply pwp_constraint. intros Hnum%N.ltb_lt. pwp_steps. typed_insert. done.
Qed.

Lemma u64_param_range v z : u64_param v = Some z → (0 ≤ z < 2 ^ 63)%Z.
Proof. unfold u64_param. destruct (N.ltb_spec v (2 ^ 63)); intros [= <-]. lia. Qed.

(** A loop over the entries of a delta inserts rows that refer to the delta. *)
Ltac typed_child Hd :=
  pwp_steps; apply pwp_constraint; intros _; pwp_steps; typed_insert; exact Hd.

Lemma typed_insert_account_delta id bn delta t :
  pwp (insert_account_delta id bn delta : DB unit) t (λ t' _, typed_step t t').
Proof.
  unfold insert_account_delta. pwp_steps. apply pwp_or_throw. intros nonce Hnonce%u64_param_range. pwp_steps.
  apply pwp_constraint. intros Hnew%bool_decide_eq_true. pwp_steps. apply pwp_constraint.
  intros [Hid%bool_decide_eq_true Hbn%bool_decide_eq_true]%andb_true_iff. pwp_steps.
  set (t1 := over_account_deltas _ t).
  assert (typed_step t t1 ∧ has_delta t1 (id, bn)) as [Hs1 Hd1].
  { split; [unfold t1; typed_insert; split; [|split]; done|].
    unfold has_delta, t1. cbn. rewrite lookup_insert_eq. eauto. }
  clearbody t1. pose proof (has_delta_step (id, bn)) as Hmono.
  eapply pwp_mono; [apply (pwp_typed_for_each _ _ _ _ Hmono Hd1)|].
  { intros [slot value] t' _ Hd. typed_child Hd. }
  cbn beta. intros t2 _ Hs2. pose proof (Hmono _ _ Hs2 Hd1) as Hd2. pwp_steps.
  eapply pwp_mono; [apply (pwp_typed_for_each _ _ _ _ Hmono Hd2)|].
  { intros [slot entries] t' _ Hd'. apply (pwp_typed_for_each _ _ _ _ Hmono Hd').
    intros [key value] t'' _ Hd. typed_child Hd. }
  cbn beta. intros t3 _ Hs3. pose proof (Hmono _ _ Hs3 Hd2) as Hd3. pwp_steps.
  eapply pwp_mono; [apply (pwp_typed_for_each _ _ _ _ Hmono Hd3)|].
  { intros [faucet amount] t' _ Hd. typed_child Hd. }
  cbn beta. intros t4 _ Hs4. pose proof (Hmono _ _ Hs4 Hd3) as Hd4.
  eapply pwp_mono; [apply (pwp_typed_for_each _ _ _ _ Hmono Hd4)|].
  { intros [asset is_remove] t' _ Hd. typed_child Hd. }
  cbn beta. intros t5 _ Hs5. by trans t1; [|trans t2; [|trans t3; [|trans t4]]].
Qed.

Lemma typed_upsert_account bn update t :
  pwp (upsert_account bn update : DB unit) t (λ t' _, typed_step t t').
Proof.
  unfold upsert_account. pwp_steps. eapply pwp_mono; [apply updated_details_spec|]. cbn beta.
  intros ? [account delta] (-> & Hacc & _). pwp_steps. apply pwp_constraint. intros Hbn%bool_decide_eq_true. pwp_steps.
  set (t1 := over_accounts _ t). assert (typed_step t t1) as Hs1.
  { unfold t1. typed_insert. done. }
  destruct delta as [delta|]; [|pwp_steps; done].
  eapply pwp_mono; [apply typed_insert_account_delta|]. cbn beta. intros t' _ Hs. by etrans.
Qed.

Lemma typed_upsert_accounts updates bn t :
  pwp (upsert_accounts updates bn : DB unit) t (λ t' _, typed_step t t').
Proof. apply (pwp_typed_for_each _ _ _ (λ _, True)); [done|done|]. intros u t' _ _. apply typed_upsert_account. Qed.

Lemma typed_insert_script record t : pwp (insert_script record : DB unit) t (λ t' _, typed_step t t').
Proof.
  unfold insert_script. destruct (rec_details record) as [d|]; pwp_steps; [|done].
  apply typed_step_intro; [split|intros []; split]; cbn; try done; case_decide as Hin; try done.
  - by apply insert_subseteq, eq_None_not_Some.
  - by apply map_Forall_insert_2.
Qed.

Lemma consume_nil row : consume [] row = row.
Proof.
  destruct row as [? ? ? ? ? ? ? ? ? ? ? consumed n ? ? ? ?]. unfold consume. cbn. f_equal.
  destruct n; by rewrite orb_false_r.
Qed.

(** The row that [insert_note] adds. *)
Lemma new_note_typed t r n :
  schema_ok t → has_block t (rec_block_num r) → has_account t (metadata_sender (rec_metadata r)) →
  (∀ d, rec_details r = Some d → is_Some (note_scripts t !! script_root (details_script d))) →
  note_row_typed t (row_of_note r n).
Proof.
  intros Ht Hb Hs Hd. split_and!; cbn; try done; try apply note_type_range; try apply mode_range;
    try apply note_index_range.
  exists r, n, []. split_and!; [by rewrite consume_nil|done|]. intros d Hr. destruct (Hd d Hr) as [script Hscript].
  rewrite Hscript. f_equal. apply script_root_inj. exact (sch_scripts _ _ Ht _ _ Hscript).
Qed.

Lemma typed_insert_note entry t : pwp (insert_note entry : DB unit) t (λ t' _, typed_step t t').
Proof.
  destruct entry as [r n]. unfold insert_note. pwp_steps.
  apply pwp_constraint. intros Hkey%bool_decide_eq_true. pwp_steps. apply pwp_constraint. intros _. pwp_steps.
  apply pwp_constraint. intros [[Hb%bool_decide_eq_true Hs%bool_decide_eq_true]%andb_true_iff Hd]%andb_true_iff. pwp_steps.
  split; [by split|]. intros Ht. set (t' := over_notes _ t).
  assert (grows t t') as Hg by by split.
  assert (note_row_typed t (row_of_note r n)) as Hn.
  { apply new_note_typed; [done|exact Hb|exact Hs|]. intros d Hr. cbn in Hd. rewrite Hr in Hd.
    by apply bool_decide_eq_true in Hd. }
  destruct (typed_in_grows _ _ _ Hg Ht). split; try done; unfold t'; cbn.
  - apply Forall_app. split; [done|]. apply Forall_singleton. by eapply note_row_grows.
  - rewrite fmap_app. apply NoDup_app. split_and!; [done| |apply NoDup_singleton].
    intros k Hk ->%list_elem_of_singleton. by apply Hkey.
Qed.

Lemma typed_consume ns t row : note_row_typed t row → note_row_typed t (consume ns row).
Proof.
  intros ((r & n & ns' & -> & Hb & Hd) & Hs). split; [|done].
  exists r, n, (ns ++ ns'). by rewrite consume_consume.
Qed.

Lemma typed_consume_notes ns t : typed_step t (over_notes (fmap (consume ns)) t).
Proof.
  apply typed_step_intro; [by split|]. intros []. split; try done; cbn.
  - apply Forall_fmap. eapply Forall_impl; [done|]. intros row. apply typed_consume.
  - by rewrite note_key_consume.
Qed.

Lemma typed_insert_nullifier bn n t : pwp (insert_nullifier bn n : DB unit) t (λ t' _, typed_step t t').
Proof.
  unfold insert_nullifier. pwp_steps. apply pwp_constraint. intros _. pwp_steps. apply pwp_constraint.
  intros Hp%N.ltb_lt. pwp_steps. apply pwp_constraint. intros Hb%bool_decide_eq_true. pwp_steps. typed_insert.
  by split_and!.
Qed.

Lemma typed_insert_transaction bn tx t : pwp (insert_transaction bn tx : DB unit) t (λ t' _, typed_step t t').
Proof.
  unfold insert_transaction. pwp_steps. apply pwp_constraint. intros _. pwp_steps. apply pwp_constraint.
  intros [Ha%bool_decide_eq_true Hb%bool_decide_eq_true]%andb_true_iff. pwp_steps. typed_insert. by split.
Qed.

Lemma typed_loop {A} (l : list A) (f : A → DB unit) t :
  (∀ x t', pwp (f x) t' (λ t'' _, typed_step t' t'')) → pwp (for_each l f) t (λ t' _, typed_step t t').
Proof. intros Hf. apply (pwp_typed_for_each _ _ _ (λ _, True)); [done|done|]. intros x t' _ _. apply Hf. Qed.

(** ** A block *)

(** Sequencing. *)
Lemma typed_bind (m : DB unit) (k : DB unit) t :
  (∀ t1, pwp m t1 (λ t' _, typed_step t1 t')) → (∀ t1, pwp k t1 (λ t' _, typed_step t1 t')) →
  pwp (_ ← m; k) t (λ t' _, typed_step t t').
Proof.
  intros Hm Hk. rewrite pwp_bind. eapply pwp_mono; [apply Hm|]. cbn beta. intros t1 _ Hs1.
  eapply pwp_mono; [apply Hk|]. cbn beta. intros t2 _ Hs2. by etrans.
Qed.

Lemma typed_apply_block header entries ns updates txs t :
  pwp (Write.apply_block header entries ns updates txs : DB unit) t (λ t' _, typed_step t t').
Proof.
  unfold Write.apply_block. apply typed_bind; [apply typed_insert_block_header|intros t1].
  apply typed_bind; [intros t'; apply typed_loop; intros u; apply typed_upsert_account|intros t2].
  apply typed_bind; [intros t'; apply typed_loop; intros r; apply typed_insert_script|intros t3].
  apply typed_bind; [intros t'; apply typed_loop; intros e; apply typed_insert_note|intros t4].
  apply typed_bind; [intros t'; apply typed_loop; intros tx; apply typed_insert_transaction|intros t5].
  unfold insert_nullifiers_for_block. pwp_steps. apply pwp_check_limit. intros _. pwp_steps.
  eapply pwp_mono; [apply typed_loop; intros n t'; apply typed_insert_nullifier|].
  cbn beta. intros t' _ Hs. etrans; [apply typed_consume_notes|exact Hs].
Qed.

Lemma empty_typed : schema_ok empty_tables.
Proof. split; cbn; try apply map_Forall_empty; try apply NoDup_nil_2; constructor. Qed.

(** ** Applying a block to the store *)

Abbreviation SM := (M State ApplyBlockError).

(** The state stays typed on every outcome, and a result satisfies [Q]. *)
Definition keeps {A} (m : SM A) (Q : A → Prop) : Prop :=
  ∀ s, schema_ok (db s) → schema_ok (db (m s).1) ∧ ∀ a, (m s).2 = Ok a → Q a.

Lemma keeps_bind {A B} (m : SM A) (k : A → SM B) P Q :
  keeps m P → (∀ a, P a → keeps (k a) Q) → keeps (a ← m; k a) Q.
Proof.
  intros Hm Hk s Hs. destruct (Hm s Hs) as [Hdb Hr]. unfold mbind, M_bind.
  destruct (m s) as [s1 [a|e|p|]]; cbn in *; [|done..]. apply Hk; [by apply Hr|done].
Qed.

Lemma keeps_ret {A} (a : A) (Q : A → Prop) : Q a → keeps (mret a) Q.
Proof. intros Hq s Hs. split; [done|]. by intros ? [= <-]. Qed.

Lemma keeps_throw {A} e (Q : A → Prop) : keeps (throw e) Q.
Proof. intros s Hs. by split. Qed.

Lemma keeps_get : keeps get (λ s, schema_ok (db s)).
Proof. intros s Hs. split; [done|]. by intros ? [= <-]. Qed.

Lemma keeps_modify f : (∀ s, schema_ok (db s) → schema_ok (db (f s))) → keeps (modify f) (λ _, True).
Proof. intros Hf s Hs. split; [by apply Hf|done]. Qed.

Lemma keeps_expect_some {A} (o : option A) msg : keeps (expect_some o msg) (λ _, True).
Proof. intros s Hs. by destruct o. Qed.

Lemma keeps_fold_m {A B} (f : B → A → SM B) l b : (∀ b x, keeps (f b x) (λ _, True)) → keeps (fold_m f b l) (λ _, True).
Proof.
  intros Hf. revert b. induction l as [|x l IH]; intros b; cbn; [by apply keeps_ret|].
  eapply keeps_bind; [apply Hf|]. intros b' _. apply IH.
Qed.

Lemma keeps_check_block b e : keeps (check_block b e) (λ _, True).
Proof. destruct b; [by apply keeps_ret|apply keeps_throw]. Qed.

Lemma keeps_fail_with fault (f : DatabaseError → ApplyBlockError) : keeps (fail_with fault f) (λ _, True).
Proof. destruct fault; [apply keeps_throw|by apply keeps_ret]. Qed.

Lemma keeps_query_gets {A} (f : DatabaseError → ApplyBlockError) (g : Tables → A) : keeps (query f (gets g)) (λ _, True).
Proof. intros s Hs. by rewrite query_gets. Qed.

Lemma keeps_seq {A B} (m : SM A) (k : A → SM B) Q :
  keeps m (λ _, True) → (∀ a, keeps (k a) Q) → keeps (a ← m; k a) Q.
Proof. intros Hm Hk. by eapply keeps_bind; [exact Hm|]. Qed.

Lemma keeps_read : keeps get (λ _, True).
Proof. by intros s Hs. Qed.

Hint Resolve keeps_throw keeps_read keeps_expect_some keeps_check_block keeps_fail_with keeps_query_gets : schema.
Hint Extern 1 (keeps (mret _) _) => apply keeps_ret; exact I : schema.
Hint Extern 2 (keeps (match ?x with _ => _ end) _) => destruct x : schema.

(** Runs through a sequence of statements. *)
Ltac keeps_steps := repeat (apply keeps_seq; [solve [eauto with schema]|intros ?]); eauto with schema.

Lemma keeps_check_header faults block : keeps (check_header faults block) (λ _, True).
Proof. unfold check_header, select_block_header_by_block_num. keeps_steps. Qed.

Lemma keeps_compute_updates block : keeps (compute_updates block) (λ _, True).
Proof. unfold compute_updates. keeps_steps. Qed.

Lemma keeps_build_notes block : keeps (build_notes block) (λ _, True).
Proof.
  unfold build_notes. keeps_steps. apply keeps_fold_m. intros acc [i note]. apply keeps_seq; [|by intros; apply keeps_ret].
  unfold note_record. keeps_steps.
Qed.

(** What is staged is typed. *)
Lemma keeps_stage faults block entries : keeps (stage faults block entries) schema_ok.
Proof.
  unfold stage. eapply keeps_bind; [apply keeps_fail_with|intros _ _]. eapply keeps_bind; [apply keeps_get|].
  intros s Hs. cbn beta in Hs. pose proof (typed_apply_block (block_header block) entries (block_created_nullifiers block)
    (block_updated_accounts block) (block_transactions block) (db s)) as Hw. unfold pwp in Hw.
  destruct (Write.apply_block _ _ _ _ _ _) as [t' [a|e|p|]]; [|apply keeps_throw..].
  apply keeps_ret. by apply Hw.
Qed.

Lemma keeps_await_save faults block : keeps (await_save faults block) (λ _, True).
Proof.
  unfold await_save. apply keeps_seq; [by apply keeps_modify|intros _].
  destruct (fault_save faults); [|by apply keeps_modify].
  apply keeps_seq; [by apply keeps_modify|intros _]. apply keeps_throw.
Qed.

Lemma keeps_publish faults block u staged : schema_ok staged → keeps (publish faults block u staged) (λ _, True).
Proof.
  intros Ht. unfold publish. keeps_steps. case_decide; [apply keeps_throw|]. keeps_steps.
  apply keeps_seq; [by apply keeps_modify|intros _]. keeps_steps. by apply keeps_modify.
Qed.

Lemma keeps_apply_block faults block : keeps (apply_block faults block) (λ _, True).
Proof.
  unfold apply_block. keeps_steps. destruct (writer _); [apply keeps_throw|].
  apply keeps_seq; [apply keeps_check_header|intros _]. apply keeps_seq; [by apply keeps_modify|intros _].
  apply keeps_seq; [apply keeps_compute_updates|intros u]. apply keeps_seq; [apply keeps_build_notes|intros entries].
  eapply keeps_bind; [apply keeps_stage|intros staged Ht]. apply keeps_seq; [apply keeps_await_save|intros _].
  by apply keeps_publish.
Qed.

(** C20: The store's tables are well typed. The empty database satisfies the schema:
    the keys, the foreign keys (those of the delta tables included, which no write
    checks) and the checks, with an account's details hashing to its commitment. A
    block written to a database that satisfies it leaves one that does; and so does
    [apply_block] of the state, for any block, on every outcome, whatever fails and
    even if it panics between the commit and the trees. In such a database every row
    of [notes] is that of some note and reads back as this note, unless its [aux]
    value is 2^63 or more: that is stored as a negative integer (as an execution hint
    is) but read by a conversion that rejects negative integers, so every query that
    meets the row fails. No row makes a reader panic. *)
Theorem store_schema :
  schema_ok empty_tables ∧
  (∀ t t' header entries ns updates txs, schema_ok t →
    Write.apply_block header entries ns updates txs t = (t', Ok tt) → schema_ok t') ∧
  (∀ s faults block, schema_ok (db s) → schema_ok (db (apply_block faults block s).1)) ∧
  (∀ t row, schema_ok t → row ∈ notes t → ∃ r n ns,
    row = consume ns (row_of_note r n) ∧
    note_from_row row t = (if (metadata_aux (rec_metadata r) <? 2 ^ 63)%N then (t, Ok r)
                           else (t, Err (SqliteError "integer out of range")))).
Proof.
  split_and!.
  - apply empty_typed.
  - intros t t' header entries ns updates txs Ht Hrun.
    exact (proj2 (pwp_run _ _ _ _ _ (typed_apply_block header entries ns updates txs t) Hrun) Ht).
  - intros s faults block Hs. by apply keeps_apply_block.
  - intros t row Ht Hrow. destruct (proj1 (Forall_forall _ _) (sch_notes _ _ Ht) _ Hrow) as [Hok _].
    destruct Hok as (r & n & ns & -> & _ & Hd). exists r, n, ns. split; [done|]. by apply note_from_row_spec.
Qed.

End schema.
