(* ===== verification/StoreMigrations.v ===== *)
(** * The migrations of the store's database

    Model of [crates/store/src/db/migrations.rs] and [db/settings.rs], which check at
    every start that a database was made by the same migrations and was not altered
    since; of [Db::load] and [Db::optimize] of [db/mod.rs]; and of the maintenance
    task of [server/db_maintenance.rs]. SQLite and the library of migrations are
    interfaces. A call of either can fail, which also stands for the node being
    stopped there: no transaction spans two of them. *)

From Stdlib Require Import Ascii.
From S2P Require Import Prelude.

(** A [str] by its characters. *)
Abbreviation Text := (list N).

(** A value of SQLite. The column [value] of the settings holds any. *)
Inductive SqlValue : Type :=
| IntegerValue (i : Z)
| TextValue (s : string)
| OtherValue.

(** [rusqlite_migration::SchemaVersion] *)
Inductive SchemaVersion : Type :=
| NoneSet
| Inside (ver : nat)
| Outside (ver : nat).

#[global] Instance SchemaVersion_eq_dec : EqDecision SchemaVersion.
Proof. solve_decision. Defined.

(** A database: its pragmas, the settings if the table exists, and everything else. *)
Record Database (Content : Type) := mk_database {
  user_version : Z;
  schema_version : N;
  settings : option (gmap string SqlValue);
  content : Content;
}.
Arguments mk_database {_}.
Arguments user_version {_}.
Arguments schema_version {_}.
Arguments settings {_}.
Arguments content {_}.

(** SQLite, the migration library, the hash function and hexadecimal notation. *)
Class MigrationObjects := {
  Content : Type;
  (** The text of [migrations/001-init.sql]. *)
  init_sql : Text;
  (** [Migrations::current_version] and [to_latest], for a list of scripts; [None] is
      their error. *)
  current_version_of : list Text → Database Content → option SchemaVersion;
  to_latest_of : list Text → Database Content → option (Database Content);
  (** [PRAGMA optimize], with its mask. *)
  pragma_optimize : option N → Database Content → Database Content;
  (** [Blake3_160] on the characters of a text. A digest is its bytes. *)
  blake_default : list N;
  blake_hash : Text → list N;
  blake_merge : list N → list N → list N;
  hex_encode : list N → string;
  hex_decode : string → option (list N);
}.

(** Documented behaviour. The version of a database is its [user_version], and an error
    if that is negative; the missing scripts are run in one transaction, the first of
    which creates the settings; a database from the future is an error; optimizing changes statistics only, though
    creating their tables changes the version of the schema. *)
Class MigrationLaws `{!MigrationObjects} : Prop := {
  current_version_spec scripts d :
    current_version_of scripts d =
      if decide (user_version d < 0)%Z then None
      else let ver := Z.to_nat (user_version d) in
        Some (if decide (ver = 0) then NoneSet else if decide (ver ≤ length scripts) then Inside ver else Outside ver);
  to_latest_ahead scripts d : (Z.of_nat (length scripts) < user_version d)%Z → to_latest_of scripts d = None;
  to_latest_done scripts d : user_version d = Z.of_nat (length scripts) → to_latest_of scripts d = Some d;
  to_latest_version scripts d d' : to_latest_of scripts d = Some d' → user_version d' = Z.of_nat (length scripts);
  to_latest_init d d' : user_version d = 0%Z → to_latest_of [init_sql] d = Some d' → settings d' = Some ∅;
  optimize_user_version mask d : user_version (pragma_optimize mask d) = user_version d;
  optimize_settings mask d : settings (pragma_optimize mask d) = settings d;
  optimize_content mask d : content (pragma_optimize mask d) = content d;
  hex_inv bytes : hex_decode (hex_encode bytes) = Some bytes;
}.

Module Migrations.

(** ** The text of a script *)

(** [char::is_whitespace] *)
Definition is_whitespace (c : N) : bool :=
  ((9 <=? c) && (c <=? 13) || (c =? 32) || (c =? 133) || (c =? 160) || (c =? 5760) ||
   (8192 <=? c) && (c <=? 8202) || (c =? 8232) || (c =? 8233) || (c =? 8239) || (c =? 8287) || (c =? 12288))%N.

(** [str::lines]: the text is cut after every line feed, and a line loses its line
    feed with the carriage return before it. *)
Fixpoint lines_from (line sql : Text) : list Text :=
  match sql with
  | [] => if decide (line = []) then [] else [line]
  | c :: sql =>
    if decide (c = 10%N)
    then match reverse line with
         | 13%N :: rev_line => reverse rev_line
         | _ => line
         end :: lines_from [] sql
    else lines_from (line ++ [c]) sql
  end.

Definition lines (sql : Text) : list Text := lines_from [] sql.

(** [line.split_once("--").unwrap_or((line, "")).0] *)
Fixpoint before_comment (line : Text) : Text :=
  match line with
  | 45%N :: 45%N :: _ => []
  | c :: line => c :: before_comment line
  | [] => []
  end.

Definition preprocess_sql (sql : Text) : Text :=
  filter (λ c, is_whitespace c = false) (concat (before_comment <$> lines sql)).

(** The calls of SQLite that [apply_migrations] makes, in their order. *)
Inductive Call : Type :=
| VersionBefore
| SettingsExist
| GetSchemaVersion
| CurrentSchemaVersion
| GetHash
| ToLatest
| VersionAfter
| SetHash
| OptimizeDatabase
| NewSchemaVersion
| SetSchemaVersion.

(** The calls that fail. *)
Abbreviation Faults := (Call → bool).

Section defs.
Context `{!MigrationObjects}.

Abbreviation Database := (Database Content).
Implicit Types (d : Database).

Definition MIGRATION_SCRIPTS : list Text := [init_sql].

(** [compute_migration_hashes] *)
Definition hash_step (acc : list N * list (list N)) (sql : Text) : list N * list (list N) :=
  let accumulator := blake_merge acc.1 (blake_hash (preprocess_sql sql)) in
  (accumulator, acc.2 ++ [accumulator]).

Definition compute_migration_hashes (scripts : list Text) : list (list N) := (foldl hash_step (blake_default, []) scripts).2.

Definition MIGRATION_HASHES : list (list N) := compute_migration_hashes MIGRATION_SCRIPTS.

Definition DB_MIGRATION_HASH_FIELD : string := "db-migration-hash".

Definition DB_SCHEMA_VERSION_FIELD : string := "db-schema-version".

Inductive DatabaseError : Type :=
| SqliteError (what : string)
| MigrationError
| FromHexError
| UnsupportedDatabaseVersion
| InteractError.

Definition no_faults : Faults := λ _, false.

Abbreviation DM := (M Database DatabaseError).

Definition calls {A} (faults : Faults) (c : Call) (m : DM A) : DM A :=
  if faults c then throw (match c with
                          | VersionBefore | ToLatest | VersionAfter => MigrationError
                          | _ => SqliteError "I/O error"
                          end)
  else m.

(** ** Settings *)

Definition settings_exists : DM bool := gets (λ d, bool_decide (is_Some (settings d))).

(** [FromSql] of a [usize] and of a [String]. *)
Definition from_sql_usize (v : SqlValue) : DM N :=
  match v with
  | IntegerValue i => if decide (0 ≤ i)%Z then mret (Z.to_N i) else throw (SqliteError "integer out of range")
  | _ => throw (SqliteError "invalid column type")
  end.

Definition from_sql_string (v : SqlValue) : DM string :=
  match v with TextValue s => mret s | _ => throw (SqliteError "invalid column type") end.

Definition get_value {A} (from_sql : SqlValue → DM A) (name : string) : DM (option A) :=
  d ← get;
  match settings d with
  | None => throw (SqliteError "no such table: settings")
  | Some m => match m !! name with
              | Some v => a ← from_sql v; mret (Some a)
              | None => mret None
              end
  end.

Definition set_value (name : string) (value : SqlValue) : DM unit :=
  d ← get;
  match settings d with
  | None => throw (SqliteError "no such table: settings")
  | Some m => modify (λ d, mk_database (user_version d) (schema_version d) (Some (<[name := value]> m)) (content d))
  end.

(** ** Migrations *)

Definition or_unsupported {A} (o : option A) : DM A :=
  match o with Some a => mret a | None => throw UnsupportedDatabaseVersion end.

(** The check of a database that has been migrated before. *)
Definition check_version (faults : Faults) (ver : nat) : DM unit :=
  exists_ ← calls faults SettingsExist settings_exists;
  if negb exists_ then throw UnsupportedDatabaseVersion else
  last_schema_version ← calls faults GetSchemaVersion (get_value from_sql_usize DB_SCHEMA_VERSION_FIELD);
  last_schema_version ← or_unsupported last_schema_version;
  current_schema_version ← calls faults CurrentSchemaVersion (gets schema_version);
  if decide (last_schema_version ≠ current_schema_version) then throw UnsupportedDatabaseVersion else
  expected_hash ← expect_some (MIGRATION_HASHES !! (ver - 1)) "index out of bounds";
  actual_hash ← calls faults GetHash (get_value from_sql_string DB_MIGRATION_HASH_FIELD);
  actual_hash ← or_unsupported actual_hash;
  actual_hash ← match hex_decode actual_hash with Some bytes => mret bytes | None => throw FromHexError end;
  if decide (actual_hash ≠ expected_hash) then throw UnsupportedDatabaseVersion else mret tt.

Definition to_latest : DM unit :=
  d ← get;
  match to_latest_of MIGRATION_SCRIPTS d with
  | Some d' => modify (λ _, d')
  | None => throw MigrationError
  end.

Definition current_version : DM SchemaVersion :=
  d ← get;
  match current_version_of MIGRATION_SCRIPTS d with
  | Some version => mret version
  | None => throw MigrationError
  end.

Definition apply_migrations (faults : Faults) : DM unit :=
  version_before ← calls faults VersionBefore current_version;
  _ ← match version_before with Inside ver => check_version faults ver | _ => mret tt end;
  _ ← calls faults ToLatest to_latest;
  version_after ← calls faults VersionAfter current_version;
  _ ← (if decide (version_before ≠ version_after) then
         new_hash ← expect_some (last MIGRATION_HASHES) "index out of bounds";
         calls faults SetHash (set_value DB_MIGRATION_HASH_FIELD (TextValue (hex_encode new_hash)))
       else mret tt);
  _ ← calls faults OptimizeDatabase (modify (pragma_optimize (Some 65538%N)));
  new_schema_version ← calls faults NewSchemaVersion (gets schema_version);
  calls faults SetSchemaVersion (set_value DB_SCHEMA_VERSION_FIELD (IntegerValue (Z.of_N new_schema_version))).

(** [Db::load]: a query outside of a transaction. A panic is an error of the task. *)
Definition load (faults : Faults) : DM unit := λ d,
  match apply_migrations faults d with
  | (d', Panic _) => (d', Err InteractError)
  | r => r
  end.

(** [Db::optimize] *)
Definition optimize (fails : bool) : DM unit :=
  if fails then throw (SqliteError "I/O error") else modify (pragma_optimize None).

(** One turn of [DbMaintenance::run]; a failure only leaves a trace. *)
Definition maintenance_turn (fails : bool) d : Database := (optimize fails d).1.

(** ** The life of a database file *)

(** The node starts, its maintenance task runs, and it writes blocks, which touches
    neither the settings nor the schema. *)
Inductive Event : Type :=
| Start (faults : Faults)
| Maintain (fails : bool)
| Write (f : Content → Content).

Definition step (d : Database) (ev : Event) : Database :=
  match ev with
  | Start faults => (load faults d).1
  | Maintain fails => maintenance_turn fails d
  | Write f => mk_database (user_version d) (schema_version d) (settings d) (f (content d))
  end.

End defs.

End Migrations.

(** ** Which databases a start accepts *)

Import Migrations.

Section theorems.
Context `{!MigrationObjects} `{!MigrationLaws}.

Abbreviation Database := (Database Content).
Abbreviation DM := (M Database DatabaseError).
Implicit Types (d : Database) (faults : Faults).

(** The hash of the only script. *)
Definition init_hash : list N := blake_merge blake_default (blake_hash (preprocess_sql init_sql)).

(** The settings record the hash, and the version [ver] of the schema. *)
Definition recorded d (ver : N) : Prop := ∃ m text,
  settings d = Some m ∧ m !! DB_SCHEMA_VERSION_FIELD = Some (IntegerValue (Z.of_N ver)) ∧
  m !! DB_MIGRATION_HASH_FIELD = Some (TextValue text) ∧ hex_decode text = Some init_hash.

(** The database was made by the same script, and its schema is that of the last start. *)
Definition accepted d : Prop := user_version d = 1%Z ∧ recorded d (schema_version d).

Lemma recorded_settings d d' ver : settings d' = settings d → recorded d ver → recorded d' ver.
Proof. intros Hs (m & text & Hm & Hr). exists m, text. by rewrite Hs. Qed.

Lemma recorded_unique d ver ver' : recorded d ver → recorded d ver' → ver = ver'.
Proof. intros (m & ? & Hm & Hv & _) (m' & ? & Hm' & Hv' & _). simplify_eq. done. Qed.

(** With the same settings, it is the version of the schema that matters. *)
Lemma accepted_frame d d' :
  accepted d → user_version d' = user_version d → settings d' = settings d →
  (accepted d' ↔ schema_version d' = schema_version d).
Proof.
  intros [Hu Hr] Hu' Hs. split.
  - intros [_ Hr']. eapply recorded_unique; [exact Hr'|]. by eapply recorded_settings.
  - intros Hv. split; [congruence|]. rewrite Hv. by eapply recorded_settings.
Qed.

Lemma wp_calls {A} faults c (m : DM A) d Q X :
  (faults c = false → wp m d Q X) → (faults c = true → ∀ e, X d e) → wp (calls faults c m) d Q X.
Proof. intros Hm HX. unfold calls. destruct (faults c); [wp_steps; by apply HX|by apply Hm]. Qed.

(** Only a failing call, or the reason [P], makes the check fail. *)
Definition failed faults (P : Prop) : Prop := (∃ c, faults c = true) ∨ P.

Lemma wp_check_version faults d :
  wp (check_version faults 1 : DM unit) d (λ d' _, d' = d ∧ recorded d (schema_version d))
    (λ d' _, d' = d ∧ failed faults (¬ recorded d (schema_version d))).
Proof.
  assert (∀ c, faults c = true → d = d ∧ failed faults (¬ recorded d (schema_version d))) as Hf.
  { intros c Hc. split; [done|]. left. eauto. }
  assert (∀ m, settings d = Some m →
    (∀ text, m !! DB_SCHEMA_VERSION_FIELD = Some (IntegerValue (Z.of_N (schema_version d))) →
      m !! DB_MIGRATION_HASH_FIELD = Some (TextValue text) → hex_decode text = Some init_hash → False) →
    d = d ∧ failed faults (¬ recorded d (schema_version d))) as Hno.
  { intros m Hm Hfalse. split; [done|]. right. intros (m' & text & Hm' & Hr). naive_solver. }
  unfold check_version, settings_exists. wp_steps. apply wp_calls; [intros _|eauto]. wp_steps.
  destruct (settings d) as [m|] eqn:Hm; cbn; wp_steps; cycle 1.
  { split; [done|]. right. intros (m' & text & Hm' & _). congruence. }
  apply wp_calls; [intros _|eauto]. unfold get_value. wp_steps. rewrite Hm.
  destruct (m !! DB_SCHEMA_VERSION_FIELD) as [[i|x|]|] eqn:Hv; unfold from_sql_usize; wp_steps;
    try (by eapply Hno; [done|naive_solver]).
  case_decide as Hi; wp_steps; [|eapply Hno; [done|]; intros ? Hv'; simplify_eq; lia].
  cbn. wp_steps. apply wp_calls; [intros _|eauto]. wp_steps.
  case_decide as Hne; wp_steps.
  { eapply Hno; [done|]. intros ? Hv'. simplify_eq. lia. }
  fold init_hash. apply wp_calls; [intros _|eauto]. unfold get_value. wp_steps. rewrite Hm.
  destruct (m !! DB_MIGRATION_HASH_FIELD) as [[x|text|]|] eqn:Hh; unfold from_sql_string; wp_steps;
    try (by eapply Hno; [done|naive_solver]).
  cbn. wp_steps. destruct (hex_decode text) as [bytes|] eqn:Hd; wp_steps; [|by eapply Hno; [done|naive_solver]].
  case_decide as Hb; wp_steps; [by eapply Hno; [done|naive_solver]|].
  split; [done|]. exists m, text. split_and!; [done| |done|congruence]. rewrite Hv. do 2 f_equal. lia.
Qed.

(** The end of a start: the statistics, and the version of the schema. *)
Lemma wp_finish faults d m text :
  user_version d = 1%Z → settings d = Some m → m !! DB_MIGRATION_HASH_FIELD = Some (TextValue text) →
  hex_decode text = Some init_hash →
  wp (_ ← calls faults OptimizeDatabase (modify (pragma_optimize (Some 65538%N)));
      new_schema_version ← calls faults NewSchemaVersion (gets schema_version);
      calls faults SetSchemaVersion (set_value DB_SCHEMA_VERSION_FIELD (IntegerValue (Z.of_N new_schema_version))) : DM unit) d
    (λ d' _, accepted d' ∧ content d' = content d)
    (λ d' _, (∃ c, faults c = true) ∧ user_version d' = 1%Z ∧ settings d' = settings d ∧ content d' = content d).
Proof.
  intros Hu Hm Hh Hd. wp_steps. apply wp_calls; [intros _; wp_steps|by intros; split_and!; [eauto|..]].
  set (d1 := pragma_optimize _ d).
  assert (user_version d1 = 1%Z ∧ settings d1 = Some m ∧ content d1 = content d) as (Hu1 & Hm1 & Hc1).
  { unfold d1. by rewrite optimize_user_version, optimize_settings, optimize_content. }
  clearbody d1. apply wp_calls; [intros _; wp_steps|by intros; split_and!; [eauto|congruence..]].
  apply wp_calls; [intros _|by intros; split_and!; [eauto|congruence..]].
  unfold set_value. wp_steps. rewrite Hm1. wp_steps. split; [|done]. split; [done|].
  exists (<[DB_SCHEMA_VERSION_FIELD := IntegerValue (Z.of_N (schema_version d1))]> m), text.
  split_and!; [done|by rewrite lookup_insert_eq| |done]. by rewrite lookup_insert_ne.
Qed.

Lemma current_version_inside d : user_version d = 1%Z → current_version_of MIGRATION_SCRIPTS d = Some (Inside 1).
Proof. intros Hu. rewrite current_version_spec, Hu. done. Qed.

Lemma current_version_none d : user_version d = 0%Z → current_version_of MIGRATION_SCRIPTS d = Some NoneSet.
Proof. intros Hu. rewrite current_version_spec, Hu. done. Qed.

(** A start on a database that was migrated before. *)
Lemma wp_restart faults d :
  user_version d = 1%Z →
  wp (apply_migrations faults : DM unit) d
    (λ d' _, accepted d ∧ accepted d' ∧ content d' = content d)
    (λ d' _, d' = d ∧ failed faults (¬ accepted d) ∨
      accepted d ∧ (∃ c, faults c = true) ∧ user_version d' = 1%Z ∧ settings d' = settings d ∧ content d' = content d).
Proof.
  intros Hu. unfold apply_migrations. wp_steps.
  apply wp_calls; [intros _; wp_steps|by intros; left; split; [|left; eauto]].
  unfold current_version. wp_steps. rewrite (current_version_inside _ Hu). wp_steps. eapply wp_mono; [apply wp_check_version| |].
  2: { intros ? e [-> Hf]. left. split; [done|]. destruct Hf as [Hf|Hf]; [by left|right]. by intros [_ ?]. }
  cbn beta. intros ? _ [-> Hr]. assert (accepted d) as Ha by by split. wp_steps.
  apply wp_calls; [intros _|by intros; left; split; [|left; eauto]].
  unfold to_latest. wp_steps. rewrite to_latest_done by done. wp_steps.
  apply wp_calls; [intros _; wp_steps|by intros; left; split; [|left; eauto]].
  unfold current_version. wp_steps. rewrite (current_version_inside _ Hu). wp_steps. rewrite decide_False by tauto. wp_steps.
  destruct Hr as (m & text & Hm & _ & Hh & Hd).
  pose proof (wp_finish faults d m text Hu Hm Hh Hd) as Hfin. rewrite wp_bind in Hfin.
  eapply wp_mono; [exact Hfin| |]; cbn beta.
  - intros d1 [] Hend. eapply wp_mono; [exact Hend| |]; cbn beta; [by intros d2 _ []|].
    intros d2 e (Hc & Hu2 & Hs2 & Hc2). by right.
  - intros d1 e (Hc & Hu2 & Hs2 & Hc2). by right.
Qed.

(** The first start on a new database. *)
Lemma wp_first faults d :
  user_version d = 0%Z →
  wp (apply_migrations faults : DM unit) d
    (λ d' _, accepted d' ∧ ∃ d1, to_latest_of MIGRATION_SCRIPTS d = Some d1 ∧ content d' = content d1)
    (λ d' _, d' = d ∧ failed faults (to_latest_of MIGRATION_SCRIPTS d = None) ∨
      user_version d' = 1%Z ∧ ¬ accepted d' ∧ ∃ c, faults c = true).
Proof.
  intros Hu. unfold apply_migrations. wp_steps.
  apply wp_calls; [intros _; wp_steps|by intros; left; split; [|left; eauto]].
  unfold current_version at 1. wp_steps. rewrite (current_version_none _ Hu). wp_steps.
  apply wp_calls; [intros _|by intros; left; split; [|left; eauto]].
  unfold to_latest. wp_steps. destruct (to_latest_of MIGRATION_SCRIPTS d) as [d1|] eqn:Hl; wp_steps; [|by left; split; [|right]].
  pose proof (to_latest_version _ _ _ Hl) as Hu1. pose proof (to_latest_init _ _ Hu Hl) as Hs1. cbn in Hu1.
  assert (∀ d', settings d' = Some ∅ → ¬ accepted d') as Hempty.
  { intros d' Hd' (_ & m & text & Hm & Hv & _). by simplify_eq. }
  apply wp_calls; [intros _; wp_steps|intros Hc e; right; split; [done|]; split; [by apply Hempty|eauto]].
  unfold current_version. wp_steps. rewrite (current_version_inside _ Hu1). wp_steps. rewrite decide_True by done. wp_steps.
  apply (wp_expect_some _ init_hash); [done|]. wp_steps.
  apply wp_calls; [intros _|intros Hc e; right; split; [done|]; split; [by apply Hempty|eauto]].
  unfold set_value. wp_steps. rewrite Hs1. wp_steps.
  set (d2 := mk_database _ _ _ _).
  pose proof (wp_finish faults d2 (<[DB_MIGRATION_HASH_FIELD := TextValue (hex_encode init_hash)]> ∅) (hex_encode init_hash)
    Hu1 eq_refl (lookup_insert_eq _ _ _) (hex_inv _)) as Hfin. rewrite wp_bind in Hfin.
  assert (∀ d' : Database, settings d' = settings d2 → ¬ accepted d') as Hhash.
  { intros d' Hd' (_ & m & text & Hm & Hv & _). rewrite Hd' in Hm. cbn in Hm. by simplify_eq. }
  eapply wp_mono; [exact Hfin| |]; cbn beta.
  - intros d3 [] Hend. eapply wp_mono; [exact Hend| |]; cbn beta.
    + intros d4 _ [Ha Hc]. split; [done|]. by exists d1.
    + intros d4 e (Hc & Hu4 & Hs4 & _). right. split_and!; [done|by apply Hhash|done].
  - intros d3 e (Hc & Hu4 & Hs4 & _). right. split_and!; [done|by apply Hhash|done].
Qed.

(** A database from the future, or whose version is no version at all. *)
Lemma wp_foreign faults d :
  user_version d ≠ 0%Z → user_version d ≠ 1%Z → wp (apply_migrations faults : DM unit) d (λ _ _, False) (λ d' _, d' = d).
Proof.
  intros Hu0 Hu1. unfold apply_migrations. wp_steps. apply wp_calls; [intros _|done].
  unfold current_version at 1. wp_steps. rewrite current_version_spec. case_decide as Hneg; cbv zeta; wp_steps; [done|].
  rewrite !decide_False by (cbn; lia). wp_steps. apply wp_calls; [intros _|done].
  unfold to_latest. wp_steps. rewrite to_latest_ahead by (cbn; lia). by wp_steps.
Qed.

(** A start is a run of the migrations, which do not panic. *)
Lemma load_run faults d (Q X : Database → Prop) :
  wp (apply_migrations faults : DM unit) d (λ d' _, Q d') (λ d' _, X d') →
  match load faults d with (d', Ok _) => Q d' | (d', Err _) => X d' | _ => False end.
Proof. rewrite wp_unfold. unfold load. by destruct (apply_migrations faults d) as [d' [[]|e|msg|]]. Qed.

Lemma load_cases faults d :
  match load faults d with
  | (d', Ok _) => accepted d' ∧ (user_version d = 0%Z ∨ accepted d ∧ content d' = content d)
  | (d', Err _) => d' = d ∨
      accepted d ∧ content d' = content d ∧ (accepted d' ↔ schema_version d' = schema_version d) ∨
      user_version d = 0%Z ∧ user_version d' = 1%Z ∧ ¬ accepted d'
  | _ => False
  end.
Proof.
  apply (load_run _ _ (λ d', accepted d' ∧ (user_version d = 0%Z ∨ accepted d ∧ content d' = content d)) (λ d', d' = d ∨
    accepted d ∧ content d' = content d ∧ (accepted d' ↔ schema_version d' = schema_version d) ∨
    user_version d = 0%Z ∧ user_version d' = 1%Z ∧ ¬ accepted d')).
  destruct (decide (user_version d = 0%Z)) as [Hu|Hu]; [|destruct (decide (user_version d = 1%Z)) as [Hu1|Hu1]].
  - eapply wp_mono; [by apply wp_first| |]; cbn beta; [intros d' _ [Ha _]; auto|].
    intros d' _ [[-> _]|(Hu' & Hna & _)]; auto.
  - eapply wp_mono; [by apply wp_restart| |]; cbn beta; [intros d' _ (Ha & Ha' & Hc); auto|].
    intros d' _ [[-> _]|(Ha & _ & Hu' & Hs & Hc)]; [by left|right; left]. split_and!; [done..|].
    apply accepted_frame; [done|congruence|done].
  - eapply wp_mono; [by apply wp_foreign| |]; cbn beta; [done|auto].
Qed.

Lemma no_failure (P : Prop) : failed no_faults P → P.
Proof. intros [[c Hc]|HP]; [done|exact HP]. Qed.

(** C39: A start recognises the databases that it can work with. A new database is
    migrated and then accepted; an accepted one is accepted by every later start, and
    keeps its contents. A database that was made by other scripts, or whose schema
    changed since the last start, is refused and left alone. A start that is cut short
    leaves the contents of an accepted database alone, which stays accepted unless the
    optimization, and not the record of it, was done; but a first start that is cut
    short after the migration leaves a database that is refused from then on. So does
    the maintenance task whenever its optimization changes the version of the schema,
    since nothing records the change. *)
Theorem store_migrations d :
  (∀ d1, user_version d = 0%Z → to_latest_of MIGRATION_SCRIPTS d = Some d1 →
    ∃ d', load no_faults d = (d', Ok tt) ∧ accepted d' ∧ content d' = content d1) ∧
  (accepted d → ∃ d', load no_faults d = (d', Ok tt) ∧ accepted d' ∧ content d' = content d) ∧
  (∀ faults, user_version d ≠ 0%Z → ¬ accepted d → ∃ e, load faults d = (d, Err e)) ∧
  (∀ faults d' e, load faults d = (d', Err e) → d' = d ∨
    accepted d ∧ content d' = content d ∧ (accepted d' ↔ schema_version d' = schema_version d) ∨
    user_version d = 0%Z ∧ user_version d' = 1%Z ∧ ¬ accepted d') ∧
  (accepted d → ∀ fails, content (maintenance_turn fails d) = content d ∧
    (accepted (maintenance_turn fails d) ↔ schema_version (maintenance_turn fails d) = schema_version d)).
Proof.
  split_and!.
  - intros d1 Hu Hl. pose proof (load_run no_faults d (λ d', accepted d' ∧ content d' = content d1) (λ _, False)) as Hx.
    destruct (load no_faults d) as [d' [[]|e|msg|]]; [exists d'; split; [done|]; apply Hx|exfalso; apply Hx..];
      (eapply wp_mono; [by apply wp_first| |]; cbn beta;
       [intros ? _ [Ha (d2 & Hl2 & Hc)]; by simplify_eq|]; intros ? _ [[_ Hf%no_failure]|(_ & _ & c & Hc)]; [congruence|done]).
  - intros Ha. pose proof (load_run no_faults d (λ d', accepted d' ∧ content d' = content d) (λ _, False)) as Hx.
    destruct (load no_faults d) as [d' [[]|e|msg|]]; [exists d'; split; [done|]; apply Hx|exfalso; apply Hx..];
      (eapply wp_mono; [apply wp_restart, Ha| |]; cbn beta;
       [by intros ? _ (_ & ? & ?)|]; intros ? _ [[_ Hf%no_failure]|(_ & (c & Hc) & _)]; done).
  - intros faults Hu Hna. pose proof (load_cases faults d) as Hx.
    destruct (load faults d) as [d' [[]|e|msg|]]; [|exists e|done..]; [naive_solver|].
    destruct Hx as [->|[[? _]|[? _]]]; done.
  - intros faults d' e Hl. pose proof (load_cases faults d) as Hx. by rewrite Hl in Hx.
  - intros Ha fails. destruct fails; [done|]. split; [apply optimize_content|].
    apply accepted_frame; [done|apply optimize_user_version|apply optimize_settings].
Qed.

(** ** The text of a script *)

Lemma lines_from_app line a b : lines_from line (a ++ 10%N :: b) = lines_from line (a ++ [10%N]) ++ lines b.
Proof.
  revert line. induction a as [|c a IH]; intros line; cbn; [done|]. case_decide; cbn; by rewrite IH.
Qed.

(** A line feed separates what is hashed. *)
Lemma preprocess_lines a b : preprocess_sql (a ++ 10%N :: b) = preprocess_sql (a ++ [10%N]) ++ preprocess_sql b.
Proof. unfold preprocess_sql, lines. by rewrite lines_from_app, fmap_app, concat_app, filter_app. Qed.

(** So a line that is blank or a comment does not change the hash of a script. *)
Lemma hash_ignores_line a line b :
  preprocess_sql (line ++ [10%N]) = [] →
  compute_migration_hashes [a ++ 10%N :: line ++ 10%N :: b] = compute_migration_hashes [a ++ 10%N :: b].
Proof.
  intros Hline. unfold compute_migration_hashes, hash_step. cbn.
  assert (preprocess_sql (a ++ 10%N :: line ++ 10%N :: b) = preprocess_sql (a ++ 10%N :: b)) as ->; [|done].
  by rewrite (preprocess_lines a (line ++ _)), (preprocess_lines line b), Hline, (preprocess_lines a b).
Qed.

End theorems.

(** ** Runs *)

Module MigrationsRun.

(** A text as its characters, in ASCII. *)
Fixpoint text (s : string) : Text :=
  match s with
  | EmptyString => []
  | String c s => Ascii.N_of_ascii c :: text s
  end.

(** A list of numbers in unary. *)
Fixpoint ones (n : nat) (s : string) : string :=
  match n with O => String "0"%char s | S n => String "1"%char (ones n s) end.

Definition unary (l : list N) : string := foldr (λ n s, ones (N.to_nat n) s) EmptyString l.

Fixpoint parse_unary (k : nat) (s : string) : option (list N) :=
  match s with
  | EmptyString => if decide (k = 0) then Some [] else None
  | String "0"%char s => cons (N.of_nat k) <$> parse_unary 0 s
  | String "1"%char s => parse_unary (S k) s
  | _ => None
  end.

Lemma parse_ones n k s : parse_unary k (ones n s) = cons (N.of_nat (k + n)) <$> parse_unary 0 s.
Proof.
  revert k. induction n as [|n IH]; intros k; cbn; [by rewrite Nat.add_0_r|]. by rewrite IH, Nat.add_succ_comm.
Qed.

Lemma parse_inv l : parse_unary 0 (unary l) = Some l.
Proof.
  induction l as [|n l IH]; [done|]. unfold unary in *. cbn [foldr]. rewrite parse_ones, IH. cbn. by rewrite N2Nat.id.
Qed.

(** The hash of a text is its length. The content of a database is a number of rows.
    The statistics are made once there are rows, which adds 10 to the version of the
    schema. *)
#[global] Instance objects : MigrationObjects := {|
  Content := nat;
  init_sql := text "CREATE TABLE settings; -- the settings";
  current_version_of scripts d :=
    if decide (user_version d < 0)%Z then None
    else let ver := Z.to_nat (user_version d) in
      Some (if decide (ver = 0) then NoneSet else if decide (ver ≤ length scripts) then Inside ver else Outside ver);
  to_latest_of scripts d :=
    if decide (user_version d = Z.of_nat (length scripts)) then Some d
    else if decide (Z.of_nat (length scripts) < user_version d)%Z then None
    else Some (mk_database (Z.of_nat (length scripts)) (schema_version d + 1)
      (if decide (user_version d = 0%Z) then Some ∅ else settings d) (content d));
  pragma_optimize _ d :=
    mk_database (user_version d)
      (if decide (0 < content d ∧ (schema_version d < 10)%N) then (schema_version d + 10)%N else schema_version d)
      (settings d) (content d);
  blake_default := [0%N];
  blake_hash t := [N.of_nat (length t)];
  blake_merge a b := a ++ b;
  hex_encode := unary;
  hex_decode := parse_unary 0;
|}.

#[global] Instance laws : MigrationLaws.
Proof.
  split; cbn; try done.
  - intros scripts d Hlt. rewrite decide_False by lia. by rewrite decide_True.
  - intros scripts d Heq. by rewrite decide_True.
  - intros scripts d d'. repeat case_decide; intros ?; by simplify_eq.
  - intros d d' Hu. rewrite Hu. cbn. by intros [= <-].
  - intros bytes. apply parse_inv.
Qed.

Abbreviation Database := (Database Content).

(** A new file, after its first start. *)
Definition empty_file : Database := mk_database 0 0 None (0 : nat).

Definition run (evs : list Event) : Database := foldl step empty_file evs.

Definition started : Database := run [Start no_faults].

(** A file whose settings are missing. *)
Definition foreign_file : Database := mk_database 1 3 None (0 : nat).

(** The unit tests of the source. *)
Example preprocess_sql_strips_whitespace : preprocess_sql (text "SELECT 1 FROM foo") = text "SELECT1FROMfoo".
Proof. vm_compute. reflexivity. Qed.

Example preprocess_sql_strips_comments :
  preprocess_sql (text "SELECT 1; -- Comment" ++ 10%N :: text "-- Another comment" ++ 10%N :: text "SELECT 2")
    = text "SELECT1;SELECT2".
Proof. vm_compute. reflexivity. Qed.

Lemma store_migrations_witness :
  accepted started ∧ content started = (0 : nat) ∧
  (∃ d', load no_faults started = (d', Ok tt) ∧ accepted d') ∧
  ∃ e, load no_faults foreign_file = (foreign_file, Err e).
Proof.
  destruct (store_migrations (empty_file : Database)) as (Hnew & _).
  assert (∃ d', load no_faults empty_file = (d', Ok tt) ∧ accepted d' ∧ content d' = (0 : nat)) as (d1 & Hl & Ha & Hc).
  { apply (Hnew (mk_database 1 1 (Some ∅) (0 : nat))); reflexivity. }
  assert (started = d1) as -> by (unfold started, run; cbn [foldl step]; rewrite Hl; reflexivity).
  split; [exact Ha|]. split; [exact Hc|]. split.
  - destruct (store_migrations d1) as (_ & Hagain & _). destruct (Hagain Ha) as (d' & Hl' & Ha' & _). eauto.
  - destruct (store_migrations foreign_file) as (_ & _ & Hrefuse & _).
    apply Hrefuse; [discriminate|]. intros (_ & m & t & Hm & _). discriminate.
Defined.

Definition starts (d : Database) : bool := match load no_faults d with (_, Ok _) => true | _ => false end.

(** A node that is stopped and started again works on the same file. *)
Example restarts : starts (run [Start no_faults; Write (λ n, n + 5); Start no_faults; Maintain false]) = true.
Proof. vm_compute. reflexivity. Qed.

(** The maintenance task makes the statistics of the first rows; the version of the
    schema that it changes is not recorded, and the node does not start again. *)
Example maintenance_locks_out :
  starts (run [Start no_faults; Write (λ n, n + 5)]) = true ∧
  starts (run [Start no_faults; Write (λ n, n + 5); Maintain false]) = false.
Proof. split; vm_compute; reflexivity. Qed.

(** Stopping the first start after the migration has the same effect, and so has
    stopping a start between the optimization and the record of its effect. *)
Definition stop_at (c : Call) : Faults := λ c', match c, c' with
  | SetHash, SetHash | SetSchemaVersion, SetSchemaVersion => true
  | _, _ => false
  end.

Example stopped_first_start : starts (run [Start (stop_at SetHash)]) = false.
Proof. vm_compute. reflexivity. Qed.

Example stopped_restart :
  starts (run [Start no_faults; Write (λ n, n + 5); Start (stop_at SetSchemaVersion)]) = false.
Proof. vm_compute. reflexivity. Qed.

End MigrationsRun.
