(* ===== verification/WireObjects.v ===== *)
(** * Conversions between messages and domain types

    Rust's [From] and [TryFrom] as type classes, with the law that the second undoes
    the first; the errors of [crates/proto/src/errors.rs]; and what the conversions
    call of the protocol library, as an interface. *)

From S2P Require Import Prelude.
From S2P Require Import Bytes.
From S2P Require Import External.
From S2P Require Import NtxAccount.
From S2P Require Import StoreObjects.
From S2P Require Import StoreTrees.

(** ** Errors *)

(** The payloads of third-party errors are left out. [entity] is the message's name. *)
Inductive ConversionError : Type :=
| HexError
| NoteError
| NetworkNoteError
| SmtLeafError
| SmtProofError
| TryFromIntError
| TooMuchData (expected got : nat)
| InsufficientData (expected got : nat)
| NotAValidFelt
| MissingFieldInProtobufRepresentation (entity field_name : string)
| MmrError
| DeserializationError (entity : string).

#[global] Instance sum_ret E : MRet (sum E) := λ A a, inr a.

#[global] Instance sum_bind E : MBind (sum E) := λ A B k r, match r with inr a => k a | inl e => inl e end.

#[global] Instance sum_fmap E : FMap (sum E) := λ A B f r, match r with inr a => inr (f a) | inl e => inl e end.

(** [ok_or(Entity::missing_field(field_name))?]. *)
Definition required {A} (entity field_name : string) (o : option A) : ConversionError + A :=
  match o with Some a => inr a | None => inl (MissingFieldInProtobufRepresentation entity field_name) end.

(** [map_err(..)?] on a result of the library. *)
Definition or_fail {A} (e : ConversionError) (o : option A) : ConversionError + A :=
  match o with Some a => inr a | None => inl e end.

(** ** Traits *)

(** [impl From<A> for W] and [impl TryFrom<W> for A]. *)
Class Into A W := into : A → W.
Class TryFrom W A := try_from : W → ConversionError + A.

#[global] Hint Mode Into + - : typeclass_instances.

(** What is sent is received. *)
Class RoundTrip A W `{!Into A W} `{!TryFrom W A} : Prop := round_trip a : try_from (into a) = inr a.

(** [convert] and [try_convert] of [domain/mod.rs], on vectors. *)
#[global] Instance into_list A W `{!Into A W} : Into (list A) (list W) := fmap into.

#[global] Instance try_from_list A W `{!TryFrom W A} : TryFrom (list W) (list A) :=
  fix go l := match l with
              | [] => inr []
              | w :: l => a ← try_from w; l ← go l; mret (a :: l)
              end.

#[global] Instance round_trip_list A W `{!Into A W} `{!TryFrom W A} `{!RoundTrip A W} : RoundTrip (list A) (list W).
Proof.
  intros l. induction l as [|a l IH]; [done|]. unfold into, into_list, try_from in *. cbn.
  change (try_from (into a) ≫= (λ a, try_from_list A W (into <$> l) ≫= (λ l, inr (a :: l))) = inr (a :: l)).
  rewrite round_trip. cbn. by rewrite IH.
Qed.

(** ** The protocol library *)

Inductive SmtLeafView (Digest Word : Type) : Type :=
| LeafEmpty (index : N)
| LeafSingle (entry : Digest * Word)
| LeafMultiple (entries : list (Digest * Word)).
Arguments LeafEmpty {_ _}.
Arguments LeafSingle {_ _}.
Arguments LeafMultiple {_ _}.

Class WireObjects `{!MidenObjects} `{!NtxObjects} `{!StoreObjects} `{!StoreTrees} := {
  wire_account_to_bytes : AccountId → bytes;
  wire_account_read : bytes → option AccountId;
  acc_to_bytes : Account → bytes;
  acc_read : bytes → option Account;
  (** The four field elements of a digest and of a word, as integers; an element is
      an integer modulo [FELT_MODULUS]. *)
  FELT_MODULUS : N;
  digest_elements : Digest → N * N * N * N;
  digest_of_elements : N * N * N * N → Digest;
  word_elements : Word → N * N * N * N;
  word_of_elements : N * N * N * N → Word;
  (** Ids wrap digests. *)
  note_id_inner : NoteId → Digest;
  note_id_of : Digest → NoteId;
  nullifier_inner : Nullifier → Digest;
  nullifier_of : Digest → Nullifier;
  tx_id_inner : TransactionId → Digest;
  tx_id_of : Digest → TransactionId;
  (** Block headers. *)
  header_version : BlockHeader → N;
  header_tx_kernel_commitment : BlockHeader → Digest;
  header_proof_commitment : BlockHeader → Digest;
  header_timestamp : BlockHeader → N;
  header_new : N → Digest → BlockNumber → Digest → Digest → Digest → Digest → Digest → Digest → Digest → N → BlockHeader;
  (** Merkle paths, sparse Merkle trees and witnesses. [None] is an error. *)
  path_nodes : MerklePath → list Digest;
  path_of_nodes : list Digest → MerklePath;
  delta_forest : MmrDelta → N;
  delta_data : MmrDelta → list Digest;
  mmr_delta_new : N → list Digest → MmrDelta;
  mmr_proof_forest : MmrProof → N;
  mmr_proof_path : MmrProof → MerklePath;
  peaks_list : MmrPeaks → list Digest;
  (** [MmrPeaks::new] and [PartialMmr::from_peaks]. *)
  peaks_new : N → list Digest → option MmrPeaks;
  partial_mmr_of_peaks : MmrPeaks → PartialMmr;
  SmtLeaf : Type;
  leaf_view : SmtLeaf → SmtLeafView Digest Word;
  leaf_empty : N → SmtLeaf;
  leaf_single : Digest → Word → SmtLeaf;
  leaf_multiple : list (Digest * Word) → option SmtLeaf;
  smt_proof_parts : SmtProof → MerklePath * SmtLeaf;
  smt_proof_new : MerklePath → SmtLeaf → option SmtProof;
  witness_id : AccountWitness → AccountId;
  witness_state_commitment : AccountWitness → Digest;
  witness_path : AccountWitness → MerklePath;
  account_witness_new : AccountId → Digest → MerklePath → option AccountWitness;
  (** Whether an index of a note in a block is in range: [NoteInclusionProof::new]. *)
  inclusion_index_ok : N → bool;
  (** Notes. [Note::new] takes the parts of the details. *)
  note_metadata : Note → NoteMetadata;
  note_new : NoteDetails → NoteMetadata → Note;
  (** [to_bytes] and [read_from_bytes]. *)
  details_to_bytes : NoteDetails → bytes;
  details_read : bytes → option NoteDetails;
  chain_to_bytes : PartialBlockchain → bytes;
  chain_read : bytes → option PartialBlockchain;
  update_to_bytes : AccountUpdateDetails → bytes;
  update_read : bytes → option AccountUpdateDetails;
  account_delta_to_bytes : AccountDelta → bytes;
  block_to_bytes : ProvenBlock → bytes;
  block_read : bytes → option ProvenBlock;
  (** The bytes of a block's file. *)
  raw_bytes : Bytes → bytes;
}.

(** Documented behaviour: constructors undo accessors, and reading undoes writing. *)
Class WireLaws `{!MidenObjects} `{!NtxObjects} `{!StoreObjects} `{!StoreTrees} `{!WireObjects} : Prop := {
  wire_account_inv id : wire_account_read (wire_account_to_bytes id) = Some id;
  account_bytes_inv a : acc_read (acc_to_bytes a) = Some a;
  felt_modulus_u64 : (FELT_MODULUS ≤ 2 ^ 64)%N;
  digest_canonical d : let '(a, b, c, e) := digest_elements d in
    (a < FELT_MODULUS ∧ b < FELT_MODULUS ∧ c < FELT_MODULUS ∧ e < FELT_MODULUS)%N;
  digest_inv d : digest_of_elements (digest_elements d) = d;
  digest_elements_inv a b c e :
    (a < FELT_MODULUS → b < FELT_MODULUS → c < FELT_MODULUS → e < FELT_MODULUS →
    digest_elements (digest_of_elements (a, b, c, e)) = (a, b, c, e))%N;
  word_canonical w : let '(a, b, c, e) := word_elements w in
    (a < FELT_MODULUS ∧ b < FELT_MODULUS ∧ c < FELT_MODULUS ∧ e < FELT_MODULUS)%N;
  word_inv w : word_of_elements (word_elements w) = w;
  note_id_inv n : note_id_of (note_id_inner n) = n;
  nullifier_inv n : nullifier_of (nullifier_inner n) = n;
  tx_id_inv t : tx_id_of (tx_id_inner t) = t;
  header_inv h : header_new (header_version h) (header_prev_block_commitment h) (header_block_num h)
    (header_chain_commitment h) (header_account_root h) (header_nullifier_root h) (header_note_root h)
    (header_tx_commitment h) (header_tx_kernel_commitment h) (header_proof_commitment h) (header_timestamp h) = h;
  path_inv p : path_of_nodes (path_nodes p) = p;
  mmr_delta_inv d : mmr_delta_new (delta_forest d) (delta_data d) = d;
  leaf_inv l : match leaf_view l with
               | LeafEmpty i => leaf_empty i = l
               | LeafSingle (k, v) => leaf_single k v = l
               | LeafMultiple es => leaf_multiple es = Some l
               end;
  smt_proof_inv p : smt_proof_new (smt_proof_parts p).1 (smt_proof_parts p).2 = Some p;
  witness_inv w : account_witness_new (witness_id w) (witness_state_commitment w) (witness_path w) = Some w;
  (** The index of a note in its block is a [u16] below the limit of a proof. *)
  leaf_index_ok i : (leaf_index_value i < 2 ^ 16)%N ∧ inclusion_index_ok (leaf_index_value i) = true;
  note_inv n : note_new (details_of n) (note_metadata n) = n;
  details_bytes_inv d : details_read (details_to_bytes d) = Some d;
  chain_bytes_inv c : chain_read (chain_to_bytes c) = Some c;
  update_bytes_inv u : update_read (update_to_bytes u) = Some u;
  proven_block_inv b : block_read (block_to_bytes b) = Some b;
}.
