(* ===== verification/Wire.v ===== *)
(** * Messages and their conversions

    The protobuf messages that the services exchange and the conversions of
    [crates/proto/src/domain/*.rs], as instances of [Into] and [TryFrom]. A
    message's optional field is an [option], its repeated field a list, an integer
    field a number of the field's width. *)

From S2P Require Import Prelude.
From S2P Require Import Bytes.
From S2P Require Import External.
From S2P Require Import Transaction.
From S2P Require Import Subscription.
From S2P Require Import NtxAccount.
From S2P Require Import StoreObjects.
From S2P Require Import StoreSql.
From S2P Require Import StoreTrees.
From S2P Require Import StoreQueries.
From S2P Require Import WireObjects.

(** ** Messages *)

Module Proto.

Record Digest := mk_digest { d0 : N; d1 : N; d2 : N; d3 : N }.

Record AccountId := mk_account_id { id : bytes }.

Record AccountSummary := mk_account_summary {
  as_account_id : option AccountId;
  as_account_commitment : option Digest;
  as_block_num : N;
}.

Record AccountInfo := mk_account_info { ai_summary : option AccountSummary; ai_details : option bytes }.

Record StorageRequest := mk_storage_request { storage_slot_index : N; map_keys : list Digest }.

Record AccountRequest := mk_account_request {
  rq_account_id : option AccountId;
  storage_requests : list StorageRequest;
}.

Record NoteMetadata := mk_note_metadata {
  nm_sender : option AccountId;
  nm_note_type : N;
  nm_tag : N;
  nm_execution_hint : N;
  nm_aux : N;
}.

Record Note := mk_note { n_metadata : option NoteMetadata; n_details : option bytes }.

Record NetworkNote := mk_network_note { nn_metadata : option NoteMetadata; nn_details : bytes }.

Record MerklePath := mk_merkle_path { siblings : list Digest }.

Record MmrDelta := mk_mmr_delta { forest : N; data : list Digest }.

Record SmtLeafEntry := mk_smt_leaf_entry { key : option Digest; value : option Digest }.

Inductive Leaf : Type :=
| Empty (index : N)
| Single (entry : SmtLeafEntry)
| Multiple (entries : list SmtLeafEntry).

Record SmtLeaf := mk_smt_leaf { leaf : option Leaf }.

Record SmtOpening := mk_smt_opening { so_path : option MerklePath; so_leaf : option SmtLeaf }.

Record NoteInclusionInBlockProof := mk_note_inclusion {
  ip_note_id : option Digest;
  ip_block_num : N;
  ip_note_index_in_block : N;
  ip_merkle_path : option MerklePath;
}.

Record BlockHeader := mk_block_header {
  bh_version : N;
  bh_prev_block_commitment : option Digest;
  bh_block_num : N;
  bh_chain_commitment : option Digest;
  bh_account_root : option Digest;
  bh_nullifier_root : option Digest;
  bh_note_root : option Digest;
  bh_tx_commitment : option Digest;
  bh_tx_kernel_commitment : option Digest;
  bh_proof_commitment : option Digest;
  bh_timestamp : N;
}.

Record TransactionId := mk_transaction_id { tx_id : option Digest }.

Record AccountWitness := mk_account_witness {
  aw_account_id : option AccountId;
  aw_witness_id : option AccountId;
  aw_commitment : option Digest;
  aw_path : option MerklePath;
}.

Record NullifierWitness := mk_nullifier_witness { nw_nullifier : option Digest; nw_opening : option SmtOpening }.

Record AccountTransactionInputRecord := mk_account_record {
  ar_account_id : option AccountId;
  ar_account_commitment : option Digest;
}.

Record NullifierTransactionInputRecord := mk_nullifier_record {
  nr_nullifier : option Digest;
  nr_block_num : N;
}.

Record GetTransactionInputsRequest := mk_tx_inputs_request {
  tq_account_id : option AccountId;
  tq_nullifiers : list Digest;
  tq_unauthenticated_notes : list Digest;
}.

Record GetTransactionInputsResponse := mk_tx_inputs_response {
  tr_account_state : option AccountTransactionInputRecord;
  tr_nullifiers : list NullifierTransactionInputRecord;
  tr_found_unauthenticated_notes : list Digest;
  tr_block_height : N;
}.

Record GetBatchInputsRequest := mk_batch_inputs_request {
  bq_note_ids : list Digest;
  bq_reference_blocks : list N;
}.

Record GetBatchInputsResponse := mk_batch_inputs_response {
  br_batch_reference_block_header : option BlockHeader;
  br_note_proofs : list NoteInclusionInBlockProof;
  br_partial_block_chain : bytes;
}.

Record GetBlockInputsRequest := mk_block_inputs_request {
  kq_account_ids : list AccountId;
  kq_nullifiers : list Digest;
  kq_unauthenticated_notes : list Digest;
  kq_reference_blocks : list N;
}.

Record GetBlockInputsResponse := mk_block_inputs_response {
  kr_latest_block_header : option BlockHeader;
  kr_account_witnesses : list AccountWitness;
  kr_nullifier_witnesses : list NullifierWitness;
  kr_unauthenticated_note_proofs : list NoteInclusionInBlockProof;
  kr_partial_block_chain : bytes;
}.

Record GetBlockHeaderByNumberRequest := mk_block_header_request {
  hq_block_num : option N;
  hq_include_mmr_proof : option bool;
}.

Record GetBlockHeaderByNumberResponse := mk_block_header_response {
  hr_block_header : option BlockHeader;
  hr_mmr_path : option MerklePath;
  hr_chain_length : option N;
}.

Record ApplyBlockRequest := mk_apply_block_request { aq_block : bytes }.

Record CheckNullifiersRequest := mk_check_nullifiers_request { cq_nullifiers : list Digest }.

Record CheckNullifiersResponse := mk_check_nullifiers_response { proofs : list SmtOpening }.

Record CheckNullifiersByPrefixRequest := mk_by_prefix_request {
  pq_prefix_len : N;
  pq_nullifiers : list N;
  pq_block_num : N;
}.

Record NullifierUpdate := mk_nullifier_update { nu_nullifier : option Digest; nu_block_num : N }.

Record CheckNullifiersByPrefixResponse := mk_by_prefix_response { nullifiers : list NullifierUpdate }.

Record TransactionSummary := mk_transaction_summary {
  ts_account_id : option AccountId;
  ts_block_num : N;
  ts_transaction_id : option TransactionId;
}.

Record NoteSyncRecord := mk_note_sync_record {
  sn_note_index : N;
  sn_note_id : option Digest;
  sn_metadata : option NoteMetadata;
  sn_merkle_path : option MerklePath;
}.

Record CommittedNote := mk_committed_note {
  inclusion_proof : option NoteInclusionInBlockProof;
  note : option Note;
}.

Record SyncStateRequest := mk_sync_state_request {
  sq_block_num : N;
  sq_account_ids : list AccountId;
  sq_note_tags : list N;
}.

Record SyncStateResponse := mk_sync_state_response {
  sr_chain_tip : N;
  sr_block_header : option BlockHeader;
  sr_mmr_delta : option MmrDelta;
  sr_accounts : list AccountSummary;
  sr_transactions : list TransactionSummary;
  sr_notes : list NoteSyncRecord;
}.

Record SyncNoteRequest := mk_sync_note_request { nq_block_num : N; nq_note_tags : list N }.

Record SyncNoteResponse := mk_sync_note_response {
  sn_chain_tip : N;
  sn_block_header : option BlockHeader;
  sn_mmr_path : option MerklePath;
  sn_notes : list NoteSyncRecord;
}.

Record GetAccountStateDeltaRequest := mk_state_delta_request {
  dq_account_id : option AccountId;
  dq_from_block_num : N;
  dq_to_block_num : N;
}.

Record GetUnconsumedNetworkNotesRequest := mk_network_notes_request { page_token : option N; page_size : N }.

Record GetUnconsumedNetworkNotesResponse := mk_network_notes_response {
  network_notes : list NetworkNote;
  next_token : option N;
}.

Record GetCurrentBlockchainDataResponse := mk_blockchain_data {
  current_peaks : list Digest;
  current_block_header : option BlockHeader;
}.

Inductive Event : Type :=
| TransactionAdded (id : option TransactionId) (nullifiers : list Digest)
    (network_notes : list NetworkNote) (network_account_delta : option bytes)
| BlockCommitted (block_header : option BlockHeader) (transactions : list TransactionId)
| TransactionsReverted (reverted : list TransactionId).

Record MempoolEvent := mk_mempool_event { event : option Event }.

End Proto.

(** ** [digest.rs]: the hexadecimal form *)

Module HexDigest.
Import Proto.

Definition DIGEST_DATA_SIZE : nat := 32.

Definition encode_hex (d : Digest) : string :=
  hex_digits false 16 (d0 d) +:+ hex_digits false 16 (d1 d) +:+ hex_digits false 16 (d2 d) +:+ hex_digits false 16 (d3 d).

Definition encode_hex_upper (d : Digest) : string :=
  hex_digits true 16 (d0 d) +:+ hex_digits true 16 (d1 d) +:+ hex_digits true 16 (d2 d) +:+ hex_digits true 16 (d3 d).

(** [hex_decode] is [hex::decode]; [None] is its error. *)
Definition from_hex (hex_decode : string → option bytes) (hex : string) : ConversionError + Digest :=
  data ← or_fail HexError (hex_decode hex);
  let size := length data in
  if decide (size < DIGEST_DATA_SIZE) then inl (InsufficientData DIGEST_DATA_SIZE size)
  else if decide (DIGEST_DATA_SIZE < size) then inl (TooMuchData DIGEST_DATA_SIZE size)
  else inr (mk_digest
    (u64_from_be_bytes (slice 0 8 data)) (u64_from_be_bytes (slice 8 16 data))
    (u64_from_be_bytes (slice 16 24 data)) (u64_from_be_bytes (slice 24 32 data))).

(** [Display] of a message with an account id: [account.rs]. *)
Definition account_id_display (a : AccountId) : string := "0x" +:+ hex_text false (id a).

End HexDigest.

(** ** Conversions *)

Module Wire.

Section defs.
Context `{!MidenObjects} `{!NtxObjects} `{!StoreObjects} `{!StoreTrees} `{!WireObjects}.

(** [collect] into a [BTreeMap]: the last entry of a key is kept. *)
Definition btree_map {K V} `{Countable K} (l : list (K * V)) : gmap K V :=
  foldl (λ m e, <[e.1 := e.2]> m) ∅ l.

(** *** [digest.rs] *)

#[global] Instance felts_into : Into (N * N * N * N) Proto.Digest := λ v,
  let '(a, b, c, e) := v in Proto.mk_digest a b c e.

Definition felts_try_from (d : Proto.Digest) : ConversionError + N * N * N * N :=
  if existsb (λ v, FELT_MODULUS <=? v)%N [Proto.d0 d; Proto.d1 d; Proto.d2 d; Proto.d3 d] then inl NotAValidFelt
  else inr (Proto.d0 d, Proto.d1 d, Proto.d2 d, Proto.d3 d).

#[global] Instance word_into : Into Word Proto.Digest := λ w, into (word_elements w).

#[global] Instance word_try_from : TryFrom Proto.Digest Word := λ d, word_of_elements <$> felts_try_from d.

#[global] Instance digest_into : Into Digest Proto.Digest := λ d, into (digest_elements d).

#[global] Instance digest_try_from : TryFrom Proto.Digest Digest := λ d, digest_of_elements <$> felts_try_from d.

#[global] Instance note_id_into : Into NoteId Proto.Digest := λ n, into (note_id_inner n).

(** [Digest::try_from(digest)?.into()] *)
#[global] Instance note_id_try_from : TryFrom Proto.Digest NoteId := λ d, note_id_of <$> try_from d.

(** *** [nullifier.rs] and [transaction.rs] *)

#[global] Instance nullifier_into : Into Nullifier Proto.Digest := λ n, into (nullifier_inner n).

#[global] Instance nullifier_try_from : TryFrom Proto.Digest Nullifier := λ d, nullifier_of <$> try_from d.

#[global] Instance tx_id_into : Into TransactionId Proto.TransactionId := λ t,
  Proto.mk_transaction_id (Some (into (tx_id_inner t))).

#[global] Instance tx_id_try_from : TryFrom Proto.TransactionId TransactionId := λ t,
  d ← required "TransactionId" "id" (Proto.tx_id t);
  tx_id_of <$> try_from d.

(** *** [account.rs] *)

#[global] Instance account_id_into : Into AccountId Proto.AccountId := λ i,
  Proto.mk_account_id (wire_account_to_bytes i).

#[global] Instance account_id_try_from : TryFrom Proto.AccountId AccountId := λ a,
  or_fail NotAValidFelt (wire_account_read (Proto.id a)).

#[global] Instance account_summary_into : Into Sql.AccountSummary Proto.AccountSummary := λ u,
  Proto.mk_account_summary (Some (into (Sql.as_account_id u))) (Some (into (Sql.as_commitment u))) (Sql.as_block_num u).

#[global] Instance account_info_into : Into Sql.AccountInfo Proto.AccountInfo := λ i,
  Proto.mk_account_info (Some (into (Sql.summary i))) (acc_to_bytes <$> Sql.info_details i).

(** A request for values of a storage map. *)
Record StorageMapKeysProof := mk_storage_keys { storage_index : N; storage_keys : list Digest }.

Record AccountProofRequest := mk_proof_request {
  pr_account_id : AccountId;
  pr_storage_requests : list StorageMapKeysProof;
}.

#[global] Instance storage_keys_try_from : TryFrom Proto.StorageRequest StorageMapKeysProof := λ r,
  index ← (if decide (Proto.storage_slot_index r < 2 ^ 8)%N then inr (Proto.storage_slot_index r) else inl TryFromIntError);
  keys ← try_from (Proto.map_keys r);
  mret (mk_storage_keys index keys).

#[global] Instance proof_request_try_from : TryFrom Proto.AccountRequest AccountProofRequest := λ r,
  a ← required "AccountRequest" "account_id" (Proto.rq_account_id r);
  id ← try_from a;
  requests ← try_from (Proto.storage_requests r);
  mret (mk_proof_request id requests).

(** *** [merkle.rs] *)

#[global] Instance path_into : Into MerklePath Proto.MerklePath := λ p, Proto.mk_merkle_path (into (path_nodes p)).

#[global] Instance path_try_from : TryFrom Proto.MerklePath MerklePath := λ p,
  path_of_nodes <$> try_from (Proto.siblings p).

(** The forest is a [usize] of 64 bits. *)
#[global] Instance mmr_delta_into : Into MmrDelta Proto.MmrDelta := λ d,
  Proto.mk_mmr_delta (delta_forest d) (into (delta_data d)).

#[global] Instance mmr_delta_try_from : TryFrom Proto.MmrDelta MmrDelta := λ d,
  mmr_delta_new (Proto.forest d) <$> try_from (Proto.data d).

#[global] Instance leaf_entry_into : Into (Digest * Word) Proto.SmtLeafEntry := λ e,
  Proto.mk_smt_leaf_entry (Some (into e.1)) (Some (into e.2)).

#[global] Instance leaf_entry_try_from : TryFrom Proto.SmtLeafEntry (Digest * Word) := λ e,
  k ← required "SmtLeafEntry" "key" (Proto.key e);
  k ← try_from k;
  v ← required "SmtLeafEntry" "value" (Proto.value e);
  v ← try_from v;
  mret (k, v).

#[global] Instance leaf_into : Into SmtLeaf Proto.SmtLeaf := λ l,
  Proto.mk_smt_leaf (Some match leaf_view l with
                          | LeafEmpty i => Proto.Empty i
                          | LeafSingle e => Proto.Single (into e)
                          | LeafMultiple es => Proto.Multiple (into es)
                          end).

#[global] Instance leaf_try_from : TryFrom Proto.SmtLeaf SmtLeaf := λ l,
  leaf ← required "SmtLeaf" "leaf" (Proto.leaf l);
  match leaf with
  | Proto.Empty i => mret (leaf_empty i)
  | Proto.Single e => e ← try_from e; mret (leaf_single e.1 e.2)
  | Proto.Multiple es => es ← try_from es; or_fail SmtLeafError (leaf_multiple es)
  end.

#[global] Instance opening_into : Into SmtProof Proto.SmtOpening := λ p,
  Proto.mk_smt_opening (Some (into (smt_proof_parts p).1)) (Some (into (smt_proof_parts p).2)).

#[global] Instance opening_try_from : TryFrom Proto.SmtOpening SmtProof := λ o,
  p ← required "SmtOpening" "path" (Proto.so_path o);
  p ← try_from p;
  l ← required "SmtOpening" "leaf" (Proto.so_leaf o);
  l ← try_from l;
  or_fail SmtProofError (smt_proof_new p l).

(** *** [note.rs] *)

#[global] Instance metadata_into : Into NoteMetadata Proto.NoteMetadata := λ m,
  Proto.mk_note_metadata (Some (into (metadata_sender m))) (note_type_u8 (metadata_note_type m)) (metadata_tag m)
    (hint_u64 (metadata_hint m)) (metadata_aux m).

#[global] Instance metadata_try_from : TryFrom Proto.NoteMetadata NoteMetadata := λ m,
  sender ← required "NoteMetadata" "sender" (Proto.nm_sender m);
  sender ← try_from sender;
  note_type ← or_fail NoteError (note_type_from (Proto.nm_note_type m));
  hint ← or_fail NoteError (hint_from (Proto.nm_execution_hint m));
  aux ← (if is_felt (Proto.nm_aux m) then inr (Proto.nm_aux m) else inl NotAValidFelt);
  or_fail NoteError (metadata_new sender note_type (Proto.nm_tag m) hint aux).

#[global] Instance note_into : Into Note Proto.Note := λ n,
  Proto.mk_note (Some (into (note_metadata n))) (Some (details_to_bytes (details_of n))).

#[global] Instance note_try_from : TryFrom Proto.Note Note := λ n,
  m ← required "Note" "metadata" (Proto.n_metadata n);
  metadata ← try_from m;
  details ← required "Note" "details" (Proto.n_details n);
  details ← or_fail (DeserializationError "NoteDetails") (details_read details);
  mret (note_new details metadata).

#[global] Instance network_note_into : Into NetworkNote Proto.NetworkNote := λ n,
  Proto.mk_network_note (Some (into (note_metadata (network_note_inner n))))
    (details_to_bytes (details_of (network_note_inner n))).

#[global] Instance network_note_try_from : TryFrom Proto.NetworkNote NetworkNote := λ n,
  details ← or_fail (DeserializationError "NoteDetails") (details_read (Proto.nn_details n));
  m ← required "NetworkNote" "metadata" (Proto.nn_metadata n);
  metadata ← try_from m;
  or_fail NetworkNoteError (Subscription.network_note_try_from (note_new details metadata)).

#[global] Instance inclusion_into : Into (NoteId * Sql.NoteInclusionProof) Proto.NoteInclusionInBlockProof := λ e,
  Proto.mk_note_inclusion (Some (into e.1)) (Sql.proof_block_num e.2) (Sql.proof_node_index e.2)
    (Some (into (Sql.proof_path e.2))).

#[global] Instance inclusion_try_from : TryFrom Proto.NoteInclusionInBlockProof (NoteId * Sql.NoteInclusionProof) := λ p,
  d ← required "NoteInclusionInBlockProof" "note_id" (Proto.ip_note_id p);
  id ← try_from d;
  index ← (if decide (Proto.ip_note_index_in_block p < 2 ^ 16)%N then inr (Proto.ip_note_index_in_block p) else inl TryFromIntError);
  path ← required "NoteInclusionInBlockProof" "merkle_path" (Proto.ip_merkle_path p);
  path ← try_from path;
  proof ← (if inclusion_index_ok index then inr (Sql.mk_inclusion_proof (Proto.ip_block_num p) index path) else inl NoteError);
  mret (id, proof).

(** *** [block.rs] and the witnesses *)

#[global] Instance header_into : Into BlockHeader Proto.BlockHeader := λ h,
  Proto.mk_block_header (header_version h) (Some (into (header_prev_block_commitment h))) (header_block_num h)
    (Some (into (header_chain_commitment h))) (Some (into (header_account_root h))) (Some (into (header_nullifier_root h)))
    (Some (into (header_note_root h))) (Some (into (header_tx_commitment h))) (Some (into (header_tx_kernel_commitment h)))
    (Some (into (header_proof_commitment h))) (header_timestamp h).

(** A required digest of a header. *)
Definition header_digest (field : string) (o : option Proto.Digest) : ConversionError + Digest :=
  d ← required "BlockHeader" field o; try_from d.

#[global] Instance header_try_from : TryFrom Proto.BlockHeader BlockHeader := λ v,
  prev ← header_digest "prev_block_commitment" (Proto.bh_prev_block_commitment v);
  chain ← header_digest "chain_commitment" (Proto.bh_chain_commitment v);
  account ← header_digest "account_root" (Proto.bh_account_root v);
  nullifier ← header_digest "nullifier_root" (Proto.bh_nullifier_root v);
  note ← header_digest "note_root" (Proto.bh_note_root v);
  tx ← header_digest "tx_commitment" (Proto.bh_tx_commitment v);
  kernel ← header_digest "tx_kernel_commitment" (Proto.bh_tx_kernel_commitment v);
  proof ← header_digest "proof_commitment" (Proto.bh_proof_commitment v);
  mret (header_new (Proto.bh_version v) prev (Proto.bh_block_num v) chain account nullifier note tx kernel proof
    (Proto.bh_timestamp v)).

Record AccountWitnessRecord := mk_account_witness_record { aw_account_id : AccountId; aw_witness : AccountWitness }.

#[global] Instance account_witness_into : Into AccountWitnessRecord Proto.AccountWitness := λ r,
  Proto.mk_account_witness (Some (into (aw_account_id r))) (Some (into (witness_id (aw_witness r))))
    (Some (into (witness_state_commitment (aw_witness r)))) (Some (into (witness_path (aw_witness r)))).

#[global] Instance account_witness_try_from : TryFrom Proto.AccountWitness AccountWitnessRecord := λ r,
  w ← required "AccountWitness" "witness_id" (Proto.aw_witness_id r);
  wid ← try_from w;
  c ← required "AccountWitness" "commitment" (Proto.aw_commitment r);
  commitment ← try_from c;
  p ← required "AccountWitness" "path" (Proto.aw_path r);
  path ← try_from p;
  witness ← or_fail (DeserializationError "AccountWitness") (account_witness_new wid commitment path);
  a ← required "AccountWitness" "account_id" (Proto.aw_account_id r);
  id ← try_from a;
  mret (mk_account_witness_record id witness).

Record NullifierWitnessRecord := mk_nullifier_witness_record { nw_nullifier : Nullifier; nw_proof : SmtProof }.

#[global] Instance nullifier_witness_into : Into NullifierWitnessRecord Proto.NullifierWitness := λ r,
  Proto.mk_nullifier_witness (Some (into (nw_nullifier r))) (Some (into (nw_proof r))).

#[global] Instance nullifier_witness_try_from : TryFrom Proto.NullifierWitness NullifierWitnessRecord := λ r,
  n ← required "NullifierWitness" "nullifier" (Proto.nw_nullifier r);
  nullifier ← try_from n;
  o ← required "NullifierWitness" "opening" (Proto.nw_opening r);
  proof ← try_from o;
  mret (mk_nullifier_witness_record nullifier proof).

#[global] Instance block_inputs_into : Into Queries.BlockInputs Proto.GetBlockInputsResponse := λ i,
  Proto.mk_block_inputs_response (Some (into (Queries.prev_block_header i)))
    (into ((λ e, mk_account_witness_record e.1 e.2) <$> bm_entries (Queries.account_witnesses i)))
    (into ((λ e, mk_nullifier_witness_record e.1 e.2) <$> bm_entries (Queries.nullifier_witnesses i)))
    (into (bm_entries (Queries.unauthenticated_note_proofs i)))
    (chain_to_bytes (Queries.block_partial_block_chain i)).

#[global] Instance block_inputs_try_from : TryFrom Proto.GetBlockInputsResponse Queries.BlockInputs := λ r,
  h ← required "BlockHeader" "block_header" (Proto.kr_latest_block_header r);
  header ← try_from h;
  accounts ← try_from (A := list AccountWitnessRecord) (Proto.kr_account_witnesses r);
  let accounts := btree_map ((λ w, (aw_account_id w, aw_witness w)) <$> accounts) in
  ns ← try_from (A := list NullifierWitnessRecord) (Proto.kr_nullifier_witnesses r);
  let ns := btree_map ((λ w, (nw_nullifier w, nw_proof w)) <$> ns) in
  proofs ← try_from (Proto.kr_unauthenticated_note_proofs r);
  chain ← or_fail (DeserializationError "PartialBlockchain") (chain_read (Proto.kr_partial_block_chain r));
  mret (Queries.mk_block_inputs header chain accounts ns (btree_map proofs)).

(** *** [batch.rs] *)

#[global] Instance batch_inputs_into : Into Queries.BatchInputs Proto.GetBatchInputsResponse := λ i,
  Proto.mk_batch_inputs_response (Some (into (Queries.batch_reference_block_header i)))
    (into (bm_entries (Queries.batch_note_proofs i))) (chain_to_bytes (Queries.batch_partial_block_chain i)).

#[global] Instance batch_inputs_try_from : TryFrom Proto.GetBatchInputsResponse Queries.BatchInputs := λ r,
  h ← required "GetBatchInputsResponse" "block_header" (Proto.br_batch_reference_block_header r);
  header ← try_from h;
  proofs ← try_from (Proto.br_note_proofs r);
  chain ← or_fail (DeserializationError "PartialBlockchain") (chain_read (Proto.br_partial_block_chain r));
  mret (Queries.mk_batch_inputs header (btree_map proofs) chain).

(** *** [mempool.rs] *)

#[global] Instance event_into : Into MempoolEvent Proto.MempoolEvent := λ ev,
  Proto.mk_mempool_event (Some match ev with
    | TransactionAdded id nullifiers network_notes account_delta =>
      Proto.TransactionAdded (Some (into id)) (into nullifiers) (into network_notes) (update_to_bytes <$> account_delta)
    | BlockCommitted header txs => Proto.BlockCommitted (Some (into header)) (into txs)
    | TransactionsReverted txs => Proto.TransactionsReverted (into (bt_iter txs))
    end).

(** [as_deref().map(read_from_bytes).transpose()] *)
Definition read_delta (o : option bytes) : ConversionError + option AccountUpdateDetails :=
  match o with
  | Some b => Some <$> or_fail (DeserializationError "account_delta") (update_read b)
  | None => inr None
  end.

#[global] Instance event_try_from : TryFrom Proto.MempoolEvent MempoolEvent := λ ev,
  ev ← required "MempoolEvent" "event" (Proto.event ev);
  match ev with
  | Proto.TransactionAdded id nullifiers network_notes account_delta =>
    id ← required "TransactionAdded" "id" id;
    id ← try_from id;
    nullifiers ← try_from nullifiers;
    network_notes ← try_from network_notes;
    account_delta ← read_delta account_delta;
    mret (TransactionAdded id nullifiers network_notes account_delta)
  | Proto.BlockCommitted header txs =>
    header ← required "BlockCommitted" "block_header" header;
    header ← try_from header;
    txs ← try_from txs;
    mret (BlockCommitted header txs)
  | Proto.TransactionsReverted txs =>
    txs ← try_from (A := list TransactionId) txs;
    mret (TransactionsReverted (list_to_set txs))
  end.

(** *** [AccountState] of [account.rs] and [TransactionInputs] of the block producer *)

Record AccountState := mk_account_state { st_account_id : AccountId; st_account_commitment : option Digest }.

#[global] Instance account_state_into : Into AccountState Proto.AccountTransactionInputRecord := λ s,
  Proto.mk_account_record (Some (into (st_account_id s))) (into <$> st_account_commitment s).

#[global] Instance account_state_try_from : TryFrom Proto.AccountTransactionInputRecord AccountState := λ r,
  a ← required "AccountTransactionInputRecord" "account_id" (Proto.ar_account_id r);
  id ← try_from a;
  c ← required "AccountTransactionInputRecord" "account_commitment" (Proto.ar_account_commitment r);
  commitment ← try_from c;
  mret (mk_account_state id (if decide (commitment = digest_default) then None else Some commitment)).

(** [NonZeroU32::new] *)
Definition non_zero (n : N) : option positive := match n with N0 => None | Npos p => Some p end.

Definition nullifier_record_try_from (r : Proto.NullifierTransactionInputRecord) : ConversionError + Nullifier * option positive :=
  d ← required "NullifierTransactionInputRecord" "nullifier" (Proto.nr_nullifier r);
  n ← try_from d;
  mret (n, non_zero (Proto.nr_block_num r)).

(** The loop over the response's nullifiers. *)
Fixpoint insert_records (l : list Proto.NullifierTransactionInputRecord) (m : gmap Nullifier (option positive))
    : ConversionError + gmap Nullifier (option positive) :=
  match l with
  | [] => mret m
  | r :: l => e ← nullifier_record_try_from r; insert_records l (<[e.1 := e.2]> m)
  end.

#[global] Instance tx_inputs_try_from : TryFrom Proto.GetTransactionInputsResponse TransactionInputs := λ r,
  s ← required "GetTransactionInputsResponse" "account_state" (Proto.tr_account_state r);
  s ← try_from s;
  nullifiers ← insert_records (Proto.tr_nullifiers r) ∅;
  found ← try_from (A := list NoteId) (Proto.tr_found_unauthenticated_notes r);
  mret (mk_transaction_inputs (st_account_id s) (st_account_commitment s) nullifiers (list_to_set found)
    (Proto.tr_block_height r)).

End defs.

(** *** [NetworkAccountPrefix] of [account.rs] *)

Section prefix.
Context {AccountId NoteTag : Type}.
(** The first field element of an id and whether it is a network account's; of a tag,
    whether its mode is the network's, whether it has a single target, and its value. *)
Variable id_prefix_u64 : AccountId → N.
Variable is_network : AccountId → bool.
Variable tag_is_network tag_is_single_target : NoteTag → bool.
Variable tag_u32 : NoteTag → N.

Inductive NetworkAccountError : Type :=
| NotNetworkAccount (id : AccountId)
| InvalidExecutionMode (tag : NoteTag)
| InvalidPrefix (value : N).

Definition prefix_from_u32 (value : N) : NetworkAccountError + N :=
  if decide (N.shiftr value 30 ≠ 0%N) then inl (InvalidPrefix value) else inr value.

(** The cast truncates to 32 bits. *)
Definition get_account_id_tag_prefix (id : AccountId) : N := (N.shiftr (id_prefix_u64 id) 34 mod 2 ^ 32)%N.

Definition prefix_from_id (id : AccountId) : NetworkAccountError + N :=
  if is_network id then inr (get_account_id_tag_prefix id) else inl (NotNetworkAccount id).

(** [None] is the failure of the assertion. *)
Definition prefix_from_tag (tag : NoteTag) : option (NetworkAccountError + N) :=
  if negb (tag_is_network tag) || negb (tag_is_single_target tag) then Some (inl (InvalidExecutionMode tag))
  else if decide (N.shiftr (tag_u32 tag) 30 = 0%N) then Some (inr (tag_u32 tag)) else None.

End prefix.

End Wire.
