(* ===== verification/WireTheorems.v ===== *)
(** * What is sent is received

    The conversions of [Wire.v] undo each other, and a message is accepted only if it
    is the one that its value would be sent as. *)

From S2P Require Import Prelude.
From S2P Require Import Bytes.
From S2P Require Import External.
From S2P Require Import Transaction.
From S2P Require Import Subscription.
From S2P Require Import NtxAccount.
From S2P Require Import StoreObjects.
From S2P Require Import StoreSql.
From S2P Require Import StoreTrees.
From S2P Require Import StoreQueries.
From S2P Require Import WireObjects.
From S2P Require Import Wire.
Import Wire.

Lemma sum_bind_inr {E A B} (a : A) (k : A → E + B) : (inr a ≫= k) = k a.
Proof. reflexivity. Qed.

Lemma sum_fmap_inr {E A B} (f : A → B) (a : A) : f <$> (inr a : E + A) = inr (f a).
Proof. reflexivity. Qed.

#[export] Hint Rewrite @sum_bind_inr @sum_fmap_inr : wire.

(** A conversion that succeeded has done so in each of its parts. *)
Ltac wire_inv H :=
  repeat match type of H with
  | context [match ?x with inr _ => _ | inl _ => _ end] => destruct x eqn:?; try discriminate H
  end.

(** ** Maps *)

Section maps.
Context {K : Type} `{!Key K} {V : Type}.

Lemma btree_map_lookup (l : list (K * V)) (m : gmap K V) k :
  NoDup l.*1 → foldl (λ m e, <[e.1 := e.2]> m) m l !! k =
    match (list_to_map l : gmap K V) !! k with Some v => Some v | None => m !! k end.
Proof.
  revert m. induction l as [|[j v] l IH]; intros m; [done|].
  cbn. intros [Hj Hl]%NoDup_cons. rewrite (IH _ Hl). rewrite !lookup_insert.
  repeat case_decide; subst; try done. by rewrite not_elem_of_list_to_map_1.
Qed.

(** Collecting the entries of a map gives the map. *)
Lemma btree_map_entries (m : gmap K V) : btree_map (bm_entries m) = m.
Proof.
  apply map_eq. intros k. unfold btree_map.
  assert (NoDup (bm_entries m).*1) as Hnd by (rewrite bm_entries_keys; apply NoDup_bt_iter).
  rewrite btree_map_lookup by done. rewrite lookup_empty.
  destruct (m !! k) as [v|] eqn:Hk.
  - apply elem_of_bm_entries in Hk. by rewrite (elem_of_list_to_map_1 _ _ _ Hnd Hk).
  - rewrite not_elem_of_list_to_map_1; [done|]. rewrite bm_entries_keys. unfold bm_keys.
    rewrite elem_of_bt_iter, elem_of_dom, Hk. apply is_Some_None.
Qed.

End maps.

(** ** Round trips *)

Section roundtrip.
Context `{!MidenObjects} `{!NtxObjects} `{!StoreObjects} `{!StoreTrees} `{!WireObjects}.
Context `{!StoreLaws} `{!WireLaws}.

Definition canonical (v : N * N * N * N) : Prop :=
  let '(a, b, c, e) := v in (a < FELT_MODULUS ∧ b < FELT_MODULUS ∧ c < FELT_MODULUS ∧ e < FELT_MODULUS)%N.

Lemma felts_round_trip v : canonical v → felts_try_from (into v) = inr v.
Proof.
  destruct v as [[[a b] c] e]. intros (Ha & Hb & Hc & He). unfold felts_try_from. cbn.
  by rewrite !(proj2 (N.leb_gt _ _)) by done.
Qed.

Lemma felts_try_from_inr d v : felts_try_from d = inr v → canonical v ∧ into v = d.
Proof.
  destruct d as [a b c e]. unfold felts_try_from. cbn. rewrite orb_false_r.
  destruct (N.leb_spec FELT_MODULUS a), (N.leb_spec FELT_MODULUS b), (N.leb_spec FELT_MODULUS c),
    (N.leb_spec FELT_MODULUS e); try done.
  cbn. by intros [= <-].
Qed.

#[global] Instance digest_round_trip : RoundTrip Digest Proto.Digest.
Proof.
  intros d. unfold try_from, digest_try_from. unfold into, digest_into.
  rewrite felts_round_trip by (pose proof (digest_canonical d) as H'; unfold canonical; done).
  cbn. by rewrite digest_inv.
Qed.

#[global] Instance word_round_trip : RoundTrip Word Proto.Digest.
Proof.
  intros d. unfold try_from, word_try_from. unfold into, word_into.
  rewrite felts_round_trip by (pose proof (word_canonical d) as H'; unfold canonical; done).
  cbn. by rewrite word_inv.
Qed.

#[global] Instance note_id_round_trip : RoundTrip NoteId Proto.Digest.
Proof. intros x. change (note_id_of <$> try_from (into (note_id_inner x)) = inr x). rewrite round_trip. cbn. by rewrite note_id_inv. Qed.

#[global] Instance nullifier_round_trip : RoundTrip Nullifier Proto.Digest.
Proof. intros x. change (nullifier_of <$> try_from (into (nullifier_inner x)) = inr x). rewrite round_trip. cbn. by rewrite nullifier_inv. Qed.

#[global] Instance tx_id_round_trip : RoundTrip TransactionId Proto.TransactionId.
Proof. intros x. change (tx_id_of <$> try_from (into (tx_id_inner x)) = inr x). rewrite round_trip. cbn. by rewrite tx_id_inv. Qed.

#[global] Instance account_id_round_trip : RoundTrip AccountId Proto.AccountId.
Proof. intros x. unfold try_from, account_id_try_from. cbn. by rewrite wire_account_inv. Qed.

#[global] Instance path_round_trip : RoundTrip MerklePath Proto.MerklePath.
Proof. intros x. change (path_of_nodes <$> try_from (into (path_nodes x)) = inr x). rewrite round_trip. cbn. by rewrite path_inv. Qed.

#[global] Instance mmr_delta_round_trip : RoundTrip MmrDelta Proto.MmrDelta.
Proof. intros x. change (mmr_delta_new (delta_forest x) <$> try_from (into (delta_data x)) = inr x). rewrite round_trip. cbn. by rewrite mmr_delta_inv. Qed.

#[global] Instance leaf_entry_round_trip : RoundTrip (Digest * Word) Proto.SmtLeafEntry.
Proof.
  intros [k w]. unfold try_from, leaf_entry_try_from. cbn [into leaf_entry_into Proto.key Proto.value required fst snd].
  by rewrite !sum_bind_inr, round_trip, !sum_bind_inr, round_trip.
Qed.

#[global] Instance leaf_round_trip : RoundTrip SmtLeaf Proto.SmtLeaf.
Proof.
  intros l. unfold try_from, leaf_try_from, into, leaf_into. cbn [Proto.leaf required]. rewrite sum_bind_inr.
  pose proof (leaf_inv l) as Hl. destruct (leaf_view l) as [i|[k v]|es].
  - cbn. by rewrite Hl.
  - rewrite round_trip. cbn. by rewrite Hl.
  - rewrite round_trip. cbn. by rewrite Hl.
Qed.

#[global] Instance opening_round_trip : RoundTrip SmtProof Proto.SmtOpening.
Proof.
  intros p. unfold try_from, opening_try_from, into, opening_into. cbn [Proto.so_path Proto.so_leaf required].
  rewrite !sum_bind_inr, round_trip, !sum_bind_inr, round_trip, sum_bind_inr. by rewrite smt_proof_inv.
Qed.

#[global] Instance metadata_round_trip : RoundTrip NoteMetadata Proto.NoteMetadata.
Proof.
  intros m. unfold try_from, metadata_try_from, into, metadata_into. cbn [Proto.nm_sender Proto.nm_note_type
    Proto.nm_tag Proto.nm_execution_hint Proto.nm_aux required].
  rewrite !sum_bind_inr, round_trip, sum_bind_inr, note_type_inv, hint_inv, aux_felt. cbn. by rewrite metadata_inv.
Qed.

#[global] Instance note_round_trip : RoundTrip Note Proto.Note.
Proof.
  intros n. unfold try_from, note_try_from, into, note_into. cbn [Proto.n_metadata Proto.n_details required].
  rewrite !sum_bind_inr, round_trip, !sum_bind_inr, details_bytes_inv. cbn. by rewrite note_inv.
Qed.

Lemma header_digest_into field d : header_digest field (Some (into d)) = inr d.
Proof. apply (round_trip d). Qed.

#[global] Instance header_round_trip : RoundTrip BlockHeader Proto.BlockHeader.
Proof.
  intros h. unfold try_from, header_try_from, into, header_into.
  cbn [Proto.bh_version Proto.bh_prev_block_commitment Proto.bh_block_num Proto.bh_chain_commitment
    Proto.bh_account_root Proto.bh_nullifier_root Proto.bh_note_root Proto.bh_tx_commitment
    Proto.bh_tx_kernel_commitment Proto.bh_proof_commitment Proto.bh_timestamp].
  rewrite !header_digest_into, !sum_bind_inr. by rewrite header_inv.
Qed.

#[global] Instance account_witness_round_trip : RoundTrip AccountWitnessRecord Proto.AccountWitness.
Proof.
  intros [i w]. unfold try_from, account_witness_try_from, into, account_witness_into.
  cbn [Proto.aw_account_id Proto.aw_witness_id Proto.aw_commitment Proto.aw_path aw_account_id aw_witness required].
  rewrite !sum_bind_inr, round_trip, !sum_bind_inr, round_trip, !sum_bind_inr, round_trip, sum_bind_inr, witness_inv.
  cbn [or_fail]. by rewrite !sum_bind_inr, round_trip.
Qed.

#[global] Instance nullifier_witness_round_trip : RoundTrip NullifierWitnessRecord Proto.NullifierWitness.
Proof.
  intros [n p]. unfold try_from, nullifier_witness_try_from, into, nullifier_witness_into.
  cbn [Proto.nw_nullifier Proto.nw_opening nw_nullifier nw_proof required].
  by rewrite !sum_bind_inr, round_trip, !sum_bind_inr, round_trip.
Qed.

(** ** Values whose type is wider than the message's *)

(** A list is received when its elements are. *)
Lemma try_from_list_inr {A W} `{!Into A W} `{!TryFrom W A} (l : list A) :
  Forall (λ a, try_from (into a) = inr a) l → try_from (into l) = inr l.
Proof.
  induction 1 as [|a l Ha _ IH]; [done|].
  change (try_from (into a) ≫= (λ a, try_from (into l) ≫= (λ l, inr (a :: l))) = inr (a :: l)).
  by rewrite Ha, sum_bind_inr, IH.
Qed.

Definition network_note_ok (n : NetworkNote) : Prop := note_is_network (network_note_inner n) = true.

Definition proof_ok (p : Sql.NoteInclusionProof) : Prop :=
  (Sql.proof_node_index p < 2 ^ 16)%N ∧ inclusion_index_ok (Sql.proof_node_index p) = true.

Lemma network_note_round_trip n : network_note_ok n → try_from (into n) = inr n.
Proof.
  unfold network_note_ok. destruct n as [n]. cbn [network_note_inner]. intros Hn.
  unfold try_from, network_note_try_from, into, network_note_into.
  cbn [Proto.nn_details Proto.nn_metadata network_note_inner required].
  rewrite details_bytes_inv. cbn [or_fail]. rewrite !sum_bind_inr, round_trip, sum_bind_inr, note_inv.
  unfold Subscription.network_note_try_from. by rewrite Hn.
Qed.

Lemma inclusion_round_trip (e : NoteId * Sql.NoteInclusionProof) : proof_ok e.2 → try_from (into e) = inr e.
Proof.
  destruct e as [n [b i p]]. unfold proof_ok. cbn. intros [Hi Hok].
  change ((id ← try_from (into n);
    index ← (if decide (i < 2 ^ 16)%N then inr i else inl TryFromIntError);
    path ← try_from (into p);
    proof ← (if inclusion_index_ok index then inr (Sql.mk_inclusion_proof b index path) else inl NoteError);
    mret (id, proof)) = inr (n, Sql.mk_inclusion_proof b i p)).
  by rewrite !round_trip, sum_bind_inr, decide_True, !sum_bind_inr, Hok by done.
Qed.

Lemma inclusions_round_trip (m : gmap NoteId Sql.NoteInclusionProof) :
  map_Forall (λ _ p, proof_ok p) m → try_from (into (bm_entries m)) = inr (bm_entries m).
Proof.
  intros Hm. apply try_from_list_inr, Forall_forall. intros [n p] Hin%elem_of_bm_entries.
  apply inclusion_round_trip. exact (Hm n p Hin).
Qed.

Lemma fmap_record {A B} (f : A → B) (g : B → A) (l : list A) :
  (∀ a, g (f a) = a) → g <$> (f <$> l) = l.
Proof. intros Hg. rewrite <- list_fmap_compose. rewrite <- (list_fmap_id l) at 2. apply list_fmap_ext. intros. apply Hg. Qed.

(** The inputs of a block and of a batch survive the connection between store and
    block producer. Each message that the store makes of them is accepted, and it
    yields the same header, witnesses, proofs and partial chain, provided that the
    proofs' note indices are those of notes in a block. *)
Lemma wire_inputs_received :
  (∀ inputs : Queries.BlockInputs, map_Forall (λ _ p, proof_ok p) (Queries.unauthenticated_note_proofs inputs) →
    try_from (into inputs) = inr inputs) ∧
  (∀ inputs : Queries.BatchInputs, map_Forall (λ _ p, proof_ok p) (Queries.batch_note_proofs inputs) →
    try_from (into inputs) = inr inputs).
Proof.
  split.
  - intros [header chain accounts ns proofs] Hok%inclusions_round_trip. cbn in Hok.
    change ((header ← try_from (into header);
      accounts ← try_from (A := list AccountWitnessRecord)
        (into ((λ e, mk_account_witness_record e.1 e.2) <$> bm_entries accounts));
      ns ← try_from (A := list NullifierWitnessRecord)
        (into ((λ e, mk_nullifier_witness_record e.1 e.2) <$> bm_entries ns));
      proofs ← try_from (into (bm_entries proofs));
      chain ← or_fail (DeserializationError "PartialBlockchain") (chain_read (chain_to_bytes chain));
      mret (Queries.mk_block_inputs header chain (btree_map ((λ w, (aw_account_id w, aw_witness w)) <$> accounts))
        (btree_map ((λ w, (nw_nullifier w, nw_proof w)) <$> ns)) (btree_map proofs)))
      = inr (Queries.mk_block_inputs header chain accounts ns proofs)).
    rewrite Hok, chain_bytes_inv, !round_trip. cbn [or_fail]. rewrite !sum_bind_inr.
    rewrite !fmap_record by by intros []. by rewrite !btree_map_entries.
  - intros [header proofs chain] Hok%inclusions_round_trip. cbn in Hok.
    change ((header ← try_from (into header); proofs ← try_from (into (bm_entries proofs));
      chain ← or_fail (DeserializationError "PartialBlockchain") (chain_read (chain_to_bytes chain));
      mret (Queries.mk_batch_inputs header (btree_map proofs) chain))
      = inr (Queries.mk_batch_inputs header proofs chain)).
    rewrite Hok, chain_bytes_inv, !round_trip. cbn [or_fail]. by rewrite !sum_bind_inr, btree_map_entries.
Qed.

(** The notes of an event are network notes. *)
Definition event_ok (ev : MempoolEvent) : Prop :=
  match ev with TransactionAdded _ _ ns _ => Forall network_note_ok ns | _ => True end.

Lemma read_delta_written o : read_delta (update_to_bytes <$> o) = inr o.
Proof. destruct o as [u|]; [|done]. cbn. by rewrite update_bytes_inv. Qed.

(** A mempool event reaches its subscriber as it was sent: the message that the
    block producer makes of it is accepted, with the same nullifiers and notes in the
    same order, and the same delta, header and set of transactions. *)
Theorem wire_event_received (ev : MempoolEvent) (Hok : event_ok ev) : try_from (into ev) = inr ev.
Proof.
  destruct ev as [id ns notes delta|header txs|txs]; cbn in Hok.
  - change ((id ← try_from (into id); ns ← try_from (into ns); notes ← try_from (into notes);
      delta ← read_delta (update_to_bytes <$> delta); mret (TransactionAdded id ns notes delta))
      = inr (TransactionAdded id ns notes delta)).
    assert (try_from (into notes) = inr notes) as ->.
    { apply try_from_list_inr. eapply Forall_impl; [exact Hok|]. apply network_note_round_trip. }
    by rewrite !round_trip, read_delta_written, !sum_bind_inr.
  - change ((header ← try_from (into header); txs ← try_from (into txs); mret (BlockCommitted header txs))
      = inr (BlockCommitted header txs)).
    by rewrite !round_trip, !sum_bind_inr.
  - change ((l ← try_from (into (bt_iter txs)); mret (TransactionsReverted (list_to_set l)))
      = inr (TransactionsReverted txs)).
    by rewrite round_trip, sum_bind_inr, list_to_set_bt_iter.
Qed.

(** A digest has one encoding. A message is accepted as a digest exactly if it is
    the one that the digest is sent as, so no two messages mean the same digest; any
    other message has a number at or above the field's modulus and is refused. *)
Theorem wire_digest_canonical (w : Proto.Digest) :
  (∀ d : Digest, try_from w = inr d ↔ w = into d) ∧
  (∀ e, (try_from w : ConversionError + Digest) = inl e →
    e = NotAValidFelt ∧ ∃ v, v ∈ [Proto.d0 w; Proto.d1 w; Proto.d2 w; Proto.d3 w] ∧ (FELT_MODULUS ≤ v)%N).
Proof.
  split.
  - intros d. split; [|intros ->; apply round_trip].
    unfold try_from, digest_try_from. destruct (felts_try_from w) as [e|v] eqn:Hw; [done|]. cbn. intros [= <-].
    apply felts_try_from_inr in Hw as [Hc <-]. unfold into at 2, digest_into. f_equal.
    destruct v as [[[a b] c] e]. destruct Hc as (Ha & Hb & Hc & He). symmetry. by apply digest_elements_inv.
  - intros e. unfold try_from, digest_try_from, felts_try_from.
    destruct (existsb _ _) eqn:Hw; [|done]. cbn. intros [= <-]. split; [done|].
    apply existsb_exists in Hw as (v & Hin & Hv%N.leb_le). exists v. split; [|done]. by apply list_elem_of_In.
Qed.

(** ** The hexadecimal form of a digest *)

Definition digest_u64 (w : Proto.Digest) : Prop :=
  (Proto.d0 w < 2 ^ 64 ∧ Proto.d1 w < 2 ^ 64 ∧ Proto.d2 w < 2 ^ 64 ∧ Proto.d3 w < 2 ^ 64)%N.

Definition digest_bytes (w : Proto.Digest) : bytes :=
  u64_to_be_bytes (Proto.d0 w) ++ u64_to_be_bytes (Proto.d1 w) ++ u64_to_be_bytes (Proto.d2 w) ++ u64_to_be_bytes (Proto.d3 w).

Lemma length_be n : length (u64_to_be_bytes n) = 8.
Proof. unfold u64_to_be_bytes. by rewrite length_rev, length_le_bytes. Qed.

Lemma be_round_trip n : (n < 2 ^ 64)%N → u64_from_be_bytes (u64_to_be_bytes n) = n.
Proof. intros Hn. unfold u64_from_be_bytes, u64_to_be_bytes. rewrite rev_involutive. by apply le_num_bytes. Qed.

Lemma hex_bytes (upper : bool) (w : Proto.Digest) :
  (if upper then HexDigest.encode_hex_upper w else HexDigest.encode_hex w) = hex_text upper (digest_bytes w).
Proof.
  unfold digest_bytes, u64_to_be_bytes. rewrite !hex_text_app, <- !(hex_digits_bytes _ 8). by destruct upper.
Qed.

(** Four blocks of eight bytes. *)
Lemma slices (a b c e : bytes) :
  length a = 8 → length b = 8 → length c = 8 → length e = 8 → let data := a ++ b ++ c ++ e in
  slice 0 8 data = a ∧ slice 8 16 data = b ∧ slice 16 24 data = c ∧ slice 24 32 data = e.
Proof.
  intros Ha Hb Hc He data. unfold data. split_and!.
  - by apply slice_here.
  - rewrite (slice_skip 8) by (done || lia). by apply slice_here.
  - rewrite (slice_skip 8), (slice_skip 8) by (done || lia). by apply slice_here.
  - rewrite (slice_skip 8), (slice_skip 8), (slice_skip 8) by (done || lia). by apply slice_all.
Qed.

(** The hexadecimal form of a digest can be read back. Whatever the decoder of the
    hex library, if it inverts writing bytes as digits, then both the lower case and
    the upper case form of a digest yield the digest, and a text that does not decode
    to 32 bytes is refused with the number of bytes it has. *)
Theorem digest_hex_roundtrip (hex_decode : string → option bytes) (w : Proto.Digest)
    (Hdec : ∀ upper l, hex_decode (hex_text upper l) = Some l) (Hw : digest_u64 w) :
  HexDigest.from_hex hex_decode (HexDigest.encode_hex w) = inr w ∧
  HexDigest.from_hex hex_decode (HexDigest.encode_hex_upper w) = inr w ∧
  ∀ upper l,
    (length l < 32 → HexDigest.from_hex hex_decode (hex_text upper l) = inl (InsufficientData 32 (length l))) ∧
    (32 < length l → HexDigest.from_hex hex_decode (hex_text upper l) = inl (TooMuchData 32 (length l))).
Proof.
  assert (∀ upper, HexDigest.from_hex hex_decode (hex_text upper (digest_bytes w)) = inr w) as Hboth.
  { intros upper. unfold HexDigest.from_hex. rewrite Hdec. cbn [or_fail]. rewrite sum_bind_inr.
    assert (length (digest_bytes w) = 32) as -> by (unfold digest_bytes; rewrite !length_app, !length_be; done).
    rewrite !decide_False by (unfold HexDigest.DIGEST_DATA_SIZE; lia).
    destruct (slices _ _ _ _ (length_be (Proto.d0 w)) (length_be (Proto.d1 w)) (length_be (Proto.d2 w))
      (length_be (Proto.d3 w))) as (S1 & S2 & S3 & S4).
    unfold digest_bytes. rewrite S1, S2, S3, S4. destruct Hw as (? & ? & ? & ?). rewrite !be_round_trip by done.
    by destruct w. }
  pose proof (hex_bytes false w) as Hl. pose proof (hex_bytes true w) as Hu. cbn in Hl, Hu.
  rewrite Hl, Hu. split_and!; [apply Hboth..|].
  intros upper l. unfold HexDigest.from_hex. rewrite Hdec. cbn [or_fail]. rewrite sum_bind_inr.
  unfold HexDigest.DIGEST_DATA_SIZE. split; intros Hlen.
  - by rewrite decide_True.
  - by rewrite decide_False, decide_True by lia.
Qed.

End roundtrip.
