(* ===== verification/StoreApi.v ===== *)
(** * The store's gRPC services

    Model of [crates/store/src/server/]: the helpers of [api.rs] and the handlers of
    [block_producer.rs], [ntx_builder.rs] and [rpc_api.rs], which read a request,
    query the state and write a response. A handler that takes the lock of the state
    twice has an argument [between]: what other tasks do to the state in between. *)

From S2P Require Import Prelude.
From S2P Require Import Bytes.
From S2P Require Import External.
From S2P Require Import NtxAccount.
From S2P Require Import StoreObjects.
From S2P Require Import StoreSql.
From S2P Require Import StoreTrees.
From S2P Require Import StoreState.
From S2P Require Import StoreQueries.
From S2P Require Import WireObjects.
From S2P Require Import Wire.
Import StoreState.
Import Wire.

(** [tonic::Status], its message left out. *)
Inductive Status : Type := InvalidArgument | NotFound | OutOfRange | Unavailable | Internal.

Module StoreApi.

Section defs.
Context `{!MidenObjects} `{!NtxObjects} `{!StoreObjects} `{!StoreTrees} `{!WireObjects}.

Abbreviation HM := (M State Status).

(** [?] on a result. *)
Definition try_status {E A} (f : E → Status) (r : E + A) : HM A :=
  match r with inr a => mret a | inl e => throw (f e) end.

Definition invalid_argument {E} (e : E) : Status := InvalidArgument.

Definition internal_error {E} (e : E) : Status := Internal.

(** [From<DatabaseError> for Status] *)
Definition database_status (e : Sql.DatabaseError) : Status :=
  match e with
  | Sql.AccountNotFoundInDb _ | Sql.AccountsNotFoundInDb _ | Sql.AccountNotPublic _ => NotFound
  | _ => Internal
  end.

Definition query_status (e : Queries.QueryError) : Status :=
  match e with Queries.QueryDatabaseError e => database_status e | _ => Internal end.

(** [From<ApplyBlockError> for Status] *)
Definition apply_status (e : ApplyBlockError) : Status :=
  match e with InvalidBlock _ => InvalidArgument | _ => Internal end.

(** ** [api.rs] *)

Definition read_account_id (id : option Proto.AccountId) : Status + AccountId :=
  match id with
  | None => inl InvalidArgument
  | Some id => match try_from id with inr id => inr id | inl e => inl (invalid_argument (e : ConversionError)) end
  end.

(** A list of messages, each of which must convert. *)
Definition validate {A} `{!TryFrom W A} (l : list W) : Status + list A :=
  match try_from l with inr l => inr l | inl e => inl (invalid_argument (e : ConversionError)) end.

Definition read_account_ids (l : list Proto.AccountId) : Status + list AccountId := validate l.

Definition validate_nullifiers (l : list Proto.Digest) : Status + list Nullifier := validate l.

Definition validate_notes (l : list Proto.Digest) : Status + list NoteId := validate l.

Definition read_block_numbers (l : list N) : gset BlockNumber := list_to_set l.

Definition get_block_header_by_number (request : Proto.GetBlockHeaderByNumberRequest)
    : HM Proto.GetBlockHeaderByNumberResponse :=
  '(header, proof) ← map_err internal_error (Queries.get_block_header (Proto.hq_block_num request)
    (default false (Proto.hq_include_mmr_proof request)));
  mret (Proto.mk_block_header_response (into <$> header) ((λ p, into (mmr_proof_path p)) <$> proof)
    ((λ p, mmr_proof_forest p mod 2 ^ 32)%N <$> proof)).

(** ** [block_producer.rs] *)

Definition apply_block (faults : Faults) (request : Proto.ApplyBlockRequest) : HM unit :=
  match block_read (Proto.aq_block request) with
  | None => throw InvalidArgument
  | Some block => map_err apply_status (StoreState.apply_block faults block)
  end.

Definition get_block_inputs (request : Proto.GetBlockInputsRequest) : HM Proto.GetBlockInputsResponse :=
  ids ← try_status id (read_account_ids (Proto.kq_account_ids request));
  ns ← try_status id (validate_nullifiers (Proto.kq_nullifiers request));
  notes ← try_status id (validate_notes (Proto.kq_unauthenticated_notes request));
  let blocks := read_block_numbers (Proto.kq_reference_blocks request) in
  inputs ← map_err internal_error (Queries.get_block_inputs ids ns (list_to_set notes) blocks);
  mret (into inputs).

Definition get_batch_inputs (request : Proto.GetBatchInputsRequest) : HM Proto.GetBatchInputsResponse :=
  digests ← try_status invalid_argument (try_from (A := list Digest) (Proto.bq_note_ids request));
  inputs ← map_err internal_error (Queries.get_batch_inputs (list_to_set (Proto.bq_reference_blocks request))
    (list_to_set (note_id_of <$> digests)));
  mret (into inputs).

Definition nullifier_record (i : Sql.NullifierInfo) : Proto.NullifierTransactionInputRecord :=
  Proto.mk_nullifier_record (Some (into (Sql.ni_nullifier i))) (Sql.ni_block_num i).

Definition get_transaction_inputs (between : State → State) (request : Proto.GetTransactionInputsRequest)
    : HM Proto.GetTransactionInputsResponse :=
  account_id ← try_status id (read_account_id (Proto.tq_account_id request));
  ns ← try_status id (validate_nullifiers (Proto.tq_nullifiers request));
  notes ← try_status id (validate_notes (Proto.tq_unauthenticated_notes request));
  inputs ← map_err query_status (Queries.get_transaction_inputs account_id ns notes);
  _ ← modify between;
  block_height ← latest_block_num;
  mret (Proto.mk_tx_inputs_response
    (Some (Proto.mk_account_record (Some (into account_id)) (Some (into (Queries.ti_account_commitment inputs)))))
    (nullifier_record <$> Queries.ti_nullifiers inputs)
    (into (bt_iter (Queries.ti_found_unauthenticated_notes inputs)))
    block_height).

(** ** [ntx_builder.rs] *)

Definition get_current_blockchain_data (block_num : option N) : HM Proto.GetCurrentBlockchainDataResponse :=
  data ← map_err internal_error (Queries.get_current_blockchain_data block_num);
  mret match data with
       | Some (header, peaks) => Proto.mk_blockchain_data (into (peaks_list peaks)) (Some (into header))
       | None => Proto.mk_blockchain_data [] None
       end.

Definition get_network_account_details_by_prefix (account_id_prefix : N) : HM (option Proto.AccountInfo) :=
  prefix ← try_status invalid_argument (prefix_from_u32 (AccountId := AccountId) (NoteTag := unit) account_id_prefix);
  info ← map_err query_status (Queries.get_network_account_details_by_prefix prefix);
  mret (into <$> info).

(** A network note of a record; the unwrap of its details can panic. *)
Definition network_note (r : Sql.NoteRecord) : HM Proto.NetworkNote :=
  details ← expect_some (Sql.rec_details r) "called `Option::unwrap()` on a `None` value";
  let note := note_new details (Sql.rec_metadata r) in
  mret (Proto.mk_network_note (Some (into (note_metadata note))) (details_to_bytes (details_of note))).

Definition get_unconsumed_network_notes (request : Proto.GetUnconsumedNetworkNotesRequest)
    : HM Proto.GetUnconsumedNetworkNotesResponse :=
  if decide (Proto.page_size request = 0%N) then throw InvalidArgument else
  let page := Sql.mk_page (N.to_nat <$> Proto.page_token request) (N.to_nat (Proto.page_size request)) in
  '(notes, next_page) ← map_err internal_error (Queries.get_unconsumed_network_notes page);
  network_notes ← fold_m (λ acc r, n ← network_note r; mret (acc ++ [n])) [] notes;
  mret (Proto.mk_network_notes_response network_notes (N.of_nat <$> Sql.token next_page)).

(** ** [rpc_api.rs] *)

Definition check_nullifiers (request : Proto.CheckNullifiersRequest) : HM Proto.CheckNullifiersResponse :=
  ns ← try_status id (validate_nullifiers (Proto.cq_nullifiers request));
  proofs ← map_err internal_error (Queries.check_nullifiers ns);
  mret (Proto.mk_check_nullifiers_response (into proofs)).

Definition nullifier_update (i : Sql.NullifierInfo) : Proto.NullifierUpdate :=
  Proto.mk_nullifier_update (Some (into (Sql.ni_nullifier i))) (Sql.ni_block_num i).

Definition check_nullifiers_by_prefix (request : Proto.CheckNullifiersByPrefixRequest)
    : HM Proto.CheckNullifiersByPrefixResponse :=
  if decide (Proto.pq_prefix_len request ≠ 16%N) then throw InvalidArgument else
  infos ← map_err query_status (Queries.check_nullifiers_by_prefix (Proto.pq_prefix_len request)
    (Proto.pq_nullifiers request) (Proto.pq_block_num request));
  mret (Proto.mk_by_prefix_response (nullifier_update <$> infos)).

Definition transaction_summary (t : Sql.TransactionSummary) : Proto.TransactionSummary :=
  Proto.mk_transaction_summary (Some (into (Sql.ts_account_id t))) (Sql.ts_block_num t)
    (Some (into (Sql.ts_transaction_id t))).

(** [From<NoteSyncRecord>] and [From<NoteRecord>] of [db/mod.rs]. *)
Definition note_sync_record (n : Sql.NoteSyncRecord) : Proto.NoteSyncRecord :=
  Proto.mk_note_sync_record (leaf_index_value (Sql.sync_note_index n)) (Some (into (Sql.sync_note_id n)))
    (Some (into (Sql.sync_metadata n))) (Some (into (Sql.sync_merkle_path n))).

Definition committed_note (n : Sql.NoteRecord) : Proto.CommittedNote :=
  Proto.mk_committed_note
    (Some (Proto.mk_note_inclusion (Some (into (Sql.rec_note_id n))) (Sql.rec_block_num n)
      (leaf_index_value (Sql.rec_note_index n)) (Some (into (Sql.rec_merkle_path n)))))
    (Some (Proto.mk_note (Some (into (Sql.rec_metadata n))) (details_to_bytes <$> Sql.rec_details n))).

Definition sync_state (between : State → State) (request : Proto.SyncStateRequest) : HM Proto.SyncStateResponse :=
  ids ← try_status id (read_account_ids (Proto.sq_account_ids request));
  '(update, delta) ← map_err internal_error
    (Queries.sync_state (Proto.sq_block_num request) ids (Proto.sq_note_tags request));
  let accounts := into (Sql.ss_account_updates update) in
  let transactions := transaction_summary <$> Sql.ss_transactions update in
  let notes := note_sync_record <$> Sql.ss_notes update in
  _ ← modify between;
  chain_tip ← latest_block_num;
  mret (Proto.mk_sync_state_response chain_tip (Some (into (Sql.ss_block_header update))) (Some (into delta))
    accounts transactions notes).

Definition sync_notes (between : State → State) (request : Proto.SyncNoteRequest) : HM Proto.SyncNoteResponse :=
  '(update, mmr_proof) ← map_err internal_error
    (Queries.sync_notes (Proto.nq_block_num request) (Proto.nq_note_tags request));
  let notes := note_sync_record <$> Sql.ns_notes update in
  _ ← modify between;
  chain_tip ← latest_block_num;
  mret (Proto.mk_sync_note_response chain_tip (Some (into (Sql.ns_block_header update)))
    (Some (into (mmr_proof_path mmr_proof))) notes).

Definition get_notes_by_id (note_ids : list Proto.Digest) : HM (list Proto.CommittedNote) :=
  digests ← try_status invalid_argument (try_from (A := list Digest) note_ids);
  notes ← map_err query_status (Queries.get_notes_by_id (note_id_of <$> digests));
  mret (committed_note <$> notes).

Definition get_account_details (account_id : option Proto.AccountId) : HM (option Proto.AccountInfo) :=
  id ← try_status id (read_account_id account_id);
  info ← map_err query_status (Queries.get_account_details id);
  mret (Some (into info)).

Definition get_block_by_number (block_num : N) : HM (option bytes) :=
  block ← map_err query_status (Queries.load_block block_num);
  mret (raw_bytes <$> block).

Definition get_account_state_delta (request : Proto.GetAccountStateDeltaRequest) : HM (option bytes) :=
  id ← try_status id (read_account_id (Proto.dq_account_id request));
  delta ← map_err query_status
    (Queries.get_account_state_delta id (Proto.dq_from_block_num request) (Proto.dq_to_block_num request));
  mret (account_delta_to_bytes <$> delta).

End defs.

End StoreApi.
