(* ===== verification/StoreClient.v ===== *)
(** * The clients of the store

    Model of [StoreClient] of the block producer
    ([crates/block-producer/src/store/mod.rs]) and of the transaction builder
    ([crates/ntx-builder/src/store.rs]). The connection is an argument: the service
    that answers a request message, on a state of its own. *)

From S2P Require Import Prelude.
From S2P Require Import Bytes.
From S2P Require Import External.
From S2P Require Import Transaction.
From S2P Require Import Subscription.
From S2P Require Import NtxAccount.
From S2P Require Import StoreObjects.
From S2P Require Import StoreTrees.
From S2P Require Import StoreQueries.
From S2P Require Import WireObjects.
From S2P Require Import Wire.
From S2P Require Import StoreApi.
Import Wire.

Inductive StoreError : Type :=
| GrpcClientError (status : Status)
| MalformedResponse (what : string)
| ResponseConversionError (e : ConversionError).

Module StoreClient.

Section defs.
Context `{!MidenObjects} `{!NtxObjects} `{!StoreObjects} `{!StoreTrees} `{!WireObjects}.
Context {S : Type}.

Abbreviation CM := (M S StoreError).

(** [?] on a conversion. *)
Definition parse {A} (r : ConversionError + A) : CM A :=
  match r with inr a => mret a | inl e => throw (ResponseConversionError e) end.

(** [self.inner.clone().call(request).await?] *)
Definition call {Q R} (service : Q → M S Status R) (request : Q) : CM R := map_err GrpcClientError (service request).

(** ** The block producer's client *)

Definition latest_header (service : Proto.GetBlockHeaderByNumberRequest → M S Status Proto.GetBlockHeaderByNumberResponse)
    : CM BlockHeader :=
  response ← call service (Proto.mk_block_header_request None None);
  header ← parse (required "BlockHeader" "block_header" (Proto.hr_block_header response));
  parse (try_from header).

Definition tx_inputs_request (tx : ProvenTransaction) : Proto.GetTransactionInputsRequest :=
  Proto.mk_tx_inputs_request (Some (into (ptx_account_id tx))) (into (ptx_nullifiers tx))
    (into (ptx_unauthenticated_notes tx)).

Definition get_tx_inputs (service : Proto.GetTransactionInputsRequest → M S Status Proto.GetTransactionInputsResponse)
    (proven_tx : ProvenTransaction) : CM TransactionInputs :=
  response ← call service (tx_inputs_request proven_tx);
  tx_inputs ← parse (try_from (A := TransactionInputs) response);
  if decide (ti_account_id tx_inputs ≠ ptx_account_id proven_tx)
  then throw (MalformedResponse "incorrect account id returned from store")
  else mret tx_inputs.

Definition get_block_inputs (service : Proto.GetBlockInputsRequest → M S Status Proto.GetBlockInputsResponse)
    (updated_accounts : list AccountId) (created_nullifiers : list Nullifier) (unauthenticated_notes : list NoteId)
    (reference_blocks : list BlockNumber) : CM Queries.BlockInputs :=
  response ← call service (Proto.mk_block_inputs_request (into updated_accounts) (into created_nullifiers)
    (into unauthenticated_notes) reference_blocks);
  parse (try_from response).

Definition get_batch_inputs (service : Proto.GetBatchInputsRequest → M S Status Proto.GetBatchInputsResponse)
    (block_references : list (BlockNumber * Digest)) (notes : list NoteId) : CM Queries.BatchInputs :=
  response ← call service (Proto.mk_batch_inputs_request (into notes) block_references.*1);
  parse (try_from response).

Definition apply_block (service : Proto.ApplyBlockRequest → M S Status unit) (block : ProvenBlock) : CM unit :=
  call service (Proto.mk_apply_block_request (block_to_bytes block)).

(** ** The transaction builder's client *)

Definition genesis_header (service : Proto.GetBlockHeaderByNumberRequest → M S Status Proto.GetBlockHeaderByNumberResponse)
    : CM BlockHeader :=
  response ← call service (Proto.mk_block_header_request (Some 0%N) None);
  header ← parse (required "BlockHeader" "block_header" (Proto.hr_block_header response));
  parse (try_from header).

(** The milliseconds to wait before retry number [retry_counter]. The shift is on 32
    bits: by more than 31 bits it panics. *)
Definition backoff {T E} (retry_counter : N) : M T E N :=
  _ ← assert_ (retry_counter <? 32)%N "attempt to shift left with overflow";
  mret ((500 * N.shiftl 1 retry_counter) `min` 30000)%N.

(** The state holds the waits so far, latest first. *)
Definition waiting {T A} (m : M T StoreError A) : M (T * list N) StoreError A :=
  zoom fst (λ t s, (t, s.2)) m.

Fixpoint genesis_header_with_retry_from (fuel : nat) (retry_counter : N)
    (service : Proto.GetBlockHeaderByNumberRequest → M S Status Proto.GetBlockHeaderByNumberResponse)
    : M (S * list N) StoreError BlockHeader :=
  match fuel with
  | O => out_of_fuel
  | Datatypes.S fuel => λ s,
    match waiting (genesis_header service) s with
    | (s', Err (GrpcClientError _)) =>
      (ms ← backoff retry_counter;
       _ ← modify (λ s : S * list N, (s.1, ms :: s.2));
       genesis_header_with_retry_from fuel (retry_counter + 1) service) s'
    | result => result
    end
  end.

Definition genesis_header_with_retry fuel service := genesis_header_with_retry_from fuel 0 service.

Definition get_current_blockchain_data (service : option N → M S Status Proto.GetCurrentBlockchainDataResponse)
    (block_num : option BlockNumber) : CM (option (BlockHeader * PartialMmr)) :=
  response ← call service block_num;
  match Proto.current_block_header response with
  | Some block =>
    peaks ← parse (try_from (A := list Digest) (Proto.current_peaks response));
    header ← parse (try_from (A := BlockHeader) block);
    match peaks_new (header_block_num header) peaks with
    | Some peaks => mret (Some (header, partial_mmr_of_peaks peaks))
    | None => throw (MalformedResponse "returned peaks are not valid for the sent request")
    end
  | None => mret None
  end.

(** The loop over the pages. *)
Fixpoint unconsumed_pages (fuel : nat) (page_token : option N) (all_notes : list NetworkNote)
    (service : Proto.GetUnconsumedNetworkNotesRequest → M S Status Proto.GetUnconsumedNetworkNotesResponse)
    : CM (list NetworkNote) :=
  match fuel with
  | O => out_of_fuel
  | Datatypes.S fuel =>
    resp ← call service (Proto.mk_network_notes_request page_token 128);
    page ← parse (try_from (A := list NetworkNote) (Proto.network_notes resp));
    let all_notes := all_notes ++ page in
    match Proto.next_token resp with
    | Some tok => unconsumed_pages fuel (Some tok) all_notes service
    | None => mret all_notes
    end
  end.

Definition get_unconsumed_network_notes fuel service := unconsumed_pages fuel None [] service.

Definition get_network_account (service : N → M S Status (option Proto.AccountInfo)) (prefix : N) : CM (option Account) :=
  response ← call service prefix;
  match Proto.ai_details <$> response with
  | Some (Some details) =>
    account ← parse (or_fail (DeserializationError "account") (acc_read details));
    mret (Some account)
  | _ => mret None
  end.

End defs.

End StoreClient.
