(* ===== verification/NtxTransaction.v ===== *)
(** * The execution of a network transaction

    Model of [crates/ntx-builder/src/transaction.rs]: [NtxContext] and its data store,
    and of the transaction builder's client of the block producer,
    [crates/ntx-builder/src/block_producer.rs]. Execution and proving are the
    library's; the block producer is a service on a state of its own. *)

From S2P Require Import Prelude.
From S2P Require Import Bytes.
From S2P Require Import External.
From S2P Require Import Subscription.
From S2P Require Import NtxAccount.
From S2P Require Import NtxState.
From S2P Require Import StoreObjects.
From S2P Require Import StoreTrees.
From S2P Require Import WireObjects.
From S2P Require Import Wire.
From S2P Require Import StoreApi.
From S2P Require Import StoreClient.

Import NtxState.

(** An input note of a transaction; the builder has only unauthenticated ones. *)
Inductive InputNote `{!MidenObjects} : Type := Unauthenticated (note : Note).

(** What the library's check of the notes answers. *)
Inductive NoteAccountExecution (NoteId Error : Type) : Type :=
| Success
| Failure (successful_notes : list NoteId) (error : option Error).
Arguments Success {_ _}.
Arguments Failure {_ _}.

Inductive DataStoreError `{!MidenObjects} : Type :=
| DsAccountNotFound (id : AccountId)
| DsBlockNotFound (block : BlockNumber)
| DsOther (msg : string).

Class TxObjects `{!MidenObjects} `{!NtxObjects} `{!StoreObjects} := {
  input_note_id : Note → NoteId;
  TransactionInputError : Type;
  TransactionExecutorError : Type;
  TransactionProverError : Type;
  ExecutedTransaction : Type;
  PartialBlockchain : Type;
  partial_blockchain_default : PartialBlockchain;
  ptx_to_bytes : ProvenTransaction → Bytes;
  (** [InputNotes::new]: the notes it refuses. *)
  input_notes_new : list InputNote → TransactionInputError + list InputNote;
  (** [NoteConsumptionChecker::check_notes_consumability] and
      [TransactionExecutor::execute_transaction] with the data store as an argument:
      what its [get_transaction_inputs] answers. *)
  check_notes_consumability :
    (AccountId → gset BlockNumber → DataStoreError + (Account * option Word * BlockHeader * PartialBlockchain)) →
    AccountId → BlockNumber → list InputNote →
    TransactionExecutorError + NoteAccountExecution NoteId TransactionExecutorError;
  executor_execute_transaction :
    (AccountId → gset BlockNumber → DataStoreError + (Account * option Word * BlockHeader * PartialBlockchain)) →
    AccountId → BlockNumber → list InputNote → TransactionExecutorError + ExecutedTransaction;
  (** [LocalTransactionProver::prove]. *)
  local_prove : ExecutedTransaction → TransactionProverError + ProvenTransaction;
}.

(** Documented behaviour: the input notes are those given, and the notes that the
    check reports as successful are among those it was given. *)
Class TxLaws `{!MidenObjects} `{!NtxObjects} `{!StoreObjects} `{!TxObjects} : Prop := {
  input_notes_new_spec l l' : input_notes_new l = inr l' → l' = l;
  check_successful ds id bn l ids e :
    check_notes_consumability ds id bn l = inr (Failure ids e) →
    NoDup ids ∧ ∀ i, i ∈ ids → i ∈ (λ '(Unauthenticated note), input_note_id note) <$> l;
}.

Module NtxTransaction.

Section defs.
Context `{!MidenObjects} `{!NtxObjects} `{!StoreObjects} `{!TxObjects}.
(** The state of the block producer's service. *)
Context {S : Type}.

Inductive NtxError : Type :=
| InputNotes (e : TransactionInputError)
| NoteFilter (e : TransactionExecutorError)
| NoViableNotes
| Execution (e : TransactionExecutorError)
| Proving (e : TransactionProverError)
| Submission (e : Status)
| Panicked.

Record NtxContext := mk_context {
  (** [BlockProducerClient]: the service it is connected to. *)
  block_producer : Bytes → M S Status unit;
  (** The remote prover, if one is configured. *)
  prover : option (ExecutedTransaction → TransactionProverError + ProvenTransaction);
  genesis_header : BlockHeader;
}.

Abbreviation TM := (M S NtxError).

(** [map_err(f)?] on a result of the library. *)
Definition try_with {E A} (f : E → NtxError) (r : E + A) : TM A :=
  match r with inr a => mret a | inl e => throw (f e) end.

(** [spawn_blocking(..).await]: a panic of the closure becomes an error. *)
Definition spawn_blocking {A} (m : TM A) : TM A := λ s,
  match m s with
  | (s', Panic _) => (s', Err Panicked)
  | r => r
  end.

(** ** The data store *)

Record NtxDataStore := mk_data_store {
  ds_account : Account;
  ds_genesis_header : BlockHeader;
}.

(** The greatest block number of a set. *)
Definition set_last (s : gset BlockNumber) : option BlockNumber := last (bt_iter (Key0 := N_key) s).

Definition get_transaction_inputs (ds : NtxDataStore) (account_id : AccountId) (ref_blocks : gset BlockNumber)
    : DataStoreError + (Account * option Word * BlockHeader * PartialBlockchain) :=
  if decide (acc_id (ds_account ds) ≠ account_id) then inl (DsAccountNotFound account_id) else
  match set_last ref_blocks with
  | Some 0%N => inr (ds_account ds, None, ds_genesis_header ds, partial_blockchain_default)
  | Some other => inl (DsBlockNotFound other)
  | None => inl (DsOther "no reference block requested")
  end.

(** ** The pipeline *)

Definition note_id_of (note : InputNote) : NoteId := let '(Unauthenticated note) := note in input_note_id note.

(** The notes with the ids, in the order of the ids; the unwrap can panic. *)
Definition find_notes (notes : list InputNote) (ids : list NoteId) : TM (list InputNote) :=
  fold_m (λ acc id,
    note ← expect_some (head (filter (λ note, note_id_of note = id) notes)) "called `Option::unwrap()` on a `None` value";
    mret (acc ++ [note])) [] ids.

Definition filter_notes (ds : NtxDataStore) (notes : list InputNote) : TM (list InputNote) :=
  notes ←
    match check_notes_consumability (get_transaction_inputs ds) (acc_id (ds_account ds)) 0%N notes with
    | inr Success => mret notes
    | inr (Failure successful_notes _) => find_notes notes successful_notes
    | inl err => throw (NoteFilter err)
    end;
  if decide (notes = []) then throw NoViableNotes else mret notes.

Definition execute (ds : NtxDataStore) (notes : list InputNote) : TM ExecutedTransaction :=
  try_with Execution (executor_execute_transaction (get_transaction_inputs ds) (acc_id (ds_account ds)) 0%N notes).

Definition prove (ctx : NtxContext) (tx : ExecutedTransaction) : TM ProvenTransaction :=
  try_with Proving (match prover ctx with Some remote => remote tx | None => local_prove tx end).

(** [BlockProducerClient::submit_proven_transaction] *)
Definition submit_proven_transaction (service : Bytes → M S Status unit) (proven_tx : ProvenTransaction) : M S Status unit :=
  service (ptx_to_bytes proven_tx).

Definition submit (ctx : NtxContext) (tx : ProvenTransaction) : TM unit :=
  map_err Submission (submit_proven_transaction (block_producer ctx) tx).

(** [shuffle] permutes the notes at random. *)
Definition execute_transaction (ctx : NtxContext) (shuffle : list InputNote → list InputNote) (tx : TransactionCandidate)
    : TM unit :=
  spawn_blocking (
    let notes := shuffle ((λ note, Unauthenticated (network_note_inner note)) <$> candidate_notes tx) in
    notes ← try_with InputNotes (input_notes_new notes);
    let data_store := mk_data_store (candidate_account tx) (genesis_header ctx) in
    notes ← filter_notes data_store notes;
    tx ← execute data_store notes;
    tx ← prove ctx tx;
    submit ctx tx).

End defs.

Arguments NtxContext {_ _ _ _} S.

(** ** The subscription to the mempool *)

Section subscribe.
Context `{!MidenObjects} `{!NtxObjects} `{!StoreObjects} `{!StoreTrees} `{!WireObjects}.
Context {S Stream : Type}.

(** [subscribe_to_mempool]: the request carries the chain tip. *)
Definition subscribe_to_mempool (service : N → M S Status Stream) (chain_tip : BlockNumber) : M S Status Stream :=
  service chain_tip.

(** The loop of [subscribe_to_mempool_with_retry]; the state holds the waits so far. *)
Fixpoint subscribe_with_retry_from (fuel : nat) (retry_counter : N) (service : N → M S Status Stream)
    (chain_tip : BlockNumber) : M (S * list N) Status Stream :=
  match fuel with
  | O => out_of_fuel
  | Datatypes.S fuel => λ s,
    match zoom fst (λ t s, (t, s.2)) (subscribe_to_mempool service chain_tip) s with
    | (s', Err Unavailable) =>
      (ms ← StoreClient.backoff retry_counter;
       _ ← modify (λ s : S * list N, (s.1, ms :: s.2));
       subscribe_with_retry_from fuel (retry_counter + 1) service chain_tip) s'
    | result => result
    end
  end.

Definition subscribe_to_mempool_with_retry fuel service chain_tip := subscribe_with_retry_from fuel 0 service chain_tip.

(** An item of the stream: [map_ok(MempoolEvent::try_from)] and [flatten_result]. A
    failed conversion is a status, as is a failed stream. *)
Definition stream_item (item : Status + Proto.MempoolEvent) : Status + MempoolEvent :=
  match item with
  | inl status => inl status
  | inr event => match Wire.event_try_from event with inr event => inr event | inl _ => inl InvalidArgument end
  end.

End subscribe.

End NtxTransaction.

(** ** What the execution of a candidate submits *)

Import NtxState.
Import NtxTransaction.

Section theorems.
Context `{!MidenObjects} `{!NtxObjects} `{!StoreObjects} `{!TxObjects} `{!TxLaws} {S : Type}.
Implicit Types (ctx : NtxContext S) (tx : TransactionCandidate) (ds : NtxDataStore) (s : S).

Abbreviation TM := (M S NtxError).

(** ** The data store *)

Lemma set_last_genesis (refs : gset BlockNumber) : set_last refs = Some 0%N ↔ refs = {[ 0%N ]}.
Proof.
  unfold set_last. split.
  - intros Hl. assert (∀ n, n ∈ refs ↔ n ∈ bt_iter (Key0 := N_key) refs) as Hel.
    { intros n. symmetry. exact (elem_of_bt_iter (K := N) refs n). }
    apply set_eq. intros n. rewrite elem_of_singleton, Hel. split.
    + intros Hn. pose proof (sorted_bt_iter (K := N) refs) as Hs. apply last_Some in Hl as [l Hl]. rewrite Hl in Hn, Hs.
      apply elem_of_app in Hn as [Hn|Hn%list_elem_of_singleton]; [|done].
      assert (key_le n 0%N) as Hle.
      { clear Hl. induction l as [|m l IH]; [by apply not_elem_of_nil in Hn|]. cbn in Hs.
        apply StronglySorted_cons in Hs as [Hall Hs]. apply elem_of_cons in Hn as [->|Hn]; [|by apply IH].
        rewrite Forall_forall in Hall. apply Hall. set_solver. }
      cbn in Hle. lia.
    + intros ->. by apply last_Some_elem_of.
  - intros ->. unfold bt_iter. by rewrite elements_singleton.
Qed.

Lemma data_store_spec ds id refs r :
  get_transaction_inputs ds id refs = inr r ↔
    id = acc_id (ds_account ds) ∧ refs = {[ 0%N ]} ∧
    r = (ds_account ds, None, ds_genesis_header ds, partial_blockchain_default).
Proof.
  unfold get_transaction_inputs. rewrite <- set_last_genesis. case_decide as Hid; [naive_solver|].
  destruct (set_last refs) as [[|n]|]; naive_solver.
Qed.

(** ** Filtering the notes *)

(** The candidate's notes as inputs. *)
Definition candidate_inputs tx : list InputNote := (λ note, Unauthenticated (network_note_inner note)) <$> candidate_notes tx.

Lemma find_notes_spec (l : list InputNote) ids s :
  (∀ i, i ∈ ids → i ∈ note_id_of <$> l) →
  ∃ found, (find_notes l ids : TM _) s = (s, Ok found) ∧ note_id_of <$> found = ids ∧ Forall (.∈ l) found.
Proof.
  intros Hids.
  enough (wp_ok (find_notes l ids : TM _) s (λ s' found, s' = s ∧ note_id_of <$> found = ids ∧ Forall (.∈ l) found)) as Hwp.
  { apply wp_ok_run in Hwp as (s' & found & Hrun & -> & Hf). exists found. by split. }
  apply (wp_fold_m_ok (λ pre s' found, s' = s ∧ note_id_of <$> found = pre ∧ Forall (.∈ l) found)); [by split_and!| |done].
  intros pre i rest s' found Hpre (-> & Hf & Hall).
  assert (i ∈ note_id_of <$> l) as (note & -> & Hin)%list_elem_of_fmap by (apply Hids; rewrite Hpre; set_solver).
  assert (note ∈ filter (λ x, note_id_of x = note_id_of note) l) as Hfil by by apply list_elem_of_filter.
  destruct (filter (λ x, note_id_of x = note_id_of note) l) as [|found1 rest'] eqn:He; [by apply not_elem_of_nil in Hfil|].
  assert (found1 ∈ filter (λ x, note_id_of x = note_id_of note) l) as [Hid Hl]%list_elem_of_filter by (rewrite He; by left).
  rewrite wp_bind. apply (wp_expect_some _ found1); [done|]. wp_steps. split_and!; [done| |].
  - by rewrite fmap_app, Hf, <- Hid.
  - apply Forall_app. split; [done|]. by constructor.
Qed.

(** What the library's check lets through. *)
Definition passes ds (inputs notes : list InputNote) : Prop :=
  match check_notes_consumability (get_transaction_inputs ds) (acc_id (ds_account ds)) 0%N inputs with
  | inr Success => notes = inputs
  | inr (Failure ids _) => note_id_of <$> notes = ids ∧ notes ⊆+ inputs
  | inl _ => False
  end.

Lemma filter_notes_spec ds inputs s :
  match (filter_notes ds inputs : TM _) s with
  | (s', Ok notes) => s' = s ∧ notes ≠ [] ∧ passes ds inputs notes
  | (s', Err (NoteFilter e)) =>
    s' = s ∧ check_notes_consumability (get_transaction_inputs ds) (acc_id (ds_account ds)) 0%N inputs = inl e
  | (s', Err NoViableNotes) => s' = s ∧ passes ds inputs []
  | _ => False
  end.
Proof.
  unfold filter_notes, passes, mbind, M_bind.
  destruct (check_notes_consumability (get_transaction_inputs ds) (acc_id (ds_account ds)) 0%N inputs) as [e|[|ids e]] eqn:Hc;
    [done| |]; cbn.
  - by case_decide; subst.
  - apply check_successful in Hc as [Hnd Hids]. destruct (find_notes_spec inputs ids s Hids) as (found & -> & Hf & Hall).
    assert (found ⊆+ inputs) as Hsub.
    { apply NoDup_submseteq; [|by apply Forall_forall]. apply (NoDup_fmap_1 note_id_of). by rewrite Hf. }
    by case_decide; subst.
Qed.

(** ** The pipeline *)

(** The outcome of the submission of [proven], its panics caught. *)
Definition submission ctx (proven : ProvenTransaction) s : S * res NtxError unit :=
  match block_producer ctx (ptx_to_bytes proven) s with
  | (s', Ok a) => (s', Ok a)
  | (s', Err e) => (s', Err (Submission e))
  | (s', Panic _) => (s', Err Panicked)
  | (s', OutOfFuel) => (s', OutOfFuel)
  end.

(** C37: What the transaction builder submits for a candidate. Its execution never
    panics the builder. It contacts the block producer at most once, with the bytes
    of the proof of a transaction that executes, against the candidate's account,
    notes that the library's check accepts: all of the candidate's notes, in some
    order, or those of them that the check names, at least one in any case. Otherwise
    nothing is submitted, and the error names the step that failed. The execution can
    read the candidate's account at the genesis block, and nothing else. *)
Theorem ntx_execute_transaction ctx (shuffle : list InputNote → list InputNote) tx s
    (Hperm : ∀ l, shuffle l ≡ₚ l) :
  let ds := mk_data_store (candidate_account tx) (genesis_header ctx) in
  let inputs := shuffle (candidate_inputs tx) in
  let read := get_transaction_inputs ds in
  (∀ id refs r, read id refs = inr r ↔
    id = acc_id (candidate_account tx) ∧ refs = {[ 0%N ]} ∧
    r = (candidate_account tx, None, genesis_header ctx, partial_blockchain_default)) ∧
  ((∃ notes executed proven,
    notes ≠ [] ∧ notes ⊆+ candidate_inputs tx ∧ passes ds inputs notes ∧
    executor_execute_transaction read (acc_id (candidate_account tx)) 0%N notes = inr executed ∧
    match prover ctx with Some remote => remote executed | None => local_prove executed end = inr proven ∧
    execute_transaction ctx shuffle tx s = submission ctx proven s) ∨
  ∃ e, execute_transaction ctx shuffle tx s = (s, Err e) ∧
    match e with
    | InputNotes e => input_notes_new inputs = inl e
    | NoteFilter e => check_notes_consumability read (acc_id (candidate_account tx)) 0%N inputs = inl e
    | NoViableNotes => passes ds inputs []
    | Execution e => ∃ notes, passes ds inputs notes ∧
        executor_execute_transaction read (acc_id (candidate_account tx)) 0%N notes = inl e
    | Proving e => ∃ executed,
        match prover ctx with Some remote => remote executed | None => local_prove executed end = inl e
    | Submission _ | Panicked => False
    end).
Proof.
  intros ds inputs read. split; [intros; apply (data_store_spec ds)|].
  unfold execute_transaction, spawn_blocking. fold (candidate_inputs tx). fold inputs.
  destruct (input_notes_new inputs) as [e|l] eqn:Hnew; [right; by exists (InputNotes e)|].
  pose proof (input_notes_new_spec _ _ Hnew) as ->. cbn [try_with]. unfold mbind, M_bind, mret, M_ret. fold ds.
  pose proof (filter_notes_spec ds inputs s) as Hf.
  destruct ((filter_notes ds inputs : TM _) s) as [s' [notes|e|p|]]; [..|done|done].
  - destruct Hf as (-> & Hne & Hpass).
    assert (notes ⊆+ candidate_inputs tx) as Hsub.
    { rewrite <- (Hperm (candidate_inputs tx)). fold inputs. unfold passes in Hpass.
      destruct (check_notes_consumability _ _ _ _) as [|[]]; naive_solver. }
    unfold execute. change (acc_id (ds_account ds)) with (acc_id (candidate_account tx)). fold read.
    destruct (executor_execute_transaction read (acc_id (candidate_account tx)) 0 notes) as [e|executed] eqn:He.
    { right. exists (Execution e). cbn. split; [done|]. by exists notes. }
    cbn [try_with]. unfold mret, M_ret, prove.
    destruct (match prover ctx with Some remote => remote executed | None => local_prove executed end) as [e|proven] eqn:Hp.
    { right. exists (Proving e). cbn. split; [done|]. by exists executed. }
    left. exists notes, executed, proven. split_and!; try done. cbn. unfold submission, submit, map_err, submit_proven_transaction.
    by destruct (block_producer ctx (ptx_to_bytes proven) s) as [s' []].
  - right. destruct e; try done; destruct Hf as [-> Hf].
    + by exists (NoteFilter e).
    + by exists NoViableNotes.
Qed.

End theorems.
