(* ===== verification/StoreApiTheorems.v ===== *)
(** * The store behind its services

    What a client of the store receives, against what the store's tables say. *)

From S2P Require Import Prelude.
From S2P Require Import Bytes.
From S2P Require Import External.
From S2P Require Import Transaction.
From S2P Require Import NtxAccount.
From S2P Require Import StoreObjects.
From S2P Require Import StoreSql.
From S2P Require Import StoreRead.
From S2P Require Import StoreTrees.
From S2P Require Import StoreProofs.
From S2P Require Import StoreState.
From S2P Require Import StoreApply.
From S2P Require Import StoreQueries.
From S2P Require Import StoreReads.
From S2P Require Import WireObjects.
From S2P Require Import Wire.
From S2P Require Import WireTheorems.
From S2P Require Import StoreApi.
From S2P Require Import StoreClient.
Import Sql.
Import StoreState.
Import Wire.

Section api.
Context `{!MidenObjects} `{!NtxObjects} `{!StoreObjects} `{!StoreTrees} `{!WireObjects}.
Context `{!MidenLaws} `{!StoreLaws} `{!TreeLaws} `{!WireLaws}.
Implicit Types (s : State) (t : Tables) (tx : ProvenTransaction).

(** ** Reading rows *)

Lemma select_note_ids_spec s ids :
  consistent s →
  match Queries.select_note_ids ids s with
  | (s', Ok found) => s' = s ∧ ∀ id, id ∈ found ↔ id ∈ ids ∧ id ∈ nr_note_id <$> notes (db s)
  | (s', Err e) => s' = s ∧ StoreApi.query_status e = Internal ∧
      (note_id_limit < length ids ∨ ∃ row, row ∈ notes (db s) ∧ nr_note_id row ∈ ids ∧ ¬ readable row)
  | _ => False
  end.
Proof.
  intros Hc. unfold Queries.select_note_ids, query, zoom, map_err, transact, mbind at 1, M_bind at 1.
  unfold Read.select_notes_by_id, check_limit, mbind at 1, M_bind at 1.
  assert (set_db (db s) s = s) as Hset by by destruct s.
  destruct (decide (note_id_limit < length ids)) as [Hl|Hl].
  { cbn. rewrite Hset. naive_solver. }
  cbn [mret M_ret]. unfold mret, M_ret. unfold mbind at 1, M_bind at 1, get.
  set (rows := filter (λ row, nr_note_id row ∈ ids) (notes (db s))).
  destruct (collect_cases Read.note_from_row (db s) (λ row, ¬ readable row)
    (SqliteError "integer out of range") rows) as [(recs & Hrecs & ->)|[(row & Hrow & Hr) ->]].
  { intros row [_ Hrow]%list_elem_of_filter.
    pose proof (note_from_row_cases (db s) row (proj1 (Forall_forall _ _) (ok_notes _ (con_tables _ Hc)) _ Hrow)) as Hx.
    case_decide; naive_solver. }
  - rewrite Hset. split; [done|]. intros id. rewrite elem_of_list_to_set, list_elem_of_fmap.
    assert (rec_note_id <$> recs = nr_note_id <$> rows) as Hids.
    { assert (∀ row, row ∈ rows → row ∈ notes (db s)) as Hsub by (by intros row [_ ?]%list_elem_of_filter).
      clearbody rows. induction Hrecs as [|row r rows recs Hrow _ IH]; [done|]. cbn.
      rewrite IH by (intros; apply Hsub; by right). f_equal.
      pose proof (note_from_row_cases (db s) row (proj1 (Forall_forall _ _) (ok_notes _ (con_tables _ Hc)) _
        (Hsub _ (list_elem_of_here _ _)))) as Hx.
      unfold converts in *. case_decide; [|by rewrite Hrow in Hx]. destruct Hx as (r' & Hr' & <-).
      rewrite Hrow in Hr'. by injection Hr' as <-. }
    rewrite <- list_elem_of_fmap, Hids, !list_elem_of_fmap. unfold rows. split.
    + intros (row & -> & [Hin Hrow]%list_elem_of_filter). split; [done|]. by exists row.
    + intros [Hin (row & -> & Hrow)]. exists row. split; [done|]. by apply list_elem_of_filter.
  - rewrite Hset. split_and!; [done|done|]. right. exists row.
    unfold rows in Hrow. apply list_elem_of_filter in Hrow. naive_solver.
Qed.

(** ** Requests and responses *)

Lemma read_account_id_into (i : AccountId) : StoreApi.read_account_id (Some (into i)) = inr i.
Proof. unfold StoreApi.read_account_id. by rewrite round_trip. Qed.

Lemma validate_into {A W} `{!Into A W} `{!TryFrom W A} `{!RoundTrip A W} (l : list A) :
  StoreApi.validate (into l) = inr l.
Proof. unfold StoreApi.validate. by rewrite (round_trip (A := list A)). Qed.

Lemma insert_records_into (f : Nullifier → BlockNumber) ns m :
  insert_records (StoreApi.nullifier_record <$> ((λ n, mk_nullifier_info n (f n)) <$> ns)) m =
    inr (foldl (λ m n, <[n := non_zero (f n)]> m) m ns).
Proof.
  revert m. induction ns as [|n ns IH]; intros m; [done|]. cbn [fmap list_fmap insert_records foldl].
  change (nullifier_record_try_from (StoreApi.nullifier_record (mk_nullifier_info n (f n)))) with
    (n' ← try_from (A := Nullifier) (into n); mret (n', non_zero (f n)) : ConversionError + Nullifier * option positive).
  rewrite round_trip, !sum_bind_inr. apply IH.
Qed.

Lemma lookup_inserted {B} (f : Nullifier → B) ns (m : gmap Nullifier B) n :
  foldl (λ m n, <[n := f n]> m) m ns !! n = if decide (n ∈ ns) then Some (f n) else m !! n.
Proof.
  revert m. induction ns as [|n' ns IH]; intros m; [done|]. cbn [foldl]. rewrite IH.
  destruct (decide (n = n')) as [->|Hne].
  - rewrite (decide_True (P := n' ∈ n' :: ns)) by left. by case_decide; [|rewrite lookup_insert_eq].
  - rewrite lookup_insert_ne by done. destruct (decide (n ∈ ns)); [rewrite decide_True by (by right)|rewrite decide_False]; set_solver.
Qed.

(** What the tables say of an account and of a nullifier. *)
Definition account_state_of t (i : AccountId) : option Digest := account_commitment <$> accounts t !! i.

Definition spent_at t (n : Nullifier) : option positive := nullifiers t !! n ≫= λ r, non_zero r.2.

Lemma spent_at_None t n : tables_ok t → spent_at t n = None ↔ nullifiers t !! n = None.
Proof.
  intros Hok. unfold spent_at. destruct (nullifiers t !! n) as [[p bn]|] eqn:Hn; [|done]. cbn.
  destruct (ok_nullifiers _ Hok _ _ _ Hn) as [Hbn _]. by destruct bn.
Qed.

Lemma tree_spent_at s n :
  consistent s → non_zero (default 0%N (nt_get_block_num (nullifier_tree (inner s)) n)) = spent_at (db s) n.
Proof.
  intros [Hok Hm]. rewrite nt_get_spec, (mir_nullifiers _ _ Hm), lookup_fmap. unfold spent_at.
  by destruct (nullifiers (db s) !! n).
Qed.

(** The response to a request for the inputs of a transaction. *)
Definition inputs_of s (height : BlockNumber) tx (found : gset NoteId) : TransactionInputs :=
  mk_transaction_inputs (ptx_account_id tx) (account_state_of (db s) (ptx_account_id tx))
    (foldl (λ m n, <[n := spent_at (db s) n]> m) ∅ (ptx_nullifiers tx)) found height.

Lemma tx_inputs_response s tx (found : gset NoteId) height :
  consistent s →
  try_from (Proto.mk_tx_inputs_response
    (Some (Proto.mk_account_record (Some (into (ptx_account_id tx)))
      (Some (into (at_get (account_tree (inner s)) (ptx_account_id tx))))))
    (StoreApi.nullifier_record <$>
      ((λ n, mk_nullifier_info n (default 0%N (nt_get_block_num (nullifier_tree (inner s)) n))) <$> ptx_nullifiers tx))
    (into (bt_iter found)) height) = inr (inputs_of s height tx found).
Proof.
  intros Hc. change ((a ← try_from (A := AccountId) (into (ptx_account_id tx));
    c ← try_from (A := Digest) (into (at_get (account_tree (inner s)) (ptx_account_id tx)));
    mret (mk_account_state a (if decide (c = digest_default) then None else Some c))) ≫= (λ st,
    ns ← insert_records (StoreApi.nullifier_record <$>
      ((λ n, mk_nullifier_info n (default 0%N (nt_get_block_num (nullifier_tree (inner s)) n))) <$> ptx_nullifiers tx)) ∅;
    found ← try_from (A := list NoteId) (into (bt_iter found));
    mret (mk_transaction_inputs (st_account_id st) (st_account_commitment st) ns (list_to_set found) height))
    = inr (inputs_of s height tx found)).
  rewrite insert_records_into, !round_trip, !sum_bind_inr. cbn [st_account_id st_account_commitment mret sum_ret].
  unfold mret, sum_ret. rewrite !sum_bind_inr, list_to_set_bt_iter. unfold inputs_of. do 2 f_equal.
  - pose proof Hc as [Hok Hm]. rewrite (mir_accounts _ _ Hm). unfold account_state_of.
    destruct (accounts (db s) !! ptx_account_id tx) as [row|] eqn:Hrow; cbn.
    + by rewrite decide_False by (by eapply ok_accounts).
    + by rewrite decide_True.
  - apply map_eq. intros n. rewrite !lookup_inserted. by rewrite tree_spent_at.
Qed.

(** The run of a request for the inputs of a transaction. *)
Lemma tx_inputs_run s between tx :
  consistent s → consistent (between s) →
  match StoreClient.get_tx_inputs (StoreApi.get_transaction_inputs between) tx s with
  | (s', Ok i) => s' = between s ∧ ∃ height found, is_tip (db (between s)) height ∧
      (∀ id, id ∈ found ↔ id ∈ ptx_unauthenticated_notes tx ∧ id ∈ nr_note_id <$> notes (db s)) ∧
      i = inputs_of s height tx found
  | (s', Err e) => s' = s ∧ e = GrpcClientError Internal ∧
      (note_id_limit < length (ptx_unauthenticated_notes tx) ∨
       ∃ row, row ∈ notes (db s) ∧ nr_note_id row ∈ ptx_unauthenticated_notes tx ∧ ¬ readable row)
  | _ => False
  end.
Proof.
  intros Hc Hb. unfold StoreClient.get_tx_inputs, StoreClient.call, mbind at 1, M_bind at 1, map_err at 1.
  unfold StoreApi.get_transaction_inputs, StoreClient.tx_inputs_request.
  cbn [Proto.tq_account_id Proto.tq_nullifiers Proto.tq_unauthenticated_notes].
  unfold StoreApi.validate_nullifiers, StoreApi.validate_notes.
  rewrite read_account_id_into, !validate_into. cbn [StoreApi.try_status].
  unfold mbind at 1 2 3, M_bind at 1 2 3, mret at 1 2 3, M_ret at 1 2 3.
  unfold mbind at 1, M_bind at 1, map_err at 1, Queries.get_transaction_inputs.
  unfold mbind at 1, M_bind at 1, get. unfold mbind at 1, M_bind at 1.
  pose proof (select_note_ids_spec s (ptx_unauthenticated_notes tx) Hc) as Hfound.
  destruct (Queries.select_note_ids _ s) as [s1 [found|e| |]];
    [|destruct Hfound as (-> & He & Hl); rewrite He; done|done|done].
  destruct Hfound as [-> Hfound]. cbn [mret M_ret]. unfold mret, M_ret.
  unfold mbind at 1, M_bind at 1, modify. unfold latest_block_num, mbind at 1, M_bind at 1, mbind at 1, M_bind at 1, get, expect_some.
  destruct (ok_headers _ (con_tables _ Hb)) as [tip Htip].
  rewrite (mirrors_tip _ _ _ (con_mirrors _ Hb) Htip). unfold mret, M_ret.
  unfold mbind at 1, M_bind at 1, StoreClient.parse.
  cbn [Queries.ti_account_commitment Queries.ti_nullifiers Queries.ti_found_unauthenticated_notes].
  rewrite tx_inputs_response by done. unfold mret, M_ret. cbn [ti_account_id inputs_of].
  rewrite decide_False by (by intros []). split; [done|]. by exists tip, found.
Qed.

(** C31: The block producer checks a transaction against what the store's tables say.
    The answer it receives to its query names the transaction's own account; it has
    the commitment in the table of accounts, or none if the account is not there; for
    each nullifier of the transaction the block that spent it, or none, and no other
    nullifiers; and those of the unauthenticated notes that are stored. The chain tip
    it names is read afterwards, so it can be newer than the rest. The query never
    makes the store panic and never yields a malformed answer; it fails only if it is
    about more than 1000 notes, or about a note whose stored [aux] value cannot be
    read. *)
Theorem client_tx_inputs s between tx (Hc : consistent s) (Hb : consistent (between s)) :
  match StoreClient.get_tx_inputs (StoreApi.get_transaction_inputs between) tx s with
  | (s', Ok i) => s' = between s ∧ ti_account_id i = ptx_account_id tx ∧
      ti_account_commitment i = account_commitment <$> accounts (db s) !! ptx_account_id tx ∧
      (∀ n, match ti_nullifiers i !! n with
            | Some (Some bn) => n ∈ ptx_nullifiers tx ∧ ∃ p, nullifiers (db s) !! n = Some (p, Npos bn)
            | Some None => n ∈ ptx_nullifiers tx ∧ nullifiers (db s) !! n = None
            | None => n ∉ ptx_nullifiers tx
            end) ∧
      (∀ id, id ∈ ti_found_unauthenticated_notes i ↔
        id ∈ ptx_unauthenticated_notes tx ∧ id ∈ nr_note_id <$> notes (db s)) ∧
      is_tip (db (between s)) (ti_current_block_height i)
  | (s', Err e) => s' = s ∧ e = GrpcClientError Internal ∧
      (note_id_limit < length (ptx_unauthenticated_notes tx) ∨
       ∃ row, row ∈ notes (db s) ∧ nr_note_id row ∈ ptx_unauthenticated_notes tx ∧ ¬ readable row)
  | _ => False
  end.
Proof.
  pose proof (tx_inputs_run s between tx Hc Hb) as Hrun.
  destruct (StoreClient.get_tx_inputs _ _ _) as [s' [i|e| |]]; [|done..].
  destruct Hrun as (-> & height & found & Htip & Hfound & ->). split_and!; [done..| |done|done].
  intros n. cbn [ti_nullifiers inputs_of]. rewrite lookup_inserted. case_decide as Hn; [|done].
  destruct (spent_at (db s) n) as [bn|] eqn:Hs.
  - split; [done|]. unfold spent_at in Hs. destruct (nullifiers (db s) !! n) as [[p [|q]]|]; try done.
    injection Hs as ->. by exists p.
  - split; [done|]. by apply (spent_at_None _ _ (con_tables _ Hc)).
Qed.

(** A double spend is noticed. If the store has recorded a nullifier of the
    transaction, whatever happens to it between its two reads, then the transaction
    is not authenticated: the block producer refuses it, listing that nullifier, or
    its query has failed. *)
Theorem double_spend_refused s between tx n (Hc : consistent s) (Hb : consistent (between s))
    (Hn : n ∈ ptx_nullifiers tx) (Hspent : is_Some (nullifiers (db s) !! n)) :
  match StoreClient.get_tx_inputs (StoreApi.get_transaction_inputs between) tx s with
  | (_, Ok i) => ∃ spent, authenticate tx i = inl (InputNotesAlreadyConsumed spent) ∧ n ∈ spent ∧
      ∀ n', n' ∈ spent ↔ n' ∈ ptx_nullifiers tx ∧ is_Some (nullifiers (db s) !! n')
  | (_, Err e) => e = GrpcClientError Internal
  | _ => False
  end.
Proof.
  pose proof (tx_inputs_run s between tx Hc Hb) as Hrun.
  destruct (StoreClient.get_tx_inputs _ _ _) as [s' [i|e| |]]; [|naive_solver|done|done].
  destruct Hrun as (-> & height & found & Htip & Hfound & ->). unfold authenticate.
  set (spent := filter _ _).
  assert (∀ n', n' ∈ spent ↔ n' ∈ ptx_nullifiers tx ∧ is_Some (nullifiers (db s) !! n')) as Hin.
  { intros n'. unfold spent. rewrite list_elem_of_filter. cbn [ti_nullifiers inputs_of]. rewrite lookup_inserted.
    pose proof (spent_at_None (db s) n' (con_tables _ Hc)) as Hnone. rewrite <- !not_eq_None_Some.
    case_decide; cbn; naive_solver. }
  assert (n ∈ spent) as Hns by by apply Hin. destruct spent as [|x l] eqn:Hl; [set_solver|].
  exists (x :: l). split; [done|]. by split.
Qed.

(** ** The client is transparent *)

(** A body that succeeded. *)
Lemma bind_Ok_inv {S E A B} (m : M S E A) (k : A → M S E B) x x' b :
  (m ≫= k) x = (x', Ok b) → ∃ x1 a, m x = (x1, Ok a) ∧ k a x1 = (x', Ok b).
Proof. unfold mbind, M_bind. destruct (m x) as [s1 [a|e|p|]]; naive_solver. Qed.

Lemma query_Ok_inv {E A} (f : DatabaseError → E) (q : M Tables DatabaseError A) s s' a :
  query f q s = (s', Ok a) → ∃ t', q (db s) = (t', Ok a).
Proof.
  unfold query, zoom, map_err, transact. destruct (q (db s)) as [t' [b|e|p|]]; [|done..].
  intros [= <- <-]. by exists t'.
Qed.

Lemma collect_Ok_forall {A B} (P : B → Prop) (f : A → M Tables DatabaseError B) l t t' bs :
  (∀ a t t' b, f a t = (t', Ok b) → P b) → collect f l t = (t', Ok bs) → Forall P bs.
Proof.
  intros Hf. unfold collect. enough (∀ acc, Forall P acc →
    fold_m (λ acc x, y ← f x; mret (acc ++ [y])) acc l t = (t', Ok bs) → Forall P bs) as Hx by by apply (Hx []).
  revert t. induction l as [|a l IH]; intros t acc Hacc; cbn [fold_m].
  - by intros [= _ <-].
  - intros (t1 & acc1 & Hb & Hr)%bind_Ok_inv. apply bind_Ok_inv in Hb as (t2 & b & Hb & [= -> <-]).
    apply (IH t1 (acc ++ [b])); [|done]. apply Forall_app. split; [done|]. apply Forall_singleton. by eapply Hf.
Qed.

(** The indices of the store's proofs fit in a message. *)
Lemma inclusion_proofs_ok ids t t' proofs :
  Read.select_note_inclusion_proofs ids t = (t', Ok proofs) → map_Forall (λ _ p, proof_ok p) proofs.
Proof.
  unfold Read.select_note_inclusion_proofs. intros (t1 & _ & _ & Hr)%bind_Ok_inv.
  apply bind_Ok_inv in Hr as (t2 & t3 & _ & Hr). apply bind_Ok_inv in Hr as (t4 & ps & Hps & [= _ <-]).
  apply (collect_Ok_forall (λ e, proof_ok e.2)) in Hps.
  - assert (map_Forall (λ _ p, proof_ok p) (∅ : gmap NoteId NoteInclusionProof)) as He by apply map_Forall_empty.
    revert He. generalize (∅ : gmap NoteId NoteInclusionProof) as m.
    induction Hps as [|[id p] ps Hp _ IH]; intros m Hm; [done|]. apply IH. by apply map_Forall_insert_2.
  - intros row u u' b Hb. apply bind_Ok_inv in Hb as (u1 & i & _ & [= _ <-]).
    unfold proof_ok. cbn. apply leaf_index_ok.
Qed.

Lemma block_inputs_proofs ids ns notes refs s s' i :
  Queries.get_block_inputs ids ns notes refs s = (s', Ok i) →
  map_Forall (λ _ p, proof_ok p) (Queries.unauthenticated_note_proofs i).
Proof.
  unfold Queries.get_block_inputs. intros (s1 & proofs & Hp & Hr)%bind_Ok_inv.
  apply query_Ok_inv in Hp as [t' Hp%inclusion_proofs_ok].
  apply bind_Ok_inv in Hr as (s2 & [[[[blocks latest] accounts] nulls] mmr] & _ & Hr).
  apply bind_Ok_inv in Hr as (s3 & [header headers] & _ & Hr).
  by apply bind_Ok_inv in Hr as (s4 & chain & _ & [= _ <-]).
Qed.

Lemma batch_inputs_proofs refs notes s s' i :
  Queries.get_batch_inputs refs notes s = (s', Ok i) →
  map_Forall (λ _ p, proof_ok p) (Queries.batch_note_proofs i).
Proof.
  unfold Queries.get_batch_inputs. case_decide; [done|]. intros (s1 & proofs & Hp & Hr)%bind_Ok_inv.
  apply query_Ok_inv in Hp as [t' Hp%inclusion_proofs_ok].
  apply bind_Ok_inv in Hr as (s2 & latest & _ & Hr). apply bind_Ok_inv in Hr as (s3 & top & _ & Hr).
  revert Hr. case_decide; [done|]. intros Hr. apply bind_Ok_inv in Hr as (s4 & s5 & _ & Hr).
  apply bind_Ok_inv in Hr as (s6 & mmr & _ & Hr). apply bind_Ok_inv in Hr as (s7 & [header headers] & _ & Hr).
  by apply bind_Ok_inv in Hr as (s8 & chain & _ & [= _ <-]).
Qed.

Lemma note_ids_from_digests (l : list NoteId) :
  ∃ ds, (try_from (into l) : ConversionError + list Digest) = inr ds ∧ note_id_of <$> ds = l.
Proof.
  exists (note_id_inner <$> l). split.
  - rewrite <- (round_trip (A := list Digest) (note_id_inner <$> l)). f_equal.
    unfold into, into_list. by rewrite <- list_fmap_compose.
  - rewrite <- list_fmap_compose. rewrite <- (list_fmap_id l) at 2. apply list_fmap_ext. intros. apply note_id_inv.
Qed.

(** C32: The connection between block producer and store adds nothing and loses
    nothing. What the client returns for the inputs of a block, the inputs of a batch
    and the application of a block is what the store's state answers: the same value
    and the same effect on the store, and for an error the error's class. No request
    of the client is malformed, and no answer is refused. *)
Theorem client_transparent s :
  (∀ ids ns notes refs,
    StoreClient.get_block_inputs StoreApi.get_block_inputs ids ns notes refs s =
      map_err (λ _, GrpcClientError Internal)
        (Queries.get_block_inputs ids ns (list_to_set notes) (list_to_set refs)) s) ∧
  (∀ (refs : list (BlockNumber * Digest)) notes,
    StoreClient.get_batch_inputs StoreApi.get_batch_inputs refs notes s =
      map_err (λ _, GrpcClientError Internal)
        (Queries.get_batch_inputs (list_to_set refs.*1) (list_to_set notes)) s) ∧
  (∀ faults block,
    StoreClient.apply_block (StoreApi.apply_block faults) block s =
      map_err (λ e, GrpcClientError (StoreApi.apply_status e)) (apply_block faults block) s).
Proof.
  split_and!.
  - intros ids ns notes refs. unfold StoreClient.get_block_inputs, StoreClient.call, StoreApi.get_block_inputs.
    cbn [Proto.kq_account_ids Proto.kq_nullifiers Proto.kq_unauthenticated_notes Proto.kq_reference_blocks].
    unfold StoreApi.read_account_ids, StoreApi.validate_nullifiers, StoreApi.validate_notes.
    rewrite !validate_into. unfold mbind, M_bind, map_err. cbn [StoreApi.try_status].
    unfold mret, M_ret, StoreApi.read_block_numbers.
    destruct (Queries.get_block_inputs _ _ _ _ s) as [s' [i|e|p|]] eqn:Hq; [|done..].
    unfold StoreClient.parse. by rewrite (proj1 wire_inputs_received) by (by eapply block_inputs_proofs).
  - intros refs notes. unfold StoreClient.get_batch_inputs, StoreClient.call, StoreApi.get_batch_inputs.
    cbn [Proto.bq_note_ids Proto.bq_reference_blocks].
    destruct (note_ids_from_digests notes) as (ds & Hds & Hids). rewrite Hds.
    unfold mbind, M_bind, map_err. cbn [StoreApi.try_status]. unfold mret, M_ret. rewrite Hids.
    destruct (Queries.get_batch_inputs _ _ s) as [s' [i|e|p|]] eqn:Hq; [|done..].
    unfold StoreClient.parse. by rewrite (proj2 wire_inputs_received) by (by eapply batch_inputs_proofs).
  - intros faults block. unfold StoreClient.apply_block, StoreClient.call, StoreApi.apply_block.
    cbn [Proto.aq_block]. rewrite proven_block_inv. unfold map_err.
    by destruct (apply_block faults block s) as [s' [i|e|p|]].
Qed.

End api.

(** ** Retrying *)

Section retry.
Context `{!MidenObjects} `{!NtxObjects} `{!StoreObjects} `{!StoreTrees} `{!WireObjects}.
Context {T : Type}.
Variable service : Proto.GetBlockHeaderByNumberRequest → M T Status Proto.GetBlockHeaderByNumberResponse.

(** The request fails [k] times in a row, for want of a connection. *)
Inductive fails : nat → T → T → Prop :=
| fails_O x : fails 0 x x
| fails_S k x x1 x2 status :
    StoreClient.genesis_header service x = (x1, Err (GrpcClientError status)) → fails k x1 x2 → fails (S k) x x2.

(** The waits before the retries numbered from [c], latest first. *)
Fixpoint waits (k : nat) (c : N) (acc : list N) : list N :=
  match k with O => acc | S k => waits k (c + 1) ((500 * 2 ^ c) `min` 30000 :: acc)%N end.

Definition connection_lost {A} (r : res StoreError A) : bool :=
  match r with Err (GrpcClientError _) => true | _ => false end.

Lemma retry_step fuel c x acc x1 status :
  (c < 32)%N → StoreClient.genesis_header service x = (x1, Err (GrpcClientError status)) →
  StoreClient.genesis_header_with_retry_from (S fuel) c service (x, acc) =
    StoreClient.genesis_header_with_retry_from fuel (c + 1) service (x1, ((500 * 2 ^ c) `min` 30000 :: acc)%N).
Proof.
  intros Hc Hx. cbn [StoreClient.genesis_header_with_retry_from]. unfold StoreClient.waiting, zoom. cbn [fst snd].
  rewrite Hx. unfold StoreClient.backoff, assert_, mbind, M_bind. rewrite (proj2 (N.ltb_lt _ _) Hc).
  unfold mret, M_ret, modify. cbn [fst snd]. by rewrite N.shiftl_1_l.
Qed.

Lemma retry_from k x x1 :
  fails k x x1 → ∀ c acc fuel, (c + N.of_nat k ≤ 32)%N → k ≤ fuel →
  StoreClient.genesis_header_with_retry_from fuel c service (x, acc) =
    StoreClient.genesis_header_with_retry_from (fuel - k) (c + N.of_nat k) service (x1, waits k c acc).
Proof.
  induction 1 as [x|k x y z status Hx Hf IH]; intros c acc fuel Hc Hfuel.
  { by rewrite Nat.sub_0_r, N.add_0_r. }
  destruct fuel as [|fuel]; [lia|]. rewrite (retry_step _ _ _ _ y status) by (done || lia).
  rewrite IH by lia. cbn [waits Nat.sub]. by replace (c + N.of_nat (S k))%N with (c + 1 + N.of_nat k)%N by lia.
Qed.

Lemma waits_bounds k c acc :
  Forall (λ ms, 500 ≤ ms ≤ 30000)%N acc → Forall (λ ms, 500 ≤ ms ≤ 30000)%N (waits k c acc).
Proof.
  revert c acc. induction k as [|k IH]; intros c acc Hacc; [done|]. apply IH. constructor; [|done].
  pose proof (N.pow_nonzero 2 c). lia.
Qed.

Lemma length_waits k c acc : length (waits k c acc) = k + length acc.
Proof. revert c acc. induction k as [|k IH]; intros c acc; [done|]. cbn [waits]. rewrite IH. cbn. lia. Qed.

Lemma fails_split k x x1 : fails k x x1 → ∀ j, j < k → ∃ y z status,
  fails j x y ∧ StoreClient.genesis_header service y = (z, Err (GrpcClientError status)).
Proof.
  induction 1 as [x|k x y z status Hx Hf IH]; intros j Hj; [lia|].
  destruct j as [|j]; [exists x, y, status; split; [constructor|done]|].
  destruct (IH j) as (y' & z' & st & Hf' & Hg); [lia|]. exists y', z', st. split; [|done]. by econstructor.
Qed.

(** C33: Fetching the genesis header outlasts a store that is not there, up to a point.
    If the connection fails up to 32 times, the client then returns whatever the next
    request returns, after as many waits, each between half a second and 30 seconds
    and the n-th of them of 500 ms times 2^(n-1) up to that limit. At the 33rd
    failure the counter is too large for the shift, and the task panics where the
    arithmetic is checked. *)
Theorem genesis_retry k x x1 (Hf : fails k x x1) :
  Forall (λ ms, 500 ≤ ms ≤ 30000)%N (waits k 0 []) ∧ length (waits k 0 []) = k ∧
  (k ≤ 32 → connection_lost (StoreClient.genesis_header service x1).2 = false →
    ∀ fuel, k < fuel →
      StoreClient.genesis_header_with_retry fuel service (x, []) =
        (((StoreClient.genesis_header service x1).1, waits k 0 []), (StoreClient.genesis_header service x1).2)) ∧
  (32 < k → ∀ fuel, 32 < fuel →
    (StoreClient.genesis_header_with_retry fuel service (x, [])).2 = Panic "attempt to shift left with overflow").
Proof.
  split_and!.
  - by apply waits_bounds.
  - by rewrite length_waits, Nat.add_0_r.
  - intros Hk Hlost fuel Hfuel. unfold StoreClient.genesis_header_with_retry.
    rewrite (retry_from _ _ _ Hf) by lia. destruct (fuel - k) as [|n] eqn:Hn; [lia|].
    cbn [StoreClient.genesis_header_with_retry_from]. unfold StoreClient.waiting, zoom. cbn [fst snd].
    destruct (StoreClient.genesis_header service x1) as [x2 [h|[st|w|e]|p|]]; done.
  - intros Hk fuel Hfuel. destruct (fails_split _ _ _ Hf 32 Hk) as (y & z & status & Hf' & Hy).
    unfold StoreClient.genesis_header_with_retry. rewrite (retry_from _ _ _ Hf') by lia.
    destruct (fuel - 32) as [|n] eqn:Hn; [lia|].
    cbn [StoreClient.genesis_header_with_retry_from]. unfold StoreClient.waiting, zoom. cbn [fst snd]. by rewrite Hy.
Qed.

End retry.
