(* ===== verification/AccountProofs.v ===== *)
(** * Account proofs

    Model of [State::get_account_proofs] ([crates/store/src/state.rs]) with its
    handler in [server/rpc_api.rs]: the witnesses of accounts, and for public accounts
    their headers and proofs of entries of their storage maps. *)

From S2P Require Import Prelude.
From S2P Require Import Bytes.
From S2P Require Import External.
From S2P Require Import NtxAccount.
From S2P Require Import StoreObjects.
From S2P Require Import StoreSql.
From S2P Require Import StoreRead.
From S2P Require Import StoreTrees.
From S2P Require Import StoreState.
From S2P Require Import StoreQueries.
From S2P Require Import WireObjects.
From S2P Require Import Wire.
From S2P Require Import StoreApi.
From S2P Require Import StoreProofs.
From S2P Require Import StoreApply.
From S2P Require Import StoreReads.

Import StoreState.
Import Wire.

(** Parts of an account, of the protocol library. *)
Class AccountParts `{!MidenObjects} `{!NtxObjects} `{!StoreObjects} := {
  acc_vault_root : Account → Digest;
  acc_storage_commitment : Account → Digest;
  acc_code_commitment : Account → Digest;
  acc_code_bytes : Account → bytes;
  (** [details.storage().to_header().to_bytes()] *)
  acc_storage_header : Account → bytes;
  (** [storage_map.open(map_key).to_bytes()] *)
  map_open : StorageMap → Digest → bytes;
}.

Module AccountProofs.

(** ** Messages *)

Record AccountHeader := mk_account_header {
  vault_root : option Proto.Digest;
  storage_commitment : option Proto.Digest;
  code_commitment : option Proto.Digest;
  nonce : N;
}.

Record StorageSlotMapProof := mk_slot_map_proof { storage_slot : N; smt_proof : bytes }.

Record AccountStateHeader := mk_state_header {
  header : option AccountHeader;
  storage_header : bytes;
  account_code : option bytes;
  storage_maps : list StorageSlotMapProof;
}.

Record AccountProofsResponse := mk_account_proofs {
  witness : option Proto.AccountWitness;
  state_header : option AccountStateHeader;
}.

Record GetAccountProofsRequest := mk_request {
  account_requests : list Proto.AccountRequest;
  include_headers : option bool;
  code_commitments : list Proto.Digest;
}.

Record GetAccountProofsResponse := mk_response {
  block_num : N;
  account_proofs : list AccountProofsResponse;
}.

Section defs.
Context `{!MidenObjects} `{!NtxObjects} `{!StoreObjects} `{!StoreTrees} `{!WireObjects} `{!AccountParts}.

Abbreviation QM := (M State Queries.QueryError).

(** [From<AccountHeader> for proto::account::AccountHeader], of an account's header. *)
#[global] Instance account_header_into : Into Account AccountHeader := λ a,
  mk_account_header (Some (into (acc_vault_root a))) (Some (into (acc_storage_commitment a)))
    (Some (into (acc_code_commitment a))) (acc_nonce a).

(** ** The query *)

(** The proofs of the requested entries of the storage maps of [a]. *)
Definition storage_map_proofs (a : Account) (requests : list StorageMapKeysProof) : QM (list StorageSlotMapProof) :=
  fold_m (λ acc r,
    match acc_slots a !! N.to_nat (storage_index r) with
    | Some (SlotMap storage_map) =>
      mret (acc ++ ((λ map_key, mk_slot_map_proof (storage_index r) (map_open storage_map map_key)) <$> storage_keys r))
    | _ => throw (Queries.QueryDatabaseError Sql.AccountError)
    end) [] requests.

Definition build_state_header (known_code_commitments : gset Digest) (request : AccountProofRequest) (details : Account)
    : QM AccountStateHeader :=
  maps ← storage_map_proofs details (pr_storage_requests request);
  mret (mk_state_header (Some (into details)) (acc_storage_header details)
    (if decide (acc_code_commitment details ∈ known_code_commitments) then None else Some (acc_code_bytes details)) maps).

(** One turn of the loop over the requests. *)
Definition add_state_header (known_code_commitments : gset Digest) (infos : list Sql.AccountInfo)
    (headers : gmap AccountId AccountStateHeader) (request : AccountProofRequest) : QM (gmap AccountId AccountStateHeader) :=
  info ← expect_some (head (filter (λ i, Sql.as_account_id (Sql.summary i) = pr_account_id request) infos))
    "retrieved accounts were validated against request";
  match Sql.info_details info with
  | Some details =>
    h ← build_state_header known_code_commitments request details;
    mret (<[Sql.as_account_id (Sql.summary info) := h]> headers)
  | None => mret headers
  end.

Definition state_headers (account_requests : list AccountProofRequest) (known_code_commitments : gset Digest)
    : QM (gmap AccountId AccountStateHeader) :=
  let account_ids := pr_account_id <$> account_requests in
  infos ← query Queries.QueryDatabaseError (Read.select_accounts_by_ids account_ids);
  if decide (length infos < length account_ids) then
    let found_ids := list_to_set ((λ i, Sql.as_account_id (Sql.summary i)) <$> infos) in
    throw (Queries.QueryDatabaseError (Sql.AccountsNotFoundInDb (bt_iter (list_to_set account_ids ∖ found_ids))))
  else fold_m (add_state_header known_code_commitments infos) ∅ account_requests.

Definition get_account_proofs (account_requests : list AccountProofRequest) (known_code_commitments : gset Digest)
    (include_headers : bool) : QM (BlockNumber * list AccountProofsResponse) :=
  headers ← (if include_headers then state_headers account_requests known_code_commitments else mret ∅);
  s ← get;
  let responses := (λ account_id,
    mk_account_proofs (Some (into (mk_account_witness_record account_id (at_open (account_tree (inner s)) account_id))))
      (headers !! account_id)) <$> (pr_account_id <$> account_requests) in
  latest ← latest_block_num;
  mret (latest, responses).

(** ** The handler *)

Definition handler (request : GetAccountProofsRequest) : M State Status GetAccountProofsResponse :=
  codes ← StoreApi.try_status StoreApi.invalid_argument (try_from (A := list Digest) (code_commitments request));
  requests ← StoreApi.try_status StoreApi.invalid_argument (try_from (A := list AccountProofRequest) (account_requests request));
  '(bn, infos) ← map_err StoreApi.query_status
    (get_account_proofs requests (list_to_set codes) (default false (include_headers request)));
  mret (mk_response bn infos).

End defs.

End AccountProofs.

(** ** What account proofs contain *)

Import Sql.
Import StoreState.
Import Wire.
Import AccountProofs.

Section proofs.
Context `{!MidenObjects} `{!NtxObjects} `{!StoreObjects} `{!StoreTrees} `{!WireObjects} `{!AccountParts}.
Context `{!MidenLaws} `{!StoreLaws} `{!TreeLaws}.
Implicit Types (s : State) (t : Tables) (requests : list AccountProofRequest) (known : gset Digest).

(** ** One account *)

(** The proofs of the entries of a storage map; [None] if the slot is not a map. *)
Definition slot_proofs (a : Account) (r : StorageMapKeysProof) : option (list StorageSlotMapProof) :=
  match acc_slots a !! N.to_nat (storage_index r) with
  | Some (SlotMap m) => Some ((λ key, mk_slot_map_proof (storage_index r) (map_open m key)) <$> storage_keys r)
  | _ => None
  end.

(** The header of an account, with the proofs that were asked for. *)
Definition header_of known (r : AccountProofRequest) (a : Account) : option AccountStateHeader :=
  maps ← mapM (slot_proofs a) (pr_storage_requests r);
  Some (mk_state_header (Some (into a)) (acc_storage_header a)
    (if decide (acc_code_commitment a ∈ known) then None else Some (acc_code_bytes a)) (mjoin maps)).

Lemma storage_map_proofs_run a rs s :
  storage_map_proofs a rs s =
    (s, match mapM (slot_proofs a) rs with
        | Some l => Ok (mjoin l)
        | None => Err (Queries.QueryDatabaseError AccountError)
        end).
Proof.
  unfold storage_map_proofs.
  enough (∀ acc, fold_m (λ acc r, match acc_slots a !! N.to_nat (storage_index r) with
    | Some (SlotMap m) => mret (acc ++ ((λ key, mk_slot_map_proof (storage_index r) (map_open m key)) <$> storage_keys r))
    | _ => throw (Queries.QueryDatabaseError AccountError) end) acc rs s =
    (s, match mapM (slot_proofs a) rs with Some l => Ok (acc ++ mjoin l)
        | None => Err (Queries.QueryDatabaseError AccountError) end)) as Hx by by apply (Hx []).
  induction rs as [|r rs IH]; intros acc; cbn [fold_m mapM].
  { cbn. by rewrite app_nil_r. }
  destruct (slot_proofs a r) as [l'|] eqn:Hr; unfold slot_proofs in Hr;
    destruct (acc_slots a !! N.to_nat (storage_index r)) as [[w|m]|]; try discriminate Hr; [|reflexivity..].
  injection Hr as <-. unfold mbind at 1, M_bind at 1, mret at 1, M_ret at 1. rewrite IH.
  destruct (mapM (slot_proofs a) rs) as [l|]; cbn; [|done]. by rewrite <- app_assoc.
Qed.

Lemma build_state_header_run known r a s :
  build_state_header known r a s =
    (s, match header_of known r a with Some h => Ok h | None => Err (Queries.QueryDatabaseError AccountError) end).
Proof.
  unfold build_state_header, header_of, mbind at 1, M_bind at 1. rewrite storage_map_proofs_run.
  by destruct (mapM _ _).
Qed.

(** ** The accounts that were found *)

Definition ids_of requests : list AccountId := pr_account_id <$> requests.

Definition found_rows t (ids : list AccountId) : list (AccountId * AccountRow) :=
  filter (λ row, row.1 ∈ ids) (map_to_list (accounts t)).

Lemma elem_of_found t ids i row : (i, row) ∈ found_rows t ids ↔ i ∈ ids ∧ accounts t !! i = Some row.
Proof. unfold found_rows. by rewrite list_elem_of_filter, elem_of_map_to_list. Qed.

Lemma NoDup_found t ids : NoDup (found_rows t ids).*1.
Proof. apply NoDup_filter_fst, NoDup_fst_map_to_list. Qed.

(** There are as many rows as ids exactly if the ids are distinct and stored. *)
Lemma found_all t ids :
  length ids ≤ length (found_rows t ids) → NoDup ids ∧ ∀ i, i ∈ ids → is_Some (accounts t !! i).
Proof.
  intros Hlen. rewrite <- (length_fmap fst) in Hlen. pose proof (NoDup_found t ids) as Hnd.
  assert (∀ i, i ∈ (found_rows t ids).*1 → i ∈ ids ∧ is_Some (accounts t !! i)) as Hsub.
  { intros i ([j row] & -> & Hin)%list_elem_of_fmap. apply elem_of_found in Hin as [? ?]. eauto. }
  assert (incl (found_rows t ids).*1 ids) as Hincl.
  { intros i Hi%list_elem_of_In. apply list_elem_of_In. by apply Hsub. }
  split.
  - apply NoDup_ListNoDup. apply NoDup_ListNoDup in Hnd. eapply List.NoDup_incl_NoDup; [exact Hnd|exact Hlen|exact Hincl].
  - intros i Hi. apply Hsub. apply NoDup_ListNoDup in Hnd. apply list_elem_of_In.
    eapply List.NoDup_length_incl; [exact Hnd|exact Hlen|exact Hincl|]. by apply list_elem_of_In.
Qed.

Lemma found_length t ids : NoDup ids → (∀ i, i ∈ ids → is_Some (accounts t !! i)) → length ids ≤ length (found_rows t ids).
Proof.
  intros Hnd Hall. rewrite <- (length_fmap fst (found_rows t ids)).
  apply submseteq_length, NoDup_submseteq; [done|]. intros i Hi. destruct (Hall i Hi) as [row Hrow].
  apply list_elem_of_fmap. exists (i, row). split; [done|]. by apply elem_of_found.
Qed.

Definition infos_of t ids : list AccountInfo := Read.account_info_from_row <$> found_rows t ids.

Lemma find_info t ids i row :
  i ∈ ids → accounts t !! i = Some row →
  head (filter (λ j, as_account_id (summary j) = i) (infos_of t ids)) = Some (Read.account_info_from_row (i, row)).
Proof.
  intros Hi Hrow.
  assert (∀ j, j ∈ filter (λ j, as_account_id (summary j) = i) (infos_of t ids) → j = Read.account_info_from_row (i, row)) as Hall.
  { intros j [Hj Hin]%list_elem_of_filter. apply list_elem_of_fmap in Hin as ([i' row'] & -> & Hin).
    apply elem_of_found in Hin as [_ Hrow']. cbn in Hj. subst i'. rewrite Hrow in Hrow'. by injection Hrow' as ->. }
  assert (Read.account_info_from_row (i, row) ∈ filter (λ j, as_account_id (summary j) = i) (infos_of t ids)) as Hin.
  { apply list_elem_of_filter. split; [done|]. apply list_elem_of_fmap_2. by apply elem_of_found. }
  destruct (filter _ _) as [|j l]; [by apply elem_of_nil in Hin|]. cbn. f_equal. apply Hall. by left.
Qed.

(** A request for an entry of a slot that is not a map. *)
Definition bad_slot t known (r : AccountProofRequest) : Prop := ∃ row a,
  accounts t !! pr_account_id r = Some row ∧ details row = Some a ∧ header_of known r a = None.

(** The header that answers a request: public accounts have one. *)
Definition header_answer t known (r : AccountProofRequest) (h : option AccountStateHeader) : Prop := ∃ row,
  accounts t !! pr_account_id r = Some row ∧
  match details row with Some a => is_Some h ∧ h = header_of known r a | None => h = None end.

Lemma add_headers_run t known ids requests s m :
  NoDup (ids_of requests) → (∀ r, r ∈ requests → pr_account_id r ∈ ids ∧ is_Some (accounts t !! pr_account_id r)) →
  (∀ i, i ∈ ids_of requests → m !! i = None) →
  match fold_m (add_state_header known (infos_of t ids)) m requests s with
  | (s', Ok m') => s' = s ∧ (∀ r, r ∈ requests → header_answer t known r (m' !! pr_account_id r)) ∧
      ∀ i, i ∉ ids_of requests → m' !! i = m !! i
  | (s', Err e) => s' = s ∧ e = Queries.QueryDatabaseError AccountError ∧ ∃ r, r ∈ requests ∧ bad_slot t known r
  | _ => False
  end.
Proof.
  revert m. induction requests as [|r requests IH]; intros m Hnd Hall Hm; cbn [fold_m].
  { split; [done|]. split; [|done]. intros r Hr. by apply elem_of_nil in Hr. }
  cbn in Hnd. apply NoDup_cons in Hnd as [Hr Hnd].
  destruct (Hall r (list_elem_of_here _ _)) as [Hid [row Hrow]].
  unfold mbind at 1, M_bind at 1, add_state_header at 1, mbind at 1, M_bind at 1.
  rewrite (find_info _ _ _ _ Hid Hrow). cbn [expect_some mret M_ret]. unfold mret at 1, M_ret at 1.
  cbn [info_details Read.account_info_from_row snd].
  destruct (details row) as [a|] eqn:Ha.
  - unfold mbind at 1, M_bind at 1. rewrite build_state_header_run.
    destruct (header_of known r a) as [h|] eqn:Hh.
    2:{ split_and!; [done|done|]. exists r. split; [by left|]. by exists row, a. }
    cbn [as_account_id summary Read.account_info_from_row Read.summary_of fst]. unfold mret, M_ret.
    assert (∀ i, i ∈ ids_of requests → <[pr_account_id r := h]> m !! i = None) as Hm'.
    { intros i Hi. rewrite lookup_insert_ne; [|by intros <-]. apply Hm. by right. }
    specialize (IH _ Hnd (λ r' Hr', Hall r' (list_elem_of_further _ _ _ Hr')) Hm').
    destruct (fold_m _ _ requests s) as [s' [m'|e|p|]]; [|
      destruct IH as (-> & -> & r' & Hr' & Hb); split_and!; [done|done|exists r'; split; [by right|done]]|done|done].
    destruct IH as (-> & Hin & Hout). split; [done|]. split.
    + intros r' [->|Hr']%elem_of_cons; [|by apply Hin].
      exists row. split; [done|]. rewrite Ha, (Hout _ Hr), lookup_insert_eq. by split; [eauto|].
    + intros i Hi. rewrite (Hout i) by (intros ?; apply Hi; by right). apply lookup_insert_ne. intros <-. apply Hi. by left.
  - unfold mret, M_ret.
    specialize (IH m Hnd (λ r' Hr', Hall r' (list_elem_of_further _ _ _ Hr')) (λ i Hi, Hm i (list_elem_of_further _ _ _ Hi))).
    destruct (fold_m _ _ requests s) as [s' [m'|e|p|]]; [|
      destruct IH as (-> & -> & r' & Hr' & Hb); split_and!; [done|done|exists r'; split; [by right|done]]|done|done].
    destruct IH as (-> & Hin & Hout). split; [done|]. split.
    + intros r' [->|Hr']%elem_of_cons; [|by apply Hin].
      exists row. split; [done|]. rewrite Ha, (Hout _ Hr). apply Hm. by left.
    + intros i Hi. apply Hout. intros ?. apply Hi. by right.
Qed.

Lemma length_infos t ids : length (infos_of t ids) = length (found_rows t ids).
Proof. apply length_fmap. Qed.

Lemma elem_of_missing t ids i :
  i ∈ bt_iter (list_to_set ids ∖ list_to_set ((λ j, as_account_id (summary j)) <$> infos_of t ids)) ↔
    i ∈ ids ∧ accounts t !! i = None.
Proof.
  rewrite elem_of_bt_iter, elem_of_difference, !elem_of_list_to_set.
  assert (i ∈ (λ j, as_account_id (summary j)) <$> infos_of t ids ↔ i ∈ ids ∧ is_Some (accounts t !! i)) as ->.
  { unfold infos_of. rewrite <- list_fmap_compose, list_elem_of_fmap. split.
    - intros ([j row] & -> & [? ?]%elem_of_found). eauto.
    - intros [Hi [row Hrow]]. exists (i, row). split; [done|]. by apply elem_of_found. }
  rewrite <- not_eq_None_Some. destruct (accounts t !! i); naive_solver.
Qed.

Lemma state_headers_run s requests known :
  let ids := ids_of requests in
  match state_headers requests known s with
  | (s', Ok headers) => s' = s ∧ NoDup ids ∧
      ∀ r, r ∈ requests → header_answer (db s) known r (headers !! pr_account_id r)
  | (s', Err (Queries.QueryDatabaseError (AccountsNotFoundInDb missing))) => s' = s ∧
      (∀ i, i ∈ missing ↔ i ∈ ids ∧ accounts (db s) !! i = None) ∧ (missing = [] → ¬ NoDup ids)
  | (s', Err (Queries.QueryDatabaseError (QueryParamLimitExceeded _ _))) => s' = s ∧ account_id_limit < length ids
  | (s', Err (Queries.QueryDatabaseError AccountError)) => s' = s ∧ NoDup ids ∧
      ∃ r, r ∈ requests ∧ bad_slot (db s) known r
  | _ => False
  end.
Proof.
  intros ids. unfold state_headers. fold (ids_of requests). fold ids.
  destruct (decide (account_id_limit < length ids)) as [Hl|Hl].
  { unfold mbind, M_bind, query, zoom, map_err, transact, Read.select_accounts_by_ids, check_limit.
    rewrite decide_True by done. cbn. by destruct s. }
  assert (query Queries.QueryDatabaseError (Read.select_accounts_by_ids ids) s = (s, Ok (infos_of (db s) ids))) as Hq.
  { apply query_ok. unfold Read.select_accounts_by_ids, check_limit. by rewrite decide_False. }
  rewrite (bind_ok Hq). rewrite length_infos. case_decide as Hlen.
  - unfold throw. split; [done|]. split; [intros i; apply elem_of_missing|].
    intros Hnil Hnd. apply Nat.lt_nge in Hlen. apply Hlen, found_length; [done|]. intros i Hi.
    destruct (accounts (db s) !! i) eqn:Hi'; [eauto|].
    assert (i ∈ ([] : list AccountId)) as Hin by (rewrite <- Hnil; by apply elem_of_missing). by apply elem_of_nil in Hin.
  - apply Nat.nlt_ge, found_all in Hlen as [Hnd Hall].
    pose proof (add_headers_run (db s) known ids requests s ∅ Hnd) as Hrun.
    destruct (fold_m _ _ requests s) as [s' [m'|e|p|]].
    + destruct Hrun as (-> & Hin & _); [|done|done]. intros r Hr. split; [by apply list_elem_of_fmap_2|].
      apply Hall. by apply list_elem_of_fmap_2.
    + destruct Hrun as (-> & -> & r & Hr & Hb); [|done|by eauto]. intros r Hr.
      split; [by apply list_elem_of_fmap_2|]. apply Hall. by apply list_elem_of_fmap_2.
    + apply Hrun; [|done]. intros r Hr. split; [by apply list_elem_of_fmap_2|]. apply Hall. by apply list_elem_of_fmap_2.
    + apply Hrun; [|done]. intros r Hr. split; [by apply list_elem_of_fmap_2|]. apply Hall. by apply list_elem_of_fmap_2.
Qed.

(** The answer to a request: the current witness of its account, and a header. *)
Definition proof_answer s (r : AccountProofRequest) (h : option AccountStateHeader) (response : AccountProofsResponse) : Prop :=
  witness response = Some (into (mk_account_witness_record (pr_account_id r) (at_open (account_tree (inner s)) (pr_account_id r)))) ∧
  state_header response = h.

(** C34: Account proofs answer every request, in order, with the current witness of its
    account, and with the chain tip the witnesses belong to; nothing else changes.
    With headers, a public account also gets its header with the proofs of the
    requested entries of its storage maps, and its code unless the client knows it; a
    private account gets none. The query then fails if accounts are not stored, which
    it names; if a slot is not a map; if there are more than 1000 requests; and also
    if two requests are for the same account, which it reports as accounts that are
    not found, possibly none. It never panics. *)
Theorem account_proofs_answer s requests known (Hc : consistent s) :
  let ids := pr_account_id <$> requests in
  (∃ tip responses, get_account_proofs requests known false s = (s, Ok (tip, responses)) ∧ is_tip (db s) tip ∧
    Forall2 (λ r, proof_answer s r None) requests responses) ∧
  match get_account_proofs requests known true s with
  | (s', Ok (tip, responses)) => s' = s ∧ is_tip (db s) tip ∧ NoDup ids ∧
      Forall2 (λ r a, ∃ h, proof_answer s r h a ∧ header_answer (db s) known r h) requests responses
  | (s', Err (Queries.QueryDatabaseError (AccountsNotFoundInDb missing))) => s' = s ∧
      (∀ i, i ∈ missing ↔ i ∈ ids ∧ accounts (db s) !! i = None) ∧ (missing = [] → ¬ NoDup ids)
  | (s', Err (Queries.QueryDatabaseError (QueryParamLimitExceeded _ _))) => s' = s ∧ account_id_limit < length ids
  | (s', Err (Queries.QueryDatabaseError AccountError)) => s' = s ∧ NoDup ids ∧
      ∃ r, r ∈ requests ∧ bad_slot (db s) known r
  | _ => False
  end.
Proof.
  intros ids. destruct (ok_headers _ (con_tables _ Hc)) as [tip Htip].
  assert (∀ headers : gmap AccountId AccountStateHeader, ∃ responses,
    (s ← get; latest ← latest_block_num; mret (latest, (λ i, mk_account_proofs
       (Some (into (mk_account_witness_record i (at_open (account_tree (inner s)) i)))) (headers !! i)) <$> ids)
       : M State Queries.QueryError (BlockNumber * list AccountProofsResponse)) s = (s, Ok (tip, responses)) ∧
    Forall2 (λ r, proof_answer s r (headers !! pr_account_id r)) requests responses) as Hans.
  { intros headers. eexists. split.
    - unfold mbind, M_bind, get, latest_block_num, expect_some, mret, M_ret. cbn beta iota.
      unfold mbind, M_bind, get. by rewrite (mirrors_tip _ _ _ (con_mirrors _ Hc) Htip).
    - unfold ids. rewrite <- list_fmap_compose. apply Forall2_fmap_r, Forall_Forall2_diag, Forall_forall. done. }
  split.
  - destruct (Hans ∅) as (responses & Hrun & Hall). exists tip, responses. split; [exact Hrun|]. split; [done|].
    eapply Forall2_impl; [exact Hall|]. intros r a Ha. exact Ha.
  - pose proof (state_headers_run s requests known) as Hst. cbn zeta in Hst. unfold ids_of in Hst. fold ids in Hst.
    unfold get_account_proofs. unfold mbind at 1, M_bind at 1.
    destruct (state_headers requests known s) as [s' [headers|e|p|]]; [|exact Hst|done|done].
    destruct Hst as (-> & Hnd & Hh). destruct (Hans headers) as (responses & Hrun & Hall).
    fold ids. cbn zeta. rewrite Hrun. split_and!; [done..|].
    apply Forall2_same_length_lookup. split; [by eapply Forall2_length|].
    intros i r a Hr Ha. exists (headers !! pr_account_id r). split; [exact (Forall2_lookup_lr _ _ _ _ _ _ Hall Hr Ha)|].
    apply Hh. by eapply list_elem_of_lookup_2.
Qed.

End proofs.
