(* ===== verification/Rpc.v ===== *)
(** * The RPC service

    Model of [crates/rpc/src/server/]: [RpcService] of [api.rs], which checks the
    requests of users and forwards them to the store and the block producer, the
    limits of [crates/utils/src/limiter.rs] that it checks, the [Accept] header's
    layer of [accept.rs], and the client's side of it, [client/interceptor.rs]. *)

From Stdlib Require Import Strings.Ascii.
From S2P Require Import Prelude.
From S2P Require Import Bytes.
From S2P Require Import External.
From S2P Require Import NtxAccount.
From S2P Require Import StoreObjects.
From S2P Require Import StoreTrees.
From S2P Require Import StoreSql.
From S2P Require Import StoreState.
From S2P Require Import WireObjects.
From S2P Require Import Wire.
From S2P Require Import StoreApi.
From S2P Require Import AccountProofs.
Import Wire.

(** The library's verifier of proofs and its reader of transactions. *)
Class RpcObjects `{!MidenObjects} := {
  ptx_read : bytes → option ProvenTransaction;
  (** [TransactionVerifier::new(MIN_PROOF_SECURITY_LEVEL).verify(&tx)] *)
  verify : ProvenTransaction → bool;
  MAX_NUM_FOREIGN_ACCOUNTS : nat;
}.

(** The store as its clients see it. *)
Record StoreService (S : Type) := mk_store_service {
  svc_check_nullifiers : Proto.CheckNullifiersRequest → M S Status Proto.CheckNullifiersResponse;
  svc_check_nullifiers_by_prefix :
    Proto.CheckNullifiersByPrefixRequest → M S Status Proto.CheckNullifiersByPrefixResponse;
  svc_get_block_header_by_number :
    Proto.GetBlockHeaderByNumberRequest → M S Status Proto.GetBlockHeaderByNumberResponse;
  svc_sync_state : Proto.SyncStateRequest → M S Status Proto.SyncStateResponse;
  svc_sync_notes : Proto.SyncNoteRequest → M S Status Proto.SyncNoteResponse;
  svc_get_notes_by_id : list Proto.Digest → M S Status (list Proto.CommittedNote);
  svc_get_account_details : option Proto.AccountId → M S Status (option Proto.AccountInfo);
  svc_get_block_by_number : N → M S Status (option bytes);
  svc_get_account_state_delta : Proto.GetAccountStateDeltaRequest → M S Status (option bytes);
  svc_get_account_proofs : AccountProofs.GetAccountProofsRequest → M S Status AccountProofs.GetAccountProofsResponse;
  svc_status : M S Status N;
}.
Arguments svc_check_nullifiers {_}.
Arguments svc_check_nullifiers_by_prefix {_}.
Arguments svc_get_block_header_by_number {_}.
Arguments svc_sync_state {_}.
Arguments svc_sync_notes {_}.
Arguments svc_get_notes_by_id {_}.
Arguments svc_get_account_details {_}.
Arguments svc_get_block_by_number {_}.
Arguments svc_get_account_state_delta {_}.
Arguments svc_get_account_proofs {_}.
Arguments svc_status {_}.

(** The handlers of the store. *)
Definition store_service `{!MidenObjects} `{!NtxObjects} `{!StoreObjects} `{!StoreTrees} `{!WireObjects} `{!AccountParts}
    (between : StoreState.State → StoreState.State) : StoreService StoreState.State := {|
  svc_check_nullifiers := StoreApi.check_nullifiers;
  svc_check_nullifiers_by_prefix := StoreApi.check_nullifiers_by_prefix;
  svc_get_block_header_by_number := StoreApi.get_block_header_by_number;
  svc_sync_state := StoreApi.sync_state between;
  svc_sync_notes := StoreApi.sync_notes between;
  svc_get_notes_by_id := StoreApi.get_notes_by_id;
  svc_get_account_details := StoreApi.get_account_details;
  svc_get_block_by_number := StoreApi.get_block_by_number;
  svc_get_account_state_delta := StoreApi.get_account_state_delta;
  svc_get_account_proofs := AccountProofs.handler;
  svc_status := StoreState.latest_block_num;
|}.

Module Rpc.

Section defs.
Context `{!MidenObjects} `{!NtxObjects} `{!StoreObjects} `{!StoreTrees} `{!WireObjects} `{!AccountParts} `{!RpcObjects}.
Context {S Submitted : Type}.
Variable store : StoreService S.
(** [None] in read-only mode. *)
Variable block_producer : option (bytes → M S Status Submitted).
Variable block_producer_status : option (M S Status string).

Abbreviation RM := (M S Status).

(** [QueryParamLimiter::check], of a list with [n] elements. *)
Definition check (limit n : nat) : RM unit := if decide (limit < n) then throw OutOfRange else mret tt.

(** A request that does not convert is refused. *)
Definition validated {A} (r : ConversionError + A) : RM A :=
  match r with inr a => mret a | inl _ => throw InvalidArgument end.

Definition check_nullifiers (request : Proto.CheckNullifiersRequest) : RM Proto.CheckNullifiersResponse :=
  _ ← check Sql.nullifier_limit (length (Proto.cq_nullifiers request));
  _ ← for_each (Proto.cq_nullifiers request) (λ n, _ ← validated (try_from (A := Digest) n); mret tt);
  svc_check_nullifiers store request.

Definition check_nullifiers_by_prefix (request : Proto.CheckNullifiersByPrefixRequest)
    : RM Proto.CheckNullifiersByPrefixResponse :=
  _ ← check Sql.nullifier_limit (length (Proto.pq_nullifiers request));
  svc_check_nullifiers_by_prefix store request.

Definition get_block_header_by_number (request : Proto.GetBlockHeaderByNumberRequest)
    : RM Proto.GetBlockHeaderByNumberResponse :=
  svc_get_block_header_by_number store request.

Definition sync_state (request : Proto.SyncStateRequest) : RM Proto.SyncStateResponse :=
  _ ← check Sql.account_id_limit (length (Proto.sq_account_ids request));
  _ ← check Sql.note_tag_limit (length (Proto.sq_note_tags request));
  svc_sync_state store request.

Definition sync_notes (request : Proto.SyncNoteRequest) : RM Proto.SyncNoteResponse :=
  _ ← check Sql.note_tag_limit (length (Proto.nq_note_tags request));
  svc_sync_notes store request.

Definition get_notes_by_id (note_ids : list Proto.Digest) : RM (list Proto.CommittedNote) :=
  _ ← check Sql.note_id_limit (length note_ids);
  _ ← validated (try_from (A := list Digest) note_ids);
  svc_get_notes_by_id store note_ids.

(** The message is forwarded as it came. *)
Definition submit_proven_transaction (transaction : bytes) : RM Submitted :=
  match block_producer with
  | None => throw Unavailable
  | Some submit =>
    match ptx_read transaction with
    | None => throw InvalidArgument
    | Some tx =>
      let is_new := match details_view (ptx_account_details tx) with New _ => true | _ => false end in
      if account_is_network (ptx_account_id tx) && negb is_new then throw InvalidArgument
      else if verify tx then submit transaction else throw InvalidArgument
    end
  end.

Definition get_account_details (account_id : option Proto.AccountId) : RM (option Proto.AccountInfo) :=
  match account_id with
  | None => throw InvalidArgument
  | Some id => _ ← validated (try_from (A := AccountId) id); svc_get_account_details store account_id
  end.

Definition get_block_by_number (block_num : N) : RM (option bytes) := svc_get_block_by_number store block_num.

Definition get_account_state_delta (request : Proto.GetAccountStateDeltaRequest) : RM (option bytes) :=
  svc_get_account_state_delta store request.

Definition get_account_proofs (request : AccountProofs.GetAccountProofsRequest)
    : RM AccountProofs.GetAccountProofsResponse :=
  let requested := length (AccountProofs.account_requests request) in
  if decide (MAX_NUM_FOREIGN_ACCOUNTS < requested) then throw InvalidArgument
  else if decide (requested < length (AccountProofs.code_commitments request)) then throw InvalidArgument
  else svc_get_account_proofs store request.

(** [.await.ok()]: an error is no answer. *)
Definition ok {A} (m : RM A) : RM (option A) := λ s,
  match m s with
  | (s', Ok a) => (s', Ok (Some a))
  | (s', Err _) => (s', Ok None)
  | (s', Panic p) => (s', Panic p)
  | (s', OutOfFuel) => (s', OutOfFuel)
  end.

(** The chain tip of the store and the status of the block producer, or what is
    reported if they do not answer. *)
Definition status : RM ((string * N) * string) :=
  store_status ← ok (svc_status store);
  producer_status ← match block_producer_status with Some status => ok status | None => mret None end;
  mret (match store_status with Some chain_tip => ("connected", chain_tip) | None => ("unreachable", 0%N) end,
        default "unreachable" producer_status).

End defs.

End Rpc.

(** ** [accept.rs] *)

Module Accept.

(** [application/vnd.{app_name}.{version}+{response_type}] *)
Record AcceptHeaderValue := mk_accept { app_name : string; version : string; response_type : string }.

(** [take_until]: the text before the first [c], and the rest from it on. *)
Fixpoint take_until (c : ascii) (s : string) : option (string * string) :=
  match s with
  | EmptyString => None
  | String a s' => if Ascii.eqb a c then Some (EmptyString, s)
                   else '(before, rest) ← take_until c s'; Some (String a before, rest)
  end.

Definition accept_try_from (input : string) : option AcceptHeaderValue :=
  input ← strip_prefix "application/vnd." input;
  '(app_name, input) ← take_until "." input;
  input ← strip_prefix "." input;
  '(version, input) ← take_until "+" input;
  response_type ← strip_prefix "+" input;
  Some (mk_accept app_name version response_type).

Section call.
Context {Version : Type}.
(** [Version::parse] of the [semver] crate, and the requirement of the server. *)
Variable version_parse : string → option Version.
Variable version_req_matches : Version → bool.

Inductive Verdict : Type :=
| Forward
| InvalidHeader
| InvalidVersion
| VersionMismatch.

(** [accept] is the header's value, if there is one, and its text, if it is text. *)
Definition call (accept : option (option string)) : Verdict :=
  match accept with
  | None => Forward
  | Some None => InvalidHeader
  | Some (Some accept_str) =>
    match accept_try_from accept_str with
    | None => Forward
    | Some accept =>
      match version_parse (version accept) with
      | None => InvalidVersion
      | Some version => if version_req_matches version then Forward else VersionMismatch
      end
    end
  end.

End call.

End Accept.

(** ** [client/interceptor.rs]: the metadata that clients add to their requests *)

Module Interceptor.

Record MetadataInterceptor := mk_interceptor { metadata : gmap string string }.

Definition default_interceptor : MetadataInterceptor := mk_interceptor ∅.

Section defs.
(** [AsciiMetadataValue::try_from]. *)
Variable ascii_try_from : string → option string.

Definition with_accept_metadata (version : string) (m : MetadataInterceptor) : option MetadataInterceptor :=
  let accept_value := "application/vnd.miden." +:+ version +:+ "+grpc" in
  value ← ascii_try_from accept_value;
  Some (mk_interceptor (<["accept" := value]> (metadata m))).

(** The metadata of a request after the interceptor. *)
Definition call (m : MetadataInterceptor) (request : gmap string string) : gmap string string :=
  map_fold (λ key value request, <[key := value]> request) request (metadata m).

(** The interceptor of [ApiClient::connect] and [connect_lazy]. *)
Definition connect (pkg_version : string) (version : option string) : option MetadataInterceptor :=
  with_accept_metadata (default pkg_version version) default_interceptor.

End defs.

End Interceptor.
