(* ===== verification/RpcTheorems.v ===== *)
(** * What the RPC service lets through *)

From Stdlib Require Import Strings.Ascii.
From S2P Require Import Prelude.
From S2P Require Import Bytes.
From S2P Require Import External.
From S2P Require Import NtxAccount.
From S2P Require Import StoreObjects.
From S2P Require Import StoreTrees.
From S2P Require Import StoreSql.
From S2P Require Import StoreRead.
From S2P Require Import StoreState.
From S2P Require Import StoreQueries.
From S2P Require Import WireObjects.
From S2P Require Import Wire.
From S2P Require Import WireTheorems.
From S2P Require Import StoreApi.
From S2P Require Import AccountProofs.
From S2P Require Import Rpc.
Import Sql.
Import Wire.

(** ** Accept headers *)

Section accept.

(** [c] does not occur in [s]. *)
Fixpoint absent (c : ascii) (s : string) : bool :=
  match s with EmptyString => true | String a s => negb (Ascii.eqb a c) && absent c s end.

Lemma take_until_here c s rest : absent c s = true → Accept.take_until c (s +:+ String c rest) = Some (s, String c rest).
Proof.
  induction s as [|a s IH]; intros Hs.
  - change (Accept.take_until c (String c rest) = Some (EmptyString, String c rest)).
    cbn [Accept.take_until]. by rewrite Ascii.eqb_refl.
  - rewrite append_cons. cbn [absent] in Hs. apply andb_true_iff in Hs as [Ha%negb_true_iff Hs].
    cbn [Accept.take_until]. rewrite Ha, (IH Hs). done.
Qed.

Lemma take_until_Some c s before rest :
  Accept.take_until c s = Some (before, rest) →
  absent c before = true ∧ s = before +:+ rest ∧ ∃ rest', rest = String c rest'.
Proof.
  revert before rest. induction s as [|a s IH]; intros before rest; [done|]. cbn [Accept.take_until].
  destruct (Ascii.eqb a c) eqn:Ha.
  - intros [= <- <-]. apply Ascii.eqb_eq in Ha as ->. split_and!; [done|done|eauto].
  - destruct (Accept.take_until c s) as [[b r]|]; [|done]. cbn. intros [= <- <-].
    destruct (IH b r eq_refl) as (Hb & -> & Hr). split_and!; [|done|done]. cbn [absent]. by rewrite Ha, Hb.
Qed.

Definition accept_text (v : Accept.AcceptHeaderValue) : string :=
  "application/vnd." +:+ Accept.app_name v +:+ "." +:+ Accept.version v +:+ "+" +:+ Accept.response_type v.

Definition accept_ok (v : Accept.AcceptHeaderValue) : Prop :=
  absent "." (Accept.app_name v) = true ∧ absent "+" (Accept.version v) = true.

Lemma accept_print v : accept_ok v → Accept.accept_try_from (accept_text v) = Some v.
Proof.
  destruct v as [app ver ty]. intros [Happ Hver]. cbn in Happ, Hver. unfold accept_text, Accept.accept_try_from.
  cbn [Accept.app_name Accept.version Accept.response_type]. rewrite strip_prefix_app. cbn [mbind option_bind].
  change ("." +:+ ver +:+ "+" +:+ ty) with (String "." (ver +:+ "+" +:+ ty)). rewrite take_until_here by done.
  cbn [mbind option_bind]. change (String "." (ver +:+ "+" +:+ ty)) with ("." +:+ (ver +:+ "+" +:+ ty)).
  rewrite strip_prefix_app. cbn [mbind option_bind].
  change ("+" +:+ ty) with (String "+" ty). rewrite take_until_here by done.
  cbn [mbind option_bind]. change (String "+" ty) with ("+" +:+ ty). by rewrite strip_prefix_app.
Qed.

Lemma accept_parse s v : Accept.accept_try_from s = Some v → accept_ok v ∧ s = accept_text v.
Proof.
  unfold Accept.accept_try_from. destruct (strip_prefix _ s) as [s1|] eqn:H1; [|done]. cbn [mbind option_bind].
  destruct (Accept.take_until "." s1) as [[app s2]|] eqn:H2; [|done]. cbn [mbind option_bind].
  destruct (strip_prefix "." s2) as [s3|] eqn:H3; [|done]. cbn [mbind option_bind].
  destruct (Accept.take_until "+" s3) as [[ver s4]|] eqn:H4; [|done]. cbn [mbind option_bind].
  destruct (strip_prefix "+" s4) as [ty|] eqn:H5; [|done]. cbn [mbind option_bind]. intros [= <-].
  apply strip_prefix_Some in H1 as ->, H3 as ->, H5 as ->.
  apply take_until_Some in H2 as (Happ & -> & _), H4 as (Hver & -> & _). done.
Qed.

Context {Version : Type} (version_parse : string → option Version) (version_req_matches : Version → bool).

(** The version check of the RPC server refuses exactly the requests that state
    another version. A header is understood exactly if it is the text of an
    application name without a dot, a version without a plus and a response type, and
    these are then the parts it was made of. A request passes if it has no [Accept]
    header, if the header is text that is not understood, or if its version matches;
    it is refused if the header is not text, or is understood and its version cannot
    be parsed or does not match. *)
Theorem accept_decision accept :
  (∀ s v, Accept.accept_try_from s = Some v ↔ accept_ok v ∧ s = accept_text v) ∧
  (Accept.call version_parse version_req_matches accept = Accept.Forward ↔
    accept ≠ Some None ∧ ∀ v, accept_ok v → accept = Some (Some (accept_text v)) →
      ∃ version, version_parse (Accept.version v) = Some version ∧ version_req_matches version = true).
Proof.
  assert (∀ s v, Accept.accept_try_from s = Some v ↔ accept_ok v ∧ s = accept_text v) as Hiff.
  { intros s v. split; [apply accept_parse|]. intros [Hv ->]. by apply accept_print. }
  split; [exact Hiff|]. destruct accept as [[s|]|]; unfold Accept.call; [|naive_solver..].
  destruct (Accept.accept_try_from s) as [v|] eqn:Hs.
  - apply Hiff in Hs as Hs'. destruct Hs' as [Hv ->]. split.
    + destruct (version_parse (Accept.version v)) as [n|] eqn:Hn; [|done].
      destruct (version_req_matches n) eqn:Hm; [|done]. intros _. split; [done|]. intros v' Hv' Heq.
      assert (accept_text v = accept_text v') as Ht by congruence.
      assert (Accept.accept_try_from (accept_text v) = Some v') as Hv2 by (by apply Hiff). rewrite Hs in Hv2.
      injection Hv2 as <-. eauto.
    + intros [_ Hall]. destruct (Hall v Hv eq_refl) as (n & -> & Hm). by rewrite Hm.
  - split; [|done]. intros _. split; [done|]. intros v Hv Heq.
    assert (s = accept_text v) as -> by congruence. by rewrite accept_print in Hs.
Qed.

Lemma intercepted m request key :
  Interceptor.call m request !! key =
    match Interceptor.metadata m !! key with Some value => Some value | None => request !! key end.
Proof.
  destruct m as [m]. unfold Interceptor.call. cbn [Interceptor.metadata].
  induction m as [|k v m Hk IH] using map_ind; [by rewrite map_fold_empty, lookup_empty|].
  rewrite map_fold_insert_L, !lookup_insert; [by case_decide| |done].
  intros k1 k2 v1 v2 r Hne _ _. by apply insert_insert_ne.
Qed.

(** A client and the server agree on the version: a request of a client that was
    connected with a version, without build metadata, is judged by that version,
    whatever metadata the request had. *)
Theorem client_version_checked ascii_try_from pkg_version chosen m request
    (Hascii : ∀ s s', ascii_try_from s = Some s' → s' = s)
    (Hplus : absent "+" (default pkg_version chosen) = true)
    (Hm : Interceptor.connect ascii_try_from pkg_version chosen = Some m) :
  Accept.call version_parse version_req_matches (Some <$> Interceptor.call m request !! "accept") =
    match version_parse (default pkg_version chosen) with
    | None => Accept.InvalidVersion
    | Some version => if version_req_matches version then Accept.Forward else Accept.VersionMismatch
    end.
Proof.
  unfold Interceptor.connect, Interceptor.with_accept_metadata in Hm.
  destruct (ascii_try_from _) as [value|] eqn:Hv; [|done]. cbn in Hm. injection Hm as <-.
  apply Hascii in Hv as ->. rewrite intercepted. cbn [Interceptor.metadata]. rewrite lookup_insert_eq.
  set (v := Accept.mk_accept "miden" (default pkg_version chosen) "grpc").
  change (Accept.call version_parse version_req_matches (Some (Some (accept_text v))) =
    match version_parse (Accept.version v) with
    | None => Accept.InvalidVersion
    | Some version => if version_req_matches version then Accept.Forward else Accept.VersionMismatch
    end).
  unfold Accept.call. by rewrite (accept_print v).
Qed.

End accept.

(** ** Limits *)

Section limits.
Context `{!MidenObjects} `{!NtxObjects} `{!StoreObjects} `{!StoreTrees} `{!WireObjects} `{!AccountParts}.
Implicit Types (s : StoreState.State) (t : Tables).

(** Every error of a run satisfies [P]. *)
Definition errors {S E A} (m : M S E A) (P : E → Prop) : Prop := ∀ x x' e, m x = (x', Err e) → P e.

Lemma errors_bind {S E A B} (m : M S E A) (k : A → M S E B) P :
  errors m P → (∀ a, errors (k a) P) → errors (m ≫= k) P.
Proof.
  intros Hm Hk x x' e. unfold mbind, M_bind. destruct (m x) as [x1 [a|e1|p|]] eqn:Hx; [apply Hk| |done|done].
  intros [= <- <-]. exact (Hm _ _ _ Hx).
Qed.

Lemma errors_ok {S E A} (m : M S E A) P : (∀ x, match (m x).2 with Err _ => False | _ => True end) → errors m P.
Proof. intros Hm x x' e Hx. specialize (Hm x). by rewrite Hx in Hm. Qed.

Lemma errors_throw {S E A} (e : E) (P : E → Prop) : P e → errors (throw e : M S E A) P.
Proof. by intros He x x' e' [= <- <-]. Qed.

Lemma errors_map_err {S E E' A} (f : E → E') (m : M S E A) (P : E' → Prop) : errors m (λ e, P (f e)) → errors (map_err f m) P.
Proof.
  intros Hm x x' e. unfold map_err. destruct (m x) as [x1 [a|e1|p|]] eqn:Hx; [done| |done..].
  intros [= <- <-]. exact (Hm _ _ _ Hx).
Qed.

Lemma errors_fold {S E A B} (f : B → A → M S E B) b l P : (∀ b a, errors (f b a) P) → errors (fold_m f b l) P.
Proof.
  intros Hf. revert b. induction l as [|a l IH]; intros b; cbn [fold_m]; [by apply errors_ok|].
  apply errors_bind; [apply Hf|]. intros b'. apply IH.
Qed.

(** A query of the database, whose panics are errors. *)
Lemma errors_transact {E A} (f : E) (q : M Tables E A) P : P f → errors q P → errors (StoreState.transact f q) P.
Proof.
  intros Hf Hq x x' e. unfold StoreState.transact. destruct (q x) as [x1 [a|e1|p|]] eqn:Hx; [done|..|done].
  - intros [= <- <-]. exact (Hq _ _ _ Hx).
  - by intros [= <- <-].
Qed.

Lemma errors_zoom {S T E A} (g : S → T) (h : T → S → S) (m : M T E A) P : errors m P → errors (zoom g h m) P.
Proof. intros Hm x x' e. unfold zoom. destruct (m (g x)) as [x1 r] eqn:Hx. intros [= <- ->]. exact (Hm _ _ _ Hx). Qed.

Definition within_limit (e : DatabaseError) : Prop := match e with QueryParamLimitExceeded _ _ => False | _ => True end.

Definition sync_within_limit (e : Read.SyncError) : Prop :=
  match e with Read.SyncDatabaseError e => within_limit e | _ => True end.

Definition query_within_limit (e : Queries.QueryError) : Prop :=
  match e with
  | Queries.QueryDatabaseError e => within_limit e
  | Queries.QuerySyncError e => sync_within_limit e
  | _ => True
  end.

Lemma errors_or_throw {A} (o : option A) e : within_limit e → errors (or_throw o e) within_limit.
Proof. intros He. destruct o; [by apply errors_ok|by apply errors_throw]. Qed.

Lemma errors_check limit n : n ≤ limit → errors (check_limit limit n) within_limit.
Proof. intros Hn. unfold check_limit. rewrite decide_False by lia. by apply errors_ok. Qed.

Lemma errors_metadata row : errors (Read.metadata_from_row row) within_limit.
Proof.
  unfold Read.metadata_from_row. repeat (apply errors_bind; [by apply errors_or_throw|intros ?]).
  by apply errors_or_throw.
Qed.

Lemma errors_expect {S E A} (o : option A) msg P : errors (expect_some o msg : M S E A) P.
Proof. by destruct o; apply errors_ok. Qed.

Lemma errors_assert {S E} b msg P : errors (assert_ b msg : M S E unit) P.
Proof. by destruct b; apply errors_ok. Qed.

Lemma errors_sync_note row : errors (Read.sync_note_from_row row) within_limit.
Proof.
  unfold Read.sync_note_from_row. apply errors_bind; [apply errors_expect|intros i].
  apply errors_bind; [apply errors_metadata|intros m]. by apply errors_ok.
Qed.

Lemma errors_note row : errors (Read.note_from_row row) within_limit.
Proof.
  unfold Read.note_from_row. apply errors_bind; [by apply errors_ok|intros t].
  apply errors_bind; [apply errors_expect|intros i]. apply errors_bind; [apply errors_assert|intros _].
  apply errors_bind; [apply errors_metadata|intros m]. by apply errors_ok.
Qed.

Lemma errors_collect {A B} (f : A → M Tables DatabaseError B) l : (∀ a, errors (f a) within_limit) →
  errors (collect f l) within_limit.
Proof. intros Hf. apply errors_fold. intros b a. apply errors_bind; [apply Hf|]. intros y. by apply errors_ok. Qed.

Lemma errors_select_notes tags ids bn :
  length ids ≤ account_id_limit → length tags ≤ note_tag_limit →
  errors (Read.select_notes_since_block_by_tag_and_sender tags ids bn) within_limit.
Proof.
  intros Hids Htags. unfold Read.select_notes_since_block_by_tag_and_sender.
  apply errors_bind; [by apply errors_check|intros _]. apply errors_bind; [by apply errors_check|intros _].
  apply errors_bind; [by apply errors_ok|intros t]. destruct (Read.next_block _ _ _ _); [|by apply errors_ok].
  apply errors_collect, errors_sync_note.
Qed.

Lemma errors_sync_header found : errors (Read.sync_header found) sync_within_limit.
Proof.
  unfold Read.sync_header. apply errors_bind; [by apply errors_map_err, errors_ok|].
  intros [h|]; [by apply errors_ok|by apply errors_throw].
Qed.

Lemma errors_sync_state bn ids tags :
  length ids ≤ account_id_limit → length tags ≤ note_tag_limit →
  errors (Queries.sync_state bn ids tags) query_within_limit.
Proof.
  intros Hids Htags. unfold Queries.sync_state. apply errors_bind.
  - apply errors_zoom, errors_map_err, errors_transact; [done|]. unfold Read.get_state_sync.
    apply errors_bind; [by apply errors_map_err, errors_select_notes|intros found].
    apply errors_bind; [apply errors_sync_header|intros h].
    apply errors_bind.
    { apply errors_map_err. unfold Read.select_accounts_by_block_range.
      apply errors_bind; [by apply errors_check|intros _]. by apply errors_ok. }
    intros us. apply errors_bind; [|intros ts; by apply errors_ok].
    apply errors_map_err. unfold Read.select_transactions_by_accounts_and_block_range.
    apply errors_bind; [by apply errors_check|intros _]. by apply errors_ok.
  - intros update. case_decide; [by apply errors_ok|]. apply errors_bind; [by apply errors_ok|intros s].
    apply errors_bind; [|intros d; by apply errors_ok]. unfold Queries.or_error.
    destruct (chain_delta _ _ _); [by apply errors_ok|by apply errors_throw].
Qed.

Lemma errors_sync_notes bn tags : length tags ≤ note_tag_limit → errors (Queries.sync_notes bn tags) query_within_limit.
Proof.
  intros Htags. unfold Queries.sync_notes. apply errors_bind.
  - apply errors_zoom, errors_map_err, errors_transact; [done|]. unfold Read.get_note_sync.
    apply errors_bind; [by apply errors_map_err, errors_check|intros _].
    apply errors_bind; [apply errors_map_err, errors_select_notes; [cbn; unfold account_id_limit; lia|done]|intros found].
    apply errors_bind; [apply errors_sync_header|intros h]. by apply errors_ok.
  - intros update. apply errors_bind; [by apply errors_ok|intros s].
    apply errors_bind; [|intros d; by apply errors_ok]. unfold Queries.or_error.
    destruct (chain_open _ _); [by apply errors_ok|by apply errors_throw].
Qed.

Lemma errors_query {A} (q : M Tables DatabaseError A) :
  errors q within_limit → errors (StoreState.query Queries.QueryDatabaseError q) query_within_limit.
Proof. intros Hq. apply errors_zoom, errors_map_err. by apply errors_transact. Qed.

Lemma errors_notes_by_id ids : length ids ≤ note_id_limit → errors (Queries.get_notes_by_id ids) query_within_limit.
Proof.
  intros Hids. apply errors_query. unfold Read.select_notes_by_id. apply errors_bind; [by apply errors_check|intros _].
  apply errors_bind; [by apply errors_ok|intros t]. apply errors_collect, errors_note.
Qed.

Lemma errors_by_prefix len prefixes bn :
  length prefixes ≤ nullifier_prefix_limit → errors (Queries.check_nullifiers_by_prefix len prefixes bn) query_within_limit.
Proof.
  intros Hp. unfold Queries.check_nullifiers_by_prefix. apply errors_bind; [apply errors_assert|intros _].
  apply errors_query. unfold Read.select_nullifiers_by_prefix. apply errors_bind; [apply errors_assert|intros _].
  apply errors_bind; [by apply errors_check|intros _]. by apply errors_ok.
Qed.

Lemma try_from_length {A W} `{!TryFrom W A} (l : list W) (l' : list A) : try_from l = inr l' → length l' = length l.
Proof.
  revert l'. induction l as [|w l IH]; intros l'; [by intros [= <-]|].
  change (try_from (w :: l)) with (a ← try_from (A := A) w; l' ← try_from l; mret (a :: l') : ConversionError + list A).
  destruct (try_from w) as [e|a]; [done|]. rewrite sum_bind_inr. destruct (try_from l) as [e|l1]; [done|].
  rewrite sum_bind_inr. intros [= <-]. cbn. by rewrite (IH l1).
Qed.

Lemma validate_length {A W} `{!TryFrom W A} (l : list W) (l' : list A) : StoreApi.validate l = inr l' → length l' = length l.
Proof. unfold StoreApi.validate. destruct (try_from l) as [e|l1] eqn:Hl; [done|]. intros [= <-]. by apply try_from_length. Qed.

(** What a user's request comes to: it is refused with [OutOfRange] if it is too
    large, and is the store's own answer otherwise. *)
Definition guarded {A} (within : bool) (m m' : M StoreState.State Status A) s : Prop :=
  m s = if within then m' s else (s, Err OutOfRange).

Lemma check_guard {A} limit n (m : M StoreState.State Status A) s :
  (_ ← Rpc.check limit n; m) s = if n <=? limit then m s else (s, Err OutOfRange).
Proof.
  unfold Rpc.check, mbind, M_bind. destruct (Nat.leb_spec n limit) as [Hn|Hn].
  - by rewrite decide_False by lia.
  - by rewrite decide_True.
Qed.

(** C35: The RPC service shields the store. For a synchronisation of the state or of
    notes, a query for notes by id and a query for nullifiers by prefix, a request
    with more than 1000 elements in one of its lists is refused as out of range
    without reaching the store; any other request has exactly the store's answer, and
    the store does not fail on it because of the number of parameters: its own limits
    are never the reason for an error that a user sees. *)
Theorem rpc_shields_store (between : StoreState.State → StoreState.State) s :
  let service := store_service between in
  (∀ r, let within := (length (Proto.sq_account_ids r) <=? account_id_limit) && (length (Proto.sq_note_tags r) <=? note_tag_limit) in
    guarded within (Rpc.sync_state service r) (StoreApi.sync_state between r) s ∧
    (within = true → ∀ ids, StoreApi.read_account_ids (Proto.sq_account_ids r) = inr ids →
      errors (Queries.sync_state (Proto.sq_block_num r) ids (Proto.sq_note_tags r)) query_within_limit)) ∧
  (∀ r, let within := length (Proto.nq_note_tags r) <=? note_tag_limit in
    guarded within (Rpc.sync_notes service r) (StoreApi.sync_notes between r) s ∧
    (within = true → errors (Queries.sync_notes (Proto.nq_block_num r) (Proto.nq_note_tags r)) query_within_limit)) ∧
  (∀ note_ids, let within := length note_ids <=? note_id_limit in
    guarded within (Rpc.get_notes_by_id service note_ids) (StoreApi.get_notes_by_id note_ids) s ∧
    (within = true → ∀ ds : list Digest, try_from note_ids = inr ds →
      errors (Queries.get_notes_by_id (note_id_of <$> ds)) query_within_limit)) ∧
  (∀ r, let within := length (Proto.pq_nullifiers r) <=? nullifier_limit in
    guarded within (Rpc.check_nullifiers_by_prefix service r) (StoreApi.check_nullifiers_by_prefix r) s ∧
    (within = true → errors (Queries.check_nullifiers_by_prefix (Proto.pq_prefix_len r) (Proto.pq_nullifiers r)
      (Proto.pq_block_num r)) query_within_limit)).
Proof.
  unfold guarded. split_and!.
  - intros r. split.
    + unfold Rpc.sync_state. rewrite check_guard. destruct (_ <=? account_id_limit); [|done]. by rewrite check_guard.
    + intros [Ha Ht]%andb_true_iff ids Hids. apply Nat.leb_le in Ha, Ht. apply errors_sync_state; [|done].
      by rewrite (validate_length _ _ Hids).
  - intros r. split; [by unfold Rpc.sync_notes; rewrite check_guard|].
    intros Ht%Nat.leb_le. by apply errors_sync_notes.
  - intros ids. split.
    + unfold Rpc.get_notes_by_id. rewrite check_guard. destruct (_ <=? note_id_limit); [|done].
      unfold Rpc.validated, StoreApi.get_notes_by_id, mbind, M_bind. cbn [svc_get_notes_by_id store_service].
      unfold StoreApi.get_notes_by_id, mbind, M_bind. by destruct (try_from ids) as [e|ds] eqn:Hds.
    + intros Hn%Nat.leb_le ds Hds. apply errors_notes_by_id. by rewrite length_fmap, (try_from_length _ _ Hds).
  - intros r. split; [by unfold Rpc.check_nullifiers_by_prefix; rewrite check_guard|].
    intros Hn%Nat.leb_le. apply errors_by_prefix. exact Hn.
Qed.

End limits.
