(* ===== verification/Producer.v ===== *)
(** * The block producer

    Model of [crates/block-producer/src/batch_builder/mod.rs],
    [block_builder/mod.rs] and the handlers of [server/mod.rs]: the pool of batch
    building jobs, the block builder and the RPC server, which share the mempool
    behind a lock. A job alternates between calls of the mempool, which run under
    the lock, and calls of the store and of the provers, whose answers are part of
    an environment. The file begins with the protocol library as these
    tasks use it, an interface on top of [MidenObjects] and [StoreObjects]. *)

From S2P Require Import Prelude.
From S2P Require Import External.
From S2P Require Import NtxAccount.
From S2P Require Import StoreObjects.
From Stdlib Require Import QArith_base.
From S2P Require Import StoreTrees.
From S2P Require Import StoreState.
From S2P Require Import Transaction.
From S2P Require Import Subscription.
From S2P Require Import Mempool.
From S2P Require Import StoreApply.
From S2P Require Import BatchGraph.
From S2P Require Import MempoolOps.
From S2P Require Import MempoolTheorems.

Class ProducerObjects `{!MidenObjects} `{!NtxObjects} `{!StoreObjects} := {
  (** The wire format of a transaction; [None] is a deserialization error. *)
  ptx_read_from_bytes : Bytes → option ProvenTransaction;

  (** Batches. *)
  BatchInputs : Type;
  ProposedBatch : Type;
  ProposedBatchError : Type;
  ProvenBatchError : Type;
  proposed_batch_new : list ProvenTransaction → BatchInputs → ProposedBatchError + ProposedBatch;
  proposed_batch_id : ProposedBatch → BatchId;
  batch_security_level : ProvenBatch → N;
  MIN_PROOF_SECURITY_LEVEL : N;

  (** What a batch touches. The notes are those with a header: the unauthenticated ones. *)
  batch_unauthenticated_notes : ProvenBatch → list NoteId;
  batch_reference_block_num : ProvenBatch → BlockNumber;
  batch_updated_accounts : ProvenBatch → list AccountId;
  batch_created_nullifiers : ProvenBatch → list Nullifier;

  (** Blocks. *)
  BlockInputs : Type;
  ProposedBlock : Type;
  ProposedBlockError : Type;
  ProvenBlockError : Type;
  proposed_block_new : BlockInputs → list ProvenBatch → ProposedBlockError + ProposedBlock;
  block_security_level : ProvenBlock → N;

  (** Errors of the gRPC clients of the store and of the remote provers. *)
  StoreError : Type;
  RemoteProverClientError : Type;
}.

(** Documented behaviour: the id of a proposed batch is that of its transactions,
    and the account of a transaction is part of what its id commits to. *)
Class ProducerLaws `{!MidenObjects} `{!NtxObjects} `{!StoreObjects} `{!ProducerObjects} : Prop := {
  proposed_batch_id_spec txs inputs p : proposed_batch_new txs inputs = inr p →
    proposed_batch_id p = batch_id_from_ids ((λ tx, (ptx_id tx, ptx_account_id tx)) <$> txs);
}.



(** [Result::and_then]. *)
Definition and_then {E A B} (r : E + A) (f : A → E + B) : E + B :=
  match r with inr a => f a | inl e => inl e end.

(** [Result::map_err]. *)
Definition map_inl {E F A} (f : E → F) (r : E + A) : F + A :=
  match r with inr a => inr a | inl e => inl (f e) end.

Definition SERVER_NUM_BATCH_BUILDERS : positive := 2.

Module BatchBuilder.

Section defs.
Context `{!MidenObjects} `{!NtxObjects} `{!StoreObjects} `{!ProducerObjects} `{!Channel}.

Inductive BuildBatchError : Type :=
| InjectedFailure
| JoinError
| FetchBatchInputsFailed (e : StoreError)
| ProposeBatchError (e : ProposedBatchError)
| ProveBatchError (e : ProvenBatchError)
| RemoteProverClientErr (e : RemoteProverClientError)
| SecurityLevelTooLow (level min : N).

Record SelectedBatch := mk_selected_batch {
  id : BatchId;
  transactions : list AuthenticatedTransaction;
}.

Inductive BatchProver : Type := Local | Remote.

(** A task of the worker pool. A job that has ended stays in the pool until
    [wait_for_available_worker] takes it. *)
Inductive BatchJob : Type :=
| Started
| Building (batch : SelectedBatch)
| Ended.

Record BatchBuilder := mk_batch_builder {
  worker_pool : list BatchJob;
  batch_prover : BatchProver;
  (** A percentage: non-negative and less than one. *)
  failure_rate : Q;
}.

Definition new (num_workers : positive) (batch_prover_url : option string) : BatchBuilder := {|
  (* The pool is filled with workers that are ready. *)
  worker_pool := replicate (Pos.to_nat num_workers) Ended;
  failure_rate := 0%Q;
  batch_prover := match batch_prover_url with Some _ => Remote | None => Local end;
|}.

Definition over_worker_pool f b := mk_batch_builder (f (worker_pool b)) (batch_prover b) (failure_rate b).

(** What the world outside answers a job. [None] is a panic of the proving task. *)
Record BatchEnv := mk_batch_env {
  get_inputs : list BlockNumber → list NoteId → StoreError + BatchInputs;
  prove_local : ProposedBatch → option (ProvenBatchError + ProvenBatch);
  prove_remote : ProposedBatch → RemoteProverClientError + ProvenBatch;
  dice_roll : Q;
}.

Definition get_batch_inputs (env : BatchEnv) (batch : SelectedBatch)
  : BuildBatchError + (list AuthenticatedTransaction * BatchInputs) :=
  let block_references := reference_block <$> transactions batch in
  let unauthenticated := concat (unauthenticated_notes <$> transactions batch) in
  and_then (map_inl FetchBatchInputsFailed (get_inputs env block_references.*1 unauthenticated))
    (λ inputs, inr (transactions batch, inputs)).

Definition propose_batch (txs : list AuthenticatedTransaction) (inputs : BatchInputs)
  : BuildBatchError + ProposedBatch :=
  map_inl ProposeBatchError (proposed_batch_new (Transaction.inner <$> txs) inputs).

Definition prove_batch (env : BatchEnv) (prover : BatchProver) (proposed : ProposedBatch)
  : BuildBatchError + ProvenBatch :=
  let proven :=
    match prover with
    | Remote => map_inl RemoteProverClientErr (prove_remote env proposed)
    | Local =>
      match prove_local env proposed with
      | Some r => map_inl ProveBatchError r
      | None => inl JoinError
      end
    end in
  and_then proven (λ batch,
    if decide (batch_security_level batch < MIN_PROOF_SECURITY_LEVEL)%N
    then inl (SecurityLevelTooLow (batch_security_level batch) MIN_PROOF_SECURITY_LEVEL)
    else inr batch).

Definition inject_failure {A} (env : BatchEnv) (rate : Q) (value : A) : BuildBatchError + A :=
  if Qle_bool rate (dice_roll env) then inr value else inl InjectedFailure.

(** The stages between the selection and the return to the mempool. *)
Definition stages (env : BatchEnv) (b : BatchBuilder) (batch : SelectedBatch) : BuildBatchError + ProvenBatch :=
  and_then (and_then (and_then (get_batch_inputs env batch)
    (λ '(txs, inputs), propose_batch txs inputs))
    (prove_batch env (batch_prover b)))
    (inject_failure env (failure_rate b)).

(** [BatchJob::select_batch], with the early return of [build_batch]. *)
Definition select_batch {E} : M Mempool.Mempool E BatchJob :=
  r ← Mempool.select_batch;
  mret match r with
       | Some (id, txs) => Building (mk_selected_batch id txs)
       | None => Ended
       end.

(** The rest of [BatchJob::build_batch]: the result is committed, or the batch is
    rolled back. *)
Definition build_batch {E} (env : BatchEnv) (b : BatchBuilder) (batch : SelectedBatch) : M Mempool.Mempool E unit :=
  match stages env b batch with
  | inr proven => Mempool.commit_batch proven
  | inl _ => Mempool.rollback_batch (id batch)
  end.

(** [wait_for_available_worker] takes the ended task [i] out of the pool, and a new
    job is spawned into it. *)
Definition spawn_job (i : nat) (b : BatchBuilder) : option BatchBuilder :=
  match worker_pool b !! i with
  | Some Ended => Some (over_worker_pool (λ pool, delete i pool ++ [Started]) b)
  | _ => None
  end.

Definition set_job (i : nat) (job : BatchJob) b := over_worker_pool (λ pool, <[i := job]> pool) b.

End defs.

End BatchBuilder.

Module BlockBuilder.

Section defs.
Context `{!MidenObjects} `{!NtxObjects} `{!StoreObjects} `{!StoreTrees} `{!ProducerObjects} `{!Channel}.

Inductive BuildBlockError : Type :=
| StoreApplyBlockFailed
| GetBlockInputsFailed (e : StoreError)
| ProposeBlockFailed (e : ProposedBlockError)
| ProveBlockFailed (e : ProvenBlockError)
| InjectedFailure
| RemoteProverClientErr (e : RemoteProverClientError)
| SecurityLevelTooLow (level min : N).

Record SelectedBlock := mk_selected_block {
  block_number : BlockNumber;
  batches : list ProvenBatch;
}.

Inductive BlockProver : Type := Local | Remote.

(** Where the builder is in [build_block]. [Applied] is the point in [commit_block]
    after the store has answered, [Failed] that before the rollback. *)
Inductive Phase : Type :=
| Idle
| Selected (block : SelectedBlock)
| Applied (header : BlockHeader)
| Failed (e : BuildBlockError).

Record BlockBuilder := mk_block_builder {
  phase : Phase;
  block_prover : BlockProver;
  failure_rate : Q;
}.

Definition new (block_prover_url : option string) : BlockBuilder := {|
  phase := Idle;
  failure_rate := 0%Q;
  block_prover := match block_prover_url with Some _ => Remote | None => Local end;
|}.

Definition set_phase p b := mk_block_builder p (block_prover b) (failure_rate b).

Record BlockEnv := mk_block_env {
  get_inputs : list AccountId → list Nullifier → list NoteId → list BlockNumber → StoreError + BlockInputs;
  prove_local : ProposedBlock → ProvenBlockError + ProvenBlock;
  prove_remote : ProposedBlock → RemoteProverClientError + ProvenBlock;
  dice_roll : Q;
  (** Whether the answer of the store to [apply_block] is lost on its way. *)
  answer_lost : bool;
}.

Definition select_block {E} : M Mempool.Mempool E SelectedBlock :=
  '(block_number, batches) ← Mempool.select_block;
  mret (mk_selected_block block_number batches).

Definition get_block_inputs (env : BlockEnv) (selected : SelectedBlock)
  : BuildBlockError + (list ProvenBatch * BlockInputs) :=
  let notes := concat (batch_unauthenticated_notes <$> batches selected) in
  let references := batch_reference_block_num <$> batches selected in
  let account_ids := concat (batch_updated_accounts <$> batches selected) in
  let nullifiers := concat (batch_created_nullifiers <$> batches selected) in
  and_then (map_inl GetBlockInputsFailed (get_inputs env account_ids nullifiers notes references))
    (λ inputs, inr (batches selected, inputs)).

Definition propose_block (batches : list ProvenBatch) (inputs : BlockInputs) : BuildBlockError + ProposedBlock :=
  map_inl ProposeBlockFailed (proposed_block_new inputs batches).

Definition prove (env : BlockEnv) (prover : BlockProver) (proposed : ProposedBlock) : BuildBlockError + ProvenBlock :=
  match prover with
  | Local => map_inl ProveBlockFailed (prove_local env proposed)
  | Remote => map_inl RemoteProverClientErr (prove_remote env proposed)
  end.

Definition prove_block (env : BlockEnv) (prover : BlockProver) (proposed : ProposedBlock) : BuildBlockError + ProvenBlock :=
  and_then (prove env prover proposed) (λ block,
    if decide (block_security_level block < MIN_PROOF_SECURITY_LEVEL)%N
    then inl (SecurityLevelTooLow (block_security_level block) MIN_PROOF_SECURITY_LEVEL)
    else inr block).

Definition inject_failure {A} (env : BlockEnv) (rate : Q) (value : A) : BuildBlockError + A :=
  if Qle_bool rate (dice_roll env) then inr value else inl InjectedFailure.

Definition stages (env : BlockEnv) (b : BlockBuilder) (selected : SelectedBlock) : BuildBlockError + ProvenBlock :=
  and_then (and_then (and_then (get_block_inputs env selected)
    (λ '(batches, inputs), propose_block batches inputs))
    (prove_block env (block_prover b)))
    (inject_failure env (failure_rate b)).

(** [build_block] up to the answer of the store: the first half of [commit_block]. *)
Definition apply_to_store (env : BlockEnv) (faults : StoreState.Faults) (b : BlockBuilder) (selected : SelectedBlock)
    (store : StoreState.State) : StoreState.State * Phase :=
  match stages env b selected with
  | inl e => (store, Failed e)
  | inr block =>
    match StoreState.apply_block faults block store with
    | (store', Ok _) =>
      (store', if answer_lost env then Failed StoreApplyBlockFailed else Applied (block_header block))
    | (store', _) => (store', Failed StoreApplyBlockFailed)
    end
  end.

(** The end of [build_block]. *)
Definition finish_block {E} (p : Phase) : M Mempool.Mempool E unit :=
  match p with
  | Applied header => Mempool.commit_block header
  | Failed _ => Mempool.rollback_block
  | _ => mret tt
  end.

End defs.

End BlockBuilder.

Module Server.

Section defs.
Context `{!MidenObjects} `{!NtxObjects} `{!StoreObjects} `{!ProducerObjects} `{!Channel}.

(** [StoreClient::get_tx_inputs], given the store's answer to the query. *)
Definition get_tx_inputs (answer : option TransactionInputs) (tx : ProvenTransaction) : VerifyTxError + TransactionInputs :=
  match answer with
  | Some inputs =>
    if decide (ti_account_id inputs ≠ ptx_account_id tx) then inl StoreConnectionFailed else inr inputs
  | None => inl StoreConnectionFailed
  end.

(** The part of [submit_proven_transaction] before the mempool is locked. *)
Definition authenticate_request (answer : ProvenTransaction → option TransactionInputs) (request : Bytes)
  : AddTransactionError + AuthenticatedTransaction :=
  match ptx_read_from_bytes request with
  | None => inl TransactionDeserializationFailed
  | Some tx =>
    map_inl VerificationFailed (and_then (get_tx_inputs (answer tx) tx) (authenticate tx))
  end.

Definition submit_proven_transaction (answer : ProvenTransaction → option TransactionInputs) (request : Bytes)
  : M Mempool.Mempool AddTransactionError BlockNumber :=
  match authenticate_request answer request with
  | inr tx => Mempool.add_transaction tx
  | inl e => throw e
  end.

Definition mempool_subscription (chain_tip : BlockNumber) : M Mempool.Mempool BlockNumber Receiver :=
  Mempool.subscribe chain_tip.

End defs.

End Server.

(** ** The block producer as a system

    [BlockProducer::serve] runs the batch builder, the block builder and the RPC
    server as concurrent tasks on one mempool; the block builder writes to the
    store. A [World] is the state of all of them, and an event is the part of one
    task between two points at which it waits for a lock, a timer or an answer.
    [exec] runs an event; [None] means that the event cannot happen in that state. *)

Module Producer.

Section defs.
Context `{!MidenObjects} `{!NtxObjects} `{!StoreObjects} `{!StoreTrees} `{!ProducerObjects} `{!Channel}.

Record World := mk_world {
  mempool : Mempool.Mempool;
  batch_builder : BatchBuilder.BatchBuilder;
  block_builder : BlockBuilder.BlockBuilder;
  store : StoreState.State;
}.

Implicit Types (w : World).

Definition set_mempool x w := mk_world x (batch_builder w) (block_builder w) (store w).

Definition set_batch_builder x w := mk_world (mempool w) x (block_builder w) (store w).

Definition set_block_builder x w := mk_world (mempool w) (batch_builder w) x (store w).

Definition set_store x w := mk_world (mempool w) (batch_builder w) (block_builder w) x.

(** [BlockProducer::serve], once the store has answered with its chain tip. *)
Definition serve (store : StoreState.State) (chain_tip : BlockNumber) (max_txs_per_batch max_batches_per_block : N)
    (batch_prover_url block_prover_url : option string) : World := {|
  mempool := Mempool.new chain_tip
    (BatchBudget.mk_batch_budget max_txs_per_batch
      (BatchBudget.input_notes BatchBudget.default_budget)
      (BatchBudget.output_notes BatchBudget.default_budget)
      (BatchBudget.accounts BatchBudget.default_budget))
    (BlockBudget.mk_block_budget max_batches_per_block)
    SERVER_MEMPOOL_STATE_RETENTION SERVER_MEMPOOL_EXPIRATION_SLACK;
  batch_builder := BatchBuilder.new SERVER_NUM_BATCH_BUILDERS batch_prover_url;
  block_builder := BlockBuilder.new block_prover_url;
  store := store;
|}.

Inductive Event : Type :=
(** A request of a client of the RPC server. *)
| SubmitProvenTransaction (answer : ProvenTransaction → option TransactionInputs) (request : Bytes)
| MempoolSubscription (chain_tip : BlockNumber)
(** The timer of the batch builder fires, and the ended task [i] makes room. *)
| BatchTick (i : nat)
(** The job [i] selects its batch, and later returns it. *)
| BatchSelect (i : nat)
| BatchReturn (i : nat) (env : BatchBuilder.BatchEnv)
(** The timer of the block builder fires and a block is selected; it is built and
    sent to the store; the mempool learns the result. *)
| BlockSelect
| BlockBuild (env : BlockBuilder.BlockEnv) (faults : StoreState.Faults)
| BlockReturn.

(** A call of the mempool, under its lock. *)
Definition locked {E A} (op : M Mempool.Mempool E A) (k : A → World → World) w : World * outcome :=
  match op (mempool w) with
  | (m, Ok a) => (k a (set_mempool m w), Returned)
  | (m, r) => (set_mempool m w, outcome_of r)
  end.

Definition exec (ev : Event) w : option (World * outcome) :=
  match ev with
  | SubmitProvenTransaction answer request =>
    Some (locked (Server.submit_proven_transaction answer request) (λ _ w, w) w)
  | MempoolSubscription chain_tip => Some (locked (Server.mempool_subscription chain_tip) (λ _ w, w) w)
  | BatchTick i =>
    b ← BatchBuilder.spawn_job i (batch_builder w);
    Some (set_batch_builder b w, Returned)
  | BatchSelect i =>
    match BatchBuilder.worker_pool (batch_builder w) !! i with
    | Some BatchBuilder.Started =>
      Some (locked (E := Empty_set) BatchBuilder.select_batch
        (λ job w, set_batch_builder (BatchBuilder.set_job i job (batch_builder w)) w) w)
    | _ => None
    end
  | BatchReturn i env =>
    match BatchBuilder.worker_pool (batch_builder w) !! i with
    | Some (BatchBuilder.Building batch) =>
      Some (locked (E := Empty_set) (BatchBuilder.build_batch env (batch_builder w) batch)
        (λ _ w, set_batch_builder (BatchBuilder.set_job i BatchBuilder.Ended (batch_builder w)) w) w)
    | _ => None
    end
  | BlockSelect =>
    match BlockBuilder.phase (block_builder w) with
    | BlockBuilder.Idle =>
      Some (locked (E := Empty_set) BlockBuilder.select_block
        (λ block w, set_block_builder (BlockBuilder.set_phase (BlockBuilder.Selected block) (block_builder w)) w) w)
    | _ => None
    end
  | BlockBuild env faults =>
    match BlockBuilder.phase (block_builder w) with
    | BlockBuilder.Selected block =>
      let '(store, p) := BlockBuilder.apply_to_store env faults (block_builder w) block (store w) in
      Some (set_block_builder (BlockBuilder.set_phase p (block_builder w)) (set_store store w), Returned)
    | _ => None
    end
  | BlockReturn =>
    match BlockBuilder.phase (block_builder w) with
    | (BlockBuilder.Applied _ | BlockBuilder.Failed _) as p =>
      Some (locked (E := Empty_set) (BlockBuilder.finish_block p)
        (λ _ w, set_block_builder (BlockBuilder.set_phase BlockBuilder.Idle (block_builder w)) w) w)
    | _ => None
    end
  end.

(** The batches that are being built. *)
Definition building w : list BatchId :=
  omap (λ job, match job with BatchBuilder.Building batch => Some (BatchBuilder.id batch) | _ => None end)
    (BatchBuilder.worker_pool (batch_builder w)).

(** What the system relies on. A transaction can be told from those inflight. A
    batch that is being built is not selected a second time: its id would be the
    same, and two jobs would return it. A prover returns the batch it was given, and
    blocks that the store's contract covers. The answer of the store is not lost. *)
Definition admissible_event w (ev : Event) : Prop :=
  match ev with
  | SubmitProvenTransaction answer request =>
    ∀ tx, Server.authenticate_request answer request = inr tx → distinguishable (mempool w) tx
  | BatchSelect i =>
    ∀ m id txs, (Mempool.select_batch : M _ Empty_set _) (mempool w) = (m, Ok (Some (id, txs))) → id ∉ building w
  | BatchReturn i env =>
    (∀ p r b, BatchBuilder.prove_local env p = Some r → r = inr b → batch_id b = proposed_batch_id p) ∧
    (∀ p b, BatchBuilder.prove_remote env p = inr b → batch_id b = proposed_batch_id p)
  | BlockBuild env faults =>
    (∀ p b, BlockBuilder.prove_local env p = inr b → block_ok b) ∧
    (∀ p b, BlockBuilder.prove_remote env p = inr b → block_ok b) ∧
    BlockBuilder.answer_lost env = false
  | _ => True
  end.

Context `{!TreeLaws}.

Inductive produces : World → Prop :=
| produces_serve s tip max_txs max_batches batch_url block_url :
    consistent s → is_tip (StoreState.db s) tip →
    produces (serve s tip max_txs max_batches batch_url block_url)
| produces_exec w ev w' o :
    produces w → admissible_event w ev → exec ev w = Some (w', o) → produces w'.

End defs.

End Producer.
