(* ===== verification/ProducerTheorems.v ===== *)
(** * Correctness of the block producer as a system

    The concurrent tasks keep to the protocol of the mempool and of the store, so
    that none of the mempool's calls panics; every batch that waits for its proof is
    being built; the mempool follows the chain of the store. *)

From Stdlib Require Import QArith_base.
From S2P Require Import Prelude.
From S2P Require Import Graph.
From S2P Require Import GraphProofs.
From S2P Require Import GraphRemoval.
From S2P Require Import TransactionGraphProofs.
From S2P Require Import External.
From S2P Require Import NtxAccount.
From S2P Require Import StoreObjects.
From S2P Require Import StoreTrees.
From S2P Require Import StoreState.
From S2P Require Import StoreProofs.
From S2P Require Import StoreApply.
From S2P Require Import Transaction.
From S2P Require Import Subscription.
From S2P Require Import BatchGraph.
From S2P Require Import Mempool.
From S2P Require Import InflightOps.
From S2P Require Import BatchGraphProofs.
From S2P Require Import SubscriptionProofs.
From S2P Require Import MempoolInv.
From S2P Require Import MempoolOps.
From S2P Require Import MempoolTheorems.
From S2P Require Import Producer.
Import GraphSpec Producer.

(** ** The pool of jobs *)

Lemma delete_insert_same {A} (i : nat) (x : A) (l : list A) : delete i (<[i := x]> l) = delete i l.
Proof. revert i. induction l as [|y l IH]; intros [|i]; cbn; [done..|]. by rewrite IH. Qed.

Lemma omap_delete {A B} (f : A → option B) (l : list A) i x :
  l !! i = Some x → omap f l ≡ₚ option_list (f x) ++ omap f (delete i l).
Proof. intros Hi. rewrite (delete_Permutation _ _ _ Hi) at 1. cbn. by destruct (f x). Qed.

Lemma omap_insert {A B} (f : A → option B) (l : list A) i x y :
  l !! i = Some y → omap f (<[i := x]> l) ≡ₚ option_list (f x) ++ omap f (delete i l).
Proof.
  intros Hi. rewrite (omap_delete f (<[i := x]> l) i x).
  - by rewrite delete_insert_same.
  - apply list_lookup_insert_eq. by eapply lookup_lt_Some.
Qed.

Section producer.
Context `{!MidenObjects} `{!NtxObjects} `{!StoreObjects} `{!StoreTrees} `{!ProducerObjects} `{!Channel}.
Context `{!MidenLaws} `{!StoreLaws} `{!TreeLaws} `{!ProducerLaws} `{!ChannelLaws}.
Implicit Types (w : World) (b : BatchId) (m : Mempool.Mempool).
Implicit Types (ta : agraph TransactionId AuthenticatedTransaction) (ba : agraph BatchId ProvenBatch).

(** The job's batch. *)
Definition batch_in (job : BatchBuilder.BatchJob) : option BatchId :=
  match job with BatchBuilder.Building batch => Some (BatchBuilder.id batch) | _ => None end.

Lemma building_set_job w i job old :
  BatchBuilder.worker_pool (batch_builder w) !! i = Some old →
  option_list (batch_in old) ++ building (set_batch_builder (BatchBuilder.set_job i job (batch_builder w)) w) ≡ₚ
  option_list (batch_in job) ++ building w.
Proof.
  intros Hi. unfold building, batch_in. cbn. rewrite (omap_insert _ _ _ _ _ Hi), (omap_delete _ _ _ _ Hi).
  by rewrite !app_assoc, (Permutation_app_comm (option_list _) (option_list _)).
Qed.

Lemma pending_value ba b : is_pending ba b ↔ is_Some (ba !! b) ∧ value_of ba b = None.
Proof.
  unfold is_pending, value_of. destruct (ba !! b) as [[[] ps]|]; cbn; naive_solver.
Qed.

(** ** The invariant *)

(** What the phase of the block builder says of the mempool and of the chain. *)
Definition phase_ok (p : BlockBuilder.Phase) m (tip : BlockNumber) : Prop :=
  match p with
  | BlockBuilder.Idle => Mempool.block_in_progress m = None ∧ Mempool.chain_tip m = tip
  | BlockBuilder.Applied h =>
    Mempool.block_in_progress m ≠ None ∧ header_block_num h = tip ∧ tip = (Mempool.chain_tip m + 1)%N
  | _ => Mempool.block_in_progress m ≠ None ∧ Mempool.chain_tip m = tip
  end.

(** The batches without a proof, and those that are being built. *)
Record owned ba (ids : list BatchId) : Prop := {
  own_nodup : NoDup ids;
  own_unproven : ∀ b, b ∈ ids → is_Some (ba !! b) → value_of ba b = None;
  own_built : ∀ b, is_pending ba b → b ∈ ids;
}.

Definition pool_ok (pool : list BatchBuilder.BatchJob) : Prop :=
  length pool = Pos.to_nat SERVER_NUM_BATCH_BUILDERS ∧
  Forall (λ job, match job with
    | BatchBuilder.Building batch => BatchBuilder.id batch =
        batch_id_from_ids ((λ tx, (tx_id tx, account_id tx)) <$> BatchBuilder.transactions batch)
    | _ => True
    end) pool.

Record winv w : Prop := {
  w_mempool : ∃ ta ba, minv_full (mempool w) ta ba ∧ owned ba (building w);
  w_pool : pool_ok (BatchBuilder.worker_pool (batch_builder w));
  w_store : consistent (store w);
  w_phase : ∃ tip, is_tip (StoreState.db (store w)) tip ∧
    phase_ok (BlockBuilder.phase (block_builder w)) (mempool w) tip;
}.

Lemma owned_perm ba ids ids' : ids ≡ₚ ids' → owned ba ids → owned ba ids'.
Proof. intros HP [Hn Hu Hb]. split; setoid_rewrite <- HP; done. Qed.

Lemma owned_kept ba ba' ids : kept ba ba' → owned ba ids → owned ba' ids.
Proof.
  intros Hk [Hn Hu Hb]. split; [done| |].
  - intros b Hin Hs. destruct (Hk _ Hs) as [Hs' ->]. by apply Hu.
  - intros b [Hs Hv]%pending_value. destruct (Hk _ Hs) as [Hs' Heq]. apply Hb, pending_value. by rewrite <- Heq.
Qed.

Lemma owned_insert ba ids b pb : ba !! b = None → b ∉ ids → owned ba ids → owned (a_insert b pb ba) (b :: ids).
Proof.
  intros Hnew Hni [Hn Hu Hb]. split; [by constructor| |]; unfold a_insert, value_of in *.
  - intros b' Hin. rewrite lookup_insert. case_decide; [done|]. intros Hs. apply Hu; [|done]. set_solver.
  - intros b' (ps & Hps). rewrite lookup_insert in Hps. case_decide; [set_solver|].
    right. apply Hb. by exists ps.
Qed.

Lemma owned_promote ba ids b v : owned ba (b :: ids) → owned (a_promote b v ba) ids.
Proof.
  intros [[Hni Hn]%NoDup_cons Hu Hb]. split; [done| |]; unfold a_promote, value_of in *.
  - intros b' Hin. assert (b ≠ b') as Hne by set_solver. rewrite lookup_alter_ne by done. apply Hu. set_solver.
  - intros b' (ps & Hps). rewrite lookup_alter in Hps. case_decide.
    + subst b'. by destruct (ba !! b).
    + assert (b' ∈ b :: ids) by (apply Hb; by exists ps). set_solver.
Qed.

(** A batch that is no longer in the mempool. *)
Lemma owned_drop ba ids b : ba !! b = None → owned ba (b :: ids) → owned ba ids.
Proof.
  intros Hno [[Hni Hn]%NoDup_cons Hu Hb]. split; [done| |].
  - intros b' Hin. apply Hu. by right.
  - intros b' Hp. pose proof (Hb _ Hp) as [->|?]%elem_of_cons; [|done]. destruct Hp as (ps & Hp). congruence.
Qed.

Lemma phase_ok_frame p m m' tip : frame m m' → phase_ok p m tip → phase_ok p m' tip.
Proof. intros (Htip & Hblk & _). unfold phase_ok. by rewrite Htip, Hblk. Qed.

(** ** Calls under the lock *)

Lemma locked_wp {E A} (op : M Mempool.Mempool E A) k w Q X (P : World → outcome → Prop) r :
  wp op (mempool w) Q X → locked op k w = r →
  (∀ m a, Q m a → P (k a (set_mempool m w)) Returned) →
  (∀ m e, X m e → P (set_mempool m w) Rejected) → P r.1 r.2.
Proof.
  rewrite wp_unfold. unfold locked. destruct (op (mempool w)) as [m []]; intros Hwp <- HQ HX; cbn; try done; eauto.
Qed.

(** The outcome of an event: rejections change nothing. *)
Definition fine w ev w' (o : outcome) : Prop :=
  winv w' ∧ (o = Returned ∨ o = Rejected ∧ w' = w ∧
    match ev with SubmitProvenTransaction _ _ | MempoolSubscription _ => True | _ => False end).

Lemma set_mempool_same w : set_mempool (mempool w) w = w.
Proof. by destruct w. Qed.

(** A call of the mempool that keeps the phase and the jobs. *)
Lemma winv_frame w m ta ba ba' ta' :
  winv w → minv_full (mempool w) ta ba → owned ba (building w) →
  minv_full m ta' ba' → kept ba ba' → frame (mempool w) m → winv (set_mempool m w).
Proof.
  intros [_ Hp Hs (tip & Ht & Hph)] Hm Ho Hm' Hk HF. split; cbn; [|done..|].
  - exists ta', ba'. split; [done|]. by eapply owned_kept.
  - exists tip. split; [done|]. by eapply phase_ok_frame.
Qed.

Lemma fine_rejected w ev :
  winv w → match ev with SubmitProvenTransaction _ _ | MempoolSubscription _ => True | _ => False end →
  fine w ev (set_mempool (mempool w) w) Rejected.
Proof. intros Hw Hev. rewrite set_mempool_same. split; [done|]. by right. Qed.

Lemma fine_submit w answer request w' o :
  winv w → admissible_event w (SubmitProvenTransaction answer request) →
  exec (SubmitProvenTransaction answer request) w = Some (w', o) →
  fine w (SubmitProvenTransaction answer request) w' o.
Proof.
  intros Hw Ha [= He]. pose proof Hw as [(ta & ba & Hm & Ho) _ _ _].
  unfold Server.submit_proven_transaction in He. cbn in Ha.
  destruct (Server.authenticate_request answer request) as [e|tx].
  - cbn in He. injection He as <- <-. by apply fine_rejected.
  - eapply (locked_wp _ _ _ _ _ (fine w _)) in He;
      [exact He|by apply (wp_mempool_add _ ta ba), Ha| |]; cbn beta.
    + intros m _ (_ & HF & _ & _ & ps & _ & Hm'). split; [|by left]. eapply winv_frame; eauto using kept_refl.
    + intros m e [-> _]. by apply fine_rejected.
Qed.

Lemma fine_subscribe w tip w' o :
  winv w → exec (MempoolSubscription tip) w = Some (w', o) → fine w (MempoolSubscription tip) w' o.
Proof.
  intros Hw [= He]. pose proof Hw as [(ta & ba & Hm & Ho) _ _ _].
  eapply (locked_wp _ _ _ _ _ (fine w _)) in He; [exact He|by apply (wp_mempool_subscribe _ ta ba)| |]; cbn beta.
  - intros m _ (HF & _ & Hm' & _). split; [|by left]. eapply winv_frame; eauto using kept_refl.
  - intros m e [-> _]. by apply fine_rejected.
Qed.

(** ** Batches *)

Lemma fine_batch_tick w i w' o :
  winv w → exec (BatchTick i) w = Some (w', o) → fine w (BatchTick i) w' o.
Proof.
  intros [(ta & ba & Hm & Ho) [Hlen Hids] Hs Hph] He. cbn in He.
  destruct (BatchBuilder.spawn_job i (batch_builder w)) as [bb|] eqn:Hsp; [|done]. injection He as <- <-.
  unfold BatchBuilder.spawn_job in Hsp.
  destruct (BatchBuilder.worker_pool (batch_builder w) !! i) as [[]|] eqn:Hi; try done. injection Hsp as <-.
  split; [|by left]. split; cbn; [exists ta, ba; split; [done|]| |done..].
  - eapply owned_perm; [|exact Ho]. unfold building. cbn. rewrite (omap_delete _ _ _ _ Hi), omap_app. cbn.
    by rewrite app_nil_r.
  - pose proof (lookup_lt_Some _ _ _ Hi). split.
    + rewrite length_app, length_delete by eauto. cbn. lia.
    + apply Forall_app. split; [by apply Forall_delete|by repeat constructor].
Qed.

Lemma pool_set pool i job :
  pool_ok pool → match job with
    | BatchBuilder.Building batch => BatchBuilder.id batch =
        batch_id_from_ids ((λ tx, (tx_id tx, account_id tx)) <$> BatchBuilder.transactions batch)
    | _ => True
    end → pool_ok (<[i := job]> pool).
Proof. intros [Hl Hf] Hj. split; [by rewrite length_insert|]. by apply Forall_insert. Qed.

Lemma fine_batch_select w i w' o :
  winv w → admissible_event w (BatchSelect i) → exec (BatchSelect i) w = Some (w', o) → fine w (BatchSelect i) w' o.
Proof.
  intros Hw Ha He. pose proof Hw as [(ta & ba & Hm & Ho) Hp Hs (tip & Ht & Hph)]. cbn in He, Ha.
  destruct (BatchBuilder.worker_pool (batch_builder w) !! i) as [[]|] eqn:Hi; try done.
  unfold BatchBuilder.select_batch, locked in He.
  pose proof (wp_run _ _ _ _ (wp_mempool_select_batch (E := Empty_set) _ _ _ Hm)) as Hrun.
  unfold mbind, M_bind, mret, M_ret in He. 
  destruct (Mempool.select_batch (mempool w)) as [m [[[id txs]|]|e| |]] eqn:Hsel; try done; injection He as <- <-.
  - destruct Hrun as (HF & (_ & Hid & _) & _ & ta' & ba' & Hm' & Hnew & pb & ->).
    specialize (Ha _ _ _ eq_refl). split; [|by left]. split; cbn.
    + exists ta', (a_insert id pb ba). split; [done|]. eapply owned_perm; [|by apply owned_insert].
      pose proof (building_set_job (set_mempool m w) i
        (BatchBuilder.Building (BatchBuilder.mk_selected_batch id txs)) _ Hi) as HP. cbn in HP.
      symmetry. exact HP.
    + by apply pool_set.
    + done.
    + exists tip. split; [done|]. by eapply phase_ok_frame.
  - destruct Hrun as (HF & _ & -> & ta' & ba' & Hm' & ->). split; [|by left]. split; cbn.
    + exists ta', ba. split; [done|]. eapply owned_perm; [|exact Ho].
      symmetry. exact (building_set_job (set_mempool (mempool w) w) i BatchBuilder.Ended _ Hi).
    + by apply pool_set.
    + done.
    + exists tip. by split.
Qed.

(** The result of a job is the batch it was given. *)
Lemma stages_id env bb batch proven :
  (∀ p r proven, BatchBuilder.prove_local env p = Some r → r = inr proven → batch_id proven = proposed_batch_id p) →
  (∀ p proven, BatchBuilder.prove_remote env p = inr proven → batch_id proven = proposed_batch_id p) →
  BatchBuilder.stages env bb batch = inr proven →
  batch_id proven = batch_id_from_ids ((λ tx, (tx_id tx, account_id tx)) <$> BatchBuilder.transactions batch).
Proof.
  intros Hl Hr. unfold BatchBuilder.stages, BatchBuilder.get_batch_inputs, BatchBuilder.propose_batch,
    BatchBuilder.prove_batch, BatchBuilder.inject_failure.
  destruct (BatchBuilder.get_inputs _ _ _) as [e|inputs]; cbn; [done|].
  destruct (proposed_batch_new _ _) as [e|p] eqn:Hp; cbn; [done|].
  assert (proposed_batch_id p = batch_id_from_ids
    ((λ tx, (tx_id tx, account_id tx)) <$> BatchBuilder.transactions batch)) as <-.
  { rewrite (proposed_batch_id_spec _ _ _ Hp). by rewrite <- list_fmap_compose. }
  destruct (BatchBuilder.batch_prover bb).
  - destruct (BatchBuilder.prove_local env p) as [[e|pb]|] eqn:Hb; cbn; try done.
    case_decide; cbn; [done|]. destruct (Qle_bool _ _); intros [= <-]. by eapply Hl.
  - destruct (BatchBuilder.prove_remote env p) as [e|pb] eqn:Hb; cbn; try done.
    case_decide; cbn; [done|]. destruct (Qle_bool _ _); intros [= <-]. by eapply Hr.
Qed.

Lemma fine_batch_return w i env w' o :
  winv w → admissible_event w (BatchReturn i env) → exec (BatchReturn i env) w = Some (w', o) →
  fine w (BatchReturn i env) w' o.
Proof.
  intros Hw [Hl Hr] He. pose proof Hw as [(ta & ba & Hm & Ho) Hp Hs (tip & Ht & Hph)]. cbn in He.
  destruct (BatchBuilder.worker_pool (batch_builder w) !! i) as [[|batch|]|] eqn:Hi; try done. injection He as He.
  pose proof (building_set_job w i BatchBuilder.Ended _ Hi) as HP.
  set (ids := building (set_batch_builder (BatchBuilder.set_job i BatchBuilder.Ended (batch_builder w)) w)) in HP.
  cbn [batch_in option_list app] in HP.
  assert (∀ m ta' ba', minv_full m ta' ba' → frame (mempool w) m → owned ba' ids →
    fine w (BatchReturn i env) (set_batch_builder (BatchBuilder.set_job i BatchBuilder.Ended (batch_builder w))
      (set_mempool m w)) Returned) as Hdone.
  { intros m ta' ba' Hm' HF Ho'. split; [|by left]. split; cbn; [by exists ta', ba'|by apply pool_set|done|].
    exists tip. split; [done|]. by eapply phase_ok_frame. }
  apply (owned_perm _ _ _ (symmetry HP)) in Ho.
  assert (BatchBuilder.id batch ∈ BatchBuilder.id batch :: ids) as Hin by by left.
  unfold BatchBuilder.build_batch in He.
  destruct (BatchBuilder.stages env (batch_builder w) batch) as [e|proven] eqn:Hst.
  - eapply (locked_wp _ _ _ _ _ (fine w _)) in He; [exact He|apply (wp_mempool_rollback_batch _ ta ba _ Hm)| |done];
      cbn beta.
    + intros HB. apply (mf_block _ _ _ Hm) in HB as (v & ps & HB).
      pose proof (own_unproven _ _ Ho _ Hin) as Hu. unfold value_of in Hu. rewrite HB in Hu. naive_solver.
    + intros m _ (HF & _ & ta' & ba' & Rb & Hm' & _ & HRb & _ & ->). apply (Hdone m ta' _ Hm' HF).
      apply (owned_drop _ _ (BatchBuilder.id batch)); [|by eapply owned_kept, Ho; apply kept_remove].
      rewrite a_remove_lookup. case_decide as Hd; [done|]. apply eq_None_not_Some. intros Hsome%fmap_is_Some.
      apply Hd, HRb. split; [done|constructor].
  - assert (batch_id proven = BatchBuilder.id batch) as Hid.
    { rewrite (stages_id _ _ _ _ Hl Hr Hst). symmetry. destruct Hp as [_ Hf].
      apply (proj1 (Forall_lookup _ _) Hf _ _ Hi). }
    eapply (locked_wp _ _ _ _ _ (fine w _)) in He; [exact He|apply (wp_mempool_commit_batch _ ta ba _ Hm)| |done];
      cbn beta.
    + rewrite Hid. intros Hsome. apply pending_value. split; [done|]. by apply (own_unproven _ _ Ho).
    + intros m _ (HF & _ & ba' & Hm' & ->). apply (Hdone m ta _ Hm' HF). rewrite Hid. by apply owned_promote.
Qed.

(** ** Blocks *)

Lemma selects_kept ba (l : list BatchId) ba' : selects ba l ba' → kept ba ba'.
Proof.
  intros Hs b Hb. split; [|by apply (selects_value _ _ _ _ Hs)]. by apply (selects_is_Some _ _ _ _ Hs).
Qed.

Lemma fine_block_select w w' o :
  winv w → exec BlockSelect w = Some (w', o) → fine w BlockSelect w' o.
Proof.
  intros Hw He. pose proof Hw as [(ta & ba & Hm & Ho) Hp Hs (tip & Ht & Hph)]. cbn in He.
  destruct (BlockBuilder.phase (block_builder w)) eqn:Hphase; try done. destruct Hph as [Hnone Htip].
  unfold BlockBuilder.select_block, locked in He.
  pose proof (wp_run _ _ _ _ (wp_mempool_select_block (E := Empty_set) _ _ _ Hm Hnone)) as Hrun.
  unfold mbind, M_bind, mret, M_ret in He.
  destruct (Mempool.select_block (mempool w)) as [m [[number batches]|e| |]]; try done; injection He as <- <-.
  destruct Hrun as (_ & _ & Htip' & Hblk & _ & ba' & Hsel & Hm' & _).
  split; [|by left]. split; cbn; [|done..|].
  - exists ta, ba'. split; [done|]. by eapply owned_kept, Ho; eapply selects_kept.
  - exists tip. split; [done|]. rewrite Hblk, Htip'. done.
Qed.

Lemma stages_block_ok env bb selected block :
  (∀ p block, BlockBuilder.prove_local env p = inr block → block_ok block) →
  (∀ p block, BlockBuilder.prove_remote env p = inr block → block_ok block) →
  BlockBuilder.stages env bb selected = inr block → block_ok block.
Proof.
  intros Hl Hr. unfold BlockBuilder.stages, BlockBuilder.get_block_inputs, BlockBuilder.propose_block,
    BlockBuilder.prove_block, BlockBuilder.prove, BlockBuilder.inject_failure.
  destruct (BlockBuilder.get_inputs _ _ _ _ _) as [e|inputs]; cbn; [done|].
  destruct (proposed_block_new _ _) as [e|p]; cbn; [done|].
  destruct (BlockBuilder.block_prover bb).
  - destruct (BlockBuilder.prove_local env p) as [e|pb] eqn:Hb; cbn; [done|].
    case_decide; cbn; [done|]. destruct (Qle_bool _ _); intros [= <-]. by eapply Hl.
  - destruct (BlockBuilder.prove_remote env p) as [e|pb] eqn:Hb; cbn; [done|].
    case_decide; cbn; [done|]. destruct (Qle_bool _ _); intros [= <-]. by eapply Hr.
Qed.

(** What the store holds after the block was sent to it. *)
Lemma apply_to_store_spec env faults bb selected s tip :
  consistent s → is_tip (StoreState.db s) tip →
  (∀ p block, BlockBuilder.prove_local env p = inr block → block_ok block) →
  (∀ p block, BlockBuilder.prove_remote env p = inr block → block_ok block) →
  BlockBuilder.answer_lost env = false →
  let '(s', p) := BlockBuilder.apply_to_store env faults bb selected s in
  consistent s' ∧
  match p with
  | BlockBuilder.Applied h => header_block_num h = (tip + 1)%N ∧ is_tip (StoreState.db s') (tip + 1)%N
  | BlockBuilder.Failed _ => is_tip (StoreState.db s') tip
  | _ => False
  end.
Proof.
  intros Hc Ht Hl Hr Hlost. unfold BlockBuilder.apply_to_store. rewrite Hlost.
  destruct (BlockBuilder.stages env bb selected) as [e|block] eqn:Hst; [done|].
  pose proof (stages_block_ok _ _ _ _ Hl Hr Hst) as Hb.
  pose proof (wp_apply_block faults block s Hc Hb) as Hrun. rewrite wp_unfold in Hrun.
  destruct (StoreState.apply_block faults block s) as [s' [[]|e| |]]; try done.
  - destruct Hrun as [Happ _]. split; [by eapply consistent_applied|].
    destruct Happ as [(tip' & Ht' & Hnum & _) Hwr _ _ _ _ _].
    assert (tip' = tip) as ->.
    { pose proof (Ht tip') as Ha1. pose proof (Ht' tip') as Ha2. pose proof (Ht tip) as Ha3. pose proof (Ht' tip) as Ha4.
      assert (tip' ≤ tip)%N by (apply Ha1, Ha2; lia). assert (tip ≤ tip')%N by (apply Ha4, Ha3; lia). lia. }
    split; [done|]. exact (written_tip _ _ _ _ _ _ _ _ Ht Hnum Hwr).
  - split; [destruct Hc; split; by rewrite ?(un_db _ _ _ Hrun), ?(un_inner _ _ _ Hrun)|]. by rewrite (un_db _ _ _ Hrun).
Qed.

Lemma fine_block_build w env faults w' o :
  winv w → admissible_event w (BlockBuild env faults) → exec (BlockBuild env faults) w = Some (w', o) →
  fine w (BlockBuild env faults) w' o.
Proof.
  intros Hw (Hl & Hr & Hlost) He. pose proof Hw as [Hmp Hp Hs (tip & Ht & Hph)]. cbn in He.
  destruct (BlockBuilder.phase (block_builder w)) as [|block| |] eqn:Hphase; try done.
  pose proof (apply_to_store_spec env faults (block_builder w) block _ _ Hs Ht Hl Hr Hlost) as Hspec.
  destruct (BlockBuilder.apply_to_store env faults (block_builder w) block (store w)) as [s' p].
  injection He as <- <-. destruct Hspec as [Hc Hspec], Hph as [Hblk Htip]. split; [|by left].
  split; cbn; [done..|]. destruct p; try done.
  - exists (tip + 1)%N. destruct Hspec as [Hh Ht']. split; [done|]. cbn. by rewrite Htip.
  - by exists tip.
Qed.

Lemma fine_block_return w w' o :
  winv w → exec BlockReturn w = Some (w', o) → fine w BlockReturn w' o.
Proof.
  intros Hw He. pose proof Hw as [(ta & ba & Hm & Ho) Hp Hs (tip & Ht & Hph)]. cbn in He.
  assert (∀ m ta' ba', minv_full m ta' ba' → kept ba ba' → Mempool.block_in_progress m = None →
    Mempool.chain_tip m = tip → fine w BlockReturn
      (set_block_builder (BlockBuilder.set_phase BlockBuilder.Idle (block_builder w)) (set_mempool m w)) Returned) as Hdone.
  { intros m ta' ba' Hm' Hk Hnone Htip. split; [|by left]. split; cbn; [|done..|by exists tip].
    exists ta', ba'. split; [done|]. by eapply owned_kept. }
  destruct (BlockBuilder.phase (block_builder w)) as [| |header|e] eqn:Hphase; try done; injection He as He;
    cbn in Hph; destruct (Mempool.block_in_progress (mempool w)) as [B|] eqn:HB; try naive_solver.
  - destruct Hph as (_ & Hh & Htip).
    eapply (locked_wp _ _ _ _ _ (fine w _)) in He; [exact He|
      apply (wp_mempool_commit_block _ ta ba header B Hm HB); congruence| |done]; cbn beta.
    intros m _ (Htip' & Hnone & expired & R & ta' & ba' & Hm' & _ & _ & _ & _ & Hk & _).
    eapply Hdone; try done. by rewrite Htip', Htip.
  - destruct Hph as (_ & Htip).
    eapply (locked_wp _ _ _ _ _ (fine w _)) in He; [exact He|
      apply (wp_mempool_rollback_block _ ta ba B Hm HB)| |done]; cbn beta.
    intros m _ (Htip' & Hnone & R & ta' & ba' & Hm' & _ & _ & _ & Hk & _).
    eapply Hdone; try done. by rewrite Htip', Htip.
Qed.

(** ** The system *)

Lemma exec_fine w ev w' o :
  winv w → admissible_event w ev → exec ev w = Some (w', o) → fine w ev w' o.
Proof.
  destruct ev; eauto using fine_submit, fine_subscribe, fine_batch_tick, fine_batch_select, fine_batch_return,
    fine_block_select, fine_block_build, fine_block_return.
Qed.

Lemma winv_serve s tip max_txs max_batches batch_url block_url :
  consistent s → is_tip (StoreState.db s) tip → winv (serve s tip max_txs max_batches batch_url block_url).
Proof.
  intros Hc Ht. split; cbn; [|split; [done|by repeat constructor]|done|by exists tip].
  destruct (reachable_inv _ (reachable_new tip
    (Mempool.batch_budget (mempool (serve s tip max_txs max_batches batch_url block_url)))
    (Mempool.block_budget (mempool (serve s tip max_txs max_batches batch_url block_url)))
    SERVER_MEMPOOL_STATE_RETENTION SERVER_MEMPOOL_EXPIRATION_SLACK eq_refl)) as (ta & ba & Hm).
  exists ta, ba. split; [done|]. split; [constructor|by intros b ?%elem_of_nil|].
  intros b Hp. exfalso.
  apply (rep_pending _ _ (rep_is_core _ _ (b_rep _ _ (m_batch _ _ _ (mf_inv _ _ _ Hm))))) in Hp. set_solver.
Qed.

Lemma produces_inv w : produces w → winv w.
Proof.
  induction 1 as [|w ev w' o _ Hw Ha He]; [by apply winv_serve|]. by destruct (exec_fine _ _ _ _ Hw Ha He).
Qed.

(** A job that selects a batch, whichever one, returns. *)
Lemma select_returns w i w' o : winv w → exec (BatchSelect i) w = Some (w', o) → o = Returned.
Proof.
  intros [(ta & ba & Hm & _) _ _ _] He. cbn in He.
  destruct (BatchBuilder.worker_pool (batch_builder w) !! i) as [[]|]; try done.
  unfold BatchBuilder.select_batch, locked in He.
  pose proof (wp_run _ _ _ _ (wp_mempool_select_batch (E := Empty_set) _ _ _ Hm)) as Hrun.
  unfold mbind, M_bind, mret, M_ret in He.
  by destruct (Mempool.select_batch (mempool w)) as [m [[[id txs]|]|e| |]]; try done; injection He as <- <-.
Qed.

(** C23: The tasks of the block producer do not crash the mempool, as long as no two
    jobs build the same batch. Take any interleaving of the batch jobs, the block
    builder and the requests of clients, with any answers and failures of the store
    and of the provers that [admissible_event] allows: a transaction that is submitted
    can be told from those inflight, no batch is selected again while a job still
    builds it, a prover returns the batch it was given, proven blocks are ones that the
    store's contract covers, and the store's answer to a block is not lost. Then each
    call of the mempool returns; only a submission or a subscription is rejected, and
    then nothing changes. The code does not ensure these conditions: after the batch of
    a parent transaction fails, the batch of its child can be selected again while a
    job still builds it, and the second of the two jobs to return makes the mempool
    panic under its lock ([producer_duplicate_batch_panics]). *)
Theorem producer_never_panics w ev w' o (Hw : produces w)
    (Ha : match ev with SubmitProvenTransaction _ _ | BatchReturn _ _ => admissible_event w ev | _ => True end)
    (He : exec ev w = Some (w', o)) :
  o = Returned ∨ o = Rejected ∧ w' = w ∧
    match ev with SubmitProvenTransaction _ _ | MempoolSubscription _ => True | _ => False end.
Proof.
  apply produces_inv in Hw. destruct ev as [| | |i| | |env faults|];
    try (match type of He with exec ?ev _ = _ => by destruct (exec_fine w ev w' o Hw Ha He) end).
  - left. by apply (select_returns w i w').
  - left. cbn in He. destruct (BlockBuilder.phase (block_builder w)); try done.
    destruct (BlockBuilder.apply_to_store _ _ _ _). by injection He as _ <-.
Qed.

(** C24: The builders stay in step with the mempool and with the chain, as long as no
    two jobs build the same batch and the store's answers arrive. In every state that
    the events of [admissible_event] reach: no two jobs hold the same batch; a batch of
    the mempool waits for a proof exactly when some job is building it, so that none is
    left in limbo (a job may also be building a batch that the mempool has dropped);
    and the pool is at its capacity. A block is in progress exactly while the block
    builder is not idle, and the mempool's chain tip is that of the store, except after
    the store has applied a block and before the mempool has learned of it. Otherwise a
    batch can be selected twice ([producer_duplicate_batch_panics]), and a lost answer
    of the store leaves the mempool behind the chain for good
    ([producer_lost_answer]). *)
Theorem producer_in_step w (Hw : produces w) :
  NoDup (building w) ∧
  (∀ b, BatchGraph.contains b (Mempool.batches (mempool w)) = true →
    b ∈ Graph.pending (BatchGraph.inner (Mempool.batches (mempool w))) ↔ b ∈ building w) ∧
  length (BatchBuilder.worker_pool (batch_builder w)) = Pos.to_nat SERVER_NUM_BATCH_BUILDERS ∧
  (BlockBuilder.phase (block_builder w) = BlockBuilder.Idle ↔ Mempool.block_in_progress (mempool w) = None) ∧
  ∃ tip, is_tip (StoreState.db (store w)) tip ∧
    tip = match BlockBuilder.phase (block_builder w) with
          | BlockBuilder.Applied _ => Mempool.chain_tip (mempool w) + 1
          | _ => Mempool.chain_tip (mempool w)
          end%N.
Proof.
  destruct (produces_inv _ Hw) as [(ta & ba & Hm & [Hn Hu Hb]) [Hlen _] _ (tip & Ht & Hph)].
  pose proof (m_batch _ _ _ (mf_inv _ _ _ Hm)) as Hbi. split_and!; [done| |done| |].
  - intros b Hc. rewrite (rep_pending _ _ (rep_is_core _ _ (b_rep _ _ Hbi))). split; [apply Hb|].
    intros Hin. apply bool_decide_eq_true in Hc. apply (b_dom _ _ Hbi) in Hc. apply pending_value. auto.
  - destruct (BlockBuilder.phase (block_builder w)); cbn in Hph; naive_solver.
  - exists tip. split; [done|]. destruct (BlockBuilder.phase (block_builder w)); cbn in Hph; naive_solver.
Qed.

End producer.
