(* ===== verification/ProducerSpends.v ===== *)
(** * No double spend through the whole block producer

    A nullifier travels from a transaction of a client through the mempool, a batch
    and a block into the store's table. The mempool forgets a block once it has
    retained enough of them, and relies on the store's answer for what is older. This
    file shows that nothing falls between the two: no inflight transaction spends a
    nullifier of the store, whatever the interleaving of the tasks of [Producer.v]. *)

From Stdlib Require Import QArith_base.
From S2P Require Import Prelude.
From S2P Require Import Graph.
From S2P Require Import GraphProofs.
From S2P Require Import GraphRemoval.
From S2P Require Import TransactionGraphProofs.
From S2P Require Import External.
From S2P Require Import NtxAccount.
From S2P Require Import StoreObjects.
From S2P Require Import StoreSql.
From S2P Require Import StoreTrees.
From S2P Require Import StoreState.
From S2P Require Import StoreProofs.
From S2P Require Import StoreApply.
From S2P Require Import WireObjects.
From S2P Require Import WireTheorems.
From S2P Require Import StoreApi.
From S2P Require Import StoreClient.
From S2P Require Import StoreApiTheorems.
From S2P Require Import Transaction.
From S2P Require Import InflightState.
From S2P Require Import InflightProofs.
From S2P Require Import InflightOps.
From S2P Require Import Subscription.
From S2P Require Import BatchGraph.
From S2P Require Import BatchGraphProofs.
From S2P Require Import Mempool.
From S2P Require Import MempoolInv.
From S2P Require Import MempoolOps.
From S2P Require Import MempoolTheorems.
From S2P Require Import Producer.
From S2P Require Import ProducerTheorems.
Import GraphSpec Producer.

Section spends.
Context `{!MidenObjects} `{!NtxObjects} `{!StoreObjects} `{!StoreTrees} `{!ProducerObjects} `{!Channel}.
Context `{!MidenLaws} `{!StoreLaws} `{!TreeLaws} `{!ProducerLaws} `{!ChannelLaws}.
Implicit Types (w : World) (m : Mempool.Mempool) (n : Nullifier) (bn : BlockNumber) (bid : BatchId).
Implicit Types (ta : agraph TransactionId AuthenticatedTransaction) (ba : agraph BatchId ProvenBatch).
Implicit Types (db : Sql.Tables) (d : InflightState.Delta).

(** The nullifier [n] is spent in block [bn] of the store. *)
Definition spent_in db n bn : Prop := ∃ p, Sql.nullifiers db !! n = Some (p, bn).

(** The transaction [t] is inflight, neither committed nor reverted, and spends [n]. *)
Definition spends m (t : TransactionId) n : Prop :=
  ∃ d, InflightState.transaction_deltas (Mempool.state m) !! t = Some d ∧ n ∈ InflightState.nullifiers_d d.

(** What the answers of the store and of the provers are trusted for. The store's
    answer, whenever it was read, names each nullifier of the transaction that was
    spent by the block it names. A proven batch creates only nullifiers of its
    transactions, and a proven block only those of its batches. *)
Definition honest_event w (ev : Event) : Prop :=
  match ev with
  | SubmitProvenTransaction answer _ =>
    ∀ tx inputs n bn, answer tx = Some inputs → n ∈ ptx_nullifiers tx →
      spent_in (StoreState.db (store w)) n bn → (bn ≤ ti_current_block_height inputs)%N →
      is_Some (mjoin (ti_nullifiers inputs !! n))
  | BatchReturn _ env =>
    ∀ txs inputs p b n, proposed_batch_new txs inputs = inr p →
      BatchBuilder.prove_local env p = Some (inr b) ∨ BatchBuilder.prove_remote env p = inr b →
      n ∈ batch_created_nullifiers b → ∃ tx, tx ∈ txs ∧ n ∈ ptx_nullifiers tx
  | BlockBuild env _ =>
    ∀ batches inputs p b n, proposed_block_new inputs batches = inr p →
      BlockBuilder.prove_local env p = inr b ∨ BlockBuilder.prove_remote env p = inr b →
      n ∈ block_created_nullifiers b → ∃ batch, batch ∈ batches ∧ n ∈ batch_created_nullifiers batch
  | _ => True
  end.

(** The states of the system with honest answers. *)
Inductive runs_honestly : World → Prop :=
| honest_serve s tip max_txs max_batches batch_url block_url :
    consistent s → is_tip (StoreState.db s) tip →
    runs_honestly (serve s tip max_txs max_batches batch_url block_url)
| honest_exec w ev w' o :
    runs_honestly w → admissible_event w ev → honest_event w ev → exec ev w = Some (w', o) → runs_honestly w'.

Lemma runs_produces w : runs_honestly w → produces w.
Proof. induction 1; [by eapply produces_serve|by eapply produces_exec]. Defined.

(** ** Batches and their transactions *)

(** The id of a batch determines its transactions. *)
Definition in_batch (t : TransactionId) bid : Prop := ∃ txs, bid = batch_id_from_ids txs ∧ t ∈ txs.*1.

(** Each nullifier of the batch is that of one of its transactions. *)
Definition honest_batch (b : ProvenBatch) : Prop :=
  ∀ n, n ∈ batch_created_nullifiers b → ∃ tx, n ∈ nullifiers_of tx ∧ in_batch (tx_id tx) (batch_id b).

Lemma in_batch_from (txs : list AuthenticatedTransaction) tx :
  tx ∈ txs → in_batch (tx_id tx) (batch_id_from_ids ((λ tx, (tx_id tx, account_id tx)) <$> txs)).
Proof.
  intros Hin. eexists. split; [done|]. rewrite batch_ids. by apply list_elem_of_fmap_2.
Qed.

Lemma in_batch_spec m ta ba t bid :
  minv m ta ba → is_Some (ba !! bid) → in_batch t bid → BatchGraph.transactions (Mempool.batches m) !! t = Some bid.
Proof.
  intros Hm Hb (txs & -> & Ht). pose proof (m_batch _ _ _ Hm) as Hbi.
  apply (b_dom _ _ Hbi) in Hb as [l Hl]. apply (b_txs _ _ Hbi). exists l. split; [done|].
  destruct (b_ids _ _ Hbi _ _ Hl) as (txs' & ->%batch_id_inj & <-). done.
Qed.

(** What is inflight, in terms of the graph of the transactions. *)
Lemma spends_value m ta ba t n :
  minv m ta ba → spends m t n ↔ ∃ tx, value_of ta t = Some tx ∧ n ∈ nullifiers_of tx.
Proof.
  intros Hm. unfold spends. rewrite (m_deltas _ _ _ Hm). split.
  - intros (d & (tx & Hv & ->)%fmap_Some & Hn). cbn in Hn. rewrite elem_of_list_to_set in Hn. eauto.
  - intros (tx & Hv & Hn). exists (InflightState.delta_new tx). rewrite Hv. split; [done|].
    by apply elem_of_list_to_set.
Qed.

(** A nullifier has one spender. *)
Lemma spends_unique m ta ba t t' n : minv m ta ba → spends m t n → spends m t' n → t = t'.
Proof.
  intros Hm (d & Hd & Hn) (d' & Hd' & Hn'). destruct (decide (t = t')) as [|Hne]; [done|].
  pose proof (i_books _ (m_state _ _ _ Hm)) as Hbooks.
  destruct (linv_exclusive _ _ _ _ _ _ Hbooks Hne Hd Hd') as [HN _]. by destruct (HN n).
Qed.

(** A batch that is in the mempool has its nullifiers inflight. *)
Lemma honest_batch_spends m ta ba b n :
  minv m ta ba → honest_batch b → is_Some (ba !! batch_id b) → n ∈ batch_created_nullifiers b →
  ∃ t, spends m t n ∧ in_batch t (batch_id b).
Proof.
  intros Hm Hb Hin Hn. destruct (Hb n Hn) as (tx & Htx & Hbt). exists (tx_id tx). split; [|done].
  pose proof (in_batch_spec _ _ _ _ _ Hm Hin Hbt) as Ht.
  assert (is_processed ta (tx_id tx)) as (tx' & ps & Hp) by (apply (x_batched _ _ _ (m_cross _ _ _ Hm)); eauto).
  apply (spends_value _ _ _ _ _ Hm). exists tx'. assert (value_of ta (tx_id tx) = Some tx') as Hv.
  { unfold value_of. by rewrite Hp. }
  split; [done|]. pose proof (value_id _ _ _ _ (m_tx _ _ _ Hm) Hv) as Hid.
  unfold nullifiers_of, tx_id in *. by rewrite (ptx_id_nullifiers _ _ Hid).
Qed.

(** ** The invariant *)

(** The proof of the batch [bid], once it is there. *)
Definition proven m bid : option ProvenBatch := Graph.vertices (BatchGraph.inner (Mempool.batches m)) !! bid.

Lemma proven_value m ta ba bid : minv m ta ba → proven m bid = value_of ba bid.
Proof.
  intros Hm. unfold proven. by rewrite (rep_vertices _ _ (rep_is_core _ _ (b_rep _ _ (m_batch _ _ _ Hm)))).
Qed.

(** The retained block with number [bn] spends [n]. *)
Definition remembered m n bn : Prop :=
  ∃ block t d, retained_blocks m !! N.to_nat (bn + N.of_nat (length (retained_blocks m)) - Mempool.chain_tip m - 1) = Some block ∧
    block !! t = Some d ∧ n ∈ InflightState.nullifiers_d d.

(** Some transaction of the block in progress spends [n]. *)
Definition in_progress m n : Prop :=
  ∃ t bid, spends m t n ∧ in_batch t bid ∧ bid ∈ default ∅ (Mempool.block_in_progress m).

Definition selected_ok m (p : BlockBuilder.Phase) : Prop :=
  match p with
  | BlockBuilder.Selected block =>
    (∀ b, b ∈ BlockBuilder.batches block → honest_batch b) ∧
    Mempool.block_in_progress m = Some (list_to_set (batch_id <$> BlockBuilder.batches block))
  | _ => True
  end.

(** A nullifier of the store is that of an old block, or of a block the mempool
    retains, or of the block in progress; only in the last case some inflight
    transaction spends it. *)
Record no_replay m db (p : BlockBuilder.Phase) : Prop := {
  r_recent : ∀ n bn, spent_in db n bn → (bn ≤ Mempool.chain_tip m)%N →
    (Mempool.chain_tip m < bn + N.of_nat (length (retained_blocks m)))%N → remembered m n bn;
  r_applied : ∀ n bn, spent_in db n bn → (Mempool.chain_tip m < bn)%N → in_progress m n;
  r_fresh : ∀ t n bn, spends m t n → spent_in db n bn → (Mempool.chain_tip m < bn)%N;
  r_batches : ∀ bid b, proven m bid = Some b → honest_batch b;
  r_selected : selected_ok m p;
}.

Definition safe w : Prop :=
  no_replay (mempool w) (StoreState.db (store w)) (BlockBuilder.phase (block_builder w)).

(** What the mempool remembers, a new transaction cannot spend. *)
Lemma remembered_present m ta ba n bn :
  minv m ta ba → remembered m n bn → n ∈ InflightState.nullifiers (Mempool.state m).
Proof.
  intros Hm (block & t & d & Hb & Hd & Hn).
  apply (partitions_elem _ _ _ (l_nullifiers _ _ (i_books _ (m_state _ _ _ Hm)))).
  exists (InflightState.nullifiers_d d). split; [|done]. apply list_elem_of_fmap_2, elem_of_app. right.
  unfold committed_deltas. apply list_elem_of_In, in_concat. exists (map_to_list block).*2.
  rewrite <- !list_elem_of_In. split.
  - apply list_elem_of_fmap. exists block. split; [done|]. by eapply list_elem_of_lookup_2.
  - by apply (list_elem_of_fmap_2 snd _ (t, d)), elem_of_map_to_list.
Qed.

Lemma spends_present m ta ba t n :
  minv m ta ba → spends m t n → n ∈ InflightState.nullifiers (Mempool.state m).
Proof. intros Hm (d & Hd & Hn). by apply (proj1 (linv_owned _ _ _ _ (i_books _ (m_state _ _ _ Hm)) Hd)). Qed.

Lemma remembered_frame m m' n bn : frame m m' → remembered m n bn → remembered m' n bn.
Proof. intros (Ht & _ & _ & _ & Hh). unfold remembered. by rewrite Ht, Hh. Qed.

(** A step that only adds to what is inflight. *)
Lemma no_replay_mono m m' db p :
  no_replay m db p → frame m m' →
  (∀ t n, spends m t n → spends m' t n) →
  (∀ t n, spends m' t n → spends m t n ∨ ¬ ∃ bn, spent_in db n bn) →
  (∀ bid b, proven m' bid = Some b → honest_batch b) →
  no_replay m' db p.
Proof.
  intros [Hrec Happ Hfresh _ Hsel] HF Hkeep Hnew Hbatches. pose proof HF as (Ht & Hblk & _ & _ & Hh).
  split; rewrite ?Ht, ?Hh; [..|done|].
  - intros n bn Hs Hle Hlt. apply (remembered_frame m m' _ _ HF). eauto.
  - intros n bn Hs Hlt. destruct (Happ n bn Hs Hlt) as (t & bid & Hsp & Hin & Hp). exists t, bid. rewrite Hblk. eauto.
  - intros t n bn Hsp Hs. destruct (Hnew _ _ Hsp) as [|[]]; eauto.
  - unfold selected_ok. by rewrite Hblk.
Qed.

Lemma spends_same m m' ta ta' ba ba' :
  minv m ta ba → minv m' ta' ba' → (∀ t, value_of ta' t = value_of ta t) →
  ∀ t n, spends m' t n ↔ spends m t n.
Proof. intros Hm Hm' Hv t n. by rewrite (spends_value _ _ _ _ _ Hm), (spends_value _ _ _ _ _ Hm'), Hv. Qed.

(** ** Submissions *)

Lemma authenticated_request answer request tx :
  Server.authenticate_request answer request = inr tx →
  ∃ inputs, answer (inner tx) = Some inputs ∧ authentication_height tx = ti_current_block_height inputs ∧
    ∀ n, n ∈ nullifiers_of tx → mjoin (ti_nullifiers inputs !! n) = None.
Proof.
  unfold Server.authenticate_request, Server.get_tx_inputs.
  destruct (ptx_read_from_bytes request) as [ptx|]; [|done].
  destruct (answer ptx) as [inputs|] eqn:Ha; cbn; [|done]. case_decide; cbn; [done|].
  unfold authenticate. destruct (filter _ _) eqn:Hf; [|done]. intros [= <-]. exists inputs.
  split; [done|]. split; [done|]. intros n Hn. apply eq_None_not_Some. intros Hs.
  assert (n ∈ filter (λ n, is_Some (mjoin (ti_nullifiers inputs !! n))) (ptx_nullifiers ptx)) as Hin
    by by apply list_elem_of_filter.
  rewrite Hf in Hin. by apply elem_of_nil in Hin.
Qed.

(** A transaction that the mempool admits spends nothing the store has spent. *)
Lemma admitted_fresh w ta ba answer request tx n :
  minv (mempool w) ta ba → safe w → honest_event w (SubmitProvenTransaction answer request) →
  Server.authenticate_request answer request = inr tx → admissible (Mempool.state (mempool w)) tx →
  n ∈ nullifiers_of tx → ¬ ∃ bn, spent_in (StoreState.db (store w)) n bn.
Proof.
  intros Hm [Hrec Happ _ _ _] Hh Hreq Hadm Hn [bn Hs].
  destruct (authenticated_request _ _ _ Hreq) as (inputs & Ha & Hheight & Hnone).
  apply (adm_nullifiers _ _ Hadm n Hn).
  assert (ti_current_block_height inputs < bn)%N as Hlt.
  { apply N.lt_nge. intros Hle. destruct (Hh _ _ _ _ Ha Hn Hs Hle) as [x Hx]. by rewrite (Hnone n Hn) in Hx. }
  pose proof (adm_fresh _ _ Hadm) as Hfresh. rewrite (m_tip _ _ _ Hm) in Hfresh. fold (retained_blocks (mempool w)) in Hfresh.
  destruct (N.le_gt_cases bn (Mempool.chain_tip (mempool w))) as [Hle|Hgt].
  - eapply remembered_present; [done|]. apply Hrec; [done|done|lia].
  - destruct (Happ _ _ Hs Hgt) as (t & bid & Hsp & _). by eapply spends_present.
Qed.

Lemma spends_inserted m m' ta ba tx ps t n :
  minv m ta ba → minv m' (t_insert tx ps ta) ba →
  (spends m t n → spends m' t n) ∧ (spends m' t n → spends m t n ∨ n ∈ nullifiers_of tx).
Proof.
  intros Hm Hm'. rewrite (spends_value _ _ _ _ _ Hm), (spends_value _ _ _ _ _ Hm'), value_of_t_insert.
  split.
  - intros (tx' & Hv & Hn). case_decide as Hid; [|eauto]. exists tx. split; [done|].
    pose proof (value_id _ _ _ _ (m_tx _ _ _ Hm) Hv) as Hid'. unfold nullifiers_of, tx_id in *.
    by rewrite (ptx_id_nullifiers (inner tx) (inner tx')) by congruence.
  - intros (tx' & Hv & Hn). case_decide; [|eauto]. injection Hv as ->. by right.
Qed.

Lemma safe_submit w answer request w' o :
  winv w → safe w → admissible_event w (SubmitProvenTransaction answer request) →
  honest_event w (SubmitProvenTransaction answer request) →
  exec (SubmitProvenTransaction answer request) w = Some (w', o) → safe w'.
Proof.
  intros Hw Hsafe Ha Hh [= He]. pose proof Hw as [(ta & ba & Hm & Ho) _ _ _].
  unfold Server.submit_proven_transaction in He. cbn in Ha.
  destruct (Server.authenticate_request answer request) as [e|tx] eqn:Hreq.
  - cbn in He. injection He as <- <-. by rewrite set_mempool_same.
  - eapply (locked_wp _ _ _ _ _ (λ w' _, safe w')) in He;
      [exact He|by apply (wp_mempool_add _ ta ba), Ha| |]; cbn beta.
    + intros m _ (_ & HF & Hadm & _ & ps & _ & Hm'). unfold safe. cbn.
      eapply no_replay_mono; [exact Hsafe|done|..].
      * intros t n. by apply (spends_inserted _ _ _ _ _ _ t n (mf_inv _ _ _ Hm) (mf_inv _ _ _ Hm')).
      * intros t n Hsp. destruct (proj2 (spends_inserted _ _ _ _ _ _ t n (mf_inv _ _ _ Hm) (mf_inv _ _ _ Hm')) Hsp)
          as [|Hn]; [by left|right]. by eapply admitted_fresh; [apply (mf_inv _ _ _ Hm)|..].
      * intros bid b. rewrite (proven_value _ _ _ _ (mf_inv _ _ _ Hm')), <- (proven_value _ _ _ _ (mf_inv _ _ _ Hm)).
        apply (r_batches _ _ _ Hsafe).
    + intros m e [-> _]. by rewrite set_mempool_same.
Qed.

(** ** Subscriptions and batches *)

(** A step that changes nothing of what is inflight. *)
Lemma no_replay_same m m' db p :
  no_replay m db p → frame m m' → (∀ t n, spends m' t n ↔ spends m t n) →
  (∀ bid b, proven m' bid = Some b → honest_batch b) → no_replay m' db p.
Proof. intros Hn HF Hsame Hb. apply (no_replay_mono m); [done|done|..|done]; intros t n; rewrite Hsame; auto. Qed.

Lemma proven_kept m m' ta ta' ba ba' bid b :
  minv m ta ba → minv m' ta' ba' → kept ba ba' → proven m' bid = Some b → proven m bid = Some b.
Proof.
  intros Hm Hm' Hk. rewrite (proven_value _ _ _ _ Hm), (proven_value _ _ _ _ Hm'). intros Hv.
  destruct (Hk bid) as [_ Heq]; [|by rewrite <- Heq]. unfold value_of in Hv. destruct (ba' !! bid); [eauto|done].
Qed.

Lemma safe_subscribe w tip w' o :
  winv w → safe w → exec (MempoolSubscription tip) w = Some (w', o) → safe w'.
Proof.
  intros Hw Hsafe [= He]. pose proof Hw as [(ta & ba & Hm & Ho) _ _ _].
  eapply (locked_wp _ _ _ _ _ (λ w' _, safe w')) in He; [exact He|by apply (wp_mempool_subscribe _ ta ba)| |]; cbn beta.
  - intros m _ (HF & _ & Hm' & _). unfold safe. cbn. eapply no_replay_same; [exact Hsafe|done|..].
    + by apply (spends_same _ _ ta ta ba ba); [apply Hm|apply Hm'|].
    + intros bid b Hp. eapply (r_batches _ _ _ Hsafe), proven_kept, Hp; [apply Hm|apply Hm'|apply kept_refl].
  - intros m e [-> _]. by rewrite set_mempool_same.
Qed.

Lemma safe_batch_tick w i w' o : safe w → exec (BatchTick i) w = Some (w', o) → safe w'.
Proof.
  intros Hs He. cbn in He. destruct (BatchBuilder.spawn_job i (batch_builder w)); [|done]. by injection He as <- <-.
Qed.

Lemma value_of_a_insert ba bid pb bid' b : value_of (a_insert bid pb ba) bid' = Some b → value_of ba bid' = Some b.
Proof. unfold value_of, a_insert. rewrite lookup_insert. by case_decide. Qed.

Lemma safe_batch_select w i w' o :
  winv w → safe w → exec (BatchSelect i) w = Some (w', o) → safe w'.
Proof.
  intros Hw Hsafe He. pose proof Hw as [(ta & ba & Hm & Ho) _ _ _]. cbn in He.
  destruct (BatchBuilder.worker_pool (batch_builder w) !! i) as [[]|] eqn:Hi; try done.
  unfold BatchBuilder.select_batch, locked in He.
  pose proof (wp_run _ _ _ _ (wp_mempool_select_batch (E := Empty_set) _ _ _ Hm)) as Hrun.
  unfold mbind, M_bind, mret, M_ret in He.
  destruct (Mempool.select_batch (mempool w)) as [m [[[id txs]|]|e| |]]; try done; injection He as <- <-.
  - destruct Hrun as (HF & _ & [Hstate _] & ta' & ba' & Hm' & Hnew & pb & ->). unfold safe. cbn.
    eapply no_replay_same; [exact Hsafe|done|..].
    + intros t n. unfold spends. by rewrite Hstate.
    + intros bid b. rewrite (proven_value _ _ _ _ (mf_inv _ _ _ Hm')). intros Hv%value_of_a_insert.
      apply (r_batches _ _ _ Hsafe bid). by rewrite (proven_value _ _ _ _ (mf_inv _ _ _ Hm)).
  - destruct Hrun as (_ & _ & -> & _). exact Hsafe.
Qed.

(** The batch a job returns is honest. *)
Lemma stages_honest w i env bb batch proven :
  admissible_event w (BatchReturn i env) → honest_event w (BatchReturn i env) →
  BatchBuilder.id batch =
    batch_id_from_ids ((λ tx, (tx_id tx, account_id tx)) <$> BatchBuilder.transactions batch) →
  BatchBuilder.stages env bb batch = inr proven → batch_id proven = BatchBuilder.id batch ∧ honest_batch proven.
Proof.
  intros [Hl Hr] Hh Hid Hst. pose proof (stages_id _ _ _ _ Hl Hr Hst) as Hpid.
  split; [by rewrite Hid|]. intros n Hn. cbn in Hh.
  enough (∃ tx, tx ∈ BatchBuilder.transactions batch ∧ n ∈ nullifiers_of tx) as (tx & Hin & Htx).
  { exists tx. split; [done|]. rewrite Hpid. by apply in_batch_from. }
  revert Hst. unfold BatchBuilder.stages, BatchBuilder.get_batch_inputs, BatchBuilder.propose_batch,
    BatchBuilder.prove_batch, BatchBuilder.inject_failure.
  destruct (BatchBuilder.get_inputs _ _ _) as [e|inputs]; cbn; [done|].
  destruct (proposed_batch_new _ _) as [e|p] eqn:Hp; cbn; [done|]. intros Hst.
  assert (BatchBuilder.prove_local env p = Some (inr proven) ∨ BatchBuilder.prove_remote env p = inr proven) as Hpr.
  { revert Hst. destruct (BatchBuilder.batch_prover bb).
    - destruct (BatchBuilder.prove_local env p) as [[e|pb]|]; cbn; try done. case_decide; cbn; [done|].
      destruct (Qle_bool _ _); intros [= <-]. by left.
    - destruct (BatchBuilder.prove_remote env p) as [e|pb]; cbn; try done. case_decide; cbn; [done|].
      destruct (Qle_bool _ _); intros [= <-]. by right. }
  destruct (Hh _ _ _ _ _ Hp Hpr Hn) as (ptx & (tx & -> & Hin)%list_elem_of_fmap & Htx). by exists tx.
Qed.

Lemma value_of_promote ba bid v bid' b :
  value_of (a_promote bid v ba) bid' = Some b → b = v ∨ value_of ba bid' = Some b.
Proof.
  unfold value_of, a_promote. rewrite lookup_alter. case_decide; [|auto].
  subst. destruct (ba !! bid') as [[[] ps]|]; cbn; naive_solver.
Qed.

Lemma safe_batch_return w i env w' o :
  winv w → safe w → admissible_event w (BatchReturn i env) → honest_event w (BatchReturn i env) →
  exec (BatchReturn i env) w = Some (w', o) → safe w'.
Proof.
  intros Hw Hsafe Ha Hh He. pose proof Hw as [(ta & ba & Hm & Ho) [_ Hpool] _ _]. cbn in He.
  destruct (BatchBuilder.worker_pool (batch_builder w) !! i) as [[|batch|]|] eqn:Hi; try done. injection He as He.
  pose proof (proj1 (Forall_lookup _ _) Hpool _ _ Hi) as Hid. cbn in Hid.
  assert (value_of ba (BatchBuilder.id batch) = None ∨ ba !! BatchBuilder.id batch = None) as Hun.
  { destruct (ba !! BatchBuilder.id batch) eqn:Hb; [left|by right]. apply (own_unproven _ _ Ho); [|eauto].
    unfold building. apply list_elem_of_omap. eexists. split; [by eapply list_elem_of_lookup_2|done]. }
  assert (∀ m ta' ba', minv_full m ta' ba' → frame (mempool w) m → (∀ t, value_of ta' t = value_of ta t) →
    (∀ bid b, value_of ba' bid = Some b → value_of ba bid = Some b ∨ honest_batch b) →
    safe (set_batch_builder (BatchBuilder.set_job i BatchBuilder.Ended (batch_builder w)) (set_mempool m w))) as Hdone.
  { intros m ta' ba' Hm' HF Hv Hb. unfold safe. cbn. eapply no_replay_same; [exact Hsafe|done|..].
    - by apply (spends_same _ _ ta ta' ba ba'); [apply Hm|apply Hm'|].
    - intros bid b. rewrite (proven_value _ _ _ _ (mf_inv _ _ _ Hm')). intros [Hv'|?]%Hb; [|done].
      apply (r_batches _ _ _ Hsafe bid). by rewrite (proven_value _ _ _ _ (mf_inv _ _ _ Hm)). }
  unfold BatchBuilder.build_batch in He.
  destruct (BatchBuilder.stages env (batch_builder w) batch) as [e|pb] eqn:Hst.
  - eapply (locked_wp _ _ _ _ _ (λ w' _, safe w')) in He; [exact He|apply (wp_mempool_rollback_batch _ ta ba _ Hm)| |done];
      cbn beta.
    + intros HB. apply (mf_block _ _ _ Hm) in HB as (v & ps & HB). unfold value_of in Hun. rewrite HB in Hun. naive_solver.
    + intros m _ (HF & _ & ta' & ba' & Rb & Hm' & Hv & _ & _ & ->). apply (Hdone m ta' _ Hm' HF Hv).
      intros bid b. rewrite value_of_remove. case_decide; [done|auto].
  - destruct (stages_honest w i env _ _ _ Ha Hh Hid Hst) as [Hpid Hpb].
    eapply (locked_wp _ _ _ _ _ (λ w' _, safe w')) in He; [exact He|apply (wp_mempool_commit_batch _ ta ba _ Hm)| |done];
      cbn beta.
    + rewrite Hpid. intros Hsome. apply pending_value. split; [done|]. destruct Hun as [|Hno]; [done|].
      rewrite Hno in Hsome. by destruct Hsome.
    + intros m _ (HF & _ & ba' & Hm' & ->). apply (Hdone m ta _ Hm' HF); [done|].
      intros bid b [->|]%value_of_promote; auto.
Qed.

(** ** Blocks *)

Lemma safe_block_select w w' o :
  winv w → safe w → exec BlockSelect w = Some (w', o) → safe w'.
Proof.
  intros Hw Hsafe He. pose proof Hw as [(ta & ba & Hm & Ho) Hp Hs (tip & Ht & Hph)]. cbn in He.
  destruct (BlockBuilder.phase (block_builder w)) eqn:Hphase; try done. destruct Hph as [Hnone Htip].
  unfold BlockBuilder.select_block, locked in He.
  pose proof (wp_run _ _ _ _ (wp_mempool_select_block (E := Empty_set) _ _ _ Hm Hnone)) as Hrun.
  unfold mbind, M_bind, mret, M_ret in He.
  destruct (Mempool.select_block (mempool w)) as [m [[number batches]|e| |]]; try done; injection He as <- <-.
  destruct Hrun as (_ & _ & Htip' & Hblk & _ & ba' & Hsel & Hm' & Hhist & Hval).
  pose proof (spends_same _ _ ta ta ba ba' (mf_inv _ _ _ Hm) (mf_inv _ _ _ Hm') (λ _, eq_refl)) as Hsame.
  destruct Hsafe as [Hrec Happ Hfresh Hbatches _]. unfold safe. cbn. split.
  - intros n bn. unfold remembered. rewrite Htip', Hhist. apply Hrec.
  - intros n bn Hsp Hlt. rewrite Htip' in Hlt. destruct (Happ n bn Hsp Hlt) as (t & bid & _ & _ & Hin).
    rewrite Hnone in Hin. set_solver.
  - intros t n bn. rewrite Hsame, Htip'. apply Hfresh.
  - intros bid b Hpr. apply (Hbatches bid). eapply proven_kept, Hpr; [apply Hm|apply Hm'|by eapply selects_kept].
  - cbn. rewrite Hblk. split; [|done]. intros b Hb. apply (Hbatches (batch_id b)).
    rewrite (proven_value _ _ _ _ (mf_inv _ _ _ Hm)). by apply Hval.
Qed.

Lemma stages_block_honest w env faults bb selected block n :
  honest_event w (BlockBuild env faults) → BlockBuilder.stages env bb selected = inr block →
  n ∈ block_created_nullifiers block → ∃ b, b ∈ BlockBuilder.batches selected ∧ n ∈ batch_created_nullifiers b.
Proof.
  intros Hh Hst Hn. cbn in Hh. revert Hst. unfold BlockBuilder.stages, BlockBuilder.get_block_inputs, BlockBuilder.propose_block,
    BlockBuilder.prove_block, BlockBuilder.prove, BlockBuilder.inject_failure.
  destruct (BlockBuilder.get_inputs _ _ _ _ _) as [e|inputs]; cbn; [done|].
  destruct (proposed_block_new _ _) as [e|p] eqn:Hp; cbn; [done|].
  destruct (BlockBuilder.block_prover bb).
  - destruct (BlockBuilder.prove_local env p) as [e|pb] eqn:Hb; cbn; [done|].
    case_decide; cbn; [done|]. destruct (Qle_bool _ _); intros [= <-]. eauto.
  - destruct (BlockBuilder.prove_remote env p) as [e|pb] eqn:Hb; cbn; [done|].
    case_decide; cbn; [done|]. destruct (Qle_bool _ _); intros [= <-]. eauto.
Qed.

(** A block built in a safe state spends what its transactions, which are inflight,
    spend. *)
Lemma built_block_spends w env faults selected block n :
  winv w → safe w → BlockBuilder.phase (block_builder w) = BlockBuilder.Selected selected →
  honest_event w (BlockBuild env faults) → BlockBuilder.stages env (block_builder w) selected = inr block →
  n ∈ block_created_nullifiers block → in_progress (mempool w) n.
Proof.
  intros Hw Hsafe Hp Hh Hst Hn. pose proof Hw as [(ta & ba & Hm & _) _ _ _].
  destruct (stages_block_honest _ _ _ _ _ _ _ Hh Hst Hn) as (b & Hb & Hnb).
  pose proof (r_selected _ _ _ Hsafe) as Hsel. rewrite Hp in Hsel. destruct Hsel as [Hbatch Hblk].
  assert (batch_id b ∈ default ∅ (Mempool.block_in_progress (mempool w))) as Hin.
  { rewrite Hblk. cbn. by apply elem_of_list_to_set, list_elem_of_fmap_2. }
  assert (is_Some (ba !! batch_id b)) as Hs.
  { apply (mf_block _ _ _ Hm) in Hin as (v & ps & Hv). eauto. }
  destruct (honest_batch_spends _ _ _ _ _ (mf_inv _ _ _ Hm) (Hbatch _ Hb) Hs Hnb) as (t & Hsp & Ht).
  by exists t, (batch_id b).
Qed.

(** The store's nullifiers are those of its blocks. *)
Lemma spent_by_tip s tip n bn :
  consistent s → is_tip (StoreState.db s) tip → spent_in (StoreState.db s) n bn → (bn ≤ tip)%N.
Proof. intros Hc Ht [p Hn]. apply Ht. by apply (ok_nullifiers _ (con_tables _ Hc) n p). Qed.

Lemma apply_to_store_spent env faults bb selected s tip :
  consistent s → is_tip (StoreState.db s) tip →
  (∀ block, BlockBuilder.stages env bb selected = inr block → block_ok block) →
  BlockBuilder.answer_lost env = false →
  let '(s', p) := BlockBuilder.apply_to_store env faults bb selected s in
  match p with
  | BlockBuilder.Applied _ => ∃ block, BlockBuilder.stages env bb selected = inr block ∧
      ∀ n bn, spent_in (StoreState.db s') n bn →
        spent_in (StoreState.db s) n bn ∨ bn = (tip + 1)%N ∧ n ∈ block_created_nullifiers block
  | BlockBuilder.Failed _ => StoreState.db s' = StoreState.db s
  | _ => False
  end.
Proof.
  intros Hc Ht Hok Hlost. unfold BlockBuilder.apply_to_store. rewrite Hlost.
  destruct (BlockBuilder.stages env bb selected) as [e|block] eqn:Hst; [done|].
  pose proof (wp_apply_block faults block s Hc (Hok _ eq_refl)) as Hrun. rewrite wp_unfold in Hrun.
  destruct (StoreState.apply_block faults block s) as [s' [[]|e| |]]; try done.
  - destruct Hrun as [[(tip' & Ht' & Hnum & _) Hwr _ _ _ _ _] _]. exists block. split; [done|].
    assert (tip' = tip) as ->.
    { apply N.le_antisymm; [apply Ht, Ht'|apply Ht', Ht]; done. }
    intros n bn [p Hn]. destruct (written_nullifiers _ _ _ _ _ _ _ _ Hnum Hwr _ _ _ Hn) as [?|?]; [left; by exists p|by right].
  - by rewrite (un_db _ _ _ Hrun).
Qed.

Lemma safe_block_build w env faults w' o :
  winv w → safe w → admissible_event w (BlockBuild env faults) → honest_event w (BlockBuild env faults) →
  exec (BlockBuild env faults) w = Some (w', o) → safe w'.
Proof.
  intros Hw Hsafe (Hl & Hr & Hlost) Hh He. pose proof Hw as [_ _ Hs (tip & Ht & Hph)]. cbn in He.
  destruct (BlockBuilder.phase (block_builder w)) as [|selected| |] eqn:Hphase; try done.
  pose proof (apply_to_store_spent env faults (block_builder w) selected _ _ Hs Ht
    (λ b, stages_block_ok _ _ _ b Hl Hr) Hlost) as Hspec.
  destruct (BlockBuilder.apply_to_store env faults (block_builder w) selected (store w)) as [s' p].
  injection He as <- <-. destruct Hph as [_ Htip]. unfold safe. cbn.
  pose proof Hsafe as [Hrec Happ Hfresh Hbatches _]. destruct p as [| |header|e]; try done.
  - destruct Hspec as (block & Hst & Hnew).
    split; [| | |done..].
    + intros n bn [Hsp|[-> _]]%Hnew Hle; [by apply Hrec|lia].
    + intros n bn [Hsp|[-> Hn]]%Hnew Hlt; [eauto|]. by eapply built_block_spends.
    + intros t n bn Hsp [Hsp'|[-> _]]%Hnew; [by eapply Hfresh|lia].
  - split; rewrite ?Hspec; done.
Qed.

(** At most one block, the oldest, is forgotten. *)
Lemma advanced_drop m m' (R : gset TransactionId) :
  advanced m R m' → ∃ k, retained_blocks m' = drop k (retained_blocks m ++ [block_of R (Mempool.state m)]) ∧ k ≤ 1.
Proof.
  intros Hadv. unfold advanced, retained in Hadv. case_decide; [exists 0|exists 1]; (split; [|lia]);
    rewrite Hadv; by destruct (_ ++ _).
Qed.

(** The blocks the mempool remembers move up by one. *)
Lemma remembered_advanced m m' (R : gset TransactionId) n bn :
  advanced m R m' → Mempool.chain_tip m' = (Mempool.chain_tip m + 1)%N →
  (Mempool.chain_tip m' < bn + N.of_nat (length (retained_blocks m')))%N →
  (bn ≤ Mempool.chain_tip m)%N ∧ remembered m n bn ∨
  bn = (Mempool.chain_tip m + 1)%N ∧ (∃ t, t ∈ R ∧ spends m t n) →
  remembered m' n bn.
Proof.
  intros (k & Hh & Hk)%advanced_drop Htip Hlt Hcase. set (L := retained_blocks m ++ [block_of R (Mempool.state m)]) in *.
  assert (length L = S (length (retained_blocks m))) as HL by (unfold L; rewrite length_app; cbn; lia).
  unfold remembered. rewrite Hh, Htip, length_drop, HL in *.
  enough (∃ block t d, L !! N.to_nat (bn + N.of_nat (length (retained_blocks m)) - Mempool.chain_tip m - 1) = Some block ∧
    block !! t = Some d ∧ n ∈ InflightState.nullifiers_d d) as (block & t & d & Hb & ?).
  { exists block, t, d. split; [|done]. rewrite lookup_drop, <- Hb. f_equal. lia. }
  destruct Hcase as [[Hle (block & t & d & Hb & Hd)]|[-> (t & Ht & d & Hd & Hn)]].
  - exists block, t, d. split; [|done]. by apply lookup_app_l_Some.
  - exists (block_of R (Mempool.state m)), t, d. split; [|by rewrite lookup_block_of, decide_True].
    apply list_lookup_middle. lia.
Qed.

(** Of a block in progress that the store has applied, the transactions are those
    that spend what it spent. *)
Lemma in_progress_txs m ta ba (B : gset BatchId) n :
  minv_full m ta ba → Mempool.block_in_progress m = Some B → in_progress m n →
  ∃ t, t ∈ (list_to_set (block_txs m B) : gset TransactionId) ∧ spends m t n.
Proof.
  intros Hm HB (t & bid & Hsp & Hin & Hbid). rewrite HB in Hbid. cbn in Hbid. exists t. split; [|done].
  apply elem_of_list_to_set, (elem_of_collected _ _ _ _ (m_batch _ _ _ (mf_inv _ _ _ Hm))). exists bid.
  split; [done|]. eapply in_batch_spec; [apply Hm| |done].
  assert (is_processed ba bid) as (v & ps & Hv) by (apply (mf_block _ _ _ Hm); by rewrite HB). eauto.
Qed.

(** A step that drops the transactions [R]. *)
Lemma spends_dropped m m' ta ta' ba ba' (R : gset TransactionId) t n :
  minv m ta ba → minv m' ta' ba' → (∀ t, value_of ta' t = if decide (t ∈ R) then None else value_of ta t) →
  spends m' t n → t ∉ R ∧ spends m t n.
Proof.
  intros Hm Hm' Hv. rewrite (spends_value _ _ _ _ _ Hm), (spends_value _ _ _ _ _ Hm').
  intros (tx & Htx & Hn). rewrite Hv in Htx. case_decide; [done|eauto].
Qed.

Lemma no_replay_committed m m' db h ta ta' ba ba' (B : gset BatchId) (R : gset TransactionId) :
  no_replay m db (BlockBuilder.Applied h) → minv_full m ta ba → minv_full m' ta' ba' →
  Mempool.block_in_progress m = Some B → Mempool.chain_tip m' = (Mempool.chain_tip m + 1)%N →
  (∀ n bn, spent_in db n bn → (bn ≤ Mempool.chain_tip m + 1)%N) →
  let C := list_to_set (block_txs m B) in
  (∀ t, value_of ta' t = if decide (t ∈ C ∪ R) then None else value_of ta t) → kept ba ba' → advanced m C m' →
  no_replay m' db BlockBuilder.Idle.
Proof.
  intros [Hrec Happ Hfresh Hbatches _] Hm Hm' HB Htip Hdb C Hv Hk Hadv. split; [| | | |done].
  - intros n bn Hs Hle Hlt. eapply remembered_advanced; [done..|]. rewrite Htip in Hle.
    destruct (N.le_gt_cases bn (Mempool.chain_tip m)) as [Hle'|Hgt].
    + left. split; [done|]. apply Hrec; [done..|]. rewrite Htip in Hlt.
      apply advanced_drop in Hadv as (k & Hh & _). rewrite Hh, length_drop, length_app in Hlt. cbn in Hlt. lia.
    + right. split; [lia|]. eapply in_progress_txs; [done..|eauto].
  - intros n bn Hs Hlt. pose proof (Hdb _ _ Hs). lia.
  - intros t n bn Hsp Hs. destruct (spends_dropped _ _ _ _ _ _ _ _ _ (mf_inv _ _ _ Hm) (mf_inv _ _ _ Hm') Hv Hsp) as [Hno Hsp'].
    destruct (in_progress_txs _ _ _ _ n Hm HB) as (t' & Ht' & Hsp''); [eauto|].
    rewrite (spends_unique _ _ _ _ _ _ (mf_inv _ _ _ Hm) Hsp' Hsp'') in Hno. destruct Hno. by apply elem_of_union_l.
  - intros bid b Hp. apply (Hbatches bid). eapply proven_kept, Hp; [apply Hm|apply Hm'|done].
Qed.

Lemma no_replay_rolled_back m m' db p ta ta' ba ba' (R : gset TransactionId) :
  no_replay m db p → minv_full m ta ba → minv_full m' ta' ba' → Mempool.chain_tip m' = Mempool.chain_tip m →
  (∀ n bn, spent_in db n bn → (bn ≤ Mempool.chain_tip m)%N) →
  (∀ t, value_of ta' t = if decide (t ∈ R) then None else value_of ta t) → kept ba ba' → retained_blocks m' = retained_blocks m →
  no_replay m' db BlockBuilder.Idle.
Proof.
  intros [Hrec Happ Hfresh Hbatches _] Hm Hm' Htip Hdb Hv Hk Hh. split; [| | | |done].
  - intros n bn. unfold remembered. rewrite Htip, Hh. apply Hrec.
  - intros n bn Hs Hlt. pose proof (Hdb _ _ Hs). lia.
  - intros t n bn Hsp Hs. rewrite Htip.
    destruct (spends_dropped _ _ _ _ _ _ _ _ _ (mf_inv _ _ _ Hm) (mf_inv _ _ _ Hm') Hv Hsp) as [_ Hsp']. eauto.
  - intros bid b Hp. apply (Hbatches bid). eapply proven_kept, Hp; [apply Hm|apply Hm'|done].
Qed.

Lemma safe_block_return w w' o :
  winv w → safe w → exec BlockReturn w = Some (w', o) → safe w'.
Proof.
  intros Hw Hsafe He. pose proof Hw as [(ta & ba & Hm & Ho) Hp Hs (tip & Ht & Hph)]. cbn in He.
  pose proof (λ n bn, spent_by_tip _ _ n bn Hs Ht) as Hdb. unfold safe in Hsafe.
  destruct (BlockBuilder.phase (block_builder w)) as [| |header|e] eqn:Hphase; try done; injection He as He;
    cbn in Hph; destruct (Mempool.block_in_progress (mempool w)) as [B|] eqn:HB; try naive_solver.
  - destruct Hph as (_ & Hhead & ->).
    eapply (locked_wp _ _ _ _ _ (λ w' _, safe w')) in He; [exact He|
      apply (wp_mempool_commit_block _ ta ba header B Hm HB Hhead)| |done]; cbn beta.
    intros m _ (Htip' & _ & expired & R & ta' & ba' & Hm' & _ & _ & Hv & _ & Hk & Hadv).
    by eapply (no_replay_committed (mempool w) m _ header ta ta' ba ba' B R).
  - destruct Hph as (_ & Htip). subst tip.
    eapply (locked_wp _ _ _ _ _ (λ w' _, safe w')) in He; [exact He|
      apply (wp_mempool_rollback_block _ ta ba B Hm HB)| |done]; cbn beta.
    intros m _ (Htip' & _ & R & ta' & ba' & Hm' & _ & Hv & _ & Hk & Hh).
    by eapply (no_replay_rolled_back (mempool w) m _ _ ta ta' ba ba' R).
Qed.

(** ** The system *)

Lemma exec_safe w ev w' o :
  winv w → safe w → admissible_event w ev → honest_event w ev → exec ev w = Some (w', o) → safe w'.
Proof.
  intros Hw Hs Ha Hh. destruct ev; [by eapply safe_submit|by eapply safe_subscribe|by eapply safe_batch_tick|
    by eapply safe_batch_select|by eapply safe_batch_return|by eapply safe_block_select|by eapply safe_block_build|
    by eapply safe_block_return].
Qed.

Lemma safe_serve s tip max_txs max_batches batch_url block_url :
  consistent s → is_tip (StoreState.db s) tip → safe (serve s tip max_txs max_batches batch_url block_url).
Proof.
  intros Hc Ht. split; cbn; [| | | |done].
  - intros n bn Hs Hle Hlt. lia.
  - intros n bn Hs Hlt. pose proof (spent_by_tip _ _ _ _ Hc Ht Hs). lia.
  - intros t n bn (d & Hd & _). cbn in Hd. by rewrite lookup_empty in Hd.
  - intros bid b Hp. unfold proven in Hp. cbn in Hp. by rewrite lookup_empty in Hp.
Qed.

Lemma runs_inv w : runs_honestly w → winv w ∧ safe w.
Proof.
  induction 1 as [|w ev w' o _ [Hw Hs] Ha Hh He]; [split; [by apply winv_serve|by apply safe_serve]|].
  split; [by destruct (exec_fine _ _ _ _ Hw Ha He)|by eapply exec_safe].
Qed.

(** C22: No double spend, from the requests of the clients to the tables of the store.
    Let the store's answers name what it had spent, and let the provers invent no
    nullifiers. Then in every interleaving of the tasks no inflight transaction
    spends a nullifier that the store has recorded, unless the store has just applied
    the block in progress, which holds the transaction, and the mempool has yet to
    learn of it. And a block that is about to be sent spends nothing the store has
    recorded, so it is not refused for that. *)
Theorem producer_no_double_spend w (Hw : runs_honestly w) :
  (∀ t n bn, spends (mempool w) t n → spent_in (StoreState.db (store w)) n bn →
    ∃ header B b, BlockBuilder.phase (block_builder w) = BlockBuilder.Applied header ∧ bn = header_block_num header ∧
      Mempool.block_in_progress (mempool w) = Some B ∧ b ∈ B ∧
      BatchGraph.transactions (Mempool.batches (mempool w)) !! t = Some b) ∧
  (∀ env faults selected block n bn, BlockBuilder.phase (block_builder w) = BlockBuilder.Selected selected →
    honest_event w (BlockBuild env faults) → BlockBuilder.stages env (block_builder w) selected = inr block →
    n ∈ block_created_nullifiers block → ¬ spent_in (StoreState.db (store w)) n bn).
Proof.
  destruct (runs_inv _ Hw) as [Hi Hsafe]. pose proof Hi as [(ta & ba & Hm & _) _ Hs (tip & Ht & Hph)].
  pose proof (λ n bn, spent_by_tip _ _ n bn Hs Ht) as Hdb. split.
  - intros t n bn Hsp Hst. pose proof (r_fresh _ _ _ Hsafe _ _ _ Hsp Hst) as Hlt. pose proof (Hdb _ _ Hst) as Hle.
    destruct (r_applied _ _ _ Hsafe _ _ Hst Hlt) as (t' & b & Hsp' & Hin & Hb).
    rewrite <- (spends_unique _ _ _ _ _ _ (mf_inv _ _ _ Hm) Hsp Hsp') in Hin.
    destruct (BlockBuilder.phase (block_builder w)) as [| |header|e]; cbn in Hph; try (exfalso; lia).
    destruct (Mempool.block_in_progress (mempool w)) as [B|] eqn:HB; [|naive_solver]. exists header, B, b.
    split; [done|]. split; [lia|]. split; [done|]. split; [done|]. eapply in_batch_spec; [apply Hm| |done].
    assert (is_processed ba b) as (v & ps & Hv) by (apply (mf_block _ _ _ Hm); by rewrite HB). eauto.
  - intros env faults selected block n bn Hp Hh Hst Hn Hspent.
    destruct (built_block_spends _ _ _ _ _ _ Hi Hsafe Hp Hh Hst Hn) as (t & b & Hsp & _).
    pose proof (r_fresh _ _ _ Hsafe _ _ _ Hsp Hspent). pose proof (Hdb _ _ Hspent). rewrite Hp in Hph. cbn in Hph. lia.
Qed.

End spends.

(** ** The answers of the store

    The service reads the nullifiers and then, under a second lock, the number of
    the latest block. As long as no block is applied between the two, its answer is
    one that [honest_event] asks for, however much later the transaction is added.
    [ProducerExamples.v] has a run in which one is. *)

Section answers.
Context `{!MidenObjects} `{!NtxObjects} `{!StoreObjects} `{!StoreTrees} `{!WireObjects}.
Context `{!MidenLaws} `{!StoreLaws} `{!TreeLaws} `{!WireLaws}.
Implicit Types (s : StoreState.State) (n : Nullifier) (bn : BlockNumber).

(** The store [later] has come out of [s]: what it spent since is in newer blocks. *)
Definition newer_spends s later : Prop :=
  ∀ tip, is_tip (StoreState.db s) tip →
    (∀ tip', is_tip (StoreState.db later) tip' → tip ≤ tip')%N ∧
    ∀ n bn, spent_in (StoreState.db later) n bn → spent_in (StoreState.db s) n bn ∨ (tip < bn)%N.

Lemma newer_spends_refl s : newer_spends s s.
Proof. intros tip Ht. split; [|auto]. intros tip' Ht'. apply Ht', Ht. done. Qed.

Lemma newer_spends_applied s later block later' :
  newer_spends s later → applied later block later' → newer_spends s later'.
Proof.
  intros Hn [(tip' & Ht' & Hnum & _) Hwr _ _ _ _ _] tip Ht. destruct (Hn tip Ht) as [Hle Hs]. specialize (Hle _ Ht').
  split.
  - intros tip'' Ht''. pose proof (written_tip _ _ _ _ _ _ _ _ Ht' Hnum Hwr (tip' + 1)%N) as H1'.
    assert (tip' + 1 ≤ tip'')%N by (apply Ht'', H1'; done). lia.
  - intros n bn [p Hp]. destruct (written_nullifiers _ _ _ _ _ _ _ _ Hnum Hwr _ _ _ Hp) as [?|[-> _]]; [|right; lia].
    apply Hs. by exists p.
Qed.

Theorem store_answers_honestly s between tx s' inputs later n bn :
  consistent s → consistent (between s) →
  (∀ tip, is_tip (StoreState.db (between s)) tip → is_tip (StoreState.db s) tip) → newer_spends s later →
  StoreClient.get_tx_inputs (StoreApi.get_transaction_inputs between) tx s = (s', Ok inputs) →
  n ∈ ptx_nullifiers tx → spent_in (StoreState.db later) n bn → (bn ≤ ti_current_block_height inputs)%N →
  is_Some (mjoin (ti_nullifiers inputs !! n)).
Proof.
  intros Hc Hb Htips Hnewer Hq Hn Hs Hle. pose proof (tx_inputs_run s between tx Hc Hb) as Hrun. rewrite Hq in Hrun.
  destruct Hrun as (_ & height & found & Htip & _ & ->). cbn [ti_current_block_height inputs_of] in Hle.
  destruct (proj2 (Hnewer height (Htips _ Htip)) n bn Hs) as [[p Hp]|Hlt]; [|lia].
  cbn [ti_nullifiers inputs_of]. rewrite lookup_inserted, decide_True by done. cbn.
  apply not_eq_None_Some. rewrite (spent_at_None _ _ (con_tables _ Hc)). by rewrite Hp.
Qed.

End answers.
