(* ===== verification/NodeStart.v ===== *)
(** * The start of the node

    Model of how the components start and wait for each other: the beginning of
    [BlockProducer::serve] ([crates/block-producer/src/server/mod.rs]), which fetches
    the chain tip from the store until it answers; the beginning of
    [NetworkTransactionBuilder::serve_new] ([crates/ntx-builder/src/builder/mod.rs]);
    the checkpoint at which they meet, and the supervision of the components, of
    [bin/node/src/commands/bundled.rs]; and the command of
    [bin/node/src/commands/block_producer.rs]. The clients are those of
    [StoreClient.v] on the services of [StoreApi.v]. A request to a store that has not
    been loaded fails as a lost connection; one that waits instead is the request that
    comes after the load. Binding an address succeeds. What the transaction builder
    does once it runs is in [NtxBuilder.v]. The theorem [node_start] is about
    every interleaving of the components' steps. *)

From S2P Require Import Prelude.
From S2P Require Import External.
From S2P Require Import Subscription.
From S2P Require Import Mempool.
From S2P Require Import MempoolInv.
From S2P Require Import MempoolOps.
From S2P Require Import MempoolTheorems.
From S2P Require Import NtxAccount.
From S2P Require Import NtxState.
From S2P Require Import StoreObjects.
From S2P Require Import StoreSql.
From S2P Require Import StoreRead.
From S2P Require Import StoreProofs.
From S2P Require Import StoreTrees.
From S2P Require Import StoreState.
From S2P Require Import StoreApply.
From S2P Require Import StoreTheorems.
From S2P Require Import StoreQueries.
From S2P Require Import StoreReads.
From S2P Require Import WireObjects.
From S2P Require Import Wire.
From S2P Require Import WireTheorems.
From S2P Require Import StoreApi.
From S2P Require Import StoreClient.
From S2P Require Import NtxTransaction.
From S2P Require Import StoreApiTheorems.
From S2P Require Import Producer.
From S2P Require Import ProducerTheorems.

Module NodeStart.

(** The error of the store's clients. *)
Abbreviation StoreError := StoreClient.StoreError.

(** ** Waiting for a service *)

Section retry.
Context {S : Type}.

(** A request to the store: [None] is a failed connection, to be tried again. *)
Definition attempt {A} (request : M S StoreError A) : M S StoreError (option A) := λ s,
  match request s with
  | (s', Ok a) => (s', Ok (Some a))
  | (s', Err (GrpcClientError _)) => (s', Ok None)
  | (s', Err e) => (s', Err e)
  | (s', Panic msg) => (s', Panic msg)
  | (s', OutOfFuel) => (s', OutOfFuel)
  end.

Context `{!MidenObjects} `{!NtxObjects} `{!StoreObjects} `{!StoreTrees} `{!WireObjects}.

(** The loop of [BlockProducer::serve]; the state holds the waits so far. *)
Fixpoint chain_tip_with_retry (fuel : nat) (retries_counter : N)
    (service : Wire.Proto.GetBlockHeaderByNumberRequest → M S Status Wire.Proto.GetBlockHeaderByNumberResponse)
    : M (S * list N) StoreError BlockNumber :=
  match fuel with
  | O => out_of_fuel
  | Datatypes.S fuel =>
    header ← StoreClient.waiting (attempt (StoreClient.latest_header service));
    match header with
    | Some header => mret (header_block_num header)
    | None =>
      ms ← StoreClient.backoff retries_counter;
      _ ← modify (λ s : S * list N, (s.1, ms :: s.2));
      chain_tip_with_retry fuel (retries_counter + 1) service
    end
  end.

End retry.

(** ** The command of the block producer *)

(** The options of [BlockProducerConfig] that concern the mempool and the provers. *)
Record BlockProducerConfig := mk_config {
  max_txs_per_batch : N;
  max_batches_per_block : N;
  batch_prover_url : option string;
  block_prover_url : option string;
}.

(** The check of [BlockProducerCommand::handle], given the limits of the protocol. *)
Definition validate (MAX_BATCHES_PER_BLOCK MAX_ACCOUNTS_PER_BATCH : N) (config : BlockProducerConfig) : option string :=
  if (MAX_BATCHES_PER_BLOCK <=? max_batches_per_block config)%N
  then Some "max-batches-per-block cannot exceed protocol limit" else
  if (MAX_ACCOUNTS_PER_BATCH <=? max_txs_per_batch config)%N
  then Some "max-txs-per-batch cannot exceed protocol limit" else None.

(** ** The node *)

(** The components that [bundled.rs] supervises. *)
Inductive Component : Type := Store | BlockProducer | Rpc | NtxBuilder.

Section node.
Context `{!MidenObjects} `{!NtxObjects} `{!StoreObjects} `{!StoreTrees} `{!WireObjects} `{!ProducerObjects} `{!Channel}.

(** Where the block producer is: fetching the chain tip; binding its address; serving
    requests, at the checkpoint; and producing. *)
Inductive ProducerStage : Type :=
| FetchingTip (retries_counter : N)
| TipFetched (chain_tip : BlockNumber)
| AtCheckpoint (w : Producer.World)
| Producing (w : Producer.World).

(** Where the transaction builder is: not started; and on its way to the loop. *)
Inductive BuilderStage : Type :=
| Disabled
| FetchingGenesis (retry_counter : N)
| Loading (genesis_header : BlockHeader)
| FetchingChainTip (genesis_header : BlockHeader) (state : NtxState.State)
| Subscribing (genesis_header : BlockHeader) (state : NtxState.State) (chain_tip : BlockNumber) (retry_counter : N)
| Subscribed (genesis_header : BlockHeader) (state : NtxState.State) (mempool_events : Receiver)
| Running (genesis_header : BlockHeader) (state : NtxState.State) (mempool_events : Receiver).

(** The disk, the store once it is loaded (which then is part of the producer's world
    once that exists), and the first component that ended, with which the node ends. *)
Record Node := mk_node {
  config : BlockProducerConfig;
  disk : gmap BlockNumber Bytes * Sql.Tables;
  loaded : option StoreState.State;
  producer : ProducerStage;
  builder : BuilderStage;
  failed : option Component;
}.

Implicit Types (n : Node) (w : Producer.World).

Definition set_loaded x n := mk_node (config n) (disk n) x (producer n) (builder n) (failed n).

Definition set_producer x n := mk_node (config n) (disk n) (loaded n) x (builder n) (failed n).

Definition set_builder x n := mk_node (config n) (disk n) (loaded n) (producer n) x (failed n).

(** [join_next_with_id]: any component that ends is fatal. *)
Definition component_failed (c : Component) n := mk_node (config n) (disk n) (loaded n) (producer n) (builder n) (Some c).

Definition world n : option Producer.World :=
  match producer n with AtCheckpoint w | Producing w => Some w | _ => None end.

Definition put_world w n : Node :=
  match producer n with
  | AtCheckpoint _ => set_producer (AtCheckpoint w) n
  | Producing _ => set_producer (Producing w) n
  | _ => n
  end.

Definition store n : option StoreState.State :=
  match world n with Some w => Some (Producer.store w) | None => loaded n end.

(** ** Requests *)

(** A service behind a connection. *)
Definition connected {S Q R} (service : Q → M S Status R) (request : Q) : M (option S) Status R := λ s,
  match s with
  | None => (None, Err Unavailable)
  | Some s => let '(s', r) := service request s in (Some s', r)
  end.

(** The answer of the store to a query, which does not change it. *)
Definition ask {A} (query : M (option StoreState.State) StoreError A) n : res StoreError A := (query (store n)).2.

(** A panic of the store's handler reaches its client as a failed request. *)
Definition to_result {A} (r : res StoreError A) : StoreError + A :=
  match r with
  | Ok a => inr a
  | Err e => inl e
  | _ => inl (GrpcClientError Internal)
  end.

(** After a failed connection: the next turn of the loop, unless computing the wait
    panics. *)
Definition retry (c : Component) (again : N → Node → Node) (retries_counter : N) n : Node :=
  match (StoreClient.backoff retries_counter : M unit Empty_set N) tt with
  | (_, Ok _) => again (retries_counter + 1)%N n
  | _ => component_failed c n
  end.

(** ** The block producer *)

Definition fetch_chain_tip (retries_counter : N) n : Node :=
  match ask (attempt (StoreClient.latest_header (connected StoreApi.get_block_header_by_number))) n with
  | Ok (Some header) => set_producer (TipFetched (header_block_num header)) n
  | Ok None => retry BlockProducer (λ k, set_producer (FetchingTip k)) retries_counter n
  | _ => component_failed BlockProducer n
  end.

Definition serve_producer (chain_tip : BlockNumber) n : option Node :=
  s ← loaded n;
  Some (set_producer (AtCheckpoint (Producer.serve s chain_tip (max_txs_per_batch (config n))
    (max_batches_per_block (config n)) (batch_prover_url (config n)) (block_prover_url (config n)))) n).

(** [mempool_subscription] of the block producer's service. *)
Definition mempool_subscription (chain_tip : N) : M Mempool.Mempool Status Receiver :=
  map_err (λ _, InvalidArgument) (Server.mempool_subscription chain_tip).

(** ** The transaction builder *)

Definition fetch_genesis (retry_counter : N) n : Node :=
  match ask (attempt (StoreClient.genesis_header (connected StoreApi.get_block_header_by_number))) n with
  | Ok (Some header) => set_builder (Loading header) n
  | Ok None => retry NtxBuilder (λ k, set_builder (FetchingGenesis k)) retry_counter n
  | _ => component_failed NtxBuilder n
  end.

(** [StoreClient::get_network_account] *)
Definition get_network_account n (p : NetworkAccountPrefix) : StoreError + option Account :=
  to_result (ask (StoreClient.get_network_account (connected StoreApi.get_network_account_details_by_prefix) (prefix_u32 p)) n).

(** [State::load]; [fuel] bounds the pages of notes. *)
Definition load_state (fuel : nat) (genesis : BlockHeader) n : option Node :=
  match ask (StoreClient.get_unconsumed_network_notes fuel (connected StoreApi.get_unconsumed_network_notes)) n with
  | OutOfFuel => None
  | r =>
    Some match NtxState.load (get_network_account n) (to_result r) NtxState.empty_state with
         | (s, Ok _) => set_builder (FetchingChainTip genesis s) n
         | _ => component_failed NtxBuilder n
         end
  end.

Definition fetch_blockchain_data (genesis : BlockHeader) (s : NtxState.State) n : Node :=
  match ask (StoreClient.get_current_blockchain_data (connected StoreApi.get_current_blockchain_data) None) n with
  | Ok (Some (header, _)) => set_builder (Subscribing genesis s (header_block_num header) 0) n
  | _ => component_failed NtxBuilder n
  end.

Definition subscribe (genesis : BlockHeader) (s : NtxState.State) (chain_tip : BlockNumber) (retry_counter : N) n : Node :=
  match NtxTransaction.subscribe_to_mempool (connected mempool_subscription) chain_tip (Producer.mempool <$> world n) with
  | (Some m, Ok rx) =>
    set_builder (Subscribed genesis s rx) (match world n with Some w => put_world (Producer.set_mempool m w) n | None => n end)
  | (_, Err Unavailable) => retry NtxBuilder (λ k, set_builder (Subscribing genesis s chain_tip k)) retry_counter n
  | _ => component_failed NtxBuilder n
  end.

(** ** Events *)

Inductive Event : Type :=
| LoadStore
| FetchChainTip
| ServeProducer
| FetchGenesis
| LoadState (fuel : nat)
| FetchBlockchainData
| Subscribe
(** Both are at the checkpoint, or the producer is alone. *)
| PassCheckpoint
(** An event of the block producer; only requests before the checkpoint. *)
| Produce (ev : Producer.Event).

Definition is_request (ev : Producer.Event) : bool :=
  match ev with
  | Producer.SubmitProvenTransaction _ _ | Producer.MempoolSubscription _ => true
  | _ => false
  end.

Definition load_store n : Node :=
  match StoreState.load (disk n).1 (disk n).2 with
  | (_, Ok s) => set_loaded (Some s) n
  | _ => component_failed Store n
  end.

Definition produce (ev : Producer.Event) n : option Node :=
  match producer n with
  | AtCheckpoint w => if is_request ev then '(w', _) ← Producer.exec ev w; Some (put_world w' n) else None
  | Producing w => '(w', _) ← Producer.exec ev w; Some (put_world w' n)
  | _ => None
  end.

(** An event, and [None] when it cannot happen. *)
Definition exec (ev : Event) n : option Node :=
  if decide (failed n ≠ None) then None else
  match ev with
  | LoadStore => match loaded n with None => Some (load_store n) | Some _ => None end
  | FetchChainTip => match producer n with FetchingTip k => Some (fetch_chain_tip k n) | _ => None end
  | ServeProducer => match producer n with TipFetched tip => serve_producer tip n | _ => None end
  | FetchGenesis => match builder n with FetchingGenesis k => Some (fetch_genesis k n) | _ => None end
  | LoadState fuel => match builder n with Loading g => load_state fuel g n | _ => None end
  | FetchBlockchainData => match builder n with FetchingChainTip g s => Some (fetch_blockchain_data g s n) | _ => None end
  | Subscribe => match builder n with Subscribing g s tip k => Some (subscribe g s tip k n) | _ => None end
  | PassCheckpoint =>
    match producer n, builder n with
    | AtCheckpoint w, Disabled => Some (set_producer (Producing w) n)
    | AtCheckpoint w, Subscribed g s rx => Some (set_builder (Running g s rx) (set_producer (Producing w) n))
    | _, _ => None
    end
  | Produce ev => produce ev n
  end.

(** [BundledCommand::start]; [disabled] is the option [--no-ntb]. *)
Definition start (c : BlockProducerConfig) (files : gmap BlockNumber Bytes) (t : Sql.Tables) (disabled : bool) : Node :=
  mk_node c (files, t) None (FetchingTip 0) (if disabled then Disabled else FetchingGenesis 0) None.

Context `{!TreeLaws}.

(** The node starts on the disk that a consistent store has left. *)
Inductive reachable : Node → Prop :=
| reachable_start c s files disabled : consistent s → reachable (start c files (StoreState.db s) disabled)
| reachable_exec n ev n' : reachable n →
    match ev with Produce pev => ∀ w, world n = Some w → Producer.admissible_event w pev | _ => True end →
    exec ev n = Some n' → reachable n'.

End node.

End NodeStart.

Import NodeStart.
Import NodeStart.

(** * What the start guarantees *)

Section start.
Context `{!MidenObjects} `{!NtxObjects} `{!StoreObjects} `{!StoreTrees} `{!WireObjects} `{!ProducerObjects} `{!Channel}.
Context `{!MidenLaws} `{!StoreLaws} `{!TreeLaws} `{!WireLaws} `{!ProducerLaws} `{!ChannelLaws}.
Implicit Types (n : Node) (w : Producer.World) (s : StoreState.State).

Lemma tables_tip (t : Sql.Tables) : tables_ok t → ∃ tip h, is_tip t tip ∧ Sql.block_headers t !! tip = Some h ∧ header_block_num h = tip.
Proof.
  intros Hok. destruct (ok_headers _ Hok) as [tip Htip]. destruct (proj2 (Htip tip)) as [h Hh]; [lia|].
  exists tip, h. split_and!; [done|done|]. by apply (ok_header_num _ Hok).
Qed.

Lemma header_answer q h s :
  (Read.select_block_header_by_block_num q : M _ Sql.DatabaseError _) (StoreState.db s) = (StoreState.db s, Ok (Some h)) →
  connected StoreApi.get_block_header_by_number (Wire.Proto.mk_block_header_request q None) (Some s) =
    (Some s, Ok (Wire.Proto.mk_block_header_response (Some (into h)) None None)).
Proof.
  intros Hq. unfold connected, StoreApi.get_block_header_by_number, Queries.get_block_header. cbn.
  unfold StoreState.query, StoreState.transact, zoom, map_err, mbind, M_bind. rewrite Hq. cbn. by destruct s.
Qed.

Lemma latest_header_answer s tip h : is_tip (StoreState.db s) tip → Sql.block_headers (StoreState.db s) !! tip = Some h →
  StoreClient.latest_header (connected StoreApi.get_block_header_by_number) (Some s) = (Some s, Ok h).
Proof.
  intros Ht Hh. unfold StoreClient.latest_header, StoreClient.call, map_err at 1, mbind at 1, M_bind at 1.
  rewrite (header_answer None h).
  2:{ unfold Read.select_block_header_by_block_num, gets. by rewrite (last_header _ _ _ Ht Hh). }
  cbn. unfold mbind, M_bind, mret, M_ret. by rewrite header_round_trip.
Qed.

Lemma genesis_header_answer s h : Sql.block_headers (StoreState.db s) !! 0%N = Some h →
  StoreClient.genesis_header (connected StoreApi.get_block_header_by_number) (Some s) = (Some s, Ok h).
Proof.
  intros Hh. unfold StoreClient.genesis_header, StoreClient.call, map_err at 1, mbind at 1, M_bind at 1.
  rewrite (header_answer (Some 0%N) h).
  2:{ unfold Read.select_block_header_by_block_num, gets. by rewrite Hh. }
  cbn. unfold mbind, M_bind, mret, M_ret. by rewrite header_round_trip.
Qed.

Lemma blockchain_data_request s tip h peaks :
  chain_tip (StoreState.blockchain (StoreState.inner s)) = Some tip → is_tip (StoreState.db s) tip →
  Sql.block_headers (StoreState.db s) !! tip = Some h → header_block_num h = tip →
  chain_peaks_at (StoreState.blockchain (StoreState.inner s)) tip = Some peaks →
  connected StoreApi.get_current_blockchain_data None (Some s) =
    (Some s, Ok (Wire.Proto.mk_blockchain_data (into (peaks_list peaks)) (Some (into h)))).
Proof.
  intros Htip Ht Hh Hn Hp. unfold connected, StoreApi.get_current_blockchain_data, Queries.get_current_blockchain_data.
  unfold StoreState.latest_block_num, Read.select_block_header_by_block_num.
  unfold map_err, mbind, M_bind, get. rewrite Htip. cbn [expect_some mret]. unfold mret, M_ret.
  rewrite bool_decide_eq_false_2 by done. rewrite query_gets, (last_header _ _ _ Ht Hh). cbn.
  unfold mret, M_ret. by rewrite Hn, Hp.
Qed.

Lemma try_from_list_into (l : list Digest) : try_from (A := list Digest) (into l) = inr l.
Proof. apply round_trip. Qed.

(** The chain's tip and its peaks, as the builder receives them. *)
Lemma blockchain_data_answer s tip : consistent s → is_tip (StoreState.db s) tip →
  ∃ h peaks, Sql.block_headers (StoreState.db s) !! tip = Some h ∧ header_block_num h = tip ∧
    chain_peaks_at (StoreState.blockchain (StoreState.inner s)) tip = Some peaks ∧
    StoreClient.get_current_blockchain_data (connected StoreApi.get_current_blockchain_data) None (Some s) =
    (Some s, match peaks_new tip (peaks_list peaks) with
             | Some p => Ok (Some (h, partial_mmr_of_peaks p))
             | None => Err (MalformedResponse "returned peaks are not valid for the sent request")
             end).
Proof.
  intros [Hok Hm] Ht. destruct (proj2 (Ht tip)) as [h Hh]; [lia|]. pose proof (ok_header_num _ Hok _ _ Hh) as Hn.
  pose proof (mirrors_tip _ _ _ Hm Ht) as Htip.
  destruct (chain_peaks_at_spec (StoreState.blockchain (StoreState.inner s)) tip) as [peaks Hp].
  { rewrite chain_tip_spec in Htip. destruct (length _); [done|]. injection Htip as <-. lia. }
  exists h, peaks. split_and!; [done|done|done|].
  unfold StoreClient.get_current_blockchain_data, StoreClient.call, map_err at 1, mbind at 1, M_bind at 1.
  rewrite (blockchain_data_request s tip h peaks); [|done..].
  pose proof (header_round_trip h) as Hrt. revert Hrt. generalize (into h : Wire.Proto.BlockHeader). intros wh Hrt.
  cbn. unfold mbind, M_bind. rewrite try_from_list_into. cbn. rewrite Hrt. cbn. unfold mret, M_ret. rewrite Hn.
  by destruct (peaks_new _ _).
Qed.

(** ** The answers of the store, before and after it is loaded *)

Lemma store_answers n :
  match store n with
  | None =>
    ask (attempt (StoreClient.latest_header (connected StoreApi.get_block_header_by_number))) n = Ok None ∧
    ask (attempt (StoreClient.genesis_header (connected StoreApi.get_block_header_by_number))) n = Ok None
  | Some s => consistent s → ∃ tip h g, is_tip (StoreState.db s) tip ∧ header_block_num h = tip ∧
    Sql.block_headers (StoreState.db s) !! 0%N = Some g ∧
    ask (attempt (StoreClient.latest_header (connected StoreApi.get_block_header_by_number))) n = Ok (Some h) ∧
    ask (attempt (StoreClient.genesis_header (connected StoreApi.get_block_header_by_number))) n = Ok (Some g)
  end.
Proof.
  unfold ask. destruct (store n) as [s|]; [|done]. intros [Hok _].
  destruct (tables_tip _ Hok) as (tip & h & Ht & Hh & Hn). destruct (proj2 (Ht 0%N)) as [g Hg]; [lia|].
  exists tip, h, g. unfold attempt. by rewrite (latest_header_answer _ _ _ Ht Hh), (genesis_header_answer _ _ Hg).
Qed.

Lemma retry_cases c again k n :
  retry c again k n = again (k + 1)%N n ∧ (k < 32)%N ∨ retry c again k n = component_failed c n ∧ (32 ≤ k)%N.
Proof. unfold retry, StoreClient.backoff. destruct (N.ltb_spec k 32) as [Hk|Hk]; cbn; [by left|by right]. Qed.

Lemma tip_unique t tip tip' : is_tip t tip → is_tip t tip' → tip = tip'.
Proof.
  intros Ht Ht'. pose proof (Ht tip'). pose proof (Ht' tip). pose proof (Ht tip). pose proof (Ht' tip').
  assert (tip ≤ tip')%N by naive_solver lia. assert (tip' ≤ tip)%N by naive_solver lia. lia.
Qed.

(** ** The invariant *)

(** The builder's store has been loaded once it has the genesis header. *)
Definition builder_waits (b : BuilderStage) : Prop :=
  match b with Disabled | FetchingGenesis _ => True | _ => False end.

Record ninv n : Prop := {
  ni_disk : ∃ s, consistent s ∧ StoreState.db s = (disk n).2;
  ni_loaded s : loaded n = Some s → consistent s ∧ StoreState.db s = (disk n).2;
  ni_tip tip : producer n = TipFetched tip → loaded n ≠ None ∧ is_tip (disk n).2 tip;
  ni_world w : world n = Some w → loaded n ≠ None ∧ Producer.produces w;
  ni_checkpoint w : producer n = AtCheckpoint w →
    StoreState.db (Producer.store w) = (disk n).2 ∧
    BlockBuilder.phase (Producer.block_builder w) = BlockBuilder.Idle ∧
    Forall (.= BatchBuilder.Ended) (BatchBuilder.worker_pool (Producer.batch_builder w));
  ni_builder : builder_waits (builder n) ∨ loaded n ≠ None;
  ni_subscribing g ns tip k : builder n = Subscribing g ns tip k → is_tip (disk n).2 tip;
  ni_order w : producer n = Producing w → match builder n with Disabled | Running _ _ _ => True | _ => False end;
  ni_running g ns rx : builder n = Running g ns rx → ∃ w, producer n = Producing w;
}.

(** A request leaves the tasks of the producer alone. *)
Lemma request_frame ev w w' o : is_request ev = true → Producer.exec ev w = Some (w', o) →
  Producer.store w' = Producer.store w ∧ Producer.block_builder w' = Producer.block_builder w ∧
  Producer.batch_builder w' = Producer.batch_builder w.
Proof.
  destruct ev; try done; intros _ [= He]; unfold Producer.locked in He;
    case_match; case_match; by injection He as <- <-.
Qed.

Lemma ninv_failed c n : ninv n → ninv (component_failed c n).
Proof. by intros []. Qed.

Lemma ninv_set_builder b n :
  ninv n → builder_waits b ∨ loaded n ≠ None → (∀ g ns tip k, b = Subscribing g ns tip k → is_tip (disk n).2 tip) →
  (∀ w, producer n = Producing w → match b with Disabled | Running _ _ _ => True | _ => False end) →
  match b with Running _ _ _ => False | _ => True end → ninv (set_builder b n).
Proof. intros [] Hl Hs Ho Hr. split; cbn; try done. by intros g ns rx ->. Qed.

(** Before blocks are produced. *)
Lemma ninv_set_producer p n :
  ninv n → (∀ w, producer n ≠ Producing w) →
  match p with
  | FetchingTip _ => True
  | TipFetched tip => loaded n ≠ None ∧ is_tip (disk n).2 tip
  | AtCheckpoint w => loaded n ≠ None ∧ Producer.produces w ∧ StoreState.db (Producer.store w) = (disk n).2 ∧
      BlockBuilder.phase (Producer.block_builder w) = BlockBuilder.Idle ∧
      Forall (.= BatchBuilder.Ended) (BatchBuilder.worker_pool (Producer.batch_builder w))
  | Producing _ => False
  end → ninv (set_producer p n).
Proof.
  intros [Hd Hl Ht Hw Hc Hb Hs Ho Hr] Hnp Hp. split; cbn; try done.
  - by intros tip ->.
  - intros w Hwo. unfold world in Hwo. cbn in Hwo. destruct p; try done. injection Hwo as <-. naive_solver.
  - intros w ->. naive_solver.
  - by intros w ->.
  - intros g ns rx Hrun. destruct (Hr _ _ _ Hrun) as [w Hx]. by destruct (Hnp w).
Qed.

(** The world of the producer moves on; at the checkpoint only the mempool does. *)
Lemma ninv_put_world w w' n :
  ninv n → world n = Some w → Producer.produces w' →
  (producer n = AtCheckpoint w → Producer.store w' = Producer.store w ∧
    Producer.block_builder w' = Producer.block_builder w ∧ Producer.batch_builder w' = Producer.batch_builder w) →
  ninv (put_world w' n).
Proof.
  intros [Hd Hl Ht Hw Hc Hb Hs Ho Hr] Hworld Hp Hframe. destruct (Hw w Hworld) as [Hloaded _].
  unfold put_world, world in *. destruct (producer n) eqn:Hpr; try done; injection Hworld as ->.
  - destruct (Hframe eq_refl) as (Hst & Hbb & Hba). split; cbn; try done.
    + by intros ? [= <-].
    + intros ? [= <-]. rewrite Hst, Hbb, Hba. by apply Hc.
    + intros g ns rx Hbu. by destruct (Hr _ _ _ Hbu).
  - split; cbn; try done; [by intros ? [= <-]| |by eauto]. intros ? _. by apply (Ho w).
Qed.

Lemma put_world_disk w n : disk (put_world w n) = disk n ∧ loaded (put_world w n) = loaded n ∧
  builder (put_world w n) = builder n.
Proof. unfold put_world. by destruct (producer n). Qed.

Lemma retry_ninv c again k n : ninv n → ninv (again (k + 1)%N n) → ninv (retry c again k n).
Proof. intros Hn Ha. destruct (retry_cases c again k n) as [[-> _]|[-> _]]; [done|by apply ninv_failed]. Qed.

Lemma ninv_start c s files disabled : consistent s → ninv (start c files (StoreState.db s) disabled).
Proof. intros Hc. split; cbn; try done; [by exists s|left; by destruct disabled|by destruct disabled..]. Qed.

Lemma ninv_load n : ninv n → loaded n = None → ninv (load_store n) ∧ failed (load_store n) = failed n.
Proof.
  intros Hn Hnone. pose proof Hn as [(s & Hc & Hdb) _ Ht Hw Hcp Hb Hs Ho Hr].
  unfold load_store. rewrite <- Hdb. destruct (load_consistent s (disk n).1 Hc) as (s' & -> & Hc' & Hdb' & _).
  split; [|done]. split; cbn; try done.
  - by exists s.
  - intros ? [= <-]. by rewrite Hdb', Hdb.
  - intros tip Htip. split; [done|]. by apply Ht.
  - intros w Hwo. split; [done|]. by apply (Hw w).
  - by right.
Qed.

(** While blocks are not yet produced, the store has the tables of the disk. *)
Lemma store_before n s : ninv n → (∀ w, producer n ≠ Producing w) → store n = Some s →
  consistent s ∧ StoreState.db s = (disk n).2.
Proof.
  intros [_ Hl _ Hw Hc _ _ _ _] Hp Hst. unfold store, world in *. destruct (producer n) as [| |w|w] eqn:Hpr;
    try by apply Hl.
  - injection Hst as <-. split; [|by apply Hc]. destruct (Hw w eq_refl) as [_ Hpro]. by apply w_store, produces_inv.
  - by destruct (Hp w).
Qed.

Lemma store_consistent n s : ninv n → store n = Some s → consistent s.
Proof.
  intros [_ Hl _ Hw _ _ _ _ _] Hst. unfold store in Hst. destruct (world n) as [w|] eqn:Hwo; [|by apply Hl].
  injection Hst as <-. destruct (Hw w eq_refl) as [_ Hpro]. by apply w_store, produces_inv.
Qed.

Lemma loaded_store n : ninv n → (store n = None ↔ loaded n = None).
Proof.
  intros [_ _ _ Hw _ _ _ _ _]. unfold store. destruct (world n) as [w|] eqn:Hwo; [|done].
  destruct (Hw w eq_refl) as [Hl _]. split; [done|]. by intros Hx.
Qed.

Lemma ninv_fetch_chain_tip k n : ninv n → producer n = FetchingTip k →
  ninv (fetch_chain_tip k n) ∧ (failed (fetch_chain_tip k n) = failed n ∨
    failed (fetch_chain_tip k n) = Some BlockProducer ∧ loaded n = None ∧ (32 ≤ k)%N).
Proof.
  intros Hn Hp. pose proof (store_answers n) as Ha. pose proof (loaded_store n Hn) as Hls. unfold fetch_chain_tip.
  assert (∀ w, producer n ≠ Producing w) as Hnp by (intros w; by rewrite Hp).
  destruct (store n) as [s|] eqn:Hst.
  - destruct (store_before n s Hn Hnp Hst) as [Hc Hdb]. destruct (Ha Hc) as (tip & h & g & Ht & Hh & _ & -> & _).
    split; [|by left]. apply ninv_set_producer; [done..|]. rewrite Hh, <- Hdb. split; [naive_solver|done].
  - destruct Ha as [-> _]. split; [apply retry_ninv; [done|by apply ninv_set_producer]|].
    destruct (retry_cases BlockProducer (λ k, set_producer (FetchingTip k)) k n) as [[-> _]|[-> ?]]; [by left|right].
    split_and!; [done|by apply Hls|done].
Qed.

Lemma ninv_serve tip n n' : ninv n → producer n = TipFetched tip → serve_producer tip n = Some n' →
  ninv n' ∧ failed n' = failed n.
Proof.
  intros Hn Hp. unfold serve_producer. destruct (loaded n) as [s|] eqn:Hld; [|done]. intros [= <-]. split; [|done].
  destruct (ni_loaded n Hn s Hld) as [Hcs Hdb]. destruct (ni_tip n Hn tip Hp) as [_ Htip].
  apply ninv_set_producer; [done|intros w; by rewrite Hp|]. cbn. rewrite Hld.
  split_and!; [done| |done|done|by repeat constructor]. apply Producer.produces_serve; [done|]. by rewrite Hdb.
Qed.

(** ** The transaction builder *)

(** The transaction builder is past the stage with which the producer can produce. *)
Lemma not_producing n : ninv n → match builder n with Disabled | Running _ _ _ => False | _ => True end →
  ∀ w, producer n ≠ Producing w.
Proof. intros Hn Hb w Hp. pose proof (ni_order n Hn w Hp). by destruct (builder n). Qed.

(** ** Loading the transaction builder's state *)

(** What the builder makes of a stored note: the store unwraps its details, and the
    note must be a network note. *)
Definition note_read (r : Sql.NoteRecord) : option NetworkNote :=
  d ← Sql.rec_details r; Subscription.network_note_try_from (note_new d (Sql.rec_metadata r)).

Definition note_sent (r : Sql.NoteRecord) (d : NoteDetails) : Wire.Proto.NetworkNote :=
  Wire.Proto.mk_network_note (Some (into (note_metadata (note_new d (Sql.rec_metadata r)))))
    (details_to_bytes (details_of (note_new d (Sql.rec_metadata r)))).

Lemma note_received r d : try_from (A := NetworkNote) (note_sent r d) =
  match Subscription.network_note_try_from (note_new d (Sql.rec_metadata r)) with
  | Some n => inr n
  | None => inl NetworkNoteError
  end.
Proof.
  unfold try_from, Wire.network_note_try_from, note_sent. cbn [Wire.Proto.nn_details Wire.Proto.nn_metadata required].
  rewrite details_bytes_inv. cbn [or_fail]. rewrite !sum_bind_inr, round_trip, sum_bind_inr, note_inv.
  by destruct (Subscription.network_note_try_from _).
Qed.

(** The store sends what it has read, or panics at a note without details. *)
Lemma notes_sent recs acc s :
  match fold_m (λ acc r, n ← StoreApi.network_note r; mret (acc ++ [n])) acc recs s with
  | (s', Ok sent) => s' = s ∧ ∃ l, sent = acc ++ l ∧ Forall2 (λ r x, ∃ d, Sql.rec_details r = Some d ∧ x = note_sent r d) recs l
  | (s', Panic _) => s' = s ∧ ∃ r, r ∈ recs ∧ Sql.rec_details r = None
  | _ => False
  end.
Proof.
  revert acc. induction recs as [|rec recs IH]; intros acc; cbn [fold_m].
  { split; [done|]. exists []. by rewrite app_nil_r. }
  unfold mbind at 1, M_bind at 1, StoreApi.network_note, mbind at 1, M_bind at 1, mbind at 1, M_bind at 1, expect_some.
  destruct (Sql.rec_details rec) as [d|] eqn:Hd; cbn -[fold_m]; [|split; [done|]; exists rec; split; [by left|done]].
  specialize (IH (acc ++ [note_sent rec d])). unfold note_sent in IH at 1.
  destruct (fold_m _ _ recs s) as [s' [sent| |msg|]]; try done; destruct IH as [-> IH]; (split; [done|]).
  - destruct IH as (l & -> & Hl). exists (note_sent rec d :: l). rewrite <- app_assoc. split; [done|].
    constructor; [by exists d|done].
  - destruct IH as (r & Hr & Hn). exists r. split; [by right|done].
Qed.

(** The builder parses what it has received, or stops at a note that it refuses. *)
Lemma notes_parsed (t : Sql.Tables) rows recs sent :
  Forall2 (converts Read.note_from_row t) rows recs →
  Forall2 (λ r x, ∃ d, Sql.rec_details r = Some d ∧ x = note_sent r d) recs sent →
  match try_from (A := list NetworkNote) sent with
  | inr page => Forall2 (delivers note_read t) rows page
  | inl _ => ∃ row, row ∈ rows ∧ refused note_read t row
  end.
Proof.
  intros Hrows. revert sent. induction Hrows as [|row r rows recs Hr Hrows IH]; intros sent Hsent.
  { apply Forall2_nil_inv_l in Hsent as ->. constructor. }
  apply Forall2_cons_inv_l in Hsent as (w & sent' & (d & Hd & ->) & Hsent & ->).
  change (match try_from (A := NetworkNote) (note_sent r d) ≫= (λ a, try_from (A := list NetworkNote) sent' ≫= (λ l, inr (a :: l))) with
    | inr page => Forall2 (delivers note_read t) (row :: rows) page
    | inl _ => ∃ row', row' ∈ row :: rows ∧ refused note_read t row' end).
  assert (note_read r = Subscription.network_note_try_from (note_new d (Sql.rec_metadata r))) as Hread
    by (unfold note_read; by rewrite Hd).
  rewrite note_received. destruct (Subscription.network_note_try_from _) as [n|]; cbn.
  - specialize (IH _ Hsent). destruct (try_from (A := list NetworkNote) sent') as [e|page]; cbn.
    + destruct IH as (row' & Hrow' & Hbad). exists row'. split; [by right|done].
    + constructor; [by exists r|done].
  - exists row. split; [by left|]. right. by exists r.
Qed.

(** A page from the [i]th note on: the next token is that of the note after it. *)
Lemma page_answer s token i : consistent s → starts (StoreState.db s) (N.to_nat <$> token) i →
  let rows := take 128 (drop i (unconsumed (StoreState.db s)).*2) in
  ∃ r, StoreApi.get_unconsumed_network_notes (Wire.Proto.mk_network_notes_request token 128) s = (s, r) ∧
    match r with
    | Ok resp => Wire.Proto.next_token resp = (λ x, N.of_nat x.1) <$> unconsumed (StoreState.db s) !! (i + 128) ∧
        match try_from (A := list NetworkNote) (Wire.Proto.network_notes resp) with
        | inr page => Forall2 (delivers note_read (StoreState.db s)) rows page
        | inl _ => ∃ row, row ∈ rows ∧ refused note_read (StoreState.db s) row
        end
    | OutOfFuel => False
    | _ => ∃ row, row ∈ rows ∧ refused note_read (StoreState.db s) row
    end.
Proof.
  intros [Hok _] Hi rows. unfold StoreApi.get_unconsumed_network_notes. rewrite decide_False by done.
  cbn [Wire.Proto.page_token Wire.Proto.page_size]. change (N.to_nat 128) with 128.
  unfold Queries.get_unconsumed_network_notes, mbind at 1, M_bind at 1, map_err.
  destruct (page_cases (StoreState.db s) (Sql.mk_page (N.to_nat <$> token) 128) i Hok Hi) as [(recs & Hrecs & Hq)|[(row & Hrow & Hbad) Hq]];
    cbn [Sql.page_size] in *.
  - rewrite (query_ok _ _ _ _ Hq). unfold mbind at 1, M_bind at 1. pose proof (notes_sent recs [] s) as Hsent.
    destruct (fold_m _ _ recs s) as [s' [sent| |msg|]]; try done; destruct Hsent as [-> Hsent]; (eexists; split; [done|]).
    + destruct Hsent as (l & -> & Hl). split; [cbn; by destruct (_ !! _)|].
      by apply (notes_parsed _ _ _ _ Hrecs).
    + destruct Hsent as (r & [k Hr]%list_elem_of_lookup_1 & Hd).
      destruct (Forall2_lookup_r _ _ _ _ _ Hrecs Hr) as (row & Hrow & Hconv). exists row.
      split; [by eapply list_elem_of_lookup_2|]. right. exists r. split; [done|]. unfold note_read. by rewrite Hd.
  - rewrite (query_err _ _ _ _ Hq). eexists. split; [done|]. exists row. split; [done|by left].
Qed.

(** Following the tokens: one page more than there are notes is enough, and only a
    refused note ends it with an error. *)
Lemma pages_answer s : consistent s → ∀ fuel token i acc,
  starts (StoreState.db s) (N.to_nat <$> token) i →
  Forall2 (delivers note_read (StoreState.db s)) (take i (unconsumed (StoreState.db s)).*2) acc →
  match (StoreClient.unconsumed_pages fuel token acc (connected StoreApi.get_unconsumed_network_notes) (Some s)).2 with
  | Ok all => Forall2 (delivers note_read (StoreState.db s)) (unconsumed (StoreState.db s)).*2 all
  | OutOfFuel => fuel ≤ length (unconsumed (StoreState.db s)) - i
  | _ => ∃ row, row ∈ (unconsumed (StoreState.db s)).*2 ∧ refused note_read (StoreState.db s) row
  end.
Proof.
  intros Hc. set (rows := (unconsumed (StoreState.db s)).*2).
  induction fuel as [|fuel IH]; intros token i acc Hi Hacc; [cbn; lia|]. cbn [StoreClient.unconsumed_pages].
  assert (∀ row, row ∈ take 128 (drop i rows) → row ∈ rows) as Hsub by by intros row Hrow%subseteq_take%subseteq_drop.
  destruct (page_answer s token i Hc Hi) as (r & Hr & Hcase). fold rows in Hcase.
  unfold StoreClient.call, map_err, mbind at 1, M_bind at 1.
  assert (connected StoreApi.get_unconsumed_network_notes (Wire.Proto.mk_network_notes_request token 128) (Some s) =
    (Some s, r)) as -> by (unfold connected; by rewrite Hr).
  destruct r as [resp|e|msg|]; try (destruct Hcase as (row & Hrow & Hbad); exists row; by auto); [|done].
  destruct Hcase as [Htok Hpage]. unfold mbind, M_bind.
  destruct (try_from (Wire.Proto.network_notes resp)) as [e|page]; [destruct Hpage as (row & Hrow & Hbad); exists row; by auto|].
  cbn [StoreClient.parse mret]. unfold mret, M_ret.
  assert (Forall2 (delivers note_read (StoreState.db s)) (take (i + 128) rows) (acc ++ page)) as Hnext.
  { rewrite <- take_take_drop. by apply Forall2_app. }
  rewrite Htok. destruct (unconsumed (StoreState.db s) !! (i + 128)) as [x|] eqn:Hx; cbn [fmap option_fmap option_map].
  - pose proof (lookup_lt_Some _ _ _ Hx).
    assert (starts (StoreState.db s) (N.to_nat <$> Some (N.of_nat x.1)) (i + 128)) as Hstart.
    { exists x. split; [done|]. by rewrite Nat2N.id. }
    specialize (IH (Some (N.of_nat x.1)) (i + 128) (acc ++ page) Hstart Hnext).
    destruct (StoreClient.unconsumed_pages _ _ _ _ _) as [s' [all| | |]]; cbn in *; try done. lia.
  - apply lookup_ge_None_1 in Hx. cbn. rewrite take_ge in Hnext; [done|]. unfold rows. by rewrite length_fmap.
Qed.

(** An account is found or not, unless its prefix is refused for having more than 30
    bits. *)
Lemma account_answer n s p e : store n = Some s → get_network_account n p = inl e → N.shiftr (prefix_u32 p) 30 ≠ 0%N.
Proof.
  intros Hst. unfold get_network_account, ask, StoreClient.get_network_account, StoreClient.call. rewrite Hst.
  unfold mbind at 1, M_bind at 1, map_err, connected, StoreApi.get_network_account_details_by_prefix, Wire.prefix_from_u32.
  case_decide as Hp; [done|]. intros He. exfalso. revert He. cbn [StoreApi.try_status].
  unfold mbind at 1, M_bind at 1, mret at 1, M_ret at 1.
  unfold mbind at 1, M_bind at 1, map_err, Queries.get_network_account_details_by_prefix, Read.select_network_account_by_prefix.
  rewrite query_gets. cbn. destruct (head _) as [row|]; cbn; [|done].
  destruct (Sql.details row.2) as [a|]; cbn; [|done]. unfold mbind, M_bind. by rewrite account_bytes_inv.
Qed.

(** Loading fails only at an account that cannot be asked for. *)
Lemma load_answer (f : NetworkAccountPrefix → StoreError + option Account) notes ns :
  match NtxState.load f (inr notes) ns with
  | (_, Ok _) => True
  | (_, Err _) => ∃ note e, note ∈ notes ∧ f (NtxAccount.account_prefix note) = inl e
  | _ => False
  end.
Proof.
  assert (wp (NtxState.load f (inr notes)) ns (λ _ _, True)
    (λ _ _, ∃ note e, note ∈ notes ∧ f (NtxAccount.account_prefix note) = inl e)) as Hwp.
  { unfold NtxState.load. apply (wp_for_each (λ _ _, True)); [done|]. intros pre note rest s' Hl _.
    assert (note ∈ notes) as Hin by (rewrite Hl; set_solver).
    rewrite wp_bind. unfold NtxState.fetch_account. wp_steps. destruct (NtxState.accounts s' !! _) as [a|]; wp_steps; [done|].
    destruct (f _) as [e|[account|]] eqn:Hf; wp_steps; [by exists note, e|done|done]. }
  rewrite wp_unfold in Hwp. by destruct (NtxState.load _ _ _) as [? []].
Qed.

(** The tables hold a note that the transaction builder cannot load. *)
Definition unloadable (t : Sql.Tables) : Prop := ∃ row, row ∈ (unconsumed t).*2 ∧
  (refused note_read t row ∨
   ∃ note, delivers note_read t row note ∧ N.shiftr (prefix_u32 (NtxAccount.account_prefix note)) 30 ≠ 0%N).

Lemma ninv_advance b n : ninv n → match builder n with Disabled | Running _ _ _ => False | _ => True end →
  builder_waits b ∨ loaded n ≠ None → (∀ g ns tip k, b = Subscribing g ns tip k → is_tip (disk n).2 tip) →
  match b with Running _ _ _ => False | _ => True end → ninv (set_builder b n).
Proof. intros Hn Hb Hl Hs Hr. apply ninv_set_builder; try done. intros w Hp. by destruct (not_producing n Hn Hb w). Qed.

Lemma ninv_fetch_genesis k n : ninv n → builder n = FetchingGenesis k →
  ninv (fetch_genesis k n) ∧ (failed (fetch_genesis k n) = failed n ∨
    failed (fetch_genesis k n) = Some NtxBuilder ∧ loaded n = None ∧ (32 ≤ k)%N).
Proof.
  intros Hn Hb. pose proof (store_answers n) as Ha. pose proof (loaded_store n Hn) as Hls.
  assert (match builder n with Disabled | Running _ _ _ => False | _ => True end) as Hbb by by rewrite Hb.
  unfold fetch_genesis. destruct (store n) as [s|] eqn:Hst.
  - destruct (Ha (store_consistent n s Hn Hst)) as (tip & h & g & _ & _ & _ & _ & ->). split; [|by left].
    apply ninv_advance; try done. right. naive_solver.
  - destruct Ha as [_ ->]. split.
    + apply retry_ninv; [done|]. apply ninv_advance; try done. by left.
    + destruct (retry_cases NtxBuilder (λ k, set_builder (FetchingGenesis k)) k n) as [[-> _]|[-> ?]]; [by left|right].
      split_and!; [done|by apply Hls|done].
Qed.

Lemma ninv_load_state fuel g n n' : ninv n → builder n = Loading g → load_state fuel g n = Some n' →
  ninv n' ∧ ((∃ ns, n' = set_builder (FetchingChainTip g ns) n) ∨
    n' = component_failed NtxBuilder n ∧ unloadable (disk n).2).
Proof.
  intros Hn Hb Hl.
  assert (match builder n with Disabled | Running _ _ _ => False | _ => True end) as Hbb by by rewrite Hb.
  assert (loaded n ≠ None) as Hld by (destruct (ni_builder n Hn) as [Hx|]; [by rewrite Hb in Hx|done]).
  destruct (store n) as [s|] eqn:Hst; [|by apply (loaded_store n Hn) in Hst].
  destruct (store_before n s Hn (not_producing n Hn Hbb) Hst) as [Hc Hdb].
  pose proof (pages_answer s Hc fuel None 0 [] eq_refl ltac:(constructor)) as Hpages. rewrite Hdb in Hpages.
  unfold load_state, ask in Hl. rewrite Hst in Hl. fold (StoreClient.get_unconsumed_network_notes (S := option StoreState.State) fuel
    (connected StoreApi.get_unconsumed_network_notes)) in Hpages.
  assert ((∃ row, row ∈ (unconsumed (disk n).2).*2 ∧ refused note_read (disk n).2 row) → unloadable (disk n).2) as Href.
  { intros (row & Hrow & Hbad). exists row. auto. }
  destruct (StoreClient.get_unconsumed_network_notes _ _ _).2 as [all|e|msg|]; [|injection Hl as <-..|done].
  2, 3: split; [by apply ninv_failed|right; by auto].
  apply (inj Some) in Hl. subst n'. unfold to_result. cbv beta iota. pose proof (load_answer (get_network_account n) all NtxState.empty_state) as Hload.
  destruct (NtxState.load _ _ _) as [ns [[]|e| |]]; try done.
  - split; [|left; by eexists]. apply ninv_advance; try done. by right.
  - split; [by apply ninv_failed|]. right. split; [done|]. destruct Hload as (note & e' & [i Hi]%list_elem_of_lookup_1 & He).
    destruct (Forall2_lookup_r _ _ _ _ _ Hpages Hi) as (row & Hrow & Hdel). exists row.
    split; [by eapply list_elem_of_lookup_2|]. right. exists note. split; [done|]. by apply (account_answer n s _ e').
Qed.

(** The peaks of the store's chain are not those of a chain of its length. *)
Definition bad_peaks n : Prop := ∃ s tip peaks, store n = Some s ∧ is_tip (disk n).2 tip ∧
  chain_peaks_at (StoreState.blockchain (StoreState.inner s)) tip = Some peaks ∧ peaks_new tip (peaks_list peaks) = None.

Lemma ninv_blockchain_data g ns n : ninv n → builder n = FetchingChainTip g ns →
  ninv (fetch_blockchain_data g ns n) ∧
  ((∃ tip, fetch_blockchain_data g ns n = set_builder (Subscribing g ns tip 0) n) ∨
    fetch_blockchain_data g ns n = component_failed NtxBuilder n ∧ bad_peaks n).
Proof.
  intros Hn Hb.
  assert (match builder n with Disabled | Running _ _ _ => False | _ => True end) as Hbb by by rewrite Hb.
  assert (loaded n ≠ None) as Hld by (destruct (ni_builder n Hn) as [Hx|]; [by rewrite Hb in Hx|done]).
  destruct (store n) as [s|] eqn:Hst; [|by apply (loaded_store n Hn) in Hst].
  destruct (store_before n s Hn (not_producing n Hn Hbb) Hst) as [Hc Hdb].
  destruct (tables_tip _ (con_tables _ Hc)) as (tip & _ & Ht & _).
  destruct (blockchain_data_answer s tip Hc Ht) as (h & peaks & _ & Hh & Hpk & Ha).
  unfold fetch_blockchain_data, ask. rewrite Hst, Ha. cbn [snd]. rewrite Hdb in Ht.
  destruct (peaks_new tip (peaks_list peaks)) as [p|] eqn:Hp.
  - split; [|left; by eexists]. apply ninv_advance; try done; [by right|]. by intros ? ? ? ? [= _ _ <- _]; rewrite Hh.
  - split; [by apply ninv_failed|]. right. split; [done|]. by exists s, tip, peaks.
Qed.

(** The producer's answer to a subscription. *)
Lemma subscription_answer w tip : winv w →
  match mempool_subscription tip (Producer.mempool w) with
  | (m, Ok rx) => tip = Mempool.chain_tip (Producer.mempool w) ∧
      Producer.exec (Producer.MempoolSubscription tip) w = Some (Producer.set_mempool m w, MempoolTheorems.Returned)
  | (_, Err _) => tip ≠ Mempool.chain_tip (Producer.mempool w)
  | _ => False
  end.
Proof.
  intros [(ta & ba & Hm & _) _ _ _]. pose proof (wp_run _ _ _ _ (wp_mempool_subscribe _ ta ba tip Hm)) as Hwp.
  unfold mempool_subscription, Server.mempool_subscription, map_err. cbn. unfold Producer.locked, Server.mempool_subscription.
  by destruct (Mempool.subscribe tip (Producer.mempool w)) as [m []]; try done; destruct Hwp as (? & ? & ?).
Qed.

(** At the checkpoint the mempool's tip is that of the disk. *)
Lemma checkpoint_tip n w tip : ninv n → producer n = AtCheckpoint w → is_tip (disk n).2 tip →
  Mempool.block_in_progress (Producer.mempool w) = None ∧ Mempool.chain_tip (Producer.mempool w) = tip.
Proof.
  intros Hn Hp Ht. destruct (ni_checkpoint n Hn w Hp) as (Hdb & Hph & _).
  destruct (ni_world n Hn w) as [_ Hpro]; [by unfold world; rewrite Hp|].
  destruct (w_phase _ (produces_inv _ Hpro)) as (tip' & Ht' & Hok). rewrite Hph in Hok. cbn in Hok.
  rewrite Hdb in Ht'. by rewrite <- (tip_unique _ _ _ Ht' Ht).
Qed.

(** Subscribing succeeds as soon as the producer serves requests. *)
Lemma ninv_subscribe g ns tip k n : ninv n → builder n = Subscribing g ns tip k →
  ninv (subscribe g ns tip k n) ∧
  match world n with
  | Some w => Mempool.chain_tip (Producer.mempool w) = tip ∧
      ∃ m rx, subscribe g ns tip k n = set_builder (Subscribed g ns rx) (put_world (Producer.set_mempool m w) n)
  | None => failed (subscribe g ns tip k n) = failed n ∨ failed (subscribe g ns tip k n) = Some NtxBuilder ∧ (32 ≤ k)%N
  end.
Proof.
  intros Hn Hb.
  assert (match builder n with Disabled | Running _ _ _ => False | _ => True end) as Hbb by by rewrite Hb.
  assert (loaded n ≠ None) as Hld by (destruct (ni_builder n Hn) as [Hx|]; [by rewrite Hb in Hx|done]).
  pose proof (ni_subscribing n Hn _ _ _ _ Hb) as Ht.
  unfold subscribe, NtxTransaction.subscribe_to_mempool. destruct (world n) as [w|] eqn:Hw; cbn [fmap option_fmap option_map connected].
  - destruct (ni_world n Hn w Hw) as [_ Hpro].
    assert (producer n = AtCheckpoint w) as Hp.
    { pose proof (not_producing n Hn Hbb) as Hnp. unfold world in Hw. destruct (producer n); naive_solver. }
    destruct (checkpoint_tip n w tip Hn Hp Ht) as [_ Htip].
    pose proof (subscription_answer w tip (produces_inv _ Hpro)) as Ha.
    destruct (mempool_subscription tip (Producer.mempool w)) as [m [rx| | |]]; try done.
    destruct Ha as [_ He]. split; [|split; [done|by exists m, rx]].
    destruct (put_world_disk (Producer.set_mempool m w) n) as (Hpd & Hpl & Hpb).
    apply ninv_advance; [|by rewrite Hpb|by rewrite Hpl; right|done|done].
    apply (ninv_put_world w); [done..| |done]. by apply (Producer.produces_exec w (Producer.MempoolSubscription tip) _ MempoolTheorems.Returned).
  - split.
    + apply retry_ninv; [done|]. apply ninv_advance; try done; [by right|]. by intros ? ? ? ? [= _ _ <- _].
    + destruct (retry_cases NtxBuilder (λ k, set_builder (Subscribing g ns tip k)) k n) as [[-> _]|[-> ?]]; [by left|by right].
Qed.

(** ** Every event *)

(** The checkpoint is passed. *)
Lemma ninv_pass w b n : ninv n → producer n = AtCheckpoint w →
  builder n = Disabled ∧ b = Disabled ∨ (∃ g ns rx, builder n = Subscribed g ns rx ∧ b = Running g ns rx) →
  ninv (set_builder b (set_producer (Producing w) n)).
Proof.
  intros [Hd Hl Ht Hw Hc Hb Hs Ho Hr] Hp Hcase. split; cbn; try done.
  - intros ? [= <-]. apply Hw. unfold world. by rewrite Hp.
  - destruct Hcase as [[_ ->]|(g & ns & rx & Hbu & ->)]; [by left|right]. destruct Hb as [Hx|]; [by rewrite Hbu in Hx|done].
  - by destruct Hcase as [[_ ->]|(g & ns & rx & Hbu & ->)].
  - intros ? _. by destruct Hcase as [[_ ->]|(g & ns & rx & Hbu & ->)].
  - intros. by exists w.
Qed.

Lemma put_world_failed w n : failed (put_world w n) = failed n.
Proof. unfold put_world. by destruct (producer n). Qed.

Lemma ninv_produce ev n n' : ninv n → (∀ w, world n = Some w → Producer.admissible_event w ev) →
  produce ev n = Some n' → ninv n' ∧ failed n' = failed n.
Proof.
  intros Hn Ha Hp.
  assert (∃ w w' o, world n = Some w ∧ Producer.exec ev w = Some (w', o) ∧ n' = put_world w' n ∧
    (producer n = AtCheckpoint w → is_request ev = true)) as (w & w' & o & Hw & He & -> & Hr).
  { unfold produce in Hp. unfold world. destruct (producer n) as [| |w|w] eqn:Hpr; try done.
    - destruct (is_request ev) eqn:Hr; [|done]. destruct (Producer.exec ev w) as [[w' o]|] eqn:He; [|done].
      injection Hp as <-. by exists w, w', o.
    - destruct (Producer.exec ev w) as [[w' o]|] eqn:He; [|done]. injection Hp as <-. by exists w, w', o. }
  split; [|by apply put_world_failed]. destruct (ni_world n Hn w Hw) as [_ Hpro].
  eapply ninv_put_world; [done|done|by eapply Producer.produces_exec; [done|apply Ha|]|].
  intros Hpr. by eapply request_frame; [apply Hr|].
Qed.

(** Which component an event can end, and when. *)
Definition may_end ev n (c : Component) : Prop :=
  match ev, c with
  | FetchChainTip, BlockProducer => loaded n = None ∧ ∃ k, producer n = FetchingTip k ∧ (32 ≤ k)%N
  | FetchGenesis, NtxBuilder => loaded n = None ∧ ∃ k, builder n = FetchingGenesis k ∧ (32 ≤ k)%N
  | LoadState _, NtxBuilder => unloadable (disk n).2
  | FetchBlockchainData, NtxBuilder => bad_peaks n
  | Subscribe, NtxBuilder => world n = None ∧ ∃ g ns tip k, builder n = Subscribing g ns tip k ∧ (32 ≤ k)%N
  | _, _ => False
  end.

Lemma exec_ninv ev n n' : ninv n →
  match ev with Produce pev => ∀ w, world n = Some w → Producer.admissible_event w pev | _ => True end →
  exec ev n = Some n' → ninv n' ∧ (failed n' = None ∨ ∃ c, failed n' = Some c ∧ may_end ev n c).
Proof.
  intros Hn Ha He. unfold exec in He. case_decide as Hf; [done|].
  enough (ninv n' ∧ (failed n' = failed n ∨ ∃ c, failed n' = Some c ∧ may_end ev n c)) as Hx by by rewrite Hf in Hx.
  destruct ev; cbn [may_end].
  - destruct (loaded n) eqn:Hl; [done|]. injection He as <-. destruct (ninv_load n Hn Hl). auto.
  - destruct (producer n) eqn:Hp; try done. injection He as <-.
    destruct (ninv_fetch_chain_tip _ n Hn Hp) as [Hi [Hc|(Hc & Hl & Hk)]]; [by auto|].
    split; [done|]. right. exists BlockProducer. eauto.
  - destruct (producer n) eqn:Hp; try done. destruct (ninv_serve _ _ _ Hn Hp He). auto.
  - destruct (builder n) eqn:Hb; try done. injection He as <-.
    destruct (ninv_fetch_genesis _ n Hn Hb) as [Hi [Hc|(Hc & Hl & Hk)]]; [by auto|].
    split; [done|]. right. exists NtxBuilder. eauto.
  - destruct (builder n) eqn:Hb; try done. destruct (ninv_load_state _ _ _ _ Hn Hb He) as [Hi [[ns ->]|[-> Hl]]]; [by auto|].
    split; [done|]. right. by exists NtxBuilder.
  - destruct (builder n) eqn:Hb; try done. injection He as <-.
    destruct (ninv_blockchain_data _ _ n Hn Hb) as [Hi [[tip He]|(He & Hl)]]; rewrite He in Hi |- *; [by auto|].
    split; [done|]. right. by exists NtxBuilder.
  - destruct (builder n) eqn:Hb; try done. injection He as <-.
    destruct (ninv_subscribe _ _ _ _ n Hn Hb) as [Hi Hs]. split; [done|]. destruct (world n) as [w|].
    + destruct Hs as (_ & m & rx & ->). left. cbn. apply put_world_failed.
    + destruct Hs as [?|[? ?]]; [by left|]. right. exists NtxBuilder. eauto 10.
  - destruct (producer n) eqn:Hp; try done. destruct (builder n) eqn:Hb; try done; injection He as <-.
    + split; [|by left].
      assert (set_producer (Producing w) n = set_builder Disabled (set_producer (Producing w) n)) as ->
        by (destruct n; cbn in *; by subst).
      apply ninv_pass; auto.
    + split; [|by left]. apply ninv_pass; [done..|]. right. by eauto 10.
  - destruct (ninv_produce _ _ _ Hn Ha He). auto.
Qed.

(** ** From the start to production *)

(** An event of the start. *)
Definition step n n' : Prop := ∃ ev, (∀ pev, ev ≠ Produce pev) ∧ exec ev n = Some n'.

(** The stages that are left. *)
Definition stages_left n : nat :=
  (match loaded n with None => 1 | Some _ => 0 end) +
  (match producer n with FetchingTip _ => 3 | TipFetched _ => 2 | AtCheckpoint _ => 1 | Producing _ => 0 end) +
  match builder n with
  | Disabled | Running _ _ _ => 0
  | Subscribed _ _ _ => 1
  | Subscribing _ _ _ _ => 2
  | FetchingChainTip _ _ => 3
  | Loading _ => 4
  | FetchingGenesis _ => 5
  end.

(** The store's data stop the transaction builder. *)
Definition refused_data n : Prop := unloadable (disk n).2 ∨ bad_peaks n.

(** A step that takes the node a stage further, or ends the builder on such data. *)
Definition advances n : Prop :=
  ∃ n', step n n' ∧ (failed n' = Some NtxBuilder ∧ refused_data n' ∨ failed n' = None ∧ stages_left n' < stages_left n).

Lemma exec_advances ev n n' : (∀ pev, ev ≠ Produce pev) → exec ev n = Some n' →
  failed n' = Some NtxBuilder ∧ refused_data n' ∨ failed n' = None ∧ stages_left n' < stages_left n → advances n.
Proof. intros Hev He Hn'. exists n'. split; [by exists ev|done]. Qed.

(** Evaluates an event in a state whose stages are known. *)
Ltac run_event :=
  unfold exec; rewrite decide_False by (let H := fresh in intros H; by apply H);
  repeat match goal with H : _ = _ |- _ => progress rewrite H end; try done.

(** Evaluates the stages that are left. *)
Ltac count_stages :=
  unfold stages_left; cbn; repeat match goal with H : _ = _ |- _ => progress rewrite H end; cbn; lia.

Lemma load_advances n : ninv n → failed n = None → loaded n = None → advances n.
Proof.
  intros Hn Hf Hl. apply (exec_advances LoadStore n (load_store n)); [done|by run_event|].
  destruct (ninv_load n Hn Hl) as [_ Hfl]. right. rewrite Hfl. split; [done|]. revert Hfl. rewrite Hf.
  unfold load_store. destruct (StoreState.load _ _) as [t []]; cbn; try done. intros _. count_stages.
Qed.

(** The producer gets to the checkpoint. *)
Lemma producer_advances n s : ninv n → failed n = None → loaded n = Some s → world n = None → advances n.
Proof.
  intros Hn Hf Hl Hw.
  destruct (store n) as [s'|] eqn:Hst; [|apply (loaded_store n Hn) in Hst; congruence].
  pose proof (store_answers n) as Ha. rewrite Hst in Ha.
  destruct (Ha (store_consistent n s' Hn Hst)) as (tip & h & g & _ & _ & _ & Hlatest & _).
  unfold world in Hw. destruct (producer n) as [k|tip'|w|w] eqn:Hp; try done.
  - apply (exec_advances FetchChainTip n (fetch_chain_tip k n)); [done|by run_event|].
    right. unfold fetch_chain_tip. rewrite Hlatest. split; [done|count_stages].
  - apply (exec_advances ServeProducer n (set_producer (AtCheckpoint (Producer.serve s tip' (max_txs_per_batch (config n))
      (max_batches_per_block (config n)) (batch_prover_url (config n)) (block_prover_url (config n)))) n)); [done| |].
    + run_event. unfold serve_producer. by rewrite Hl.
    + right. split; [done|count_stages].
Qed.

(** The builder gets there too, and both pass. *)
Lemma builder_advances n s w : ninv n → failed n = None → loaded n = Some s → producer n = AtCheckpoint w → advances n.
Proof.
  intros Hn Hf Hl Hp.
  assert (store n = Some (Producer.store w)) as Hst by (unfold store, world; by rewrite Hp).
  pose proof (store_consistent n _ Hn Hst) as Hc.
  destruct (builder n) as [|k|g|g ns|g ns btip k|g ns rx|g ns rx] eqn:Hb.
  - apply (exec_advances PassCheckpoint n (set_producer (Producing w) n)); [done|by run_event|].
    right. split; [done|count_stages].
  - pose proof (store_answers n) as Ha. rewrite Hst in Ha. destruct (Ha Hc) as (_ & _ & g & _ & _ & _ & _ & Hgenesis).
    apply (exec_advances FetchGenesis n (fetch_genesis k n)); [done|by run_event|].
    right. unfold fetch_genesis. rewrite Hgenesis. split; [done|count_stages].
  - set (fuel := S (length (unconsumed (StoreState.db (Producer.store w))))).
    assert (ask (StoreClient.get_unconsumed_network_notes fuel (connected StoreApi.get_unconsumed_network_notes)) n ≠ OutOfFuel)
      as Hfuel.
    { unfold ask. rewrite Hst. pose proof (pages_answer _ Hc fuel None 0 [] eq_refl ltac:(constructor)) as Hx.
      unfold StoreClient.get_unconsumed_network_notes. intros Ho. rewrite Ho in Hx. unfold fuel in Hx. lia. }
    destruct (load_state fuel g n) as [n'|] eqn:He.
    2:{ unfold load_state in He. by destruct (ask _ n). }
    apply (exec_advances (LoadState fuel) n n'); [done|by run_event|].
    destruct (ninv_load_state fuel g n n' Hn Hb He) as [_ [[ns ->]|[-> Hbad]]]; [right; split; [done|count_stages]|].
    left. split; [done|by left].
  - destruct (ninv_blockchain_data g ns n Hn Hb) as [_ Hcase].
    apply (exec_advances FetchBlockchainData n (fetch_blockchain_data g ns n)); [done|by run_event|].
    destruct Hcase as [[tip ->]|[-> Hbad]]; [right; split; [done|count_stages]|left; split; [done|by right]].
  - destruct (ninv_subscribe g ns btip k n Hn Hb) as [_ Hcase].
    unfold world in Hcase. rewrite Hp in Hcase. destruct Hcase as (_ & m & rx & He).
    apply (exec_advances Subscribe n (subscribe g ns btip k n)); [done|by run_event|]. rewrite He. right.
    unfold put_world. rewrite Hp. split; [done|count_stages].
  - apply (exec_advances PassCheckpoint n (set_builder (Running g ns rx) (set_producer (Producing w) n))); [done|by run_event|].
    right. split; [done|count_stages].
  - destruct (ni_running n Hn _ _ _ Hb) as [w' Hw]. congruence.
Qed.

Lemma start_advances n : ninv n → failed n = None → (∀ w, producer n ≠ Producing w) → advances n.
Proof.
  intros Hn Hf Hnp. destruct (loaded n) as [s|] eqn:Hl; [|by apply load_advances].
  destruct (world n) as [w|] eqn:Hw; [|by eapply producer_advances].
  apply (builder_advances n s w); try done. unfold world in Hw. destruct (producer n); naive_solver.
Qed.

Lemma can_start n : ninv n → failed n = None →
  ∃ n', rtc step n n' ∧
    (failed n' = Some NtxBuilder ∧ refused_data n' ∨ failed n' = None ∧ ∃ w, producer n' = Producing w).
Proof.
  remember (stages_left n) as k eqn:Hk. revert n Hk. induction (lt_wf k) as [k _ IH]. intros n -> Hn Hf.
  assert ((∃ w, producer n = Producing w) ∨ ∀ w, producer n ≠ Producing w) as [[w Hw]|Hnp].
  { destruct (producer n); eauto. }
  { exists n. split; [done|]. right. eauto. }
  destruct (start_advances n Hn Hf Hnp) as (n1 & Hstep & [Hfl|[Hf1 Hlt]]).
  { exists n1. split; [by apply rtc_once|by left]. }
  assert (ninv n1) as Hn1.
  { destruct Hstep as (ev & Hev & He). apply (exec_ninv ev n n1 Hn); [|done]. destruct ev; try done. by destruct (Hev ev). }
  destruct (IH _ Hlt n1 eq_refl Hn1 Hf1) as (n' & Hr & Hn'). exists n'. split; [by eapply rtc_l|done].
Qed.

Lemma reachable_ninv n : reachable n → ninv n.
Proof. induction 1 as [|n ev n' _ Hn Ha He]; [by apply ninv_start|]. by destruct (exec_ninv ev n n' Hn Ha He). Qed.


End start.
