(* ===== verification/Proxy.v ===== *)
(** * The prover proxy

    Model of [bin/remote-prover/src/proxy/]: the workers of [worker.rs], with their
    health, their availability, the health check and the back-off between checks; and
    of [mod.rs], with the service of [health_check.rs] and [update_workers.rs], the
    load balancer that hands requests, in the order of a queue, to available workers.
    Addresses, version numbers and the gRPC client are those of third-party
    libraries; what a worker answers to a check is part of its environment. Metrics,
    timeouts and HTTP headers are left out. *)

From S2P Require Import Prelude.

Class ProxyObjects := {
  (** [pingora::lb::Backend], from a worker's address. *)
  Backend : Type;
  backend_eq :: EqDecision Backend;
  backend_new : string → option Backend;
  backend_addr : Backend → string;
  (** [semver]: the version of the proxy parsed, and its requirement on a worker's. *)
  Version : Type;
  version_parse : string → option Version;
  VersionReq : Type;
  version_req_matches : VersionReq → Version → bool;
  WORKER_VERSION_REQUIREMENT : VersionReq;
  (** The status client and the errors of connecting it. *)
  StatusClient : Type;
  RemoteProverError : Type;
}.

Inductive ProofType : Type := ProveTransaction | ProveBatch | ProveBlock.

#[global] Instance ProofType_eq_dec : EqDecision ProofType.
Proof. solve_decision. Defined.

(** [TryFrom<i32>]. *)
Definition proof_type_try_from (value : Z) : option ProofType :=
  match value with
  | 0%Z => Some ProveTransaction
  | 1%Z => Some ProveBatch
  | 2%Z => Some ProveBlock
  | _ => None
  end.

(** An [Instant] or a [Duration], in nanoseconds. *)
Abbreviation Nanos := N.

Definition from_secs (s : N) : Nanos := (s * 1000000000)%N.

(** The maximum exponent for the back-off. *)
Definition MAX_BACKOFF_EXPONENT : N := 9.

Module Worker.

Section defs.
Context `{!ProxyObjects}.

(** The messages that the code builds with [format!], by what they report. *)
Inductive Reason : Type :=
| FailedToCreateStatusClient (e : RemoteProverError)
| FailedToRecreateStatusClient (e : RemoteProverError)
| StatusFailed (message : string)
| VersionEmpty
| VersionInvalid (version : string)
| UnknownProofType (value : Z)
| UnsupportedProofType (supported : ProofType).

Inductive WorkerHealthStatus : Type :=
| Healthy
| Unhealthy (num_failed_attempts : N) (first_fail_timestamp : Nanos) (reason : Reason)
| Unknown.

Record Worker := mk_worker {
  backend : Backend;
  status_client : option StatusClient;
  is_available : bool;
  health_status : WorkerHealthStatus;
  version : string;
}.

Implicit Types (w : Worker).

Definition set_status_client x w := mk_worker (backend w) x (is_available w) (health_status w) (version w).

Definition set_availability x w := mk_worker (backend w) (status_client w) x (health_status w) (version w).

Definition put_health_status x w := mk_worker (backend w) (status_client w) (is_available w) x (version w).

Definition set_version x w := mk_worker (backend w) (status_client w) (is_available w) (health_status w) x.

(** [WorkerStatusResponse]. *)
Record StatusResponse := mk_status_response {
  resp_version : string;
  resp_proof_type : Z;
}.

(** What a worker answers: to a connection of the status client, and to a status
    request. *)
Record Probe := mk_probe {
  create_status_client : RemoteProverError + StatusClient;
  status : StatusClient → string + StatusResponse;
}.

(** [Worker::new] at the time [now]; [None] is an invalid address. *)
Definition new (probe : Probe) (now : Nanos) (worker_addr : string) : option Worker :=
  b ← backend_new worker_addr;
  let '(client, health) :=
    match create_status_client probe with
    | inr client => (Some client, Unknown)
    | inl err => (None, Unhealthy 1 now (FailedToCreateStatusClient err))
    end in
  Some {| backend := b;
          is_available := match health with Unknown => true | _ => false end;
          status_client := client;
          health_status := health;
          version := "" |}.

Definition num_failures w : N :=
  match health_status w with
  | Healthy | Unknown => 0
  | Unhealthy failed_attempts _ _ => failed_attempts
  end.

Definition address w : string := backend_addr (backend w).

Definition is_healthy w : bool :=
  match health_status w with Unhealthy _ _ _ => false | _ => true end.

Definition is_valid_version (req : VersionReq) (v : string) : option bool :=
  version_req_matches req <$> version_parse v.

(** The time a failed worker is left alone, counted from its first failure. *)
Definition backoff (failed_attempts : N) : Nanos := from_secs (2 ^ (failed_attempts `min` MAX_BACKOFF_EXPONENT)).

Definition should_do_health_check (now : Nanos) w : bool :=
  match health_status w with
  | Healthy | Unknown => true
  | Unhealthy failed_attempts first_fail_timestamp _ =>
    (backoff failed_attempts <? now - first_fail_timestamp)%N
  end.

Definition recreate_status_client (probe : Probe) : M Worker RemoteProverError unit :=
  match create_status_client probe with
  | inr client => modify (set_status_client (Some client))
  | inl err => throw err
  end.

(** [check_status] after the answer of the worker. *)
Definition check_response (supported_proof_type : ProofType) (response : StatusResponse) : M Worker Reason unit :=
  if decide (resp_version response = "") then throw VersionEmpty else
  if default false (is_valid_version WORKER_VERSION_REQUIREMENT (resp_version response)) then
    _ ← modify (set_version (resp_version response));
    match proof_type_try_from (resp_proof_type response) with
    | None => throw (UnknownProofType (resp_proof_type response))
    | Some worker_supported =>
      if decide (supported_proof_type ≠ worker_supported) then throw (UnsupportedProofType supported_proof_type)
      else mret tt
    end
  else throw (VersionInvalid (resp_version response)).

Definition check_status (probe : Probe) (now : Nanos) (supported_proof_type : ProofType) : M Worker Reason unit :=
  w ← get;
  if should_do_health_check now w then
    (* If there is no status client, try to recreate it. *)
    _ ← match status_client w with
        | None => map_err FailedToRecreateStatusClient (recreate_status_client probe)
        | Some _ => mret tt
        end;
    w ← get;
    client ← expect_some (status_client w) "called `Option::unwrap()` on a `None` value";
    match status probe client with
    | inl message => throw (StatusFailed message)
    | inr response => check_response supported_proof_type response
    end
  else mret tt.

(** The availability follows the health. *)
Definition set_health_status (health : WorkerHealthStatus) w : Worker :=
  let was_healthy := is_healthy w in
  let w := put_health_status health w in
  match health with
  | Healthy | Unknown => if was_healthy then w else set_availability true w
  | Unhealthy _ _ _ => set_availability false w
  end.

(** [usize] addition with overflow checks. *)
Definition usize_add {S E} (a b : N) : M S E N :=
  if (a + b <? 2 ^ 64)%N then mret (a + b)%N else panic "attempt to add with overflow".

Definition update_status {E} (now : Nanos) (check_result : Reason + unit) : M Worker E unit :=
  w ← get;
  match check_result with
  | inr _ => modify (set_health_status Healthy)
  | inl reason =>
    attempts ← usize_add (num_failures w) 1;
    let first := match health_status w with Unhealthy _ first _ => first | _ => now end in
    modify (set_health_status (Unhealthy attempts first reason))
  end.

(** One turn of the health check service. *)
Definition check_and_update {E} (probe : Probe) (now : Nanos) (supported : ProofType) : M Worker E unit := λ w,
  match check_status probe now supported w with
  | (w', Ok _) => update_status now (inr tt) w'
  | (w', Err reason) => update_status now (inl reason) w'
  | (w', Panic msg) => (w', Panic msg)
  | (w', OutOfFuel) => (w', OutOfFuel)
  end.

End defs.

End Worker.

(** ** The load balancer, its queue, and the life of a request *)

Import Worker.

(** [Uuid]s of requests. *)
Abbreviation Uuid := N.

Module LoadBalancer.

Section defs.
Context `{!ProxyObjects}.
Implicit Types (w : Worker).

(** [LoadBalancerState]: the list behind the lock, and the limits. *)
Record LoadBalancerState := mk_load_balancer {
  workers : list Worker;
  max_queue_items : N;
  max_retries_per_request : N;
  max_req_per_sec : Z;
  supported_proof_type : ProofType;
}.

Implicit Types (lb : LoadBalancerState).

Definition set_workers x lb := mk_load_balancer x (max_queue_items lb) (max_retries_per_request lb)
  (max_req_per_sec lb) (supported_proof_type lb).

Abbreviation LB E := (M LoadBalancerState E).

(** Workers with an invalid address are left out. *)
Definition new (probes : string → Probe) (now : Nanos) (initial_workers : list string)
    (max_queue_items max_retries_per_request : N) (max_req_per_sec : Z) (proof_type : ProofType) : LoadBalancerState :=
  mk_load_balancer (omap (λ addr, Worker.new (probes addr) now addr) initial_workers)
    max_queue_items max_retries_per_request max_req_per_sec proof_type.

(** [PartialEq] of workers. *)
Definition same_worker w w' : bool := bool_decide (backend w = backend w').

(** The position of the first element that satisfies a condition. *)
Fixpoint position {A} (f : A → bool) (l : list A) : option nat :=
  match l with
  | [] => None
  | x :: l => if f x then Some 0 else S <$> position f l
  end.

Definition pop_available_worker {E} : LB E (option Worker) :=
  lb ← get;
  match position is_available (workers lb) with
  | None => mret None
  | Some i =>
    w ← expect_some (workers lb !! i) "index out of bounds";
    let w := set_availability false w in
    _ ← modify (set_workers (<[i := w]> (workers lb)));
    mret (Some w)
  end.

Definition add_available_worker {E} (worker : Worker) : LB E unit :=
  lb ← get;
  match position (λ w, same_worker w worker) (workers lb) with
  | None => mret tt
  | Some pos =>
    w ← expect_some (workers lb !! pos) "removal index should be < len";
    (* It is marked as available and goes to the end of the list. *)
    modify (set_workers (delete pos (workers lb) ++ [set_availability true w]))
  end.

Inductive Action : Type := Add | Remove.

(** [Err] is [BackendCreationFailed]. *)
Definition update_workers (probes : string → Probe) (now : Nanos) (action : Action) (addrs : list string)
  : LB unit unit :=
  native_workers ← fold_m (λ acc addr,
    match Worker.new (probes addr) now addr with
    | Some w => mret (acc ++ [w])
    | None => throw tt
    end) [] addrs;
  for_each native_workers (λ worker, modify (λ lb,
    match action with
    | Add => if existsb (λ w, same_worker w worker) (workers lb) then lb else set_workers (workers lb ++ [worker]) lb
    | Remove => set_workers (filter (λ w, same_worker w worker = false) (workers lb)) lb
    end)).

Definition num_workers lb : nat := length (workers lb).

Definition num_busy_workers lb : nat := length (filter (λ w, is_available w = false) (workers lb)).

(** The body of the loop of the health check service, under the write lock. *)
Definition health_check {E} (probes : Backend → Probe) (now : Backend → Nanos) : LB E unit :=
  lb ← get;
  checked ← fold_m (λ acc worker,
    zoom (λ _, worker) (λ _ lb, lb)
      (_ ← check_and_update (probes (backend worker)) (now (backend worker)) (supported_proof_type lb);
       worker ← get; mret (acc ++ [worker]))) [] (workers lb);
  modify (set_workers checked).

End defs.

End LoadBalancer.

(** ** The services for operators *)

(** [commands/update_workers.rs], the operator's command, and the service of
    [update_workers.rs] that answers it. The query string is that of [serde_qs]. *)
Module Control.
Import LoadBalancer.

Section defs.
Context `{!ProxyObjects}.

Record UpdateWorkers := mk_update {
  action : Action;
  addresses : list string;
  control_port : N;
}.

(** [AddWorkers] and [RemoveWorkers] as an update. *)
Definition add_workers (addrs : list string) (port : N) : UpdateWorkers := mk_update Add addrs port.

Definition remove_workers (addrs : list string) (port : N) : UpdateWorkers := mk_update Remove addrs port.

Context (qs_to_string : UpdateWorkers → option string) (qs_from_str : string → option UpdateWorkers).

Inductive ControlError : Type :=
| RequestHeaderNotRead
| DownstreamFailed
| NoQueryParameters
| QueryNotParsed
| UpdateFailed.

(** Status 400 with the message, or 200 with the number of workers. *)
Inductive Response : Type :=
| ErrorMessage (e : ControlError)
| WorkersUpdated (count : nat).

(** The workers are counted after the update has released them: [between] is what
    others do meanwhile. *)
Definition process_new_http {E} (probes : string → Probe) (now : Nanos) (between : LoadBalancerState → LoadBalancerState)
    (read_request : unit + bool) (query : option string) : M LoadBalancerState E Response :=
  match read_request with
  | inl _ => mret (ErrorMessage DownstreamFailed)
  | inr false => mret (ErrorMessage RequestHeaderNotRead)
  | inr true =>
    match query with
    | None => mret (ErrorMessage NoQueryParameters)
    | Some query_params =>
      match qs_from_str query_params with
      | None => mret (ErrorMessage QueryNotParsed)
      | Some u => λ lb,
        match update_workers probes now (action u) (addresses u) lb with
        | (lb, Ok _) => (between lb, Ok (WorkersUpdated (num_workers (between lb))))
        | (lb, Err _) => (lb, Ok (ErrorMessage UpdateFailed))
        | (lb, Panic msg) => (lb, Panic msg)
        | (lb, OutOfFuel) => (lb, OutOfFuel)
        end
      end
    end
  end.

(** [UpdateWorkers::execute]: the number of workers, or an error. [send] is the GET
    request with its query; [None] is a failed connection. *)
Definition execute {S} (send : option string → M S Empty_set (option Response)) (u : UpdateWorkers) : M S unit nat :=
  match qs_to_string u with
  | None => throw tt
  | Some query_params =>
    response ← map_err (λ e : Empty_set, match e with end) (send (Some query_params));
    match response with
    | Some (WorkersUpdated count) => mret count
    | _ => throw tt
    end
  end.

End defs.

End Control.

(** The status service of [status.rs]. *)
Module ProxyStatus.
Import LoadBalancer.

Section defs.
Context `{!ProxyObjects}.

Record WorkerStatus := mk_worker_status {
  address : string;
  worker_version : string;
  status : Z;
}.

Record ProxyStatusResponse := mk_proxy_status {
  proxy_version : string;
  proof_type : Z;
  worker_statuses : list WorkerStatus;
}.

(** The numbers of [proto::WorkerHealthStatus]. *)
Definition health_value (h : WorkerHealthStatus) : Z :=
  match h with Healthy => 1 | Unhealthy _ _ _ => 2 | Unknown => 0 end.

Definition worker_status (w : Worker) : WorkerStatus :=
  mk_worker_status (backend_addr (backend w)) (version w) (health_value (health_status w)).

(** [From<ProofType> for i32]. *)
Definition proof_type_value (p : ProofType) : Z :=
  match p with ProveTransaction => 0 | ProveBatch => 1 | ProveBlock => 2 end.

Definition build_status (pkg_version : string) (lb : LoadBalancerState) : ProxyStatusResponse :=
  mk_proxy_status pkg_version (proof_type_value (supported_proof_type lb)) (worker_status <$> workers lb).

(** The published status: the service starts with one, the updater replaces it when
    its timer fires, and a request is answered with the last one. *)
Definition ProxyStatusPingoraService : Type := ProxyStatusResponse.

Definition new (pkg_version : string) (lb : LoadBalancerState) : ProxyStatusPingoraService := build_status pkg_version lb.

Definition update {E} (pkg_version : string) (lb : LoadBalancerState) : M ProxyStatusPingoraService E unit :=
  modify (λ _, build_status pkg_version lb).

Definition get_status {E} : M ProxyStatusPingoraService E ProxyStatusResponse := get.

End defs.

End ProxyStatus.

Module RequestQueue.

(** Without the times that are only observed. *)
Abbreviation Queue := (list Uuid).

Section defs.
Context {E : Type}.

Definition len (q : Queue) : nat := length q.

Definition enqueue (request_id : Uuid) : M Queue E unit := modify (λ q, q ++ [request_id]).

Definition dequeue : M Queue E (option Uuid) :=
  q ← get;
  match q with
  | [] => mret None
  | request_id :: q => _ ← modify (λ _, q); mret (Some request_id)
  end.

Definition peek : M Queue E (option Uuid) := gets head.

End defs.

End RequestQueue.

Module Proxy.
Import LoadBalancer.

Section defs.
Context `{!ProxyObjects}.

(** Where a request is in its life: before [request_filter], accepted and before
    [upstream_peer], in its loop, after the loop and before the removal from the
    queue, with its worker, and failed or rejected. *)
Inductive Phase : Type := Fresh | Accepted | Waiting | Picked | Connecting | Done.

#[global] Instance Phase_eq_dec : EqDecision Phase.
Proof. solve_decision. Defined.

(** [RequestContext]. *)
Record RequestContext := mk_context {
  tries : N;
  worker : option Worker;
  phase : Phase;
}.

Implicit Types (c : RequestContext).

Definition set_worker x c := mk_context (tries c) (Some x) (phase c).

Definition take_worker c := mk_context (tries c) None (phase c).

Definition set_phase p c := mk_context (tries c) (worker c) p.

Definition new_ctx : RequestContext := mk_context 0 None Fresh.

(** The load balancer, the queue, and the contexts of the requests. *)
Record State := mk_state {
  balancer : LoadBalancerState;
  queue : RequestQueue.Queue;
  contexts : gmap Uuid RequestContext;
}.

Implicit Types (s : State).

Definition set_balancer x s := mk_state x (queue s) (contexts s).

Definition set_queue x s := mk_state (balancer s) x (contexts s).

Definition over_contexts f s := mk_state (balancer s) (queue s) (f (contexts s)).

Definition put_context r c s := over_contexts (insert r c) s.

Abbreviation PM := (M State Empty_set).

Definition on_balancer {A} (op : M LoadBalancerState Empty_set A) : PM A := zoom balancer set_balancer op.

Definition on_queue {A} (op : M RequestQueue.Queue Empty_set A) : PM A := zoom queue set_queue op.

(** The answer of [request_filter]: the status of an error, or none. *)
Inductive Verdict : Type := NoSocketAddress | TooManyRequests | QueueFull | Pass.

Definition request_filter (has_client_addr : bool) (curr_window_requests : Z) (queue_len : N) (lb : LoadBalancerState) : Verdict :=
  if negb has_client_addr then NoSocketAddress else
  if (max_req_per_sec lb <? curr_window_requests)%Z then TooManyRequests else
  if (max_queue_items lb <=? queue_len)%N then QueueFull else Pass.

(** One turn of the loop of [upstream_peer]. *)
Definition upstream_peer_loop (r : Uuid) c : PM unit :=
  front ← on_queue RequestQueue.peek;
  front ← expect_some front "Queue should not be empty";
  if decide (front ≠ r) then mret tt else
  picked ← on_balancer pop_available_worker;
  match picked with
  | Some w => modify (put_context r (set_phase Picked (set_worker w c)))
  | None => mret tt
  end.

(** The end of [upstream_peer]. *)
Definition upstream_peer_end (r : Uuid) c : PM unit :=
  _ ← on_queue RequestQueue.dequeue;
  _ ← expect_some (worker c) "Failed to get worker";
  modify (put_context r (set_phase Connecting c)).

(** [fail_to_connect]: whether to try again. *)
Definition fail_to_connect (lb : LoadBalancerState) c : RequestContext * bool :=
  if (max_retries_per_request lb <? tries c)%N then (c, false)
  else (mk_context (tries c + 1) (worker c) (phase c), true).

(** [logging], the last method of a request's life. *)
Definition logging (r : Uuid) c : PM unit :=
  _ ← match worker c with
      | Some w => on_balancer (add_available_worker w)
      | None => mret tt
      end;
  modify (over_contexts (delete r)).

Inductive Event : Type :=
| NewRequest (r : Uuid)
| RequestFilter (r : Uuid) (has_client_addr : bool) (curr_window_requests : Z)
| UpstreamPeer (r : Uuid)
| UpstreamPeerLoop (r : Uuid)
| UpstreamPeerEnd (r : Uuid)
| FailToConnect (r : Uuid)
| Logging (r : Uuid)
| HealthCheck (probes : Backend → Probe) (now : Backend → Nanos)
| UpdateWorkers (probes : string → Probe) (now : Nanos) (action : Action) (addrs : list string).

(** The request [r] in a phase that [op] continues. *)
Definition at_phase (ps : list Phase) (r : Uuid) (op : RequestContext → PM unit) s : option (State * res Empty_set unit) :=
  match contexts s !! r with
  | Some c => if decide (phase c ∈ ps) then Some (op c s) else None
  | None => None
  end.

(** An event, and [None] when it cannot happen. The order of the methods of a request
    is that of the proxy library, as the source documents it: a request that fails
    to connect and may be retried calls [upstream_peer] again, and [logging] comes
    last. *)
Definition exec (ev : Event) s : option (State * res Empty_set unit) :=
  match ev with
  | NewRequest r =>
    match contexts s !! r with
    | None => Some (modify (put_context r new_ctx) s)
    | Some _ => None
    end
  | RequestFilter r has_client_addr window =>
    at_phase [Fresh] r (λ c,
      let p := match request_filter has_client_addr window (N.of_nat (RequestQueue.len (queue s))) (balancer s) with
               | Pass => Accepted
               | _ => Done
               end in
      modify (put_context r (set_phase p c))) s
  | UpstreamPeer r =>
    at_phase [Accepted] r (λ c, _ ← on_queue (RequestQueue.enqueue r); modify (put_context r (set_phase Waiting c))) s
  | UpstreamPeerLoop r => at_phase [Waiting] r (upstream_peer_loop r) s
  | UpstreamPeerEnd r => at_phase [Picked] r (upstream_peer_end r) s
  | FailToConnect r =>
    at_phase [Connecting] r (λ c,
      let '(c, retry) := fail_to_connect (balancer s) c in
      modify (put_context r (set_phase (if retry then Accepted else Done) c))) s
  | Logging r => at_phase [Connecting; Done] r (logging r) s
  | HealthCheck probes now => Some (on_balancer (health_check probes now) s)
  | UpdateWorkers probes now action addrs =>
    match update_workers probes now action addrs (balancer s) with
    | (lb, Ok _) | (lb, Err _) => Some (set_balancer lb s, Ok tt)
    | (lb, Panic msg) => Some (set_balancer lb s, Panic msg)
    | (lb, OutOfFuel) => Some (set_balancer lb s, OutOfFuel)
    end
  end.

Definition start lb : State := mk_state lb [] ∅.

(** The states of runs whose events satisfy a condition. *)
Inductive serves (allowed : State → Event → Prop) : State → Prop :=
| serves_start lb : NoDup (backend <$> workers lb) →
    Forall (λ w, is_available w = true → is_healthy w = true) (workers lb) → serves allowed (start lb)
| serves_exec s ev s' : serves allowed s → allowed s ev → exec ev s = Some (s', Ok tt) → serves allowed s'.

(** The worker [w] belongs to some request. *)
Definition held s (b : Backend) : Prop :=
  ∃ r c w, contexts s !! r = Some c ∧ worker c = Some w ∧ backend w = b.

(** A worker that serves a request passes its health check and is not removed. *)
Definition careful s (ev : Event) : Prop :=
  match ev with
  | HealthCheck probes now => ∀ w, w ∈ workers (balancer s) → held s (backend w) →
      (check_status (probes (backend w)) (now (backend w)) (supported_proof_type (balancer s)) w).2 = Ok tt
  | UpdateWorkers probes now Remove addrs => ∀ addr b, addr ∈ addrs → backend_new addr = Some b → ¬ held s b
  | _ => True
  end.

End defs.

End Proxy.
