(* ===== verification/ProxyTheorems.v ===== *)
(** * Correctness of the prover proxy

    The queue holds exactly the requests that wait for a worker, so that no method
    panics; and as long as a worker that serves a request stays healthy and is not
    removed, no two requests share a worker. *)

From S2P Require Import Prelude.
From S2P Require Import Proxy.
Import Worker LoadBalancer Proxy.

Section proxy.
Context `{!ProxyObjects}.
Implicit Types (w e : Worker) (lb : LoadBalancerState) (s : State) (r : Uuid) (c : RequestContext).

(** ** Lists *)

Lemma position_Some {A} (f : A → bool) (l : list A) i :
  position f l = Some i → ∃ x, l !! i = Some x ∧ f x = true.
Proof.
  revert i. induction l as [|x l IH]; intros i Hp; cbn in Hp; [done|].
  destruct (f x) eqn:Hf; [injection Hp as <-; by exists x|].
  apply fmap_Some in Hp as (j & Hj & ->). by apply IH.
Qed.

Lemma position_None {A} (f : A → bool) (l : list A) x : position f l = None → x ∈ l → f x = false.
Proof.
  induction l as [|y l IH]; intros Hp Hin; [by apply elem_of_nil in Hin|]. cbn in Hp.
  destruct (f y) eqn:Hf; [done|]. apply fmap_None in Hp. apply elem_of_cons in Hin as [->|?]; auto.
Qed.

(** Elements with different keys, by key. *)
Lemma NoDup_key {A B} (f : A → B) (l : list A) x y : NoDup (f <$> l) → x ∈ l → y ∈ l → f x = f y → x = y.
Proof.
  intros Hn Hx Hy Hf. apply list_elem_of_lookup in Hx as [i Hi], Hy as [j Hj].
  assert (i = j) as ->; [|congruence].
  eapply (NoDup_lookup _ i j (f x)); [done|by rewrite list_lookup_fmap, Hi|by rewrite list_lookup_fmap, Hj, Hf].
Qed.

Lemma insert_same_key {A B} (f : A → B) (l : list A) i x y :
  l !! i = Some x → f y = f x → f <$> <[i := y]> l = f <$> l.
Proof. intros Hi Hf. rewrite list_fmap_insert, Hf. apply list_insert_id. by rewrite list_lookup_fmap, Hi. Qed.

(** ** Checks of a worker *)

(** What a check changes: the client and the version. *)
Definition same_health w w' : Prop :=
  backend w' = backend w ∧ is_available w' = is_available w ∧ health_status w' = health_status w.

Lemma wp_check_response supported response w w0 :
  same_health w w0 →
  wp (check_response supported response) w0 (λ w' _, same_health w w') (λ w' _, same_health w w').
Proof.
  intros Hs. unfold check_response. case_decide; wp_steps; [done|]. destruct (default _ _); wp_steps; [|done].
  destruct (proof_type_try_from _); wp_steps; [|done]. case_decide; by wp_steps.
Qed.

Lemma wp_check_status probe now supported w :
  wp (check_status probe now supported) w (λ w' _, same_health w w') (λ w' _, same_health w w').
Proof.
  unfold check_status, recreate_status_client. wp_steps.
  destruct (should_do_health_check now w); wp_steps; [|done].
  destruct (status_client w) as [client|] eqn:Hc; wp_steps.
  - apply (wp_expect_some _ client); [done|]. destruct (status probe client); [by wp_steps|by apply wp_check_response].
  - destruct (create_status_client probe) as [err|client]; wp_steps; [done|].
    apply (wp_expect_some _ client); [done|]. destruct (status probe client); [by wp_steps|by apply wp_check_response].
Qed.

(** A turn of the health check: an available worker is healthy afterwards, and a
    healthy worker that passes keeps its availability. *)
Record checked (passes : Prop) w w' : Prop := {
  ck_backend : backend w' = backend w;
  ck_available : (is_available w = true → is_healthy w = true) → is_available w' = true → is_healthy w' = true;
  ck_passes : passes → is_healthy w = true → is_available w' = is_available w ∧ is_healthy w' = true;
}.

Lemma pwp_update_status {E} now result w :
  pwp (update_status now result : M Worker E unit) w (λ w' _, checked (result = inr tt) w w').
Proof.
  unfold update_status. pwp_steps. destruct result as [reason|[]].
  - unfold usize_add. destruct (_ <? _)%N; pwp_steps; [by split|done].
  - pwp_steps. unfold set_health_status. destruct (is_healthy w) eqn:Hh; split; cbn; auto; congruence.
Qed.

Lemma checked_same passes w w1 w2 : same_health w w1 → checked passes w1 w2 → checked passes w w2.
Proof.
  intros (Hb & Hav & Hh) [C1 C2 C3].
  assert (is_healthy w1 = is_healthy w) as Hhh by (unfold is_healthy; by rewrite Hh).
  rewrite Hav, Hhh in *. split; [congruence|done..].
Qed.

Lemma checked_weaken (passes passes' : Prop) w w' : (passes' → passes) → checked passes w w' → checked passes' w w'.
Proof. intros Hp [C1 C2 C3]. split; auto. Qed.

Lemma pwp_check_and_update {E} probe now supported w :
  pwp (check_and_update probe now supported : M Worker E unit) w (λ w' _,
    checked ((check_status probe now supported w).2 = Ok tt) w w').
Proof.
  unfold pwp, check_and_update. pose proof (wp_check_status probe now supported w) as Hc. rewrite wp_unfold in Hc.
  destruct (check_status probe now supported w) as [w1 [[]|reason|msg|]]; try done; cbn.
  - pose proof (pwp_update_status (E := E) now (inr tt) w1) as Hu. unfold pwp in Hu.
    destruct (update_status now (inr tt) w1) as [w2 [[]| | |]]; try done.
    eapply checked_weaken, checked_same; [|done..]. done.
  - pose proof (pwp_update_status (E := E) now (inl reason) w1) as Hu. unfold pwp in Hu.
    destruct (update_status now (inl reason) w1) as [w2 [[]| | |]]; try done.
    eapply checked_weaken, checked_same; [|done..]. done.
Qed.

(** It returns, unless the counter of failures overflows. *)
Lemma check_and_update_returns {E} probe now supported w :
  (num_failures w + 1 < 2 ^ 64)%N → ∃ w', (check_and_update probe now supported : M Worker E unit) w = (w', Ok tt).
Proof.
  intros Hn. unfold check_and_update. pose proof (wp_check_status probe now supported w) as Hc. rewrite wp_unfold in Hc.
  destruct (check_status probe now supported w) as [w1 [[]|reason|msg|]]; try done; [by eexists|].
  destruct Hc as (_ & _ & Hh). unfold update_status, usize_add, mbind, M_bind. cbn.
  assert (num_failures w1 = num_failures w) as -> by (unfold num_failures; by rewrite Hh).
  rewrite (proj2 (N.ltb_lt _ _) Hn). by eexists.
Qed.

(** ** The list of workers *)

Lemma pwp_health_check {E} probes now lb :
  pwp (health_check probes now : M _ E unit) lb (λ lb' _, ∃ l, lb' = set_workers l lb ∧
    Forall2 (λ w w', checked
      ((check_status (probes (backend w)) (now (backend w)) (supported_proof_type lb) w).2 = Ok tt) w w') (workers lb) l).
Proof.
  unfold health_check. pwp_steps.
  apply (pwp_fold_m (λ pre lb' l, lb' = lb ∧ Forall2 (λ w w', checked
      ((check_status (probes (backend w)) (now (backend w)) (supported_proof_type lb) w).2 = Ok tt) w w') pre l)).
  - by split.
  - intros pre w rest lb' l _ [-> HF]. unfold pwp, zoom, mbind, M_bind, get, mret, M_ret.
    pose proof (pwp_check_and_update (E := E) (probes (backend w)) (now (backend w)) (supported_proof_type lb) w) as Hc.
    unfold pwp in Hc. destruct (check_and_update _ _ _ w) as [w' [[]| | |]]; try done.
    split; [done|]. apply Forall2_app; [done|]. by constructor.
  - intros lb' l [-> HF]. pwp_steps. by exists l.
Qed.

Lemma health_check_returns {E} probes now lb :
  Forall (λ w, num_failures w + 1 < 2 ^ 64)%N (workers lb) →
  ∃ lb', (health_check probes now : M _ E unit) lb = (lb', Ok tt).
Proof.
  intros Hn. assert (wp_ok (health_check probes now : M _ E unit) lb (λ _ _, True)) as Hw.
  { unfold health_check. wp_steps. apply (wp_fold_m_ok (λ _ lb' _, lb' = lb)); [done| |by intros; wp_steps].
    intros pre w rest lb' l Hl ->. wp_steps.
    destruct (check_and_update_returns (E := E) (probes (backend w)) (now (backend w)) (supported_proof_type lb) w) as [w' Hw].
    { rewrite Hl, Forall_app, Forall_cons in Hn. tauto. }
    rewrite wp_unfold, Hw. by wp_steps. }
  apply wp_ok_run in Hw as (lb' & [] & Hr & _). by exists lb'.
Qed.

Lemma pop_available_spec {E} lb :
  (pop_available_worker : M _ E _) lb =
  match position is_available (workers lb) with
  | Some i =>
    match workers lb !! i with
    | Some e => (set_workers (<[i := set_availability false e]> (workers lb)) lb, Ok (Some (set_availability false e)))
    | None => (lb, Panic "index out of bounds")
    end
  | None => (lb, Ok None)
  end.
Proof.
  unfold pop_available_worker, mbind, M_bind, get. destruct (position _ _) as [i|]; [|done].
  by destruct (workers lb !! i).
Qed.

Lemma add_available_spec {E} lb w :
  (add_available_worker w : M _ E _) lb =
  match position (λ e, same_worker e w) (workers lb) with
  | Some i =>
    match workers lb !! i with
    | Some e => (set_workers (delete i (workers lb) ++ [set_availability true e]) lb, Ok tt)
    | None => (lb, Panic "removal index should be < len")
    end
  | None => (lb, Ok tt)
  end.
Proof.
  unfold add_available_worker, mbind, M_bind, get. destruct (position _ _) as [i|]; [|done].
  by destruct (workers lb !! i).
Qed.

(** [update_workers] on a single worker. *)
Definition update_one (action : Action) (l : list Worker) w : list Worker :=
  match action with
  | Add => if existsb (λ e, same_worker e w) l then l else l ++ [w]
  | Remove => filter (λ e, same_worker e w = false) l
  end.

Lemma set_workers_twice l l' lb : set_workers l (set_workers l' lb) = set_workers l lb.
Proof. done. Qed.

Lemma set_workers_same lb : set_workers (workers lb) lb = lb.
Proof. by destruct lb. Qed.

Lemma wp_update_workers probes now action addrs lb :
  wp (update_workers probes now action addrs) lb
    (λ lb' _, ∃ native, lb' = set_workers (foldl (update_one action) (workers lb) native) lb ∧
      Forall (λ w, ∃ addr, addr ∈ addrs ∧ Worker.new (probes addr) now addr = Some w) native)
    (λ lb' _, lb' = lb).
Proof.
  unfold update_workers. wp_steps.
  eapply wp_mono; [apply (wp_fold_m (λ pre lb' native, lb' = lb ∧
    Forall (λ w, ∃ addr, addr ∈ pre ∧ Worker.new (probes addr) now addr = Some w) native))| |intros ?? Hx; exact Hx].
  - split; [done|constructor].
  - intros pre addr rest lb' native _ [-> HF].
    destruct (Worker.new (probes addr) now addr) as [w|] eqn:Hn; wp_steps; [|done]. split; [done|].
    apply Forall_app. split; [|constructor; [|done]; exists addr; set_solver].
    eapply Forall_impl; [exact HF|]. intros e (a & Ha & Hw). exists a. set_solver.
  - cbn beta. intros lb' native [-> HF]. rewrite wp_for_each_modify. exists native. split; [|done]. clear HF.
    revert lb. induction native as [|w native IH]; intros lb; cbn; [by rewrite set_workers_same|].
    rewrite IH. destruct action; cbn; [by destruct (existsb _ _)|done].
Qed.

(** ** The queue *)

Definition waits c : Prop := phase c = Waiting ∨ phase c = Picked.

Record qinv s : Prop := {
  q_nodup : NoDup (queue s);
  q_waiting : ∀ r, r ∈ queue s ↔ ∃ c, contexts s !! r = Some c ∧ waits c;
  q_picked : ∀ r c, contexts s !! r = Some c → phase c = Picked → head (queue s) = Some r ∧ is_Some (worker c);
}.

Lemma qinv_balancer s lb : qinv s → qinv (set_balancer lb s).
Proof. by intros [Q1 Q2 Q3]. Qed.

Lemma qinv_put s r c :
  (r ∈ queue s ↔ waits c) → (phase c = Picked → head (queue s) = Some r ∧ is_Some (worker c)) →
  qinv s → qinv (put_context r c s).
Proof.
  intros Hw Hp [Q1 Q2 Q3]. split; cbn; [done| |].
  - intros r'. destruct (decide (r = r')) as [<-|Hne].
    + rewrite lookup_insert_eq, Hw. naive_solver.
    + by rewrite lookup_insert_ne.
  - intros r' c' [[<- <-]|[_ Hc]]%lookup_insert_Some; eauto.
Qed.

Lemma qinv_out s r c : qinv s → contexts s !! r = Some c → ¬ waits c → r ∉ queue s.
Proof. intros Hq Hc Hn (c' & Hc' & Hw)%(q_waiting _ Hq). congruence. Qed.

Lemma at_phase_Some ps r op s res :
  at_phase ps r op s = Some res → ∃ c, contexts s !! r = Some c ∧ phase c ∈ ps ∧ res = op c s.
Proof.
  unfold at_phase. destruct (contexts s !! r) as [c|]; [|done]. case_decide; [|done]. intros [= <-]. eauto.
Qed.

(** What the queue's methods need of an event: the counter of failures does not
    overflow. *)
Definition small s (ev : Event) : Prop :=
  match ev with HealthCheck _ _ => Forall (λ w, num_failures w + 1 < 2 ^ 64)%N (workers (balancer s)) | _ => True end.

Lemma loop_returns s r c :
  qinv s → contexts s !! r = Some c → phase c = Waiting → ∃ s', upstream_peer_loop r c s = (s', Ok tt) ∧ qinv s'.
Proof.
  intros Hq Hc Hp. assert (r ∈ queue s) as Hin.
  { apply (q_waiting _ Hq). exists c. split; [done|by left]. }
  enough (wp_ok (upstream_peer_loop r c) s (λ s' _, qinv s')) as Hwp.
  { apply wp_ok_run in Hwp as (s' & [] & Hr & Hq'). by exists s'. }
  unfold upstream_peer_loop, on_queue, RequestQueue.peek. wp_steps.
  destruct (queue s) as [|front q] eqn:Hqs; [by apply elem_of_nil in Hin|].
  apply (wp_expect_some _ front); [done|]. assert (set_queue (front :: q) s = s) as -> by (destruct s; by rewrite <- Hqs).
  destruct (decide (front ≠ r)) as [Hfr|Hfr]; wp_steps; [done|].
  assert (front = r) as -> by (destruct (decide (front = r)); [done|by destruct Hfr]).
  unfold on_balancer. wp_steps. rewrite wp_unfold, pop_available_spec.
  destruct (position _ _) as [i|] eqn:Hpos; [|wp_steps; by apply qinv_balancer].
  apply position_Some in Hpos as (e & He & _). rewrite He. wp_steps. apply qinv_put; cbn; [| |by apply qinv_balancer].
  - rewrite Hqs. split; [by right|by left].
  - rewrite Hqs. eauto.
Qed.

Lemma head_cons_inv {A} (l : list A) x : head l = Some x → ∃ l', l = x :: l'.
Proof. destruct l as [|y l]; [done|]. intros [= ->]. eauto. Qed.

Lemma end_returns s r c :
  qinv s → contexts s !! r = Some c → phase c = Picked → ∃ s', upstream_peer_end r c s = (s', Ok tt) ∧ qinv s'.
Proof.
  intros Hq Hc Hp. destruct (q_picked _ Hq _ _ Hc Hp) as [(q & Hqs)%head_cons_inv [w Hw]].
  pose proof Hq as [Q1 Q2 Q3]. rewrite Hqs in Q1. apply NoDup_cons in Q1 as [Hni Hnd].
  enough (wp_ok (upstream_peer_end r c) s (λ s' _, qinv s')) as Hwp.
  { apply wp_ok_run in Hwp as (s' & [] & Hr & Hq'). by exists s'. }
  unfold upstream_peer_end, on_queue, RequestQueue.dequeue. wp_steps. rewrite Hqs. wp_steps.
  apply (wp_expect_some _ w); [done|]. wp_steps. split; cbn; [done| |].
  - intros r'. rewrite Hqs in Q2. destruct (decide (r = r')) as [<-|Hne].
    + rewrite lookup_insert_eq. split; [done|]. by intros (? & [= <-] & [?|?]).
    + rewrite lookup_insert_ne by done. rewrite <- (Q2 r'). set_solver.
  - intros r' c' [[<- <-]|[Hne Hc']]%lookup_insert_Some; [done|]. intros Hp'.
    destruct (Q3 _ _ Hc' Hp') as [Hh _]. rewrite Hqs in Hh. cbn in Hh. congruence.
Qed.

Lemma logging_returns s r c :
  qinv s → contexts s !! r = Some c → ¬ waits c → ∃ s', logging r c s = (s', Ok tt) ∧ qinv s'.
Proof.
  intros Hq Hc Hn. pose proof (qinv_out _ _ _ Hq Hc Hn) as Hout.
  enough (wp_ok (logging r c) s (λ s' _, qinv s')) as Hwp.
  { apply wp_ok_run in Hwp as (s' & [] & Hr & Hq'). by exists s'. }
  assert (∀ s0, qinv s0 → r ∉ queue s0 → qinv (over_contexts (delete r) s0)) as Hdel.
  { intros s0 [Q1 Q2 Q3] Hni. split; cbn; [done| |].
    - intros r'. destruct (decide (r = r')) as [<-|Hne].
      + rewrite lookup_delete_eq. naive_solver.
      + by rewrite lookup_delete_ne.
    - intros r' c' [_ Hc']%lookup_delete_Some. by apply Q3. }
  unfold logging, on_balancer. wp_steps. destruct (worker c) as [w|]; wp_steps; [|by apply Hdel].
  rewrite wp_unfold, add_available_spec. destruct (position _ _) as [i|] eqn:Hpos.
  - apply position_Some in Hpos as (e & He & _). rewrite He. wp_steps. apply Hdel; [by apply qinv_balancer|done].
  - wp_steps. apply Hdel; [by apply qinv_balancer|done].
Qed.

Lemma exec_queue s ev s' x : qinv s → small s ev → exec ev s = Some (s', x) → x = Ok tt ∧ qinv s'.
Proof.
  intros Hq Hsm He. destruct ev as [r|r a win|r|r|r|r|r|probes now|probes now action addrs]; cbn in He.
  - destruct (contexts s !! r) as [c|] eqn:Hc; [done|]. injection He as <- <-. split; [done|].
    apply qinv_put; cbn; [|done|done]. rewrite (q_waiting _ Hq r), Hc. unfold waits. cbn. naive_solver.
  - apply at_phase_Some in He as (c & Hc & Hp & [= -> ->]). split; [done|].
    apply list_elem_of_singleton in Hp.
    pose proof (qinv_out _ _ _ Hq Hc ltac:(intros [?|?]; congruence)) as Hout.
    apply qinv_put; [|by destruct (request_filter _ _ _ _)|done].
    split; [done|]. intros [?|?]; by destruct (request_filter _ _ _ _).
  - apply at_phase_Some in He as (c & Hc & Hp & [= -> ->]). split; [done|].
    apply list_elem_of_singleton in Hp.
    pose proof (qinv_out _ _ _ Hq Hc ltac:(intros [?|?]; congruence)) as Hout.
    destruct Hq as [Q1 Q2 Q3]. split; cbn.
    + apply NoDup_app. split_and!; [done|set_solver|apply NoDup_singleton].
    + intros r'. rewrite elem_of_app, list_elem_of_singleton, Q2. destruct (decide (r = r')) as [<-|Hne].
      * rewrite lookup_insert_eq. split; [|by right]. intros _. eexists. split; [done|by left].
      * rewrite lookup_insert_ne by done. naive_solver.
    + intros r' c' [[<- <-]|[_ Hc']]%lookup_insert_Some; [done|]. intros Hp'.
      destruct (Q3 _ _ Hc' Hp') as [(q & Hqs)%head_cons_inv Hw]. by rewrite Hqs.
  - apply at_phase_Some in He as (c & Hc & Hp%list_elem_of_singleton & Heq).
    destruct (loop_returns _ _ _ Hq Hc Hp) as (s1 & Hr & Hq'). rewrite Hr in Heq. by injection Heq as -> ->.
  - apply at_phase_Some in He as (c & Hc & Hp%list_elem_of_singleton & Heq).
    destruct (end_returns _ _ _ Hq Hc Hp) as (s1 & Hr & Hq'). rewrite Hr in Heq. by injection Heq as -> ->.
  - apply at_phase_Some in He as (c & Hc & Hp%list_elem_of_singleton & Heq).
    pose proof (qinv_out _ _ _ Hq Hc ltac:(intros [?|?]; congruence)) as Hout.
    unfold fail_to_connect in Heq. destruct (_ <? _)%N; injection Heq as -> ->; (split; [done|]);
      (apply qinv_put; [|done|done]); (split; [done|by intros [?|?]]).
  - apply at_phase_Some in He as (c & Hc & Hp & Heq).
    destruct (logging_returns s r c Hq Hc) as (s1 & Hr & Hq').
    { intros [Hw|Hw]; rewrite Hw in Hp; set_solver. }
    rewrite Hr in Heq. by injection Heq as -> ->.
  - destruct (health_check_returns (E := Empty_set) probes now _ Hsm) as (lb & Hr).
    unfold on_balancer, zoom in He. rewrite Hr in He. injection He as <- <-. split; [done|]. by apply qinv_balancer.
  - pose proof (wp_update_workers probes now action addrs (balancer s)) as Hw. rewrite wp_unfold in Hw.
    destruct (update_workers _ _ _ _ _) as [lb [u|e|msg|]]; try done; injection He as <- <-;
      (split; [done|by apply qinv_balancer]).
Qed.

Lemma qinv_start lb : qinv (start lb).
Proof.
  split; cbn; [constructor| |by intros ??; rewrite lookup_empty].
  intros r. rewrite elem_of_nil. split; [done|]. intros (c & Hc & _). by rewrite lookup_empty in Hc.
Qed.

(** C25: The proxy's queue is sound. In every state of every run, the queue holds
    each request that waits in [upstream_peer] exactly once and nothing else, only
    the first of them has been given a worker, and no method of a request panics:
    the queue a request peeks at is never empty, and its worker is there when it is
    needed. *)
Theorem proxy_queue allowed s ev s' x (Hs : serves allowed s) (Hsm : small s ev) (He : exec ev s = Some (s', x)) :
  x = Ok tt ∧ NoDup (queue s) ∧
  (∀ r, r ∈ queue s ↔ ∃ c, contexts s !! r = Some c ∧ (phase c = Waiting ∨ phase c = Picked)) ∧
  (∀ r c, contexts s !! r = Some c → phase c = Picked → head (queue s) = Some r ∧ is_Some (worker c)).
Proof.
  assert (qinv s) as Hq.
  { clear Hsm He. induction Hs as [lb _ _|s0 ev0 s1 _ IH _ He]; [apply qinv_start|].
    destruct ev0 as [| | | | | | |probes now|]; try by eapply exec_queue, He.
    cbn in He. unfold on_balancer, zoom in He. destruct (health_check _ _ _) as [lb r]. injection He as <- ->.
    by apply qinv_balancer. }
  destruct (exec_queue _ _ _ _ Hq Hsm He) as [-> _]. by destruct Hq as [Q1 Q2 Q3].
Qed.

(** ** One request per worker *)

Record xinv (l : list Worker) (ctx : gmap Uuid RequestContext) : Prop := {
  x_nodup : NoDup (backend <$> l);
  x_available : ∀ e, e ∈ l → is_available e = true → is_healthy e = true;
  x_held : ∀ r c w, ctx !! r = Some c → worker c = Some w →
    ∃ e, e ∈ l ∧ backend e = backend w ∧ is_available e = false ∧ is_healthy e = true;
  x_exclusive : ∀ r1 r2 c1 c2 w1 w2, ctx !! r1 = Some c1 → ctx !! r2 = Some c2 →
    worker c1 = Some w1 → worker c2 = Some w2 → backend w1 = backend w2 → r1 = r2;
}.

(** A context that keeps its worker. *)
Lemma xinv_context l ctx r c :
  xinv l ctx → (∀ w, worker c = Some w → ∃ c0, ctx !! r = Some c0 ∧ worker c0 = Some w) → xinv l (<[r := c]> ctx).
Proof.
  intros [X1 X2 X3 X4] Hc.
  assert (∀ r' c' w, <[r := c]> ctx !! r' = Some c' → worker c' = Some w →
    ∃ c0, ctx !! r' = Some c0 ∧ worker c0 = Some w) as Hold.
  { intros r' c' w [[<- <-]|[_ Hc']]%lookup_insert_Some Hw; eauto. }
  split; [done..| |].
  - intros r' c' w Hr Hw. destruct (Hold _ _ _ Hr Hw) as (c0 & Hc0 & Hw0). eauto.
  - intros r1 r2 c1 c2 w1 w2 Hr1 Hr2 Hw1 Hw2.
    destruct (Hold _ _ _ Hr1 Hw1) as (? & ? & ?), (Hold _ _ _ Hr2 Hw2) as (? & ? & ?). eauto.
Qed.

(** A request takes the available worker [e]. *)
Lemma xinv_pop l ctx r c i e :
  xinv l ctx → l !! i = Some e → is_available e = true → worker c = Some (set_availability false e) →
  xinv (<[i := set_availability false e]> l) (<[r := c]> ctx).
Proof.
  intros [X1 X2 X3 X4] Hi Ha Hc. pose proof (list_elem_of_lookup_2 _ _ _ Hi) as Hin.
  pose proof (lookup_lt_Some _ _ _ Hi) as Hlt.
  assert (set_availability false e ∈ <[i := set_availability false e]> l) as Hnew.
  { eapply list_elem_of_lookup_2, list_lookup_insert_eq, Hlt. }
  assert (∀ e', e' ∈ l → backend e' ≠ backend e → e' ∈ <[i := set_availability false e]> l) as Hkeep.
  { intros e' [j Hj]%list_elem_of_lookup Hne. apply list_elem_of_lookup. exists j.
    rewrite list_lookup_insert_ne; [done|]. intros ->. congruence. }
  assert (∀ r' c' w', ctx !! r' = Some c' → worker c' = Some w' → backend w' ≠ backend e) as Hfree.
  { intros r' c' w' Hr Hw Heq. destruct (X3 _ _ _ Hr Hw) as (e' & He' & Hb & Hav & _).
    assert (e' = e) as -> by (eapply (NoDup_key backend); [done..|congruence]). congruence. }
  split.
  - by rewrite (insert_same_key _ _ _ _ _ Hi).
  - intros e' He' Hav. apply list_elem_of_lookup in He' as [j Hj].
    destruct (decide (i = j)) as [<-|Hne].
    + rewrite list_lookup_insert_eq in Hj by done. injection Hj as <-. done.
    + rewrite list_lookup_insert_ne in Hj by done. eapply X2; [by eapply list_elem_of_lookup_2|done].
  - intros r' c' w' [[<- <-]|[_ Hc']]%lookup_insert_Some Hw.
    + rewrite Hc in Hw. injection Hw as <-. exists (set_availability false e). split_and!; [done..|].
      by apply (X2 e).
    + destruct (X3 _ _ _ Hc' Hw) as (e' & He' & Hb & Hav & Hh). exists e'. split_and!; try done.
      apply Hkeep; [done|]. rewrite Hb. by eapply Hfree.
  - intros r1 r2 c1 c2 w1 w2 [[<- <-]|[_ Hr1]]%lookup_insert_Some [[<- <-]|[_ Hr2]]%lookup_insert_Some Hw1 Hw2 Hb; [done| | |eauto].
    + rewrite Hc in Hw1. injection Hw1 as <-. by destruct (Hfree _ _ _ Hr2 Hw2).
    + rewrite Hc in Hw2. injection Hw2 as <-. by destruct (Hfree _ _ _ Hr1 Hw1).
Qed.

Lemma elem_of_delete {A} (l : list A) i x y : l !! i = Some x → y ∈ l ↔ y = x ∨ y ∈ delete i l.
Proof. intros Hi. rewrite (delete_Permutation _ _ _ Hi) at 1. by rewrite elem_of_cons. Qed.

Lemma xinv_drop l ctx r : xinv l ctx → xinv l (delete r ctx).
Proof.
  intros [X1 X2 X3 X4]. split; [done..| |].
  - intros r' c' w [_ Hc]%lookup_delete_Some. eauto.
  - intros r1 r2 c1 c2 w1 w2 [_ Hr1]%lookup_delete_Some [_ Hr2]%lookup_delete_Some. eauto.
Qed.

(** The request [r] gives its worker back. *)
Lemma xinv_release l ctx r c w i e :
  xinv l ctx → ctx !! r = Some c → worker c = Some w → l !! i = Some e → backend e = backend w →
  xinv (delete i l ++ [set_availability true e]) (delete r ctx).
Proof.
  intros [X1 X2 X3 X4] Hr Hw Hi Hb. pose proof (list_elem_of_lookup_2 _ _ _ Hi) as Hin.
  assert (is_healthy e = true) as Hh.
  { destruct (X3 _ _ _ Hr Hw) as (e' & He' & Hb' & _ & Hh).
    assert (e' = e) as -> by (eapply (NoDup_key backend); [done..|congruence]). done. }
  split.
  - rewrite fmap_app. cbn. rewrite Permutation_app_comm. cbn.
    rewrite (delete_Permutation _ _ _ Hi) in X1. exact X1.
  - intros e' [He'|He']%elem_of_app; [|by apply list_elem_of_singleton in He' as ->].
    apply X2. apply (elem_of_delete _ _ _ _ Hi). by right.
  - intros r' c' w' [Hne Hc']%lookup_delete_Some Hw'. destruct (X3 _ _ _ Hc' Hw') as (e' & He' & Hb' & Hav & Hh').
    exists e'. split_and!; try done. apply elem_of_app. left.
    apply (elem_of_delete _ _ _ _ Hi) in He' as [->|He']; [|done].
    destruct Hne. eapply (X4 r r'); eauto. congruence.
  - intros r1 r2 c1 c2 w1 w2 [_ Hr1]%lookup_delete_Some [_ Hr2]%lookup_delete_Some. eauto.
Qed.

Definition holds (ctx : gmap Uuid RequestContext) (b : Backend) : Prop :=
  ∃ r c w, ctx !! r = Some c ∧ worker c = Some w ∧ backend w = b.

(** The workers are checked, and those that serve a request pass. *)
Lemma xinv_checked l l' ctx (passes : Worker → Prop) :
  xinv l ctx → Forall2 (λ w w', checked (passes w) w w') l l' →
  (∀ w, w ∈ l → holds ctx (backend w) → passes w) → xinv l' ctx.
Proof.
  intros [X1 X2 X3 X4] HF Hp. split.
  - assert (backend <$> l' = backend <$> l) as ->; [|done].
    clear -HF. induction HF as [|w w' l l' Hc _ IH]; [done|]. cbn. by rewrite IH, (ck_backend _ _ _ Hc).
  - intros e' [j Hj]%list_elem_of_lookup. destruct (Forall2_lookup_r _ _ _ _ _ HF Hj) as (e & He & Hc).
    apply (ck_available _ _ _ Hc). apply X2. by eapply list_elem_of_lookup_2.
  - intros r c w Hr Hw. destruct (X3 _ _ _ Hr Hw) as (e & He & Hb & Hav & Hh).
    pose proof He as [j Hj]%list_elem_of_lookup. destruct (Forall2_lookup_l _ _ _ _ _ HF Hj) as (e' & He' & Hc).
    assert (passes e) as Hpe. { apply Hp; [done|]. exists r, c, w. split_and!; congruence. }
    destruct (ck_passes _ _ _ Hc Hpe Hh) as [Hav' Hh']. exists e'. split_and!; [by eapply list_elem_of_lookup_2| |congruence|done].
    by rewrite (ck_backend _ _ _ Hc).
  - done.
Qed.

(** A worker is added or removed. *)
Lemma xinv_update_one action l ctx w :
  xinv l ctx → (is_available w = true → is_healthy w = true) →
  (action = Remove → ¬ holds ctx (backend w)) → xinv (update_one action l w) ctx.
Proof.
  intros [X1 X2 X3 X4] Ha Hr. destruct action; cbn.
  - destruct (existsb _ _) eqn:Hex; [done|].
    assert (backend w ∉ backend <$> l) as Hni.
    { intros (e & Hb & He)%list_elem_of_fmap. apply not_true_iff_false in Hex. apply Hex, existsb_exists.
      exists e. split; [by apply list_elem_of_In|]. by apply bool_decide_eq_true. }
    split.
    + rewrite fmap_app. apply NoDup_app. split_and!; [done|set_solver|apply NoDup_singleton].
    + intros e [He|He]%elem_of_app; [auto|apply list_elem_of_singleton in He as ->; auto].
    + intros r c w' Hc Hw. destruct (X3 _ _ _ Hc Hw) as (e & He & ?). exists e. split; [set_solver|done].
    + done.
  - split.
    + eapply sublist_NoDup; [exact X1|]. apply fmap_sublist, sublist_filter.
    + intros e [_ He]%list_elem_of_filter. by apply X2.
    + intros r c w' Hc Hw. destruct (X3 _ _ _ Hc Hw) as (e & He & Hb & ?). exists e. split; [|done].
      apply list_elem_of_filter. split; [|done]. apply bool_decide_eq_false. intros Heq.
      apply (Hr eq_refl). exists r, c, w'. split_and!; congruence.
    + done.
Qed.

Lemma new_available probe now addr w : Worker.new probe now addr = Some w → is_available w = true → is_healthy w = true.
Proof.
  unfold Worker.new. destruct (backend_new addr); [|done]. cbn.
  by destruct (create_status_client probe); intros [= <-].
Qed.

Lemma new_backend probe now addr w : Worker.new probe now addr = Some w → backend_new addr = Some (backend w).
Proof.
  unfold Worker.new. destruct (backend_new addr); [|done]. cbn.
  by destruct (create_status_client probe); intros [= <-].
Qed.

Lemma exec_exclusive s ev s' :
  xinv (workers (balancer s)) (contexts s) → careful s ev → exec ev s = Some (s', Ok tt) →
  xinv (workers (balancer s')) (contexts s').
Proof.
  intros Hx Hca He. destruct ev as [r|r a win|r|r|r|r|r|probes now|probes now action addrs]; cbn in He.
  - destruct (contexts s !! r) as [c|] eqn:Hc; [done|]. injection He as <-. by apply xinv_context.
  - apply at_phase_Some in He as (c & Hc & _ & [= ->]). apply xinv_context; eauto.
  - apply at_phase_Some in He as (c & Hc & _ & [= ->]). apply xinv_context; eauto.
  - apply at_phase_Some in He as (c & Hc & _ & Heq).
    unfold upstream_peer_loop, on_queue, on_balancer, RequestQueue.peek, zoom, gets, mbind, M_bind, expect_some, mret, M_ret, panic in Heq.
    assert (set_queue (queue s) s = s) as Hsame by by destruct s. cbn in Heq. rewrite Hsame in Heq.
    destruct (head (queue s)) as [front|]; [|done]. case_decide; [by injection Heq as ->|].
    rewrite pop_available_spec in Heq. destruct (position _ _) as [i|] eqn:Hpos; [|by injection Heq as ->].
    apply position_Some in Hpos as (e & Hi & Ha). rewrite Hi in Heq. injection Heq as ->.
    cbn. by apply xinv_pop.
  - apply at_phase_Some in He as (c & Hc & _ & Heq).
    unfold upstream_peer_end, on_queue, RequestQueue.dequeue, zoom, get, mbind, M_bind, expect_some, mret, M_ret, panic in Heq.
    cbn in Heq. destruct (queue s); cbn in Heq; (destruct (worker c) as [w|] eqn:Hw; [|done]); injection Heq as ->;
      apply xinv_context; eauto.
  - apply at_phase_Some in He as (c & Hc & _ & Heq). unfold fail_to_connect in Heq.
    destruct (_ <? _)%N; injection Heq as ->; apply xinv_context; eauto.
  - apply at_phase_Some in He as (c & Hc & _ & Heq).
    unfold logging, on_balancer, zoom, mbind, M_bind, modify, mret, M_ret in Heq.
    destruct (worker c) as [w|] eqn:Hw; [|injection Heq as ->; by apply xinv_drop].
    rewrite add_available_spec in Heq. destruct (position _ _) as [i|] eqn:Hpos.
    + apply position_Some in Hpos as (e & Hi & Hs). rewrite Hi in Heq. injection Heq as ->.
      apply bool_decide_eq_true in Hs. by eapply xinv_release.
    + injection Heq as ->. by apply xinv_drop.
  - unfold on_balancer, zoom in He. pose proof (pwp_health_check (E := Empty_set) probes now (balancer s)) as Hp.
    unfold pwp in Hp. destruct (health_check _ _ _) as [lb [[]| | |]]; try done. injection He as <-.
    destruct Hp as (l & -> & HF). cbn. eapply xinv_checked; [done|exact HF|]. cbn. intros w Hin Hh. by apply Hca.
  - pose proof (wp_update_workers probes now action addrs (balancer s)) as Hw. rewrite wp_unfold in Hw.
    destruct (update_workers _ _ _ _ _) as [lb [u|e|msg|]]; try done; injection He as <-; [|by subst lb].
    destruct Hw as (native & -> & HF). cbn. clear u.
    assert (∀ w, w ∈ native → (is_available w = true → is_healthy w = true) ∧
      (action = Remove → ¬ holds (contexts s) (backend w))) as Hn.
    { intros w Hin. pose proof (proj1 (Forall_forall _ _) HF _ Hin) as (addr & Haddr & Hnew). split.
      - by eapply new_available.
      - intros ->. apply (Hca addr); [done|]. by eapply new_backend. }
    clear HF. revert Hn Hx. generalize (workers (balancer s)). induction native as [|w native IH]; intros l Hn Hx; [done|].
    cbn. destruct (Hn w) as [Ha Hr]; [by left|]. apply IH; [intros w' Hin; apply Hn; by right|]. by apply xinv_update_one.
Qed.

(** C26: A worker serves one request at a time. In every run in which a worker that
    serves a request passes its health checks and is not removed, two requests never
    share a worker, and a worker that serves a request is in the list and marked
    unavailable, so that it is not picked again before it is given back. *)
Theorem proxy_exclusive s (Hs : serves careful s) :
  (∀ r1 r2 c1 c2 w1 w2, contexts s !! r1 = Some c1 → contexts s !! r2 = Some c2 →
    worker c1 = Some w1 → worker c2 = Some w2 → backend w1 = backend w2 → r1 = r2) ∧
  ∀ r c w, contexts s !! r = Some c → worker c = Some w →
    ∃ e, e ∈ workers (balancer s) ∧ backend e = backend w ∧ is_available e = false.
Proof.
  assert (xinv (workers (balancer s)) (contexts s)) as [X1 X2 X3 X4].
  { induction Hs as [lb Hn Ha|s0 ev s1 _ IH Hca He]; [|by eapply exec_exclusive].
    split; cbn; [done| |intros r c w; by rewrite lookup_empty|intros r1 r2 c1 c2 w1 w2; by rewrite lookup_empty].
    intros e Hin. exact (proj1 (Forall_forall _ _) Ha e Hin). }
  split; [done|]. intros r c w Hr Hw. destruct (X3 _ _ _ Hr Hw) as (e & ? & ? & ? & _). eauto.
Qed.

(** The back-off is never observed. While a worker is in its back-off period the
    health check does not ask it anything, and reports it as healthy: the worker
    becomes available again, whatever it would have answered, and its failures are
    forgotten. *)
Theorem worker_backoff_heals probe now supported w attempts first reason
    (Hw : health_status w = Unhealthy attempts first reason) (Hb : (now - first ≤ backoff attempts)%N) :
  (check_and_update probe now supported : M Worker Empty_set unit) w =
  (set_availability true (put_health_status Healthy w), Ok tt).
Proof.
  assert (should_do_health_check now w = false) as Hno.
  { unfold should_do_health_check. rewrite Hw. by apply N.ltb_ge. }
  unfold check_and_update, check_status, mbind, M_bind, get. rewrite Hno. cbn.
  unfold update_status, set_health_status, is_healthy, mbind, M_bind, get, modify. by rewrite Hw.
Qed.

(** ** The services for operators *)

Lemma fold_new probes now addrs acc lb :
  fold_m (λ (acc : list Worker) addr,
    match Worker.new (probes addr) now addr with Some w => mret (acc ++ [w]) | None => throw tt end) acc addrs lb =
  match mapM (λ addr, Worker.new (probes addr) now addr) addrs with
  | Some native => (lb, Ok (acc ++ native))
  | None => (lb, Err tt)
  end.
Proof.
  revert acc. induction addrs as [|addr addrs IH]; intros acc; cbn; [by rewrite app_nil_r|].
  unfold mbind, M_bind. destruct (Worker.new (probes addr) now addr) as [w|]; cbn; [|done].
  unfold mret, M_ret. rewrite IH. destruct (mapM _ addrs); cbn; [by rewrite <- app_assoc|done].
Qed.

Lemma for_each_update_one action native lb :
  for_each native (λ worker, modify (λ lb,
    match action with
    | Add => if existsb (λ w, same_worker w worker) (workers lb) then lb else set_workers (workers lb ++ [worker]) lb
    | Remove => set_workers (filter (λ w, same_worker w worker = false) (workers lb)) lb
    end)) lb = (set_workers (foldl (update_one action) (workers lb) native) lb, Ok tt : res unit unit).
Proof.
  revert lb. induction native as [|w native IH]; intros lb; cbn; [by rewrite set_workers_same|].
  unfold mbind, M_bind, modify. rewrite IH. by destruct action; cbn; [destruct (existsb _ _)|].
Qed.

(** An update acts on the workers that are named, or, with a bad address among them,
    not at all. *)
Lemma update_workers_run probes now action addrs lb :
  (update_workers probes now action addrs : M _ unit unit) lb =
  match mapM (λ addr, Worker.new (probes addr) now addr) addrs with
  | Some native => (set_workers (foldl (update_one action) (workers lb) native) lb, Ok tt)
  | None => (lb, Err tt)
  end.
Proof.
  unfold update_workers, mbind at 1, M_bind at 1. rewrite fold_new. destruct (mapM _ addrs) as [native|]; [|done].
  apply for_each_update_one.
Qed.

(** The addresses that are registered. *)
Definition registered (l : list Worker) (b : Backend) : Prop := b ∈ backend <$> l.

Lemma registered_update action l native b :
  registered (foldl (update_one action) l native) b ↔
  match action with
  | Add => registered l b ∨ registered native b
  | Remove => registered l b ∧ ¬ registered native b
  end.
Proof.
  unfold registered. revert l. induction native as [|w native IH]; intros l; cbn [foldl fmap list_fmap].
  { destruct action; set_solver. }
  rewrite IH. destruct action; cbn [update_one].
  - destruct (existsb (λ e, same_worker e w) l) eqn:He; [|rewrite fmap_app; set_solver].
    apply existsb_exists in He as (e & Hin & Heq%bool_decide_eq_true). apply list_elem_of_In in Hin.
    assert (backend w ∈ backend <$> l) by (rewrite <- Heq; by apply list_elem_of_fmap_2). set_solver.
  - assert (b ∈ backend <$> filter (λ e, same_worker e w = false) l ↔ b ∈ backend <$> l ∧ b ≠ backend w) as ->; [|set_solver].
    rewrite !list_elem_of_fmap. setoid_rewrite list_elem_of_filter. unfold same_worker.
    setoid_rewrite bool_decide_eq_false. naive_solver.
Qed.

(** What an operator learns. If the command reports a number of workers, its update
    was applied: after an addition the workers are those from before and those that
    are named, after a removal those from before that are not named; and the number is
    that of the workers when they were counted. If the service reports an error, the
    workers are as before. *)
Theorem operator_update {E} print parse probes now between (u : Control.UpdateWorkers) lb
    (Hqs : ∀ q, print u = Some q → parse q = Some u) :
  let named b := ∃ addr, addr ∈ Control.addresses u ∧ backend_new addr = Some b in
  let send query lb := match (Control.process_new_http parse probes now between (inr true) query : M _ E _) lb with
    | (lb', Ok r) => (lb', Ok (Some r)) | (lb', _) => (lb', Ok None) end in
  match Control.execute print send u lb with
  | (lb', Ok n) => ∃ updated, lb' = between updated ∧ n = num_workers lb' ∧
      ∀ b, registered (workers updated) b ↔
        match Control.action u with
        | Add => registered (workers lb) b ∨ named b
        | Remove => registered (workers lb) b ∧ ¬ named b
        end
  | (lb', _) => lb' = lb
  end.
Proof.
  intros named send. unfold Control.execute. destruct (print u) as [q|]; [|done].
  unfold mbind, M_bind, map_err, send, Control.process_new_http. rewrite (Hqs q eq_refl), update_workers_run.
  destruct (mapM _ (Control.addresses u)) as [native|] eqn:Hm; [|done].
  exists (set_workers (foldl (update_one (Control.action u)) (workers lb) native) lb). split_and!; [done|done|].
  intros b. cbn [workers set_workers]. rewrite registered_update.
  assert (registered native b ↔ named b) as Hn; [|destruct (Control.action u); by rewrite Hn].
  apply mapM_Some_1 in Hm. unfold registered, named. rewrite list_elem_of_fmap. split.
  - intros (w & -> & Hin). apply list_elem_of_lookup_1 in Hin as (i & Hi).
    destruct (Forall2_lookup_r _ _ _ _ _ Hm Hi) as (addr & Ha & Hw). exists addr.
    split; [by eapply list_elem_of_lookup_2|]. by apply new_backend in Hw.
  - intros (addr & Hin & Hb). apply list_elem_of_lookup_1 in Hin as (i & Hi).
    destruct (Forall2_lookup_l _ _ _ _ _ Hm Hi) as (w & Hw & Hnew). exists w.
    split; [|by eapply list_elem_of_lookup_2]. apply new_backend in Hnew. congruence.
Qed.

(** What the status service publishes is the state of the balancer at the last update:
    a worker is healthy there exactly if its last check passed. *)
Lemma published_status {E} pkg lb st :
  (_ ← ProxyStatus.update pkg lb; ProxyStatus.get_status : M _ E _) st =
    (ProxyStatus.build_status pkg lb, Ok (ProxyStatus.build_status pkg lb)) ∧
  ∀ i w, workers lb !! i = Some w → ∃ ws, ProxyStatus.worker_statuses (ProxyStatus.build_status pkg lb) !! i = Some ws ∧
    ProxyStatus.address ws = Worker.address w ∧ (ProxyStatus.status ws = 1%Z ↔ health_status w = Healthy).
Proof.
  split; [done|]. intros i w Hw. exists (ProxyStatus.worker_status w). cbn. rewrite list_lookup_fmap, Hw.
  split_and!; [done|done|]. by destruct (health_status w).
Qed.

End proxy.
