(* ===== verification/RemoteProver.v ===== *)
(** * The remote prover and its clients

    Model of the worker's service in [bin/remote-prover/src/api/] with the conversions
    of [generated/conversions.rs], and of the three clients in
    [crates/remote-prover-client/src/remote_prover/]. The provers, the serialisation
    of what is proved, and the transport are the libraries'. *)

From S2P Require Import Prelude.
From S2P Require Import Bytes.
From S2P Require Import External.
From S2P Require Import NtxAccount.
From S2P Require Import StoreObjects.
From S2P Require Import Producer.
From S2P Require Import Proxy.

Class ProverObjects `{!MidenObjects} `{!NtxObjects} `{!StoreObjects} `{!ProducerObjects} := {
  TransactionWitness : Type;
  (** The provers' errors. *)
  ProverError : Type;
  (** [LocalTransactionProver], [LocalBatchProver] and [LocalBlockProver]. *)
  prove_witness : TransactionWitness → ProverError + ProvenTransaction;
  prove_proposed_batch : ProposedBatch → ProverError + ProvenBatch;
  prove_proposed_block : ProposedBlock → ProverError + ProvenBlock;
  (** [to_bytes] and [read_from_bytes]; [None] is a deserialization error. *)
  witness_to_bytes : TransactionWitness → bytes;
  witness_read : bytes → option TransactionWitness;
  proposed_batch_to_bytes : ProposedBatch → bytes;
  proposed_batch_read : bytes → option ProposedBatch;
  proposed_block_to_bytes : ProposedBlock → bytes;
  proposed_block_read : bytes → option ProposedBlock;
  proven_tx_to_bytes : ProvenTransaction → bytes;
  proven_tx_read : bytes → option ProvenTransaction;
  proven_batch_to_bytes : ProvenBatch → bytes;
  proven_batch_read : bytes → option ProvenBatch;
  proven_block_to_bytes : ProvenBlock → bytes;
  proven_block_read : bytes → option ProvenBlock;
  (** [TransactionHeader], with the nullifiers of its input notes and the ids of its
      output notes. *)
  TransactionHeader : Type;
  header_eq :: EqDecision TransactionHeader;
  txh_id : TransactionHeader → TransactionId;
  txh_account_id : TransactionHeader → AccountId;
  txh_initial_state_commitment : TransactionHeader → Digest;
  txh_final_state_commitment : TransactionHeader → Digest;
  txh_input_notes : TransactionHeader → list Nullifier;
  txh_output_notes : TransactionHeader → list NoteId;
  (** The transactions of batches and blocks, in order. *)
  proposed_batch_transactions : ProposedBatch → list ProvenTransaction;
  proven_batch_transactions : ProvenBatch → list TransactionHeader;
  proposed_block_transactions : ProposedBlock → list TransactionHeader;
  proven_block_transactions : ProvenBlock → list TransactionHeader;
}.

(** Documented behaviour: what was serialised is read back, and the counts of a
    transaction's notes count them. *)
Class ProverLaws `{!MidenObjects} `{!NtxObjects} `{!StoreObjects} `{!ProducerObjects} `{!ProverObjects} : Prop := {
  witness_roundtrip w : witness_read (witness_to_bytes w) = Some w;
  proposed_batch_roundtrip b : proposed_batch_read (proposed_batch_to_bytes b) = Some b;
  proposed_block_roundtrip b : proposed_block_read (proposed_block_to_bytes b) = Some b;
  proven_tx_roundtrip t : proven_tx_read (proven_tx_to_bytes t) = Some t;
  proven_batch_roundtrip b : proven_batch_read (proven_batch_to_bytes b) = Some b;
  proven_block_roundtrip b : proven_block_read (proven_block_to_bytes b) = Some b;
  num_input_notes_spec t : ptx_num_input_notes t = N.of_nat (length (ptx_nullifiers t));
  num_output_notes_spec t : ptx_num_output_notes t = N.of_nat (length (ptx_output_notes t));
}.

(** ** The messages *)

(** [From<ProofType> for i32] *)
Definition proof_type_to_i32 (t : ProofType) : Z :=
  match t with ProveTransaction => 0 | ProveBatch => 1 | ProveBlock => 2 end.

(** [Display] and [FromStr] of [ProofType], on ASCII text. *)
Definition proof_type_to_string (t : ProofType) : string :=
  match t with ProveTransaction => "transaction" | ProveBatch => "batch" | ProveBlock => "block" end.

Definition proof_type_from_str (s : string) : option ProofType :=
  let l := string_lower s in
  if decide (l = "transaction") then Some ProveTransaction
  else if decide (l = "batch") then Some ProveBatch
  else if decide (l = "block") then Some ProveBlock
  else None.

Record ProvingRequest := mk_proving_request {
  proof_type : Z;
  request_payload : bytes;
}.

(** prost's getter of an enumeration: an unknown value reads as the first one. *)
Definition request_proof_type (r : ProvingRequest) : ProofType := default ProveTransaction (proof_type_try_from (proof_type r)).

(** The codes of [tonic::Status] that the worker answers with; the transport has more. *)
Inductive ProverStatus : Type :=
| Unimplemented
| ResourceExhausted
| InternalError
| InvalidRequest
| Transport (code : N).

Module ProverApi.

Section defs.
Context `{!MidenObjects} `{!NtxObjects} `{!StoreObjects} `{!ProducerObjects} `{!ProverObjects}.

(** One prover is enabled, behind a mutex: [true] while a request holds it. *)
Inductive Prover : Type :=
| TransactionProver (locked : bool)
| BatchProver (locked : bool)
| BlockProver (locked : bool).

Definition new (t : ProofType) : Prover :=
  match t with
  | ProveTransaction => TransactionProver false
  | ProveBatch => BatchProver false
  | ProveBlock => BlockProver false
  end.

Definition set_locked (locked : bool) (p : Prover) : Prover :=
  match p with
  | TransactionProver _ => TransactionProver locked
  | BatchProver _ => BatchProver locked
  | BlockProver _ => BlockProver locked
  end.

Abbreviation PM := (M Prover ProverStatus).

(** [try_lock()] *)
Definition try_lock (locked : bool) : PM unit :=
  if locked then throw ResourceExhausted else modify (set_locked true).

(** What a request that has got the lock computes: [prove(..).map_err(internal_error)]
    and the response's payload. *)
Definition response {A} (to_bytes : A → bytes) (r : ProverError + A) : ProverStatus + bytes :=
  match r with inr a => inr (to_bytes a) | inl _ => inl InternalError end.

Definition prove_tx (transaction_witness : TransactionWitness) : PM (ProverStatus + bytes) :=
  p ← get;
  match p with
  | TransactionProver locked => _ ← try_lock locked; mret (response proven_tx_to_bytes (prove_witness transaction_witness))
  | _ => throw Unimplemented
  end.

Definition prove_batch (proposed_batch : ProposedBatch) : PM (ProverStatus + bytes) :=
  p ← get;
  match p with
  | BatchProver locked => _ ← try_lock locked; mret (response proven_batch_to_bytes (prove_proposed_batch proposed_batch))
  | _ => throw Unimplemented
  end.

Definition prove_block (proposed_block : ProposedBlock) : PM (ProverStatus + bytes) :=
  p ← get;
  match p with
  | BlockProver locked => _ ← try_lock locked; mret (response proven_block_to_bytes (prove_proposed_block proposed_block))
  | _ => throw Unimplemented
  end.

(** [try_into().map_err(invalid_argument)?] *)
Definition parse {A} (o : option A) : PM A := match o with Some a => mret a | None => throw InvalidRequest end.

(** [prove] up to the end of the proof, which takes its time: an error is answered at
    once, otherwise the prover is locked until the answer is sent. *)
Definition prove (request : ProvingRequest) : PM (ProverStatus + bytes) :=
  match request_proof_type request with
  | ProveTransaction => w ← parse (witness_read (request_payload request)); prove_tx w
  | ProveBatch => b ← parse (proposed_batch_read (request_payload request)); prove_batch b
  | ProveBlock => b ← parse (proposed_block_read (request_payload request)); prove_block b
  end.

(** ** Requests that overlap *)

(** The worker with the answers of the requests that are being proved. *)
Record Server := mk_server {
  prover : Prover;
  proving : gmap N (ProverStatus + bytes);
}.

(** Request [r] arrives, and is answered at once or starts to be proved; or its proof
    ends, which releases the lock. *)
Inductive step (s : Server) : N → option (ProverStatus + bytes) → Server → Prop :=
| step_refused r request p' e :
    proving s !! r = None → prove request (prover s) = (p', Err e) → step s r (Some (inl e)) (mk_server p' (proving s))
| step_started r request p' answer :
    proving s !! r = None → prove request (prover s) = (p', Ok answer) →
    step s r None (mk_server p' (<[r := answer]> (proving s)))
| step_answered r answer :
    proving s !! r = Some answer →
    step s r (Some answer) (mk_server (set_locked false (prover s)) (delete r (proving s))).

(** [StatusRpcApi::status]: the worker's version and proof type. *)
Definition status (version : string) (t : ProofType) : string * Z := (version, proof_type_to_i32 t).

(** A request that no other one overlaps with. *)
Definition serve (request : ProvingRequest) : PM bytes := λ p,
  match prove request p with
  | (p', Ok (inr payload)) => (set_locked false p', Ok payload)
  | (p', Ok (inl e)) => (set_locked false p', Err e)
  | (p', Err e) => (p', Err e)
  | (p', Panic m) => (p', Panic m)
  | (p', OutOfFuel) => (p', OutOfFuel)
  end.

End defs.

End ProverApi.

(** ** The clients *)

Module ProverClient.

Section defs.
Context `{!MidenObjects} `{!NtxObjects} `{!StoreObjects} `{!ProducerObjects} `{!ProverObjects}.
(** The world beyond the client, the connections to it, how one is made, and the call
    of [prove] on one. A connection is made with a timeout of ten seconds for each
    request: a request that takes longer is one that [call] answers with a status of
    the transport. *)
Context {W Conn : Type} (dial : M W unit Conn) (call : Conn → ProvingRequest → M W ProverStatus bytes).

(** The messages that the clients build with [format!], by what they report. *)
Inductive Mismatch : Type :=
| HeaderCount (returned passed : nat)
| DifferentAccount (id : TransactionId)
| DifferentInitialState (id : TransactionId)
| DifferentFinalState (id : TransactionId)
| DifferentNumberOfInputNotes (id : TransactionId)
| DifferentInputNotes (id : TransactionId)
| DifferentNumberOfOutputNotes (id : TransactionId)
| DifferentOutputNotes (id : TransactionId)
| DifferentHeader (id : TransactionId).

(** What the clients report: the last three are [Other], by its message, and the
    transaction prover reports all of them as [TransactionProverError]. *)
Inductive RemoteProverClientError : Type :=
| ConnectionFailed
| ProveFailed (status : ProverStatus)
| DeserializationFailed
| Mismatched (m : Mismatch).

(** [client], and what is beyond. *)
Abbreviation CM := (M (option Conn * W) RemoteProverClientError).

Definition set_client (c : option Conn) (s : option Conn * W) : option Conn * W := (c, s.2).

Definition beyond {E A} (f : E → RemoteProverClientError) (m : M W E A) : CM A :=
  zoom snd (λ w s, (s.1, w)) (map_err f m).

Definition connect : CM unit :=
  s ← get;
  match s.1 with
  | Some _ => mret tt
  | None =>
    new_client ← beyond (λ _, ConnectionFailed) dial;
    modify (set_client (Some new_client))
  end.

(** The part of [prove] up to the response's payload. *)
Definition request_proof (t : ProofType) (payload : bytes) : CM bytes :=
  _ ← connect;
  s ← get;
  match s.1 with
  | None => throw ConnectionFailed
  | Some client => beyond ProveFailed (call client (mk_proving_request (proof_type_to_i32 t) payload))
  end.

(** [try_from(response).map_err(..)?] *)
Definition parse {A} (o : option A) : CM A := match o with Some a => mret a | None => throw DeserializationFailed end.

Definition valid (r : Mismatch + unit) : CM unit := match r with inr _ => mret tt | inl m => throw (Mismatched m) end.

(** [RemoteTransactionProver::prove] *)
Definition prove_transaction (tx_witness : TransactionWitness) : CM ProvenTransaction :=
  payload ← request_proof ProveTransaction (witness_to_bytes tx_witness);
  parse (proven_tx_read payload).

(** *** Batches *)

Definition mismatch_if (b : bool) (m : Mismatch) (rest : Mismatch + unit) : Mismatch + unit := if b then inl m else rest.

(** The body of the loop over the pairs, and the rest of the loop. *)
Definition validate_pair (proposed : ProvenTransaction) (proven_header : TransactionHeader) (rest : Mismatch + unit)
    : Mismatch + unit :=
  let id := ptx_id proposed in
  let nullifiers := ptx_nullifiers proposed in
  let notes := output_note_id <$> ptx_output_notes proposed in
  mismatch_if (bool_decide (txh_account_id proven_header ≠ ptx_account_id proposed)) (DifferentAccount id)
  (mismatch_if (bool_decide (txh_initial_state_commitment proven_header ≠ ptx_initial_state_commitment proposed))
    (DifferentInitialState id)
  (mismatch_if (bool_decide (txh_final_state_commitment proven_header ≠ ptx_final_state_commitment proposed))
    (DifferentFinalState id)
  (mismatch_if (bool_decide (N.to_nat (ptx_num_input_notes proposed) ≠ length (txh_input_notes proven_header)))
    (DifferentNumberOfInputNotes id)
  (mismatch_if (existsb (λ '(a, b), bool_decide (a ≠ b)) (zip nullifiers (txh_input_notes proven_header)))
    (DifferentInputNotes id)
  (mismatch_if (bool_decide (N.to_nat (ptx_num_output_notes proposed) ≠ length (txh_output_notes proven_header)))
    (DifferentNumberOfOutputNotes id)
  (mismatch_if (existsb (λ '(a, b), bool_decide (a ≠ b)) (zip notes (txh_output_notes proven_header)))
    (DifferentOutputNotes id)
  rest)))))).

(** [RemoteBatchProver::validate_tx_headers] *)
Definition validate_batch (proven_batch : ProvenBatch) (proposed_txs : list ProvenTransaction) : Mismatch + unit :=
  let headers := proven_batch_transactions proven_batch in
  if decide (length proposed_txs ≠ length headers) then inl (HeaderCount (length headers) (length proposed_txs))
  else foldr (λ '(proposed, proven_header) rest, validate_pair proposed proven_header rest) (inr tt) (zip proposed_txs headers).

(** [RemoteBatchProver::prove] *)
Definition prove_batch (proposed_batch : ProposedBatch) : CM ProvenBatch :=
  payload ← request_proof ProveBatch (proposed_batch_to_bytes proposed_batch);
  proven_batch ← parse (proven_batch_read payload);
  _ ← valid (validate_batch proven_batch (proposed_batch_transactions proposed_batch));
  mret proven_batch.

(** *** Blocks *)

(** [RemoteBlockProver::validate_tx_headers] *)
Definition validate_block (proven_block : ProvenBlock) (proposed_txs : list TransactionHeader) : Mismatch + unit :=
  let headers := proven_block_transactions proven_block in
  if decide (length proposed_txs ≠ length headers) then inl (HeaderCount (length headers) (length proposed_txs))
  else foldr (λ '(proposed_header, proven_header) rest,
    mismatch_if (bool_decide (proposed_header ≠ proven_header)) (DifferentHeader (txh_id proposed_header)) rest)
    (inr tt) (zip proposed_txs headers).

(** [RemoteBlockProver::prove] *)
Definition prove_block (proposed_block : ProposedBlock) : CM ProvenBlock :=
  payload ← request_proof ProveBlock (proposed_block_to_bytes proposed_block);
  proven_block ← parse (proven_block_read payload);
  _ ← valid (validate_block proven_block (proposed_block_transactions proposed_block));
  mret proven_block.

End defs.

Arguments RemoteProverClientError {_}.

End ProverClient.
