(* ===== verification/RemoteProverTheorems.v ===== *)
(** * What the clients of the remote prover accept, and what its service answers *)

From S2P Require Import Prelude.
From S2P Require Import Bytes.
From S2P Require Import External.
From S2P Require Import NtxAccount.
From S2P Require Import StoreObjects.
From S2P Require Import Producer.
From S2P Require Import Proxy.
From S2P Require Import RemoteProver.
Import ProverApi.

Section theorems.
Context `{!MidenObjects} `{!NtxObjects} `{!StoreObjects} `{!ProducerObjects} `{!ProverObjects} `{!ProverLaws}.

(** ** Validation *)

(** What a header says of a transaction, but for its id. *)
Definition header_view (h : TransactionHeader) :=
  (txh_account_id h, txh_initial_state_commitment h, txh_final_state_commitment h, txh_input_notes h, txh_output_notes h).

Definition tx_view (tx : ProvenTransaction) :=
  (ptx_account_id tx, ptx_initial_state_commitment tx, ptx_final_state_commitment tx, ptx_nullifiers tx,
   output_note_id <$> ptx_output_notes tx).

Lemma mismatch_if_ok b m rest : ProverClient.mismatch_if b m rest = inr tt ↔ b = false ∧ rest = inr tt.
Proof. destruct b; naive_solver. Qed.

(** Two lists of one length have no different pair exactly if they are equal. *)
Lemma zip_same {A} `{!EqDecision A} (l k : list A) :
  length l = length k → existsb (λ '(a, b), bool_decide (a ≠ b)) (zip l k) = false ↔ l = k.
Proof.
  revert k. induction l as [|x l IH]; intros [|y k] Hlen; try done. cbn in Hlen |- *.
  rewrite orb_false_iff, bool_decide_eq_false, IH by lia. split.
  - intros [Hxy ->]. f_equal. by destruct (decide (x = y)).
  - intros [= -> ->]. split; [|done]. by intros Hne.
Qed.

Lemma bool_decide_ne_false {A} `{!EqDecision A} (x y : A) : bool_decide (x ≠ y) = false ↔ x = y.
Proof. rewrite bool_decide_eq_false. split; [by destruct (decide (x = y))|by intros -> []]. Qed.

Lemma validate_pair_ok tx h rest :
  ProverClient.validate_pair tx h rest = inr tt ↔ header_view h = tx_view tx ∧ rest = inr tt.
Proof.
  unfold ProverClient.validate_pair, header_view, tx_view.
  rewrite !mismatch_if_ok, !bool_decide_ne_false, num_input_notes_spec, num_output_notes_spec, !Nat2N.id. split.
  - intros (-> & -> & -> & Hin & Hins & Hout & Houts & ->). split; [|done].
    apply zip_same in Hins; [|done]. apply zip_same in Houts; [|by rewrite length_fmap]. by rewrite <- Hins, <- Houts.
  - intros [Hv ->]. injection Hv as Ha Hi Hf Hin Hout. rewrite Ha, Hi, Hf, Hin, Hout, length_fmap.
    split_and!; try done; by apply zip_same.
Qed.

(** A batch client accepts exactly the batches with the headers of the transactions
    it was given. *)
Lemma validate_batch_ok b txs :
  ProverClient.validate_batch b txs = inr tt ↔ header_view <$> proven_batch_transactions b = tx_view <$> txs.
Proof.
  unfold ProverClient.validate_batch. generalize (proven_batch_transactions b) as hs. intros hs.
  case_decide as Hlen.
  - split; [done|]. intros Heq%(f_equal length). by rewrite !length_fmap in Heq.
  - assert (length txs = length hs) as Hl by lia. clear Hlen. revert hs Hl.
    induction txs as [|tx txs IH]; intros [|h hs] Hl; try done. cbn [length zip zip_with foldr] in Hl |- *.
    rewrite validate_pair_ok, (IH hs), !fmap_cons by lia. split; [by intros [-> ->]|].
    intros Heq. split; [exact (f_equal (λ l, default (header_view h) (head l)) Heq)|exact (f_equal tail Heq)].
Qed.

Lemma validate_block_ok b txs :
  ProverClient.validate_block b txs = inr tt ↔ proven_block_transactions b = txs.
Proof.
  unfold ProverClient.validate_block. generalize (proven_block_transactions b) as hs. intros hs.
  case_decide as Hlen; [split; [done|by intros ->]|].
  assert (length txs = length hs) as Hl by lia. clear Hlen. revert hs Hl.
  induction txs as [|tx txs IH]; intros [|h hs] Hl; try done. cbn in Hl |- *.
  rewrite mismatch_if_ok, bool_decide_ne_false, (IH hs) by lia. split; [by intros [-> ->]|by intros [= -> ->]].
Qed.

(** ** The clients on any service *)

Section client.
Context {W Conn : Type} (dial : M W unit Conn) (call : Conn → ProvingRequest → M W ProverStatus bytes).
Implicit Types (c : option Conn) (w : W).

Abbreviation ClientError := ProverClient.RemoteProverClientError.

(** The connection that [connect] leaves: the one there is, or a new one. *)
Definition connected c w : W * res ClientError Conn :=
  match c with
  | Some conn => (w, Ok conn)
  | None => map_err (λ _, ProverClient.ConnectionFailed) dial w
  end.

(** The answer to a request, on the connection. *)
Definition answer (t : ProofType) (payload : bytes) c w : (option Conn * W) * res ClientError bytes :=
  match connected c w with
  | (w', Ok conn) =>
    let '(w'', r) := map_err ProverClient.ProveFailed (call conn (mk_proving_request (proof_type_to_i32 t) payload)) w' in
    ((Some conn, w''), r)
  | (w', Err e) => ((c, w'), Err e)
  | (w', Panic p) => ((c, w'), Panic p)
  | (w', OutOfFuel) => ((c, w'), OutOfFuel)
  end.

Lemma request_proof_answer t payload c w : ProverClient.request_proof dial call t payload (c, w) = answer t payload c w.
Proof.
  unfold ProverClient.request_proof, ProverClient.connect, answer, connected, ProverClient.beyond, zoom.
  unfold mbind, M_bind, get. cbn. destruct c as [conn|]; cbn.
  - unfold mret, M_ret, map_err. cbn. by destruct (call conn _ w) as [w' []].
  - unfold map_err. destruct (dial w) as [w' [conn|e|p|]]; cbn; try done.
Qed.

End client.

(** ** The clients on the worker's service *)

(** A request that no other overlaps with, on a connection that is only a name: it can
    always be made, and no request fails on the way or exceeds the client's timeout of
    ten seconds. *)
Definition on_worker (conn : unit) : ProvingRequest → M Prover ProverStatus bytes := ProverApi.serve.

Definition dial_worker : M Prover unit unit := mret tt.

Lemma request_type t payload : request_proof_type (mk_proving_request (proof_type_to_i32 t) payload) = t.
Proof. by destruct t. Qed.

(** The proof types. *)
Definition type_of (p : Prover) : ProofType :=
  match p with TransactionProver _ => ProveTransaction | BatchProver _ => ProveBatch | BlockProver _ => ProveBlock end.

Definition is_locked (p : Prover) : bool :=
  match p with TransactionProver b | BatchProver b | BlockProver b => b end.

(** What the worker answers to a payload that it can read. *)
Definition worker_answer (t : ProofType) (p : Prover) (local : ProverStatus + bytes) : ProverStatus + bytes :=
  if decide (type_of p ≠ t) then inl Unimplemented else if is_locked p then inl ResourceExhausted else local.

Definition as_result {A} (r : ProverStatus + A) : res ProverClient.RemoteProverClientError A :=
  match r with inr a => Ok a | inl e => Err (ProverClient.ProveFailed e) end.

(** The prover as it is after a request: as before. *)
Lemma serve_answer t payload c p local :
  ProverApi.prove (mk_proving_request (proof_type_to_i32 t) payload) p =
    match worker_answer t p (inr []) with
    | inl e => (p, Err e)
    | inr _ => (set_locked true p, Ok local)
    end →
  answer dial_worker on_worker t payload c p = ((Some tt, p), as_result (worker_answer t p local)).
Proof.
  intros Hp. unfold answer, connected, on_worker, dial_worker.
  assert (ProverApi.serve (mk_proving_request (proof_type_to_i32 t) payload) p =
    (p, match worker_answer t p local with inr x => Ok x | inl e => Err e end)) as Hs.
  { unfold ProverApi.serve. rewrite Hp. unfold worker_answer. case_decide; [done|].
    destruct (is_locked p) eqn:Hl; [done|]. destruct local; by destruct p; cbn in Hl; subst. }
  destruct c as [[]|]; cbn; unfold map_err; rewrite Hs; by destruct (worker_answer t p local).
Qed.

(** C38: Proving remotely is proving locally, over a connection that neither fails nor
    exceeds the client's timeout of ten seconds. Whoever asks a worker through a client gets
    what the worker's prover computes on what was given to the client, be it a
    transaction, a batch or a block, and the worker is as it was before. A worker that
    is enabled for another type of proof, or is busy, answers with an error of its
    own. A proven batch is handed out exactly if its headers agree with the proposed
    transactions in account, commitments and notes, in order, and a proven block
    exactly if it has the headers of the proposed block. *)
Theorem remote_prove_local (conn : option unit) (p : Prover) :
  (∀ w, ProverClient.prove_transaction dial_worker on_worker w (conn, p) =
    ((Some tt, p), as_result (match worker_answer ProveTransaction p (inr []) with
      | inl e => inl e
      | inr _ => match prove_witness w with inr tx => inr tx | inl _ => inl InternalError end
      end))) ∧
  (∀ b, ProverClient.prove_batch dial_worker on_worker b (conn, p) =
    ((Some tt, p), match worker_answer ProveBatch p (inr []) with
      | inl e => Err (ProverClient.ProveFailed e)
      | inr _ =>
        match prove_proposed_batch b with
        | inl _ => Err (ProverClient.ProveFailed InternalError)
        | inr proven =>
          match ProverClient.validate_batch proven (proposed_batch_transactions b) with
          | inr _ => Ok proven
          | inl m => Err (ProverClient.Mismatched m)
          end
        end
      end)) ∧
  (∀ b, ProverClient.prove_block dial_worker on_worker b (conn, p) =
    ((Some tt, p), match worker_answer ProveBlock p (inr []) with
      | inl e => Err (ProverClient.ProveFailed e)
      | inr _ =>
        match prove_proposed_block b with
        | inl _ => Err (ProverClient.ProveFailed InternalError)
        | inr proven =>
          match ProverClient.validate_block proven (proposed_block_transactions b) with
          | inr _ => Ok proven
          | inl m => Err (ProverClient.Mismatched m)
          end
        end
      end)) ∧
  (∀ proven txs, ProverClient.validate_batch proven txs = inr tt ↔
    header_view <$> proven_batch_transactions proven = tx_view <$> txs) ∧
  (∀ proven txs, ProverClient.validate_block proven txs = inr tt ↔ proven_block_transactions proven = txs).
Proof.
  split_and!; [intros w|intros b|intros b|apply validate_batch_ok|apply validate_block_ok].
  - unfold ProverClient.prove_transaction, mbind, M_bind. rewrite request_proof_answer.
    rewrite (serve_answer _ _ _ _ (response proven_tx_to_bytes (prove_witness w))).
    + unfold worker_answer, response. case_decide; [done|]. destruct (is_locked p); [done|].
      destruct (prove_witness w); cbn; [done|]. by rewrite proven_tx_roundtrip.
    + unfold ProverApi.prove. rewrite request_type. cbn [request_payload]. rewrite witness_roundtrip.
      unfold worker_answer. by destruct p as [[]|[]|[]].
  - unfold ProverClient.prove_batch, mbind, M_bind. rewrite request_proof_answer.
    rewrite (serve_answer _ _ _ _ (response proven_batch_to_bytes (prove_proposed_batch b))).
    + unfold worker_answer, response. case_decide; [done|]. destruct (is_locked p); [done|].
      destruct (prove_proposed_batch b) as [|proven]; cbn; [done|]. rewrite proven_batch_roundtrip. cbn.
      by destruct (ProverClient.validate_batch proven _).
    + unfold ProverApi.prove. rewrite request_type. cbn [request_payload]. rewrite proposed_batch_roundtrip.
      unfold worker_answer. by destruct p as [[]|[]|[]].
  - unfold ProverClient.prove_block, mbind, M_bind. rewrite request_proof_answer.
    rewrite (serve_answer _ _ _ _ (response proven_block_to_bytes (prove_proposed_block b))).
    + unfold worker_answer, response. case_decide; [done|]. destruct (is_locked p); [done|].
      destruct (prove_proposed_block b) as [|proven]; cbn; [done|]. rewrite proven_block_roundtrip. cbn.
      by destruct (ProverClient.validate_block proven _).
    + unfold ProverApi.prove. rewrite request_type. cbn [request_payload]. rewrite proposed_block_roundtrip.
      unfold worker_answer. by destruct p as [[]|[]|[]].
Qed.

(** ** Overlapping requests *)

(** The servers that a run of requests and answers reaches. *)
Inductive serving (t : ProofType) : Server → Prop :=
| serving_start : serving t (mk_server (new t) ∅)
| serving_step s r a s' : serving t s → step s r a s' → serving t s'.

(** The answer that proving the request's payload gives. *)
Definition local_answer (request : ProvingRequest) : option (ProverStatus + bytes) :=
  match request_proof_type request with
  | ProveTransaction => (λ w, response proven_tx_to_bytes (prove_witness w)) <$> witness_read (request_payload request)
  | ProveBatch => (λ b, response proven_batch_to_bytes (prove_proposed_batch b)) <$> proposed_batch_read (request_payload request)
  | ProveBlock => (λ b, response proven_block_to_bytes (prove_proposed_block b)) <$> proposed_block_read (request_payload request)
  end.

Lemma prove_spec request p :
  prove request p =
    match local_answer request with
    | None => (p, Err InvalidRequest)
    | Some local =>
      match worker_answer (request_proof_type request) p (inr []) with
      | inl e => (p, Err e)
      | inr _ => (set_locked true p, Ok local)
      end
    end.
Proof.
  unfold prove, local_answer, worker_answer. destruct (request_proof_type request).
  - destruct (witness_read _); [|done]. by destruct p as [[]|[]|[]].
  - destruct (proposed_batch_read _); [|done]. by destruct p as [[]|[]|[]].
  - destruct (proposed_block_read _); [|done]. by destruct p as [[]|[]|[]].
Qed.

Lemma serving_inv t s :
  serving t s → type_of (prover s) = t ∧ size (proving s) = if is_locked (prover s) then 1 else 0.
Proof.
  induction 1 as [|s r a s' Hs [IH1 IH2] Hstep]; [by destruct t|]. destruct Hstep as [r request p' e Hr Hp|r request p' a Hr Hp|r a Hr].
  - rewrite prove_spec in Hp. destruct (local_answer request); [|by injection Hp as <- _].
    destruct (worker_answer _ _ _); [by injection Hp as <- _|done].
  - rewrite prove_spec in Hp. destruct (local_answer request); [|done].
    unfold worker_answer in Hp. case_decide; [done|]. destruct (is_locked (prover s)) eqn:Hl; [done|].
    injection Hp as <- <-. cbn. rewrite map_size_insert_None by done. rewrite IH2. by destruct (prover s); cbn in *; subst.
  - cbn. split; [by destruct (prover s); cbn in *; subst|].
    assert (is_locked (set_locked false (prover s)) = false) as -> by by destruct (prover s).
    rewrite map_size_delete_Some by eauto. rewrite IH2. by destruct (is_locked (prover s)).
Qed.

(** A worker proves one request at a time. In every state that requests and answers
    lead to, at most one proof is under way, and the prover is locked exactly then. A
    request that arrives is refused as invalid if its payload cannot be read, as
    unimplemented if it is for another type of proof, and as exhausting the worker
    exactly while a proof is under way; otherwise it is answered, in time, with what
    the prover computes on it. *)
Theorem prover_one_at_a_time t s r request (Hrun : serving t s) (Hfresh : proving s !! r = None) :
  size (proving s) = (if is_locked (prover s) then 1 else 0) ∧
  match local_answer request with
  | None => step s r (Some (inl InvalidRequest)) s
  | Some local =>
    if decide (request_proof_type request ≠ t) then step s r (Some (inl Unimplemented)) s
    else if decide (proving s ≠ ∅) then step s r (Some (inl ResourceExhausted)) s
    else ∃ s1, step s r None s1 ∧ proving s1 = {[r := local]} ∧ step s1 r (Some local) s
  end.
Proof.
  destruct (serving_inv t s Hrun) as [Ht Hsize]. split; [done|]. pose proof (prove_spec request (prover s)) as Hp.
  assert (∀ e, prove request (prover s) = (prover s, Err e) → step s r (Some (inl e)) s) as Href.
  { intros e He. destruct s as [p m]. by apply (step_refused (mk_server p m) r request p e). }
  destruct (local_answer request) as [local|] eqn:Hlocal; [|by apply Href].
  unfold worker_answer in Hp. rewrite Ht in Hp. destruct (decide (request_proof_type request = t)) as [Hty|Hty]; cycle 1.
  { rewrite decide_True in Hp by congruence. rewrite decide_True by done. by apply Href. }
  rewrite decide_False in Hp by congruence. rewrite decide_False by naive_solver. destruct (is_locked (prover s)) eqn:Hl.
  - rewrite decide_True; [by apply Href|]. intros Hempty. rewrite Hempty, map_size_empty in Hsize. done.
  - apply map_size_empty_iff in Hsize. rewrite decide_False by congruence.
    exists (mk_server (set_locked true (prover s)) (<[r := local]> (proving s))). split_and!.
    + by apply (step_started s r request).
    + cbn. by rewrite Hsize.
    + destruct s as [p m]. cbn in *. subst.
      pose proof (step_answered (mk_server (set_locked true p) (<[r := local]> ∅)) r local (lookup_insert_eq _ _ _)) as Hans.
      cbn in Hans. rewrite delete_insert_id in Hans by done. by destruct p; cbn in *; subst.
Qed.

(** ** Names of proof types *)

(** The text and the number of a proof type are read back, whatever the case. *)
Lemma proof_type_names t :
  proof_type_try_from (proof_type_to_i32 t) = Some t ∧ proof_type_from_str (proof_type_to_string t) = Some t ∧
  ∀ s, string_lower s = proof_type_to_string t ↔ proof_type_from_str s = Some t.
Proof.
  split_and!; [by destruct t|by destruct t|]. intros s. unfold proof_type_from_str.
  repeat case_decide; destruct t; cbn; split; congruence.
Qed.

End theorems.
