(* ===== verification/Concrete.v ===== *)
(** * A concrete protocol library

    An instance of [MidenObjects] and [Channel] with their laws: ids are numbers,
    and the hashes of the protocol are injective encodings. It shows that the
    hypotheses of the development can hold together, and lets its theorems be
    applied to concrete runs. *)

From S2P Require Import Prelude.
From S2P Require Import External.
From S2P Require Import Transaction.
From S2P Require Import Subscription.
From S2P Require Import NtxAccount.

Module Concrete.

Record Tx := mk_tx {
  c_account : N;
  c_initial : N;
  c_final : N;
  c_nullifiers : list N;
  c_outputs : list N;
  c_unauthenticated : list N;
  c_expiration : N;
}.

Definition c_id (t : Tx) : N :=
  Npos (encode (c_account t, c_initial t, c_final t, c_nullifiers t, c_outputs t)).

Definition c_batch_id (l : list (N * N)) : N := Npos (encode l).

#[global] Instance objects : MidenObjects := {|
  TransactionId := N;
  AccountId := N;
  NoteId := N;
  Nullifier := N;
  BatchId := N;
  tx_id_key := N_key;
  account_id_key := N_key;
  note_id_key := N_key;
  nullifier_key := N_key;
  batch_id_key := N_key;
  Digest := N;
  digest_eq := N.eq_dec;
  digest_default := 0%N;
  bn_child := λ n, (n + 1)%N;
  bn_add := N.add;
  bn_checked_sub := λ n k, if (k <=? n)%N then Some (n - k)%N else None;
  Note := N;
  note_nullifier := λ n, n;
  note_is_network := λ n, N.even n;
  OutputNote := N;
  output_note_id := λ n, n;
  output_note_full := Some;
  AccountUpdateDetails := UpdateView (N * N) (N * N);
  account_is_network := N.even;
  ProvenTransaction := Tx;
  ptx_id := c_id;
  ptx_account_id := c_account;
  ptx_initial_state_commitment := c_initial;
  ptx_final_state_commitment := c_final;
  ptx_account_details := λ t, Delta (c_account t, c_final t);
  ptx_nullifiers := c_nullifiers;
  ptx_num_input_notes := λ t, N.of_nat (length (c_nullifiers t));
  ptx_output_notes := c_outputs;
  ptx_num_output_notes := λ t, N.of_nat (length (c_outputs t));
  ptx_unauthenticated_notes := c_unauthenticated;
  ptx_expiration_block_num := c_expiration;
  ptx_ref_block := λ _, (0%N, 0%N);
  ProvenBatch := N;
  batch_id := λ b, b;
  batch_id_from_ids := c_batch_id;
  BlockHeader := N;
  header_block_num := λ h, h;
  MAX_ACCOUNTS_PER_BATCH := 1024;
  MAX_INPUT_NOTES_PER_BATCH := 1024;
  MAX_OUTPUT_NOTES_PER_BATCH := 1024;
|}.

#[global] Instance laws : MidenLaws.
Proof.
  split; cbn; try done.
  - intros l l' [= Heq]. by apply (inj encode) in Heq.
  - intros t t' [= Heq]. apply (inj encode) in Heq. by injection Heq.
  - intros t t' [= Heq]. apply (inj encode) in Heq. injection Heq as _ _ _ _ ->. done.
Defined.

(** A channel that remembers what was sent, up to its capacity. *)
#[global] Instance channel : Channel := {|
  Sender := nat * list MempoolEvent;
  Receiver := unit;
  mpsc_channel := λ n, ((n, []), tt);
  try_send := λ s ev, if decide (length s.2 < s.1) then Some (s.1, s.2 ++ [ev]) else None;
|}.

#[global] Instance channel_laws : ChannelLaws.
Proof.
  refine {| sent := λ s : Sender, s.2 : list MempoolEvent; capacity := λ s : Sender, s.1 |}; try done.
  - intros [n l] ev s'. cbn. case_decide; [|done]. by intros [= <-].
  - intros [n l] ev Hroom. cbn in *. rewrite decide_True by done. eauto.
Defined.

(** An account is its id and its state; ids serve as prefixes, and a note is
    addressed to the account with its number divided by ten. *)
#[global] Instance ntx_objects : NtxObjects := {|
  NetworkAccountPrefix := N;
  prefix_key := N_key;
  Account := N * N;
  AccountDelta := N * N;
  acc_id := fst;
  delta_id := fst;
  apply_delta := λ a d, Some (a.1, d.2);
  details_view := λ d : UpdateView (N * N) (N * N), d;
  prefix_of_id := λ id, id;
  note_prefix := λ n : N, (n / 10)%N;
|}.

(** A transaction as the store authenticates it. *)
Definition auth (t : Tx) (store_state : option N) (found : gset N) (height : N) : AuthenticatedTransaction :=
  mk_authenticated t store_state found height.

End Concrete.
