(* ===== verification/MempoolExamples.v ===== *)
(** * A concrete run of the mempool

    Four transactions on the concrete protocol library of [Concrete.v]: the theorems
    of [MempoolTheorems.v] apply to every state of the run, and a run outside the
    protocol shows why one of the protocol's conditions is needed. *)

From S2P Require Import Prelude.
From S2P Require Import Graph.
From S2P Require Import External.
From S2P Require Import Transaction.
From S2P Require Import InflightState.
From S2P Require Import Subscription.
From S2P Require Import SubscriptionProofs.
From S2P Require Import TransactionGraph.
From S2P Require Import BatchGraph.
From S2P Require Import Mempool.
From S2P Require Import MempoolInv.
From S2P Require Import MempoolOps.
From S2P Require Import MempoolTheorems.
From S2P Require Import Concrete.
Import Concrete.

Module MempoolRun.

(** Two transactions of account 1, the second of which consumes a note of the
    first, and one of account 2 that expires early. *)
Definition t1 : AuthenticatedTransaction := auth (mk_tx 1 0 10 [100%N] [200%N] [] 50) None ∅ 0.
Definition t2 : AuthenticatedTransaction := auth (mk_tx 1 10 11 [101%N] [201%N] [200%N] 50) None ∅ 0.
Definition t3 : AuthenticatedTransaction := auth (mk_tx 2 0 20 [102%N] [202%N] [] 3) None ∅ 0.

Definition one_tx : BatchBudget.BatchBudget :=
  {| BatchBudget.transactions := 1; BatchBudget.input_notes := 8;
     BatchBudget.output_notes := 8; BatchBudget.accounts := 8 |}.

Definition account1 : @AccountId objects := 1%N.
Definition header1 : @BlockHeader objects := 1%N.

Definition m0 : Mempool.Mempool := Mempool.new 0 one_tx (BlockBudget.mk_block_budget 2) 5 2.
Definition m1 : Mempool.Mempool := (run (Subscribe 0) m0).1.
Definition m2 : Mempool.Mempool := (run (AddTransaction t1) m1).1.
Definition m3 : Mempool.Mempool := (run (AddTransaction t2) m2).1.
Definition m4 : Mempool.Mempool := (run SelectBatch m3).1.
Definition batch1 : BatchId := c_batch_id [(tx_id t1, 1%N)].
Definition proof1 : @ProvenBatch objects := batch1.
Definition m5 : Mempool.Mempool := (run (CommitBatch proof1) m4).1.
Definition m6 : Mempool.Mempool := (run SelectBlock m5).1.

Lemma reachable_m0 : reachable m0.
Proof. apply reachable_new. reflexivity. Defined.

Lemma reachable_m3 : reachable m3.
Proof.
  apply (reachable_run m2 (AddTransaction t2)); [|left; vm_compute; reflexivity].
  apply (reachable_run m1 (AddTransaction t1)); [|left; vm_compute; reflexivity].
  apply (reachable_run m0 (Subscribe 0)); [apply reachable_m0|exact I].
Defined.

Lemma reachable_m4 : reachable m4.
Proof. apply (reachable_run m3 SelectBatch); [apply reachable_m3|exact I]. Defined.

Lemma reachable_m5 : reachable m5.
Proof.
  apply (reachable_run m4 (CommitBatch proof1)); [apply reachable_m4|].
  intros _. refine (proj1 (bool_decide_eq_true (_ ∈ _)) _). vm_compute. reflexivity.
Defined.

Lemma reachable_m6 : reachable m6.
Proof. apply (reachable_run m5 SelectBlock); [apply reachable_m5|]. vm_compute. reflexivity. Defined.

Lemma mempool_never_panics_witness :
  (run SelectBatch m3).2 = Returned ∨ (run SelectBatch m3).2 = Rejected ∧ (run SelectBatch m3).1 = m3.
Proof. apply (mempool_never_panics m3 SelectBatch reachable_m3). exact I. Defined.

Lemma inflight_t1 : inflight m3 (tx_id t1) t1.
Proof. vm_compute. reflexivity. Defined.

Lemma inflight_t2 : inflight m3 (tx_id t2) t2.
Proof. vm_compute. reflexivity. Defined.

Lemma mempool_no_double_spend_witness :
  (100%N : @Nullifier objects) ∉ nullifiers_of t2.
Proof.
  destruct (mempool_no_double_spend m3 (tx_id t1) t1 reachable_m3 inflight_t1) as [H _].
  refine (proj1 (H (tx_id t2) t2 inflight_t2 _) _ _); [vm_compute; discriminate|left].
Defined.

Lemma mempool_nothing_expired_witness : (Mempool.chain_tip m3 < expires_at t1)%N.
Proof. apply (mempool_nothing_expired m3 (tx_id t1) t1 reachable_m3 inflight_t1). Defined.

Lemma mempool_account_chain_witness : ∃ chain : list AuthenticatedTransaction, NoDup (tx_id <$> chain).
Proof.
  destruct (mempool_account_chain m3 account1 reachable_m3) as (chain & H & _). exists chain. exact H.
Defined.

Lemma mempool_add_transaction_witness :
  match Mempool.add_transaction t3 m3 with
  | (m', Ok height) => height = Mempool.chain_tip m3 ∧ inflight m' (tx_id t3) t3
  | _ => False
  end.
Proof.
  assert (distinguishable m3 t3) as Hd by (right; left; discriminate).
  pose proof (mempool_add_transaction m3 t3 reachable_m3 Hd) as H. revert H.
  destruct (Mempool.add_transaction t3 m3) as [m' [h|e| |]] eqn:E; try contradiction.
  - intros (_ & Hh & Hin & _). split; [exact Hh|]. apply Hin. left. split; reflexivity.
  - exfalso. apply (f_equal snd) in E. vm_compute in E. discriminate.
Defined.

Lemma inflight_add_revert_witness :
  match InflightState.add_transaction t3 (Mempool.state m3) with
  | (s, Ok _) => (InflightState.revert_transactions {[tx_id t3]} : M _ Empty_set _) s = (Mempool.state m3, Ok tt)
  | _ => False
  end.
Proof.
  assert (distinguishable m3 t3) as Hd by (right; left; discriminate).
  destruct (InflightState.add_transaction t3 (Mempool.state m3)) as [s [ps|e| |]] eqn:E.
  - apply (inflight_add_revert m3 t3 s ps reachable_m3 Hd E).
  - exfalso. apply (f_equal snd) in E. vm_compute in E. discriminate.
  - exfalso. apply (f_equal snd) in E. vm_compute in E. discriminate.
  - exfalso. apply (f_equal snd) in E. vm_compute in E. discriminate.
Defined.

Lemma mempool_select_batch_witness :
  match (Mempool.select_batch : M _ Empty_set _) m3 with
  | (m', Ok (Some (id, batch))) => NoDup (tx_id <$> batch)
  | (m', Ok None) => m' = m3
  | _ => False
  end.
Proof.
  pose proof (mempool_select_batch m3 reachable_m3) as H. revert H.
  destruct ((Mempool.select_batch : M _ Empty_set _) m3) as [m' [[[id batch]|]|e| |]]; try contradiction.
  - intros (_ & _ & _ & _ & _ & _ & Hnd & _). exact Hnd.
  - intros [Heq _]. exact Heq.
Defined.

Lemma mempool_select_block_witness :
  match (Mempool.select_block : M _ Empty_set _) m5 with
  | (m', Ok (number, selected)) => number = 1%N ∧ NoDup (batch_id <$> selected)
  | _ => False
  end.
Proof.
  assert (Mempool.block_in_progress m5 = None) as Hn by (vm_compute; reflexivity).
  pose proof (mempool_select_block m5 reachable_m5 Hn) as H. revert H.
  destruct ((Mempool.select_block : M _ Empty_set _) m5) as [m' [[number selected]|e| |]]; try contradiction.
  intros (Hnum & _ & Hnd & _). split; [|exact Hnd]. rewrite Hnum. vm_compute. reflexivity.
Defined.

Lemma block_m6 : Mempool.block_in_progress m6 ≠ None.
Proof. vm_compute. discriminate. Defined.

Lemma mempool_rollback_witness :
  match (Mempool.rollback_batch batch1 : M _ Empty_set _) m4 with
  | (m', Ok _) => inflight m' (tx_id t1) t1
  | _ => False
  end ∧
  match (Mempool.rollback_block : M _ Empty_set _) m6 with
  | (m', Ok _) => Mempool.block_in_progress m' = None
  | _ => False
  end.
Proof.
  split.
  - assert (batch1 ∉ default ∅ (Mempool.block_in_progress m4)) as Hb.
    { refine (proj1 (bool_decide_eq_true (_ ∉ _)) _). vm_compute. reflexivity. }
    pose proof (proj1 (mempool_rollback m4 reachable_m4) batch1 Hb) as H. revert H.
    destruct ((Mempool.rollback_batch batch1 : M _ Empty_set _) m4) as [m' [[]|e| |]]; try contradiction.
    intros (Hin & _). apply Hin. vm_compute. reflexivity.
  - pose proof (proj2 (mempool_rollback m6 reachable_m6) block_m6) as H. revert H.
    destruct ((Mempool.rollback_block : M _ Empty_set _) m6) as [m' [[]|e| |]]; try contradiction.
    intros (_ & Hn & _). exact Hn.
Defined.

Lemma mempool_commit_block_witness :
  match (Mempool.commit_block header1 : M _ Empty_set _) m6 with
  | (m', Ok _) => Mempool.chain_tip m' = (Mempool.chain_tip m6 + 1)%N
  | _ => False
  end.
Proof.
  assert (header_block_num header1 = (Mempool.chain_tip m6 + 1)%N) as Hh by (vm_compute; reflexivity).
  pose proof (mempool_commit_block m6 header1 reachable_m6 block_m6 Hh) as H. revert H.
  destruct ((Mempool.commit_block header1 : M _ Empty_set _) m6) as [m' [[]|e| |]]; try contradiction.
  intros (Ht & _). exact Ht.
Defined.

Lemma subscribed_m3 : is_Some (Subscription.subscription (Mempool.subscription m3)).
Proof. apply not_eq_None_Some. vm_compute. discriminate. Defined.

Lemma mempool_subscriber_in_sync_witness :
  ∃ sender, NoDup (replay (sent sender)) ∧ Subscription.added_event t1 ∈ replay (sent sender).
Proof.
  destruct subscribed_m3 as [sender Hs]. exists sender.
  destruct (mempool_subscriber_in_sync m3 sender reachable_m3 Hs) as [Hnd Hev].
  split; [exact Hnd|]. apply Hev. exists t1. split; [exact inflight_t1|reflexivity].
Defined.

Lemma mempool_batch_progress_witness :
  match (Mempool.select_batch : M _ Empty_set _) m2 with (_, Ok (Some _)) => True | _ => False end.
Proof.
  assert (reachable m2) as Hr.
  { apply (reachable_run m1 (AddTransaction t1)); [|left; vm_compute; reflexivity].
    apply (reachable_run m0 (Subscribe 0)); [apply reachable_m0|exact I]. }
  assert (inflight m2 (tx_id t1) t1) as Hin by (vm_compute; reflexivity).
  assert (batch_of m2 (tx_id t1) = None) as Hn by (vm_compute; reflexivity).
  apply (mempool_batch_progress m2 (tx_id t1) t1 Hr Hin Hn). intros t' tx' Ht'.
  assert (Graph.vertices (Mempool.transactions m2) = {[tx_id t1 := t1]}) as Hv by (vm_compute; reflexivity).
  unfold inflight, Graph.get_value in Ht'. rewrite Hv in Ht'.
  apply lookup_singleton_Some in Ht' as [_ <-]. vm_compute. reflexivity.
Defined.

(** ** Outside the protocol: a stale proving job

    Two batch jobs run at a time. The parent batch fails while its child is still
    being proven, both are dropped, and selecting again yields batches with the same
    ids, since an id is a hash of the transactions. The old job then delivers its
    proof for the new child batch, and the new job's proof finds the batch proven. *)

Definition batch2 : BatchId := c_batch_id [(tx_id t2, 1%N)].
Definition proof2 : @ProvenBatch objects := batch2.

Definition stale_run : list (MempoolOp) :=
  [AddTransaction t1; AddTransaction t2;
   SelectBatch; (* job 1: the batch of t1 *)
   SelectBatch; (* job 2: the batch of t2 *)
   RollbackBatch batch1; (* job 1 fails *)
   SelectBatch; CommitBatch proof1; (* job 3: the batch of t1 again *)
   SelectBatch; (* job 4: the batch of t2 again *)
   CommitBatch proof2 (* job 2 delivers *)].

Definition run_all (ops : list MempoolOp) (m : Mempool.Mempool) : list outcome * Mempool.Mempool :=
  foldl (λ acc op, let '(m', o) := run op acc.2 in (acc.1 ++ [o], m')) ([], m) ops.

(** A batch proof can crash the mempool. After a parent batch fails while the
    job of its child still runs, and both batches are selected again, the first job
    to deliver the child's proof succeeds and the second one makes [commit_batch]
    panic: the check that the batch is known does not cover that it is already
    proven. *)
Theorem mempool_stale_proof_panics :
  (run_all stale_run m0).1 = replicate 9 Returned ∧
  (run (CommitBatch proof2) (run_all stale_run m0).2).2 = Panicked.
Proof. split; vm_compute; reflexivity. Qed.

End MempoolRun.
