(* ===== verification/StoreExamples.v ===== *)
(** * A concrete store, and runs of it

    Instances of [StoreObjects] and [StoreTrees] with their laws, on top of
    [Concrete.v]: a header is its block number, the trees are maps and the chain is
    the list of its commitments. *)

From S2P Require Import Prelude.
From S2P Require Import External.
From S2P Require Import NtxAccount.
From S2P Require Import StoreObjects.
From S2P Require Import StoreTrees.
From S2P Require Import Concrete.
From S2P Require Import StoreSql.
From S2P Require Import StoreWrite.
From S2P Require Import StoreRead.
From S2P Require Import StoreProofs.
From S2P Require Import StoreState.
From S2P Require Import StoreApply.
From S2P Require Import StoreTheorems.
From S2P Require Import StoreQueries.
From S2P Require Import StoreReads.
From S2P Require Import StoreInputs.
From S2P Require Import StoreSchema.

Import Concrete.

Module StoreConcrete.

Record Update := mk_update {
  c_update_id : N;
  c_update_commitment : N;
  c_update_details : UpdateView (N * N) (N * N);
}.

Record Block := mk_block {
  c_num : N;
  c_updates : list Update;
  c_spent : list N;
  c_txs : list (N * N);
  c_notes : list (bool * bool * N);
}.

(** A note number [n] has sender [n / 100]; it is for the network if it is even, and
    its [aux] value is 2^63 if its tens digit is 9. *)
Record Metadata := mk_metadata {
  c_sender : N;
  c_local : bool;
  c_big : bool;
}.

Definition index_of (b : bool) : N := if b then 1%N else 0%N.

#[global] Instance store_objects : @StoreObjects objects ntx_objects := {|
  digest_countable := N_countable;
  header_commitment := λ h : N, (h + 1)%N;
  header_prev_block_commitment := λ h : N, h;
  header_tx_commitment := λ _, 0%N;
  header_chain_commitment := λ _, 0%N;
  header_nullifier_root := λ _, 0%N;
  header_account_root := λ _, 0%N;
  header_note_root := λ _, 0%N;
  Word := N;
  StorageMap := list (N * N);
  NonFungibleAsset := N;
  asset_eq := N.eq_dec;
  asset_countable := N_countable;
  prefix_u32 := λ p : N, p;
  acc_commitment := λ a : N * N, a.2;
  acc_nonce := λ _, 1%N;
  acc_slots := λ _, [];
  acc_assets := λ _, [];
  map_delta_of := λ m, m;
  delta_new := λ id _ _ _ _ nonce, Some (id, nonce);
  delta_nonce := λ _, 1%N;
  delta_values := λ _, [];
  delta_maps := λ _, [];
  delta_fungible := λ _, [];
  delta_non_fungible := λ _, [];
  non_fungible_add := λ m a, Some (<[a := false]> m);
  non_fungible_remove := λ m a, Some (<[a := true]> m);
  BlockAccountUpdate := Update;
  update_id := c_update_id;
  update_commitment := c_update_commitment;
  update_details := c_update_details;
  NoteMetadata := Metadata;
  NoteType := unit;
  NoteExecutionHint := unit;
  metadata_note_type := λ _, tt;
  metadata_sender := c_sender;
  metadata_tag := λ m, index_of (c_local m);
  metadata_aux := λ m, if c_big m then (2 ^ 63)%N else 5%N;
  metadata_hint := λ _, tt;
  note_type_u8 := λ _, 1%N;
  note_type_from := λ n, if (n =? 1)%N then Some tt else None;
  hint_u64 := λ _, 0%N;
  hint_from := λ n, if (n =? 0)%N then Some tt else None;
  tag_execution_mode := λ t, if (t =? 0)%N then 0%N else 1%N;
  is_felt := λ n, (n <? 2 ^ 64)%N;
  metadata_new := λ sender _ tag _ aux, Some (mk_metadata sender (tag =? 1)%N (aux =? 2 ^ 63)%N);
  NoteAssets := unit;
  NoteInputs := unit;
  NoteScript := N;
  NoteDetails := N;
  script_root := λ s : N, s;
  details_assets := λ _, tt;
  details_inputs := λ _, tt;
  details_script := λ _, 7%N;
  details_serial_num := λ d : N, d;
  details_new := λ _ serial _ _, serial;
  details_of := λ n : N, n;
  MerklePath := unit;
  BlockNoteIndex := bool * bool;
  batch_idx := λ i, index_of i.1;
  note_idx_in_batch := λ i, index_of i.2;
  output_note_is_partial := λ _, false;
  output_note_metadata := λ n : N, mk_metadata (n / 100)%N (N.odd n) ((n / 10) mod 10 =? 9)%N;
  note_index_new := λ a b, Some ((a =? 1)%N, (b =? 1)%N);
  leaf_index_value := λ i, (2 * index_of i.1 + index_of i.2)%N;
  nullifier_prefix := λ n : N, (n mod 2 ^ 16)%N;
  ProvenBlock := Block;
  Bytes := Block;
  block_bytes := λ b, b;
  block_header := c_num;
  block_commitment := λ b, (c_num b + 1)%N;
  block_updated_accounts := c_updates;
  block_created_nullifiers := c_spent;
  block_transactions := c_txs;
  transactions_commitment := λ _, 0%N;
  block_output_notes := c_notes;
  block_note_root := λ _, 0%N;
  block_note_path := λ _ _, tt;
|}.

#[global] Instance store_laws : @StoreLaws objects ntx_objects store_objects.
Proof.
  split; cbn; try done.
  - by intros [].
  - by intros [].
  - intros [s l b]. cbn. by destruct l.
  - intros t. by destruct (t =? 0)%N.
  - intros [s l b]. cbn. by destruct b.
  - intros n. apply N.ltb_lt.
  - intros [s l b]. cbn. by destruct l, b.
  - intros [a b]. by destruct a, b.
  - intros [a b]. by destruct a, b.
  - intros n. by apply N.mod_lt.
Defined.

#[global] Instance store_trees : @StoreTrees objects ntx_objects store_objects := {|
  NullifierTree := gmap N N;
  NullifierMutation := list (N * N);
  SmtProof := option N;
  nt_root := λ _, 0%N;
  nt_get_block_num := λ (t : gmap N N) n, t !! n;
  nt_compute_mutations := λ (t : gmap N N) l,
    if decide (Forall (λ n, t !! n = None) l.*1) then Some l else None;
  nt_apply_mutations := λ (t : gmap N N) m, Some (list_to_map m ∪ t);
  nm_root := λ _, 0%N;
  nt_with_entries := λ l, Some (list_to_map l);
  nt_open := λ (t : gmap N N) n, t !! n;
  AccountTree := gmap N N;
  AccountMutation := list (N * N);
  AccountWitness := option N;
  at_root := λ _, 0%N;
  at_get := λ (t : gmap N N) id, default 0%N (t !! id);
  at_compute_mutations := λ _ l, Some l;
  at_apply_mutations := λ (t : gmap N N) m, Some (list_to_map m ∪ t);
  am_root := λ _, 0%N;
  at_with_entries := λ l, Some (list_to_map l);
  at_open := λ (t : gmap N N) id, t !! id;
  Blockchain := list N;
  MmrProof := N;
  MmrPeaks := N;
  MmrDelta := N * N;
  PartialMmr := gset N;
  PartialBlockchain := list N;
  chain_of := λ l, l;
  chain_tip := λ c, match length c with 0 => None | S n => Some (N.of_nat n) end;
  chain_push := λ c d, c ++ [d];
  chain_peaks_hash := λ _, 0%N;
  chain_peaks_at := λ _ b, Some b;
  chain_open := λ c b, c !! N.to_nat b;
  chain_partial_mmr := λ _ blocks _, Some blocks;
  chain_delta := λ _ a b, Some (a, b);
  mmr_delta_empty := λ b, (b, b);
  partial_blockchain_new := λ _ headers, Some headers;
|}.

#[global] Instance tree_laws : TreeLaws.
Proof.
  refine {|
    nt_entries := λ t : NullifierTree, t : gmap N N;
    id_slot := λ id : AccountId, id : N;
    at_ids := λ t : AccountTree, dom (t : gmap N N);
    chain_commitments := λ c : Blockchain, c : list N;
  |}; try (cbn; done).
  - cbn. intros t l m. case_decide as Hall; [|done]. intros _ n Hn. exact (proj1 (Forall_forall _ _) Hall n Hn).
  - cbn. intros t l m. case_decide; [|done]. intros [= <-] _ _. eauto.
  - cbn. eauto.
  - cbn. intros t l m [= <-] _ _. eexists. split; [done|]. split.
    + rewrite dom_union_L. f_equal. apply dom_list_to_map_L.
    + split; [done|]. intros id. rewrite lookup_union. by destruct (list_to_map l !! id), (t !! id).
  - cbn. intros l _ _ _. eexists. split; [done|]. split; [apply dom_list_to_map_L|done].
  - cbn. intros c b Hb. by apply lookup_lt_is_Some_2.
Defined.

End StoreConcrete.

(** ** Concrete runs of the store

    The theorems about the store at concrete states, and blocks on which it does not
    do what it is meant to. *)

Import Concrete.
Import StoreConcrete.
Import Sql.
Import StoreState.
Import Queries.

Module StoreRun.

Abbreviation SM := (M State ApplyBlockError).

(** A store that holds the genesis block only. *)
Definition genesis : State :=
  mk_state (over_block_headers (λ _, {[0%N := 0%N]}) empty_tables) ∅ [] (mk_inner ∅ [1%N] ∅) false.

(** Account 2 is created with two notes, 200 for the network and 203 not; then it
    changes, consuming note 200. *)
Definition block1 : Block :=
  mk_block 1 [mk_update 2 30 (New (2, 30)%N)] [] [(70, 2)%N] [(false, false, 200%N); (false, true, 203%N)].
Definition block2 : Block := mk_block 2 [mk_update 2 31 (Delta (2, 31)%N)] [200%N] [(71, 2)%N] [].

Definition apply (block : Block) (s : State) : State := ((apply_block no_faults block : SM unit) s).1.

Definition s1 : State := apply block1 genesis.
Definition s2 : State := apply block2 s1.

Lemma consistent_genesis : consistent genesis.
Proof.
  split.
  - split.
    + intros bn h Hh. change (({[0%N := 0%N]} : gmap N N) !! bn = Some h) in Hh.
      by apply lookup_singleton_Some in Hh as [<- <-].
    + exists 0%N. intros bn. change (is_Some (({[0%N := 0%N]} : gmap N N) !! bn) ↔ (bn ≤ 0)%N).
      rewrite lookup_singleton_is_Some. lia.
    + intros root sc Hs. done.
    + constructor.
    + constructor.
    + intros n p bn Hn. done.
    + intros id row Hr. done.
    + intros tx id bn Ht. done.
  - split; vm_compute; reflexivity.
Defined.

Lemma block1_ok : block_ok block1.
Proof. split; [apply NoDup_singleton|]. by repeat constructor. Defined.

Lemma block2_ok : block_ok block2.
Proof. split; [apply NoDup_singleton|]. by repeat constructor. Defined.

Definition is_ok {E A} (r : res E A) : bool := match r with Ok _ => true | _ => false end.

Lemma run_is_ok {S E} (m : M S E unit) s : is_ok (m s).2 = true → m s = ((m s).1, Ok tt).
Proof. destruct (m s) as [s' [[]|e|p|]]; [done|discriminate..]. Defined.

Lemma applies1 : (apply_block no_faults block1 : SM unit) genesis = (s1, Ok tt).
Proof. unfold s1, apply. apply run_is_ok. vm_compute. reflexivity. Defined.

Lemma applies2 : (apply_block no_faults block2 : SM unit) s1 = (s2, Ok tt).
Proof. unfold s2, apply. apply run_is_ok. vm_compute. reflexivity. Defined.

Lemma consistent_s1 : consistent s1.
Proof.
  apply (consistent_applied genesis block1 s1 consistent_genesis block1_ok).
  exact (proj1 (wp_run_ok _ _ _ _ _ _ (wp_apply_block no_faults block1 _ consistent_genesis block1_ok) applies1)).
Defined.

Lemma consistent_s2 : consistent s2.
Proof.
  apply (consistent_applied s1 block2 s2 consistent_s1 block2_ok).
  exact (proj1 (wp_run_ok _ _ _ _ _ _ (wp_apply_block no_faults block2 _ consistent_s1 block2_ok) applies2)).
Defined.

(** ** Witnesses *)

Lemma store_apply_block_witness :
  match (apply_block no_faults block2 : SM unit) s1 with
  | (s', Ok _) => nt_get_block_num (nullifier_tree (inner s')) 200%N = Some 2%N
  | _ => False
  end.
Proof.
  pose proof (store_apply_block s1 no_faults block2 consistent_s1 block2_ok) as Hx. rewrite applies2 in Hx |- *.
  destruct Hx as (_ & _ & _ & _ & Hn & _). rewrite Hn. vm_compute. reflexivity.
Defined.

Lemma store_reload_witness : ∃ s', load ∅ (db s2) = (db s2, Ok s') ∧ consistent s'.
Proof. destruct (store_reload s2 ∅ consistent_s2) as (s' & Hl & Hc & _). exists s'. exact (conj Hl Hc). Defined.

Lemma history_run : history genesis [block1; block2] s2.
Proof.
  apply (history_applied genesis s1 s2 no_faults block1 [block2] block1_ok applies1).
  apply (history_applied s1 s2 s2 no_faults block2 [] block2_ok applies2). constructor.
Defined.

Lemma store_history_witness : linked 0 1%N [block1; block2].
Proof.
  destruct (store_history genesis [block1; block2] s2 0 (0%N : N) consistent_genesis history_run) as (_ & Hl & _).
  - destruct consistent_genesis as [Hok _]. intros bn.
    change (is_Some (({[0%N := 0%N]} : gmap N N) !! bn) ↔ (bn ≤ 0)%N). rewrite lookup_singleton_is_Some. lia.
  - reflexivity.
  - exact Hl.
Defined.

(** A note record of block 1. *)
Definition record203 : NoteRecord := (entry_of block1 (false, true, 203%N)).1.

Lemma stored203 : script_stored (db s1) record203.
Proof. intros d Hd. vm_compute in Hd. injection Hd as <-. vm_compute. reflexivity. Defined.

Lemma store_note_roundtrip_witness :
  Read.note_from_row (Write.consume [] (Write.row_of_note record203 (Some 203%N))) (db s1) = (db s1, Ok record203).
Proof. exact (store_note_roundtrip (db s1) record203 (Some 203%N) [] stored203). Defined.

Lemma readable_s1 : Forall readable (notes (db s1)).
Proof.
  assert (forallb (λ row, (0 <=? nr_aux row)%Z) (notes (db s1)) = true) as Hall by (vm_compute; reflexivity).
  apply Forall_forall. intros row Hrow. apply Z.leb_le. rewrite forallb_forall in Hall. apply Hall.
  by apply list_elem_of_In.
Defined.

(** The genesis block, block 1 and a failing block 2 keep the tables typed, so that
    the notes of block 1 read back. *)
Lemma store_schema_witness :
  schema_ok (db genesis) ∧ schema_ok (db s1) ∧
  schema_ok (db (apply_block (mk_faults None None None (Some ClosedChannel)) block2 s1).1) ∧
  ∀ row, row ∈ notes (db s1) → ∃ r, Read.note_from_row row (db s1) = (db s1, Ok r).
Proof.
  destruct (@store_schema objects ntx_objects store_objects store_trees laws store_laws) as (Hempty & Hwrite & Happly & Hread).
  assert (schema_ok (db genesis)) as Hg.
  { apply (Hwrite empty_tables (db genesis) (0%N : N) [] [] [] [] Hempty). reflexivity. }
  assert (schema_ok (db s1)) as H1 by exact (Happly genesis no_faults block1 Hg).
  split; [exact Hg|]. split; [exact H1|]. split; [exact (Happly s1 _ block2 H1)|].
  intros row Hrow. destruct (Hread _ row H1 Hrow) as (r & n & ns & Heq & Hr). exists r. rewrite Hr.
  assert (readable row) as Haux by exact (proj1 (Forall_forall _ _) readable_s1 row Hrow).
  rewrite Heq in Haux. apply readable_aux_spec in Haux. unfold readable_aux in Haux. rewrite Haux. reflexivity.
Defined.

Lemma store_pages_witness : ∃ recs, length recs = 1 ∧ fetch_pages Some 2 1 None [] s1 = (s1, Ok recs).
Proof.
  destruct (store_pages Some 1 s1 (Nat.lt_0_succ 0) (con_tables _ consistent_s1)) as [(recs & Hrecs & Hf)|[_ [e Hf]]].
  - exists recs. split; [|exact Hf]. rewrite <- (Forall2_length _ _ _ Hrecs). vm_compute. reflexivity.
  - exfalso. assert (is_ok (fetch_pages Some 2 1 None [] s1).2 = true) as Hok by (vm_compute; reflexivity).
    change (fetch_pages Some 2 1 None [] s1 = (s1, Err (QueryDatabaseError e))) in Hf. by rewrite Hf in Hok.
Defined.

Lemma store_sync_notes_witness : ∃ update proof, sync_notes 0 [1%N] s1 = (s1, Ok (update, proof)).
Proof.
  destruct (store_sync_notes s1 0 [1%N] consistent_s1 readable_s1) as (u & p & Hs & _).
  - vm_compute. lia.
  - exists u, p. exact Hs.
Defined.

(** The inputs of a block that consumes the private note 203. *)
Definition asked_ids : list (@AccountId objects) := [2%N].
Definition asked_nullifiers : list (@Nullifier objects) := [200%N].
Definition asked_notes : gset (@NoteId objects) := {[203%N]}.
Definition asked_blocks : gset N := {[0%N]}.

Definition ask : M State QueryError BlockInputs :=
  get_block_inputs asked_ids asked_nullifiers asked_notes asked_blocks.

Lemma ask_ok : is_ok (ask s2).2 = true.
Proof. vm_compute. reflexivity. Defined.

Lemma store_block_inputs_witness :
  ∃ inputs, ask s2 = (s2, Ok inputs) ∧ proofs_of (db s2) asked_notes (unauthenticated_note_proofs inputs).
Proof.
  pose proof (store_block_inputs s2 asked_ids asked_nullifiers asked_notes asked_blocks consistent_s2) as Hx.
  fold ask in Hx. pose proof ask_ok as Hok. destruct (ask s2) as [s' [inputs|e|p|]]; [|discriminate..].
  destruct Hx as (-> & _ & Hp & _). exists inputs. exact (conj eq_refl Hp).
Defined.

(** A block that spends 1001 nullifiers. *)
Definition big_block : Block := mk_block 2 [] (N.of_nat <$> seq 1000 1001) [] [].

Lemma store_nullifier_limit_witness :
  ∃ s' e, (apply_block no_faults big_block : SM unit) s1 = (s', Err e) ∧ db s' = db s1 ∧ inner s' = inner s1.
Proof.
  apply (store_nullifier_limit s1 no_faults big_block consistent_s1).
  - split; constructor.
  - apply Nat.ltb_lt. vm_compute. reflexivity.
Defined.

(** ** What the store does not do *)

Definition ok_value {E A} (r : res E A) : option A := match r with Ok a => Some a | _ => None end.

(** A block with one public network note whose [aux] value is 2^63. *)
Definition aux_block : Block := mk_block 1 [mk_update 2 30 (New (2, 30)%N)] [] [] [(false, false, 290%N)].

(** One accepted note can stop the readers of the store. A block with a network
    note whose [aux] field is 2^63 is applied; from then on a note synchronisation
    for its tag fails, and so does the query for unconsumed network notes with which
    the transaction builder starts. *)
Theorem store_aux_blocks_readers :
  is_ok ((apply_block no_faults aux_block : SM unit) genesis).2 = true ∧
  is_ok (sync_notes 0 [0%N] (apply aux_block genesis)).2 = false ∧
  is_ok (fetch_pages Some 10 network_notes_page_size None [] (apply aux_block genesis)).2 = false.
Proof. split; [|split]; vm_compute; reflexivity. Qed.

(** Two candidates for block 3, of which the first spends a spent nullifier. *)
Definition bad3 : Block := mk_block 3 [] [200%N] [] [].
Definition good3 : Block := mk_block 3 [] [] [] [].

(** The file of a committed block can be lost. The save of a block is spawned
    before the block is validated, and is not awaited when validation fails. If it
    runs after the save of the block that was then accepted in its place, the store
    serves the rejected block's data for that number. *)
Theorem store_detached_save :
  is_ok ((apply_block no_faults bad3 : SM unit) s2).2 = false ∧
  is_ok ((apply_block no_faults good3 : SM unit) (apply bad3 s2)).2 = true ∧
  ok_value (load_block 3 (apply good3 (apply bad3 s2))).2 = Some (Some good3) ∧
  ok_value (load_block 3 (run_save 0 (apply good3 (apply bad3 s2))).1).2 = Some (Some bad3).
Proof. split; [|split; [|split]]; vm_compute; reflexivity. Qed.

End StoreRun.
