(* ===== verification/NtxExamples.v ===== *)
(** * Concrete runs of the network transaction builder and of its transactions

    The theorems of [NtxTheorems.v] at concrete inputs, and event streams that the
    mempool may send and on which the state panics. *)

From S2P Require Import Prelude.
From S2P Require Import External.
From S2P Require Import Subscription.
From S2P Require Import NtxAccount.
From S2P Require Import NtxState.
From S2P Require Import NtxTheorems.
From S2P Require Import NtxInv.
From S2P Require Import NtxOps.
From S2P Require Import NtxEvents.
From S2P Require Import NtxBuilder.
From S2P Require Import Concrete.
From S2P Require Import Bytes.
From S2P Require Import StoreObjects.
From S2P Require Import StoreApi.
From S2P Require Import NtxTransaction.
From S2P Require Import StoreExamples.

Import Concrete.
Import NtxState.

Module NtxRun.

Abbreviation NM := (M State (NtxError (StoreError := string))).

(** The store knows the accounts 2 and 4, and not account 6. *)
Definition store : Store (StoreError := string) := λ p,
  inr (if decide ((p : N) = 2%N ∨ (p : N) = 4%N) then Some (((p : N), 0%N) : Account) else None).

(** The note [n] is addressed to account [n / 10]. *)
Definition network (n : N) : NetworkNote := mk_network_note (n : Note).

(** Transaction [id] consumes [nullifiers] and creates [created]. *)
Definition added (id : N) (nullifiers created : list N) (details : option AccountUpdateDetails) : MempoolEvent :=
  TransactionAdded (id : TransactionId) nullifiers (network <$> created) details.

Definition reverted (ids : list N) : MempoolEvent := TransactionsReverted (list_to_set ids : gset TransactionId).

Definition run_events (l : list MempoolEvent) : NM unit := for_each l (mempool_update store).

Definition outcome (l : list MempoolEvent) : res (NtxError (StoreError := string)) unit :=
  (run_events l empty_state).2.

(** ** The panics of the state *)

(** A revert can panic. A transaction creates a network note and a second one
    consumes it, and the mempool reverts both. The reverted ids are visited in id
    order, so if the creating transaction has the smaller id then its revert drops
    the note from the index, which the revert of the consumer then unwraps. With the
    ids the other way round the same revert leaves no transaction inflight. *)
Theorem ntx_revert_order_panics :
  outcome [added 1 [] [20%N] None; added 2 [20%N] [] None; reverted [1%N; 2%N]] =
    Panic "called `Option::unwrap()` on a `None` value" ∧
  outcome [added 2 [] [20%N] None; added 1 [20%N] [] None; reverted [1%N; 2%N]] = Ok tt.
Proof. split; vm_compute; reflexivity. Qed.

(** Reverting the creation of an account leaves its prefix in the queue, and the
    next selection panics on it. *)
Theorem ntx_reverted_account_panics :
  ((_ ← run_events [added 1 [] [] (Some (New ((6%N, 0%N) : Account))); reverted [1%N]];
    select_candidate 50) empty_state).2 = Panic "queue account must be tracked".
Proof. vm_compute. reflexivity. Qed.

(** A note sent to an account that does not exist yet is indexed but not kept.
    Once the account is created, consuming the note panics; a note sent after the
    creation is consumed without one. *)
Theorem ntx_early_note_panics :
  outcome [added 1 [] [60%N] None; added 2 [] [] (Some (New ((6%N, 0%N) : Account))); added 3 [60%N] [] None] =
    Panic "note must be available to nullify" ∧
  outcome [added 2 [] [] (Some (New ((6%N, 0%N) : Account))); added 1 [] [60%N] None; added 3 [60%N] [] None] = Ok tt.
Proof. split; vm_compute; reflexivity. Qed.

(** ** Witnesses *)

(** Account 4 is being worked on; account 2 has a note. *)
Definition s1 : State :=
  over_in_progress (λ _, {[ (4%N : NetworkAccountPrefix) ]})
    (run_events [added 1 [] [40%N] None; added 2 [] [20%N] None] empty_state).1.

Lemma tracked_s1 : tracked s1.
Proof.
  split.
  - vm_compute. repeat constructor; set_solver.
  - intros p. rewrite <- elem_of_dom, <- (elem_of_list_to_set (C := gset NetworkAccountPrefix)).
    assert (dom (accounts s1) = list_to_set (queue s1)) as Heq.
    { apply (bool_decide_unpack _). vm_compute. exact I. }
    by rewrite Heq.
  - intros p a Ha. left. assert (map_Forall (λ _ x, NtxAccount.committed x ≠ None) (accounts s1)) as Hall.
    { apply (bool_decide_unpack _). vm_compute. exact I. }
    exact (Hall p a Ha).
Defined.

Lemma ntx_select_candidate_witness :
  match (select_candidate 50 : NM _) s1 with
  | (s', Ok (Some c)) => tracked s' ∧ chosen s1 50 s' c ∧ candidate_notes c ≠ []
  | (s', Ok None) => tracked s' ∧ (∀ p, ¬ selectable s1 p) ∧ in_progress s' = in_progress s1
  | _ => False
  end.
Proof. apply (ntx_select_candidate s1 50); [apply tracked_s1|lia]. Defined.

Definition delta25 : @AccountDelta _ ntx_objects := (2%N, 5%N).
Definition nullifier20 : @Nullifier objects := 20%N.
Definition committed2 : @Account _ ntx_objects := (2%N, 0%N).

(** Account 2, with one note. *)
Definition account2 : NtxAccount.AccountState :=
  NtxAccount.mk_account (Some committed2) [] {[ nullifier20 := network 20 ]} ∅.

Lemma ntx_account_undo_witness :
  (_ ← NtxAccount.add_delta delta25; NtxAccount.revert_delta : M _ Empty_set _) account2 =
    (account2, Ok false).
Proof.
  apply (ntx_account_undo account2 delta25 nullifier20 (network 20)).
  - left. discriminate.
  - discriminate.
  - reflexivity.
  - reflexivity.
Defined.

(** ** A run of the loop *)

#[global] Instance ntx_laws : NtxLaws.
Proof. intros x d y [= <-]. reflexivity. Defined.

Lemma run_store_ok : store_ok store.
Proof.
  intros p x. unfold store. case_decide as Hp; [|discriminate]. intros [= <-].
  destruct Hp as [-> | ->]; split; reflexivity.
Defined.

Abbreviation BuilderRun := (M NtxBuilder.Builder (NtxBuilder.ServeError (StoreError := string) (StreamError := unit))).

Definition do (b : NtxBuilder.Builder) (branch : NtxBuilder.Branch (TxError := unit)) : NtxBuilder.Builder :=
  ((NtxBuilder.turn branch : BuilderRun unit) b).1.

Definition note_added : MempoolEvent := added 1 [] [40%N] None.

(** The store has a note for account 2; a transaction adds one for account 4. *)
Definition loaded : State := ((load store (inr [network 20]) : NM unit) empty_state).1.
Definition builder0 := NtxBuilder.started loaded.
Definition builder1 := do builder0 (NtxBuilder.Event store (Some (inr note_added))).
Definition builder2 := do builder1 (NtxBuilder.Tick 7).

Lemma note_added_admissible : admissible_event store loaded note_added.
Proof.
  intros _. split.
  - discriminate.
  - repeat constructor; set_solver.
  - intros note [->|[]%not_elem_of_nil]%elem_of_cons. reflexivity.
  - constructor.
  - intros n []%not_elem_of_nil.
  - intros n []%not_elem_of_nil.
Defined.

Abbreviation run := (run (StoreError := string) (StreamError := unit) (TxError := unit)).

Definition awaiting1 : gset NetworkAccountPrefix := in_progress (NtxBuilder.state builder1) ∩ (∅ ∪ ∅).
Definition awaiting2 : gset NetworkAccountPrefix := in_progress (NtxBuilder.state builder2) ∩ (awaiting1 ∪ ∅).

(** The outcome of a run tells it from the state that it leaves. *)
Lemma outcome_split {T E A} (m : M T E A) s r : (m s).2 = r → m s = ((m s).1, r).
Proof. intros <-. by destruct (m s). Defined.

Lemma run_builder2 : run builder2 awaiting2.
Proof.
  apply (run_turn builder1 awaiting1 (NtxBuilder.Tick 7)).
  - apply (run_turn builder0 ∅ (NtxBuilder.Event store (Some (inr note_added)))).
    + apply (run_start store (inr [network 20])); [exact run_store_ok|]. apply outcome_split. vm_compute. reflexivity.
    + exact I.
    + split; [exact run_store_ok|exact note_added_admissible].
    + apply outcome_split. vm_compute. reflexivity.
  - vm_compute. reflexivity.
  - exact I.
  - apply outcome_split. vm_compute. reflexivity.
Defined.

Definition panicked : NtxBuilder.Branch (StoreError := string) (StreamError := unit) (TxError := unit) :=
  NtxBuilder.Completed 7 NtxBuilder.JoinError.

(** The task for the selected account panics: its lock is released. *)
Lemma ntx_builder_never_panics_witness :
  size (NtxBuilder.inflight builder2) = 1 ∧ elements (in_progress (NtxBuilder.state builder2)) = [2%N] ∧
  elements (in_progress (NtxBuilder.state (do builder2 panicked))) = [] ∧
  match (NtxBuilder.turn panicked : BuilderRun unit) builder2 with
  | (b', Ok _) => turn_locks builder2 panicked b'
  | (_, Err e) => turn_error panicked e
  | _ => False
  end.
Proof.
  split; [vm_compute; reflexivity|]. split; [vm_compute; reflexivity|]. split; [vm_compute; reflexivity|].
  refine (proj2 (proj2 (ntx_builder_never_panics builder2 awaiting2 panicked run_builder2 _ I))).
  vm_compute. eauto.
Defined.

End NtxRun.

(** ** A concrete execution of a network transaction

    An instance of the interface of [NtxTransaction.v] with its laws: a transaction
    fails if it consumes an odd note, and its proof lists its notes. *)

Import Concrete.
Import NtxState.
Import NtxTransaction.

Module NtxTxRun.

Definition number (note : InputNote) : N := let '(Unauthenticated note) := note in note.

Definition even_notes (l : list InputNote) : list N := filter (λ n, N.even n = true) (number <$> l).

#[global] Instance tx_objects : @TxObjects objects ntx_objects StoreConcrete.store_objects := {|
  input_note_id := λ n, (n : N);
  TransactionInputError := unit;
  TransactionExecutorError := unit;
  TransactionProverError := unit;
  ExecutedTransaction := N * list N;
  PartialBlockchain := unit;
  partial_blockchain_default := tt;
  ptx_to_bytes := λ t, StoreConcrete.mk_block (c_account t) [] (c_nullifiers t) [] [];
  input_notes_new := λ l, if decide (NoDup (number <$> l)) then inr l else inl tt;
  check_notes_consumability := λ _ _ _ l,
    if decide (NoDup (number <$> l)) then
      if decide (even_notes l = (number <$> l)) then inr Success else inr (Failure (even_notes l) None)
    else inl tt;
  executor_execute_transaction := λ read id bn l,
    match read id {[ bn ]} with inr _ => inr (id, number <$> l) | inl _ => inl tt end;
  local_prove := λ '(id, l), inr (mk_tx id 0 1 l [] [] 100);
|}.

#[global] Instance tx_laws : TxLaws.
Proof.
  split.
  - intros l l'. cbn. case_decide; [by intros [= <-]|done].
  - intros ds id bn l ids e. cbn. case_decide as Hnd; [|done]. case_decide; [done|]. intros [= <- <-].
    unfold even_notes. split; [by apply NoDup_filter|]. intros i [_ Hi]%list_elem_of_filter. exact Hi.
Defined.

Definition network (n : N) : NetworkNote := mk_network_note (n : Note).

(** Account 2, with the notes 20, 21 and 22. *)
Definition candidate : TransactionCandidate := mk_candidate (2%N, 0%N) (network <$> [20%N; 21%N; 22%N]).

(** The block producer accepts everything. *)
Definition accepting (_ : Bytes) : M nat Status unit := λ n, (S n, Ok tt).

Definition context : NtxContext nat := mk_context accepting None 0%N.

(** The odd note is left out, and one transaction with the other two is submitted. *)
Lemma ntx_execute_transaction_witness :
  (execute_transaction context (λ l, l) candidate 0).1 = 1 ∧
  passes (mk_data_store (2%N, 0%N) 0%N) (candidate_inputs candidate) (Unauthenticated <$> [20%N; 22%N]) ∧
  ((∃ notes executed proven,
    notes ≠ [] ∧ notes ⊆+ candidate_inputs candidate ∧
    passes (mk_data_store (2%N, 0%N) 0%N) (candidate_inputs candidate) notes ∧
    executor_execute_transaction (get_transaction_inputs (mk_data_store (2%N, 0%N) 0%N)) 2%N 0%N notes = inr executed ∧
    local_prove executed = inr proven ∧
    execute_transaction context (λ l, l) candidate 0 = submission context proven 0) ∨
   ∃ e, execute_transaction context (λ l, l) candidate 0 = (0, Err e)).
Proof.
  split; [vm_compute; reflexivity|]. split; [split; [reflexivity|]|].
  - apply submseteq_skip, submseteq_cons, submseteq_skip. constructor.
  - destruct (proj2 (ntx_execute_transaction context (λ l, l) candidate 0 (λ l, reflexivity l))) as [Hok|(e & He & _)].
    + left. exact Hok.
    + right. exists e. exact He.
Defined.

End NtxTxRun.
