(* ===== verification/ProducerExamples.v ===== *)
(** * A concrete run of the block producer

    A transaction is submitted, batched, proven, and its block applied to the store
    and committed; the theorems of [ProducerTheorems.v] and [ProducerSpends.v] apply
    to the run. Three more
    runs leave the assumptions of the system: one in which a dropped batch is
    selected again while its first job still runs, one in which the store's
    answer is lost, and one in which the store answers in the middle of a block. *)

From Stdlib Require Import QArith_base.
From S2P Require Import Prelude.
From S2P Require Import Graph.
From S2P Require Import External.
From S2P Require Import NtxAccount.
From S2P Require Import StoreObjects.
From S2P Require Import StoreSql.
From S2P Require Import StoreTrees.
From S2P Require Import StoreState.
From S2P Require Import StoreApply.
From S2P Require Import Transaction.
From S2P Require Import InflightState.
From S2P Require Import Subscription.
From S2P Require Import BatchGraph.
From S2P Require Import Mempool.
From S2P Require Import MempoolOps.
From S2P Require Import MempoolTheorems.
From S2P Require Import Producer.
From S2P Require Import ProducerTheorems.
From S2P Require Import ProducerSpends.
From S2P Require Import Concrete.
From S2P Require Import StoreExamples.
Import Concrete.
Import StoreConcrete.
Import Producer.

Module ProducerRun.

(** Account 1 in two transactions. *)
Definition tx1 : Tx := mk_tx 1 0 10 [100%N] [200%N] [] 50.
Definition tx2 : Tx := mk_tx 1 10 11 [101%N] [201%N] [200%N] 50.

(** Another account spends what [tx1] spends. *)
Definition tx3 : Tx := mk_tx 2 0 20 [100%N] [202%N] [] 50.

Definition ids_of (txs : list Tx) : list (N * N) := (λ t, (c_id t, c_account t)) <$> txs.

Definition read_request (b : Block) : option Tx :=
  if (c_num b =? 1)%N then Some tx1 else if (c_num b =? 2)%N then Some tx2 else if (c_num b =? 3)%N then Some tx3 else None.

(** The nullifiers of a transaction and of a batch, read from their ids. *)
Definition spent_by_tx (id : N) : list N :=
  match id with
  | Npos p => match decode p : option (N * N * N * list N * list N) with Some (_, ns, _) => ns | None => [] end
  | N0 => []
  end.

Definition spent_by_batch (id : N) : list N :=
  match id with
  | Npos p => match decode p : option (list (N * N)) with Some l => concat (spent_by_tx <$> l.*1) | None => [] end
  | N0 => []
  end.

Lemma elem_of_spent_by_batch (txs : list Tx) n :
  n ∈ spent_by_batch (c_batch_id (ids_of txs)) → ∃ tx, tx ∈ txs ∧ n ∈ c_nullifiers tx.
Proof.
  unfold spent_by_batch, c_batch_id. rewrite decode_encode. unfold ids_of. rewrite <- list_fmap_compose.
  intros (l & Hl & Hn)%list_elem_of_In%in_concat. apply list_elem_of_In, list_elem_of_fmap in Hl as (id & -> & Hid).
  apply list_elem_of_fmap in Hid as (tx & -> & Htx). exists tx. split; [done|]. apply list_elem_of_In in Hn.
  unfold spent_by_tx in Hn. cbn in Hn. unfold c_id in Hn. by rewrite decode_encode in Hn.
Defined.

(** Batch inputs are empty, block inputs are the store's chain tip. A request is a
    block with the number of a transaction. *)
#[global] Instance producer_objects : @ProducerObjects objects ntx_objects store_objects := {|
  ptx_read_from_bytes := read_request;
  BatchInputs := unit;
  ProposedBatch := list Tx;
  ProposedBatchError := unit;
  ProvenBatchError := unit;
  proposed_batch_new := λ (txs : list Tx) _, inr txs;
  proposed_batch_id := λ txs, c_batch_id (ids_of txs);
  batch_security_level := λ _, 96%N;
  MIN_PROOF_SECURITY_LEVEL := 96%N;
  batch_unauthenticated_notes := λ _, [];
  batch_reference_block_num := λ _, 0%N;
  batch_updated_accounts := λ _, [];
  batch_created_nullifiers := spent_by_batch;
  BlockInputs := N;
  ProposedBlock := N * list N;
  ProposedBlockError := unit;
  ProvenBlockError := unit;
  proposed_block_new := λ tip batches, inr ((tip + 1)%N, concat (spent_by_batch <$> batches));
  block_security_level := λ _, 96%N;
  StoreError := unit;
  RemoteProverClientError := unit;
|}.

#[global] Instance producer_laws : @ProducerLaws objects ntx_objects store_objects producer_objects.
Proof. split. intros txs inputs p [= <-]. reflexivity. Defined.

Definition ok_batch : BatchBuilder.BatchEnv := {|
  BatchBuilder.get_inputs := λ _ _, inr tt;
  BatchBuilder.prove_local := λ p : list Tx, Some (inr (c_batch_id (ids_of p)));
  BatchBuilder.prove_remote := λ p : list Tx, inr (c_batch_id (ids_of p));
  BatchBuilder.dice_roll := 1 # 2;
|}.

(** The proving task panics. *)
Definition bad_batch : BatchBuilder.BatchEnv := {|
  BatchBuilder.get_inputs := λ _ _, inr tt;
  BatchBuilder.prove_local := λ _, None;
  BatchBuilder.prove_remote := λ _, inl tt;
  BatchBuilder.dice_roll := 1 # 2;
|}.

Definition block_env (tip : N) (lost : bool) : BlockBuilder.BlockEnv := {|
  BlockBuilder.get_inputs := λ _ _ _ _, inr tip;
  BlockBuilder.prove_local := λ p : N * list N, inr (mk_block p.1 [] p.2 [] []);
  BlockBuilder.prove_remote := λ p : N * list N, inr (mk_block p.1 [] p.2 [] []);
  BlockBuilder.dice_roll := 1 # 2;
  BlockBuilder.answer_lost := lost;
|}.

Definition request (n : N) : Block := mk_block n [] [] [] [].

Definition answer (tx : Tx) : option TransactionInputs :=
  Some (mk_transaction_inputs (c_account tx) None ∅ ∅ 0).

Definition submit (n : N) : Event := SubmitProvenTransaction answer (request n).

Definition next (ev : Event) (w : World) : World := match exec ev w with Some (w', _) => w' | None => w end.

Definition result (ev : Event) (w : World) : option outcome := snd <$> exec ev w.

Fixpoint results (evs : list Event) (w : World) : list (option outcome) :=
  match evs with [] => [] | ev :: evs => result ev w :: results evs (next ev w) end.

Definition after (evs : list Event) (w : World) : World := foldl (λ w ev, next ev w) w evs.

Definition w0 : World := serve StoreRun.genesis 0 1 2 None None.
Definition w1 : World := after [submit 1; BatchTick 0] w0.
Definition w2 : World := after [BatchSelect 1] w1.
Definition w3 : World := after [BatchReturn 1 ok_batch; BlockSelect] w2.
Definition w4 : World := after [BlockBuild (block_env 0 false) StoreState.no_faults] w3.
Definition w5 : World := after [BlockReturn] w4.

Lemma results_run :
  results [submit 1; BatchTick 0; BatchSelect 1; BatchReturn 1 ok_batch; BlockSelect;
    BlockBuild (block_env 0 false) StoreState.no_faults; BlockReturn] w0 = replicate 7 (Some Returned).
Proof. vm_compute. reflexivity. Defined.

(** An event that can happen leads to a state of the system. *)
Lemma runs_next w ev :
  runs_honestly w → admissible_event w ev → honest_event w ev →
  match result ev w with Some _ => true | None => false end = true → runs_honestly (next ev w).
Proof.
  intros Hw Ha Hh Hr. unfold next, result in *. destruct (exec ev w) as [[w' o]|] eqn:He; [|done].
  by apply (honest_exec w ev w' o).
Defined.

Lemma runs_w0 : runs_honestly w0.
Proof.
  apply (honest_serve StoreRun.genesis 0); [apply StoreRun.consistent_genesis|].
  intros bn. change (is_Some (({[0%N := 0%N]} : gmap N N) !! bn) ↔ (bn ≤ 0)%N).
  rewrite lookup_singleton_is_Some. lia.
Defined.

Lemma no_delta_submit w n :
  (∀ t, InflightState.transaction_deltas (Mempool.state (mempool w)) !! t = None) → admissible_event w (submit n).
Proof. intros Hd tx _. left. apply Hd. Defined.

(** Nothing is spent yet that the answer could hide. *)
Lemma nothing_spent_honest w n : Sql.nullifiers (StoreState.db (store w)) = ∅ → honest_event w (submit n).
Proof. intros Hd tx inputs m bn _ _ [p Hp]. by rewrite Hd, lookup_empty in Hp. Defined.

Lemma runs_w1 : runs_honestly w1.
Proof.
  apply (runs_next (next (submit 1) w0) (BatchTick 0)); [|exact I|exact I|vm_compute; reflexivity].
  apply runs_next; [apply runs_w0|apply no_delta_submit; intros t; reflexivity|
    apply nothing_spent_honest; reflexivity|vm_compute; reflexivity].
Defined.

Lemma runs_w2 : runs_honestly w2.
Proof.
  apply (runs_next w1 (BatchSelect 1)); [apply runs_w1| |exact I|vm_compute; reflexivity].
  intros m id txs _ Hin. assert (building w1 = []) as Hno by (vm_compute; reflexivity).
  rewrite Hno in Hin. by apply elem_of_nil in Hin.
Defined.

Lemma ok_batch_admissible w i : admissible_event w (BatchReturn i ok_batch).
Proof. split; [intros p r b [= <-] [= <-]; reflexivity|intros p b [= <-]; reflexivity]. Defined.

Lemma ok_batch_honest w i : honest_event w (BatchReturn i ok_batch).
Proof.
  intros txs inputs p b n [= <-] [Hb|Hb] Hn; cbn in Hb; injection Hb as <-; by apply elem_of_spent_by_batch.
Defined.

Lemma ok_block_admissible w tip : admissible_event w (BlockBuild (block_env tip false) StoreState.no_faults).
Proof. split_and!; [intros p b [= <-]; by split; constructor|intros p b [= <-]; by split; constructor|reflexivity]. Defined.

Lemma ok_block_honest w tip lost faults : honest_event w (BlockBuild (block_env tip lost) faults).
Proof.
  intros batches inputs p b n [= <-] [Hb|Hb] Hn; cbn in Hb; injection Hb as <-; cbn in Hn;
    apply list_elem_of_In, in_concat in Hn as (l & Hl & Hn); apply list_elem_of_In, list_elem_of_fmap in Hl as (x & -> & Hx);
    apply list_elem_of_In in Hn; by exists x.
Defined.

Lemma producer_never_panics_witness :
  result (BatchReturn 1 ok_batch) w2 = Some Returned ∧ produces (next (BatchReturn 1 ok_batch) w2).
Proof.
  pose proof (runs_produces _ runs_w2) as Hw. unfold result, next.
  destruct (exec (BatchReturn 1 ok_batch) w2) as [[w' o]|] eqn:He.
  - destruct (producer_never_panics w2 (BatchReturn 1 ok_batch) w' o Hw (ok_batch_admissible _ _) He)
      as [->|(_ & _ & [])].
    split; [reflexivity|]. by eapply produces_exec; [apply Hw|apply ok_batch_admissible|].
  - exfalso. assert (result (BatchReturn 1 ok_batch) w2 = Some Returned) as Hr by (vm_compute; reflexivity).
    unfold result in Hr. by rewrite He in Hr.
Defined.

Lemma runs_w4 : runs_honestly w4.
Proof.
  apply (runs_next w3 (BlockBuild (block_env 0 false) StoreState.no_faults));
    [|apply ok_block_admissible|apply ok_block_honest|vm_compute; reflexivity].
  apply (runs_next (next (BatchReturn 1 ok_batch) w2) BlockSelect); [|exact I|exact I|vm_compute; reflexivity].
  apply (runs_next w2 (BatchReturn 1 ok_batch));
    [apply runs_w2|apply ok_batch_admissible|apply ok_batch_honest|vm_compute; reflexivity].
Defined.

Lemma produces_w5 : produces w5.
Proof.
  apply runs_produces. apply (runs_next w4 BlockReturn); [apply runs_w4|exact I|exact I|vm_compute; reflexivity].
Defined.

Definition spends_now (m : Mempool.Mempool) (t n : N) : bool :=
  match InflightState.transaction_deltas (Mempool.state m) !! t with
  | Some d => bool_decide ((n : N) ∈ InflightState.nullifiers_d d)
  | None => false
  end.

Lemma spends_now_spec m t n : spends_now m t n = true → spends m t n.
Proof.
  unfold spends_now. destruct (_ !! _) as [d|] eqn:Hd; [|done]. intros Hn%bool_decide_eq_true. by exists d.
Defined.

Lemma spends_w4 : spends_now (mempool w4) (c_id tx1) 100%N = true.
Proof. vm_compute. reflexivity. Qed.

(** The first transaction is inflight when the store has applied its block: the
    mempool is about to commit that block, and it holds the transaction. *)
Lemma producer_no_double_spend_witness :
  spends (mempool w4) (c_id tx1) 100%N ∧ spent_in (StoreState.db (store w4)) 100%N 1%N ∧
  ∃ b, BatchGraph.transactions (Mempool.batches (mempool w4)) !! c_id tx1 = Some b.
Proof.
  pose proof (spends_now_spec _ _ _ spends_w4) as Hsp.
  assert (spent_in (StoreState.db (store w4)) 100%N 1%N) as Hst by (exists 100%N; vm_compute; reflexivity).
  split; [exact Hsp|]. split; [exact Hst|].
  destruct (producer_no_double_spend w4 runs_w4) as [Hno _].
  destruct (Hno _ _ _ Hsp Hst) as (header & B & b & _ & _ & _ & _ & Hb). by exists b.
Defined.

(** Once the block is committed, the transaction cannot come back. *)
Example replay_refused : result (submit 1) w5 = Some Rejected.
Proof. vm_compute. reflexivity. Qed.

Lemma producer_in_step_witness : is_tip (StoreState.db (store w5)) 1%N ∧ building w5 = [].
Proof.
  destruct (producer_in_step w5 produces_w5) as (_ & _ & _ & _ & tip & Ht & Heq).
  split; [|vm_compute; reflexivity]. assert (tip = 1%N) as <-; [|exact Ht]. rewrite Heq. vm_compute. reflexivity.
Defined.

(** The batch of [tx2] depends on that of [tx1], which fails; both are selected again
    while the first job of [tx2] still runs. *)
Definition duplicate_run : list Event :=
  [submit 1; submit 2; BatchTick 0; BatchSelect 1; BatchTick 0; BatchSelect 1;
   BatchReturn 0 bad_batch; BatchTick 0; BatchSelect 1].

(** The system relies on no batch being selected again while a job still builds
    it, and nothing in the code ensures that. After the batch of a parent
    transaction fails while the job of its child still runs, the next jobs select
    both batches again with the same ids. Two jobs then return the child's batch,
    and the second one makes [commit_batch] panic under the mempool's lock. *)
Theorem producer_duplicate_batch_panics :
  let w := after (duplicate_run ++ [BatchReturn 1 ok_batch; BatchTick 1; BatchSelect 1]) w0 in
  results (duplicate_run ++ [BatchReturn 1 ok_batch; BatchTick 1; BatchSelect 1]) w0 = replicate 12 (Some Returned) ∧
  result (BatchReturn 0 ok_batch) (next (BatchReturn 1 ok_batch) w) = Some Panicked.
Proof. split; vm_compute; reflexivity. Qed.

(** The store applies the block, but its answer does not arrive. *)
Definition lost_run : list Event :=
  [submit 1; BatchTick 0; BatchSelect 1; BatchReturn 1 ok_batch; BlockSelect;
   BlockBuild (block_env 0 true) StoreState.no_faults; BlockReturn].

(** A lost answer of the store separates the mempool from the chain. The store has
    applied the block, but the block builder rolls it back: its transactions are
    reverted although they are committed, and the mempool's chain tip stays behind
    that of the store for good. *)
Theorem producer_lost_answer :
  let w := after lost_run w0 in
  results lost_run w0 = replicate 7 (Some Returned) ∧
  Mempool.chain_tip (mempool w) = 0%N ∧
  Graph.len (Mempool.transactions (mempool w)) = 0 ∧
  chain_tip (StoreState.blockchain (StoreState.inner (store w))) = Some 1%N.
Proof. split_and!; vm_compute; reflexivity. Qed.

(** The store's service reads the nullifiers before block 1 is applied, and the
    latest block number after it. *)
Definition torn_answer (tx : Tx) : option TransactionInputs :=
  Some (mk_transaction_inputs (c_account tx) None (foldl (λ m n, <[n := None]> m) ∅ (c_nullifiers tx)) ∅ 1).

(** Block 1 has [tx1]; five blocks without transactions follow. *)
Definition empty_block (tip : N) : list Event :=
  [BlockSelect; BlockBuild (block_env tip false) StoreState.no_faults; BlockReturn].

Definition torn_run : list Event :=
  [submit 1; BatchTick 0; BatchSelect 1; BatchReturn 1 ok_batch; BlockSelect;
   BlockBuild (block_env 0 false) StoreState.no_faults; BlockReturn] ++
  concat (empty_block <$> [1; 2; 3; 4; 5]%N) ++
  [SubmitProvenTransaction torn_answer (request 3)].

Definition rejected_by_store (w : World) : bool :=
  match BlockBuilder.phase (block_builder w) with
  | BlockBuilder.Failed BlockBuilder.StoreApplyBlockFailed => true
  | _ => false
  end.

(** A torn answer lets a double spend into the mempool. The answer was given while
    block 1 was applied: it does not have the nullifiers of that block, but names it
    as the block up to which they were read. When the mempool has just forgotten
    block 1, it still takes the answer for recent enough. The transaction is then
    inflight although the store has recorded its nullifier, and the block that
    includes it is refused. *)
Theorem producer_torn_answer :
  let w := after torn_run w0 in
  results torn_run w0 = replicate 23 (Some Returned) ∧
  spends_now (mempool w) (c_id tx3) 100%N = true ∧
  Sql.nullifiers (StoreState.db (store w)) !! (100%N : N) = Some (100, 1)%N ∧
  rejected_by_store (after [BatchTick 0; BatchSelect 1; BatchReturn 1 ok_batch; BlockSelect;
    BlockBuild (block_env 6 false) StoreState.no_faults] w) = true.
Proof. split_and!; vm_compute; reflexivity. Qed.

End ProducerRun.
