(* ===== verification/FaucetExamples.v ===== *)
(** * A concrete faucet, and runs of it

    Instances of the interfaces of the faucet with their laws. An account id is a
    byte, which its 15 bytes repeat; bytes are written in hexadecimal; the hash is the
    sum of the bytes; a digest is a number in unary. *)

From Stdlib Require Import Strings.Byte Strings.Ascii.
From S2P Require Import Prelude.
From S2P Require Import Bytes.
From S2P Require Import External.
From S2P Require Import Subscription.
From S2P Require Import NtxAccount.
From S2P Require Import Challenge.
From S2P Require Import FaucetServer.
From S2P Require Import FaucetMint.
From Stdlib Require Import Strings.Byte.
From S2P Require Import Transaction.
From S2P Require Import Pow.
From S2P Require Import PowTheorems.
From S2P Require Import FaucetTheorems.

Module FaucetConcrete.

#[global] Instance objects : MidenObjects := {|
  TransactionId := N;
  AccountId := byte;
  NoteId := N;
  Nullifier := N;
  BatchId := N;
  tx_id_key := N_key;
  account_id_key := byte_key;
  note_id_key := N_key;
  nullifier_key := N_key;
  batch_id_key := N_key;
  Digest := nat;
  digest_eq := Nat.eq_dec;
  digest_default := 0;
  bn_child := λ n, (n + 1)%N;
  bn_add := N.add;
  bn_checked_sub := λ n k, if (k <=? n)%N then Some (n - k)%N else None;
  Note := N;
  note_nullifier := λ n, n;
  note_is_network := N.even;
  OutputNote := N;
  output_note_id := λ n, n;
  output_note_full := Some;
  AccountUpdateDetails := UpdateView nat nat;
  account_is_network := λ _, false;
  ProvenTransaction := N;
  ptx_id := λ t, t;
  ptx_account_id := λ _, x01;
  ptx_initial_state_commitment := λ _, 0;
  ptx_final_state_commitment := λ _, 0;
  ptx_account_details := λ _, Private;
  ptx_nullifiers := λ _, [];
  ptx_num_input_notes := λ _, 0%N;
  ptx_output_notes := λ _, [];
  ptx_num_output_notes := λ _, 0%N;
  ptx_unauthenticated_notes := λ _, [];
  ptx_expiration_block_num := λ _, 0%N;
  ptx_ref_block := λ _, (0%N, 0);
  ProvenBatch := N;
  batch_id := λ b, b;
  batch_id_from_ids := λ _, 0%N;
  BlockHeader := N;
  header_block_num := λ h, h;
  MAX_ACCOUNTS_PER_BATCH := 1024;
  MAX_INPUT_NOTES_PER_BATCH := 1024;
  MAX_OUTPUT_NOTES_PER_BATCH := 1024;
|}.

(** An account is its balance, and a delta adds to it. *)
#[global] Instance ntx_objects : NtxObjects := {|
  NetworkAccountPrefix := N;
  prefix_key := N_key;
  Account := nat;
  AccountDelta := nat;
  acc_id := λ _, x01;
  delta_id := λ _, x01;
  apply_delta := λ a d, Some (a + d);
  details_view := λ d, d;
  prefix_of_id := λ _, 0%N;
  note_prefix := λ _, 0%N;
|}.

(** ** Hexadecimal *)

Definition hex_value (c : ascii) : option N :=
  let n := N_of_ascii c in
  if ((48 <=? n) && (n <=? 57))%N then Some (n - 48)%N
  else if ((97 <=? n) && (n <=? 102))%N then Some (n - 87)%N
  else if ((65 <=? n) && (n <=? 70))%N then Some (n - 55)%N else None.

Fixpoint hex_parse (s : string) : option bytes :=
  match s with
  | EmptyString => Some []
  | String c (String d s) =>
    match hex_value c, hex_value d, hex_parse s with
    | Some h, Some l, Some bs => Some (byte_of (16 * h + l) :: bs)
    | _, _, _ => None
    end
  | _ => None
  end.

Lemma hex_parse_text upper l : hex_parse (hex_text upper l) = Some l.
Proof.
  induction l as [|b l IH]; [done|]. cbn [hex_text hex_parse]. rewrite IH.
  destruct upper, b; vm_compute; reflexivity.
Qed.

Lemma hex_text_alphabet l : contains "_" (hex_text false l) = false.
Proof.
  unfold contains. induction l as [|b l IH]; [done|]. cbn [hex_text after_once strip_prefix].
  assert (∀ n, (n < 16)%N → Ascii.eqb "_" (hex_digit false n) = false) as Hd.
  { intros n Hn. destruct n as [|p]; [done|]. do 4 (destruct p as [p|p|]; try done); lia. }
  pose proof (Byte.to_N_bounded b). rewrite !Hd; [done|apply N.mod_lt; lia|].
  apply N.Div0.div_lt_upper_bound. lia.
Qed.

Definition hash (l : bytes) : bytes := le_bytes 32 (foldr (λ b n, Byte.to_N b + n)%N 0%N l).

#[global] Instance faucet_objects : FaucetObjects := {|
  account_to_bytes := λ a, replicate 15 a;
  account_into_bytes := λ a, replicate 15 a;
  account_read_from_bytes := head;
  account_from_hex := λ s, Some x01;
  account_from_bech32 := λ s, None;
  to_hex_with_prefix := hex_text false;
  hex_to_bytes := λ n s, match hex_parse s with
                         | Some l => if decide (length l = n) then Some l else None
                         | None => None end;
  sha3_256 := hash;
  base64_encode := hex_text false;
  base64_decode := hex_parse;
|}.

#[global] Instance faucet_laws : FaucetLaws.
Proof.
  split; try done.
  - intros l. cbn. by rewrite hex_parse_text, decide_True.
  - intros n s l. cbn. destruct (hex_parse s); [|done]. case_decide; [|done]. by intros [= <-].
  - apply hex_parse_text.
  - apply hex_text_alphabet.
Qed.

(** ** Minting *)

Fixpoint ones (n : nat) : string := match n with O => EmptyString | S n => String "1" (ones n) end.

#[global] Instance mint_objects : MintObjects := {|
  account_commitment := λ a, a;
  faucet_decimals := λ _, Some 6%N;
  FungibleAsset := N;
  FUNGIBLE_MAX_AMOUNT := 2 ^ 63 - 1;
  is_faucet_id := λ _, true;
  fungible_new := λ _ n, if (n <=? 2 ^ 63 - 1)%N then Some n else None;
  Coin := N;
  create_p2id_note := λ c _ _ n _, ((c + 1)%N, Some n);
  TransactionArgs := list N;
  ExecutedTransaction := nat;
  executed_delta := λ d, d;
  executed_id := λ d, N.of_nat d;
  digest_to_string := λ d, "0x" +:+ ones d;
  parse_hex_string_as_word := λ s, String.length <$> strip_prefix "0x" s;
|}.

#[global] Instance mint_laws : MintLaws.
Proof.
  split.
  - intros id n _. cbn -[N.pow]. destruct (n <=? 2 ^ 63 - 1)%N eqn:E.
    + apply N.leb_le in E. split; eauto.
    + apply N.leb_gt in E. split; [by intros []|lia].
  - vm_compute. done.
  - intros d. by exists (ones d).
  - intros d. cbn [digest_to_string mint_objects]. change (string_forall is_hex_char (ones d) = true).
    by induction d.
  - intros d. cbn [parse_hex_string_as_word digest_to_string mint_objects]. rewrite strip_prefix_app. cbn.
    f_equal. induction d as [|d IH]; [done|]. cbn. by rewrite IH.
Qed.

End FaucetConcrete.

(** ** Concrete runs of the faucet

    The theorems of [PowTheorems.v] and [FaucetTheorems.v] on the instances
    above, and a request that the clock overtakes. *)

Import ApiKey Challenge Pow FaucetConcrete.

Module FaucetRun.

Definition secret : bytes := replicate 32 x02.
Definition cfg : PoWConfig := mk_config 30 1 0.
Definition key : ApiKey := default_key.
Definition alice : AccountId := x05.

Definition challenge_at (t : N) : Challenge := Challenge.new (2 ^ 64 - 1) t alice key secret.

Definition submit_at (t now : N) : M ChallengeCache MintRequestError unit :=
  submit_challenge cfg secret alice key (encode (challenge_at t)) 0 now.

Definition clean_at (now : N) : M ChallengeCache Empty_set unit :=
  cleanup_expired_challenges now (challenge_lifetime cfg).

(** What a run of submissions ([inl]) and cleanups ([inr]) answers. *)
Fixpoint answers (l : list (N * N + N)) (s : ChallengeCache) : list bool * ChallengeCache :=
  match l with
  | [] => ([], s)
  | inl (t, now) :: l =>
    let '(s, r) := submit_at t now s in
    let '(bs, s) := answers l s in (match r with Ok _ => true | _ => false end :: bs, s)
  | inr now :: l => let '(bs, s) := answers l (clean_at now s).1 in (bs, s)
  end.

(** The same challenge again, another one within its lifetime, and one after it. *)
Example served_once :
  (answers [inl (100, 110); inl (100, 111); inr 115; inl (112, 115); inr 140; inl (135, 141)]%N empty_cache).1 =
    [true; false; false; true].
Proof. vm_compute. reflexivity. Qed.

(** A request that has read the clock before a cleanup, and takes the lock after it,
    is accepted although its challenge was used. *)
Example overtaken_request :
  (answers [inl (100, 110); inr 140; inl (100, 130)]%N empty_cache).1 = [true; true].
Proof. vm_compute. reflexivity. Qed.

Definition s1 : ChallengeCache := (submit_at 100 110 empty_cache).1.
Definition s2 : ChallengeCache := (clean_at 140 s1).1.
Definition s3 : ChallengeCache := (submit_at 135 141 s2).1.

Definition log3 : list Accepted :=
  [mk_accepted 110 0 alice 100 key; mk_accepted 141 140 alice 135 key].

Lemma run_ok {S E A} (m : M S E A) s a : (m s).2 = Ok a → m s = ((m s).1, Ok a).
Proof. intros <-. by destruct (m s). Qed.

Lemma decode_at t : (t < 2 ^ 64)%N → ∀ s : ChallengeCache,
  Challenge.decode (encode (challenge_at t)) secret s = (s, Ok (challenge_at t)).
Proof.
  intros Ht s. rewrite decode_encode; [by rewrite decide_True|]. split; [done|exact Ht|done|].
  apply sha3_size.
Qed.

Lemma pow_serves_s1 : serves cfg secret [mk_accepted 110 0 alice 100 key] 0 s1.
Proof.
  apply (serves_accept _ _ [] 0 empty_cache alice key (encode (challenge_at 100)) 0 110 s1 empty_cache (challenge_at 100)).
  - constructor.
  - vm_compute. done.
  - by apply decode_at.
  - apply run_ok. vm_compute. reflexivity.
Qed.

Lemma pow_serves_s2 : serves cfg secret [mk_accepted 110 0 alice 100 key] 140 s2.
Proof.
  apply (serves_cleanup _ _ _ 0 s1 140).
  - apply pow_serves_s1.
  - done.
  - done.
  - apply run_ok. vm_compute. reflexivity.
Qed.

Lemma pow_serves_s3 : serves cfg secret log3 140 s3.
Proof.
  apply (serves_accept _ _ [mk_accepted 110 0 alice 100 key] 140 s2 alice key (encode (challenge_at 135)) 0 141 s3 s2 (challenge_at 135)).
  - apply pow_serves_s2.
  - vm_compute. done.
  - by apply decode_at.
  - apply run_ok. vm_compute. reflexivity.
Qed.

(** ** Witnesses *)

Lemma pow_challenge_roundtrip_witness :
  Challenge.decode (encode (challenge_at 100)) secret tt = (tt, Ok (challenge_at 100)) ∧
  match (Challenge.decode (encode (challenge_at 100)) (replicate 32 x03) tt).2 with
  | Err ServerSignaturesDoNotMatch => True | _ => False end.
Proof.
  destruct (pow_challenge_roundtrip secret tt) as (Hd & _). split.
  - rewrite Hd by (split; vm_compute; reflexivity). by rewrite decide_True.
  - vm_compute. exact I.
Defined.

Lemma pow_rate_limit_witness : (100 + 30 < 140)%N ∧ (100 + 30 < 141)%N ∧ log3 !! 0 = Some (mk_accepted 110 0 alice 100 key).
Proof.
  destruct (pow_rate_limit cfg secret log3 140 s3 pow_serves_s3 0 1 _ _ (le_n 1) eq_refl eq_refl eq_refl) as [Hs Ha].
  split; [exact Hs|]. split; [|reflexivity]. apply Ha. vm_compute. discriminate.
Defined.

Lemma pow_cache_refines_map_witness :
  ∃ A, cached s3 A ∧ num_challenges_for_api_key key s3 = N.of_nat (uses key A) ∧ num_challenges_for_api_key key s3 = 1%N.
Proof.
  destruct (pow_cache_refines_map cfg secret log3 140 s3 pow_serves_s3 ltac:(vm_compute; reflexivity)) as (A & Hc & _ & _ & Hn).
  exists A. split; [exact Hc|]. split; [apply Hn|vm_compute; reflexivity].
Defined.

Lemma pow_honest_client_witness :
  ∃ s', submit_challenge cfg secret alice key (encode (challenge_at 170)) 0 180 empty_cache = (s', Ok tt) ∧
    has_challenge_for_account alice s' = true.
Proof.
  destruct (pow_honest_client cfg secret alice key 170 empty_cache eq_refl eq_refl eq_refl eq_refl)
    as (c & Hb & _ & _ & Hsub).
  rewrite build_challenge_spec in Hb by done. injection Hb as <-.
  apply (Hsub [] 0%N empty_cache 0%N 180%N).
  - constructor.
  - vm_compute. reflexivity.
  - split; vm_compute; discriminate.
  - vm_compute. reflexivity.
  - vm_compute. reflexivity.
Defined.

Import FaucetServer Report Mint.

Definition faucet_id : AccountId := x01.

Definition faucet : Faucet := mk_faucet faucet_id 10 [3; 7] Local 6.

Lemma faucet_desync_unrecovered_witness :
  error_recovery (Submission (Transport InvalidArgumentCode (incorrect_commitment_status 10 (Some 7)).2)) faucet =
    (faucet, Err tt) ∧
  let f := (handle_desync (incorrect_commitment_status 10 (Some 7)).2 faucet).1 in
  faucet_account f = 7 ∧ prior_state f = [3].
Proof.
  split; [|split; vm_compute; reflexivity].
  exact (proj2 (proj2 (faucet_desync_unrecovered (H1 := mint_objects) 10 (Some 7) faucet))).
Defined.

Definition two : AccountDelta := 2.
Definition three : AccountDelta := 3.

Definition after_one : Faucet := mk_faucet faucet_id 12 [3; 7; 10] Local 6.
Definition after_two : Faucet := mk_faucet faucet_id 15 [3; 7; 10; 12] Local 6.

Lemma faucet_rollback_witness :
  handle_desync (incorrect_commitment_status 15 (Some 10)).2 after_two = (faucet, Ok tt).
Proof.
  assert (updates faucet [two; three] after_two) as Hu.
  { apply (updates_cons faucet two after_one [three]); [reflexivity|].
    apply (updates_cons after_one three after_two []); [reflexivity|]. constructor. }
  refine (proj2 (proj1 (proj2 (faucet_rollback faucet [two; three] after_two _ Hu _)) _ _ _ _) _).
  - cbn. lia.
  - discriminate.
  - cbn. lia.
  - vm_compute. reflexivity.
  - vm_compute. intros Hin. repeat (apply elem_of_cons in Hin as [Hin|Hin]; [discriminate|]).
    by apply not_elem_of_nil in Hin.
  - cbn. lia.
Defined.

(** Four million tokens with six decimals fit; ten million million do not. *)
Lemma faucet_mint_amounts_witness :
  build_notes faucet_id 6 [mk_mint_request alice Public 4000000] 0%N = (1%N, Ok [4000000000000%N]) ∧
  ∃ msg, (build_notes faucet_id 6 [mk_mint_request alice Public 10000000000000] 0%N).2 = Panic msg.
Proof.
  destruct (faucet_mint_amounts faucet_id 6) as (_ & Hbad & _); [reflexivity|]. split; [vm_compute; reflexivity|].
  apply Hbad. intros [_ Hm]. vm_compute in Hm. by apply Hm.
Defined.

End FaucetRun.
