(* ===== verification/WireExamples.v ===== *)
(** * A concrete store with messages, and runs of its services

    Instances of the interfaces of the store and of its messages with their laws. A
    field element is a byte and a digest has four; ids are bytes, and a value is
    serialised as the bits of its number in an enumeration of its type. *)

From Stdlib Require Import Strings.Byte.
From S2P Require Import Prelude.
From S2P Require Import Bytes.
From S2P Require Import External.
From S2P Require Import Subscription.
From S2P Require Import NtxAccount.
From S2P Require Import StoreObjects.
From S2P Require Import StoreTrees.
From S2P Require Import WireObjects.
From S2P Require Import AccountProofs.
From S2P Require Import Transaction.
From S2P Require Import StoreSql.
From S2P Require Import StoreProofs.
From S2P Require Import StoreState.
From S2P Require Import StoreApply.
From S2P Require Import StoreQueries.
From S2P Require Import Wire.
From S2P Require Import WireTheorems.
From S2P Require Import StoreApi.
From S2P Require Import StoreClient.
From S2P Require Import StoreApiTheorems.
From S2P Require Import FaucetExamples.

Module WireConcrete.

(** ** Serialisation *)

Fixpoint pos_bytes (p : positive) : bytes :=
  match p with xH => [] | xO p => x00 :: pos_bytes p | xI p => x01 :: pos_bytes p end.

Fixpoint bytes_pos (l : bytes) : positive :=
  match l with [] => xH | x00 :: l => xO (bytes_pos l) | _ :: l => xI (bytes_pos l) end.

Lemma bytes_pos_inv p : bytes_pos (pos_bytes p) = p.
Proof. by induction p as [p IH|p IH|]; cbn; [rewrite IH..|]. Qed.

Definition to_b {A} `{Countable A} (a : A) : bytes := pos_bytes (encode a).
Definition of_b {A} `{Countable A} (l : bytes) : option A := decode (bytes_pos l).

Lemma of_to_b {A} `{Countable A} (a : A) : of_b (to_b a) = Some a.
Proof. unfold of_b, to_b. by rewrite bytes_pos_inv, decode_encode. Qed.

(** ** Objects *)

Definition D : Type := byte * byte * byte * byte.
Definition zero : D := (x00, x00, x00, x00).
Definition dig (b : byte) : D := (b, x00, x00, x00).
Definition first (d : D) : byte := d.1.1.1.

(** Sender, whether it is not for the network, and whether [aux] is 2^63. *)
Definition Meta : Type := byte * bool * bool.
Definition Nt : Type := byte * Meta.
Definition Block : Type := N * list (byte * D * bool) * list byte * list (byte * byte) * list (bool * bool * Nt).

Record Tx := mk_tx { c_id : byte; c_account : byte; c_unauthenticated : list byte }.

Definition index_of (b : bool) : N := if b then 1%N else 0%N.

#[global] Instance objects : MidenObjects := {|
  TransactionId := byte;
  AccountId := byte;
  NoteId := byte;
  Nullifier := byte;
  BatchId := N;
  batch_id_key := N_key;
  Digest := D;
  digest_eq := prod_eq_dec;
  digest_default := zero;
  bn_child := λ n, (n + 1)%N;
  bn_add := N.add;
  bn_checked_sub := λ n k, if (k <=? n)%N then Some (n - k)%N else None;
  Note := Nt;
  note_nullifier := λ n, n.1;
  note_is_network := λ n, negb n.2.1.2;
  OutputNote := Nt;
  output_note_id := λ n, n.1;
  output_note_full := Some;
  AccountUpdateDetails := option (bool * (byte * byte));
  account_is_network := λ _, true;
  ProvenTransaction := Tx;
  ptx_id := c_id;
  ptx_account_id := c_account;
  ptx_initial_state_commitment := λ _, zero;
  ptx_final_state_commitment := λ _, zero;
  ptx_account_details := λ _, None;
  ptx_nullifiers := λ t, [c_id t];
  ptx_num_input_notes := λ _, 1%N;
  ptx_output_notes := λ _, [];
  ptx_num_output_notes := λ _, 0%N;
  ptx_unauthenticated_notes := c_unauthenticated;
  ptx_expiration_block_num := λ _, 100%N;
  ptx_ref_block := λ _, (0%N, zero);
  ProvenBatch := N;
  batch_id := λ b, b;
  batch_id_from_ids := λ l, Npos (encode l);
  BlockHeader := N;
  header_block_num := λ h, h;
  MAX_ACCOUNTS_PER_BATCH := 1024;
  MAX_INPUT_NOTES_PER_BATCH := 1024;
  MAX_OUTPUT_NOTES_PER_BATCH := 1024;
|}.

#[global] Instance laws : MidenLaws.
Proof.
  split; cbn; try done.
  - intros l l' [= Heq]. by apply (inj encode) in Heq.
  - by intros t t' ->.
Defined.

#[global] Instance ntx_objects : NtxObjects := {|
  NetworkAccountPrefix := N;
  prefix_key := N_key;
  Account := byte * byte;
  AccountDelta := byte * byte;
  acc_id := fst;
  delta_id := fst;
  apply_delta := λ a d, Some (a.1, d.2);
  details_view := λ d : option (bool * (byte * byte)), match d with
                       | None => Private
                       | Some (true, a) => New a
                       | Some (false, a) => Delta a
                       end;
  prefix_of_id := Byte.to_N;
  note_prefix := λ n : Nt, Byte.to_N n.1;
|}.

#[global] Instance store_objects : @StoreObjects objects ntx_objects := {|
  digest_countable := prod_countable;
  header_commitment := λ h : N, dig (byte_of (h + 1));
  header_prev_block_commitment := λ h : N, dig (byte_of h);
  header_tx_commitment := λ _, zero;
  header_chain_commitment := λ _, zero;
  header_nullifier_root := λ _, zero;
  header_account_root := λ _, zero;
  header_note_root := λ _, zero;
  Word := D;
  StorageMap := list (D * D);
  NonFungibleAsset := N;
  asset_eq := N.eq_dec;
  asset_countable := N_countable;
  prefix_u32 := λ p : N, p;
  acc_commitment := λ a : byte * byte, dig a.2;
  acc_nonce := λ _, 1%N;
  acc_slots := λ _, [SlotValue zero; SlotMap []];
  acc_assets := λ _, [];
  map_delta_of := λ m, m;
  delta_new := λ id _ _ _ _ nonce, Some (id, byte_of nonce);
  delta_nonce := λ _, 1%N;
  delta_values := λ _, [];
  delta_maps := λ _, [];
  delta_fungible := λ _, [];
  delta_non_fungible := λ _, [];
  non_fungible_add := λ m a, Some (<[a := false]> m);
  non_fungible_remove := λ m a, Some (<[a := true]> m);
  BlockAccountUpdate := byte * D * bool;
  update_id := λ u, u.1.1;
  update_commitment := λ u, u.1.2;
  update_details := λ u : byte * D * bool, Some (u.2, (u.1.1, first u.1.2));
  NoteMetadata := Meta;
  NoteType := unit;
  NoteExecutionHint := unit;
  metadata_note_type := λ _, tt;
  metadata_sender := λ m, m.1.1;
  metadata_tag := λ m, index_of m.1.2;
  metadata_aux := λ m : Meta, if m.2 then (2 ^ 63)%N else 5%N;
  metadata_hint := λ _, tt;
  note_type_u8 := λ _, 1%N;
  note_type_from := λ n, if (n =? 1)%N then Some tt else None;
  hint_u64 := λ _, 0%N;
  hint_from := λ n, if (n =? 0)%N then Some tt else None;
  tag_execution_mode := λ t, if (t =? 0)%N then 0%N else 1%N;
  is_felt := λ n, (n <? 2 ^ 64)%N;
  metadata_new := λ sender _ tag _ aux, Some (sender, (tag =? 1)%N, (aux =? 2 ^ 63)%N);
  NoteAssets := unit;
  NoteInputs := unit;
  NoteScript := unit;
  NoteDetails := byte;
  script_root := λ _, zero;
  details_assets := λ _, tt;
  details_inputs := λ _, tt;
  details_script := λ _, tt;
  details_serial_num := dig;
  details_new := λ _ serial _ _, first serial;
  details_of := λ n : Nt, n.1;
  MerklePath := list D;
  BlockNoteIndex := bool * bool;
  batch_idx := λ i, index_of i.1;
  note_idx_in_batch := λ i, index_of i.2;
  output_note_is_partial := λ _, false;
  output_note_metadata := λ n : Nt, n.2;
  note_index_new := λ a b, Some ((a =? 1)%N, (b =? 1)%N);
  leaf_index_value := λ i, (2 * index_of i.1 + index_of i.2)%N;
  nullifier_prefix := λ n : byte, Byte.to_N n;
  ProvenBlock := Block;
  StoreObjects.Bytes := Block;
  block_bytes := λ b, b;
  block_header := λ b : Block, b.1.1.1.1;
  block_commitment := λ b : Block, dig (byte_of (b.1.1.1.1 + 1));
  block_updated_accounts := λ b : Block, b.1.1.1.2;
  block_created_nullifiers := λ b : Block, b.1.1.2;
  block_transactions := λ b : Block, b.1.2;
  transactions_commitment := λ _, zero;
  block_output_notes := λ b : Block, b.2;
  block_note_root := λ _, zero;
  block_note_path := λ _ _, [];
|}.

#[global] Instance store_laws : @StoreLaws objects ntx_objects store_objects.
Proof.
  split; cbn; try done.
  - by intros [].
  - by intros [].
  - intros [[s l] b]. cbn. by destruct l.
  - intros t. by destruct (t =? 0)%N.
  - intros [[s l] b]. cbn. by destruct b.
  - intros n. apply N.ltb_lt.
  - intros [[s l] b]. cbn. by destruct l, b.
  - by intros [] [].
  - intros [a b]. by destruct a, b.
  - intros [a b]. by destruct a, b.
  - intros n. pose proof (Byte.to_N_bounded n). lia.
Defined.

#[global] Instance store_trees : @StoreTrees objects ntx_objects store_objects := {|
  NullifierTree := gmap byte N;
  NullifierMutation := list (byte * N);
  SmtProof := list D * SmtLeafView D D;
  nt_root := λ _, zero;
  nt_get_block_num := λ (t : gmap byte N) n, t !! n;
  nt_compute_mutations := λ (t : gmap byte N) l,
    if decide (Forall (λ n, t !! n = None) l.*1) then Some l else None;
  nt_apply_mutations := λ (t : gmap byte N) m, Some (list_to_map m ∪ t);
  nm_root := λ _, zero;
  nt_with_entries := λ l, Some (list_to_map l);
  nt_open := λ (t : gmap byte N) n,
    ([], match t !! n with Some bn => LeafSingle (dig n, dig (byte_of bn)) | None => LeafEmpty (Byte.to_N n) end);
  AccountTree := gmap byte D;
  AccountMutation := list (byte * D);
  AccountWitness := byte * D * list D;
  at_root := λ _, zero;
  at_get := λ (t : gmap byte D) id, default zero (t !! id);
  at_compute_mutations := λ _ l, Some l;
  at_apply_mutations := λ (t : gmap byte D) m, Some (list_to_map m ∪ t);
  am_root := λ _, zero;
  at_with_entries := λ l, Some (list_to_map l);
  at_open := λ (t : gmap byte D) id, (id, default zero (t !! id), []);
  Blockchain := list D;
  MmrProof := D;
  MmrPeaks := N * list D;
  MmrDelta := N * list D;
  PartialMmr := gset N;
  PartialBlockchain := list N;
  chain_of := λ l, l;
  chain_tip := λ c, match length c with 0 => None | S n => Some (N.of_nat n) end;
  chain_push := λ c d, c ++ [d];
  chain_peaks_hash := λ _, zero;
  chain_peaks_at := λ _ b, Some (b, []);
  chain_open := λ c b, c !! N.to_nat b;
  chain_partial_mmr := λ _ blocks _, Some blocks;
  chain_delta := λ _ a b, Some (a, []);
  mmr_delta_empty := λ b, (b, []);
  partial_blockchain_new := λ _ headers, Some headers;
|}.

#[global] Instance tree_laws : @TreeLaws objects ntx_objects store_objects store_trees.
Proof.
  refine {|
    nt_entries := λ t : NullifierTree, t : gmap byte N;
    id_slot := λ id : AccountId, Byte.to_N id;
    at_ids := λ t : AccountTree, dom (t : gmap byte D);
    chain_commitments := λ c : Blockchain, c : list D;
  |}; try (cbn; done).
  - cbn. intros t l m. case_decide as Hall; [|done]. intros _ n Hn. exact (proj1 (Forall_forall _ _) Hall n Hn).
  - cbn. intros t l m. case_decide; [|done]. intros [= <-] _ _. eauto.
  - cbn. eauto.
  - cbn. intros _ a b _ _ Hab. apply (f_equal Byte.of_N) in Hab. rewrite !Byte.of_to_N in Hab. by injection Hab.
  - cbn. intros t l m [= <-] _ _. eexists. split; [done|]. split.
    + rewrite dom_union_L. f_equal. apply dom_list_to_map_L.
    + split; [done|]. intros id. rewrite lookup_union. by destruct (list_to_map l !! id), (t !! id).
  - cbn. intros l _ _ _. eexists. split; [done|]. split; [apply dom_list_to_map_L|done].
  - cbn. intros c b Hb. by apply lookup_lt_is_Some_2.
Defined.

(** ** Messages *)

Definition elements (d : D) : N * N * N * N :=
  (Byte.to_N d.1.1.1, Byte.to_N d.1.1.2, Byte.to_N d.1.2, Byte.to_N d.2).

Definition of_elements (v : N * N * N * N) : D :=
  (byte_of v.1.1.1, byte_of v.1.1.2, byte_of v.1.2, byte_of v.2).

#[global] Instance wire_objects : @WireObjects objects ntx_objects store_objects store_trees := {|
  wire_account_to_bytes := λ a, [a];
  wire_account_read := λ l, match l with [a] => Some a | _ => None end;
  acc_to_bytes := λ a : byte * byte, [a.1; a.2];
  acc_read := λ l, match l with [a; b] => Some (a, b) | _ => None end;
  FELT_MODULUS := 256;
  digest_elements := elements;
  digest_of_elements := of_elements;
  word_elements := elements;
  word_of_elements := of_elements;
  note_id_inner := dig;
  note_id_of := first;
  nullifier_inner := dig;
  nullifier_of := first;
  tx_id_inner := dig;
  tx_id_of := first;
  header_version := λ _, 1%N;
  header_tx_kernel_commitment := λ _, zero;
  header_proof_commitment := λ _, zero;
  header_timestamp := λ _, 0%N;
  header_new := λ _ _ num _ _ _ _ _ _ _ _, num;
  path_nodes := λ p, p;
  path_of_nodes := λ p, p;
  delta_forest := λ d : N * list D, d.1;
  delta_data := λ d : N * list D, d.2;
  mmr_delta_new := λ a b, (a, b);
  mmr_proof_forest := λ _, 1%N;
  mmr_proof_path := λ d, [d];
  peaks_list := λ p : N * list D, p.2;
  peaks_new := λ a b, Some (a, b);
  partial_mmr_of_peaks := λ _, ∅;
  SmtLeaf := SmtLeafView D D;
  leaf_view := λ l, l;
  leaf_empty := LeafEmpty;
  leaf_single := λ k v, LeafSingle (k, v);
  leaf_multiple := λ l, Some (LeafMultiple l);
  smt_proof_parts := λ p, p;
  smt_proof_new := λ p l, Some (p, l);
  witness_id := λ w : byte * D * list D, w.1.1;
  witness_state_commitment := λ w : byte * D * list D, w.1.2;
  witness_path := λ w : byte * D * list D, w.2;
  account_witness_new := λ a c p, Some (a, c, p);
  inclusion_index_ok := λ i, (i <? 2 ^ 16)%N;
  note_metadata := λ n : Nt, n.2;
  note_new := λ d m, (d, m);
  details_to_bytes := λ d, [d];
  details_read := λ l, match l with [d] => Some d | _ => None end;
  chain_to_bytes := to_b;
  chain_read := of_b;
  update_to_bytes := to_b;
  update_read := of_b;
  account_delta_to_bytes := λ d : byte * byte, [d.1; d.2];
  block_to_bytes := to_b (A := Block);
  block_read := of_b;
  raw_bytes := to_b (A := Block);
|}.

#[global] Instance wire_laws : @WireLaws objects ntx_objects store_objects store_trees wire_objects.
Proof.
  split; cbn; try done.
  - by intros [].
  - intros [[[a b] c] e]. cbn. pose proof (Byte.to_N_bounded a). pose proof (Byte.to_N_bounded b).
    pose proof (Byte.to_N_bounded c). pose proof (Byte.to_N_bounded e). lia.
  - intros [[[a b] c] e]. unfold of_elements, elements. cbn. by rewrite !byte_of_N.
  - intros a b c e Ha Hb Hc He. unfold of_elements, elements. cbn. rewrite !byte_of_to_N, !N.mod_small by done. done.
  - intros [[[a b] c] e]. cbn. pose proof (Byte.to_N_bounded a). pose proof (Byte.to_N_bounded b).
    pose proof (Byte.to_N_bounded c). pose proof (Byte.to_N_bounded e). lia.
  - intros [[[a b] c] e]. unfold of_elements, elements. cbn. by rewrite !byte_of_N.
  - by intros [].
  - by intros [|[]|].
  - by intros [].
  - by intros [[] ?].
  - intros [[] []]; cbn; split; done.
  - by intros [].
  - intros c. exact (of_to_b c).
  - intros u. exact (of_to_b u).
  - intros b. exact (of_to_b b).
Defined.

#[global] Instance account_parts : @AccountParts objects ntx_objects store_objects := {|
  acc_vault_root := λ _, zero;
  acc_storage_commitment := λ _, zero;
  acc_code_commitment := λ a : byte * byte, dig a.1;
  acc_code_bytes := λ a : byte * byte, [a.1];
  acc_storage_header := λ a : byte * byte, [a.2];
  map_open := λ _ d, [first d];
|}.

End WireConcrete.

(** ** Concrete messages

    The theorems about messages and about the services of the store at concrete
    inputs. *)

Import WireConcrete.
Import Sql.
Import StoreState.
Import Wire.

Module WireRun.

Definition note1 : @Note objects := (x0a, (x02, false, false)).
Definition account2 : @AccountId objects := x02.
Definition tx5 : @TransactionId objects := x05.

(** A transaction that spends nullifier 10 and one that spends nullifier 11. *)
Definition spends10 : @ProvenTransaction objects := mk_tx x0a x02 [x0a].
Definition spends11 : @ProvenTransaction objects := mk_tx x0b x02 [x0a].

(** ** A store *)

Definition genesis : State := mk_state (over_block_headers (λ _, {[0%N := 0%N]}) empty_tables) ∅ [] (mk_inner ∅ [dig x01] ∅) false.

Definition block1 : @ProvenBlock _ _ store_objects := (1%N, [(x02, dig x1e, true)], [], [(x05, x02)], [(false, false, note1)]).
Definition block2 : @ProvenBlock _ _ store_objects := (2%N, [(x02, dig x1f, false)], [x0a], [(x06, x02)], []).

Definition apply (block : @ProvenBlock _ _ store_objects) (s : State) : State :=
  ((apply_block no_faults block : M State ApplyBlockError unit) s).1.

Definition s1 : State := apply block1 genesis.
Definition s2 : State := apply block2 s1.

Lemma wire_consistent_genesis : consistent genesis.
Proof.
  split.
  - split.
    + intros bn h Hh. change (({[0%N := 0%N]} : gmap N N) !! bn = Some h) in Hh.
      by apply lookup_singleton_Some in Hh as [<- <-].
    + exists 0%N. intros bn. change (is_Some (({[0%N := 0%N]} : gmap N N) !! bn) ↔ (bn ≤ 0)%N).
      rewrite lookup_singleton_is_Some. lia.
    + intros root sc Hs. done.
    + constructor.
    + constructor.
    + intros n p bn Hn. done.
    + intros id row Hr. done.
    + intros tx id bn Ht. done.
  - split; vm_compute; reflexivity.
Defined.

Lemma wire_block1_ok : block_ok block1.
Proof. split; [apply NoDup_singleton|]. by repeat constructor. Defined.

Lemma wire_block2_ok : block_ok block2.
Proof. split; [apply NoDup_singleton|]. by repeat constructor. Defined.

Definition is_ok {E A} (r : res E A) : bool := match r with Ok _ => true | _ => false end.

Lemma wire_run_is_ok {S E} (m : M S E unit) s : is_ok (m s).2 = true → m s = ((m s).1, Ok tt).
Proof. destruct (m s) as [s' [[]|e|p|]]; [done|discriminate..]. Defined.

Lemma wire_applies1 : (apply_block no_faults block1 : M State ApplyBlockError unit) genesis = (s1, Ok tt).
Proof. unfold s1, apply. apply wire_run_is_ok. vm_compute. reflexivity. Defined.

Lemma wire_applies2 : (apply_block no_faults block2 : M State ApplyBlockError unit) s1 = (s2, Ok tt).
Proof. unfold s2, apply. apply wire_run_is_ok. vm_compute. reflexivity. Defined.

Lemma wire_consistent_s1 : consistent s1.
Proof.
  apply (consistent_applied genesis block1 s1 wire_consistent_genesis wire_block1_ok).
  exact (proj1 (wp_run_ok _ _ _ _ _ _ (wp_apply_block no_faults block1 _ wire_consistent_genesis wire_block1_ok) wire_applies1)).
Defined.

Lemma wire_consistent_s2 : consistent s2.
Proof.
  apply (consistent_applied s1 block2 s2 wire_consistent_s1 wire_block2_ok).
  exact (proj1 (wp_run_ok _ _ _ _ _ _ (wp_apply_block no_faults block2 _ wire_consistent_s1 wire_block2_ok) wire_applies2)).
Defined.

(** ** Witnesses *)

Lemma wire_event_received_witness :
  let ev := TransactionAdded tx5 [x0a; x0b] [mk_network_note note1] (Some None) in try_from (into ev) = inr ev.
Proof. apply wire_event_received. repeat constructor. Defined.

Lemma wire_digest_canonical_witness :
  (try_from (Proto.mk_digest 1 2 3 256) : ConversionError + Digest) = inl NotAValidFelt ∧
  try_from (Proto.mk_digest 1 2 3 255) = inr ((x01, x02, x03, xff) : @Digest objects).
Proof.
  split.
  - destruct (try_from _) as [e|d] eqn:Hd; [|discriminate Hd].
    by destruct (proj2 (wire_digest_canonical _) e Hd) as [-> _].
  - apply (proj1 (wire_digest_canonical _)). reflexivity.
Defined.

Definition big_digest : Proto.Digest := Proto.mk_digest 1 (2 ^ 64 - 1) 3 171.

Lemma digest_hex_roundtrip_witness :
  HexDigest.from_hex FaucetConcrete.hex_parse (HexDigest.encode_hex big_digest) = inr big_digest.
Proof.
  refine (proj1 (digest_hex_roundtrip FaucetConcrete.hex_parse big_digest FaucetConcrete.hex_parse_text _)).
  unfold digest_u64. cbn [big_digest Proto.d0 Proto.d1 Proto.d2 Proto.d3]. lia.
Defined.

(** The store knows the account, the note and its nullifier; between the reads it
    may apply another block. *)
Lemma client_tx_inputs_witness :
  match StoreClient.get_tx_inputs (StoreApi.get_transaction_inputs (λ _, s2)) spends10 s1 with
  | (_, Ok i) => ti_account_commitment i = Some (dig x1e) ∧ is_tip (db s2) (ti_current_block_height i)
  | _ => False
  end.
Proof.
  pose proof (client_tx_inputs s1 (λ _, s2) spends10 wire_consistent_s1 wire_consistent_s2) as Hx.
  assert (is_ok (StoreClient.get_tx_inputs (StoreApi.get_transaction_inputs (λ _, s2)) spends10 s1).2 = true) as Hok
    by (vm_compute; reflexivity).
  destruct (StoreClient.get_tx_inputs _ _ _) as [s' [i|e|p|]]; [|discriminate Hok..].
  destruct Hx as (_ & _ & Hc & _ & _ & Ht). rewrite Hc. split; [vm_compute; reflexivity|done].
Defined.

Lemma double_spend_refused_witness :
  match StoreClient.get_tx_inputs (StoreApi.get_transaction_inputs (λ s, s)) spends10 s2 with
  | (_, Ok i) => ∃ spent, authenticate spends10 i = inl (InputNotesAlreadyConsumed spent)
  | _ => False
  end.
Proof.
  pose proof (double_spend_refused s2 (λ s, s) spends10 x0a wire_consistent_s2 wire_consistent_s2) as Hx.
  assert (is_ok (StoreClient.get_tx_inputs (StoreApi.get_transaction_inputs (λ s, s)) spends10 s2).2 = true) as Hok
    by (vm_compute; reflexivity).
  destruct (StoreClient.get_tx_inputs _ _ _) as [s' [i|e|p|]]; [|discriminate Hok..].
  destruct Hx as (spent & Hs & _); [by apply list_elem_of_singleton|by vm_compute; eauto|]. by exists spent.
Defined.

Lemma client_transparent_witness :
  is_ok (StoreClient.get_block_inputs StoreApi.get_block_inputs [account2] [x0a] [x0a] [0%N] s2).2 = true.
Proof.
  rewrite (proj1 (client_transparent s2)). vm_compute. reflexivity.
Defined.

(** A store that is never reached. *)
Definition unreachable (request : Proto.GetBlockHeaderByNumberRequest)
    : M nat Status Proto.GetBlockHeaderByNumberResponse := throw Internal.

Lemma unreachable_fails k n : fails unreachable k n n.
Proof. induction k as [|k IH]; [constructor|]. econstructor; [reflexivity|exact IH]. Defined.

Lemma genesis_retry_witness :
  (StoreClient.genesis_header_with_retry 40 unreachable (0, [])).2 = Panic "attempt to shift left with overflow".
Proof. apply (genesis_retry unreachable 33 0 0 (unreachable_fails 33 0)); lia. Defined.

(** ** Account proofs *)

Definition query_code (e : Queries.QueryError) : option (list (@AccountId objects)) :=
  match e with Queries.QueryDatabaseError (AccountsNotFoundInDb l) => Some l | _ => None end.

(** The value of an entry of slot 1 of account 2. *)
Definition request2 : AccountProofRequest := mk_proof_request account2 [mk_storage_keys 1 [dig x07]].

Definition no_codes : gset (@Digest objects) := ∅.

Lemma account_proofs_answer_witness :
  match AccountProofs.get_account_proofs [request2] no_codes true s1 with
  | (_, Ok (tip, responses)) => is_tip (db s1) tip ∧ length responses = 1
  | _ => False
  end.
Proof.
  destruct (account_proofs_answer s1 [request2] no_codes wire_consistent_s1) as [_ Hx].
  assert (is_ok (AccountProofs.get_account_proofs [request2] no_codes true s1).2 = true) as Hok
    by (vm_compute; reflexivity).
  destruct (AccountProofs.get_account_proofs [request2] no_codes true s1) as [s' [[tip responses]|e|p|]]; [|discriminate Hok..].
  destruct Hx as (_ & Htip & _ & Hall). split; [done|]. by rewrite <- (Forall2_length _ _ _ Hall).
Defined.

(** Two requests for one stored account: the query reports that none is missing. *)
Example duplicate_account_proofs :
  match (AccountProofs.get_account_proofs [request2; request2] no_codes true s1).2 with
  | Err e => query_code e = Some []
  | _ => False
  end.
Proof. vm_compute. reflexivity. Qed.

End WireRun.
