(* ===== verification/ProverExamples.v ===== *)
(** * Concrete runs of the prover proxy and of a remote prover

    Two workers and two requests: the theorems of [ProxyTheorems.v] apply. A run in
    which a busy worker misses a health check and one in which a request is retried
    show what happens outside their conditions. The second part instantiates the
    interface of [RemoteProver.v]. *)

From S2P Require Import Prelude.
From S2P Require Import Proxy.
From S2P Require Import ProxyTheorems.
From Stdlib Require Import Strings.Byte.
From S2P Require Import Bytes.
From S2P Require Import External.
From S2P Require Import NtxAccount.
From S2P Require Import StoreObjects.
From S2P Require Import Producer.
From S2P Require Import RemoteProver.
From S2P Require Import RemoteProverTheorems.
From S2P Require Import WireExamples.

Import Worker LoadBalancer Proxy.

Module ProxyRun.

(** Addresses are backends; versions are compared as strings. *)
#[global] Instance proxy_objects : ProxyObjects := {|
  Backend := string;
  backend_eq := String.string_dec;
  backend_new := Some;
  backend_addr := λ b, b;
  Version := string;
  version_parse := Some;
  VersionReq := string;
  version_req_matches := λ req v, bool_decide (req = v);
  WORKER_VERSION_REQUIREMENT := "0.10";
  StatusClient := unit;
  RemoteProverError := unit;
|}.

Definition up : Probe := mk_probe (inr tt) (λ _, inr (mk_status_response "0.10" 0)).
Definition down : Probe := mk_probe (inr tt) (λ _, inl "unreachable").

Definition lb0 : LoadBalancerState := LoadBalancer.new (λ _, up) 0 ["a"; "b"] 10 5 100 ProveTransaction.
Definition lb1 : LoadBalancerState := LoadBalancer.new (λ _, up) 0 ["a"] 10 5 100 ProveTransaction.

(** A request up to the choice of its worker, and up to its connection. *)
Definition picks (r : Uuid) : list Event := [NewRequest r; RequestFilter r true 1; UpstreamPeer r; UpstreamPeerLoop r].
Definition connects (r : Uuid) : list Event := picks r ++ [UpstreamPeerEnd r].

Definition next (ev : Event) (s : State) : State := match exec ev s with Some (s', _) => s' | None => s end.

Definition runs (ev : Event) (s : State) : bool := match exec ev s with Some (_, Ok _) => true | _ => false end.

Fixpoint all_run (evs : list Event) (s : State) : bool :=
  match evs with [] => true | ev :: evs => runs ev s && all_run evs (next ev s) end.

Definition after (evs : list Event) (s : State) : State := foldl (λ s ev, next ev s) s evs.

Definition worker_of (r : Uuid) (s : State) : option string :=
  match contexts s !! r with
  | Some c => match worker c with Some w => Some (backend w) | None => None end
  | None => None
  end.

Lemma serves_after allowed evs s :
  serves allowed s → (∀ s ev, ev ∈ evs → allowed s ev) → all_run evs s = true → serves allowed (after evs s).
Proof.
  revert s. induction evs as [|ev evs IH]; intros s Hs Ha Hr; [done|]. cbn in *.
  apply andb_true_iff in Hr as [Hr1 Hr2]. apply IH; [|intros s' ev' Hin; apply Ha; by right|done].
  unfold runs, next in *. destruct (exec ev s) as [[s' [[]| | |]]|] eqn:He; try done.
  apply (serves_exec allowed s ev); [done|apply Ha; by left|done].
Defined.

Definition s2 : State := after (connects 1 ++ connects 2) (start lb0).

Lemma careful_connects s ev : ev ∈ connects 1 ++ connects 2 → careful s ev.
Proof. intros Hin. repeat (apply elem_of_cons in Hin as [->|Hin]; [exact I|]). by apply elem_of_nil in Hin. Defined.

Lemma serves_s2 : serves careful s2.
Proof.
  apply (serves_after careful (connects 1 ++ connects 2) (start lb0)).
  - apply serves_start.
    + cbn. apply NoDup_cons. split; [|apply NoDup_singleton]. rewrite list_elem_of_singleton. discriminate.
    + by repeat constructor.
  - apply careful_connects.
  - vm_compute. reflexivity.
Defined.

Lemma proxy_queue_witness : runs (Logging 1) s2 = true ∧ NoDup (queue s2).
Proof.
  destruct (exec (Logging 1) s2) as [[s' x]|] eqn:He.
  - destruct (proxy_queue careful s2 (Logging 1) s' x serves_s2 I He) as (-> & Hn & _).
    split; [|exact Hn]. unfold runs. by rewrite He.
  - exfalso. assert (runs (Logging 1) s2 = true) as Hr by (vm_compute; reflexivity). unfold runs in Hr. by rewrite He in Hr.
Defined.

Lemma proxy_exclusive_witness :
  worker_of 1 s2 = Some "a" ∧ worker_of 2 s2 = Some "b" ∧
  ∀ c1 c2 w1 w2, contexts s2 !! 1%N = Some c1 → contexts s2 !! 2%N = Some c2 →
    worker c1 = Some w1 → worker c2 = Some w2 → backend w1 ≠ backend w2.
Proof.
  split; [vm_compute; reflexivity|]. split; [vm_compute; reflexivity|]. intros c1 c2 w1 w2 Hc1 Hc2 Hw1 Hw2 Heq.
  pose proof (proj1 (proxy_exclusive s2 serves_s2) 1%N 2%N c1 c2 w1 w2 Hc1 Hc2 Hw1 Hw2 Heq) as Hx. discriminate.
Defined.

(** A worker that failed a check a second ago. *)
Definition failed : Worker := mk_worker "a" (Some tt) false (Unhealthy 1 0 (StatusFailed "unreachable")) "0.10".

Lemma worker_backoff_heals_witness :
  is_available ((check_and_update down (from_secs 1) ProveTransaction : M Worker Empty_set unit) failed).1 = true.
Proof.
  rewrite (worker_backoff_heals down (from_secs 1) ProveTransaction failed 1 0 (StatusFailed "unreachable")).
  - reflexivity.
  - reflexivity.
  - vm_compute. discriminate.
Defined.

(** The only worker serves request 1, misses a check, and is in its back-off at the
    next one. *)
Definition flap_run : list Event :=
  connects 1 ++
  [HealthCheck (λ _, down) (λ _, from_secs 10); HealthCheck (λ _, down) (λ _, from_secs 11)] ++ connects 2.

(** A worker can be given to two requests. A worker that misses a health check
    while it serves a request is marked available by the next check, since it is in
    its back-off period, and the next request gets it too. *)
Theorem proxy_flapping_worker :
  all_run flap_run (start lb1) = true ∧
  worker_of 1 (after flap_run (start lb1)) = Some "a" ∧ worker_of 2 (after flap_run (start lb1)) = Some "a".
Proof. split_and!; vm_compute; reflexivity. Qed.

(** Request 1 fails to connect to [a], is retried on [b], and ends. *)
Definition retry_run : list Event :=
  connects 1 ++ [FailToConnect 1; UpstreamPeer 1; UpstreamPeerLoop 1; UpstreamPeerEnd 1; Logging 1].

(** A retried request loses a worker. The worker that a request could not connect
    to is overwritten in its context by the next one and never given back: no
    request is left, and it stays unavailable. *)
Theorem proxy_retry_loses_worker :
  let s := after retry_run (start lb0) in
  all_run retry_run (start lb0) = true ∧ contexts s = ∅ ∧ num_busy_workers (balancer s) = 1 ∧
  (λ w, (backend w, is_available w)) <$> workers (balancer s) = [("a", false); ("b", true)].
Proof. split_and!; vm_compute; reflexivity. Qed.

End ProxyRun.

(** ** A concrete remote prover

    An instance of the interface of [RemoteProver.v] with its laws on the objects of
    [WireExamples.v]: a witness is the transaction it proves, a proven batch lists the
    ids and accounts of its transactions. *)

Import WireConcrete.
Import ProverApi.

Module RemoteProverRun.

#[global] Instance producer_objects : @ProducerObjects objects ntx_objects store_objects := {|
  ptx_read_from_bytes := λ _, None;
  BatchInputs := unit;
  ProposedBatch := list Tx;
  ProposedBatchError := unit;
  ProvenBatchError := unit;
  proposed_batch_new := λ txs _, inr (txs : list Tx);
  proposed_batch_id := λ _, 0%N;
  batch_security_level := λ _, 96%N;
  MIN_PROOF_SECURITY_LEVEL := 96%N;
  batch_unauthenticated_notes := λ _, [];
  batch_reference_block_num := λ _, 0%N;
  batch_updated_accounts := λ _, [];
  batch_created_nullifiers := λ _, [];
  BlockInputs := N;
  ProposedBlock := Block;
  ProposedBlockError := unit;
  ProvenBlockError := unit;
  proposed_block_new := λ _ _, inl tt;
  block_security_level := λ _, 96%N;
  StoreError := unit;
  RemoteProverClientError := unit;
|}.

Definition parts (t : Tx) : byte * byte * list byte := (c_id t, c_account t, c_unauthenticated t).
Definition of_parts (p : byte * byte * list byte) : Tx := mk_tx p.1.1 p.1.2 p.2.

Definition tx_bytes (t : Tx) : bytes := to_b (parts t).
Definition tx_read (l : bytes) : option Tx := of_parts <$> of_b l.

Lemma tx_read_bytes t : tx_read (tx_bytes t) = Some t.
Proof. unfold tx_read, tx_bytes. rewrite of_to_b. by destruct t. Qed.

Definition txs_bytes (l : list Tx) : bytes := to_b (parts <$> l).
Definition txs_read (l : bytes) : option (list Tx) := (λ ps : list (byte * byte * list byte), of_parts <$> ps) <$> of_b l.

Lemma txs_read_bytes l : txs_read (txs_bytes l) = Some l.
Proof.
  unfold txs_read, txs_bytes. rewrite of_to_b. cbn. f_equal. induction l as [|[] l IH]; [done|]. cbn. by f_equal.
Qed.

(** The batch of the transactions. *)
Definition batch_of (l : list (byte * byte)) : N := Npos (encode l).
Definition txs_of (b : N) : list (byte * byte) := match b with N0 => [] | Npos p => default [] (decode p) end.

#[global] Instance prover_objects : @ProverObjects objects ntx_objects store_objects producer_objects := {|
  TransactionWitness := Tx;
  ProverError := unit;
  prove_witness := λ t, if decide (c_id t = x00) then inl tt else inr (t : Tx);
  prove_proposed_batch := λ l, inr (batch_of ((λ t, (c_id t, c_account t)) <$> (l : list Tx)));
  prove_proposed_block := λ b, inr (b : Block);
  witness_to_bytes := tx_bytes;
  witness_read := tx_read;
  proposed_batch_to_bytes := txs_bytes;
  proposed_batch_read := txs_read;
  proposed_block_to_bytes := to_b (A := Block);
  proposed_block_read := of_b (A := Block);
  proven_tx_to_bytes := tx_bytes;
  proven_tx_read := tx_read;
  proven_batch_to_bytes := to_b (A := N);
  proven_batch_read := of_b (A := N);
  proven_block_to_bytes := to_b (A := Block);
  proven_block_read := of_b (A := Block);
  TransactionHeader := byte * byte;
  header_eq := prod_eq_dec;
  txh_id := λ h, h.1;
  txh_account_id := λ h, h.2;
  txh_initial_state_commitment := λ _, zero;
  txh_final_state_commitment := λ _, zero;
  txh_input_notes := λ h, [h.1];
  txh_output_notes := λ _, [];
  proposed_batch_transactions := λ l, (l : list Tx);
  proven_batch_transactions := txs_of;
  proposed_block_transactions := λ b : Block, b.1.2;
  proven_block_transactions := λ b : Block, b.1.2;
|}.

#[global] Instance prover_laws : @ProverLaws objects ntx_objects store_objects producer_objects prover_objects.
Proof.
  split; try done; cbn; intros.
  - apply tx_read_bytes.
  - apply txs_read_bytes.
  - exact (of_to_b (A := Block) b).
  - apply tx_read_bytes.
  - exact (of_to_b (A := N) b).
  - exact (of_to_b (A := Block) b).
Defined.

Definition tx : Tx := mk_tx x05 x02 [].

(** A batch worker proves a batch and refuses a transaction. *)
Lemma remote_prove_local_witness :
  ProverClient.prove_batch dial_worker on_worker [tx] (None, BatchProver false) =
    ((Some tt, BatchProver false), Ok (batch_of [(x05, x02)])) ∧
  ProverClient.prove_transaction dial_worker on_worker tx (None, BatchProver false) =
    ((Some tt, BatchProver false), Err (ProverClient.ProveFailed Unimplemented)).
Proof.
  destruct (remote_prove_local None (BatchProver false)) as (Htx & Hbatch & _). split.
  - rewrite (Hbatch [tx]). reflexivity.
  - rewrite (Htx tx). reflexivity.
Defined.

Definition request (t : ProofType) : ProvingRequest := mk_proving_request (proof_type_to_i32 t) (txs_bytes [tx]).

(** The worker while it proves a batch for request 1. *)
Definition proving_one : Server :=
  mk_server (BatchProver true) {[ 1%N := inr (to_b (batch_of [(x05, x02)])) ]}.

Lemma serving_one : serving ProveBatch proving_one.
Proof.
  apply (serving_step ProveBatch (mk_server (new ProveBatch) ∅) 1%N None); [apply serving_start|].
  apply (step_started (mk_server (new ProveBatch) ∅) 1%N (request ProveBatch) (BatchProver true)); reflexivity.
Defined.

(** A second request meanwhile exhausts it. *)
Lemma prover_one_at_a_time_witness :
  size (proving proving_one) = 1 ∧ step proving_one 2%N (Some (inl ResourceExhausted)) proving_one.
Proof. exact (prover_one_at_a_time ProveBatch proving_one 2%N (request ProveBatch) serving_one eq_refl). Defined.

End RemoteProverRun.
