(* ===== verification/GenesisExamples.v ===== *)
(** * A concrete genesis

    Instances of the interfaces of genesis with their laws: an account is its id, its
    nonce, its supply if it is a faucet, the first slot of its storage and its balances;
    a header is its block number, and the trees are maps. *)

From Stdlib Require Import Strings.Byte.
From S2P Require Import Prelude.
From S2P Require Import Bytes.
From S2P Require Import External.
From S2P Require Import NtxAccount.
From S2P Require Import StoreObjects.
From S2P Require Import StoreSql.
From S2P Require Import StoreTrees.
From S2P Require Import StoreState.
From S2P Require Import StoreApply.
From S2P Require Import BlockStore.
From S2P Require Import Genesis.
From S2P Require Import GenesisTheorems.

Module GenesisConcrete.

Record Acct := mk_acct {
  c_id : N;
  c_nonce : N;
  c_supply : option N;
  c_issued : N * N * N * N;
  c_balances : gmap N N;
}.

Record AcctDelta := mk_acct_delta {
  d_id : N;
  d_values : gmap N (N * N * N * N);
  d_fungible : gmap N Z;
  d_nonce : N;
}.

Record Update := mk_update {
  c_update_id : N;
  c_update_commitment : N;
  c_update_details : option Acct;
}.

Definition c_balance (a : Acct) (f : N) : N := default 0%N (c_balances a !! f).

(** A delta removes nothing and sets the first slot. *)
Definition c_apply (a : Acct) (d : AcctDelta) : option Acct :=
  if decide (map_Forall (λ _ z, 0 ≤ z)%Z (d_fungible d) ∧ dom (d_values d) ⊆ {[0%N]}) then
    Some (mk_acct (c_id a) (c_nonce a + d_nonce d) (c_supply a) (default (c_issued a) (d_values d !! 0%N))
      (merge (λ x y, Some (Z.to_N (Z.of_N (default 0%N x) + default 0%Z y))) (c_balances a) (d_fungible d)))
  else None.

#[global] Instance objects : MidenObjects := {|
  TransactionId := N; AccountId := N; NoteId := N; Nullifier := N; BatchId := N;
  tx_id_key := N_key; account_id_key := N_key; note_id_key := N_key; nullifier_key := N_key; batch_id_key := N_key;
  Digest := N; digest_eq := N.eq_dec; digest_default := 0%N;
  bn_child := λ n, (n + 1)%N; bn_add := N.add; bn_checked_sub := λ n k, if (k <=? n)%N then Some (n - k)%N else None;
  Note := N; note_nullifier := λ n, n; note_is_network := λ _, true;
  OutputNote := N; output_note_id := λ n, n; output_note_full := Some;
  AccountUpdateDetails := option Acct; account_is_network := λ _, true;
  ProvenTransaction := Empty_set;
  ptx_id := λ t, match t with end; ptx_account_id := λ t, match t with end;
  ptx_initial_state_commitment := λ t, match t with end; ptx_final_state_commitment := λ t, match t with end;
  ptx_account_details := λ t, match t with end; ptx_nullifiers := λ t, match t with end;
  ptx_num_input_notes := λ t, match t with end; ptx_output_notes := λ t, match t with end;
  ptx_num_output_notes := λ t, match t with end; ptx_unauthenticated_notes := λ t, match t with end;
  ptx_expiration_block_num := λ t, match t with end; ptx_ref_block := λ t, match t with end;
  ProvenBatch := N; batch_id := λ b, b; batch_id_from_ids := λ l, Npos (encode l);
  BlockHeader := N; header_block_num := λ h, h;
  MAX_ACCOUNTS_PER_BATCH := 1024; MAX_INPUT_NOTES_PER_BATCH := 1024; MAX_OUTPUT_NOTES_PER_BATCH := 1024;
|}.

#[global] Instance laws : MidenLaws.
Proof. split; cbn; try done. intros l l' [= Heq]. by apply (inj encode) in Heq. Defined.

#[global] Instance ntx_objects : NtxObjects := {|
  NetworkAccountPrefix := N; prefix_key := N_key;
  Account := Acct; AccountDelta := AcctDelta; acc_id := c_id; delta_id := d_id; apply_delta := c_apply;
  details_view := λ d : option Acct, match d with Some a => New a | None => NtxAccount.Private end;
  prefix_of_id := λ id, id; note_prefix := λ n : N, n;
|}.

#[global] Instance store_objects : @StoreObjects objects ntx_objects := {|
  digest_countable := N_countable;
  header_commitment := λ h : N, (h + 1)%N; header_prev_block_commitment := λ h : N, h; header_tx_commitment := λ _, 0%N;
  header_chain_commitment := λ _, 0%N; header_nullifier_root := λ _, 0%N; header_account_root := λ _, 0%N;
  header_note_root := λ _, 0%N;
  Word := N * N * N * N; StorageMap := unit; NonFungibleAsset := N; asset_eq := N.eq_dec; asset_countable := N_countable;
  prefix_u32 := λ p : N, p;
  acc_commitment := λ a : Acct, (10 * c_id a + c_nonce a + 1)%N;
  acc_nonce := c_nonce;
  acc_slots := λ a : Acct, [SlotValue (c_issued a)];
  acc_assets := λ a : Acct, (λ e, Fungible e.1 (e.2 `min` (2 ^ 63 - 1))%N) <$> map_to_list (c_balances a);
  map_delta_of := λ _, [];
  delta_new := λ id values _ fungible _ nonce, Some (mk_acct_delta id values fungible nonce);
  delta_nonce := d_nonce;
  delta_values := λ d : AcctDelta, map_to_list (d_values d);
  delta_maps := λ _, [];
  delta_fungible := λ d : AcctDelta, map_to_list (d_fungible d);
  delta_non_fungible := λ _, [];
  non_fungible_add := λ m a, Some (<[a := false]> m);
  non_fungible_remove := λ m a, Some (<[a := true]> m);
  BlockAccountUpdate := Update; update_id := c_update_id; update_commitment := c_update_commitment;
  update_details := c_update_details;
  NoteMetadata := unit; NoteType := unit; NoteExecutionHint := unit;
  metadata_note_type := λ _, tt; metadata_sender := λ _, 0%N; metadata_tag := λ _, 0%N; metadata_aux := λ _, 0%N;
  metadata_hint := λ _, tt; note_type_u8 := λ _, 1%N; note_type_from := λ _, Some tt; hint_u64 := λ _, 0%N;
  hint_from := λ _, Some tt; tag_execution_mode := λ _, 0%N; is_felt := λ n, (n <? 2 ^ 64)%N;
  metadata_new := λ _ _ _ _ _, Some tt;
  NoteAssets := unit; NoteInputs := unit; NoteScript := unit; NoteDetails := unit;
  script_root := λ _, 0%N; details_assets := λ _, tt; details_inputs := λ _, tt; details_script := λ _, tt;
  details_serial_num := λ _, (0, 0, 0, 0)%N; details_new := λ _ _ _ _, tt; details_of := λ _, tt;
  MerklePath := unit; BlockNoteIndex := unit; batch_idx := λ _, 0%N; note_idx_in_batch := λ _, 0%N;
  output_note_is_partial := λ _, false; output_note_metadata := λ _, tt; note_index_new := λ _ _, Some tt;
  leaf_index_value := λ _, 0%N; nullifier_prefix := λ n : N, (n mod 2 ^ 16)%N;
  ProvenBlock := N * list Update * list (N * N); Bytes := N * list Update * list (N * N); block_bytes := λ b, b;
  block_header := λ b, b.1.1; block_commitment := λ b, (b.1.1 + 1)%N;
  block_updated_accounts := λ b, b.1.2;
  block_created_nullifiers := λ _, []; block_transactions := λ b, b.2; transactions_commitment := λ _, 0%N;
  block_output_notes := λ _, []; block_note_root := λ _, 0%N; block_note_path := λ _ _, tt;
|}.

#[global] Instance store_laws : @StoreLaws objects ntx_objects store_objects.
Proof.
  split; cbn; try done.
  - by intros [].
  - by intros [].
  - intros n. apply N.ltb_lt.
  - by intros [].
  - by intros [].
  - by intros [] [].
  - by intros [].
  - intros n. by apply N.mod_lt.
Defined.

#[global] Instance store_trees : @StoreTrees objects ntx_objects store_objects := {|
  NullifierTree := gmap N N; NullifierMutation := list (N * N); SmtProof := unit;
  nt_root := λ _, 0%N; nt_get_block_num := λ (t : gmap N N) n, t !! n;
  nt_compute_mutations := λ (t : gmap N N) l, if decide (Forall (λ n, t !! n = None) l.*1) then Some l else None;
  nt_apply_mutations := λ (t : gmap N N) m, Some (list_to_map m ∪ t); nm_root := λ _, 0%N;
  nt_with_entries := λ l, Some (list_to_map l); nt_open := λ _ _, tt;
  AccountTree := gmap N N; AccountMutation := list (N * N); AccountWitness := unit;
  at_root := λ _, 0%N; at_get := λ (t : gmap N N) id, default 0%N (t !! id);
  at_compute_mutations := λ _ l, Some l; at_apply_mutations := λ (t : gmap N N) m, Some (list_to_map m ∪ t);
  am_root := λ _, 0%N;
  at_with_entries := λ l, if decide (NoDup l.*1) then Some (list_to_map l) else None; at_open := λ _ _, tt;
  Blockchain := list N; MmrProof := unit; MmrPeaks := unit; MmrDelta := unit; PartialMmr := unit; PartialBlockchain := unit;
  chain_of := λ l, l; chain_tip := λ c, match length c with 0 => None | S n => Some (N.of_nat n) end;
  chain_push := λ c d, c ++ [d]; chain_peaks_hash := λ _, 0%N; chain_peaks_at := λ _ _, Some tt; chain_open := λ _ _, Some tt;
  chain_partial_mmr := λ _ _ _, Some tt; chain_delta := λ _ _ _, Some tt; mmr_delta_empty := λ _, tt;
  partial_blockchain_new := λ _ _, Some tt;
|}.

#[global] Instance tree_laws : @TreeLaws objects ntx_objects store_objects store_trees.
Proof.
  refine {|
    nt_entries := λ t : NullifierTree, t : gmap N N;
    id_slot := λ id : AccountId, id : N;
    at_ids := λ t : AccountTree, dom (t : gmap N N);
    chain_commitments := λ c : Blockchain, c : list N;
  |}; try (cbn; done).
  - cbn. intros t l m. case_decide as Hall; [|done]. intros _ n Hn. exact (proj1 (Forall_forall _ _) Hall n Hn).
  - cbn. intros t l m. case_decide; [|done]. intros [= <-] _ _. eauto.
  - cbn. eauto.
  - cbn. intros t l m [= <-] _ _. eexists. split; [done|]. split.
    + rewrite dom_union_L. f_equal. apply dom_list_to_map_L.
    + split; [done|]. intros id. rewrite lookup_union. by destruct (list_to_map l !! id), (t !! id).
  - cbn. intros l Hnd _ _. rewrite decide_True by done. eexists. split; [done|]. split; [apply dom_list_to_map_L|done].
Defined.

(** An id is the number that its seed encodes; ids from 100 on are private. *)
#[global] Instance genesis_objects : @GenesisObjects objects ntx_objects store_objects store_trees := {|
  felt_modulus := (2 ^ 64 - 2 ^ 32 + 1)%N;
  word_of_felts := λ a b c d, (a, b, c, d);
  TokenSymbol := string;
  token_symbol_new := λ s, if decide (s = "") then None else Some s;
  SecretKey := bytes; secret_key_of := λ r, r; init_seed_of := λ r, r;
  BasicFungibleFaucet := N;
  basic_faucet_new := λ _ decimals supply, if (decimals <=? 12)%N && (supply <? 2 ^ 63)%N then Some supply else None;
  basic_faucet_of := c_supply; max_supply_of := λ n, n; FAUCET_STORAGE_DATA_SLOT := 0%N;
  account_build := λ seed _ _ _ supply,
    Some (mk_acct (le_num seed) 0 (Some supply) (0, 0, 0, 0)%N ∅, (0, 0, 0, le_num seed)%N);
  create_basic_wallet := λ seed _ _ _, Some (mk_acct (le_num seed) 0 None (0, 0, 0, 0)%N ∅, (0, 0, 0, le_num seed)%N);
  vault_balance := c_balance;
  FungibleAsset := N * N;
  fungible_asset_new := λ id n, if (n <? 2 ^ 63)%N then Some (id, n) else None;
  asset_faucet := fst; asset_amount := snd;
  fungible_delta_add := λ d x,
    let sum := (default 0 (d !! x.1) + Z.of_N x.2)%Z in if (sum <? 2 ^ 63)%Z then Some (<[x.1 := sum]> d) else None;
  account_is_public := λ id : N, (id <? 100)%N;
  update_private := None; update_of_account := Some; account_update_new := mk_update;
  empty_smt_root := 0%N; empty_note_tree_root := 0%N; mmr_peaks_new := λ _ _, Some tt; hash_peaks := λ _, 0%N;
  kernel_commitment := 0%N; block_header_new := λ _ _ n _ _ _ _ _ _ _ _, n; proven_block_new := λ h us _ _ txs, (h, us, txs);
|}.

#[global] Instance account_laws : @AccountLaws objects ntx_objects store_objects store_trees genesis_objects.
Proof.
  split; cbn.
  - intros symbol decimals supply component seed type mode key a s. case_match; [|done]. intros [= <-] [= <- _].
    split; [done|]. by eexists.
  - by intros seed key type mode a s [= <- _].
  - intros id n asset. case_match; [|done]. by intros [= <-].
  - intros d [f n] d' f' . cbn. case_match; [|done]. intros [= <-]. case_decide as Hf.
    + subst f'. by rewrite lookup_insert_eq.
    + rewrite lookup_insert_ne by done. lia.
  - intros id values fungible nonce d a a' [= <-]. unfold c_apply. cbn. case_decide as Hd; [|done].
    destruct Hd as [Hpos Hdom]. intros [= <-]. cbn. split_and!; [done|lia| | |].
    + intros f. unfold c_balance. cbn. rewrite lookup_merge. destruct (c_balances a !! f) as [n|], (fungible !! f) as [z|] eqn:Hz; cbn.
      * specialize (Hpos f z Hz). cbn in Hpos. lia.
      * lia.
      * specialize (Hpos f z Hz). cbn in Hpos. lia.
      * lia.
    + intros slot v Hv. assert (slot = 0%N) as ->.
      { assert (slot ∈ dom values) as Hin%Hdom by (apply elem_of_dom; eauto). by apply elem_of_singleton in Hin. }
      rewrite Hv. done.
    + done.
Defined.

#[global] Instance genesis_laws : @GenesisLaws objects ntx_objects store_objects store_trees genesis_objects tree_laws.
Proof.
  split; cbn; try done.
  - intros l t. case_decide as Hnd; [|done]. intros _. by rewrite list_fmap_id.
  - intros a. lia.
  - intros a. lia.
  - intros a f n (e & [= -> ->] & _)%list_elem_of_fmap. lia.
Defined.

End GenesisConcrete.

(** ** A genesis with two faucets and three wallets *)

Import GenesisConcrete.
Import BlockStore.
Import Genesis.

(** The random bytes of the calls, so that the accounts have the ids 1, 2 and so on. *)
Definition random (i : nat) : bytes := le_bytes 4 (N.of_nat i + 1).

Definition faucet_configs : list FungibleFaucetConfig :=
  [mk_faucet_config "MIDEN" 6 1000 Public; mk_faucet_config "USD" 2 500 Network].

Definition wallet_configs : list WalletConfig :=
  [mk_wallet_config true Private [mk_asset_entry "MIDEN" 600; mk_asset_entry "USD" 5; mk_asset_entry "USD" 2];
   mk_wallet_config false Public [mk_asset_entry "MIDEN" 400];
   mk_wallet_config false Public []].

Definition config : GenesisConfig := mk_config 1 12345 wallet_configs faucet_configs.

Definition run (c : GenesisConfig) := into_state random map_to_list c.

Definition state_of {E A B} (default : A) (r : res E (A * B)) : A := match r with Ok (g, _) => g | _ => default end.

Definition g : GenesisState := state_of (mk_genesis_state [] 0 0) (run config).

(** Ids, nonces, what faucets have issued, and what wallets hold of the two assets. *)
Definition view (a : Acct) : N * N * N * (N * N) := (c_id a, c_nonce a, (c_issued a).2, (c_balance a 1, c_balance a 2)).


(** Bootstrapping a fresh disk with it. *)
Definition disk : Disk := mk_disk (mk_fs {["/data"]} ∅) None.

Definition no_faults : BootstrapFaults := mk_bootstrap_faults no_io_faults false false false.

Lemma genesis_bootstraps_witness :
  match bootstrap no_faults g "/data" disk with
  | (d, Ok _) => ∃ block t s, holds (disk_fs d) (mk_block_store "/data/blocks") {[0%N := block]} ∧ database d = Some t ∧
      StoreState.load {[0%N := block]} t = (t, Ok s) ∧ consistent s ∧
      at_get (StoreState.account_tree (StoreState.inner s)) 3%N = 32%N ∧
      at_get (StoreState.account_tree (StoreState.inner s)) 9%N = 0%N
  | _ => False
  end.
Proof.
  assert (block_store_dir "/data" ∉ dirs (disk_fs disk)) as Hnew by (vm_compute; intros [=]).
  pose proof (genesis_bootstraps no_faults g "/data" disk ltac:(vm_compute; reflexivity) Hnew eq_refl eq_refl) as Hb.
  assert (match (bootstrap no_faults g "/data" disk).2 with Ok _ => true | _ => false end = true) as Hok
    by (vm_compute; reflexivity).
  assert ((λ a : Acct, (c_id a, c_nonce a)) <$> accounts g = [(1, 1); (2, 1); (3, 1); (4, 1); (5, 1)]%N) as Hids
    by (vm_compute; reflexivity).
  revert Hb Hok. generalize (bootstrap no_faults g "/data" disk). intros [d [u|e|p|]] Hb Hok; try discriminate Hok.
  destruct Hb as (block & t & b & s & _ & Ht & Hload & Hh & Hs & Hc & _ & _ & _ & _ & _ & Hin & Hout & _).
  exists block, t, s. 
  assert (b = mk_block_store "/data/blocks") as ->.
  { exact (load_spec _ _ _ _ Hload). }
  split_and!; [done|done|done|done| |].
  - assert ((3, 1)%N ∈ (λ a : Acct, (c_id a, c_nonce a)) <$> accounts g) as (a & [= Hid Hn] & Ha)%list_elem_of_fmap.
    { rewrite Hids. right. right. left. }
    specialize (Hin a Ha). cbn in Hin. rewrite <- Hid, <- Hn in Hin. exact Hin.
  - apply Hout. intros (a & Hid & Ha)%list_elem_of_fmap. cbn in Hid.
    assert ((9, c_nonce a)%N ∈ (λ a : Acct, (c_id a, c_nonce a)) <$> accounts g) as Hin9.
    { apply list_elem_of_fmap. exists a. split; [by rewrite Hid|exact Ha]. }
    rewrite Hids in Hin9. repeat (apply elem_of_cons in Hin9 as [[=]|Hin9]). by apply not_elem_of_nil in Hin9.
Defined.

(** ** What a configuration cannot say *)

(** More is assigned than the supply. *)
Example over_issued :
  match run (mk_config 1 0 [mk_wallet_config true Public [mk_asset_entry "USD" 501]] faucet_configs) with
  | Err (MaxIssuanceExceeded symbol total supply) => symbol = "USD" ∧ total = 501%N ∧ supply = 500%N
  | _ => False
  end.
Proof. vm_compute. done. Qed.

(** A supply of [2^64 - 1], which the configuration can express, panics instead of
    being refused. *)
Example supply_panics :
  match run (mk_config 1 0 [] [mk_faucet_config "MIDEN" 6 (2 ^ 64 - 1) Public]) with Panic _ => True | _ => False end.
Proof. vm_compute. done. Qed.

(** The padding of eleven wallets is one digit wide, so that the names are not in the
    order of the wallets. *)
Example padding_too_short :
  wallet_file_name (ilog10 (10 `max` 11)) 2 = "wallet_2.mac" ∧ wallet_file_name (ilog10 (10 `max` 11)) 10 = "wallet_10.mac".
Proof. vm_compute. done. Qed.
