(* ===== verification/NodeExamples.v ===== *)
(** * A concrete start of a node

    The node of [NodeStart.v] starts on the store of [WireExamples.v]: the block
    producer asks the store before it is loaded, and waits; then the components come
    up one after the other, the transaction builder subscribes, and both pass the
    checkpoint. *)

From S2P Require Import Prelude.
From S2P Require Import External.
From S2P Require Import Subscription.
From S2P Require Import Mempool.
From S2P Require Import NtxAccount.
From S2P Require Import StoreObjects.
From S2P Require Import StoreTrees.
From S2P Require Import StoreState.
From S2P Require Import StoreApply.
From S2P Require Import WireObjects.
From S2P Require Import Producer.
From S2P Require Import NodeStart.
From S2P Require Import WireExamples.
Import WireConcrete.
Import WireRun.

Module NodeRun.

(** A channel that remembers what was sent, up to its capacity. *)
#[global] Instance channel : @Channel objects := {|
  Sender := nat * list MempoolEvent;
  Receiver := unit;
  mpsc_channel := λ n, ((n, []), tt);
  try_send := λ s ev, if decide (length s.2 < s.1) then Some (s.1, s.2 ++ [ev]) else None;
|}.

#[global] Instance channel_laws : @ChannelLaws objects channel.
Proof.
  refine {| sent := λ s : Sender, s.2 : list MempoolEvent; capacity := λ s : Sender, s.1 |}; try done.
  - intros [n l] ev s'. cbn. case_decide; [|done]. by intros [= <-].
  - intros [n l] ev Hroom. cbn in *. rewrite decide_True by done. eauto.
Defined.

(** A batch is its transactions, and a request the bytes of none. *)
#[global] Instance producer_objects : @ProducerObjects objects ntx_objects store_objects := {|
  ptx_read_from_bytes := λ _, None;
  BatchInputs := unit;
  ProposedBatch := list Tx;
  ProposedBatchError := unit;
  ProvenBatchError := unit;
  proposed_batch_new := λ txs _, inr (txs : list Tx);
  proposed_batch_id := λ txs, @batch_id_from_ids objects ((λ t, (c_id t, c_account t)) <$> (txs : list Tx));
  batch_security_level := λ _, 96%N;
  MIN_PROOF_SECURITY_LEVEL := 96%N;
  batch_unauthenticated_notes := λ _, [];
  batch_reference_block_num := λ _, 0%N;
  batch_updated_accounts := λ _, [];
  batch_created_nullifiers := λ _, [];
  BlockInputs := N;
  ProposedBlock := Block;
  ProposedBlockError := unit;
  ProvenBlockError := unit;
  proposed_block_new := λ _ _, inl tt;
  block_security_level := λ _, 96%N;
  StoreError := unit;
  RemoteProverClientError := unit;
|}.

#[global] Instance producer_laws : @ProducerLaws objects ntx_objects store_objects producer_objects.
Proof. split. intros txs inputs p [= <-]. reflexivity. Defined.

Import NodeStart.

Definition next (n : Node) (ev : Event) : Node := default n (exec ev n).

Definition after (evs : list Event) (n : Node) : Node := foldl next n evs.

Definition node0 : Node := start (mk_config 8 8 None None) ∅ (StoreState.db s1) false.

(** The producer asks first, then the store comes up. *)
Definition up_to_checkpoint : list Event := [FetchChainTip; FetchGenesis; LoadStore; FetchChainTip; ServeProducer].

Definition up_to_subscription : list Event := [FetchGenesis; LoadState 3; FetchBlockchainData].

Definition at_checkpoint : Node := after up_to_checkpoint node0.

Definition at_subscription : Node := after up_to_subscription at_checkpoint.

Definition producing : Node := after [Subscribe; PassCheckpoint] at_subscription.

Definition producer_stage (n : Node) : nat :=
  match producer n with FetchingTip _ => 0 | TipFetched _ => 1 | AtCheckpoint _ => 2 | Producing _ => 3 end.

Definition builder_stage (n : Node) : nat :=
  match builder n with
  | Disabled => 0 | FetchingGenesis _ => 1 | Loading _ => 2 | FetchingChainTip _ _ => 3
  | Subscribing _ _ _ _ => 4 | Subscribed _ _ _ => 5 | Running _ _ _ => 6
  end.

Example stages_at_checkpoint : (producer_stage at_checkpoint, builder_stage at_checkpoint) = (2, 1).
Proof. vm_compute. reflexivity. Qed.

Example stages_at_subscription : (producer_stage at_subscription, builder_stage at_subscription) = (2, 4).
Proof. vm_compute. reflexivity. Qed.

Example stages_producing : (producer_stage producing, builder_stage producing) = (3, 6).
Proof. vm_compute. reflexivity. Qed.

Definition is_produce (ev : Event) : bool := match ev with Produce _ => true | _ => false end.

Lemma reachable_after evs n : reachable n → forallb (λ ev, negb (is_produce ev)) evs = true → reachable (after evs n).
Proof.
  revert n. induction evs as [|ev evs IH]; intros n Hn; [done|]. cbn. intros [Hev Hevs]%andb_prop.
  apply IH; [|done]. unfold next. destruct (exec ev n) as [n'|] eqn:He; [|done]. cbn.
  apply (reachable_exec n ev n' Hn); [by destruct ev|done].
Defined.

Lemma reachable_subscription : reachable at_subscription.
Proof. apply reachable_after; [apply reachable_after|]; [|reflexivity..]. apply reachable_start, wire_consistent_s1. Defined.

(** What a node at the subscription looks like. *)
Definition view (n : Node) : option N :=
  match failed n, world n, builder n with None, Some _, Subscribing _ _ tip _ => Some tip | _, _, _ => None end.

Lemma subscribing_view n tip : view n = Some tip →
  failed n = None ∧ (∃ w, world n = Some w) ∧ ∃ g s k, builder n = Subscribing g s tip k.
Proof. unfold view. destruct (failed n), (world n), (builder n); try done. intros [= <-]. eauto 10. Defined.

Lemma at_subscription_view : view at_subscription = Some 1%N.
Proof. vm_compute. reflexivity. Defined.


(** One note stops every start of the transaction builder, and with it the node: the
    store has accepted a block with a network note whose [aux] is 2^63. *)
Definition aux_block : @ProvenBlock _ _ store_objects :=
  (1%N, [(account2, dig Byte.x1e, true)], [], [(tx5, account2)], [(false, false, (note1.1, (account2, false, true)))]).

Definition aux_node : Node := start (mk_config 8 8 None None) ∅ (StoreState.db (apply aux_block genesis)) false.

Example aux_note_stops_start :
  is_ok ((StoreState.apply_block StoreState.no_faults aux_block : M StoreState.State StoreState.ApplyBlockError unit) genesis).2 = true ∧
  builder_stage (after (up_to_checkpoint ++ [FetchGenesis]) aux_node) = 2 ∧
  failed (after (up_to_checkpoint ++ [FetchGenesis; LoadState 3]) aux_node) = Some NtxBuilder.
Proof. split_and!; vm_compute; reflexivity. Qed.

End NodeRun.
